(* ===== verification/_CoqProject ===== *)
-Q . S2P
Prelude.v
Regex.v
LoopTypes.v
ContractCompile.v
Ownership.v
Lifecycle.v
RecoveryPolicy.v
Frontier.v
Dependencies.v
Schedule.v
Precondition.v
Observation.v
Claims.v
TypedRequests.v
RecoveryEpisodes.v
Settlement.v
RecoveryHandlers.v
Store.v
Locks.v
Holds.v
StageDiagnostic.v
Applicability.v
Observe.v
Reconcile.v
Supervisor.v
LoopSteps.v
Drive.v
Cycle.v
CycleFacts.v
LinkedAdvance.v
Candidate.v
Execute.v
ExecuteFacts.v
ReviewFindings.v
ReviewPolicy.v
EvidenceSubject.v
OverrideGovernance.v
ReviewHistory.v
ReviewGate.v
ReviewSamples.v
