(* ===== verification/Prelude.v ===== *)
(** * A verification library for the agent-pipeline durable engine

    agent-pipeline drives issues of a repository through implementation,
    review and release.  Two of its subsystems carry the decisions that must
    not go wrong, and this library models both as executable functions and
    proves what makes them correct.  Paths below are relative to
    [src/core/scripts/].

    - The _durable loop engine_ ([loop/]) runs many items unattended.  A
      contract fixes the items, their dependencies, their ownership
      declarations and the recovery policy; a ledger records the state of every
      item, the recovery attempts, the stop and Cooling records and the
      lifecycle record.  Every operation reads the ledger from the store under
      a run lock, decides, and writes the next one with events.
    - The _review gate_ decides whether a finding of a review blocks the work:
      it partitions findings by policy, honours recorded overrides within their
      governance, reads the audit history out of comments, and bounds the delta
      rounds.

    ** The parts and where they are modelled

    Shared:

    - [Prelude] (this file): the error monad for code that throws, objects as
      entry lists, JSON values, numbers, string helpers ([trim], [join],
      [includes], comparison), generic lemmas, tactics and the hint database
      [pipeline].
    - [Regex]: the regular expressions the code uses, a matcher in the language's
      priority order, proved exact ([exec_exact]), and global replacement.

    The durable loop engine:

    - [LoopTypes]: the data model of [loop/types.ts] (contract, items, ledger,
      entries, stop, Cooling, attempts, identities) with the record types of
      [recovery-lifecycle-ownership.ts] and [typed-request-resolution.ts].
    - [ContractCompile]: [compileContractItems] of [loop/dependencies.ts].
    - [Ownership]: [loop/ownership.ts], from the validator to the verdict.
    - [Lifecycle]: [recovery-lifecycle-ownership.ts], the law of the durable
      lifecycle record.
    - [RecoveryPolicy]: [loop/recovery-policy-compat.ts] and the legacy themes of
      [loop/import.ts].
    - [Frontier]: the document upgrades, [classifyBlocker] and
      [eligibleIndependentItems] of [loop/recovery.ts].
    - [Dependencies]: external dependencies, skip propagation and deadlock
      detection of [loop/dependencies.ts].
    - [Schedule]: [loop/schedule.ts], the independent-set scheduler and the
      post-run overlap check.
    - [Precondition]: [loop/precondition.ts], which items may start.
    - [Observation]: the integration certainty of observed items.
    - [Claims]: [loop/operation-claim.ts], at-most-once claims of operations.
    - [TypedRequests]: [typed-request-resolution.ts], requests a run may answer
      by itself.
    - [RecoveryEpisodes]: [loop/recovery-episodes.ts], the strategy cursor, its
      selection rule, Cooling and the authority checks of persisted episodes.
    - [Settlement]: [grill-taxonomy.ts], [grill-settle.ts] and the resolution of
      [typed-request-resolution.ts]: what is settled without a human.
    - [RecoveryHandlers]: the operations of [loop/recovery.ts] that write the
      ledger: [blockItem], [classifyAndBlockItem], [startRecoveryAttempt],
      [completeRecoveryAttempt], [recoverItem], [persistOwnedCooling].
    - [Store]: the document layer of [loop/store.ts]: the shape check of the
      ledger, the published and the last valid generation with the quarantine
      and restore of a read, token-checked writes, the event log.  [RunStore]
      keeps the ledger a read gives and the generations the check rejected.
    - [Locks]: the lock file of [loop/store.ts] as a step relation of competing
      processes.
    - [Holds]: [loop/pause.ts]: pause, resume, wait, amend, abandon.
    - [StageDiagnostic]: [stage-diagnostic.ts] and [pre-merge-offramp.ts], the typed
      outcome of one advance and its projection onto a recovery class.
    - [Applicability]: [loop/recovery-applicability.ts] with the recipe filters and the
      evidence identity, and the sibling queries of [loop/recovery.ts].
    - [Observe] and [Reconcile]: [loop/reconcile.ts], what is read from the
      forge and how the ledger is brought to agree with it.
    - [Supervisor]: the writes of [loop/supervisor.ts] itself (starting,
      returning and taking over items, retiring claims, clearing holds, stops and
      Cooling) and [loop/run-fatal-resume.ts].
    - [LoopSteps]: the transition system of a whole run, any interleaving of the
      operations above, and its invariant.
    - [Drive]: attaching to a run, the phases of a resume, the cycle loop with
      its watchdog and cap, the report and the release of the lock.
    - [Cycle] and [CycleFacts]: [runSupervisorCycle] up to the dispatch, as a
      composition of effects that go on, return or throw, and a small program
      logic for it.
    - [LinkedAdvance]: the refinement of a block's evidence from the events of
      the advance it came from.
    - [Candidate]: the candidate a block belongs to and the re-admission of a
      block whose candidate was superseded.
    - [Execute] and [ExecuteFacts]: [executeBlockedRecovery], from its guards to
      the completion of the claim, and [blockAndExecuteRecovery], in the effects
      of [Cycle]; the executor and what is observed are in [ExecDeps].

    The review gate:

    - [ReviewFindings]: keys and sanitization of findings.
    - [ReviewPolicy]: [review-policy.ts], the partition of findings.
    - [EvidenceSubject]: [evidence-subject.ts], the subject a decision is bound
      to, its digest and its comparison.
    - [OverrideGovernance]: [override-governance.ts], which overrides are in
      force.
    - [ReviewHistory]: the audit records read back from comments.
    - [ReviewGate]: the delta-round gate composed from these.
    - [ReviewSamples]: concrete runs of the gate and the witnesses of its
      theorems.

    A cycle of the supervisor composes the loop's parts: reconcile the ledger
    with the forge, verify external dependencies, propagate skips, filter by
    precondition, clear holds, recover blocked items, detect deadlocks, select a
    schedulable set and start it; a failing item is blocked, a strategy is
    selected and claimed, and the claim is completed.  A drive repeats cycles
    under the run lock until one of them ends it.

    ** What the theorems show

    - The store ([generations_refine]): reading and writing the two generations
      on disk is what the model's store does, quarantine and restore included.
    - The whole run ([run_invariant], [fresh_run_sound]): every interleaving of
      the operations keeps what a read gives well formed and passing the check,
      and never rewrites history; from a fresh initialization every item in a
      remote state rests on a supporting identity.
    - Driving it ([drive_releases], [drive_evolves], [drive_ends_exactly],
      [stall_bounded], [report_honest], [attach_exact],
      [run_fatal_resume_exact], [authority_expiry_exact], [reopen_exact]): a
      drive ends within its cap and at the first cycle with an end, leaves no
      lock of its own once it has attached and read its contract (two steps
      before that can, [failed_announcement_keeps_the_lock]) and reports what
      happened.  The loop is proved against the interfaces [CycleLaw] and
      [AllDoneLaw]; every cycle made of steps of the run implements the first
      ([run_steps_lawful]), and so do the supervisor's own ([cycles_lawful]).
    - A cycle of it ([plan_sound], [dispatch_guarded]): wherever it ends before
      the dispatch, the run evolved lawfully and what it reports is on record, in
      the stored ledger or in one of this cycle the check rejected; items reach
      the dispatch only in progress and without another live advance.  The
      execution of a recovery is used through the interface [RecoveryLaw]; only
      [cycles_lawful] assumes something of the dispatch, [DispatchLaw].
    - Candidates ([binding_exact], [readmission_exact]): a block is traced back to
      the candidate it was raised for, and lifted without a recovery only for
      another one.
    - Evidence ([refinement_justified], [tail_equivalent]): a diagnostic is
      replaced only by the last word of exactly the linked run, and what may
      follow a blocker is given by a shorter check.
    - Recovery ([recovery_sound], [executor_guarded], [judged_exact],
      [recovery_depth]): its execution discharges [RecoveryLaw]
      ([recovery_discharged]), calls the executor only under an open claim of the
      item it wrote or found,
      and believes it only on an observed postcondition.  Nested calls take fuel:
      two suffice unless the environment excludes repairs; with that setting each
      nested call closes an open repair, and the fuel bounds how many.
    - Contract compilation ([compile_total], [compile_sound]): it returns exactly
      on acyclic snapshots with distinct ids, and the result is a topologically
      ordered permutation that loses no dependency.
    - Ownership and scheduling ([globOverlap_complete], [schedule_safe],
      [schedule_progress]): the overlap test misses no common path; selections
      are safe, explained and never empty without reason.  The admission loop is
      proved against the interface [IndependenceOracle], which the contract's
      path and ownership tests implement.
    - Frontier and dependencies ([eligible_items_spec], [propagation_exact],
      [no_silent_stall]): the offered items are exactly the eligible ones;
      propagation computes exactly the doomed items (an inductive specification,
      [Doomed]); a run never stalls silently.
    - Recovery ([handlers_preserve], [handlers_accept_exactly], [claim_effect],
      [completion_effect], [episode_authority], [compiled_policy_wf]): one
      invariant over every sequence of handlers and the reads between them, the
      exact effect of each, the exact conditions of acceptance, and what a
      persisted episode must satisfy to count.
    - Lifecycle ([terminal_needs_evidence], [lifecycle_invariant],
      [stranded_work_redriven], [audit_precedes_effect]).
    - Operation claims ([claims_monotone], [claim_linearizable]) and the lock
      file ([lock_refines_contract]): effects happen at most once, and the
      competing processes refine an abstract mutual-exclusion contract.
    - Holds and reconciliation ([resume_fail_closed], [reconcile_settles],
      [reconcile_effect], [forward_repair_proven], [transition_needs_proof],
      [integration_fail_closed]): a hold is left only with what it asked for,
      reconciliation reaches a fixed point and moves an item only on proof.
    - Settlement ([auto_settle_sound], [authority_supplied], [reclassify_sound]):
      what is settled without asking, whom a request for authority may name, and
      which holds in flight are lifted.
    - Stage diagnostics ([authority_needs_evidence], [blocker_event_resolved],
      [projection_ignores_prose]): work goes to a human exactly on typed evidence,
      prose has no say, and a reader never invents an outcome.
    - Applicability ([applicability_exact], [progress_identity_exact],
      [continuable_exact]): when a recipe may run, which episode a block continues,
      and when a stopped run still has work.
    - The review gate ([delta_gate_exact], [delta_pass_justified],
      [delta_reviews_bounded], [partition_exact], [projected_overrides_govern],
      [override_record_exact], [recorded_override_effective],
      [override_duration_bounded], [digest_exact],
      [subject_comparison_exact]): a delta round passes only when every finding
      is answered by policy or by an override in force, no finding is lost or
      counted twice, what is recorded is what is enforced, and the number of
      rounds is bounded.

    Further theorems record divergences between code and documentation, among
    them [globOverlap_not_exact], [dot_segment_alias_unsound],
    [frontier_can_hold_linked_items], [refused_claim_breaks_authority],
    [refused_claim_rolled_back], [failed_announcement_keeps_the_lock],
    [sod_never_refuses], [undated_never_expires], [ceiling_ignores_expiry],
    [prefixed_label_reopens], [paused_drive_reports_all_done],
    [authority_event_throws], [error_code_erased], [sibling_needs_statuses],
    [silent_cycle], [inflected_action_settles], [release_with_changelog_settles].

    ** Conventions

    - A function that throws returns [result LoopError]; the messages are the
      code's.  A handler takes the ledger it read and returns the ledger it
      wrote with the events it appended ([Effect]); a refused call writes
      nothing.  An operation over the store returns the list of its writes
      ([StoreWrite]) in the order the code issues them.
    - Objects whose order is observed are entry lists in enumeration order,
      [Map] and [Set] are [gmap] and [gset]; strings are lists of code units
      below 256; optional and nullable fields are [option]; alias fields that
      repeat another ([idempotency_key], [status], [last_error],
      [next_attempt_at]) and fields no modelled function reads are left out.
      Lookups see own properties: keys spelled like a member of
      [Object.prototype] ([constructor]) are outside the model.
    - Numbers read from documents are exact rationals or non-finite ([jsnum]);
      counts and cursors are integers.  The only place where rounding of doubles
      decides something, [Number] of an issue id, is modelled with it.
    - An audit comment is its parsed marker: the regular expression that finds
      the marker in the comment's text is the boundary of the model.
    - Parameters stand for what the sources only call: the digests ([sha256hex],
      [sha1hex]), whether a text parses as a date ([IsoDates]), the evidence fingerprint built on them
      ([fingerprintEvidence]), [Date.parse], ISO times ([isoAfter], [isoOfMs]),
      printing and reading a number ([showNum], [toNumber]), the locale order
      ([localeLe]), minting an operation id ([mint], uuid), the observation
      seam [ReconcileObserveDeps] and the identity adapter, whose calls may
      throw.  Where a theorem relies on one it says so in a hypothesis, and its
      witness instantiates the parameter.

    ** Fuel

    The loops that recurse on fuel have fuel that is proved enough: [visit] (one
    unit per item), [skipLoop] (every pass but the last skips an item;
    [propagateSkips] is proved to return), [dependsLoop] (a dependency is pushed
    once; proved equal to reachability), [blockedWalk] (every visited dependency
    enqueues its own once; proved to list exactly the reachable ones) and
    [scanTokens] (each step consumes a character).  The fuel of [driveLoop] is the
    code's own cycle cap, that of [sleepChunks] the twelve chunks of a minute.

    ** What is not modelled

    Child processes and harnesses, the forge client, the stages, prompts and
    command-line front end, roadmap, release and evaluation tooling: they are
    input and output around the decisions modelled here.  Of the supervisor: the
    repair executors, the dispatch of items to child processes and the mirroring
    of their progress: the first two are arguments.  Of the store: the owned wait
    that is salvaged where neither the published nor the last valid generation
    passes the check, and documents that are not JSON or of another schema; a
    ledger is taken to be written on what was read last, so that two writes in a
    row, the first of them rejected, see the restored generation.  Within the
    modelled files: the quarantine file names, rendering of comments for humans,
    and the contents of the process record, heartbeat and handoff files of a
    drive (that writing them can fail is modelled).

    ** Plan

    Next: the classification of a dispatched item's outcome. *)

From Stdlib Require Import QArith Qcanon Qround Ascii.
From stdpp Require Import numbers base gmap strings list sorting relations.

(** ** Results of fallible code

    A TypeScript function that throws is a function into [result]: the error
    value carries what the thrown object carries. *)

Inductive result (E A : Type) : Type :=
| Ok (a : A)
| Err (e : E).
Arguments Ok {E A} a.
Arguments Err {E A} e.

Definition rbind {E A B} (m : result E A) (k : A → result E B) : result E B :=
  match m with
  | Ok a => k a
  | Err e => Err e
  end.

Declare Scope result_scope.
Delimit Scope result_scope with result.
Notation "'try' x ':=' m 'in' k" := (rbind m (fun x => k))
  (at level 10, x pattern, m at level 100, k at level 200) : result_scope.

(** [for (const x of l) body]: a loop whose body may throw. *)
Fixpoint rfold {E S A} (f : S → A → result E S) (s : S) (l : list A) : result E S :=
  match l with
  | [] => Ok s
  | x :: l' => rbind (f s x) (fun s' => rfold f s' l')
  end.

(** ** Plain objects used as maps

    A [Record<string, V>] whose iteration order is observed is its list of
    entries in [Object.entries] order; writing an existing key keeps its
    place. *)

Abbreviation obj V := (list (string * V)).

Fixpoint oget {V} (o : obj V) (k : string) : option V :=
  match o with
  | [] => None
  | (k', v) :: o' => if decide (k = k') then Some v else oget o' k
  end.

(** [o[k] = v]; a new key goes last, as every key that is not an array index
    does.  Objects keyed by item ids, which may be array indices, are only
    rewritten at keys they have; [item_cooling] alone gains such keys, and it is
    read by key. *)
Fixpoint oset {V} (k : string) (v : V) (o : obj V) : obj V :=
  match o with
  | [] => [(k, v)]
  | (k', v') :: o' => if decide (k = k') then (k', v) :: o' else (k', v') :: oset k v o'
  end.

Definition ovalues {V} (o : obj V) : list V := o.*2.
Definition okeys {V} (o : obj V) : list string := o.*1.

(** [new Map(entries)]: a later entry overwrites an earlier one. *)
Definition js_map {V} (entries : list (string * V)) : gmap string V :=
  foldl (fun m p => <[p.1 := p.2]> m) ∅ entries.

(** [xs.join(sep)]. *)
Fixpoint join (sep : string) (xs : list string) : string :=
  match xs with
  | [] => ""
  | [x] => x
  | x :: xs' => x +:+ sep +:+ join sep xs'
  end.

(** The double quote, for message texts. *)
Definition dq : string := String (Ascii.ascii_of_nat 34) EmptyString.
Definition quoted (s : string) : string := dq +:+ s +:+ dq.

(** [xs.sort()] on strings: ascending code-unit order. *)
Definition js_sort (xs : list string) : list string := merge_sort String.le xs.

(** [xs.includes(x)] and [set.has(x)] on small constant collections. *)
Definition includes {A} `{EqDecision A} (x : A) (xs : list A) : bool := bool_decide (x ∈ xs).

(** ** Strings as character lists *)

Abbreviation chars := String.list_ascii_of_string.
Abbreviation unchars := String.string_of_list_ascii.

(** White space as [String.prototype.trim] sees it, below code unit 256. *)
Definition js_space (c : ascii) : bool :=
  let n := nat_of_ascii c in
  (n =? 32) || ((9 <=? n) && (n <=? 13)) || (n =? 160).

Fixpoint drop_spaces (l : list ascii) : list ascii :=
  match l with
  | [] => []
  | c :: l' => if js_space c then drop_spaces l' else l
  end.

Definition trim (l : list ascii) : list ascii := reverse (drop_spaces (reverse (drop_spaces l))).

(** [s.trim()] and [s.trim().length === 0]. *)
Definition js_trim (s : string) : string := unchars (trim (chars s)).
Definition blank (s : string) : bool := bool_decide (trim (chars s) = []).

(** [s.toLowerCase()] below code unit 256: [A] to [Z], and the accented capitals
    from 192 to 222 but for the multiplication sign. *)
Definition lower (c : ascii) : ascii :=
  let n := nat_of_ascii c in
  if ((65 <=? n) && (n <=? 90) || (192 <=? n) && (n <=? 222) && negb (n =? 215))%nat
  then ascii_of_nat (n + 32) else c.

Definition lowerString (s : string) : string := unchars (lower <$> chars s).

(** [s.slice(p.length)] when [s.startsWith(p)]. *)
Fixpoint strip_prefix (p s : string) : option string :=
  match p, s with
  | EmptyString, _ => Some s
  | String a p', String b s' => if decide (a = b) then strip_prefix p' s' else None
  | String _ _, EmptyString => None
  end.

Definition startsWith (s p : string) : bool := bool_decide (is_Some (strip_prefix p s)).

(** [xs.indexOf(x)]. *)
Fixpoint indexOf {A} `{EqDecision A} (x : A) (xs : list A) : option nat :=
  match xs with
  | [] => None
  | y :: xs' => if decide (x = y) then Some 0 else S <$> indexOf x xs'
  end.

(** ** Numbers and JSON values

    A finite number is its rational value; [NaN] and the infinities are the
    one non-finite value (the code only ever asks [Number.isFinite]). *)

Inductive jsnum :=
| Fin (q : Qc)
| NonFinite.

#[export] Instance jsnum_eq_dec : EqDecision jsnum.
Proof. solve_decision. Defined.

Definition num (z : Z) : jsnum := Fin (Q2Qc (inject_Z z)).

(** [x >= y] for a literal [y]; comparisons with [NaN] are false and the
    callers test [Number.isFinite] first. *)
Definition num_geb (x : jsnum) (y : Z) : bool :=
  match x with
  | Fin q => Qle_bool (inject_Z y) q
  | NonFinite => false
  end.

Definition isFinite (x : jsnum) : bool :=
  match x with Fin _ => true | NonFinite => false end.

Definition isInteger (x : jsnum) : bool :=
  match x with Fin q => Qeq_bool q (inject_Z (Qfloor q)) | NonFinite => false end.

(** The value of a document read by [JSON.parse] ([unknown] in the source). *)
Inductive jval :=
| JNull
| JBool (b : bool)
| JNum (n : jsnum)
| JStr (s : string)
| JArr (xs : list jval)
| JObj (fields : list (string * jval)).

#[export] Instance jval_eq_dec : EqDecision jval.
Proof.
  refine (fix go (x y : jval) : Decision (x = y) :=
    match x, y with
    | JNull, JNull => left eq_refl
    | JBool a, JBool b => cast_if (decide (a = b))
    | JNum a, JNum b => cast_if (decide (a = b))
    | JStr a, JStr b => cast_if (decide (a = b))
    | JArr a, JArr b => cast_if (list_eq_dec (dec := go) a b)
    | JObj a, JObj b => cast_if (list_eq_dec (dec := @prod_eq_dec _ _ _ go) a b)
    | _, _ => right _
    end); abstract congruence.
Defined.

(** [!v] for a value read from a document. *)
Definition falsy (v : option jval) : bool :=
  match v with
  | None | Some JNull | Some (JBool false) => true
  | Some (JNum n) => bool_decide (n = num 0) || negb (isFinite n)
  | Some (JStr s) => bool_decide (s = "")
  | _ => false
  end.

(** ** Tactics *)

(** Case analysis on the first match or conditional of the goal. *)
Ltac case_match_goal :=
  match goal with
  | |- context [match ?e with _ => _ end] => destruct e eqn:?
  end.

(** Case analysis on the first match or conditional of a hypothesis. *)
Ltac case_match_in H :=
  match type of H with
  | context [match ?e with _ => _ end] => destruct e eqn:?
  end.

(** Take apart a successful bind. *)
Ltac inv_bind H :=
  match type of H with
  | rbind ?m _ = Ok _ =>
      let x := fresh "x" in
      let E := fresh "E" in
      destruct m as [x|?] eqn:E; simpl in H; [|discriminate H]
  end.

Create HintDb pipeline.

(** ** Objects *)

Section Objects.
Context {V : Type}.
Implicit Types (o : obj V) (k : string) (v : V).

Lemma oget_oset_eq k v o : oget (oset k v o) k = Some v.
Proof. induction o as [|[k' v'] o IH]; simpl; repeat (case_decide; simplify_eq/=); auto. Qed.

Lemma oget_oset_ne k k' v o : k ≠ k' → oget (oset k v o) k' = oget o k'.
Proof.
  intros. induction o as [|[k'' v''] o IH]; simpl; repeat (case_decide; simplify_eq/=); auto.
Qed.

Lemma oget_Some_elem k v o : oget o k = Some v → (k, v) ∈ o.
Proof.
  induction o as [|[k' v'] o IH]; simpl; [done|].
  case_decide; intros; simplify_eq; [left|right]; auto.
Qed.

Lemma oget_is_Some k o : is_Some (oget o k) ↔ k ∈ okeys o.
Proof.
  unfold okeys. induction o as [|[k' v'] o IH]; simpl.
  - split; [intros [? ?]; done|intros Hin; inversion Hin].
  - rewrite elem_of_cons. case_decide; simplify_eq; [split; eauto|]. rewrite IH. naive_solver.
Qed.

Lemma elem_oget k v o : NoDup (okeys o) → (k, v) ∈ o → oget o k = Some v.
Proof.
  unfold okeys. induction o as [|[k' v'] o IH]; simpl; [intros _ Hin; inversion Hin|].
  rewrite NoDup_cons, elem_of_cons. intros [Hni Hnd] [Heq|Hin]; simplify_eq.
  - by rewrite decide_True.
  - rewrite decide_False; [by apply IH|]. intros ->. apply Hni.
    apply list_elem_of_fmap. by exists (k', v).
Qed.

Lemma okeys_oset k v o : k ∈ okeys o → okeys (oset k v o) = okeys o.
Proof.
  unfold okeys. induction o as [|[k' v'] o IH]; simpl; [intros Hin; inversion Hin|].
  rewrite elem_of_cons. intros Hin. case_decide; simplify_eq/=; [done|].
  f_equal. apply IH. naive_solver.
Qed.

Lemma elem_ovalues v o : v ∈ ovalues o ↔ ∃ k, (k, v) ∈ o.
Proof.
  unfold ovalues. rewrite list_elem_of_fmap. split.
  - intros ([k v'] & -> & ?). by exists k.
  - intros (k & ?). by exists (k, v).
Qed.
Lemma oset_id k v o : oget o k = Some v → oset k v o = o.
Proof.
  induction o as [|[k' v'] o IH]; simpl; [done|]. case_decide; intros; simplify_eq; [done|].
  by rewrite IH.
Qed.

Lemma elem_okeys_oset k x v o : x ∈ okeys (oset k v o) ↔ x = k ∨ x ∈ okeys o.
Proof.
  unfold okeys. induction o as [|[k' v'] o IH]; simpl.
  - rewrite list_elem_of_singleton, elem_of_nil. naive_solver.
  - case_decide; simplify_eq/=; rewrite !elem_of_cons; [naive_solver|]. rewrite IH. naive_solver.
Qed.

Lemma NoDup_okeys_oset k v o : NoDup (okeys o) → NoDup (okeys (oset k v o)).
Proof.
  induction o as [|[k' v'] o IH]; simpl; [intros _; apply NoDup_singleton|].
  rewrite NoDup_cons. intros [Hni Hnd]. case_decide; simplify_eq/=; apply NoDup_cons; [done|].
  split; [|by apply IH]. intros Hin. apply elem_okeys_oset in Hin as [->|Hin]; done.
Qed.

(** Setting the elements of a list under injective keys keeps each of them. *)
Lemma ovalues_fold_oset (f : V → string) (l : list V) (o : obj V) :
  NoDup (okeys o) → (∀ k v, oget o k = Some v → k = f v) →
  (∀ x y, x ∈ l ∨ x ∈ ovalues o → y ∈ l ∨ y ∈ ovalues o → f x = f y → x = y) →
  let o' := foldl (fun m s => oset (f s) s m) o l in
  NoDup (okeys o') ∧ (∀ k v, oget o' k = Some v → k = f v) ∧
  ∀ v, v ∈ ovalues o' ↔ v ∈ l ∨ v ∈ ovalues o.
Proof.
  revert o. induction l as [|x l IH]; intros o Hnd Hk Hinj; simpl.
  { repeat split; [done..|by right|]. by intros [Hv|]; [inversion Hv|]. }
  assert (∀ v, v ∈ ovalues (oset (f x) x o) ↔ v = x ∨ v ∈ ovalues o) as Hv.
  { intros v. rewrite !elem_ovalues. split.
    - intros [k Hin]. apply elem_oget in Hin; [|by apply NoDup_okeys_oset].
      destruct (decide (f x = k)) as [<-|Hne].
      + rewrite oget_oset_eq in Hin. simplify_eq. by left.
      + rewrite oget_oset_ne in Hin by done. right. eauto using oget_Some_elem.
    - intros [->|[k Hin]]; [exists (f x); apply oget_Some_elem, oget_oset_eq|].
      pose proof Hin as Hin'. apply elem_oget in Hin; [|done]. pose proof (Hk _ _ Hin) as ->.
      destruct (decide (f x = f v)) as [He|Hne].
      + assert (x = v) as <-; [|exists (f x); apply oget_Some_elem, oget_oset_eq].
        apply Hinj; [left; left|right; apply elem_ovalues; eauto|done].
      + exists (f v). apply oget_Some_elem. by rewrite oget_oset_ne. }
  destruct (IH (oset (f x) x o)) as (H1 & H2 & H3).
  - by apply NoDup_okeys_oset.
  - intros k v. destruct (decide (f x = k)) as [<-|Hne].
    + rewrite oget_oset_eq. by intros [= ->].
    + rewrite oget_oset_ne by done. apply Hk.
  - intros y z Hy Hz. rewrite !Hv in *. apply Hinj; rewrite elem_of_cons; naive_solver.
  - split; [done|]. split; [done|]. intros v. rewrite H3, Hv, elem_of_cons. naive_solver.
Qed.
End Objects.

#[export] Hint Resolve oget_oset_eq oget_Some_elem : pipeline.

(** ** Maps built from a list of entries *)

Lemma js_map_lookup_fold {V} (l : list (string * V)) (m : gmap string V) k v :
  NoDup l.*1 →
  (foldl (fun m p => <[p.1 := p.2]> m) m l) !! k = Some v ↔
  (k, v) ∈ l ∨ (k ∉ l.*1 ∧ m !! k = Some v).
Proof.
  revert m. induction l as [|[k' v'] l IH]; intros m; simpl.
  { intros _. rewrite elem_of_nil. split; [intros; right; split; [apply not_elem_of_nil|done]|].
    by intros [[]|[_ ?]]. }
  rewrite NoDup_cons. intros [Hni Hnd]. rewrite IH by done. rewrite elem_of_cons, not_elem_of_cons.
  destruct (decide (k = k')) as [->|Hne].
  - rewrite lookup_insert_eq. split.
    + intros [Hin|[_ Hs]]; [by auto|]. simplify_eq. auto.
    + intros [[?|?]|[[? _] _]]; simplify_eq; auto.
  - rewrite lookup_insert_ne by done. naive_solver.
Qed.

Lemma js_map_lookup {V} (l : list (string * V)) k v :
  NoDup l.*1 → js_map l !! k = Some v ↔ (k, v) ∈ l.
Proof.
  intros Hnd. unfold js_map. rewrite js_map_lookup_fold by done.
  rewrite lookup_empty. naive_solver.
Qed.

Lemma js_map_None {V} (l : list (string * V)) k :
  NoDup l.*1 → k ∉ l.*1 → js_map l !! k = None.
Proof.
  intros Hnd Hk. destruct (js_map l !! k) as [v|] eqn:E; [|done].
  apply js_map_lookup in E; [|done]. destruct Hk. apply list_elem_of_fmap. by exists (k, v).
Qed.

(** ** Lists *)

Lemma includes_true {A} `{EqDecision A} (x : A) xs : includes x xs = true ↔ x ∈ xs.
Proof. unfold includes. by rewrite bool_decide_eq_true. Qed.

Lemma includes_false {A} `{EqDecision A} (x : A) xs : includes x xs = false ↔ x ∉ xs.
Proof. unfold includes. by rewrite bool_decide_eq_false. Qed.

Lemma js_sort_elem x xs : x ∈ js_sort xs ↔ x ∈ xs.
Proof. unfold js_sort. by rewrite merge_sort_Permutation. Qed.

Lemma js_sort_sorted xs : StronglySorted String.le (js_sort xs).
Proof. apply StronglySorted_merge_sort; apply _. Qed.

Lemma existsb_elem {A} (f : A → bool) l : existsb f l = true ↔ ∃ x, x ∈ l ∧ f x = true.
Proof. rewrite existsb_exists. by setoid_rewrite list_elem_of_In. Qed.

Lemma forallb_elem {A} (f : A → bool) l : forallb f l = true ↔ ∀ x, x ∈ l → f x = true.
Proof. rewrite forallb_forall. by setoid_rewrite list_elem_of_In. Qed.

Lemma existsb_not_elem {A} (f : A → bool) l : existsb f l = false ↔ ∀ x, x ∈ l → f x = false.
Proof.
  rewrite <-not_true_iff_false, existsb_elem. split.
  - intros H x Hx. apply not_true_iff_false. naive_solver.
  - intros H (x & Hx & Ht). rewrite H in Ht; done.
Qed.

(** A separator that does not occur after its last place splits uniquely. *)
Lemma last_separator {A} (x : A) l k l' k' :
  x ∉ k → x ∉ k' → l ++ x :: k = l' ++ x :: k' → l = l' ∧ k = k'.
Proof.
  intros Hk Hk'. revert l'. induction l as [|a l IH]; intros [|b l'] Heq; injection Heq; clear Heq.
  - by intros ->.
  - intros -> ->. destruct Hk. apply elem_of_app. right. left.
  - intros Heq ->. destruct Hk'. rewrite <-Heq. apply elem_of_app. right. left.
  - intros Heq ->. by destruct (IH l' Heq) as [-> ->].
Qed.

Lemma strip_prefix_Some p s t : strip_prefix p s = Some t ↔ s = p +:+ t.
Proof.
  revert s. induction p as [|a p IH]; intros s; [split; [by intros [= ->]|by intros ->]|].
  change (String a p +:+ t) with (String a (p +:+ t)). destruct s as [|b s]; simpl; [split; congruence|].
  destruct (decide (a = b)); [rewrite IH|]; split; congruence.
Qed.

Lemma startsWith_true s p : startsWith s p = true ↔ ∃ t, s = p +:+ t.
Proof. unfold startsWith. rewrite bool_decide_eq_true. unfold is_Some. by setoid_rewrite strip_prefix_Some. Qed.

Lemma indexOf_Some {A} `{EqDecision A} (x : A) xs n : indexOf x xs = Some n → xs !! n = Some x.
Proof.
  revert n. induction xs as [|y xs IH]; intros n; simpl; [done|]. destruct (decide (x = y)) as [->|]; [by intros [= <-]|].
  destruct (indexOf x xs) as [m|]; simpl; [|done]. intros [= <-]. by apply IH.
Qed.

Lemma indexOf_is_Some {A} `{EqDecision A} (x : A) xs : is_Some (indexOf x xs) ↔ x ∈ xs.
Proof.
  induction xs as [|y xs IH]; simpl; [split; [by intros [? ?]|intros H; inversion H]|].
  rewrite elem_of_cons. destruct (decide (x = y)); [naive_solver|]. rewrite fmap_is_Some, IH. naive_solver.
Qed.

(** *** Trimming *)

Lemma drop_spaces_idem l : drop_spaces (drop_spaces l) = drop_spaces l.
Proof. induction l as [|c l IH]; simpl; [done|]. destruct (js_space c) eqn:E; [done|]. simpl. by rewrite E. Qed.

Lemma drop_spaces_suffix l : ∃ k, l = k ++ drop_spaces l.
Proof.
  induction l as [|c l [k IH]]; simpl; [by exists []|]. destruct (js_space c); [|by exists []].
  exists (c :: k). simpl. by f_equal.
Qed.


Lemma trim_fixed l : drop_spaces (trim l) = trim l.
Proof.
  unfold trim. set (m := drop_spaces l). destruct (drop_spaces_suffix (reverse m)) as [k Hk].
  assert (m = reverse (drop_spaces (reverse m)) ++ reverse k) as Hm.
  { rewrite <-reverse_app, <-Hk. by rewrite reverse_involutive. }
  assert (drop_spaces m = m) as Hd by apply drop_spaces_idem.
  destruct (reverse (drop_spaces (reverse m))) as [|c t] eqn:E; [done|]. simpl in Hm. rewrite Hm in Hd. simpl in *.
  destruct (js_space c) eqn:Ec; [|done]. exfalso. destruct (drop_spaces_suffix (t ++ reverse k)) as [k' Hk'].
  rewrite Hd in Hk'. apply (f_equal length) in Hk'. rewrite !length_app in Hk'. simpl in Hk'. rewrite length_app in Hk'. lia.
Qed.

Lemma trim_idem l : trim (trim l) = trim l.
Proof.
  unfold trim at 1. rewrite trim_fixed. unfold trim. rewrite reverse_involutive. by rewrite drop_spaces_idem.
Qed.

Lemma js_trim_idem s : js_trim (js_trim s) = js_trim s.
Proof. unfold js_trim. by rewrite String.list_ascii_of_string_of_list_ascii, trim_idem. Qed.

Lemma blank_trim s : blank (js_trim s) = blank s.
Proof. unfold blank, js_trim. by rewrite String.list_ascii_of_string_of_list_ascii, trim_idem. Qed.

Lemma blank_js_trim s : blank s = bool_decide (js_trim s = "").
Proof.
  unfold blank, js_trim. apply bool_decide_ext. split; [by intros ->|].
  intros H. apply (f_equal String.list_ascii_of_string) in H. by rewrite String.list_ascii_of_string_of_list_ascii in H.
Qed.

(** Under distinct keys the place of an element is unique. *)
Lemma NoDup_split_unique {A B} (f : A → B) l1 x l2 m1 y m2 :
  NoDup (f <$> l1 ++ x :: l2) → l1 ++ x :: l2 = m1 ++ y :: m2 → f x = f y →
  l1 = m1 ∧ x = y ∧ l2 = m2.
Proof.
  revert m1. induction l1 as [|a l1 IH]; intros [|b m1]; simpl; intros Hnd Heq Hf; simplify_eq; auto.
  - apply NoDup_cons in Hnd as [Hni _]. destruct Hni. rewrite fmap_app, Hf.
    apply elem_of_app. right. left.
  - apply NoDup_cons in Hnd as [Hni _]. destruct Hni. rewrite fmap_app, <-Hf.
    apply elem_of_app. right. left.
  - apply NoDup_cons in Hnd as [_ Hnd]. destruct (IH m1 Hnd ltac:(done) Hf) as (-> & -> & ->). auto.
Qed.

(** A loop invariant for [rfold]. *)
Lemma rfold_ind {E S A} (f : S → A → result E S) (P : S → Prop) l s s' :
  P s → (∀ s x s', x ∈ l → P s → f s x = Ok s' → P s') → rfold f s l = Ok s' → P s'.
Proof.
  revert s. induction l as [|x l IH]; intros s Hs Hf; simpl; [by intros [= <-]|].
  intros H. inv_bind H. eapply IH; [|intros; eapply Hf; eauto|exact H].
  - eapply Hf; eauto. by left.
  - by right.
Qed.

(** Each element's effect [Q] is established by its turn and kept by the others. *)
Lemma rfold_each {E S A} (f : S → A → result E S) (P : S → Prop) (Q : A → S → Prop) l s s' :
  P s →
  (∀ s x s', x ∈ l → P s → f s x = Ok s' → P s' ∧ Q x s') →
  (∀ s x y s', x ∈ l → P s → Q y s → f s x = Ok s' → Q y s') →
  rfold f s l = Ok s' → P s' ∧ (∀ x, x ∈ l → Q x s').
Proof.
  revert s. induction l as [|x l IH]; intros s Hs Hf Hk; simpl.
  { intros [= <-]. split; [done|]. intros y Hy. inversion Hy. }
  intros H. inv_bind H.
  destruct (Hf s x x0) as [HP HQ]; [by left|done..|].
  assert (∀ s y s', y ∈ l → P s → f s y = Ok s' → P s' ∧ Q y s') as Hf'.
  { intros s1 y s2 Hy. apply Hf. by right. }
  assert (∀ s y z s', y ∈ l → P s → Q z s → f s y = Ok s' → Q z s') as Hk'.
  { intros s1 y z s2 Hy. apply Hk. by right. }
  destruct (IH x0 HP Hf' Hk' H) as [HP' HQ'].
  split; [done|]. intros y Hy. apply elem_of_cons in Hy as [->|Hy]; [|by apply HQ'].
  apply (rfold_ind f (fun s => P s ∧ Q x s) l x0 s' (conj HP HQ)); [|exact H].
  intros s1 z s2 Hz [HP1 HQ1] Hs2. split; [by eapply Hf'|by eapply Hk'].
Qed.

(** A loop whose body always succeeds succeeds; a failing loop has a failing body. *)
Lemma rfold_Err {E S A} (f : S → A → result E S) (P : S → Prop) l s e :
  P s → (∀ s x s', x ∈ l → P s → f s x = Ok s' → P s') → rfold f s l = Err e →
  ∃ s1 x, x ∈ l ∧ P s1 ∧ f s1 x = Err e.
Proof.
  revert s. induction l as [|x l IH]; intros s Hs Hf; simpl; [done|].
  destruct (f s x) as [s1|e'] eqn:E1; simpl.
  - intros H.
    assert (∀ s y s', y ∈ l → P s → f s y = Ok s' → P s') as Hf'.
    { intros s2 y s3 Hy. apply Hf. by right. }
    destruct (IH s1 (Hf _ _ _ (list_elem_of_here _ _) Hs E1) Hf' H) as (s2 & y & ? & ? & ?).
    exists s2, y. split; [by right|done].
  - intros [= ->]. exists s, x. split; [by left|done].
Qed.

#[export] Hint Resolve includes_true includes_false : pipeline.
