(* ===== verification/Regex.v ===== *)
(** * Regular expressions

    The fragment of the language's regular expressions the modelled code uses
    (classes, concatenation, choice, greedy repetition, word boundaries), with
    the priority order of its backtracking matcher and [s.replace(/r/g, t)].
    The matcher is proved to return exactly the ends of the declarative matches,
    and the replacement to be the left-to-right rewriting of first matches. *)

From Stdlib Require Import Ascii.
From stdpp Require Import base numbers strings list sets.
From S2P Require Import Prelude.
Local Open Scope nat_scope.

(** ** Expressions and positions *)

(** [Many lo more r] is [r{lo,lo+more}], without an upper bound for [None]. *)
Inductive regex :=
| Empty
| Char (test : ascii → bool)
| Cat (r1 r2 : regex)
| Alt (r1 r2 : regex)
| Many (lo : nat) (more : option nat) (r : regex)
| Boundary
| AtEnd.

(** A position: the character before it and the text after it. *)
Definition pos : Type := option ascii * list ascii.

(** [\d], [\w] and [\s] below code unit 256. *)
Definition isDecimal (c : ascii) : bool := let n := nat_of_ascii c in (48 <=? n) && (n <=? 57).
Definition wordChar (c : ascii) : bool :=
  let n := nat_of_ascii c in
  isDecimal c || (65 <=? n) && (n <=? 90) || (97 <=? n) && (n <=? 122) || (n =? 95).

Definition atBoundary (p : pos) : bool :=
  xorb (from_option wordChar false p.1) (from_option wordChar false (head p.2)).

(** ** The matcher *)

Section Iterate.
Context (f : pos → list pos).

(** [n] obligatory iterations. *)
Fixpoint exactly (n : nat) (p : pos) : list pos :=
  match n with
  | 0 => [p]
  | S n' => f p ≫= exactly n'
  end.

(** Up to [n] further ones, longest first; an iteration that consumes nothing
    is given up. *)
Fixpoint atMost (n : nat) (p : pos) : list pos :=
  match n with
  | 0 => [p]
  | S n' => (f p ≫= fun q => if length q.2 <? length p.2 then atMost n' q else []) ++ [p]
  end.
End Iterate.

(** The ends of the matches from a position, in the order they are tried. *)
Fixpoint exec (r : regex) (p : pos) : list pos :=
  match r with
  | Empty => [p]
  | Char t => match p.2 with c :: s => if t c then [(Some c, s)] else [] | [] => [] end
  | Cat r1 r2 => exec r1 p ≫= exec r2
  | Alt r1 r2 => exec r1 p ++ exec r2 p
  | Many lo more r' => exactly (exec r') lo p ≫= fun q => atMost (exec r') (default (length q.2) more) q
  | Boundary => if atBoundary p then [p] else []
  | AtEnd => if decide (p.2 = []) then [p] else []
  end.

(** [s.replace(/r/g, t)]. *)
Fixpoint replaceFrom (fuel : nat) (r : regex) (t : list ascii) (p : pos) : list ascii :=
  match fuel with
  | 0 => []
  | S n =>
      let keep := match p.2 with [] => [] | c :: s => c :: replaceFrom n r t (Some c, s) end in
      match exec r p with
      | q :: _ => if length q.2 <? length p.2 then t ++ replaceFrom n r t q else t ++ keep
      | [] => keep
      end
  end.

Definition replaceAll (r : regex) (t : string) (s : string) : string :=
  unchars (replaceFrom (S (length (chars s))) r (chars t) (None, chars s)).

(** ** What it means to match *)

Inductive matches : regex → pos → pos → Prop :=
| m_empty p : matches Empty p p
| m_char t b c s : t c = true → matches (Char t) (b, c :: s) (Some c, s)
| m_cat r1 r2 p q q' : matches r1 p q → matches r2 q q' → matches (Cat r1 r2) p q'
| m_alt_l r1 r2 p q : matches r1 p q → matches (Alt r1 r2) p q
| m_alt_r r1 r2 p q : matches r2 p q → matches (Alt r1 r2) p q
| m_many lo more r n p q :
    times r n p q → lo ≤ n → (∀ m, more = Some m → n ≤ lo + m) → matches (Many lo more r) p q
| m_boundary p : atBoundary p = true → matches Boundary p p
| m_end p : p.2 = [] → matches AtEnd p p
with times : regex → nat → pos → pos → Prop :=
| t_none r p : times r 0 p p
| t_more r n p q q' : matches r p q → times r n q q' → times r (S n) p q'.

Scheme matches_mut := Induction for matches Sort Prop
  with times_mut := Induction for times Sort Prop.
Combined Scheme matches_times_ind from matches_mut, times_mut.

(** ** A match consumes a prefix *)

Definition consumes (p q : pos) : Prop := p = q ∨ length q.2 < length p.2.

Lemma consumes_trans p q q' : consumes p q → consumes q q' → consumes p q'.
Proof. unfold consumes. intros [->|?] [->|?]; auto with lia. Qed.

Lemma match_consumes :
  (∀ r p q, matches r p q → consumes p q) ∧ (∀ r n p q, times r n p q → consumes p q).
Proof.
  apply matches_times_ind; try (by left); try done.
  - intros. right. simpl. lia.
  - intros. by eapply consumes_trans.
  - intros. by eapply consumes_trans.
Qed.

Lemma times_app r n m p q : times r (n + m) p q ↔ ∃ x, times r n p x ∧ times r m x q.
Proof.
  split.
  - revert p. induction n as [|n IH]; simpl; intros p H; [exists p; by split; [constructor|]|].
    inv H. destruct (IH _ ltac:(eassumption)) as (x & ? & ?). exists x. split; [by econstructor|done].
  - intros (x & H & Hm). induction H; simpl; [done|]. econstructor; eauto.
Qed.

(** ** The matcher finds the matches *)

Section Spec.
Context (r : regex) (Hr : ∀ p q, q ∈ exec r p ↔ matches r p q).

Lemma exactly_spec n p q : q ∈ exactly (exec r) n p ↔ times r n p q.
Proof.
  revert p. induction n as [|n IH]; intros p; simpl.
  - rewrite list_elem_of_singleton. split; [intros ->; constructor|by inversion 1].
  - rewrite list_elem_of_bind. setoid_rewrite IH. setoid_rewrite Hr. split.
    + intros (x & ? & ?). by econstructor.
    + inversion 1; subst. eauto.
Qed.

Lemma atMost_self n p : p ∈ atMost (exec r) n p.
Proof. destruct n; simpl; set_solver. Qed.

Lemma atMost_sound n p q : q ∈ atMost (exec r) n p → ∃ m, m ≤ n ∧ times r m p q.
Proof.
  revert p. induction n as [|n IH]; intros p; simpl.
  - rewrite list_elem_of_singleton. intros ->. exists 0. split; [lia|constructor].
  - rewrite elem_of_app, list_elem_of_bind, list_elem_of_singleton. intros [(x & Hx & Hq)| ->].
    + destruct (_ <? _); [|by inv Hx]. apply IH in Hx as (m & ? & ?). exists (S m). split; [lia|]. econstructor; [by apply Hr|done].
    + exists 0. split; [lia|constructor].
Qed.

(** Iterations that consume nothing can be left out, so as many as there are
    characters are enough. *)
Lemma atMost_complete m p q n : times r m p q → m ≤ n ∨ length p.2 ≤ n → q ∈ atMost (exec r) n p.
Proof.
  revert p n. induction m as [|m IH]; intros p n H Hn; inversion H as [|? ? ? x ? Hx Ht]; subst; [apply atMost_self|].
  destruct (proj1 match_consumes _ _ _ Hx) as [->|Hlt]; [apply IH; [done|lia]|].
  destruct n as [|n]; [lia|]. simpl. rewrite elem_of_app, list_elem_of_bind. left. exists x. split; [|by apply Hr].
  rewrite (proj2 (Nat.ltb_lt _ _) Hlt). apply IH; [done|lia].
Qed.
End Spec.

(** The matcher returns exactly the ends of the matches, whatever the nesting of
    repetitions, and terminates on every expression. *)
Theorem exec_exact r p q : q ∈ exec r p ↔ matches r p q.
Proof.
  revert p q. induction r as [|t|r1 IH1 r2 IH2|r1 IH1 r2 IH2|lo more r IH| |]; intros p q; simpl.
  - rewrite list_elem_of_singleton. split; [intros ->; constructor|by inversion 1].
  - destruct p as [b [|c s]]; simpl; [split; [set_solver|by inversion 1]|]. destruct (t c) eqn:Et.
    + rewrite list_elem_of_singleton. split; [intros ->; by constructor|by inversion 1].
    + split; [set_solver|inversion 1; congruence].
  - rewrite list_elem_of_bind. setoid_rewrite IH1. setoid_rewrite IH2. split.
    + intros (x & ? & ?). by econstructor.
    + inversion 1; subst. eauto.
  - rewrite elem_of_app, IH1, IH2. split; [intros [?|?]; by constructor|inversion 1; auto].
  - rewrite list_elem_of_bind. setoid_rewrite (exactly_spec r IH). split.
    + intros (x & Hq & Hx). apply (atMost_sound r IH) in Hq as (m & Hm & Hq). apply (m_many _ _ _ (lo + m)).
      * rewrite times_app. by exists x.
      * lia.
      * intros k ->. simpl in Hm. lia.
    + inversion 1 as [| | | | |? ? ? n ? ? Ht Hlo Hmore| |]; subst.
      replace n with (lo + (n - lo)) in Ht by lia. apply times_app in Ht as (x & Hx & Ht). exists x. split; [|done].
      apply (atMost_complete r IH (n - lo)); [done|]. destruct more as [m|]; simpl; [left; specialize (Hmore m eq_refl); lia|right; lia].
  - destruct (atBoundary p) eqn:E.
    + rewrite list_elem_of_singleton. split; [intros ->; by constructor|by inversion 1].
    + split; [set_solver|inversion 1; congruence].
  - case_decide.
    + rewrite list_elem_of_singleton. split; [intros ->; by constructor|by inversion 1].
    + split; [set_solver|inversion 1; congruence].
Qed.

(** ** Replacement *)

(** The first end of a match from [p], if there is one. *)
Definition firstMatch (r : regex) (p : pos) : option pos := head (exec r p).

(** Reading from left to right, a first match is rewritten and skipped, and any
    other character is kept. *)
Inductive rewrites (r : regex) (t : list ascii) : pos → list ascii → Prop :=
| rw_end b : firstMatch r (b, []) = None → rewrites r t (b, []) []
| rw_end_empty b q : firstMatch r (b, []) = Some q → rewrites r t (b, []) t
| rw_match p q out : firstMatch r p = Some q → length q.2 < length p.2 → rewrites r t q out → rewrites r t p (t ++ out)
| rw_keep b c s out : firstMatch r (b, c :: s) = None → rewrites r t (Some c, s) out → rewrites r t (b, c :: s) (c :: out)
| rw_empty b c s q out :
    firstMatch r (b, c :: s) = Some q → length s < length q.2 → rewrites r t (Some c, s) out →
    rewrites r t (b, c :: s) (t ++ c :: out).

Lemma replaceFrom_rewrites n r t p : length p.2 < n → rewrites r t p (replaceFrom n r t p).
Proof.
  revert p. induction n as [|n IH]; intros p Hn; [lia|]. simpl. destruct (exec r p) as [|q qs] eqn:E.
  - assert (firstMatch r p = None) as Hf by (unfold firstMatch; by rewrite E).
    destruct p as [b [|c s]]; simpl in *; [by constructor|]. constructor; [done|]. apply IH. simpl. lia.
  - assert (firstMatch r p = Some q) as Hf by (unfold firstMatch; by rewrite E).
    destruct (length q.2 <? length p.2) eqn:El; [apply Nat.ltb_lt in El; econstructor; [done|done|apply IH; lia]|].
    apply Nat.ltb_ge in El. destruct p as [b [|c s]]; simpl in *; [rewrite app_nil_r; by econstructor|].
    eapply rw_empty; [done|lia|]. apply IH. simpl. lia.
Qed.

(** [replaceAll] is that rewriting of the whole text. *)
Theorem replaceAll_rewrites r t s : rewrites r (chars t) (None, chars s) (chars (replaceAll r t s)).
Proof. unfold replaceAll. rewrite String.list_ascii_of_string_of_list_ascii. apply replaceFrom_rewrites. simpl. lia. Qed.

(** ** Notation of expressions *)

Definition anyOf (cs : string) : regex := Char (fun c => bool_decide (c ∈ chars cs)).
Fixpoint word (cs : list ascii) : regex :=
  match cs with [] => Empty | c :: cs' => Cat (Char (fun x => bool_decide (x = c))) (word cs') end.
Definition lit (s : string) : regex := word (chars s).
Definition digit : regex := Char isDecimal.
Definition space : regex := Char js_space.
Definition opt (r : regex) : regex := Many 0 (Some 1) r.
Definition plus (r : regex) : regex := Many 1 None r.
Definition exact (n : nat) (r : regex) : regex := Many n (Some 0) r.
Fixpoint cat (rs : list regex) : regex := match rs with [] => Empty | r :: rs' => Cat r (cat rs') end.
