(* ===== verification/LoopTypes.v ===== *)
(** * Data model of the durable loop engine

    The types of [core/scripts/loop/types.ts]: contract, ledger, items, stop
    and cooling records, external identities.  String unions are inductive
    types, each with the spelling the JSON documents carry; optional fields
    are [option]s; timestamps are the strings the code stores. *)

From stdpp Require Import base gmap strings list.
From S2P Require Import Prelude.

(** ** Closed vocabularies *)

Inductive LoopEngineName := Claude | Codex.

Inductive LoopItemState :=
| Pending
| InProgress
| Blocked
| Abandoned
| Implemented
| PrOpened
| Ready
| Merged
| Released
| Deployed
| Paused
| Waiting
| Skipped.

Definition item_state_name (s : LoopItemState) : string :=
  match s with
  | Pending => "pending"
  | InProgress => "in_progress"
  | Blocked => "blocked"
  | Abandoned => "abandoned"
  | Implemented => "implemented"
  | PrOpened => "pr_opened"
  | Ready => "ready"
  | Merged => "merged"
  | Released => "released"
  | Deployed => "deployed"
  | Paused => "paused"
  | Waiting => "waiting"
  | Skipped => "skipped"
  end.

Inductive ExternalDependencyStatus := Satisfied | Unsatisfiable | ExtPending.

Definition external_status_name (s : ExternalDependencyStatus) : string :=
  match s with
  | Satisfied => "satisfied"
  | Unsatisfiable => "unsatisfiable"
  | ExtPending => "pending"
  end.

Inductive LoopFailureClass :=
| FValidation
| FLock
| FAuthority
| FStop
| FConflict
| FPipelineMandate
| FNativeGoalMandate.

(** [class LoopError extends Error]. *)
Record LoopError := mkLoopError {
  loopFailureClass : LoopFailureClass;
  message : string;
}.

Inductive DurableBlockerClass :=
| TransientRateLimit
| WorkflowState
| ImplementationCi
| ReviewFindings
| EnvironmentAuth
| SpecificationDecision
| MissingAuthority
| UpstreamDependency
| WorkflowEngineDefect.

Definition DURABLE_BLOCKER_CLASSES : list DurableBlockerClass :=
  [TransientRateLimit; WorkflowState; ImplementationCi; ReviewFindings; EnvironmentAuth;
   SpecificationDecision; MissingAuthority; UpstreamDependency; WorkflowEngineDefect].

Definition blocker_class_name (c : DurableBlockerClass) : string :=
  match c with
  | TransientRateLimit => "transient-rate-limit"
  | WorkflowState => "workflow-state"
  | ImplementationCi => "implementation-ci"
  | ReviewFindings => "review-findings"
  | EnvironmentAuth => "environment-auth"
  | SpecificationDecision => "specification-decision"
  | MissingAuthority => "missing-authority"
  | UpstreamDependency => "upstream-dependency"
  | WorkflowEngineDefect => "workflow-engine-defect"
  end.

Inductive RecoveryRecipe :=
| WaitAndRetry
| VerifyAuthentication
| VerifyHeadGoal
| UnlinkEngineScratch
| CheckpointOwnedHarnessDirt
| PublishUnpublishedStageCommit
| RebindTesterEvidenceAfterPr
| RepairPipelineItem
| RerunCi
| ResyncWorkflowState
| RetryUpstreamCheck
| RestartWorkflowEngine.

Definition RECOVERY_RECIPES : list RecoveryRecipe :=
  [WaitAndRetry; VerifyAuthentication; VerifyHeadGoal; UnlinkEngineScratch;
   CheckpointOwnedHarnessDirt; PublishUnpublishedStageCommit; RebindTesterEvidenceAfterPr;
   RepairPipelineItem; RerunCi; ResyncWorkflowState; RetryUpstreamCheck; RestartWorkflowEngine].

Definition recipe_name (r : RecoveryRecipe) : string :=
  match r with
  | WaitAndRetry => "wait_and_retry"
  | VerifyAuthentication => "verify_authentication"
  | VerifyHeadGoal => "verify_head_goal"
  | UnlinkEngineScratch => "unlink_engine_scratch"
  | CheckpointOwnedHarnessDirt => "checkpoint_owned_harness_dirt"
  | PublishUnpublishedStageCommit => "publish_unpublished_stage_commit"
  | RebindTesterEvidenceAfterPr => "rebind_tester_evidence_after_pr"
  | RepairPipelineItem => "repair_pipeline_item"
  | RerunCi => "rerun_ci"
  | ResyncWorkflowState => "resync_workflow_state"
  | RetryUpstreamCheck => "retry_upstream_check"
  | RestartWorkflowEngine => "restart_workflow_engine"
  end.

Inductive LoopStopReason :=
| RecoveryExhausted
| ConsecutiveBlocked
| NeedsHumanClassification
| RepeatedNoProgress
| HumanAuthority
| RunFatal
| SupervisorNoProgress
| SupervisorCycleCap
| DependencyDeadlock
| WorktreeCapacity.

Definition stop_reason_name (r : LoopStopReason) : string :=
  match r with
  | RecoveryExhausted => "recovery_exhausted"
  | ConsecutiveBlocked => "consecutive_blocked"
  | NeedsHumanClassification => "needs_human_classification"
  | RepeatedNoProgress => "repeated_no_progress"
  | HumanAuthority => "human_authority"
  | RunFatal => "run_fatal"
  | SupervisorNoProgress => "supervisor_no_progress"
  | SupervisorCycleCap => "supervisor_cycle_cap"
  | DependencyDeadlock => "dependency_deadlock"
  | WorktreeCapacity => "worktree_capacity"
  end.

Inductive LoopDriftClass :=
| LedgerBehind
| LedgerAhead
| ExternalAbsent
| IdentityMismatch
| ChecksRegressed.

Inductive LoopNextAction :=
| ActAdvance
| ActAwaitChecks
| ActRepairForward
| ActReconstruct
| ActClearMergeBarrier
| ActHoldForHuman
| ActNoop.

#[export] Instance item_state_eq_dec : EqDecision LoopItemState.
Proof. solve_decision. Defined.
#[export] Instance external_status_eq_dec : EqDecision ExternalDependencyStatus.
Proof. solve_decision. Defined.
#[export] Instance blocker_class_eq_dec : EqDecision DurableBlockerClass.
Proof. solve_decision. Defined.
#[export] Instance recipe_eq_dec : EqDecision RecoveryRecipe.
Proof. solve_decision. Defined.
#[export] Instance stop_reason_eq_dec : EqDecision LoopStopReason.
Proof. solve_decision. Defined.
#[export] Instance drift_class_eq_dec : EqDecision LoopDriftClass.
Proof. solve_decision. Defined.
#[export] Instance next_action_eq_dec : EqDecision LoopNextAction.
Proof. solve_decision. Defined.
#[export] Instance failure_class_eq_dec : EqDecision LoopFailureClass.
Proof. solve_decision. Defined.
#[export] Instance engine_eq_dec : EqDecision LoopEngineName.
Proof. solve_decision. Defined.
#[export] Instance loop_error_eq_dec : EqDecision LoopError.
Proof. solve_decision. Defined.

(** [isDurableBlockerClass]: the class a string spells, if any. *)
Definition asDurableBlockerClass (s : string) : option DurableBlockerClass :=
  list_find (fun c => blocker_class_name c = s) DURABLE_BLOCKER_CLASSES ≫= fun p => Some p.2.

Definition isDurableBlockerClass (s : string) : bool :=
  bool_decide (is_Some (asDurableBlockerClass s)).

(** [isRecoveryRecipe]: the recipe a string spells, if any. *)
Definition asRecoveryRecipe (s : string) : option RecoveryRecipe :=
  list_find (fun r => recipe_name r = s) RECOVERY_RECIPES ≫= fun p => Some p.2.

Definition isRecoveryRecipe (s : string) : bool :=
  bool_decide (is_Some (asRecoveryRecipe s)).

(** ** Ownership declarations *)

(** Surface kinds stay strings: [normalizeOwnership] copies the key of the
    declaration, and only the validator consults the catalogue. *)
Definition OWNERSHIP_SHARED_SURFACE_KINDS : list string :=
  ["schema_state"; "generated_artifact"; "shared_config"; "public_api"; "ci_workflow";
   "package_version"].

Definition isOwnershipSharedSurfaceKind (s : string) : bool :=
  includes s OWNERSHIP_SHARED_SURFACE_KINDS.

Inductive SurfaceClass := ExclusiveClass | SharedClass.

Definition surface_class_name (c : SurfaceClass) : string :=
  match c with
  | ExclusiveClass => "exclusive"
  | SharedClass => "shared"
  end.

#[export] Instance surface_class_eq_dec : EqDecision SurfaceClass.
Proof. solve_decision. Defined.

Record OwnershipException := {
  ex_kind : string;
  ex_pattern : string;
  counterpart_item_id : string;
  justification : string;
  review_ref : string;
}.

(** [exclusive], [conflicts_with] and [exceptions] are optional arrays read as
    [?? []]; [shared] lists its classes in [Object.entries] order. *)
Record OwnershipDeclaration := {
  exclusive : option (list string);
  shared : option (obj (list string));
  conflicts_with : option (list string);
  exceptions : option (list OwnershipException);
}.

Record NormalizedOwnershipSurface := mkSurface {
  s_kind : string;
  s_pattern : string;
  s_class : SurfaceClass;
}.

#[export] Instance surface_eq_dec : EqDecision NormalizedOwnershipSurface.
Proof. solve_decision. Defined.

Inductive OwnershipConflictReason :=
| OverlappingSurface (surface : NormalizedOwnershipSurface)
| ExplicitEdge
| UnknownOwnership (detail : string).

(** [{ verdict, reason }]: [reason] is [null] exactly on [disjoint]. *)
Inductive OwnershipConflictVerdict :=
| Disjoint
| Conflict (reason : OwnershipConflictReason).

(** ** Contract *)

Record LoopContractItem := mkContractItem {
  ci_id : string;
  depends_on : list string;
  (** [None]: the field is absent, as on a contract written before it existed. *)
  external_depends_on : option (list string);
  ownership : option OwnershipDeclaration;
}.

Inductive LoopAuthorityGate := PushPr | MergeGate | ReleaseGate | DeployGate.

Definition LOOP_AUTHORITY_GATES : list LoopAuthorityGate := [PushPr; MergeGate; ReleaseGate; DeployGate].

Definition gate_name (g : LoopAuthorityGate) : string :=
  match g with
  | PushPr => "push_pr"
  | MergeGate => "merge"
  | ReleaseGate => "release"
  | DeployGate => "deploy"
  end.

#[export] Instance gate_eq_dec : EqDecision LoopAuthorityGate.
Proof. solve_decision. Defined.

(** [isLoopAuthorityGate]: the gate a string spells, if any. *)
Definition asLoopAuthorityGate (s : string) : option LoopAuthorityGate :=
  list_find (fun g => gate_name g = s) LOOP_AUTHORITY_GATES ≫= fun p => Some p.2.

(** The fields of [LoopContract] the engine's decisions read. *)
Record LoopContract := mkContract {
  c_run_id : string;
  c_logical_operation_id : option string;
  c_engine : LoopEngineName;
  recovery_policy : option jval;
  c_items : list LoopContractItem;
  (** [concurrency?.max_concurrent]. *)
  max_concurrent : option jsnum;
  authority_grants : list LoopAuthorityGate;
}.

(** ** Ledger *)

Record LoopHistoryEntry := mkHistory {
  h_time : string;
  h_from : LoopItemState;
  h_to : LoopItemState;
  h_engine : LoopEngineName;
  h_theme : option string;
  h_evidence : option string;
  h_note : option string;
}.

Inductive PrState := PrStateOpen | PrStateClosed | PrStateMerged.
Inductive ChecksConclusion := ChecksSuccess | ChecksFailure | ChecksPending | ChecksNone.
Inductive SideEffectCertainty := KnownComplete | KnownAbsent | Uncertain.
Inductive ArtifactRole := RolePlanning | RoleImplementation | RoleUnknown.

#[export] Instance pr_state_eq_dec : EqDecision PrState.
Proof. solve_decision. Defined.
#[export] Instance checks_eq_dec : EqDecision ChecksConclusion.
Proof. solve_decision. Defined.
#[export] Instance certainty_eq_dec : EqDecision SideEffectCertainty.
Proof. solve_decision. Defined.

#[export] Instance artifact_role_eq_dec : EqDecision ArtifactRole.
Proof. solve_decision. Defined.

(** An optional field read through [?? ""] or [?.trim()] is one [option]:
    [null] and an absent field are not told apart. *)
Record LoopExternalIdentity := mkIdentity {
  issue_number : Z;
  issue_open : bool;
  ready_label_present : bool;
  blocked_label_present : bool;
  pr_number : option Z;
  pr_state : option PrState;
  head_branch : string;
  head_sha : string;
  merge_commit_sha : option string;
  checks_conclusion : ChecksConclusion;
  pipeline_stage : option string;
  observed_at : string;
  local_head_sha : option string;
  rebase_in_progress : option bool;
  product_dirt : option bool;
  integration_certainty : option SideEffectCertainty;
  logical_candidate_epoch : option string;
  artifact_role : option ArtifactRole;
  artifact_identity : option string;
  candidate_epoch : option string;
  logical_operation_id : option string;
  expected_logical_operation_id : option string;
  linked_pr_numbers : option (list Z);
}.

Record LoopHumanInputRequest := mkHold {
  request_id : string;
  hold_item_id : string;
  hold_prompt : string;
  permitted_responses : option (list string);
  requested_by_engine : LoopEngineName;
  requested_at : string;
  typed_request : option string;
  hold_source : option string;
  (** The kind as the document spells it; [LOOP_HUMAN_INPUT_REQUEST_KINDS] on
      every request the engine builds. *)
  hold_kind : string;
  (** The classifier records, as read back from the document. *)
  decision_package : option jval;
  capability_request : option jval;
  authority_request : option jval;
  authority_evidence_key : option string;
  authority_candidate_head : option string;
}.

Record LoopItemLedgerEntry := mkEntry {
  id : string;
  state : LoopItemState;
  history : list LoopHistoryEntry;
  blocked_theme : option string;
  recovery_budgets_remaining : obj jsnum;
  evidence_fingerprint : option string;
  blocker_candidate_epoch : option string;
  blocker_candidate_head : option string;
  repeated_evidence_count : option Z;
  hold_request : option LoopHumanInputRequest;
  last_verified_identity : option LoopExternalIdentity;
  current_stage : option string;
  advance_run_id : option string;
}.

(** [{ ...entry, state, history: [...entry.history, h] }]. *)
Definition entry_step (e : LoopItemLedgerEntry) (s : LoopItemState) (h : LoopHistoryEntry)
    : LoopItemLedgerEntry :=
  mkEntry (id e) s (history e ++ [h]) (blocked_theme e) (recovery_budgets_remaining e)
    (evidence_fingerprint e) (blocker_candidate_epoch e) (blocker_candidate_head e)
    (repeated_evidence_count e) (hold_request e) (last_verified_identity e) (current_stage e)
    (advance_run_id e).

#[export] Instance history_eq_dec : EqDecision LoopHistoryEntry.
Proof. solve_decision. Defined.

(** The lines lead from one state to another, each starting where the one
    before it ended. *)
Fixpoint histPath (s : LoopItemState) (hs : list LoopHistoryEntry) (s' : LoopItemState) : Prop :=
  match hs with
  | [] => s = s'
  | h :: hs' => h_from h = s ∧ histPath (h_to h) hs' s'
  end.

Lemma histPath_app s hs1 hs2 s' s'' : histPath s hs1 s' → histPath s' hs2 s'' → histPath s (hs1 ++ hs2) s''.
Proof. revert s. induction hs1 as [|h hs1 IH]; intros s; simpl; [by intros ->|]. intros [? ?] ?. eauto. Qed.

Lemma histPath_one h : histPath (h_from h) [h] (h_to h).
Proof. done. Qed.
#[export] Instance identity_eq_dec : EqDecision LoopExternalIdentity.
Proof. solve_decision. Defined.
#[export] Instance hold_eq_dec : EqDecision LoopHumanInputRequest.
Proof. solve_decision. Defined.
#[export] Instance entry_eq_dec : EqDecision LoopItemLedgerEntry.
Proof. solve_decision. Defined.

Inductive DepKind := InRun | External.

#[export] Instance dep_kind_eq_dec : EqDecision DepKind.
Proof. solve_decision. Defined.

Record LoopDeadlockChainEntry := mkDeadlock {
  dl_item_id : string;
  dl_waiting_on : string;
  dl_kind : DepKind;
  dl_observed_state : string;
}.

Record LoopStopRecord := mkStop {
  stop_reason : LoopStopReason;
  stop_time : string;
  stop_item_id : option string;
  stop_theme : option string;
  deadlock_chain : option (list LoopDeadlockChainEntry);
  outstanding_ready : list string;
}.

Record LoopMergeBarrier := mkBarrier {
  mb_item_id : string;
  merged_sha : string;
  set_at : string;
}.

Inductive CoolingReason := StrategyCursorExhausted | MechanicalExhaustion.

Record LoopCoolingRecord := mkCooling {
  cool_reason : CoolingReason;
  cool_time : string;
  cool_item_id : option string;
  cool_theme : option string;
  cool_candidate_epoch : option string;
  cool_next_eligible_at : option string;
  cool_historical_evidence : option string;
  cool_quarantine_path : option string;
}.

Record LoopDrift := mkDrift {
  drift_item_id : string;
  drift_ledger_state : LoopItemState;
  drift_observed_state : string;
  drift_class : LoopDriftClass;
}.

Record LoopReconciliation := mkReconciliation {
  rec_sequence : Z;
  rec_time : string;
  rec_observed : obj LoopExternalIdentity;
  rec_drift : list LoopDrift;
  rec_next_actions : obj LoopNextAction;
}.

(** ** Lifecycle ownership record *)

Inductive RecoveryLifecycleState :=
| LActive
| LCooling
| LExternalConditionWait
| LTypedInputWait
| LSucceeded
| LCancelled.

Inductive PublicTypedRequest := DecisionRequest | CapabilityRequest | AuthorityRequest.

Definition PUBLIC_TYPED_REQUESTS : list PublicTypedRequest :=
  [DecisionRequest; CapabilityRequest; AuthorityRequest].

Definition typed_request_name (r : PublicTypedRequest) : string :=
  match r with
  | DecisionRequest => "DecisionRequest"
  | CapabilityRequest => "CapabilityRequest"
  | AuthorityRequest => "AuthorityRequest"
  end.

#[export] Instance lifecycle_state_eq_dec : EqDecision RecoveryLifecycleState.
Proof. solve_decision. Defined.
#[export] Instance typed_request_eq_dec : EqDecision PublicTypedRequest.
Proof. solve_decision. Defined.

(** The constant fields [owned: true], [ownerless: false] and
    [human_owned: false] are kept: ownership never leaves the supervisor. *)
Record LifecycleOwnership := mkOwnership {
  lo_state : RecoveryLifecycleState;
  lo_owned : bool;
  lo_ownerless : bool;
  lo_human_owned : bool;
  lo_cancelled : bool;
  lo_human_authority : bool;
  lo_typed_request : option PublicTypedRequest;
}.

Record DurableLifecycleRecord := mkLifecycle {
  lr_logical_operation_id : string;
  lr_ownership : LifecycleOwnership;
  lr_updated_at : string;
  lr_revision : Z;
}.

#[export] Instance lifecycle_ownership_eq_dec : EqDecision LifecycleOwnership.
Proof. solve_decision. Defined.
#[export] Instance lifecycle_record_eq_dec : EqDecision DurableLifecycleRecord.
Proof. solve_decision. Defined.

(** The recovery attempts of the ledger.  [attempt_id], [candidate_identity],
    [action] and [budget_remaining] are absent on the oldest ledgers, the
    episode fields on those written before episodes existed.  The aliases
    [status], [last_error], [next_attempt_at] and [idempotency_key] repeat
    [outcome], [error], [not_before] and [attempt_id] and are left out. *)
Inductive RecoveryAttemptOutcome :=
| OutStarted
| OutRecovered
| OutSuperseded
| OutExhausted
| OutSkipped
| OutRepeatedNoProgress
| OutNeedsHuman
| OutHumanAuthority
| OutFailed.

Inductive AttemptTerminal := TermSuccess | TermFailed | TermSuperseded.

#[export] Instance attempt_outcome_eq_dec : EqDecision RecoveryAttemptOutcome.
Proof. solve_decision. Defined.
#[export] Instance attempt_terminal_eq_dec : EqDecision AttemptTerminal.
Proof. solve_decision. Defined.

Record LoopRecoveryAttempt := mkAttempt {
  attempt_id : option string;
  seq : Z;
  att_time : string;
  att_item_id : string;
  att_class : string;
  candidate_identity : option string;
  action : option string;
  actions : list string;
  att_evidence_fingerprint : string;
  outcome : RecoveryAttemptOutcome;
  budget_remaining : option jsnum;
  att_operation : option string;
  invariant : option string;
  att_candidate_epoch : option string;
  evidence_identity : option string;
  episode_id : option string;
  attempts_per_strategy : option (obj Z);
  strategy_cursor : option Z;
  skipped_strategies : option (list string);
  att_next_eligible_at : option string;
  not_before : option string;
  completed_at : option string;
  att_error : option string;
  att_terminal : option AttemptTerminal;
  fence_token : option string;
  side_effect_certainty : option SideEffectCertainty;
}.

#[export] Instance attempt_eq_dec : EqDecision LoopRecoveryAttempt.
Proof. solve_decision. Defined.

(** [{ ...attempt, evidence_identity, episode_id }]. *)
Definition with_episode_identity (a : LoopRecoveryAttempt) (evidence episode : string) : LoopRecoveryAttempt :=
  mkAttempt (attempt_id a) (seq a) (att_time a) (att_item_id a) (att_class a) (candidate_identity a) (action a)
    (actions a) (att_evidence_fingerprint a) (outcome a) (budget_remaining a) (att_operation a) (invariant a)
    (att_candidate_epoch a) (Some evidence) (Some episode) (attempts_per_strategy a) (strategy_cursor a)
    (skipped_strategies a) (att_next_eligible_at a) (not_before a) (completed_at a) (att_error a)
    (att_terminal a) (fence_token a) (side_effect_certainty a).

(** [{ ...attempt, attempt_id, candidate_identity, action, budget_remaining }]. *)
Definition with_core_fields (a : LoopRecoveryAttempt) (i candidate act : string) (budget : jsnum)
    : LoopRecoveryAttempt :=
  mkAttempt (Some i) (seq a) (att_time a) (att_item_id a) (att_class a) (Some candidate) (Some act)
    (actions a) (att_evidence_fingerprint a) (outcome a) (Some budget) (att_operation a) (invariant a)
    (att_candidate_epoch a) (evidence_identity a) (episode_id a) (attempts_per_strategy a) (strategy_cursor a)
    (skipped_strategies a) (att_next_eligible_at a) (not_before a) (completed_at a) (att_error a)
    (att_terminal a) (fence_token a) (side_effect_certainty a).

(** [{ ...attempt, next_eligible_at }]. *)
Definition with_next_eligible (a : LoopRecoveryAttempt) (t : string) : LoopRecoveryAttempt :=
  mkAttempt (attempt_id a) (seq a) (att_time a) (att_item_id a) (att_class a) (candidate_identity a) (action a)
    (actions a) (att_evidence_fingerprint a) (outcome a) (budget_remaining a) (att_operation a) (invariant a)
    (att_candidate_epoch a) (evidence_identity a) (episode_id a) (attempts_per_strategy a) (strategy_cursor a)
    (skipped_strategies a) (Some t) (not_before a) (completed_at a) (att_error a) (att_terminal a)
    (fence_token a) (side_effect_certainty a).

(** [{ ...attempt, strategy_cursor }]. *)
Definition with_strategy_cursor (a : LoopRecoveryAttempt) (n : Z) : LoopRecoveryAttempt :=
  mkAttempt (attempt_id a) (seq a) (att_time a) (att_item_id a) (att_class a) (candidate_identity a) (action a)
    (actions a) (att_evidence_fingerprint a) (outcome a) (budget_remaining a) (att_operation a) (invariant a)
    (att_candidate_epoch a) (evidence_identity a) (episode_id a) (attempts_per_strategy a) (Some n)
    (skipped_strategies a) (att_next_eligible_at a) (not_before a) (completed_at a) (att_error a)
    (att_terminal a) (fence_token a) (side_effect_certainty a).

(** The completion writes of a claimed attempt. *)
Definition with_completion (a : LoopRecoveryAttempt) (t : string) (o : RecoveryAttemptOutcome)
    (term : AttemptTerminal) (err : option string) : LoopRecoveryAttempt :=
  mkAttempt (attempt_id a) (seq a) (att_time a) (att_item_id a) (att_class a) (candidate_identity a) (action a)
    (actions a) (att_evidence_fingerprint a) o (budget_remaining a) (att_operation a) (invariant a)
    (att_candidate_epoch a) (evidence_identity a) (episode_id a) (attempts_per_strategy a) (strategy_cursor a)
    (skipped_strategies a) (att_next_eligible_at a) (not_before a) (Some t) err (Some term)
    (fence_token a) (side_effect_certainty a).

(** A scoped widening of exactly one gate to exactly one item. *)
Record LoopAuthorityAmendment := mkAmendment {
  am_gate : LoopAuthorityGate;
  am_scope_item_id : string;
  am_actor : string;
  am_reason : string;
  am_time : string;
}.

Record LoopNativeGoalCheck := mkGoalCheck {
  gc_engine : LoopEngineName;
  gc_run_id : string;
  gc_status : string;
  gc_checked_at : string;
}.

Record LoopLedger := mkLedger {
  l_run_id : string;
  items : obj LoopItemLedgerEntry;
  merge_barrier : option LoopMergeBarrier;
  stop : option LoopStopRecord;
  cooling : option LoopCoolingRecord;
  (** [None] when no item ever cooled. *)
  item_cooling : option (obj LoopCoolingRecord);
  lifecycle : option DurableLifecycleRecord;
  last_reconciliation : option LoopReconciliation;
  (** [None] on a ledger written before the field existed. *)
  recovery_attempts : option (list LoopRecoveryAttempt);
  last_native_goal_check : option LoopNativeGoalCheck;
  reconciliation_sequence : Z;
  (** [None] on a ledger written before the field existed. *)
  authority_amendments : option (list LoopAuthorityAmendment);
}.

(** [{ ...ledger, items }]. *)
Definition with_items (l : LoopLedger) (its : obj LoopItemLedgerEntry) : LoopLedger :=
  mkLedger (l_run_id l) its (merge_barrier l) (stop l) (cooling l) (item_cooling l) (lifecycle l)
    (last_reconciliation l) (recovery_attempts l) (last_native_goal_check l) (reconciliation_sequence l)
    (authority_amendments l).

(** [ledger.items[id]?.state]. *)
Definition state_of (its : obj LoopItemLedgerEntry) (k : string) : option LoopItemState :=
  state <$> oget its k.

(** [outstandingReadyItemIds]. *)
Definition outstandingReadyItemIds (l : LoopLedger) : list string :=
  js_sort (id <$> filter (fun e => state e = Ready) (ovalues (items l))).

(** ** The vocabularies are spelled injectively *)

Lemma asDurableBlockerClass_spec s c :
  asDurableBlockerClass s = Some c ↔ blocker_class_name c = s.
Proof.
  unfold asDurableBlockerClass. split.
  - intros H. apply bind_Some in H as ([i c'] & Hf & [= <-]). by apply list_find_Some in Hf as (_ & ? & _).
  - intros <-. by destruct c.
Qed.

Lemma asRecoveryRecipe_spec s r : asRecoveryRecipe s = Some r ↔ recipe_name r = s.
Proof.
  unfold asRecoveryRecipe. split.
  - intros H. apply bind_Some in H as ([i r'] & Hf & [= <-]). by apply list_find_Some in Hf as (_ & ? & _).
  - intros <-. by destruct r.
Qed.

#[export] Instance item_state_name_inj : Inj (=) (=) item_state_name.
Proof. intros [] []; by vm_compute. Qed.
#[export] Instance blocker_class_name_inj : Inj (=) (=) blocker_class_name.
Proof. intros [] []; by vm_compute. Qed.
#[export] Instance recipe_name_inj : Inj (=) (=) recipe_name.
Proof. intros [] []; by vm_compute. Qed.
#[export] Instance stop_reason_name_inj : Inj (=) (=) stop_reason_name.
Proof. intros [] []; by vm_compute. Qed.
