(* ===== verification/ContractCompile.v ===== *)
(** * Contract compilation

    [compileContractItems] of [core/scripts/loop/dependencies.ts]: duplicate
    check, partition of the declared dependencies into in-snapshot and external
    ones, and the depth-first topological order with cycle refusal. *)

From stdpp Require Import base gmap strings list relations fin_sets.
From S2P Require Import Prelude LoopTypes.
Local Open Scope result_scope.

(** ** Definitions *)

Record RawContractItem := mkRaw {
  raw_id : string;
  raw_depends_on : option (list string);
}.

(** What the compilation throws.  [VisitOutOfFuel] belongs to the model: the
    recursion of [visit] is bounded by a counter, and the counter is enough
    ([compile_total]). *)
Inductive CompileError :=
| DuplicateItemId (i : string)
| DependencyCycle (path : list string)
| VisitOutOfFuel.

(** The [LoopError] the source throws for each. *)
Definition compile_loop_error (e : CompileError) : LoopError :=
  match e with
  | DuplicateItemId i =>
      mkLoopError FValidation ("duplicate item id " +:+ quoted i +:+ " in snapshot")
  | DependencyCycle path =>
      mkLoopError FValidation ("dependency cycle detected: " +:+ join " -> " path)
  | VisitOutOfFuel => mkLoopError FValidation ""
  end.

(** The [seen] loop. *)
Fixpoint checkDuplicates (seen : gset string) (raws : list RawContractItem)
    : result CompileError (gset string) :=
  match raws with
  | [] => Ok seen
  | r :: raws' =>
      if decide (raw_id r ∈ seen) then Err (DuplicateItemId (raw_id r))
      else checkDuplicates ({[raw_id r]} ∪ seen) raws'
  end.

(** The body of the partition loop for one item. *)
Definition partitionItem (idSet : gset string) (r : RawContractItem) : LoopContractItem :=
  let declared := default [] (raw_depends_on r) in
  mkContractItem (raw_id r)
    (filter (fun d => d ∈ idSet) declared)
    (Some (filter (fun d => d ∉ idSet) declared))
    None.

Definition partitionItems (idSet : gset string) (raws : list RawContractItem)
    : gmap string LoopContractItem :=
  js_map ((fun r => (raw_id r, partitionItem idSet r)) <$> raws).

(** The variables [visit] closes over. *)
Record VisitState := mkVisit {
  permanent : gset string;
  inStack : gset string;
  ordered : list LoopContractItem;
}.

(** [partitioned.get(id)?.depends_on ?? []]. *)
Definition depsOf (part : gmap string LoopContractItem) (i : string) : list string :=
  match part !! i with
  | Some it => depends_on it
  | None => []
  end.

Fixpoint visit (part : gmap string LoopContractItem) (fuel : nat) (i : string)
    (path : list string) (st : VisitState) : result CompileError VisitState :=
  if decide (i ∈ permanent st) then Ok st
  else if decide (i ∈ inStack st) then Err (DependencyCycle (path ++ [i]))
  else
    match fuel with
    | O => Err VisitOutOfFuel
    | S fuel' =>
        try st' := rfold (fun s dep => visit part fuel' dep (path ++ [i]) s)
                     (mkVisit (permanent st) ({[i]} ∪ inStack st) (ordered st)) (depsOf part i) in
        Ok (mkVisit ({[i]} ∪ permanent st') (inStack st' ∖ {[i]})
              (ordered st' ++ option_list (part !! i)))
    end.

Definition compileContractItems (raws : list RawContractItem)
    : result CompileError (list LoopContractItem) :=
  try idSet := checkDuplicates ∅ raws in
  let part := partitionItems idSet raws in
  try st := rfold (fun s r => visit part (S (size idSet)) (raw_id r) [] s)
              (mkVisit ∅ ∅ []) raws in
  Ok (ordered st).

(** [upgradeContractForDependencyIntegrity]. *)
Definition upgradeContractForDependencyIntegrity (c : LoopContract) : LoopContract :=
  if forallb (fun it => bool_decide (is_Some (external_depends_on it))) (c_items c) then c
  else mkContract (c_run_id c) (c_logical_operation_id c) (c_engine c) (recovery_policy c)
         ((fun it => mkContractItem (ci_id it) (depends_on it)
                       (Some (default [] (external_depends_on it))) (ownership it)) <$> c_items c)
         (max_concurrent c) (authority_grants c).

(** ** Specification: the in-snapshot dependency graph *)

(** [x] declares the in-snapshot item [y]. *)
Definition declares (raws : list RawContractItem) (x y : string) : Prop :=
  ∃ r, r ∈ raws ∧ raw_id r = x ∧ y ∈ default [] (raw_depends_on r) ∧ y ∈ raw_id <$> raws.

Definition acyclic (R : string → string → Prop) : Prop := ∀ x, ¬ tc R x x.

(** Every item follows the items it depends on. *)
Definition topological (l : list LoopContractItem) : Prop :=
  ∀ l1 it l2, l = l1 ++ it :: l2 → ∀ d, d ∈ depends_on it → d ∈ ci_id <$> l1.

(** ** Walks *)

Section Walks.
Context (R : string → string → Prop).

Definition walk (p : list string) : Prop :=
  ∀ n x y, p !! n = Some x → p !! S n = Some y → R x y.

Lemma walk_snoc p x y : walk (p ++ [x]) → R x y → walk ((p ++ [x]) ++ [y]).
Proof.
  intros Hw HR n a b Ha Hb.
  apply lookup_snoc_Some in Hb as [[_ Hb]|[Hn <-]].
  - apply lookup_snoc_Some in Ha as [[_ Ha]|[Hn <-]]; [by eapply Hw|].
    apply lookup_lt_Some in Hb. lia.
  - rewrite length_app in Hn. simpl in Hn. assert (n = length p) as -> by lia.
    rewrite lookup_app_l in Ha by (rewrite length_app; simpl; lia).
    rewrite list_lookup_middle in Ha by done. by simplify_eq.
Qed.

Lemma walk_tc p n m x y :
  walk p → p !! n = Some x → p !! m = Some y → n < m → tc R x y.
Proof.
  intros Hw Hx. revert y. induction m as [|m IH]; intros y Hy Hlt; [lia|].
  destruct (lookup_lt_is_Some_2 p m) as [z Hz]; [apply lookup_lt_Some in Hy; lia|].
  destruct (decide (n = m)) as [->|Hne].
  - simplify_eq. apply tc_once. by eapply Hw.
  - eapply tc_r; [apply (IH z); [done|lia]|by eapply Hw].
Qed.
End Walks.

(** ** The depth-first visit *)

Section Visit.
Context (part : gmap string LoopContractItem).
Hypothesis part_id : ∀ k it, part !! k = Some it → ci_id it = k.
Hypothesis part_closed : ∀ k it d, part !! k = Some it → d ∈ depends_on it → d ∈ dom part.

Definition edge (x y : string) : Prop := y ∈ depsOf part x.

Record VisitWF (st : VisitState) : Prop := {
  wf_nodup : NoDup (ci_id <$> ordered st);
  wf_perm : ∀ x, x ∈ permanent st ↔ x ∈ ci_id <$> ordered st;
  wf_topo : topological (ordered st);
  wf_disj : permanent st ## inStack st;
  wf_part : ∀ it, it ∈ ordered st → part !! ci_id it = Some it;
}.

(** [st'] extends [st]: nothing permanent is lost, the stack is restored. *)
Definition extends (st st' : VisitState) : Prop :=
  VisitWF st' ∧ inStack st' = inStack st ∧ permanent st ⊆ permanent st'.

Lemma topological_snoc l it :
  topological l → (∀ d, d ∈ depends_on it → d ∈ ci_id <$> l) → topological (l ++ [it]).
Proof.
  intros Ht Hd l1 it' l2 Heq d Hin.
  destruct l2 as [|y l2 _] using rev_ind.
  - apply app_inj_tail in Heq as [-> ->]. by apply Hd.
  - rewrite app_comm_cons, app_assoc in Heq. apply app_inj_tail in Heq as [-> ->].
    by eapply Ht.
Qed.

Lemma extends_push st st' i it :
  part !! i = Some it → i ∉ permanent st → i ∉ inStack st →
  extends (mkVisit (permanent st) ({[i]} ∪ inStack st) (ordered st)) st' →
  (∀ d, d ∈ depsOf part i → d ∈ permanent st') →
  extends st (mkVisit ({[i]} ∪ permanent st') (inStack st' ∖ {[i]})
                (ordered st' ++ option_list (part !! i))).
Proof.
  intros Hp Hnp Hns [Hwf [Hst Hsub]] Hdeps. simpl in Hst, Hsub.
  pose proof (part_id _ _ Hp) as Hid.
  assert (i ∉ permanent st') as Hni by (pose proof (wf_disj _ Hwf) as Hd; set_solver).
  rewrite Hp. simpl. unfold extends. simpl. repeat split.
  - simpl. rewrite fmap_app. apply NoDup_app. repeat split; [by apply Hwf| |apply NoDup_singleton].
    intros x Hx Hx'. apply list_elem_of_singleton in Hx'. subst x.
    apply Hni. apply Hwf. by rewrite Hid in Hx.
  - simpl. rewrite fmap_app, elem_of_union, elem_of_app, elem_of_singleton. simpl.
    rewrite list_elem_of_singleton, Hid, (wf_perm _ Hwf). naive_solver.
  - simpl. rewrite fmap_app, elem_of_union, elem_of_app, elem_of_singleton. simpl.
    rewrite list_elem_of_singleton, Hid, (wf_perm _ Hwf). naive_solver.
  - simpl. apply topological_snoc; [apply Hwf|]. intros d Hd. apply Hwf, Hdeps.
    unfold depsOf. by rewrite Hp.
  - simpl. pose proof (wf_disj _ Hwf). set_solver.
  - simpl. intros it' [Hin|Heq]%elem_of_app; [by apply Hwf|].
    apply list_elem_of_singleton in Heq. subst it'. by rewrite Hid.
  - rewrite Hst. set_solver.
  - set_solver.
Qed.

Lemma extends_refl st : VisitWF st → extends st st.
Proof. intros. unfold extends. auto. Qed.

Lemma extends_trans st1 st2 st3 : extends st1 st2 → extends st2 st3 → extends st1 st3.
Proof.
  clear part_id part_closed. intros (? & ? & ?) (? & ? & ?). split; [done|]. split; [congruence|by etrans].
Qed.

(** [inStack.add(id)]. *)
Definition enter (i : string) (st : VisitState) : VisitState :=
  mkVisit (permanent st) ({[i]} ∪ inStack st) (ordered st).

Lemma enter_wf i st : VisitWF st → i ∉ permanent st → VisitWF (enter i st).
Proof. clear part_id part_closed. intros Hwf Hi. split; simpl; try apply Hwf. pose proof (wf_disj _ Hwf). set_solver. Qed.

Lemma depsOf_dom i d : d ∈ depsOf part i → d ∈ dom part.
Proof.
  unfold depsOf. destruct (part !! i) as [it|] eqn:E; [by eapply part_closed|].
  intros Hd. inversion Hd.
Qed.

Lemma visit_Ok fuel : ∀ i path st st',
  VisitWF st → i ∈ dom part → visit part fuel i path st = Ok st' →
  extends st st' ∧ i ∈ permanent st'.
Proof.
  induction fuel as [|fuel IH]; intros i path st st' Hwf Hi; simpl;
    (case_decide as Hperm; [intros [= <-]; by auto using extends_refl|]);
    case_decide as Hstk; try done.
  intros H. inv_bind H. injection H as <-. fold (enter i st) in E.
  apply elem_of_dom in Hi as [it Hit].
  eapply (rfold_each _ (extends (enter i st)) (fun d s => d ∈ permanent s)) in E as [Hext Hdeps].
  - split; [by eapply extends_push|]. simpl. set_solver.
  - by apply extends_refl, enter_wf.
  - intros s d s' Hd Hs Hv. destruct (IH _ _ _ _ (proj1 Hs) (depsOf_dom _ _ Hd) Hv).
    eauto using extends_trans.
  - intros s d d' s' Hd Hs Hin Hv.
    destruct (IH _ _ _ _ (proj1 Hs) (depsOf_dom _ _ Hd) Hv) as [(_ & _ & ?) _]. set_solver.
Qed.

(** A failing visit fails at some dependency, with the state of that moment. *)
Lemma visit_deps_Err fuel i path st e :
  VisitWF st → i ∉ permanent st →
  rfold (fun s d => visit part fuel d path s) (enter i st) (depsOf part i) = Err e →
  ∃ s d, d ∈ depsOf part i ∧ extends (enter i st) s ∧ visit part fuel d path s = Err e.
Proof.
  intros Hwf Hi H.
  eapply (rfold_Err _ (extends (enter i st))) in H as (s & d & ? & ? & ?); [by eauto| |].
  - by apply extends_refl, enter_wf.
  - intros s d s' Hd Hs Hv. eapply extends_trans; [exact Hs|].
    eapply visit_Ok; [apply Hs|by eapply depsOf_dom|done].
Qed.

Lemma visit_not_duplicate fuel : ∀ i path st j, visit part fuel i path st ≠ Err (DuplicateItemId j).
Proof.
  clear part_id part_closed.
  induction fuel as [|fuel IH]; intros i path st j; simpl; (case_decide; [done|]); (case_decide; [done|]);
    [done|].
  destruct (rfold _ _ _) as [s|e] eqn:E; simpl; [done|]. intros [= ->].
  apply (rfold_Err _ (fun _ => True)) in E as (s & d & _ & _ & Hv); [|done..]. by apply IH in Hv.
Qed.

(** A refusal names a walk that closes a cycle. *)
Definition closes_cycle (p : list string) : Prop :=
  walk edge p ∧ ∃ q x, p = q ++ [x] ∧ x ∈ q.

Lemma visit_cycle fuel : ∀ i path st p,
  VisitWF st → walk edge (path ++ [i]) → (∀ x, x ∈ inStack st ↔ x ∈ path) →
  visit part fuel i path st = Err (DependencyCycle p) → closes_cycle p.
Proof.
  induction fuel as [|fuel IH]; intros i path st p Hwf Hw Hst; simpl;
    (case_decide as Hperm; [done|]);
    (case_decide as Hin; [intros [= <-]; split; [done|]; exists path, i; split; [done|by apply Hst]|]);
    [done|].
  fold (enter i st). destruct (rfold _ _ _) as [st2|e] eqn:E; simpl; [done|]. intros [= ->].
  apply visit_deps_Err in E as (s & d & Hd & (Hs & Hss & _) & Hv); [|done..].
  eapply (IH d); [exact Hs| | |exact Hv].
  - apply walk_snoc; [done|exact Hd].
  - intros x. rewrite Hss. simpl. rewrite elem_of_union, elem_of_singleton, Hst.
    rewrite elem_of_app, list_elem_of_singleton. naive_solver.
Qed.

Lemma visit_fuel fuel : ∀ i path st,
  VisitWF st → i ∈ dom part → inStack st ⊆ dom part → size (dom part) < size (inStack st) + fuel →
  visit part fuel i path st ≠ Err VisitOutOfFuel.
Proof.
  induction fuel as [|fuel IH]; intros i path st Hwf Hi Hsub Hlt; simpl.
  { apply subseteq_size in Hsub. lia. }
  case_decide as Hperm; [done|]. case_decide as Hin; [done|].
  fold (enter i st). destruct (rfold _ _ _) as [st2|e] eqn:E; simpl; [done|]. intros [= ->].
  apply visit_deps_Err in E as (s & d & Hd & (Hs & Hss & _) & Hv); [|done..].
  revert Hv. apply IH; [done|by eapply depsOf_dom|rewrite Hss; simpl; set_solver|].
  rewrite Hss. simpl. rewrite size_union by set_solver. rewrite size_singleton. lia.
Qed.
End Visit.

(** ** The duplicate check and the partition *)

Abbreviation ids raws := (raw_id <$> raws).

Lemma checkDuplicates_spec raws seen :
  match checkDuplicates seen raws with
  | Ok s => NoDup (ids raws) ∧ (∀ x, x ∈ ids raws → x ∉ seen) ∧ s = list_to_set (ids raws) ∪ seen
  | Err e => ∃ l1 r l2, raws = l1 ++ r :: l2 ∧ e = DuplicateItemId (raw_id r) ∧
                        (raw_id r ∈ seen ∨ raw_id r ∈ ids l1)
  end.
Proof.
  revert seen. induction raws as [|r raws IH]; intros seen; simpl.
  { split; [constructor|]. split; [intros x Hx; inversion Hx|set_solver]. }
  case_decide as Hin; [exists [], r, raws; auto|].
  specialize (IH ({[raw_id r]} ∪ seen)). destruct (checkDuplicates _ raws) as [s|e].
  - destruct IH as (Hnd & Hfresh & ->). split; [|split; [|set_solver]].
    + apply NoDup_cons. split; [|done]. intros Hr. apply Hfresh in Hr. set_solver.
    + intros x [->|Hx]%elem_of_cons; [done|]. apply Hfresh in Hx. set_solver.
  - destruct IH as (l1 & r' & l2 & -> & -> & [Hs|Hs]).
    + exists (r :: l1), r', l2. split; [done|]. split; [done|]. simpl. set_solver.
    + exists (r :: l1), r', l2. split; [done|]. split; [done|]. right. simpl. set_solver.
Qed.

Lemma init_wf part : VisitWF part (mkVisit ∅ ∅ []).
Proof.
  split; simpl; [apply NoDup_nil_2|set_solver| |set_solver|].
  - intros l1 it l2 Heq. by destruct l1.
  - intros it Hit. inversion Hit.
Qed.

Section Partition.
Context (raws : list RawContractItem) (Hnd : NoDup (ids raws)).
Let idSet : gset string := list_to_set (ids raws).
Let part := partitionItems idSet raws.

Lemma part_lookup k it :
  part !! k = Some it ↔ ∃ r, r ∈ raws ∧ raw_id r = k ∧ it = partitionItem idSet r.
Proof.
  unfold part, partitionItems. rewrite js_map_lookup.
  - rewrite list_elem_of_fmap. split; [intros (r & [= -> ->] & ?)|intros (r & ? & <- & ->)]; eauto.
  - rewrite <-list_fmap_compose. exact Hnd.
Qed.

Lemma part_lookup_id k it : part !! k = Some it → ci_id it = k.
Proof. intros (r & _ & <- & ->)%part_lookup. done. Qed.

Lemma part_dom : dom part = idSet.
Proof.
  apply set_eq. intros x. unfold idSet. rewrite elem_of_dom, elem_of_list_to_set, list_elem_of_fmap.
  split.
  - intros [it (r & ? & ? & ?)%part_lookup]. eauto.
  - intros (r & -> & ?). exists (partitionItem idSet r). apply part_lookup. eauto.
Qed.

Lemma part_lookup_closed k it d : part !! k = Some it → d ∈ depends_on it → d ∈ dom part.
Proof.
  intros (r & _ & _ & ->)%part_lookup. rewrite part_dom. simpl. by intros [? _]%list_elem_of_filter.
Qed.

Lemma edge_declares x y : edge part x y ↔ declares raws x y.
Proof.
  unfold edge, depsOf, declares. destruct (part !! x) as [it|] eqn:E.
  - apply part_lookup in E as (r & Hr & <- & ->). simpl. rewrite list_elem_of_filter.
    unfold idSet at 1. rewrite elem_of_list_to_set. split; [naive_solver|].
    intros (r' & Hr' & Heq & Hd & Hy). split; [done|].
    apply list_elem_of_lookup in Hr as [n Hn], Hr' as [m Hm].
    assert (n = m) as ->; [|by simplify_eq].
    eapply (NoDup_lookup _ n m (raw_id r) Hnd); rewrite list_lookup_fmap, ?Hn, ?Hm; simpl; congruence.
  - split; [intros Hy; inversion Hy|]. intros (r & Hr & <- & _).
    assert (part !! raw_id r = Some (partitionItem idSet r)) by (apply part_lookup; eauto). congruence.
Qed.

Lemma raw_in_dom r : r ∈ raws → raw_id r ∈ dom part.
Proof. intros Hr. rewrite part_dom. apply elem_of_list_to_set, list_elem_of_fmap. eauto. Qed.

Lemma visit_raw r path s s' fuel :
  r ∈ raws → VisitWF part s → visit part fuel (raw_id r) path s = Ok s' →
  extends part s s' ∧ raw_id r ∈ permanent s'.
Proof.
  intros Hr Hs. apply visit_Ok; [apply part_lookup_id|apply part_lookup_closed|done|by apply raw_in_dom].
Qed.

(** The loop over the raw items. *)
Lemma compile_loop_Ok st :
  rfold (fun s r => visit part (S (size idSet)) (raw_id r) [] s) (mkVisit ∅ ∅ []) raws = Ok st →
  VisitWF part st ∧ (∀ x, x ∈ permanent st ↔ x ∈ ids raws).
Proof.
  intros H. eapply (rfold_each _ (fun s => extends part (mkVisit ∅ ∅ []) s)
    (fun r s => raw_id r ∈ permanent s)) in H as [(Hwf & _ & _) Hall].
  - split; [done|]. intros x. split.
    + intros Hx. apply (wf_perm _ _ Hwf) in Hx. apply list_elem_of_fmap in Hx as (it & -> & Hit).
      apply (wf_part _ _ Hwf), part_lookup in Hit as (r & Hr & <- & _).
      apply list_elem_of_fmap. eauto.
    + intros (r & -> & Hr)%list_elem_of_fmap. by apply Hall.
  - apply extends_refl, init_wf.
  - intros s r s' Hr Hs Hv. destruct (visit_raw r [] s s' (S (size idSet)) Hr (proj1 Hs) Hv) as [Hext Hp].
    split; [|exact Hp]. eapply extends_trans; [exact Hs|exact Hext].
  - intros s r r' s' Hr Hs Hin Hv.
    destruct (visit_raw r [] s s' (S (size idSet)) Hr (proj1 Hs) Hv) as [(_ & _ & ?) _]. set_solver.
Qed.
End Partition.

(** ** Compilation as a whole *)

Lemma compile_inv raws out :
  compileContractItems raws = Ok out →
  NoDup (ids raws) ∧ ∃ st, VisitWF (partitionItems (list_to_set (ids raws)) raws) st ∧
    (∀ x, x ∈ permanent st ↔ x ∈ ids raws) ∧ out = ordered st.
Proof.
  unfold compileContractItems. pose proof (checkDuplicates_spec raws ∅) as Hc.
  destruct (checkDuplicates ∅ raws) as [s|e]; [|done].
  destruct Hc as (Hnd & _ & ->). rewrite union_empty_r_L. simpl. intros H. inv_bind H.
  injection H as <-. split; [done|]. exists x. apply compile_loop_Ok in E as [? ?]; auto.
Qed.

Lemma topological_acyclic (R : string → string → Prop) l :
  NoDup (ci_id <$> l) → topological l →
  (∀ x y, R x y → ∃ it, it ∈ l ∧ ci_id it = x ∧ y ∈ depends_on it) → acyclic R.
Proof.
  intros Hnd Ht HR x Hx.
  assert (∀ a b, tc R a b → ∃ l1 it l2, l = l1 ++ it :: l2 ∧ ci_id it = a ∧ b ∈ ci_id <$> l1) as Hpos.
  { intros a b Htc. induction Htc as [a b HR1|a b c HR1 _ (m1 & it' & m2 & Heq & Hid & Hc)];
      destruct (HR _ _ HR1) as (it & Hit & <- & Hd);
      apply list_elem_of_split in Hit as (l1 & l2 & Hl); exists l1, it, l2;
      (split; [done|split; [done|]]); pose proof (Ht _ _ _ Hl _ Hd) as Hb; [done|].
    apply list_elem_of_fmap in Hb as (it2 & -> & Hb).
    apply list_elem_of_split in Hb as (k1 & k2 & ->).
    assert (m1 = k1) as ->.
    { rewrite Heq in Hl, Hnd. rewrite <-app_assoc in Hl. simpl in Hl.
      by apply (NoDup_split_unique ci_id) in Hl as (? & _). }
    rewrite fmap_app. apply elem_of_app. by left. }
  destruct (Hpos _ _ Hx) as (l1 & it & l2 & -> & <- & Hin).
  rewrite fmap_app, fmap_cons in Hnd. apply NoDup_app in Hnd as (_ & Hnd & _).
  apply (Hnd _ Hin). by left.
Qed.

Lemma compile_items_partition raws out it :
  compileContractItems raws = Ok out → it ∈ out →
  ∃ r, r ∈ raws ∧ it = partitionItem (list_to_set (ids raws)) r.
Proof.
  intros (Hnd & st & Hwf & _ & ->)%compile_inv Hit.
  apply (wf_part _ _ Hwf), part_lookup in Hit as (r & ? & _ & ->); eauto.
Qed.

Lemma compile_ids raws out :
  compileContractItems raws = Ok out → ci_id <$> out ≡ₚ ids raws.
Proof.
  intros (Hnd & st & Hwf & Hp & ->)%compile_inv.
  apply NoDup_Permutation; [apply Hwf|done|]. intros x. by rewrite <-Hp, (wf_perm _ _ Hwf).
Qed.

Lemma compile_topological raws out : compileContractItems raws = Ok out → topological out.
Proof. intros (_ & st & Hwf & _ & ->)%compile_inv. apply Hwf. Qed.

Lemma compile_declares raws out x y :
  compileContractItems raws = Ok out → declares raws x y →
  ∃ it, it ∈ out ∧ ci_id it = x ∧ y ∈ depends_on it.
Proof.
  intros Hc Hd. pose proof (compile_inv _ _ Hc) as (Hnd & st & Hwf & Hp & ->).
  destruct Hd as (r & Hr & <- & Hy & Hin).
  assert (raw_id r ∈ ci_id <$> ordered st) as Hx.
  { rewrite <-(wf_perm _ _ Hwf), Hp. apply list_elem_of_fmap. eauto. }
  apply list_elem_of_fmap in Hx as (it & Hid & Hit). exists it. split; [done|]. split; [done|].
  assert (declares raws (ci_id it) y) as Hd by (rewrite <-Hid; exists r; auto).
  apply (edge_declares _ Hnd) in Hd. unfold edge, depsOf in Hd.
  by rewrite (wf_part _ _ Hwf _ Hit) in Hd.
Qed.

Lemma compile_acyclic raws out : compileContractItems raws = Ok out → acyclic (declares raws).
Proof.
  intros Hc. eapply (topological_acyclic _ out).
  - rewrite (compile_ids _ _ Hc). by apply compile_inv in Hc as [? _].
  - by eapply compile_topological.
  - intros x y. by apply compile_declares.
Qed.

Lemma walk_mono (R S : string → string → Prop) p :
  (∀ x y, R x y → S x y) → walk R p → walk S p.
Proof. intros HRS Hw n x y Hx Hy. eapply HRS, Hw; eauto. Qed.

Lemma closes_cycle_tc (R : string → string → Prop) p q x :
  walk R p → p = q ++ [x] → x ∈ q → tc R x x.
Proof.
  intros Hw -> Hx. apply list_elem_of_lookup in Hx as [n Hn].
  pose proof (lookup_lt_Some _ _ _ Hn).
  eapply (walk_tc _ _ n (length q)); [exact Hw|by rewrite lookup_app_l|by rewrite list_lookup_middle|lia].
Qed.

Lemma compile_errors_inv raws e :
  compileContractItems raws = Err e →
  (∃ l1 r l2, raws = l1 ++ r :: l2 ∧ e = DuplicateItemId (raw_id r) ∧ raw_id r ∈ ids l1) ∨
  (∃ q x, e = DependencyCycle (q ++ [x]) ∧ NoDup (ids raws) ∧ x ∈ q ∧
          walk (declares raws) (q ++ [x])).
Proof.
  unfold compileContractItems. pose proof (checkDuplicates_spec raws ∅) as Hc.
  destruct (checkDuplicates ∅ raws) as [s|e'].
  - destruct Hc as (Hnd & _ & ->). rewrite union_empty_r_L. cbn [rbind].
    destruct (rfold _ _ _) as [st|e'] eqn:E; cbn [rbind]; [done|]. intros [= <-]. right.
    set (part := partitionItems (list_to_set (ids raws)) raws) in E.
    eapply (rfold_Err _ (extends part (mkVisit ∅ ∅ []))) in E as (s & r & Hr & (Hwf & Hss & _) & Hv).
    + destruct e' as [i|p|].
      * by apply visit_not_duplicate in Hv.
      * apply visit_cycle in Hv as (Hw & q & x & -> & Hx);
          [|by apply part_lookup_id|by apply part_lookup_closed|exact Hwf| |].
        -- exists q, x. repeat split; try done. eapply walk_mono; [|exact Hw].
           intros a b. by apply edge_declares.
        -- intros n a b Ha Hb. destruct n; simpl in *; done.
        -- rewrite Hss. simpl. set_solver.
      * exfalso. revert Hv. apply visit_fuel;
          [by apply part_lookup_id|by apply part_lookup_closed|done|by apply raw_in_dom| |].
        -- rewrite Hss. simpl. set_solver.
        -- unfold part. rewrite part_dom by done. lia.
    + apply extends_refl, init_wf.
    + intros s r s' Hr Hs Hv. apply visit_raw in Hv as [? _]; [|done..|apply Hs].
      by eapply extends_trans.
  - simpl. intros [= <-]. destruct Hc as (l1 & r & l2 & -> & -> & [Hin|Hin]); [set_solver|].
    left. eauto 10.
Qed.

(** Whatever the compilation throws is true of the input: a duplicate
    names an id that occurs twice, a cycle is a walk along declared in-snapshot
    dependencies whose last item occurs before; and nothing else is thrown. *)
Theorem compile_errors_sound raws e :
  compileContractItems raws = Err e →
  (∃ l1 r l2, raws = l1 ++ r :: l2 ∧ e = DuplicateItemId (raw_id r) ∧ raw_id r ∈ ids l1) ∨
  (∃ q x, e = DependencyCycle (q ++ [x]) ∧ NoDup (ids raws) ∧ x ∈ q ∧
          walk (declares raws) (q ++ [x])).
Proof. apply compile_errors_inv. Qed.

(** C25. Compilation is total: it returns items exactly when the ids are
    distinct and the declared in-snapshot dependencies have no cycle. *)
Theorem compile_total raws :
  (∃ out, compileContractItems raws = Ok out) ↔ NoDup (ids raws) ∧ acyclic (declares raws).
Proof.
  split.
  - intros [out Hc]. split; [by apply compile_inv in Hc as [? _]|by eapply compile_acyclic].
  - intros [Hnd Hac]. destruct (compileContractItems raws) as [out|e] eqn:E; [eauto|].
    apply compile_errors_inv in E as [(l1 & r & l2 & -> & -> & Hin)|(q & x & -> & _ & Hx & Hw)].
    + rewrite fmap_app, fmap_cons in Hnd. apply NoDup_app in Hnd as (_ & Hnd & _).
      destruct (Hnd _ Hin). by left.
    + destruct (Hac x). by eapply closes_cycle_tc.
Qed.

(** The compiled items are the raw items, each once, every item after its
    in-snapshot dependencies; each declared dependency is kept, as an ordering
    edge exactly when it names an item of the snapshot and as an external one
    otherwise. *)
Theorem compile_sound raws out :
  compileContractItems raws = Ok out →
  (ci_id <$> out ≡ₚ raw_id <$> raws) ∧ topological out ∧
  ∀ it, it ∈ out → ∃ r, r ∈ raws ∧ raw_id r = ci_id it ∧
    ∀ d, d ∈ default [] (raw_depends_on r) →
      (d ∈ raw_id <$> raws ∧ d ∈ depends_on it ∧ d ∉ default [] (external_depends_on it)) ∨
      (d ∉ raw_id <$> raws ∧ d ∉ depends_on it ∧ d ∈ default [] (external_depends_on it)).
Proof.
  intros Hc. split; [by apply compile_ids|]. split; [by eapply compile_topological|].
  intros it Hit. destruct (compile_items_partition _ _ _ Hc Hit) as (r & Hr & ->).
  exists r. split; [done|]. split; [done|]. intros d Hd. simpl.
  rewrite !list_elem_of_filter, !elem_of_list_to_set.
  destruct (decide (d ∈ ids raws)); naive_solver.
Qed.

Lemma rfold_stay {E S A} (f : S → A → result E S) s l :
  (∀ x, x ∈ l → f s x = Ok s) → rfold f s l = Ok s.
Proof.
  induction l as [|x l IH]; intros Hf; simpl; [done|]. rewrite Hf by left. simpl.
  apply IH. intros y Hy. apply Hf. by right.
Qed.

(** Visiting an item whose dependencies are all permanent appends it. *)
Lemma visit_next part fuel i it st :
  part !! i = Some it → i ∉ permanent st → inStack st = ∅ →
  (∀ d, d ∈ depends_on it → d ∈ permanent st) →
  visit part (S fuel) i [] st = Ok (mkVisit ({[i]} ∪ permanent st) ∅ (ordered st ++ [it])).
Proof.
  intros Hi Hp Hs Hd. cbn [visit]. rewrite decide_False by done. rewrite Hs, decide_False by set_solver.
  rewrite rfold_stay.
  - cbn [rbind]. rewrite Hi. do 2 f_equal. simpl. set_solver.
  - intros d. unfold depsOf. rewrite Hi. intros Hin. apply Hd in Hin.
    destruct fuel; cbn [visit]; by rewrite decide_True.
Qed.

Lemma compile_loop_ordered raws fuel l2 : ∀ l1,
  NoDup (ids raws) → raws = l1 ++ l2 →
  (∀ k1 r k2, raws = k1 ++ r :: k2 → ∀ d, d ∈ default [] (raw_depends_on r) →
     d ∈ ids raws → d ∈ ids k1) →
  rfold (fun s r => visit (partitionItems (list_to_set (ids raws)) raws) (S fuel) (raw_id r) [] s)
    (mkVisit (list_to_set (ids l1)) ∅ (partitionItem (list_to_set (ids raws)) <$> l1)) l2 =
  Ok (mkVisit (list_to_set (ids raws)) ∅ (partitionItem (list_to_set (ids raws)) <$> raws)).
Proof.
  induction l2 as [|r l2 IH]; intros l1 Hnd Heq Hord; cbn [rfold].
  { by rewrite app_nil_r in Heq; subst l1. }
  rewrite visit_next with (it := partitionItem (list_to_set (ids raws)) r).
  - cbn [rbind permanent ordered].
    specialize (IH (l1 ++ [r]) Hnd). rewrite <-app_assoc in IH. specialize (IH Heq Hord).
    rewrite !fmap_app in IH. rewrite list_to_set_app_L, union_comm_L in IH. simpl in IH.
    by rewrite union_empty_r_L in IH.
  - apply part_lookup; [done|]. exists r. split; [|done]. rewrite Heq. set_solver.
  - simpl. rewrite elem_of_list_to_set. intros Hin.
    rewrite Heq, fmap_app, fmap_cons in Hnd. apply NoDup_app in Hnd as (_ & Hnd & _).
    apply (Hnd _ Hin). by left.
  - done.
  - intros d [Hd1 Hd2]%list_elem_of_filter. simpl. apply elem_of_list_to_set.
    apply elem_of_list_to_set in Hd1. eapply Hord; eauto.
Qed.

(** Ties are broken by input order: a snapshot already listed in
    dependency order compiles to the same sequence, so compiling again changes
    nothing. *)
Theorem compile_stable raws :
  NoDup (raw_id <$> raws) →
  (∀ k1 r k2, raws = k1 ++ r :: k2 → ∀ d, d ∈ default [] (raw_depends_on r) →
     d ∈ raw_id <$> raws → d ∈ raw_id <$> k1) →
  compileContractItems raws = Ok (partitionItem (list_to_set (raw_id <$> raws)) <$> raws).
Proof.
  intros Hnd Hord. unfold compileContractItems. pose proof (checkDuplicates_spec raws ∅) as Hc.
  destruct (checkDuplicates ∅ raws) as [s|e].
  - destruct Hc as (_ & _ & ->). rewrite union_empty_r_L. cbn [rbind].
    by rewrite (compile_loop_ordered raws _ raws [] Hnd).
  - destruct Hc as (l1 & r & l2 & -> & _ & [Hin|Hin]); [set_solver|].
    rewrite fmap_app, fmap_cons in Hnd. apply NoDup_app in Hnd as (_ & Hnd & _).
    destruct (Hnd _ Hin). by left.
Qed.

(** ** Witnesses *)

Module CompileExamples.
Definition raws : list RawContractItem :=
  [mkRaw "3" (Some ["2"; "900"]); mkRaw "1" None; mkRaw "2" (Some ["1"])].
Definition chain : list RawContractItem :=
  [mkRaw "1" None; mkRaw "2" (Some ["1"]); mkRaw "3" (Some ["2"; "1"; "77"])].
Definition loop : list RawContractItem :=
  [mkRaw "1" (Some ["2"]); mkRaw "2" (Some ["3"]); mkRaw "3" (Some ["2"])].

Example loop_message :
  compileContractItems loop = Err (DependencyCycle ["1"; "2"; "3"; "2"]) ∧
  message (compile_loop_error (DependencyCycle ["1"; "2"; "3"; "2"])) =
    "dependency cycle detected: 1 -> 2 -> 3 -> 2".
Proof. split; vm_compute; reflexivity. Qed.
End CompileExamples.

Lemma compile_sound_witness :
  ∃ out, compileContractItems CompileExamples.raws = Ok out ∧ ci_id <$> out = ["1"; "2"; "3"] ∧
    topological out.
Proof.
  eexists. split; [vm_compute; reflexivity|]. split; [vm_compute; reflexivity|].
  apply (compile_sound CompileExamples.raws). vm_compute. reflexivity.
Defined.

Lemma compile_errors_sound_witness :
  (∃ l1 r l2, CompileExamples.loop = l1 ++ r :: l2 ∧
     DependencyCycle ["1"; "2"; "3"; "2"] = DuplicateItemId (raw_id r) ∧ raw_id r ∈ raw_id <$> l1) ∨
  (∃ q x, DependencyCycle ["1"; "2"; "3"; "2"] = DependencyCycle (q ++ [x]) ∧
     NoDup (raw_id <$> CompileExamples.loop) ∧ x ∈ q ∧
     walk (declares CompileExamples.loop) (q ++ [x])).
Proof. apply (compile_errors_sound CompileExamples.loop). vm_compute. reflexivity. Defined.

Lemma compile_stable_witness :
  compileContractItems CompileExamples.chain =
    Ok (partitionItem (list_to_set (raw_id <$> CompileExamples.chain)) <$> CompileExamples.chain).
Proof.
  apply (compile_stable CompileExamples.chain).
  - apply (bool_decide_unpack _). vm_compute. exact I.
  - intros k1 r k2 Heq d Hd Hin. unfold CompileExamples.chain in *.
    destruct k1 as [|? [|? [|? [|? ?]]]]; simplify_eq/=; set_solver.
Defined.
