(* ===== verification/Ownership.v ===== *)
(** * Ownership declarations and pairwise conflict evaluation

    [core/scripts/loop/ownership.ts]: validation of a declaration, the
    canonical form of its glob patterns, the sorted surface set, the glob
    overlap test and the pairwise verdict. *)

From Stdlib Require Import Ascii.
From stdpp Require Import base gmap strings list sorting.
From S2P Require Import Prelude LoopTypes.
Local Open Scope result_scope.

(** ** Characters of patterns *)

Definition slash : ascii := "/"%char.
Definition star : ascii := "*"%char.
Definition qmark : ascii := "?"%char.
Definition dot : ascii := "."%char.
Definition backslash : ascii := "\"%char.

(** [s.split("/")]. *)
Fixpoint split_slash (l : list ascii) : list (list ascii) :=
  match l with
  | [] => [[]]
  | c :: l' =>
      if decide (c = slash) then [] :: split_slash l'
      else match split_slash l' with
           | [] => [[c]]
           | s :: ss => (c :: s) :: ss
           end
  end.

(** [s.includes(t)]. *)
Fixpoint contains (t l : list ascii) : bool :=
  bool_decide (t `prefix_of` l) ||
  match l with
  | [] => false
  | _ :: l' => contains t l'
  end.

(** ** Validation *)

(** [/[A-Za-z0-9_./*?-]/]. *)
Definition valid_pattern_char (c : ascii) : bool :=
  let n := nat_of_ascii c in
  ((65 <=? n) && (n <=? 90)) || ((97 <=? n) && (n <=? 122)) || ((48 <=? n) && (n <=? 57)) ||
  includes c ["_"%char; dot; slash; star; qmark; "-"%char].

Definition isMalformedGlob (pattern : string) : bool :=
  let trimmed := trim (chars pattern) in
  if decide (trimmed = []) then true
  else if negb (forallb valid_pattern_char trimmed) then true
  else if contains [star; star; star] trimmed then true
  else existsb (fun segment =>
         match segment with
         | [] => false
         | _ => (contains [star; star] segment && bool_decide (segment ≠ [star; star]))
                || bool_decide (segment = [dot; dot])
         end) (split_slash trimmed).

Definition validation {A} (msg : string) : result LoopError A := Err (mkLoopError FValidation msg).

(** A loop that refuses the first offending element. *)
Fixpoint refuse_any {A} (bad : A → option string) (l : list A) : result LoopError unit :=
  match l with
  | [] => Ok tt
  | x :: l' =>
      match bad x with
      | Some msg => validation msg
      | None => refuse_any bad l'
      end
  end.

Definition validateException (e : OwnershipException) : option string :=
  if negb (isOwnershipSharedSurfaceKind (ex_kind e)) || isMalformedGlob (ex_pattern e) then
    Some "ownership exception.surface must name a valid shared-surface kind and pattern"
  else if blank (justification e) then
    Some "ownership exception is missing its required justification"
  else if blank (review_ref e) then
    Some "ownership exception is missing its required review_ref"
  else if blank (counterpart_item_id e) then
    Some "ownership exception is missing its required counterpart_item_id"
  else None.

Fixpoint validateShared (entries : obj (list string)) : result LoopError unit :=
  match entries with
  | [] => Ok tt
  | (kind, patterns) :: entries' =>
      if negb (isOwnershipSharedSurfaceKind kind) then
        validation ("ownership.shared names an unknown surface kind: " +:+ quoted kind)
      else
        try _ := refuse_any (fun p => if isMalformedGlob p then
                   Some ("ownership.shared[" +:+ quoted kind +:+ "] names a malformed glob: " +:+ quoted p)
                   else None) patterns in
        validateShared entries'
  end.

(** The declaration already has the declared shape (arrays of strings and so
    on); what is checked beyond the shape is checked here. *)
Definition validateOwnershipDeclaration (decl : option OwnershipDeclaration) : result LoopError unit :=
  match decl with
  | None => Ok tt
  | Some d =>
      try _ := refuse_any (fun p => if isMalformedGlob p then
                 Some ("ownership.exclusive names a malformed glob: " +:+ quoted p) else None)
                 (default [] (exclusive d)) in
      try _ := validateShared (default [] (shared d)) in
      refuse_any validateException (default [] (exceptions d))
  end.

(** ** Normalization *)

(** [while (p.startsWith("./")) p = p.slice(2)]. *)
Fixpoint strip_dot_slash (l : list ascii) : list ascii :=
  match l with
  | c :: l1 =>
      if decide (c = dot) then
        match l1 with
        | c' :: l2 => if decide (c' = slash) then strip_dot_slash l2 else l
        | [] => l
        end
      else l
  | [] => l
  end.

(** [p.replace(/\/{2,}/g, "/")]. *)
Fixpoint collapse_slashes (l : list ascii) : list ascii :=
  match l with
  | [] => []
  | c :: l' =>
      if decide (c = slash) then
        match l' with
        | c' :: _ => if decide (c' = slash) then collapse_slashes l' else c :: collapse_slashes l'
        | [] => [c]
        end
      else c :: collapse_slashes l'
  end.

(** [if (p.length > 1 && p.endsWith("/")) p = p.slice(0, -1)]. *)
Definition drop_trailing_slash (l : list ascii) : list ascii :=
  if decide (1 < length l ∧ last l = Some slash) then take (length l - 1) l else l.

Definition canonicalizeChars (l : list ascii) : list ascii :=
  drop_trailing_slash (collapse_slashes (strip_dot_slash
    ((fun c => if decide (c = backslash) then slash else c) <$> trim l))).

Definition canonicalizePattern (pattern : string) : string :=
  unchars (canonicalizeChars (chars pattern)).

Definition compareSurfaces (a b : NormalizedOwnershipSurface) : comparison :=
  if decide (s_class a = s_class b) then
    if decide (s_kind a = s_kind b) then String.compare (s_pattern a) (s_pattern b)
    else String.compare (s_kind a) (s_kind b)
  else String.compare (surface_class_name (s_class a)) (surface_class_name (s_class b)).

Definition surface_le (a b : NormalizedOwnershipSurface) : Prop := compareSurfaces a b ≠ Gt.

#[export] Instance surface_le_dec : RelDecision surface_le.
Proof. intros a b. unfold surface_le. solve_decision. Defined.

Definition nul : string := String (ascii_of_nat 0) EmptyString.

(** The key of an entry of the [entries] map. *)
Definition surface_key (s : NormalizedOwnershipSurface) : string :=
  surface_class_name (s_class s) +:+ nul +:+ s_kind s +:+ nul +:+ s_pattern s.

(** The surfaces in the order the loops set them. *)
Definition declared_surfaces (d : OwnershipDeclaration) : list NormalizedOwnershipSurface :=
  ((fun p => mkSurface "source" (canonicalizePattern p) ExclusiveClass) <$> default [] (exclusive d)) ++
  (default [] (shared d) ≫= fun '(kind, patterns) =>
     (fun p => mkSurface kind (canonicalizePattern p) SharedClass) <$> patterns).

Definition normalizeOwnership (decl : option OwnershipDeclaration) : list NormalizedOwnershipSurface :=
  match decl with
  | None => []
  | Some d =>
      merge_sort surface_le
        (ovalues (foldl (fun m s => oset (surface_key s) s m) [] (declared_surfaces d)))
  end.

(** ** Glob overlap *)

Definition splitSegments (pattern : string) : list (list ascii) :=
  filter (fun s => s ≠ []) (split_slash (canonicalizeChars (chars pattern))).

(** [segmentRegex(seg).test(s)]: [*] is [[^/]*], [?] is [[^/]], every other
    character stands for itself. *)
Fixpoint segmentTest (seg : list ascii) : list ascii → bool :=
  match seg with
  | [] => fun s => bool_decide (s = [])
  | c :: seg' =>
      if decide (c = star) then
        fix run (s : list ascii) : bool :=
          segmentTest seg' s ||
          match s with
          | [] => false
          | x :: s' => bool_decide (x ≠ slash) && run s'
          end
      else
        fun s =>
          match s with
          | [] => false
          | x :: s' =>
              (if decide (c = qmark) then bool_decide (x ≠ slash) else bool_decide (x = c))
              && segmentTest seg' s'
          end
  end.

Definition isWild (seg : list ascii) : bool := includes star seg || includes qmark seg.

Definition segmentsOverlap (a b : list ascii) : bool :=
  if decide (a = b) then true
  else if negb (isWild a) && negb (isWild b) then false
  else if isWild a && negb (isWild b) then segmentTest a b
  else if negb (isWild a) && isWild b then segmentTest b a
  else true.

Definition isDoubleStar (s : list ascii) : bool := bool_decide (s = [star; star]).

(** [rec(i, j)] on the remaining segments; the memo table only caches. *)
Fixpoint overlapSegs (a : list (list ascii)) : list (list ascii) → bool :=
  match a with
  | [] => fun b => forallb isDoubleStar b
  | sa :: a' =>
      fix inner (b : list (list ascii)) : bool :=
        match b with
        | [] => forallb isDoubleStar (sa :: a')
        | sb :: b' =>
            if isDoubleStar sa && isDoubleStar sb then
              overlapSegs a' (sb :: b') || inner b' || overlapSegs a' b'
            else if isDoubleStar sa then overlapSegs a' (sb :: b') || inner b'
            else if isDoubleStar sb then inner b' || overlapSegs a' (sb :: b')
            else segmentsOverlap sa sb && overlapSegs a' b'
        end
  end.

Definition globOverlap (patternA patternB : string) : bool :=
  overlapSegs (splitSegments patternA) (splitSegments patternB).

(** ** Pairwise evaluation *)

Record OwnershipEvalInput := mkEval {
  ev_id : string;
  ev_decl : option OwnershipDeclaration;
  ev_normalized : list NormalizedOwnershipSurface;
}.

Definition declExceptions (a : OwnershipEvalInput) : list OwnershipException :=
  default [] (ev_decl a ≫= exceptions).
Definition declConflicts (a : OwnershipEvalInput) : list string :=
  default [] (ev_decl a ≫= conflicts_with).

Definition hasValidException (a b : OwnershipEvalInput) (surface : NormalizedOwnershipSurface) : bool :=
  let es := filter (fun e => counterpart_item_id e = ev_id b) (declExceptions a) ++
            filter (fun e => counterpart_item_id e = ev_id a) (declExceptions b) in
  existsb (fun e =>
    bool_decide (ex_kind e = s_kind surface) &&
    bool_decide (canonicalizePattern (ex_pattern e) = s_pattern surface) &&
    negb (blank (justification e)) && negb (blank (review_ref e))) es.

(** [for (sa of as) for (sb of bs) if (bad) return sa]: the surface reported. *)
Definition first_pair {A} (bad : A → A → bool) (l1 l2 : list A) : option A :=
  list_find (fun sa => existsb (bad sa) l2 = true) l1 ≫= fun p => Some p.2.

Definition sharedClash (a b : OwnershipEvalInput) (sa sb : NormalizedOwnershipSurface) : bool :=
  bool_decide (s_class sa = SharedClass) && bool_decide (s_class sb = SharedClass) &&
  bool_decide (s_kind sb = s_kind sa) && bool_decide (s_pattern sb = s_pattern sa) &&
  negb (hasValidException a b sa).

Definition exclusiveClash (sa sb : NormalizedOwnershipSurface) : bool :=
  bool_decide (s_class sa = ExclusiveClass) && bool_decide (s_class sb = ExclusiveClass) &&
  globOverlap (s_pattern sa) (s_pattern sb).

Definition mixedClash (sa sb : NormalizedOwnershipSurface) : bool :=
  bool_decide (s_class sa ≠ s_class sb) && globOverlap (s_pattern sa) (s_pattern sb).

Definition noSurfaces (a : OwnershipEvalInput) : string :=
  "item " +:+ quoted (ev_id a) +:+ " declares no ownership surfaces".

Definition evaluateConflict (a b : OwnershipEvalInput) : OwnershipConflictVerdict :=
  if includes (ev_id b) (declConflicts a) || includes (ev_id a) (declConflicts b) then
    Conflict ExplicitEdge
  else if decide (ev_normalized a = []) then Conflict (UnknownOwnership (noSurfaces a))
  else if decide (ev_normalized b = []) then Conflict (UnknownOwnership (noSurfaces b))
  else
    match first_pair (sharedClash a b) (ev_normalized a) (ev_normalized b) with
    | Some sa => Conflict (OverlappingSurface sa)
    | None =>
        match first_pair exclusiveClash (ev_normalized a) (ev_normalized b) with
        | Some sa => Conflict (OverlappingSurface sa)
        | None =>
            match first_pair mixedClash (ev_normalized a) (ev_normalized b) with
            | Some sa => Conflict (OverlappingSurface sa)
            | None => Disjoint
            end
        end
    end.

Definition evalInput (i : string) (decl : option OwnershipDeclaration) : OwnershipEvalInput :=
  mkEval i decl (normalizeOwnership decl).

(** ** Planning evidence *)

Record OwnershipEvidencePair := mkPair {
  a_item_id : string;
  b_item_id : string;
  pair_verdict : OwnershipConflictVerdict;
}.

Definition isDisjoint (v : OwnershipConflictVerdict) : bool :=
  match v with Disjoint => true | Conflict _ => false end.

(** The double loop [i < j]. *)
Fixpoint evidencePairs (evalInputs : list OwnershipEvalInput) : list OwnershipEvidencePair :=
  match evalInputs with
  | [] => []
  | a :: rest =>
      ((fun b => mkPair (ev_id a) (ev_id b) (evaluateConflict a b)) <$> rest) ++ evidencePairs rest
  end.

Fixpoint evalInputsOf (its : list (string * option OwnershipDeclaration))
    : result LoopError (list OwnershipEvalInput) :=
  match its with
  | [] => Ok []
  | (i, decl) :: its' =>
      try _ := validateOwnershipDeclaration decl in
      try rest := evalInputsOf its' in
      Ok (evalInput i decl :: rest)
  end.

Definition evaluateOwnershipEvidence (its : list (string * option OwnershipDeclaration))
    : result LoopError (list (string * list NormalizedOwnershipSurface) * list OwnershipEvidencePair) :=
  try evalInputs := evalInputsOf its in
  Ok ((fun i => (ev_id i, ev_normalized i)) <$> evalInputs, evidencePairs evalInputs).

(** ** Specification: what a glob covers *)

(** A segment pattern covers a path segment. *)
Inductive SegMatches : list ascii → list ascii → Prop :=
| SM_nil : SegMatches [] []
| SM_lit c p s : c ≠ star → c ≠ qmark → SegMatches p s → SegMatches (c :: p) (c :: s)
| SM_any x p s : x ≠ slash → SegMatches p s → SegMatches (qmark :: p) (x :: s)
| SM_star_none p s : SegMatches p s → SegMatches (star :: p) s
| SM_star_more x p s : x ≠ slash → SegMatches (star :: p) s → SegMatches (star :: p) (x :: s).

(** A pattern covers a path: [**] any number of segments, any other segment one. *)
Inductive GlobMatches : list (list ascii) → list (list ascii) → Prop :=
| GM_nil : GlobMatches [] []
| GM_dstar_none p path : GlobMatches p path → GlobMatches ([star; star] :: p) path
| GM_dstar_more p s path :
    GlobMatches ([star; star] :: p) path → GlobMatches ([star; star] :: p) (s :: path)
| GM_seg seg p s path :
    seg ≠ [star; star] → SegMatches seg s → GlobMatches p path → GlobMatches (seg :: p) (s :: path).

(** The paths a pattern of a declaration covers. *)
Definition covers (pattern : string) (path : list (list ascii)) : Prop :=
  GlobMatches (splitSegments pattern) path.

(** ** Segments *)

Lemma segmentTest_complete seg s : SegMatches seg s → segmentTest seg s = true.
Proof.
  induction 1 as [|c p s Hs Hq _ IH|x p s Hx _ IH|p s _ IH|x p s Hx _ IH].
  - done.
  - simpl. rewrite !decide_False by done. by rewrite bool_decide_true.
  - simpl. by rewrite bool_decide_true.
  - simpl. destruct s; by rewrite IH.
  - simpl in IH |- *. rewrite bool_decide_true by done. simpl. rewrite IH. apply orb_true_r.
Qed.

Lemma segmentTest_sound seg : ∀ s, segmentTest seg s = true → SegMatches seg s.
Proof.
  induction seg as [|c seg IH]; simpl; [intros s ->%bool_decide_eq_true; constructor|].
  destruct (decide (c = star)) as [->|Hns].
  - induction s as [|x s IHs].
    + rewrite orb_false_r. intros ?%IH. by constructor.
    + intros [?%IH|[Hx%bool_decide_eq_true ?%IHs]%andb_true_iff]%orb_true_iff; by constructor.
  - intros [|x s]; [done|].
    destruct (decide (c = qmark)) as [->|Hnq]; intros [Hx%bool_decide_eq_true ?%IH]%andb_true_iff;
      [by constructor|]. subst x. by constructor.
Qed.

Lemma SegMatches_plain seg s : isWild seg = false → SegMatches seg s → s = seg.
Proof.
  unfold isWild. rewrite orb_false_iff, !includes_false. intros [Hs Hq] Hm.
  induction Hm as [|c p s ?? _ IH|x p s Hx _ _|p s _ _|x p s _ _ _].
  - done.
  - rewrite IH; [done|set_solver..].
  - destruct Hq. left.
  - destruct Hs. left.
  - destruct Hs. left.
Qed.

Lemma segmentsOverlap_complete a b s :
  SegMatches a s → SegMatches b s → segmentsOverlap a b = true.
Proof.
  intros Ha Hb. unfold segmentsOverlap. case_decide; [done|].
  destruct (isWild a) eqn:Wa, (isWild b) eqn:Wb; simpl; [done|..].
  - apply (SegMatches_plain _ _ Wb) in Hb as ->. by apply segmentTest_complete.
  - apply (SegMatches_plain _ _ Wa) in Ha as ->. by apply segmentTest_complete.
  - apply (SegMatches_plain _ _ Wa) in Ha as ->. by apply (SegMatches_plain _ _ Wb) in Hb as ->.
Qed.

Lemma segmentsOverlap_sym a b : segmentsOverlap a b = segmentsOverlap b a.
Proof.
  unfold segmentsOverlap. destruct (decide (a = b)) as [->|Hne]; [by rewrite decide_True|].
  rewrite (decide_False (P := b = a)) by congruence. by destruct (isWild a), (isWild b).
Qed.

(** ** Overlap of patterns *)

Lemma overlapSegs_nil_l b : overlapSegs [] b = forallb isDoubleStar b.
Proof. done. Qed.

Lemma overlapSegs_nil_r a : overlapSegs a [] = forallb isDoubleStar a.
Proof. by destruct a. Qed.

Lemma overlapSegs_cons sa a sb b :
  overlapSegs (sa :: a) (sb :: b) =
    if isDoubleStar sa && isDoubleStar sb then
      overlapSegs a (sb :: b) || overlapSegs (sa :: a) b || overlapSegs a b
    else if isDoubleStar sa then overlapSegs a (sb :: b) || overlapSegs (sa :: a) b
    else if isDoubleStar sb then overlapSegs (sa :: a) b || overlapSegs a (sb :: b)
    else segmentsOverlap sa sb && overlapSegs a b.
Proof. done. Qed.

Lemma overlapSegs_sym a : ∀ b, overlapSegs a b = overlapSegs b a.
Proof.
  induction a as [|sa a IHa]; intros b; [by rewrite overlapSegs_nil_l, overlapSegs_nil_r|].
  induction b as [|sb b IHb]; [by rewrite overlapSegs_nil_l, overlapSegs_nil_r|].
  rewrite !overlapSegs_cons, IHb, !IHa, segmentsOverlap_sym.
  destruct (isDoubleStar sa), (isDoubleStar sb); simpl; try done.
  by rewrite (orb_comm (overlapSegs (sb :: b) a)).
Qed.

Lemma GlobMatches_nil_inv p : GlobMatches p [] → forallb isDoubleStar p = true.
Proof.
  remember [] as path eqn:E. induction 1; simplify_eq/=; [done|]. by rewrite IHGlobMatches.
Qed.

Lemma overlapSegs_complete a b path :
  GlobMatches a path → GlobMatches b path → overlapSegs a b = true.
Proof.
  remember (length a + length b + length path) as n eqn:En.
  revert a b path En. induction (lt_wf n) as [n _ IH]. intros a b path -> Ha Hb.
  assert (∀ a' b' path', length a' + length b' + length path' < length a + length b + length path →
    GlobMatches a' path' → GlobMatches b' path' → overlapSegs a' b' = true) as IH'.
  { intros a' b' path' Hlt. by eapply IH. }
  clear IH. destruct a as [|sa a]; [inversion Ha; subst; by apply GlobMatches_nil_inv|].
  destruct b as [|sb b]; [inversion Hb; subst; rewrite overlapSegs_nil_r; by apply GlobMatches_nil_inv|].
  rewrite overlapSegs_cons. unfold isDoubleStar.
  inversion Ha as [|? ? Ha'|? sx pathx Ha'|? ? sx pathx Hna Hma Ha']; subst.
  - rewrite bool_decide_true by done. cbn [andb].
    rewrite (IH' a (sb :: b) path) by (simpl in *; done || lia).
    by destruct (bool_decide (sb = _)).
  - rewrite bool_decide_true by done. cbn [andb].
    inversion Hb as [|? ? Hb'|? ? ? Hb'|? ? ? ? Hnb Hmb Hb']; subst.
    + rewrite bool_decide_true by done.
      rewrite (IH' ([star; star] :: a) b (sx :: pathx)) by (simpl in *; done || lia).
      by rewrite orb_true_r.
    + specialize (IH' ([star; star] :: a) ([star; star] :: b) pathx ltac:(simpl; lia) Ha' Hb').
      by rewrite overlapSegs_cons in IH'.
    + rewrite bool_decide_false by done.
      rewrite (IH' ([star; star] :: a) b pathx) by (simpl in *; done || lia). apply orb_true_r.
  - rewrite bool_decide_false by done. cbn [andb].
    inversion Hb as [|? ? Hb'|? ? ? Hb'|? ? ? ? Hnb Hmb Hb']; subst.
    + rewrite bool_decide_true by done.
      by rewrite (IH' (sa :: a) b (sx :: pathx)) by (simpl in *; done || lia).
    + rewrite bool_decide_true by done.
      rewrite (IH' a ([star; star] :: b) pathx) by (simpl in *; done || lia). apply orb_true_r.
    + rewrite bool_decide_false by done.
      rewrite (segmentsOverlap_complete _ _ _ Hma Hmb). cbn [andb].
      by apply (IH' a b pathx); [simpl; lia|..].
Qed.

(** ** Normalized surface sets *)

Lemma chars_app s t : chars (s +:+ t) = chars s ++ chars t.
Proof. induction s as [|c s IH]; simpl; [done|]. by rewrite <-IH. Qed.

#[export] Instance chars_inj : Inj (=) (=) String.list_ascii_of_string.
Proof. intros s t H. by rewrite <-(String.string_of_list_ascii_of_string s), H, String.string_of_list_ascii_of_string. Qed.

Definition nul_char : ascii := ascii_of_nat 0.

Lemma split_at_nul (k1 k2 r1 r2 : list ascii) :
  nul_char ∉ k1 → nul_char ∉ k2 → k1 ++ nul_char :: r1 = k2 ++ nul_char :: r2 → k1 = k2 ∧ r1 = r2.
Proof.
  revert k2. induction k1 as [|c k1 IH]; intros [|c' k2] H1 H2 Heq; simpl in *; simplify_eq.
  - done.
  - destruct H2. left.
  - destruct H1. left.
  - destruct (IH k2) as [-> ->]; set_solver.
Qed.

Definition nul_free (s : NormalizedOwnershipSurface) : Prop := nul_char ∉ chars (s_kind s).

Lemma surface_key_inj s t : nul_free s → nul_free t → surface_key s = surface_key t → s = t.
Proof.
  unfold nul_free, surface_key. intros Hs Ht Heq. apply (f_equal chars) in Heq.
  rewrite !chars_app in Heq. change (chars nul) with [nul_char] in Heq. simpl in Heq.
  apply split_at_nul in Heq as [Hc Heq]; [|by destruct (s_class s); set_solver|by destruct (s_class t); set_solver].
  apply split_at_nul in Heq as [Hk Hp]; [|done..].
  apply (inj _) in Hk, Hp. destruct s as [k p c], t as [k' p' c']. simpl in *. subst.
  by destruct c, c'.
Qed.

Lemma validateShared_kinds o :
  validateShared o = Ok tt → ∀ k ps, (k, ps) ∈ o → k ∈ OWNERSHIP_SHARED_SURFACE_KINDS.
Proof.
  induction o as [|[k ps] o IH]; simpl; [intros _ k ps Hin; inversion Hin|].
  destruct (isOwnershipSharedSurfaceKind k) eqn:Hk; simpl; [|done]. intros H. inv_bind H.
  intros k' ps' Hin. apply elem_of_cons in Hin as [Heq|Hin]; [|by eapply IH].
  injection Heq as -> ->. by apply includes_true.
Qed.

Lemma validate_shared d :
  validateOwnershipDeclaration (Some d) = Ok tt → validateShared (default [] (shared d)) = Ok tt.
Proof. simpl. intros H. inv_bind H. inv_bind H. by destruct x0. Qed.

Lemma validated_nul_free d s :
  validateOwnershipDeclaration (Some d) = Ok tt → s ∈ declared_surfaces d → nul_free s.
Proof.
  intros Hv Hs. unfold nul_free. apply elem_of_app in Hs as [Hs|Hs].
  - apply list_elem_of_fmap in Hs as (p & -> & _). simpl. set_solver.
  - apply list_elem_of_bind in Hs as ([k ps] & Hs & Hin). apply list_elem_of_fmap in Hs as (p & -> & _).
    eapply validateShared_kinds in Hin; [|by apply validate_shared]. simpl.
    repeat (apply elem_of_cons in Hin as [->|Hin]; [simpl; set_solver|]). inversion Hin.
Qed.

Lemma normalize_elem d s :
  validateOwnershipDeclaration (Some d) = Ok tt →
  s ∈ normalizeOwnership (Some d) ↔ s ∈ declared_surfaces d.
Proof.
  intros Hv. simpl. rewrite merge_sort_Permutation.
  destruct (ovalues_fold_oset surface_key (declared_surfaces d) []) as (_ & _ & He).
  - apply NoDup_nil_2.
  - done.
  - intros x y [Hx|Hx] [Hy|Hy] Heq; [|by inversion Hy|by inversion Hx..].
    apply surface_key_inj; eauto using validated_nul_free.
  - rewrite He. split; [|by left]. intros [?|Hs]; [done|inversion Hs].
Qed.

(** The documented sort is a total order, so the set determines the list. *)
Lemma string_compare_refl s : String.compare s s = Eq.
Proof. induction s as [|c s IH]; simpl; [done|]. unfold Ascii.compare. by rewrite N.compare_refl. Qed.

Lemma string_compare_le s t : String.compare s t ≠ Gt ↔ String.le s t.
Proof. unfold String.le, String.leb. by destruct (String.compare s t). Qed.

Lemma string_compare_ne s t : s ≠ t → String.compare s t ≠ Gt ↔ String.compare s t = Lt.
Proof.
  intros Hne. destruct (String.compare s t) eqn:E; [|naive_solver..].
  by apply String.compare_eq_iff in E.
Qed.

Lemma surface_le_cases a b :
  surface_le a b ↔
  (s_class a ≠ s_class b ∧ String.le (surface_class_name (s_class a)) (surface_class_name (s_class b))) ∨
  (s_class a = s_class b ∧ s_kind a ≠ s_kind b ∧ String.le (s_kind a) (s_kind b)) ∨
  (s_class a = s_class b ∧ s_kind a = s_kind b ∧ String.le (s_pattern a) (s_pattern b)).
Proof.
  unfold surface_le, compareSurfaces. repeat case_decide; rewrite <-!string_compare_le; naive_solver.
Qed.

#[export] Instance class_name_inj : Inj (=) (=) surface_class_name.
Proof. by intros [] []. Qed.

#[export] Instance surface_le_antisymm : AntiSymm (=) surface_le.
Proof.
  intros [k p c] [k' p' c']. rewrite !surface_le_cases. simpl.
  intros [[Hne H1]|[(-> & Hne & H1)|(-> & -> & H1)]] [[Hne' H2]|[(He & Hne' & H2)|(He & He' & H2)]];
    try congruence.
  - destruct Hne. apply (inj surface_class_name). by apply (anti_symm String.le).
  - destruct Hne. by apply (anti_symm String.le).
  - f_equal. by apply (anti_symm String.le).
Qed.

#[export] Instance surface_le_trans : Transitive surface_le.
Proof.
  intros [k1 p1 c1] [k2 p2 c2] [k3 p3 c3]. rewrite !surface_le_cases. simpl.
  intros [[Hne H1]|[(-> & Hne & H1)|(-> & -> & H1)]] [[Hne' H2]|[(<- & Hne' & H2)|(<- & <- & H2)]]; try by auto.
  - destruct (decide (c1 = c3)) as [->|]; [|left; split; [done|by etrans]].
    destruct Hne. apply (inj surface_class_name). by apply (anti_symm String.le).
  - destruct (decide (k1 = k3)) as [->|]; [|right; left; split; [done|split; [done|by etrans]]].
    destruct Hne. by apply (anti_symm String.le).
  - right; right. split; [done|]. split; [done|by etrans].
Qed.

#[export] Instance surface_le_total : Total surface_le.
Proof.
  intros [k1 p1 c1] [k2 p2 c2]. rewrite !surface_le_cases. simpl.
  destruct (decide (c1 = c2)) as [->|Hc].
  - destruct (decide (k1 = k2)) as [->|Hk].
    + destruct (total String.le p1 p2); [left|right]; right; right; done.
    + destruct (total String.le k1 k2); [left|right]; right; left; done.
  - destruct (total String.le (surface_class_name c1) (surface_class_name c2)); [left|right]; left; done.
Qed.

Lemma normalize_NoDup d :
  validateOwnershipDeclaration (Some d) = Ok tt → NoDup (normalizeOwnership (Some d)).
Proof.
  intros Hv. simpl. rewrite merge_sort_Permutation.
  destruct (ovalues_fold_oset surface_key (declared_surfaces d) []) as (Hnd & Hk & He).
  - apply NoDup_nil_2.
  - done.
  - intros x y [Hx|Hx] [Hy|Hy] Heq; [|by inversion Hy|by inversion Hx..].
    apply surface_key_inj; eauto using validated_nul_free.
  - eapply (NoDup_fmap_1 surface_key).
    assert (∀ o : obj NormalizedOwnershipSurface, NoDup (okeys o) →
      (∀ k v, oget o k = Some v → k = surface_key v) → surface_key <$> ovalues o = okeys o) as Hkeys;
      [|by rewrite Hkeys].
    clear. intros o Hnd Hk. unfold ovalues, okeys. rewrite <-list_fmap_compose.
    apply list_fmap_ext. intros i [k v] Hi. simpl. symmetry. apply Hk, elem_oget; [done|].
    by eapply list_elem_of_lookup_2.
Qed.

Lemma normalize_sorted d : StronglySorted surface_le (normalizeOwnership (Some d)).
Proof. simpl. apply StronglySorted_merge_sort; apply _. Qed.

Lemma normalize_nil d :
  validateOwnershipDeclaration (Some d) = Ok tt →
  normalizeOwnership (Some d) = [] ↔ declared_surfaces d = [].
Proof.
  intros Hv. split; intros Hn.
  - destruct (declared_surfaces d) as [|s l] eqn:E; [done|].
    assert (s ∈ normalizeOwnership (Some d)) as Hs by (apply normalize_elem; [done|rewrite E; left]).
    rewrite Hn in Hs. inversion Hs.
  - destruct (normalizeOwnership (Some d)) as [|s l] eqn:E; [done|].
    assert (s ∈ declared_surfaces d) as Hs by (apply normalize_elem; [done|rewrite E; left]).
    rewrite Hn in Hs. inversion Hs.
Qed.

(** ** Exactness away from two wildcards *)

Lemma seg_inhabited seg : ∃ s, SegMatches seg s.
Proof.
  induction seg as [|c seg [s IH]]; [exists []; constructor|].
  destruct (decide (c = star)) as [->|]; [exists s; by constructor|].
  destruct (decide (c = qmark)) as [->|]; [exists ("x"%char :: s); by constructor|].
  exists (c :: s). by constructor.
Qed.

Lemma SegMatches_self seg : isWild seg = false → SegMatches seg seg.
Proof.
  unfold isWild. rewrite orb_false_iff, !includes_false. intros [Hs Hq].
  induction seg as [|c seg IH]; constructor; set_solver.
Qed.

(** Two segment patterns the overlap test decides exactly. *)
Definition decidable_pair (sa sb : list ascii) : Prop := sa = sb ∨ isWild sa = false ∨ isWild sb = false.

Lemma segmentsOverlap_exact sa sb :
  decidable_pair sa sb → segmentsOverlap sa sb = true → ∃ s, SegMatches sa s ∧ SegMatches sb s.
Proof.
  unfold segmentsOverlap, decidable_pair. case_decide as Heq.
  - subst. intros _ _. destruct (seg_inhabited sb) as [s ?]. eauto.
  - intros [?|Hw]; [done|]. destruct (isWild sa) eqn:Wa, (isWild sb) eqn:Wb; simpl; try (by destruct Hw).
    + intros ?%segmentTest_sound. eauto using SegMatches_self.
    + intros ?%segmentTest_sound. eauto using SegMatches_self.
Qed.

Lemma GlobMatches_dstars p : forallb isDoubleStar p = true → GlobMatches p [].
Proof.
  induction p as [|s p IH]; simpl; [constructor|].
  intros [->%bool_decide_eq_true ?%IH]%andb_true_iff. by constructor.
Qed.

Lemma overlapSegs_exact a : ∀ b,
  (∀ sa sb, sa ∈ a → sb ∈ b → decidable_pair sa sb ∨ isDoubleStar sa = true ∨ isDoubleStar sb = true) →
  overlapSegs a b = true → ∃ path, GlobMatches a path ∧ GlobMatches b path.
Proof.
  induction a as [|sa a IHa]; intros b.
  { intros _ Hb. exists []. split; [constructor|by apply GlobMatches_dstars]. }
  induction b as [|sb b IHb]; intros Hd Ho.
  { exists []. split; [by apply GlobMatches_dstars|constructor]. }
  assert (overlapSegs a (sb :: b) = true → ∃ path, GlobMatches a path ∧ GlobMatches (sb :: b) path) as H1.
  { apply IHa. intros; apply Hd; set_solver. }
  assert (overlapSegs (sa :: a) b = true → ∃ path, GlobMatches (sa :: a) path ∧ GlobMatches b path) as H2.
  { apply IHb. intros; apply Hd; set_solver. }
  assert (overlapSegs a b = true → ∃ path, GlobMatches a path ∧ GlobMatches b path) as H3.
  { apply IHa. intros; apply Hd; set_solver. }
  rewrite overlapSegs_cons in Ho. unfold isDoubleStar in Ho, Hd.
  destruct (bool_decide (sa = _)) eqn:Ea; [apply bool_decide_eq_true in Ea as ->|apply bool_decide_eq_false in Ea];
  (destruct (bool_decide (sb = _)) eqn:Eb; [apply bool_decide_eq_true in Eb as ->|apply bool_decide_eq_false in Eb]);
  cbn [andb] in Ho.
  - apply orb_true_iff in Ho as [[Ho|Ho]%orb_true_iff|Ho].
    + destruct (H1 Ho) as (p & ? & ?). exists p. eauto using GlobMatches.
    + destruct (H2 Ho) as (p & ? & ?). exists p. eauto using GlobMatches.
    + destruct (H3 Ho) as (p & ? & ?). exists p. eauto using GlobMatches.
  - apply orb_true_iff in Ho as [Ho|Ho]; [destruct (H1 Ho) as (p & ? & ?); eauto using GlobMatches|].
    destruct (H2 Ho) as (p & ? & ?), (seg_inhabited sb) as [s ?].
    exists (s :: p). split; by constructor.
  - apply orb_true_iff in Ho as [Ho|Ho]; [destruct (H2 Ho) as (p & ? & ?); eauto using GlobMatches|].
    destruct (H1 Ho) as (p & ? & ?), (seg_inhabited sa) as [s ?].
    exists (s :: p). split; by constructor.
  - apply andb_true_iff in Ho as [Hs Ho]. destruct (H3 Ho) as (p & ? & ?).
    destruct (segmentsOverlap_exact sa sb) as (s & ? & ?); [|done|].
    + destruct (Hd sa sb) as [?|[?%bool_decide_eq_true|?%bool_decide_eq_true]]; [left|left|done..].
    + exists (s :: p). split; by constructor.
Qed.

(** ** Verdicts *)

Lemma first_pair_None {A} (bad : A → A → bool) l1 l2 :
  first_pair bad l1 l2 = None ↔ ∀ x y, x ∈ l1 → y ∈ l2 → bad x y = false.
Proof.
  unfold first_pair. destruct (list_find _ l1) as [[i x]|] eqn:E; simpl.
  - apply list_find_Some in E as (Hi & Hx & _). apply existsb_elem in Hx as (y & Hy & Hb).
    split; [done|]. intros H. rewrite (H x y) in Hb; [done|by eapply list_elem_of_lookup_2|done].
  - apply list_find_None in E. rewrite Forall_forall in E. split; [|done]. intros _ x y Hx Hy.
    specialize (E _ Hx). apply not_true_iff_false in E. by apply (proj1 (existsb_not_elem _ _) E).
Qed.

Lemma evaluate_Disjoint a b :
  evaluateConflict a b = Disjoint ↔
  ev_id b ∉ declConflicts a ∧ ev_id a ∉ declConflicts b ∧
  ev_normalized a ≠ [] ∧ ev_normalized b ≠ [] ∧
  (∀ sa sb, sa ∈ ev_normalized a → sb ∈ ev_normalized b →
     sharedClash a b sa sb = false ∧ exclusiveClash sa sb = false ∧ mixedClash sa sb = false).
Proof.
  unfold evaluateConflict. destruct (includes _ _ || _) eqn:Hi.
  { split; [done|]. intros (H1 & H2 & _). apply orb_true_iff in Hi.
    rewrite !includes_true in Hi. tauto. }
  apply orb_false_iff in Hi as [H1%includes_false H2%includes_false].
  case_decide; [naive_solver|]. case_decide; [naive_solver|].
  destruct (first_pair (sharedClash _ _) _ _) eqn:E1; [|destruct (first_pair exclusiveClash _ _) eqn:E2;
    [|destruct (first_pair mixedClash _ _) eqn:E3]].
  1-3: split; [done|]; intros (_ & _ & _ & _ & Hall).
  - rewrite (proj2 (first_pair_None _ _ _)) in E1; [done|]. intros x y Hx Hy. by apply Hall.
  - rewrite (proj2 (first_pair_None _ _ _)) in E2; [done|]. intros x y Hx Hy. by apply Hall.
  - rewrite (proj2 (first_pair_None _ _ _)) in E3; [done|]. intros x y Hx Hy. by apply Hall.
  - rewrite first_pair_None in E1, E2, E3. split; [|done]. intros _. repeat split; auto.
Qed.

Lemma hasValidException_sym a b s : hasValidException a b s = hasValidException b a s.
Proof.
  unfold hasValidException. apply eq_iff_eq_true. rewrite !existsb_elem.
  setoid_rewrite elem_of_app. naive_solver.
Qed.

Lemma clash_sym a b sa sb :
  sharedClash a b sa sb = sharedClash b a sb sa ∧ exclusiveClash sa sb = exclusiveClash sb sa ∧
  mixedClash sa sb = mixedClash sb sa.
Proof.
  unfold sharedClash, exclusiveClash, mixedClash, globOverlap.
  rewrite (overlapSegs_sym (splitSegments (s_pattern sa))). repeat split.
  - destruct sa as [k p c], sb as [k' p' c']; simpl.
    repeat case_bool_decide; simplify_eq; simpl; try done. by rewrite hasValidException_sym.
  - repeat case_bool_decide; done.
  - repeat case_bool_decide; congruence.
Qed.

Lemma evaluate_sym a b : evaluateConflict a b = Disjoint ↔ evaluateConflict b a = Disjoint.
Proof.
  rewrite !evaluate_Disjoint. split; intros (H1 & H2 & H3 & H4 & Hall);
    (split; [done|]); (split; [done|]); (split; [done|]); (split; [done|]);
    intros sa sb Hsa Hsb; destruct (clash_sym b a sa sb) as (E1 & E2 & E3), (clash_sym a b sa sb) as (E1' & _ & _);
    [rewrite E1|rewrite E1']; rewrite E2, E3; by apply Hall.
Qed.

(** Surfaces of disjoint items share no path unless both are shared ones. *)
Lemma disjoint_paths a b sa sb path :
  evaluateConflict a b = Disjoint → sa ∈ ev_normalized a → sb ∈ ev_normalized b →
  covers (s_pattern sa) path → covers (s_pattern sb) path →
  s_class sa = SharedClass ∧ s_class sb = SharedClass.
Proof.
  rewrite evaluate_Disjoint. intros (_ & _ & _ & _ & Hall) Hsa Hsb Ha Hb.
  destruct (Hall sa sb Hsa Hsb) as (_ & He & Hm). unfold exclusiveClash, mixedClash, globOverlap in *.
  rewrite (overlapSegs_complete _ _ _ Ha Hb) in He, Hm.
  destruct (s_class sa), (s_class sb); vm_compute in He, Hm; done.
Qed.

(** C21. The overlap test misses nothing: two patterns that cover a common path
    are reported as overlapping. *)
Theorem globOverlap_complete patternA patternB path :
  covers patternA path → covers patternB path → globOverlap patternA patternB = true.
Proof. apply overlapSegs_complete. Qed.

(** Where no two distinct segments both carry a wildcard the overlap test
    is exact: a reported overlap has a common path. *)
Theorem globOverlap_exact patternA patternB :
  (∀ sa sb, sa ∈ splitSegments patternA → sb ∈ splitSegments patternB →
     decidable_pair sa sb ∨ isDoubleStar sa = true ∨ isDoubleStar sb = true) →
  globOverlap patternA patternB = true → ∃ path, covers patternA path ∧ covers patternB path.
Proof. apply overlapSegs_exact. Qed.

(** A [disjoint] verdict is a proof of independence: no manual conflict
    edge, both items declare surfaces, no path is covered by surfaces of both
    unless both are shared, and a surface shared by both carries a reviewed
    exception for this very pair. *)
Theorem disjoint_verdict_safe a b :
  evaluateConflict a b = Disjoint →
  ev_id b ∉ declConflicts a ∧ ev_id a ∉ declConflicts b ∧
  ev_normalized a ≠ [] ∧ ev_normalized b ≠ [] ∧
  ∀ sa sb, sa ∈ ev_normalized a → sb ∈ ev_normalized b →
    (∀ path, covers (s_pattern sa) path → covers (s_pattern sb) path →
       s_class sa = SharedClass ∧ s_class sb = SharedClass) ∧
    (s_class sa = SharedClass → sb = sa → hasValidException a b sa = true).
Proof.
  intros H. pose proof H as Hd. apply evaluate_Disjoint in H as (H1 & H2 & H3 & H4 & Hall). do 4 (split; [done|]).
  intros sa sb Hsa Hsb. specialize (Hall sa sb Hsa Hsb) as (Hs & _ & _). unfold sharedClash in Hs. split.
  - intros path. by apply (disjoint_paths a b).
  - intros Hc ->. rewrite Hc in Hs. rewrite !bool_decide_true in Hs by done. simpl in Hs.
    by apply negb_false_iff in Hs.
Qed.

(** Normalization is a function of the declared set: two validated
    declarations of the same surfaces, in whatever order and however often,
    normalize to the identical sorted list without repetition. *)
Theorem normalize_canonical d1 d2 :
  validateOwnershipDeclaration (Some d1) = Ok tt → validateOwnershipDeclaration (Some d2) = Ok tt →
  (∀ s, s ∈ declared_surfaces d1 ↔ s ∈ declared_surfaces d2) →
  normalizeOwnership (Some d1) = normalizeOwnership (Some d2) ∧
  NoDup (normalizeOwnership (Some d1)) ∧ StronglySorted surface_le (normalizeOwnership (Some d1)).
Proof.
  intros Hv1 Hv2 Heq. split; [|by auto using normalize_NoDup, normalize_sorted].
  eapply (StronglySorted_unique surface_le); [apply normalize_sorted..|].
  apply NoDup_Permutation; [by apply normalize_NoDup..|].
  intros s. by rewrite !normalize_elem.
Qed.

(** ** Witnesses and limits *)

Module OwnershipExamples.
Definition decl (ex : list string) (sh : obj (list string)) : OwnershipDeclaration :=
  Build_OwnershipDeclaration (Some ex) (Some sh) None None.
Definition api := evalInput "7" (Some (decl ["src/api/**"; "docs/*.md"] [("public_api", ["rest.yaml"])])).
Definition db := evalInput "9" (Some (decl ["src/db/**"] [("shared_config", ["release.yml"])])).
End OwnershipExamples.

Lemma globOverlap_complete_witness :
  globOverlap "src/**/a.ts" "src/lib/*.ts" = true.
Proof.
  apply (globOverlap_complete _ _ [chars "src"; chars "lib"; chars "a.ts"]); unfold covers; vm_compute.
  - apply GM_seg; [done|apply segmentTest_sound; vm_compute; done|].
    apply GM_dstar_more, GM_dstar_none.
    apply GM_seg; [done|apply segmentTest_sound; vm_compute; done|constructor].
  - apply GM_seg; [done|apply segmentTest_sound; vm_compute; done|].
    apply GM_seg; [done|apply segmentTest_sound; vm_compute; done|].
    apply GM_seg; [done|apply segmentTest_sound; vm_compute; done|constructor].
Defined.

Lemma globOverlap_exact_witness :
  ∃ path, covers "src/**" path ∧ covers "src/lib/a.ts" path.
Proof.
  apply (globOverlap_exact "src/**" "src/lib/a.ts"); [|vm_compute; reflexivity].
  intros sa sb Hsa Hsb. left. right. right.
  assert (forallb (fun s => negb (isWild s)) (splitSegments "src/lib/a.ts") = true) as Hall
    by (vm_compute; reflexivity).
  apply negb_true_iff. by apply (proj1 (forallb_elem _ _) Hall).
Defined.

Lemma disjoint_verdict_safe_witness :
  evaluateConflict OwnershipExamples.api OwnershipExamples.db = Disjoint ∧
  ∀ sa sb, sa ∈ ev_normalized OwnershipExamples.api → sb ∈ ev_normalized OwnershipExamples.db →
    ∀ path, covers (s_pattern sa) path → covers (s_pattern sb) path →
      s_class sa = SharedClass ∧ s_class sb = SharedClass.
Proof.
  assert (evaluateConflict OwnershipExamples.api OwnershipExamples.db = Disjoint) as Hd
    by (vm_compute; reflexivity).
  split; [exact Hd|]. intros sa sb Hsa Hsb.
  apply (disjoint_verdict_safe _ _ Hd); assumption.
Defined.

Lemma normalize_canonical_witness :
  normalizeOwnership (Some (OwnershipExamples.decl ["b/"; "./a"] [])) =
    normalizeOwnership (Some (OwnershipExamples.decl ["a"; "b"; "a"] [])).
Proof.
  apply (normalize_canonical (OwnershipExamples.decl ["b/"; "./a"] []) (OwnershipExamples.decl ["a"; "b"; "a"] []));
    [vm_compute; reflexivity..|].
  intros s. vm_compute declared_surfaces. set_solver.
Defined.

(** The overlap test is conservative, not exact: it reports an overlap of
    [a*] and [b*], which cover no common path. *)
Theorem globOverlap_not_exact :
  globOverlap "a*" "b*" = true ∧ ¬ ∃ path, covers "a*" path ∧ covers "b*" path.
Proof.
  split; [vm_compute; reflexivity|]. intros (path & Ha & Hb). unfold covers in *. vm_compute in Ha, Hb.
  inversion Ha as [| | |? ? s ? _ Hs _]; subst. inversion Hb as [| | |? ? ? ? _ Hs' _]; subst.
  inversion Hs; subst. inversion Hs'; subst.
Qed.

(** A [.] segment inside a pattern is accepted and aliases: two items that
    claim [src/./config.ts] and [src/config.ts] validate and evaluate as
    disjoint, while a [..] segment is refused for this very reason. *)
Theorem dot_segment_alias_unsound :
  isMalformedGlob "src/./config.ts" = false ∧ isMalformedGlob "src/../config.ts" = true ∧
  validateOwnershipDeclaration (Some (OwnershipExamples.decl ["src/./config.ts"] [])) = Ok tt ∧
  evaluateConflict (evalInput "1" (Some (OwnershipExamples.decl ["src/./config.ts"] [])))
                   (evalInput "2" (Some (OwnershipExamples.decl ["src/config.ts"] []))) = Disjoint.
Proof. repeat split; vm_compute; reflexivity. Qed.
