(* ===== verification/Lifecycle.v ===== *)
(** * Lifecycle ownership

    [core/scripts/recovery-lifecycle-ownership.ts]: the closed law that maps
    observations, compatibility stops and typed-request evidence onto the six
    lifecycle states, the durable record and its lawful transitions. *)

From stdpp Require Import base gmap strings list.
From S2P Require Import Prelude LoopTypes.

(** ** Vocabularies *)

Inductive MechanicalFaultClass :=
| MechanicalFailure
| UnknownFailure
| MalformedOutput
| ProcessDeath
| NoProgress
| Capacity
| RetryExhaustion.

#[export] Instance fault_class_eq_dec : EqDecision MechanicalFaultClass.
Proof. solve_decision. Defined.

Definition MECHANICAL_COMPATIBILITY_STOP_REASONS : list string :=
  ["run_fatal"; "recovery_exhausted"; "repeated_no_progress"; "consecutive_blocked";
   "supervisor_no_progress"; "supervisor_cycle_cap"; "worktree_capacity"].

Definition isMechanicalCompatibilityStopReason (reason : option string) : bool :=
  match reason with
  | Some r => includes r MECHANICAL_COMPATIBILITY_STOP_REASONS
  | None => false
  end.

(** [isPublicTypedRequest] on an optional string. *)
Definition asPublicTypedRequest (value : option string) : option PublicTypedRequest :=
  v ← value;
  p ← list_find (fun r => typed_request_name r = v) PUBLIC_TYPED_REQUESTS;
  Some p.2.

(** A flag that every use tests with [=== true] is a [bool]. *)
Record LifecycleDerivationInput := mkDerivation {
  labels : list string;
  typedRequest : option string;
  stopReason : option string;
  coolingFlag : bool;
  trainOutcome : option string;
  observerProvedPostcondition : bool;
  processExitCode : option Z;
  cancelledByAuthenticatedCaller : bool;
  cancelledByOriginalAuthorizedCaller : bool;
  activeAttempt : bool;
  externalConditionWait : bool;
  faultClass : option MechanicalFaultClass;
}.

Definition noEvidence : LifecycleDerivationInput :=
  mkDerivation [] None None false None false None false false false false None.

(** [{ ...evidence, typedRequest: null }]. *)
Definition without_typed_request (i : LifecycleDerivationInput) : LifecycleDerivationInput :=
  mkDerivation (labels i) None (stopReason i) (coolingFlag i) (trainOutcome i)
    (observerProvedPostcondition i) (processExitCode i) (cancelledByAuthenticatedCaller i)
    (cancelledByOriginalAuthorizedCaller i) (activeAttempt i) (externalConditionWait i) (faultClass i).

(** ** Derivation *)

Definition owned (s : RecoveryLifecycleState) : LifecycleOwnership :=
  mkOwnership s true false false (bool_decide (s = LCancelled)) false None.

(** [owned("typed-input-wait", { human_authority, typed_request })]. *)
Definition ownedTyped (r : PublicTypedRequest) : LifecycleOwnership :=
  mkOwnership LTypedInputWait true false false false (bool_decide (r = AuthorityRequest)) (Some r).

Definition hasNeedsHumanLabel (ls : list string) : bool :=
  existsb (fun l => bool_decide (l = "pipeline:needs-human" ∨ l = "needs-human")) ls.
Definition hasBlockedLabel (ls : list string) : bool :=
  existsb (fun l => bool_decide (l = "pipeline:blocked" ∨ l = "blocked")) ls.

Definition deriveLifecycleState (i : LifecycleDerivationInput) : LifecycleOwnership :=
  if cancelledByAuthenticatedCaller i || cancelledByOriginalAuthorizedCaller i then owned LCancelled
  else if observerProvedPostcondition i then owned LSucceeded
  else match asPublicTypedRequest (typedRequest i) with
  | Some r => ownedTyped r
  | None =>
      if externalConditionWait i then owned LExternalConditionWait
      else match faultClass i with
      | Some f => if decide (f = Capacity) then owned LExternalConditionWait else owned LCooling
      | None =>
          if isMechanicalCompatibilityStopReason (stopReason i) || coolingFlag i then
            if decide (stopReason i = Some "worktree_capacity") then owned LExternalConditionWait
            else owned LCooling
          else if decide (trainOutcome i = Some "STOP") then owned LCooling
          else if hasNeedsHumanLabel (labels i) || hasBlockedLabel (labels i) then owned LCooling
          else if activeAttempt i then owned LActive
          else if decide (processExitCode i = Some 0%Z ∧ observerProvedPostcondition i = false)
               then owned LCooling
          else owned LCooling
      end
  end.

(** ** The durable record *)

Definition isTerminalLifecycle (s : RecoveryLifecycleState) : bool :=
  match s with LSucceeded | LCancelled => true | _ => false end.

Definition ownershipFromRecord (r : DurableLifecycleRecord) : LifecycleOwnership :=
  let o := lr_ownership r in
  mkOwnership (lo_state o) true false false (lo_cancelled o) (lo_human_authority o) (lo_typed_request o).

Definition sameOwnership (r : DurableLifecycleRecord) (next : LifecycleOwnership) : bool :=
  let o := lr_ownership r in
  bool_decide (lo_state o = lo_state next) && bool_decide (lo_cancelled o = lo_cancelled next) &&
  bool_decide (lo_human_authority o = lo_human_authority next) &&
  bool_decide (lo_typed_request o = lo_typed_request next).

Definition admitLifecycleRecord (logical_operation_id updated_at : string)
    : result string DurableLifecycleRecord :=
  if blank logical_operation_id then Err "lifecycle record: logical_operation_id is required"
  else Ok (mkLifecycle (js_trim logical_operation_id) (owned LActive) updated_at 1).

Definition applyLifecycleTransition (current : option DurableLifecycleRecord)
    (next : LifecycleOwnership) (updated_at logical_operation_id : string) : DurableLifecycleRecord :=
  match current with
  | None => mkLifecycle (js_trim logical_operation_id) next updated_at 1
  | Some cur =>
      if isTerminalLifecycle (lo_state (lr_ownership cur)) &&
         bool_decide (lo_state next ≠ lo_state (lr_ownership cur)) then cur
      else if sameOwnership cur next then cur
      else mkLifecycle (lr_logical_operation_id cur) next updated_at (lr_revision cur + 1)
  end.

Definition consultLifecycleRecord (record : option DurableLifecycleRecord)
    (evidence : LifecycleDerivationInput) : LifecycleOwnership :=
  if cancelledByAuthenticatedCaller evidence || cancelledByOriginalAuthorizedCaller evidence
  then owned LCancelled
  else if observerProvedPostcondition evidence then owned LSucceeded
  else match asPublicTypedRequest (typedRequest evidence) with
  | Some r => ownedTyped r
  | None =>
      match record with
      | None => deriveLifecycleState evidence
      | Some rec =>
          if decide (lo_state (lr_ownership rec) = LTypedInputWait)
          then deriveLifecycleState (without_typed_request evidence)
          else ownershipFromRecord rec
      end
  end.

(** [bindLifecycleRecord] on a ledger. *)
Definition bindLifecycleRecord (l : LoopLedger) (logicalOperationId : string)
    (o : LifecycleOwnership) (updated_at : string) : LoopLedger :=
  mkLedger (l_run_id l) (items l) (merge_barrier l) (stop l) (cooling l) (item_cooling l)
    (Some (applyLifecycleTransition (lifecycle l) o updated_at logicalOperationId))
    (last_reconciliation l) (recovery_attempts l) (last_native_goal_check l) (reconciliation_sequence l)
    (authority_amendments l).

(** ** Items *)

Definition OBSERVER_PROOF_FRESHNESS_WINDOW_SECONDS : Z := 300.

Definition isObserverSuccessState (s : LoopItemState) : bool :=
  match s with Ready | Merged | Released | Deployed => true | _ => false end.

(** The typed request an item currently holds. *)
Definition heldRequest (item : option LoopItemLedgerEntry) : option PublicTypedRequest :=
  match item with
  | Some e =>
      match hold_request e with
      | Some h => asPublicTypedRequest (typed_request h)
      | None => None
      end
  | None => None
  end.

Section Observer.
(** [Date.parse]: milliseconds since the epoch, [None] for [NaN]. *)
Context (Date_parse : string → option Z).

Definition fresh (identity : LoopExternalIdentity) (nowMs window : Z) : bool :=
  match Date_parse (observed_at identity) with
  | None => false
  | Some t => (0 <=? nowMs - t)%Z && (nowMs - t <=? window * 1000)%Z
  end.

Definition identityProvesObserverSuccessState (s : LoopItemState)
    (identity : option LoopExternalIdentity) (nowMs : option Z) (window : Z) : bool :=
  match identity with
  | None => false
  | Some i =>
      if negb (isObserverSuccessState s) then false
      else if match nowMs with Some n => negb (fresh i n window) | None => false end then false
      else match s with
      | Ready => bool_decide (is_Some (pr_number i)) && bool_decide (pr_state i = Some PrStateOpen) &&
                 ready_label_present i
      | Merged => bool_decide (pr_state i = Some PrStateMerged)
      | _ => false
      end
  end.

Definition typedRequestFromOwnedItems (its : obj LoopItemLedgerEntry) : option PublicTypedRequest :=
  head (omap (fun e => heldRequest (Some e)) (ovalues its)).

Definition lifecycleOwnershipAfterItemTransition (its : obj LoopItemLedgerEntry)
    (cooling : bool) (stop_reason : option string) (observerProved active : bool)
    (nowMs : option Z) (freshnessWindowSeconds : option Z) : LifecycleOwnership :=
  let window := default OBSERVER_PROOF_FRESHNESS_WINDOW_SECONDS freshnessWindowSeconds in
  let all_proved :=
    bool_decide (ovalues its ≠ []) &&
    forallb (fun e => identityProvesObserverSuccessState (state e) (last_verified_identity e) nowMs window)
      (ovalues its) in
  deriveLifecycleState
    (mkDerivation [] (typed_request_name <$> typedRequestFromOwnedItems its) stop_reason cooling None
       (observerProved && all_proved) None false false active false None).
End Observer.

Definition recipeLifeCheck (record : option DurableLifecycleRecord) : bool :=
  let life := consultLifecycleRecord record noEvidence in
  bool_decide (lo_state life ≠ LCancelled) && bool_decide (lo_state life ≠ LSucceeded).

Definition lifecycleAllowsRecoveryRecipe (record : option DurableLifecycleRecord)
    (item : option LoopItemLedgerEntry) : bool :=
  match record with
  | Some rec =>
      match lo_state (lr_ownership rec) with
      | LCancelled | LSucceeded => false
      | LTypedInputWait => negb (bool_decide (is_Some (heldRequest item)))
      | _ => recipeLifeCheck record
      end
  | None => recipeLifeCheck record
  end.

(** ** Projections of a stop *)

Definition lifecycleAfterProcessExit (exitCode : option Z) (observerProved : bool) : LifecycleOwnership :=
  if observerProved then owned LSucceeded else owned LCooling.

Definition lifecycleForMechanicalFault (f : MechanicalFaultClass) : LifecycleOwnership :=
  deriveLifecycleState (mkDerivation [] None None false None false None false false false false (Some f)).

Definition compatibilityStopRefusesItem (s : option LoopStopRecord) (itemId : string) : bool :=
  match s with
  | None => false
  | Some st =>
      if negb (isMechanicalCompatibilityStopReason (Some (stop_reason_name (stop_reason st)))) then true
      else bool_decide (stop_item_id st = Some itemId)
  end.

(** An empty string is falsy: [...(stop.item_id ? { item_id } : {})]. *)
Definition truthy (s : option string) : option string :=
  match s with
  | Some v => if decide (v = "") then None else Some v
  | None => None
  end.

Definition coolingRecordFromCompatibilityStop (st : LoopStopRecord) : LoopCoolingRecord :=
  mkCooling MechanicalExhaustion (stop_time st) (truthy (stop_item_id st)) (truthy (stop_theme st))
    None None
    (match stop_reason st with
     | RecoveryExhausted | RunFatal | RepeatedNoProgress => Some (stop_reason_name (stop_reason st))
     | _ => None
     end) None.

Record StopDisposition := mkDisposition {
  disp_stop : option LoopStopRecord;
  disp_cooling : option LoopCoolingRecord;
  continueSiblings : bool;
}.

Definition supervisorCycleDispositionForStop (s : option LoopStopRecord)
    (hasSchedulableSibling : bool) : StopDisposition :=
  match s with
  | None => mkDisposition None None false
  | Some st =>
      if negb (isMechanicalCompatibilityStopReason (Some (stop_reason_name (stop_reason st)))) then
        mkDisposition (Some st) None false
      else if hasSchedulableSibling then mkDisposition None None true
      else mkDisposition None (Some (coolingRecordFromCompatibilityStop st)) false
  end.

(** ** Specification: the ownership law *)

(** The supervisor keeps the operation; the flags follow the state. *)
Definition ownership_wf (o : LifecycleOwnership) : Prop :=
  lo_owned o = true ∧ lo_ownerless o = false ∧ lo_human_owned o = false ∧
  (lo_cancelled o = true ↔ lo_state o = LCancelled) ∧
  (is_Some (lo_typed_request o) ↔ lo_state o = LTypedInputWait) ∧
  (lo_human_authority o = true ↔ lo_typed_request o = Some AuthorityRequest).

(** An authenticated cancellation is in the evidence. *)
Definition cancels (i : LifecycleDerivationInput) : bool :=
  cancelledByAuthenticatedCaller i || cancelledByOriginalAuthorizedCaller i.

(** One consultation of the record with fresh evidence, bound back. *)
Definition lifecycle_turn (op : string) (r : option DurableLifecycleRecord)
    (e : LifecycleDerivationInput * string) : option DurableLifecycleRecord :=
  Some (applyLifecycleTransition r (consultLifecycleRecord r e.1) e.2 op).

Definition run_lifecycle (op : string) (r : option DurableLifecycleRecord)
    (tr : list (LifecycleDerivationInput * string)) : option DurableLifecycleRecord :=
  foldl (lifecycle_turn op) r tr.

(** Steps any lawful caller can make: bind a derived or a consulted ownership. *)
Inductive lifecycle_step (r : DurableLifecycleRecord) : DurableLifecycleRecord → Prop :=
| step_derive i t op :
    lifecycle_step r (applyLifecycleTransition (Some r) (deriveLifecycleState i) t op)
| step_consult i t op :
    lifecycle_step r (applyLifecycleTransition (Some r) (consultLifecycleRecord (Some r) i) t op).

(** ** Lemmas *)

Ltac ownership_wf_solve :=
  repeat split; try done; try (intros [? ?]; done); try (intros; simpl in *; congruence).

Lemma owned_wf s : s ≠ LTypedInputWait → ownership_wf (owned s).
Proof. intros Hs. destruct s; ownership_wf_solve. Qed.

Lemma ownedTyped_wf r : ownership_wf (ownedTyped r).
Proof. destruct r; ownership_wf_solve; simpl; eauto. Qed.

#[export] Hint Resolve owned_wf ownedTyped_wf : pipeline.

(** Every branch of the derivation is one of two shapes. *)
Lemma derive_cases i :
  (∃ s, deriveLifecycleState i = owned s ∧ s ≠ LTypedInputWait ∧
        (s = LCancelled ↔ cancels i = true) ∧
        (s = LSucceeded ↔ cancels i = false ∧ observerProvedPostcondition i = true) ∧
        (cancels i = true ∨ observerProvedPostcondition i = true ∨
         asPublicTypedRequest (typedRequest i) = None)) ∨
  (∃ r, deriveLifecycleState i = ownedTyped r ∧ asPublicTypedRequest (typedRequest i) = Some r ∧
        cancels i = false ∧ observerProvedPostcondition i = false).
Proof.
  unfold deriveLifecycleState. fold (cancels i). destruct (cancels i) eqn:Hc.
  { left. eexists. split; [done|]. naive_solver. }
  destruct (observerProvedPostcondition i) eqn:Ho.
  { left. eexists. split; [done|]. naive_solver. }
  destruct (asPublicTypedRequest _) as [r|] eqn:Hr; [right; eauto|]. left.
  repeat case_match; (eexists; split; [done|]); naive_solver.
Qed.

Lemma derive_wf i : ownership_wf (deriveLifecycleState i).
Proof.
  destruct (derive_cases i) as [(s & -> & ? & _)|(r & -> & _)]; auto with pipeline.
Qed.

Lemma consult_wf r i :
  (∀ rec, r = Some rec → ownership_wf (lr_ownership rec)) → ownership_wf (consultLifecycleRecord r i).
Proof.
  intros Hr. unfold consultLifecycleRecord. repeat case_match; auto with pipeline; try apply derive_wf.
  destruct (Hr _ eq_refl) as (? & ? & ? & ? & ? & ?). unfold ownership_wf. simpl. auto 10.
Qed.

Lemma sameOwnership_state r o : sameOwnership r o = true → lo_state o = lo_state (lr_ownership r).
Proof. unfold sameOwnership. intros H. repeat (apply andb_true_iff in H as [H ?]). by apply bool_decide_eq_true in H. Qed.

(** What one bind does to an existing record. *)
Lemma apply_spec r o t op :
  let r' := applyLifecycleTransition (Some r) o t op in
  lr_logical_operation_id r' = lr_logical_operation_id r ∧
  ((r' = r) ∨ (lr_revision r' = lr_revision r + 1 ∧ lr_ownership r' = o)%Z) ∧
  (isTerminalLifecycle (lo_state (lr_ownership r)) = true →
     lo_state (lr_ownership r') = lo_state (lr_ownership r)) ∧
  (isTerminalLifecycle (lo_state (lr_ownership r)) = false → lo_state (lr_ownership r') = lo_state o).
Proof.
  unfold applyLifecycleTransition. destruct (isTerminalLifecycle _) eqn:Ht; simpl.
  - case_bool_decide as Hd; [naive_solver|]. destruct (sameOwnership r o); [naive_solver|].
    naive_solver.
  - destruct (sameOwnership r o) eqn:Hs; [|naive_solver]. apply sameOwnership_state in Hs. naive_solver.
Qed.

Lemma turn_state op r e :
  lo_state ∘ lr_ownership <$> lifecycle_turn op r e =
    match r with
    | Some rec => if isTerminalLifecycle (lo_state (lr_ownership rec))
                  then Some (lo_state (lr_ownership rec))
                  else Some (lo_state (consultLifecycleRecord r e.1))
    | None => Some (lo_state (consultLifecycleRecord r e.1))
    end.
Proof.
  unfold lifecycle_turn. destruct r as [r|]; [|done].
  transitivity (Some (lo_state (lr_ownership (applyLifecycleTransition (Some r)
    (consultLifecycleRecord (Some r) e.1) e.2 op)))); [done|].
  destruct (apply_spec r (consultLifecycleRecord (Some r) e.1) e.2 op) as (_ & _ & H1 & H2).
  destruct (isTerminalLifecycle _); [by rewrite H1|by rewrite H2].
Qed.

(** A consultation reaches a terminal state only on its own evidence or by
    repeating the record's. *)
Lemma consult_terminal r i :
  (lo_state (consultLifecycleRecord r i) = LSucceeded →
     (cancels i = false ∧ observerProvedPostcondition i = true) ∨
     ∃ rec, r = Some rec ∧ lo_state (lr_ownership rec) = LSucceeded) ∧
  (lo_state (consultLifecycleRecord r i) = LCancelled →
     cancels i = true ∨ ∃ rec, r = Some rec ∧ lo_state (lr_ownership rec) = LCancelled).
Proof.
  unfold consultLifecycleRecord. fold (cancels i).
  destruct (cancels i) eqn:Hc; [naive_solver|].
  destruct (observerProvedPostcondition i) eqn:Ho; [naive_solver|].
  destruct (asPublicTypedRequest _); [done|].
  destruct r as [rec|]; [case_decide|].
  - destruct (derive_cases (without_typed_request i)) as [(s & -> & Hs)|(x & -> & _)]; [|done].
    unfold cancels in Hs, Hc |- *. simpl in Hs |- *. rewrite Hc, Ho in Hs. naive_solver.
  - simpl. naive_solver.
  - destruct (derive_cases i) as [(s & -> & Hs)|(x & -> & _)]; [|done].
    simpl. rewrite Hc, Ho in Hs. naive_solver.
Qed.

Lemma turn_terminal op r e :
  (lo_state ∘ lr_ownership <$> lifecycle_turn op r e = Some LSucceeded →
     lo_state ∘ lr_ownership <$> r = Some LSucceeded ∨
     (cancels e.1 = false ∧ observerProvedPostcondition e.1 = true)) ∧
  (lo_state ∘ lr_ownership <$> lifecycle_turn op r e = Some LCancelled →
     lo_state ∘ lr_ownership <$> r = Some LCancelled ∨ cancels e.1 = true).
Proof.
  rewrite turn_state. destruct (consult_terminal r e.1) as [Hs Hc].
  destruct r as [rec|]; [destruct (isTerminalLifecycle _)|].
  - split; intros; by left.
  - split; intros [= H]; [destruct (Hs H) as [?|(? & [= <-] & Hx)]|destruct (Hc H) as [?|(? & [= <-] & Hx)]];
      try (by right); left; unfold compose; simpl; by rewrite Hx.
  - split; intros [= H]; [destruct (Hs H) as [?|(? & ? & _)]|destruct (Hc H) as [?|(? & ? & _)]];
      try (by right); done.
Qed.

(** ** Properties *)

(** C26. Exit by proof only: whatever evidence is consulted and bound, the
    record becomes [succeeded] only if some evidence carried observer proof
    without a cancellation, and [cancelled] only if some evidence carried an
    authenticated cancellation; no label, stop reason, process exit or fault
    leads there. *)
Theorem terminal_needs_evidence op r tr :
  (lo_state ∘ lr_ownership <$> run_lifecycle op r tr = Some LSucceeded →
     lo_state ∘ lr_ownership <$> r = Some LSucceeded ∨
     ∃ e, e ∈ tr ∧ cancels e.1 = false ∧ observerProvedPostcondition e.1 = true) ∧
  (lo_state ∘ lr_ownership <$> run_lifecycle op r tr = Some LCancelled →
     lo_state ∘ lr_ownership <$> r = Some LCancelled ∨ ∃ e, e ∈ tr ∧ cancels e.1 = true).
Proof.
  revert r. induction tr as [|e tr IH]; intros r; [by split; left|].
  destruct (IH (lifecycle_turn op r e)) as [IHs IHc], (turn_terminal op r e) as [Hs Hc].
  split; intros Hrun.
  - destruct (IHs Hrun) as [Hst|(e' & ? & ?)]; [|right; exists e'; split; [by right|done]].
    destruct (Hs Hst) as [?|?]; [by left|right; exists e; split; [left|done]].
  - destruct (IHc Hrun) as [Hst|(e' & ? & ?)]; [|right; exists e'; split; [by right|done]].
    destruct (Hc Hst) as [?|?]; [by left|right; exists e; split; [left|done]].
Qed.

(** The record is lawful for ever: along any steps the identity is kept,
    the revision never decreases, a terminal state never changes, and the
    supervisor stays the owner with flags that agree with the state. *)
Theorem lifecycle_invariant r r' :
  rtc lifecycle_step r r' → ownership_wf (lr_ownership r) →
  lr_logical_operation_id r' = lr_logical_operation_id r ∧ (lr_revision r ≤ lr_revision r')%Z ∧
  (isTerminalLifecycle (lo_state (lr_ownership r)) = true →
     lo_state (lr_ownership r') = lo_state (lr_ownership r)) ∧
  ownership_wf (lr_ownership r').
Proof.
  induction 1 as [r|r1 r2 r3 Hstep _ IH]; intros Hwf; [by auto with lia|].
  assert (∃ o t op, r2 = applyLifecycleTransition (Some r1) o t op ∧ ownership_wf o) as (o & t & op & -> & Ho).
  { destruct Hstep as [i t op|i t op]; eexists _, t, op; (split; [done|]); [apply derive_wf|].
    apply consult_wf. by intros ? [= <-]. }
  destruct (apply_spec r1 o t op) as (Hid & Hrev & Hterm & _).
  destruct IH as (IH1 & IH2 & IH3 & IH4); [destruct Hrev as [->|[_ ->]]; done|].
  split; [congruence|]. split; [destruct Hrev as [Heq|[? _]]; [rewrite Heq in IH2; done|lia]|].
  split; [|done]. intros Ht. rewrite <-(Hterm Ht). apply IH3. by rewrite (Hterm Ht).
Qed.

(** Mechanical trouble is never handed to a human: without a typed request
    no fault class, stop reason, label or exit code derives a typed-input wait
    or a human-authority flag, and with one the wait names that very request. *)
Theorem no_false_human i :
  (lo_state (deriveLifecycleState i) = LTypedInputWait ∨ lo_human_authority (deriveLifecycleState i) = true) →
  ∃ req, asPublicTypedRequest (typedRequest i) = Some req ∧
         lo_typed_request (deriveLifecycleState i) = Some req ∧
         (lo_human_authority (deriveLifecycleState i) = true ↔ req = AuthorityRequest).
Proof.
  destruct (derive_cases i) as [(s & -> & Hs & _)|(req & -> & Hr & _)].
  - simpl. intros [?|?]; done.
  - intros _. exists req. simpl. rewrite bool_decide_eq_true. done.
Qed.

(** [succeeded] after an item transition means every item is currently
    proven: at least one item, each [ready] with an open labelled pull request
    or [merged] with a merged one, observed within the freshness window. *)
Theorem succeeded_items_proven Date_parse its cool sr obs act now window :
  lo_state (lifecycleOwnershipAfterItemTransition Date_parse its cool sr obs act (Some now) window)
    = LSucceeded →
  obs = true ∧ ovalues its ≠ [] ∧
  ∀ e, e ∈ ovalues its → ∃ i, last_verified_identity e = Some i ∧
    fresh Date_parse i now (default OBSERVER_PROOF_FRESHNESS_WINDOW_SECONDS window) = true ∧
    ((state e = Ready ∧ is_Some (pr_number i) ∧ pr_state i = Some PrStateOpen ∧ ready_label_present i = true) ∨
     (state e = Merged ∧ pr_state i = Some PrStateMerged)).
Proof.
  unfold lifecycleOwnershipAfterItemTransition. set (inp := mkDerivation _ _ _ _ _ _ _ _ _ _ _ _).
  intros Hst. destruct (derive_cases inp) as [(s & Hd & _ & _ & Hs & _)|(r & Hd & _)]; rewrite Hd in Hst; [|done].
  apply Hs in Hst as [_ Hp]. simpl in Hp.
  apply andb_true_iff in Hp as [-> [Hne%bool_decide_eq_true Hall]%andb_true_iff].
  split; [done|]. split; [done|]. intros e He. apply (proj1 (forallb_elem _ _) Hall) in He.
  unfold identityProvesObserverSuccessState in He.
  destruct (last_verified_identity e) as [i|]; [|done]. exists i. split; [done|].
  destruct (isObserverSuccessState (state e)); simpl in He; [|done].
  destruct (fresh _ i now _); simpl in He; [|done]. split; [done|].
  destruct (state e); try done.
  - left. repeat (apply andb_true_iff in He as [He ?]). rewrite bool_decide_eq_true in *. auto.
  - right. by apply bool_decide_eq_true in He.
Qed.

(** A mechanical stop is never surfaced as a run stop: it becomes sibling
    continuation or cooling of the same item; any other stop passes through
    untouched; and exactly the named item, or every item under a
    non-mechanical stop, is refused recovery. *)
Theorem stop_disposition_spec st sib itemId :
  let mech := isMechanicalCompatibilityStopReason (Some (stop_reason_name (stop_reason st))) in
  let d := supervisorCycleDispositionForStop (Some st) sib in
  (disp_stop d = if mech then None else Some st) ∧
  (is_Some (disp_cooling d) ↔ mech = true ∧ sib = false) ∧
  (continueSiblings d = mech && sib) ∧
  (compatibilityStopRefusesItem (Some st) itemId = true ↔
     (mech = true → stop_item_id st = Some itemId)).
Proof.
  intros mech d. subst d. unfold supervisorCycleDispositionForStop, compatibilityStopRefusesItem.
  fold mech. destruct mech, sib; simpl; rewrite ?bool_decide_eq_true; repeat split; try done;
    try (by intros [? ?]); eauto; naive_solver.
Qed.

(** ** Witnesses *)

Module LifecycleExamples.
Definition identity : LoopExternalIdentity :=
  mkIdentity 7 true true false (Some 12%Z) (Some PrStateOpen) "pipeline/7" "abc" None ChecksSuccess
    (Some "ready-to-deploy") "t" None None None None None
    None None None None None None.
Definition item : LoopItemLedgerEntry :=
  mkEntry "7" Ready [] None [] None None None None None (Some identity) None None.
Definition proved : LifecycleDerivationInput :=
  mkDerivation [] None None false None true None false false false false None.
Definition asked : LifecycleDerivationInput :=
  mkDerivation [] (Some "AuthorityRequest") (Some "run_fatal") false None false None false false false false None.
Definition record : DurableLifecycleRecord := mkLifecycle "lop-1" (owned LActive) "t0" 1.
End LifecycleExamples.

Lemma lifecycle_invariant_witness :
  ∃ r', rtc lifecycle_step LifecycleExamples.record r' ∧ lo_state (lr_ownership r') = LSucceeded ∧
    lr_logical_operation_id r' = "lop-1" ∧ (1 ≤ lr_revision r')%Z.
Proof.
  eexists. split; [eapply rtc_l; [apply (step_derive _ LifecycleExamples.asked "t1" "x")|
    eapply rtc_l; [apply (step_consult _ LifecycleExamples.proved "t2" "x")|apply rtc_refl]]|].
  split; [vm_compute; reflexivity|].
  destruct (lifecycle_invariant LifecycleExamples.record
    (applyLifecycleTransition (Some (applyLifecycleTransition (Some LifecycleExamples.record)
       (deriveLifecycleState LifecycleExamples.asked) "t1" "x"))
       (consultLifecycleRecord (Some (applyLifecycleTransition (Some LifecycleExamples.record)
       (deriveLifecycleState LifecycleExamples.asked) "t1" "x")) LifecycleExamples.proved) "t2" "x"))
    as (H1 & H2 & _).
  - eapply rtc_l; [apply (step_derive _ LifecycleExamples.asked "t1" "x")|
      eapply rtc_l; [apply (step_consult _ LifecycleExamples.proved "t2" "x")|apply rtc_refl]].
  - apply owned_wf. discriminate.
  - split; assumption.
Defined.

Lemma no_false_human_witness :
  ∃ req, asPublicTypedRequest (typedRequest LifecycleExamples.asked) = Some req ∧
    lo_typed_request (deriveLifecycleState LifecycleExamples.asked) = Some req ∧
    (lo_human_authority (deriveLifecycleState LifecycleExamples.asked) = true ↔ req = AuthorityRequest).
Proof. apply (no_false_human LifecycleExamples.asked). left. vm_compute. reflexivity. Defined.

Lemma succeeded_items_proven_witness :
  ∃ i, last_verified_identity LifecycleExamples.item = Some i ∧
    fresh (fun _ => Some 1000%Z) i 2000 OBSERVER_PROOF_FRESHNESS_WINDOW_SECONDS = true.
Proof.
  destruct (succeeded_items_proven (fun _ => Some 1000%Z) [("7", LifecycleExamples.item)] false None true false
    2000 None) as (_ & _ & H); [vm_compute; reflexivity|].
  destruct (H LifecycleExamples.item (list_elem_of_here _ _)) as (i & H1 & H2 & _). by exists i.
Defined.
