(* ===== verification/RecoveryPolicy.v ===== *)
(** * Recovery policies

    [core/scripts/loop/recovery-policy-compat.ts] and [loop/import.ts]: the
    validated per-class recovery policy, the migration of policies persisted by
    earlier versions, and the mapping of legacy blocker themes.  The policy
    document is untyped JSON ([unknown]); compiling it is what gives it a
    type. *)

From Stdlib Require Import Ascii QArith Qcanon.
From stdpp Require Import base gmap strings list.
From S2P Require Import Prelude LoopTypes.
Local Open Scope result_scope.

(** ** Compiled policies *)

Inductive RecoveryTerminalOutcome := Retry | HumanAuthorityOutcome.

#[export] Instance terminal_outcome_eq_dec : EqDecision RecoveryTerminalOutcome.
Proof. solve_decision. Defined.

Record RecoveryBackoff := mkBackoff {
  initial_seconds : jsnum;
  multiplier : jsnum;
  max_seconds : jsnum;
}.

Record RecoveryPolicyEntry := mkPolicyEntry {
  recipes : list RecoveryRecipe;
  retry_budget : jsnum;
  backoff : RecoveryBackoff;
  terminal_outcome : RecoveryTerminalOutcome;
  run_fatal : bool;
  repeated_evidence_limit : jsnum;
  per_strategy_bound : option jsnum;
}.

(** [Record<DurableBlockerClass, RecoveryPolicyEntry>]. *)
Abbreviation RecoveryPolicy := (list (DurableBlockerClass * RecoveryPolicyEntry)).

Definition HUMAN_AUTHORITY_CLASSES : list DurableBlockerClass := [MissingAuthority; SpecificationDecision].

Definition policyFor (p : RecoveryPolicy) (cls : DurableBlockerClass) : option RecoveryPolicyEntry :=
  list_find (fun e => e.1 = cls) p ≫= fun i => Some i.2.2.

Definition refuse {A} (msg : string) : result LoopError A := Err (mkLoopError FValidation msg).

Definition for_class (cls : DurableBlockerClass) (rest : string) : string :=
  "recovery policy for " +:+ quoted (blocker_class_name cls) +:+ rest.

(** [isRecoveryRecipe(value)] on a JSON value. *)
Definition recipeOf (v : jval) : option RecoveryRecipe :=
  match v with JStr s => asRecoveryRecipe s | _ => None end.

Definition compileRecipes (cls : DurableBlockerClass) (v : option jval)
    : result LoopError (list RecoveryRecipe) :=
  match v with
  | Some (JArr xs) =>
      match mapM recipeOf xs with
      | Some rs => Ok rs
      | None => refuse (for_class cls " names a recipe outside the permitted recovery-recipe catalogue")
      end
  | _ => refuse (for_class cls " names a recipe outside the permitted recovery-recipe catalogue")
  end.

(** A finite number that is at least [low]. *)
Definition finiteAtLeast (low : Z) (v : option jval) : option jsnum :=
  match v with
  | Some (JNum n) => if isFinite n && num_geb n low then Some n else None
  | _ => None
  end.

Definition compileBackoff (v : option jval) : option RecoveryBackoff :=
  match v with
  | Some (JObj f) =>
      match oget f "initial_seconds", oget f "multiplier", oget f "max_seconds" with
      | Some (JNum i), Some (JNum m), Some (JNum x) => Some (mkBackoff i m x)
      | _, _, _ => None
      end
  | _ => None
  end.

Definition compileTerminal (v : option jval) : option RecoveryTerminalOutcome :=
  match v with
  | Some (JStr s) =>
      if decide (s = "retry") then Some Retry
      else if decide (s = "human_authority") then Some HumanAuthorityOutcome else None
  | _ => None
  end.

(** [per_strategy_bound]: absent, or a non-negative integer. *)
Definition compileBound (v : option jval) : option (option jsnum) :=
  match v with
  | None => Some None
  | Some (JNum n) => if isInteger n && num_geb n 0 then Some (Some n) else None
  | Some _ => None
  end.

Definition orRefuse {A} (o : option A) (msg : string) : result LoopError A :=
  match o with Some a => Ok a | None => refuse msg end.

Definition compileEntry (cls : DurableBlockerClass) (entry : obj jval)
    : result LoopError RecoveryPolicyEntry :=
  try rs := compileRecipes cls (oget entry "recipes") in
  try budget := orRefuse (finiteAtLeast 0 (oget entry "retry_budget"))
                  (for_class cls " is missing a valid retry_budget") in
  try bo := orRefuse (compileBackoff (oget entry "backoff"))
              (for_class cls " is missing a valid backoff schedule") in
  try term := orRefuse (compileTerminal (oget entry "terminal_outcome"))
                (for_class cls " is missing a valid terminal_outcome") in
  try fatal := orRefuse (match oget entry "run_fatal" with Some (JBool b) => Some b | _ => None end)
                 (for_class cls " is missing a valid run_fatal flag") in
  try bound := orRefuse (compileBound (oget entry "per_strategy_bound"))
                 (for_class cls " has an invalid per_strategy_bound") in
  try limit := orRefuse (finiteAtLeast 1 (oget entry "repeated_evidence_limit"))
                 (for_class cls " is missing a valid repeated_evidence_limit") in
  if includes cls HUMAN_AUTHORITY_CLASSES &&
     (bool_decide (term ≠ HumanAuthorityOutcome) || bool_decide (rs ≠ [])) then
    refuse (for_class cls " must route to a terminal human-authority outcome with no automated recipe")
  else Ok (mkPolicyEntry rs budget bo term fatal limit bound).

Fixpoint compileClasses (fields : obj jval) (classes : list DurableBlockerClass)
    : result LoopError RecoveryPolicy :=
  match classes with
  | [] => Ok []
  | cls :: classes' =>
      match oget fields (blocker_class_name cls) with
      | Some (JObj entry) =>
          try e := compileEntry cls entry in
          try rest := compileClasses fields classes' in
          Ok ((cls, e) :: rest)
      | _ => refuse ("recovery policy is missing an entry for blocker class " +:+ quoted (blocker_class_name cls))
      end
  end.

(** The policy document; [None] is [undefined]. *)
Definition compileRecoveryPolicy (policy : option jval) : result LoopError RecoveryPolicy :=
  match policy with
  | Some (JObj fields) =>
      match filter (fun k => isDurableBlockerClass k = false) (okeys fields) with
      | [] => compileClasses fields DURABLE_BLOCKER_CLASSES
      | unknown => refuse ("recovery policy names unknown blocker class(es): " +:+ join ", " unknown)
      end
  | _ => refuse "recovery policy must be an object mapping every DurableBlockerClass to a policy entry"
  end.

(** ** Shipped defaults *)

Definition entryJson (rs : list string) (budget i m x : Z) (term : string) (fatal : bool) (limit : Z) : jval :=
  JObj [("recipes", JArr (JStr <$> rs)); ("retry_budget", JNum (num budget));
        ("backoff", JObj [("initial_seconds", JNum (num i)); ("multiplier", JNum (num m));
                          ("max_seconds", JNum (num x))]);
        ("terminal_outcome", JStr term); ("run_fatal", JBool fatal);
        ("repeated_evidence_limit", JNum (num limit))].

Definition defaultEntry (cls : DurableBlockerClass) : jval :=
  match cls with
  | TransientRateLimit => entryJson ["wait_and_retry"] 5 30 2 900 "retry" false 3
  | WorkflowState => entryJson ["resync_workflow_state"; "repair_pipeline_item"] 3 15 2 300 "retry" false 2
  | ImplementationCi =>
      entryJson ["verify_head_goal"; "rerun_ci"; "repair_pipeline_item"] 3 30 2 600 "retry" false 2
  | ReviewFindings => entryJson ["unlink_engine_scratch"; "repair_pipeline_item"] 3 15 2 300 "retry" false 2
  | EnvironmentAuth => entryJson ["verify_authentication"] 2 10 2 120 "retry" true 2
  | SpecificationDecision => entryJson [] 0 0 1 0 "human_authority" true 1
  | MissingAuthority => entryJson [] 0 0 1 0 "human_authority" true 1
  | UpstreamDependency => entryJson ["retry_upstream_check"] 3 60 2 1800 "retry" false 3
  | WorkflowEngineDefect =>
      entryJson ["unlink_engine_scratch"; "checkpoint_owned_harness_dirt"; "publish_unpublished_stage_commit";
                 "rebind_tester_evidence_after_pr"; "restart_workflow_engine"; "repair_pipeline_item"]
        2 5 1 5 "retry" true 2
  end.

Definition DEFAULT_RECOVERY_POLICY_INPUT : jval :=
  JObj ((fun c => (blocker_class_name c, defaultEntry c)) <$> DURABLE_BLOCKER_CLASSES).

(** [STALE_DEFAULT_POLICY_ENTRIES]: the defaults earlier versions persisted. *)
Definition staleEntries (cls : DurableBlockerClass) : list jval :=
  match cls with
  | WorkflowState => [entryJson ["resync_workflow_state"] 3 15 2 300 "retry" false 2]
  | ImplementationCi =>
      [entryJson ["rerun_ci"] 3 30 2 600 "retry" false 2;
       entryJson ["rerun_ci"; "repair_pipeline_item"] 3 30 2 600 "retry" false 2]
  | EnvironmentAuth => [entryJson ["reauthenticate"] 2 10 2 120 "retry" true 2]
  | WorkflowEngineDefect =>
      [entryJson ["restart_workflow_engine"] 1 5 1 5 "retry" true 1;
       entryJson ["restart_workflow_engine"; "repair_pipeline_item"] 1 5 1 5 "retry" true 1;
       entryJson ["restart_workflow_engine"; "repair_pipeline_item"] 2 5 1 5 "retry" true 2;
       entryJson ["unlink_engine_scratch"; "restart_workflow_engine"; "repair_pipeline_item"] 2 5 1 5
         "retry" true 2;
       entryJson ["unlink_engine_scratch"; "checkpoint_owned_harness_dirt"; "restart_workflow_engine";
                  "repair_pipeline_item"] 2 5 1 5 "retry" true 2;
       entryJson ["unlink_engine_scratch"; "checkpoint_owned_harness_dirt"; "publish_unpublished_stage_commit";
                  "restart_workflow_engine"; "repair_pipeline_item"] 2 5 1 5 "retry" true 2]
  | ReviewFindings => [entryJson ["repair_pipeline_item"] 3 15 2 300 "retry" false 2]
  | _ => []
  end.

(** ** Migration *)

Fixpoint samePolicyEntry (left right : jval) : bool :=
  match left, right with
  | JNull, JNull => true
  | JBool a, JBool b => Bool.eqb a b
  | JNum a, JNum b => bool_decide (a = b)
  | JStr a, JStr b => bool_decide (a = b)
  | JArr xs, JArr ys =>
      (fix every (xs ys : list jval) : bool :=
         match xs, ys with
         | [], [] => true
         | x :: xs', y :: ys' => samePolicyEntry x y && every xs' ys'
         | _, _ => false
         end) xs ys
  | JObj fs, JObj gs =>
      bool_decide (js_sort (okeys fs) = js_sort (okeys gs)) &&
      (fix every (fs : obj jval) : bool :=
         match fs with
         | [] => true
         | (k, v) :: fs' =>
             match oget gs k with Some w => samePolicyEntry v w | None => false end && every fs'
         end) fs
  | _, _ => false
  end.

(** [entry.recipes.includes("reauthenticate")]. *)
Definition isReauth (v : jval) : bool :=
  match v with JStr s => bool_decide (s = "reauthenticate") | _ => false end.

(** One turn of the migration loop on [migrated[cls]]. *)
Definition migrateEntry (cls : DurableBlockerClass) (entry : option jval) : jval :=
  match entry with
  | None => defaultEntry cls
  | Some e =>
      if existsb (samePolicyEntry e) (staleEntries cls) then defaultEntry cls
      else match e with
      | JObj f =>
          match oget f "recipes" with
          | Some (JArr xs) =>
              if existsb isReauth xs then
                JObj (oset "recipes"
                  (JArr ((fun x => if isReauth x then JStr "verify_authentication" else x) <$> xs)) f)
              else e
          | _ => e
          end
      | _ => e
      end
  end.

(** The loop over the classes; writing back an entry that did not change
    leaves the document as it is. *)
Definition migrateClass (fields : obj jval) (cls : DurableBlockerClass) : obj jval :=
  oset (blocker_class_name cls) (migrateEntry cls (oget fields (blocker_class_name cls))) fields.

Definition normalizeRecoveryPolicyCompatibility (policy : option jval) : option jval :=
  match policy with
  | None => Some DEFAULT_RECOVERY_POLICY_INPUT
  | Some (JObj fields) => Some (JObj (foldl migrateClass fields DURABLE_BLOCKER_CLASSES))
  | Some p => Some p
  end.

Definition effectiveRecoveryPolicyForLedgerValidation (policy : option jval) : option RecoveryPolicy :=
  match compileRecoveryPolicy (normalizeRecoveryPolicyCompatibility policy) with
  | Ok p => Some p
  | Err _ => None
  end.

(** ** Legacy themes *)

Definition is_separator (c : ascii) : bool := js_space c || bool_decide (c = "-"%char).

(** [s.replace(/[\s-]+/g, "_")]. *)
Fixpoint join_separators (run : bool) (l : list ascii) : list ascii :=
  match l with
  | [] => []
  | c :: l' =>
      if is_separator c then
        if run then join_separators true l' else "_"%char :: join_separators true l'
      else c :: join_separators false l'
  end.

Definition normalizeTheme (theme : string) : string :=
  unchars (join_separators false (lower <$> trim (chars theme))).

Definition LEGACY_THEME_ALIASES : obj DurableBlockerClass :=
  [("rate_limit", TransientRateLimit); ("rate_limited", TransientRateLimit);
   ("throttled", TransientRateLimit); ("workflow", WorkflowState); ("workflow_state", WorkflowState);
   ("ci", ImplementationCi); ("ci_failure", ImplementationCi); ("test_failure", ImplementationCi);
   ("build_failure", ImplementationCi); ("auth", EnvironmentAuth); ("authentication", EnvironmentAuth);
   ("environment", EnvironmentAuth); ("spec", SpecificationDecision);
   ("specification", SpecificationDecision); ("decision", SpecificationDecision);
   ("product_decision", SpecificationDecision); ("authority", MissingAuthority);
   ("permission", MissingAuthority); ("needs_human", MissingAuthority);
   ("upstream", UpstreamDependency); ("dependency", UpstreamDependency);
   ("blocked_on_dependency", UpstreamDependency); ("engine_defect", WorkflowEngineDefect);
   ("engine_bug", WorkflowEngineDefect); ("goal_loop_defect", WorkflowEngineDefect)].

Definition mapLegacyThemeToBlockerClass (theme : string) : result LoopError DurableBlockerClass :=
  match asDurableBlockerClass theme with
  | Some c => Ok c
  | None =>
      match oget LEGACY_THEME_ALIASES (normalizeTheme theme) with
      | Some c => Ok c
      | None => refuse ("legacy blocked theme " +:+ quoted theme +:+ " does not map to any DurableBlockerClass")
      end
  end.

(** ** Compiled policies are well formed *)

(** What a policy entry of class [cls] satisfies. *)
Definition entry_wf (cls : DurableBlockerClass) (e : RecoveryPolicyEntry) : Prop :=
  (isFinite (retry_budget e) = true ∧ num_geb (retry_budget e) 0 = true) ∧
  (isFinite (repeated_evidence_limit e) = true ∧ num_geb (repeated_evidence_limit e) 1 = true) ∧
  (∀ b, per_strategy_bound e = Some b → isInteger b = true ∧ num_geb b 0 = true) ∧
  (cls ∈ HUMAN_AUTHORITY_CLASSES → terminal_outcome e = HumanAuthorityOutcome ∧ recipes e = []).

Lemma orRefuse_Ok {A} (o : option A) msg a : orRefuse o msg = Ok a → o = Some a.
Proof. destruct o; simpl; unfold refuse; congruence. Qed.

Lemma finiteAtLeast_Some low v n : finiteAtLeast low v = Some n → isFinite n = true ∧ num_geb n low = true.
Proof. unfold finiteAtLeast. repeat case_match; intros; simplify_eq. by apply andb_true_iff. Qed.

Lemma compileEntry_wf cls f e : compileEntry cls f = Ok e → entry_wf cls e.
Proof.
  unfold compileEntry. intros H. do 7 inv_bind H.
  apply orRefuse_Ok in E0, E1, E2, E3, E4, E5.
  destruct (includes _ _ && _) eqn:Hh; [done|]. injection H as <-. unfold entry_wf. simpl.
  split; [by eapply finiteAtLeast_Some|]. split; [by eapply finiteAtLeast_Some|]. split.
  - intros b ->. unfold compileBound in E4. repeat case_match; simplify_eq. by apply andb_true_iff.
  - intros Hc. apply includes_true in Hc. rewrite Hc in Hh. simpl in Hh.
    apply orb_false_iff in Hh as [H1%bool_decide_eq_false H2%bool_decide_eq_false].
    split; by apply dec_stable.
Qed.

Lemma compileClasses_spec fields classes p :
  compileClasses fields classes = Ok p → p.*1 = classes ∧ Forall (fun e => entry_wf e.1 e.2) p.
Proof.
  revert p. induction classes as [|c classes IH]; simpl; intros p; [by intros [= <-]|].
  repeat case_match; try done. intros H2. inv_bind H2. inv_bind H2. injection H2 as <-.
  destruct (IH _ eq_refl) as [<- ?]. split; [done|]. constructor; [|done]. by eapply compileEntry_wf.
Qed.

Lemma all_classes c : c ∈ DURABLE_BLOCKER_CLASSES.
Proof. destruct c; unfold DURABLE_BLOCKER_CLASSES; set_solver. Qed.

Lemma classes_NoDup : NoDup DURABLE_BLOCKER_CLASSES.
Proof. apply (bool_decide_unpack _). by vm_compute. Qed.

Lemma policyFor_Some p c : c ∈ p.*1 → ∃ e, policyFor p c = Some e ∧ (c, e) ∈ p.
Proof.
  intros (x & -> & Hx)%list_elem_of_fmap. unfold policyFor.
  destruct (list_find (fun e => e.1 = x.1) p) as [[i [c' e]]|] eqn:E; simpl.
  - apply list_find_Some in E as (Hi & Heq & _). simpl in Heq. subst c'.
    exists e. split; [done|]. by eapply list_elem_of_lookup_2.
  - apply list_find_None in E. rewrite Forall_forall in E. by destruct (E x).
Qed.

Lemma compile_policy_entries doc p :
  compileRecoveryPolicy doc = Ok p → p.*1 = DURABLE_BLOCKER_CLASSES ∧ Forall (fun e => entry_wf e.1 e.2) p.
Proof. unfold compileRecoveryPolicy. repeat case_match; try done. apply compileClasses_spec. Qed.

(** Compiling reads the document only through its class entries. *)
Lemma compileClasses_ext f g classes :
  (∀ c, c ∈ classes → oget f (blocker_class_name c) = oget g (blocker_class_name c)) →
  compileClasses f classes = compileClasses g classes.
Proof.
  induction classes as [|c classes IH]; simpl; intros H; [done|].
  rewrite H by left. rewrite IH; [done|]. intros; apply H; by right.
Qed.

Lemma class_name_known c : isDurableBlockerClass (blocker_class_name c) = true.
Proof. apply bool_decide_eq_true. exists c. by apply asDurableBlockerClass_spec. Qed.

Lemma compile_known f :
  (∀ k, k ∈ okeys f → isDurableBlockerClass k = true) →
  compileRecoveryPolicy (Some (JObj f)) = compileClasses f DURABLE_BLOCKER_CLASSES.
Proof.
  intros Hk. unfold compileRecoveryPolicy.
  assert (filter (fun k => isDurableBlockerClass k = false) (okeys f) = []) as ->; [|done].
  apply elem_of_nil_inv. intros k [Hf Hin]%list_elem_of_filter. by rewrite Hk in Hf.
Qed.

(** ** The migration *)

Lemma migrate_lookup classes fields c :
  NoDup classes → c ∈ classes →
  oget (foldl migrateClass fields classes) (blocker_class_name c) =
    Some (migrateEntry c (oget fields (blocker_class_name c))).
Proof.
  revert fields. induction classes as [|d classes IH]; intros fields Hnd Hc; [inversion Hc|].
  apply NoDup_cons in Hnd as [Hni Hnd]. simpl. destruct (decide (c = d)) as [->|Hne].
  - clear IH. assert (oget (migrateClass fields d) (blocker_class_name d) =
      Some (migrateEntry d (oget fields (blocker_class_name d)))) as Hd.
    { unfold migrateClass. apply oget_oset_eq. }
    generalize dependent (migrateClass fields d). clear Hc. intros g Hg. revert g Hg.
    induction classes as [|d' classes IH]; intros g Hg; simpl; [done|].
    apply IH; [set_solver|by apply NoDup_cons in Hnd as [_ ?]|].
    unfold migrateClass. rewrite oget_oset_ne; [done|].
    intros Heq. apply (inj blocker_class_name) in Heq. set_solver.
  - rewrite IH; [|done|set_solver]. unfold migrateClass. rewrite oget_oset_ne; [done|].
    intros Heq. by apply (inj blocker_class_name) in Heq.
Qed.

Lemma migrate_other classes fields k :
  (∀ c, c ∈ classes → blocker_class_name c ≠ k) → oget (foldl migrateClass fields classes) k = oget fields k.
Proof.
  revert fields. induction classes as [|d classes IH]; intros fields Hk; simpl; [done|].
  rewrite IH by (intros; apply Hk; by right). unfold migrateClass. apply oget_oset_ne, Hk. left.
Qed.

Lemma migrate_keys classes fields x :
  x ∈ okeys (foldl migrateClass fields classes) ↔ x ∈ okeys fields ∨ ∃ c, c ∈ classes ∧ x = blocker_class_name c.
Proof.
  revert fields. induction classes as [|d classes IH]; intros fields; simpl.
  - split; [by left|]. intros [?|(c & Hc & _)]; [done|inversion Hc].
  - rewrite IH. unfold migrateClass. rewrite elem_okeys_oset. setoid_rewrite elem_of_cons. naive_solver.
Qed.

Lemma default_settled c : migrateEntry c (Some (defaultEntry c)) = defaultEntry c.
Proof. destruct c; vm_compute; reflexivity. Qed.

Lemma stale_settled c s : s ∈ staleEntries c → migrateEntry c (Some s) = defaultEntry c.
Proof.
  intros Hs. destruct c; simpl in Hs;
    repeat (apply elem_of_cons in Hs as [->|Hs]; [vm_compute; reflexivity|]); inversion Hs.
Qed.

Lemma same_field f g k v :
  samePolicyEntry (JObj f) (JObj g) = true → oget f k = Some v →
  ∃ w, oget g k = Some w ∧ samePolicyEntry v w = true.
Proof.
  simpl. intros [_ H]%andb_true_iff Hk. apply oget_Some_elem in Hk.
  induction f as [|[k' v'] f IH]; [inversion Hk|].
  apply andb_true_iff in H as [H1 H2]. apply elem_of_cons in Hk as [Heq|Hk]; [|by apply IH].
  injection Heq as -> ->. destruct (oget g k'); [eauto|done].
Qed.

Lemma same_str_elem s xs : ∀ ys,
  samePolicyEntry (JArr xs) (JArr ys) = true → JStr s ∈ xs → JStr s ∈ ys.
Proof.
  induction xs as [|x xs IH]; intros [|y ys] H Hs; try done; try by inversion Hs.
  simpl in H. apply andb_true_iff in H as [H1 H2].
  apply elem_of_cons in Hs as [<-|Hs]; [|right; by apply IH].
  destruct y; try done. simpl in H1. apply bool_decide_eq_true in H1 as ->. left.
Qed.

(** No stale default names the recipe the migration introduces. *)
Lemma stale_recipes c s :
  s ∈ staleEntries c → ∃ f ys, s = JObj f ∧ oget f "recipes" = Some (JArr ys) ∧
    JStr "verify_authentication" ∉ ys.
Proof.
  intros Hs. destruct c; simpl in Hs;
    repeat (apply elem_of_cons in Hs as [->|Hs];
            [eexists _, _; split; [reflexivity|]; split; [reflexivity|]; simpl; set_solver|]); inversion Hs.
Qed.

Lemma reauth_replaced xs :
  existsb isReauth ((fun x => if isReauth x then JStr "verify_authentication" else x) <$> xs) = false.
Proof.
  apply existsb_not_elem. intros y (x & -> & _)%list_elem_of_fmap. by destruct (isReauth x) eqn:E.
Qed.

Lemma migrate_idemp c o : migrateEntry c (Some (migrateEntry c o)) = migrateEntry c o.
Proof.
  destruct o as [e|]; [|apply default_settled]. unfold migrateEntry at 2 3.
  destruct (existsb (samePolicyEntry e) _) eqn:Hs; [apply default_settled|].
  assert (existsb (samePolicyEntry e) (staleEntries c) = false →
    (match e with JObj f => match oget f "recipes" with Some (JArr xs) => existsb isReauth xs | _ => false end
     | _ => false end) = false → migrateEntry c (Some e) = e) as Hkeep.
  { intros H1 H2. unfold migrateEntry. rewrite H1. repeat case_match; done. }
  destruct e as [|b|n|s|xs|f]; try by apply Hkeep.
  destruct (oget f "recipes") as [[| | | |xs|]|] eqn:Hr; try by apply Hkeep; rewrite ?Hr.
  destruct (existsb isReauth xs) eqn:Hx; [|by apply Hkeep; rewrite ?Hr].
  unfold migrateEntry. rewrite oget_oset_eq, reauth_replaced.
  clear Hkeep Hs. destruct (existsb _ (staleEntries c)) eqn:Hst; [|done]. exfalso.
  apply existsb_elem in Hst as (st & Hin & Hsame).
  destruct (stale_recipes _ _ Hin) as (g & ys & -> & Hg & Hni).
  destruct (same_field _ _ _ _ Hsame (oget_oset_eq _ _ _)) as (w & Hw & Harr).
  rewrite Hg in Hw. injection Hw as <-. apply Hni. eapply same_str_elem; [exact Harr|].
  apply existsb_elem in Hx as (x & Hxi & Hxr). apply list_elem_of_fmap. exists x. by rewrite Hxr.
Qed.

Lemma migrate_all_idemp fields classes :
  (∀ c, c ∈ classes → ∃ o, oget fields (blocker_class_name c) = Some (migrateEntry c o)) →
  foldl migrateClass fields classes = fields.
Proof.
  induction classes as [|c classes IH]; intros Hall; simpl; [done|].
  destruct (Hall c) as [o Ho]; [left|].
  assert (migrateClass fields c = fields) as ->.
  { unfold migrateClass. rewrite Ho, migrate_idemp. by apply oset_id. }
  apply IH. intros d Hd. apply Hall. by right.
Qed.

(** ** Properties *)

(** C40. A compiled policy has exactly one entry per blocker class, with a
    finite non-negative budget and a repeat limit of at least one, and a class
    that needs human authority never carries an automated recipe. *)
Theorem compiled_policy_wf doc p :
  compileRecoveryPolicy doc = Ok p →
  p.*1 = DURABLE_BLOCKER_CLASSES ∧
  ∀ cls, ∃ e, policyFor p cls = Some e ∧ entry_wf cls e.
Proof.
  intros [Hk Hall]%compile_policy_entries. split; [done|]. intros cls.
  destruct (policyFor_Some p cls) as (e & He & Hin); [rewrite Hk; apply all_classes|].
  exists e. split; [done|]. by apply (proj1 (Forall_forall _ _) Hall (cls, e)).
Qed.

(** Migrating a persisted policy is idempotent: a migrated document is
    left as it is by the next load. *)
Theorem migration_idempotent policy :
  normalizeRecoveryPolicyCompatibility (normalizeRecoveryPolicyCompatibility policy) =
  normalizeRecoveryPolicyCompatibility policy.
Proof.
  assert (∀ f, (∀ c, ∃ o, oget f (blocker_class_name c) = Some (migrateEntry c o)) →
    normalizeRecoveryPolicyCompatibility (Some (JObj f)) = Some (JObj f)) as Hset.
  { intros f Hf. unfold normalizeRecoveryPolicyCompatibility. rewrite migrate_all_idemp; [done|].
    intros c _. apply Hf. }
  destruct policy as [[| | | | |f]|]; try done.
  apply Hset. intros c. eexists. apply migrate_lookup; [apply classes_NoDup|apply all_classes].
Qed.

(** Migration touches only what it must: a missing entry gains the
    default, a shipped stale default becomes the current default, an entry that
    is neither stale nor names the retired recipe survives as it is, and keys
    that are not blocker classes are kept. *)
Theorem migration_spec fields fields' :
  normalizeRecoveryPolicyCompatibility (Some (JObj fields)) = Some (JObj fields') →
  (∀ k, isDurableBlockerClass k = false → oget fields' k = oget fields k) ∧
  ∀ c, (oget fields (blocker_class_name c) = None →
          oget fields' (blocker_class_name c) = Some (defaultEntry c)) ∧
       (∀ s, s ∈ staleEntries c → oget fields (blocker_class_name c) = Some s →
          oget fields' (blocker_class_name c) = Some (defaultEntry c)) ∧
       (∀ f xs, oget fields (blocker_class_name c) = Some (JObj f) →
          existsb (samePolicyEntry (JObj f)) (staleEntries c) = false →
          oget f "recipes" = Some (JArr xs) → JStr "reauthenticate" ∉ xs →
          oget fields' (blocker_class_name c) = Some (JObj f)).
Proof.
  intros Heq. assert (fields' = foldl migrateClass fields DURABLE_BLOCKER_CLASSES) as -> by (by injection Heq).
  clear Heq. split.
  { intros k Hk. apply migrate_other. intros c _ <-. apply bool_decide_eq_false in Hk. apply Hk.
    exists c. by apply asDurableBlockerClass_spec. }
  intros c. rewrite (migrate_lookup _ _ _ classes_NoDup (all_classes c)). split; [by intros ->|]. split.
  - intros s Hs ->. by rewrite stale_settled.
  - intros f xs -> Hst Hr Hx. f_equal. unfold migrateEntry. rewrite Hst, Hr.
    destruct (existsb isReauth xs) eqn:E; [|done]. exfalso.
    apply existsb_elem in E as (x & Hin & Hxr). destruct x; try done.
    simpl in Hxr. apply bool_decide_eq_true in Hxr as ->. done.
Qed.

(** Every policy an earlier version shipped still loads: a document whose
    entries are missing, current or stale defaults migrates and compiles to the
    compiled current defaults. *)
Theorem shipped_policies_compile fields :
  (∀ k, k ∈ okeys fields → isDurableBlockerClass k = true) →
  (∀ c v, oget fields (blocker_class_name c) = Some v → v = defaultEntry c ∨ v ∈ staleEntries c) →
  ∃ p, compileRecoveryPolicy (normalizeRecoveryPolicyCompatibility (Some (JObj fields))) = Ok p ∧
       compileRecoveryPolicy (Some DEFAULT_RECOVERY_POLICY_INPUT) = Ok p.
Proof.
  intros Hkeys Hv.
  assert (∃ p, compileRecoveryPolicy (Some DEFAULT_RECOVERY_POLICY_INPUT) = Ok p) as [p Hp]
    by (vm_compute; eauto).
  exists p. split; [|done]. rewrite <-Hp. unfold normalizeRecoveryPolicyCompatibility, DEFAULT_RECOVERY_POLICY_INPUT.
  rewrite !compile_known.
  - apply compileClasses_ext. intros c Hc. rewrite migrate_lookup; [|apply classes_NoDup|done].
    transitivity (Some (defaultEntry c)); [|by destruct c]. f_equal.
    destruct (oget fields _) as [v|] eqn:E; [|done].
    destruct (Hv _ _ E) as [->|Hs]; [apply default_settled|by apply stale_settled].
  - intros k Hk. unfold okeys in Hk. rewrite <-list_fmap_compose in Hk.
    apply list_elem_of_fmap in Hk as (c & -> & _). apply class_name_known.
  - intros k [?|(c & _ & ->)]%migrate_keys; [by apply Hkeys|apply class_name_known].
Qed.

(** ** Witnesses *)

Module PolicyExamples.
(** A document an early version wrote: one stale entry, the rest missing. *)
Definition early : obj jval :=
  [("environment-auth", entryJson ["reauthenticate"] 2 10 2 120 "retry" true 2);
   ("workflow-engine-defect", entryJson ["restart_workflow_engine"] 1 5 1 5 "retry" true 1)].
(** A document an operator changed. *)
Definition custom : obj jval :=
  [("upstream-dependency", entryJson ["retry_upstream_check"] 9 60 2 1800 "retry" false 4)].
End PolicyExamples.

Lemma compiled_policy_wf_witness :
  ∃ p, compileRecoveryPolicy (Some DEFAULT_RECOVERY_POLICY_INPUT) = Ok p ∧
       p.*1 = DURABLE_BLOCKER_CLASSES ∧ ∀ cls, ∃ e, policyFor p cls = Some e ∧ entry_wf cls e.
Proof.
  eexists. split; [vm_compute; reflexivity|].
  apply (compiled_policy_wf (Some DEFAULT_RECOVERY_POLICY_INPUT)). vm_compute. reflexivity.
Defined.

Lemma migration_spec_witness :
  ∃ fields', normalizeRecoveryPolicyCompatibility (Some (JObj PolicyExamples.custom)) = Some (JObj fields') ∧
    oget fields' "upstream-dependency" = oget PolicyExamples.custom "upstream-dependency" ∧
    oget fields' "missing-authority" = Some (defaultEntry MissingAuthority).
Proof.
  eexists. split; [reflexivity|].
  destruct (migration_spec PolicyExamples.custom _ eq_refl) as [_ H]. split.
  - apply (proj2 (proj2 (H UpstreamDependency)) _ [JStr "retry_upstream_check"]);
      [reflexivity|vm_compute; reflexivity|reflexivity|set_solver].
  - apply (proj1 (H MissingAuthority)). reflexivity.
Defined.

Lemma shipped_policies_compile_witness :
  ∃ p, compileRecoveryPolicy (normalizeRecoveryPolicyCompatibility (Some (JObj PolicyExamples.early))) = Ok p ∧
       compileRecoveryPolicy (Some DEFAULT_RECOVERY_POLICY_INPUT) = Ok p.
Proof.
  apply (shipped_policies_compile PolicyExamples.early).
  - intros k Hk. unfold PolicyExamples.early in Hk. simpl in Hk.
    repeat (apply elem_of_cons in Hk as [->|Hk]; [vm_compute; reflexivity|]). inversion Hk.
  - intros c v Hv. destruct c; simpl in Hv; try discriminate Hv; injection Hv as <-; right; simpl; set_solver.
Defined.
