(* ===== verification/Frontier.v ===== *)
(** * The eligible-item frontier

    The parts of [core/scripts/loop/recovery.ts] every planning pass starts
    from: the upgrade of contracts and ledgers written by earlier versions,
    fail-closed blocker classification, and [eligibleIndependentItems]. *)

From stdpp Require Import base gmap strings list pretty.
From S2P Require Import Prelude LoopTypes Lifecycle RecoveryPolicy.
Local Open Scope result_scope.

(** ** Upgrading persisted documents *)

Definition upgradeContractForRecovery (c : LoopContract) : result LoopError LoopContract :=
  let normalized := normalizeRecoveryPolicyCompatibility (recovery_policy c) in
  try _ := compileRecoveryPolicy normalized in
  Ok (mkContract (c_run_id c) (c_logical_operation_id c) (c_engine c) normalized (c_items c)
        (max_concurrent c) (authority_grants c)).

Lemma truthy_Some o s : truthy o = Some s ↔ o = Some s ∧ s ≠ "".
Proof. destruct o as [[|a s']|]; simpl; naive_solver. Qed.

Section Upgrade.
(** [crypto.createHash("sha256").update(s).digest("hex")]. *)
Context (sha256hex : string → string).

Definition nul : string := String (Ascii.ascii_of_nat 0) EmptyString.

(** [recoveryAttemptId]. *)
Definition recoveryAttemptId (itemId candidateIdentity evidenceFingerprint act : string) : string :=
  sha256hex (join nul ["pipeline-recovery-attempt@1"; itemId; candidateIdentity; evidenceFingerprint; act]).

(** [recoveryEpisodeId]. *)
Definition recoveryEpisodeId (operation inv epoch evidence : string) : string :=
  sha256hex (join nul ["pipeline-recovery-episode@1"; operation; inv; epoch; evidence]).

Definition nonBlank (o : option string) : option string :=
  match o with
  | Some s => if blank s then None else Some s
  | None => None
  end.

Definition normalizeStartedRecoveryEpisodeIdentity (a : LoopRecoveryAttempt) : LoopRecoveryAttempt :=
  if bool_decide (outcome a ≠ OutStarted) || bool_decide (is_Some (episode_id a)) then a
  else
    let evidenceIdentity := default (att_evidence_fingerprint a) (evidence_identity a) in
    match nonBlank (att_operation a), nonBlank (invariant a), nonBlank (att_candidate_epoch a),
          nonBlank (Some evidenceIdentity) with
    | Some op, Some inv, Some epoch, Some ev =>
        with_episode_identity a ev (recoveryEpisodeId op inv epoch ev)
    | _, _, _, _ => a
    end.

Definition hasCoreFields (a : LoopRecoveryAttempt) : bool :=
  bool_decide (is_Some (truthy (attempt_id a))) && bool_decide (is_Some (truthy (candidate_identity a))) &&
  bool_decide (is_Some (truthy (action a))) && bool_decide (is_Some (budget_remaining a)).

(** [attempt.action ?? attempt.actions[0]]. *)
Definition attemptAction (a : LoopRecoveryAttempt) : option string :=
  match action a with
  | Some x => Some x
  | None => head (actions a)
  end.

Definition upgradeAttempt (a : LoopRecoveryAttempt) : LoopRecoveryAttempt :=
  if hasCoreFields a then normalizeStartedRecoveryEpisodeIdentity a
  else match truthy (attemptAction a) with
  | None => a
  | Some act =>
      let candidateIdentity := default ("legacy:" +:+ pretty (seq a)) (candidate_identity a) in
      normalizeStartedRecoveryEpisodeIdentity
        (with_core_fields a
           (default (recoveryAttemptId (att_item_id a) candidateIdentity (att_evidence_fingerprint a) act)
              (attempt_id a))
           candidateIdentity act (default (num 0) (budget_remaining a)))
  end.

Definition upgradeEntry (e : LoopItemLedgerEntry) : LoopItemLedgerEntry :=
  match truthy (blocked_theme e) with
  | Some theme =>
      if isDurableBlockerClass theme then e
      else match mapLegacyThemeToBlockerClass theme with
      | Ok c =>
          mkEntry (id e) (state e) (history e) (Some (blocker_class_name c)) (recovery_budgets_remaining e)
            (evidence_fingerprint e) (blocker_candidate_epoch e) (blocker_candidate_head e)
            (repeated_evidence_count e) (hold_request e) (last_verified_identity e) (current_stage e)
            (advance_run_id e)
      | Err _ => e
      end
  | None => e
  end.

Definition upgradeLedgerForRecovery (l : LoopLedger) : LoopLedger :=
  mkLedger (l_run_id l) ((fun p => (p.1, upgradeEntry p.2)) <$> items l) (merge_barrier l) (stop l)
    (cooling l) (item_cooling l) (lifecycle l) (last_reconciliation l)
    (Some (upgradeAttempt <$> default [] (recovery_attempts l))) (last_native_goal_check l)
    (reconciliation_sequence l) (authority_amendments l).

(** ** Blocker classification *)

(** [new Set(xs)]: first occurrences, in order. *)
Fixpoint dedup {A} `{EqDecision A} (seen xs : list A) : list A :=
  match xs with
  | [] => []
  | x :: xs' => if decide (x ∈ seen) then dedup seen xs' else x :: dedup (x :: seen) xs'
  end.

Definition classifyBlocker (candidates : list string) : result LoopError DurableBlockerClass :=
  match omap asDurableBlockerClass (dedup [] candidates) with
  | [c] => Ok c
  | [] =>
      Err (mkLoopError FStop
        ("blocker classification failed: no candidate matched a known DurableBlockerClass (candidates: " +:+
         (if decide (join ", " candidates = "") then "none" else join ", " candidates) +:+ ")"))
  | cs =>
      Err (mkLoopError FStop
        ("blocker classification failed: ambiguous — multiple classes matched (" +:+
         join ", " (blocker_class_name <$> cs) +:+ ")"))
  end.

(** ** Eligibility *)

Definition isDoneState (s : LoopItemState) : bool :=
  match s with Ready | Merged | Released | Deployed => true | _ => false end.

(** [isRunFatalBlocked]. *)
Definition isRunFatalBlocked (c : LoopContract) (l : LoopLedger) : result LoopError bool :=
  try c' := upgradeContractForRecovery c in
  try policy := compileRecoveryPolicy (recovery_policy c') in
  Ok (existsb (fun e =>
        match state e, truthy (blocked_theme e) with
        | Blocked, Some theme =>
            match asDurableBlockerClass theme with
            | Some cls => match policyFor policy cls with Some p => run_fatal p | None => false end
            | None => false
            end
        | _, _ => false
        end) (ovalues (items (upgradeLedgerForRecovery l)))).

(** The item a mechanical stop names. *)
Definition exhaustedItem (l : LoopLedger) : option string :=
  match stop l with
  | Some st => if isMechanicalCompatibilityStopReason (Some (stop_reason_name (stop_reason st)))
               then truthy (stop_item_id st) else None
  | None => None
  end.

(** A non-mechanical stop is in force. *)
Definition hardStopped (l : LoopLedger) : bool :=
  match stop l with
  | Some st => negb (isMechanicalCompatibilityStopReason (Some (stop_reason_name (stop_reason st))))
  | None => false
  end.

Definition anyInProgress (l : LoopLedger) : bool :=
  existsb (fun e => bool_decide (state e = InProgress)) (ovalues (items l)).

Definition blockedIds (l : LoopLedger) : list string :=
  id <$> filter (fun e => state e = Blocked) (ovalues (items l)).

Definition contractDeps (c : LoopContract) (i : string) : list string :=
  default [] (js_map ((fun it => (ci_id it, depends_on it)) <$> c_items c) !! i).

Definition contractExternalDeps (c : LoopContract) (i : string) : list string :=
  default [] (js_map ((fun it => (ci_id it, default [] (external_depends_on it))) <$> c_items c) !! i).

(** The filter of [eligibleIndependentItems] on one contract item. *)
Definition eligibleItem (c : LoopContract) (l : LoopLedger)
    (ext : gmap string ExternalDependencyStatus) (it : LoopContractItem) : bool :=
  match oget (items l) (ci_id it) with
  | None => false
  | Some entry =>
      if decide (state entry ≠ Pending) then false
      else if decide (exhaustedItem l = Some (ci_id it)) then false
      else
        let deps := contractDeps c (ci_id it) in
        if existsb (fun d => includes d (blockedIds l)) deps then false
        else if negb (forallb (fun d => match oget (items l) d with
                                        | Some de => isDoneState (state de)
                                        | None => false
                                        end) deps) then false
        else forallb (fun x => bool_decide (ext !! x = Some Satisfied)) (contractExternalDeps c (ci_id it))
  end.

(** [eligibleIndependentItems] on upgraded documents. *)
Definition frontier (c : LoopContract) (l : LoopLedger) (ext : gmap string ExternalDependencyStatus)
    : list string :=
  if hardStopped l then []
  else if anyInProgress l then []
  else ci_id <$> filter (fun it => eligibleItem c l ext it = true) (c_items c).

Definition eligibleIndependentItems (c : LoopContract) (l : LoopLedger)
    (ext : gmap string ExternalDependencyStatus) : result LoopError (list string) :=
  try c' := upgradeContractForRecovery c in
  Ok (frontier c' (upgradeLedgerForRecovery l) ext).

(** ** Well-keyed ledgers *)

(** Every entry is stored once, under its own [id]. *)
Record LedgerWF (l : LoopLedger) : Prop := {
  wf_keys : NoDup (okeys (items l));
  wf_ids : ∀ k e, oget (items l) k = Some e → id e = k;
}.

(** ** What an upgrade keeps *)

Lemma upgradeContract_keeps c c' :
  upgradeContractForRecovery c = Ok c' →
  c_items c' = c_items c ∧ max_concurrent c' = max_concurrent c ∧
  recovery_policy c' = normalizeRecoveryPolicyCompatibility (recovery_policy c).
Proof. unfold upgradeContractForRecovery. intros H. inv_bind H. by simplify_eq. Qed.

Lemma upgradeEntry_keeps e :
  id (upgradeEntry e) = id e ∧ state (upgradeEntry e) = state e ∧ history (upgradeEntry e) = history e ∧
  last_verified_identity (upgradeEntry e) = last_verified_identity e.
Proof. unfold upgradeEntry. repeat case_match_goal; done. Qed.

Lemma oget_map {V W} (f : V → W) (o : obj V) k :
  oget ((fun p => (p.1, f p.2)) <$> o) k = f <$> oget o k.
Proof. induction o as [|[k' v] o IH]; csimpl; [done|]. by case_decide. Qed.

Lemma upgradeLedger_get l k :
  oget (items (upgradeLedgerForRecovery l)) k = upgradeEntry <$> oget (items l) k.
Proof. apply oget_map. Qed.

Lemma upgradeLedger_state l k :
  state_of (items (upgradeLedgerForRecovery l)) k = state_of (items l) k.
Proof.
  unfold state_of. rewrite upgradeLedger_get. destruct (oget (items l) k) as [e|]; [|done].
  simpl. f_equal. apply upgradeEntry_keeps.
Qed.

Lemma upgradeLedger_keys l : okeys (items (upgradeLedgerForRecovery l)) = okeys (items l).
Proof. unfold okeys. simpl. rewrite <-list_fmap_compose. by apply list_fmap_ext. Qed.

Lemma upgradeLedger_wf l : LedgerWF l → LedgerWF (upgradeLedgerForRecovery l).
Proof.
  intros [Hk Hi]. split; [by rewrite upgradeLedger_keys|]. intros k e.
  rewrite upgradeLedger_get. destruct (oget (items l) k) as [e'|] eqn:E; [|done]. intros [= <-].
  destruct (upgradeEntry_keeps e') as (-> & _). eauto.
Qed.

(** ** Reading a ledger through its states *)

Lemma values_states l (P : LoopItemState → Prop) :
  LedgerWF l → (∃ e, e ∈ ovalues (items l) ∧ P (state e)) ↔ (∃ k s, state_of (items l) k = Some s ∧ P s).
Proof.
  intros [Hk _]. unfold state_of. split.
  - intros (e & Hin & HP). apply elem_ovalues in Hin as [k Hin].
    exists k, (state e). by rewrite (elem_oget k e).
  - intros (k & s & Hs & HP). apply fmap_Some in Hs as (e & He & ->). exists e.
    split; [|done]. apply elem_ovalues. eauto using oget_Some_elem.
Qed.

Lemma anyInProgress_false l :
  LedgerWF l → anyInProgress l = false ↔ ∀ k, state_of (items l) k ≠ Some InProgress.
Proof.
  intros Hwf. unfold anyInProgress. rewrite <-not_true_iff_false, existsb_elem.
  setoid_rewrite bool_decide_eq_true.
  pose proof (values_states l (.= InProgress) Hwf) as Hv. split.
  - intros Hn k Hs. apply Hn. apply Hv. eauto.
  - intros Hn Hex. apply Hv in Hex as (k & s & Hs & ->). by eapply Hn.
Qed.

Lemma blockedIds_spec l x :
  LedgerWF l → x ∈ blockedIds l ↔ state_of (items l) x = Some Blocked.
Proof.
  intros [Hk Hi]. unfold blockedIds, state_of. rewrite list_elem_of_fmap.
  setoid_rewrite list_elem_of_filter. setoid_rewrite elem_ovalues. split.
  - intros (e & -> & Hb & k & Hin). apply elem_oget in Hin; [|done].
    pose proof (Hi _ _ Hin) as ->. rewrite Hin. simpl. by f_equal.
  - intros Hs. apply fmap_Some in Hs as (e & He & Hb). exists e. split; [by rewrite (Hi _ _ He)|].
    split; [done|]. eauto using oget_Some_elem.
Qed.

(** ** The frontier against its specification *)

Definition Done (l : LoopLedger) (d : string) : Prop :=
  ∃ s, state_of (items l) d = Some s ∧ isDoneState s = true.

(** What the documentation of [eligibleIndependentItems] promises of [it]. *)
Record Eligible (c : LoopContract) (l : LoopLedger) (ext : gmap string ExternalDependencyStatus)
    (it : LoopContractItem) : Prop := {
  el_item : it ∈ c_items c;
  el_pending : state_of (items l) (ci_id it) = Some Pending;
  el_idle : ∀ k, state_of (items l) k ≠ Some InProgress;
  el_running : hardStopped l = false;
  el_fresh : exhaustedItem l ≠ Some (ci_id it);
  el_deps : ∀ d, d ∈ depends_on it → Done l d;
  el_external : ∀ x, x ∈ default [] (external_depends_on it) → ext !! x = Some Satisfied;
}.

Definition item_ids (c : LoopContract) : list string := ci_id <$> c_items c.

Lemma contract_index {V} (f : LoopContractItem → V) c it :
  NoDup (item_ids c) → it ∈ c_items c →
  js_map ((fun it => (ci_id it, f it)) <$> c_items c) !! ci_id it = Some (f it).
Proof.
  intros Hnd Hin. apply js_map_lookup.
  - by rewrite <-list_fmap_compose.
  - apply list_elem_of_fmap. eauto.
Qed.

Lemma done_not_blocked l d : Done l d → state_of (items l) d ≠ Some Blocked.
Proof. intros (s & -> & Hd) [= ->]. done. Qed.

Lemma eligibleItem_spec c l ext it :
  NoDup (item_ids c) → LedgerWF l → it ∈ c_items c →
  eligibleItem c l ext it = true ↔
  state_of (items l) (ci_id it) = Some Pending ∧ exhaustedItem l ≠ Some (ci_id it) ∧
  (∀ d, d ∈ depends_on it → Done l d) ∧
  (∀ x, x ∈ default [] (external_depends_on it) → ext !! x = Some Satisfied).
Proof.
  clear sha256hex.
  intros Hnd Hwf Hin. unfold eligibleItem, contractDeps, contractExternalDeps.
  rewrite !(contract_index _ c it) by done. simpl. unfold state_of at 1.
  destruct (oget (items l) (ci_id it)) as [e|] eqn:He; simpl; [|naive_solver].
  case_decide as Hp; [naive_solver|]. case_decide as Hx; [naive_solver|].
  assert (forallb (fun d => match oget (items l) d with Some de => isDoneState (state de) | None => false end)
            (depends_on it) = true ↔ ∀ d, d ∈ depends_on it → Done l d) as Hdone.
  { rewrite forallb_elem. unfold Done, state_of. split; intros H d Hd; specialize (H d Hd).
    - destruct (oget (items l) d); naive_solver.
    - destruct (oget (items l) d); naive_solver. }
  assert (forallb (fun x => bool_decide (ext !! x = Some Satisfied)) (default [] (external_depends_on it)) = true
            ↔ ∀ x, x ∈ default [] (external_depends_on it) → ext !! x = Some Satisfied) as Hext.
  { rewrite forallb_elem. by setoid_rewrite bool_decide_eq_true. }
  destruct (existsb _ (depends_on it)) eqn:Hb.
  - split; [done|]. intros (_ & _ & Hd & _). apply existsb_elem in Hb as (d & Hdin & Hdb).
    apply includes_true, blockedIds_spec in Hdb; [|done]. by destruct (done_not_blocked l d (Hd d Hdin)).
  - destruct (forallb _ (depends_on it)); simpl; [|naive_solver].
    assert (state e = Pending) as -> by (destruct (state e); first [done | by destruct Hp]). rewrite Hext. split; [|by intros (_ & _ & _ & ?)].
    intros. split; [done|]. split; [done|]. split; [by apply Hdone|done].
Qed.

Lemma frontier_elem c l ext x :
  NoDup (item_ids c) → LedgerWF l →
  x ∈ frontier c l ext ↔ ∃ it, ci_id it = x ∧ Eligible c l ext it.
Proof.
  intros Hnd Hwf. unfold frontier. destruct (hardStopped l) eqn:Hh.
  { rewrite elem_of_nil. split; [done|]. intros (it & _ & []). congruence. }
  destruct (anyInProgress l) eqn:Ha.
  { rewrite elem_of_nil. split; [done|]. intros (it & _ & []).
    assert (anyInProgress l = false) by (by apply anyInProgress_false). congruence. }
  pose proof (proj1 (anyInProgress_false l Hwf) Ha) as Hidle.
  rewrite list_elem_of_fmap. setoid_rewrite list_elem_of_filter. split.
  - intros (it & -> & He & Hin). exists it. split; [done|].
    apply eligibleItem_spec in He as (? & ? & ? & ?); [|done..]. by split.
  - intros (it & <- & []). exists it. split; [done|]. split; [|done].
    by apply eligibleItem_spec.
Qed.

Lemma frontier_sublist c l ext : frontier c l ext `sublist_of` item_ids c.
Proof.
  unfold frontier, item_ids. repeat case_match_goal; [apply sublist_nil_l..|].
  apply fmap_sublist, sublist_filter.
Qed.

(** The frontier reads nothing the upgrades change. *)
Lemma frontier_ext c c' l l' ext :
  c_items c' = c_items c → stop l' = stop l → LedgerWF l → LedgerWF l' → NoDup (item_ids c) →
  (∀ k, state_of (items l') k = state_of (items l) k) →
  frontier c' l' ext = frontier c l ext.
Proof.
  intros Hc Hs Hwf Hwf' Hnd Hst. unfold frontier, hardStopped. rewrite Hs. fold (hardStopped l).
  assert (exhaustedItem l' = exhaustedItem l) as Hx by (unfold exhaustedItem; by rewrite Hs).
  assert (anyInProgress l' = anyInProgress l) as ->.
  { apply eq_bool_prop_intro. rewrite !Is_true_true.
    rewrite <-!not_false_iff_true, !anyInProgress_false by done. by setoid_rewrite Hst. }
  destruct (hardStopped l); [done|]. destruct (anyInProgress l); [done|]. rewrite Hc. f_equal.
  assert (∀ it, it ∈ c_items c → eligibleItem c' l' ext it = eligibleItem c l ext it) as He.
  { intros it Hin. apply eq_bool_prop_intro. rewrite !Is_true_true.
    rewrite !eligibleItem_spec; try done; unfold item_ids in *; rewrite ?Hc; try done.
    rewrite Hx. unfold Done. by setoid_rewrite Hst. }
  revert He. generalize (c_items c). intros its He. induction its as [|it its IH]; [done|].
  rewrite !filter_cons, !He by left. rewrite IH; [done|]. intros; apply He; by right.
Qed.

Lemma eligible_frontier c l ext fr :
  LedgerWF l → NoDup (item_ids c) → eligibleIndependentItems c l ext = Ok fr → fr = frontier c l ext.
Proof.
  intros Hwf Hnd. unfold eligibleIndependentItems. intros H. inv_bind H. injection H as <-.
  apply upgradeContract_keeps in E as (Hc & _ & _).
  apply frontier_ext; auto using upgradeLedger_wf. apply upgradeLedger_state.
Qed.

(** ** Upgrading twice *)

Lemma upgradeEntry_idemp e : upgradeEntry (upgradeEntry e) = upgradeEntry e.
Proof.
  unfold upgradeEntry at 2 3. destruct (truthy (blocked_theme e)) as [theme|] eqn:Ht.
  2: { unfold upgradeEntry. by rewrite Ht. }
  destruct (isDurableBlockerClass theme) eqn:Hc; [unfold upgradeEntry; by rewrite Ht, Hc|].
  destruct (mapLegacyThemeToBlockerClass theme) as [c|err] eqn:Hm; [|unfold upgradeEntry; by rewrite Ht, Hc, Hm].
  unfold upgradeEntry at 1. cbn [blocked_theme].
  destruct (truthy (Some (blocker_class_name c))) as [theme'|] eqn:Ht'; [|done].
  apply truthy_Some in Ht' as [[= <-] _]. by rewrite class_name_known.
Qed.

Lemma normalizeStarted_idemp a :
  normalizeStartedRecoveryEpisodeIdentity (normalizeStartedRecoveryEpisodeIdentity a) =
  normalizeStartedRecoveryEpisodeIdentity a.
Proof.
  unfold normalizeStartedRecoveryEpisodeIdentity at 2 3.
  destruct (_ || _) eqn:Hd; [unfold normalizeStartedRecoveryEpisodeIdentity; by rewrite Hd|].
  cbv zeta. repeat case_match_goal; try (unfold normalizeStartedRecoveryEpisodeIdentity; rewrite Hd; cbv zeta; by simplify_option_eq).
  all: unfold normalizeStartedRecoveryEpisodeIdentity; simpl; rewrite ?Hd; try by destruct (outcome a).
Qed.

Lemma normalizeStarted_keeps a :
  let b := normalizeStartedRecoveryEpisodeIdentity a in
  attempt_id b = attempt_id a ∧ candidate_identity b = candidate_identity a ∧ action b = action a ∧
  actions b = actions a ∧ budget_remaining b = budget_remaining a.
Proof. cbv zeta. unfold normalizeStartedRecoveryEpisodeIdentity. repeat case_match_goal; done. Qed.

Lemma hasCoreFields_normalize a :
  hasCoreFields (normalizeStartedRecoveryEpisodeIdentity a) = hasCoreFields a ∧
  attemptAction (normalizeStartedRecoveryEpisodeIdentity a) = attemptAction a.
Proof.
  destruct (normalizeStarted_keeps a) as (H1 & H2 & H3 & H4 & H5).
  unfold hasCoreFields, attemptAction. by rewrite H1, H2, H3, H4, H5.
Qed.

(** The record [upgradeAttempt] completes from its action. *)
Definition filled (a : LoopRecoveryAttempt) : Prop :=
  is_Some (attempt_id a) ∧ is_Some (candidate_identity a) ∧ is_Some (action a) ∧ is_Some (budget_remaining a).

Lemma upgradeAttempt_filled a :
  filled a → upgradeAttempt (normalizeStartedRecoveryEpisodeIdentity a) = normalizeStartedRecoveryEpisodeIdentity a.
Proof.
  intros ([i Hi] & [ci Hc] & [ac Ha] & [b Hb]). unfold upgradeAttempt.
  destruct (hasCoreFields_normalize a) as [-> ->]. destruct (normalizeStarted_keeps a) as (H1 & H2 & H3 & H4 & H5).
  destruct (hasCoreFields a); [apply normalizeStarted_idemp|].
  unfold attemptAction. rewrite Ha. destruct (truthy (Some ac)) as [act|] eqn:Ht; [|done].
  apply truthy_Some in Ht as [[= <-] _]. rewrite H1, H2, H5, Hi, Hc, Hb. simpl.
  etrans; [|apply normalizeStarted_idemp]. f_equal.
  rewrite Hi in H1. rewrite Hc in H2. rewrite Ha in H3. rewrite Hb in H5.
  destruct (normalizeStartedRecoveryEpisodeIdentity a); cbn in H1, H2, H3, H5. by subst.
Qed.

Lemma upgradeAttempt_idemp a : upgradeAttempt (upgradeAttempt a) = upgradeAttempt a.
Proof.
  unfold upgradeAttempt at 2 3. destruct (hasCoreFields a) eqn:Hc.
  { unfold upgradeAttempt. destruct (hasCoreFields_normalize a) as [-> _]. rewrite Hc.
    apply normalizeStarted_idemp. }
  destruct (truthy (attemptAction a)) as [act|] eqn:Ht.
  - apply upgradeAttempt_filled. repeat split; simpl; eauto.
  - unfold upgradeAttempt. by rewrite Hc, Ht.
Qed.

Lemma upgradeLedger_idemp l :
  upgradeLedgerForRecovery (upgradeLedgerForRecovery l) = upgradeLedgerForRecovery l.
Proof.
  unfold upgradeLedgerForRecovery. simpl. f_equal.
  - rewrite <-list_fmap_compose. apply list_fmap_ext. intros i [k e] _. simpl. by rewrite upgradeEntry_idemp.
  - f_equal. rewrite <-list_fmap_compose. apply list_fmap_ext. intros i a _. apply upgradeAttempt_idemp.
Qed.
End Upgrade.

(** ** Classification *)

Lemma dedup_elem {A} `{EqDecision A} (xs : list A) : ∀ seen x,
  x ∈ dedup seen xs ↔ x ∈ xs ∧ x ∉ seen.
Proof.
  induction xs as [|y xs IH]; intros seen x; simpl; [rewrite elem_of_nil; naive_solver|].
  case_decide as Hy; rewrite ?elem_of_cons, IH, ?elem_of_cons, ?not_elem_of_cons; [naive_solver|].
  destruct (decide (x = y)) as [->|]; naive_solver.
Qed.

Lemma dedup_NoDup {A} `{EqDecision A} (xs : list A) : ∀ seen, NoDup (dedup seen xs).
Proof.
  induction xs as [|y xs IH]; intros seen; simpl; [apply NoDup_nil_2|]. case_decide; [done|].
  apply NoDup_cons. split; [|done]. rewrite dedup_elem, not_elem_of_cons. naive_solver.
Qed.

(** The classes a candidate list names. *)
Lemma named_classes candidates c :
  c ∈ omap asDurableBlockerClass (dedup [] candidates) ↔ blocker_class_name c ∈ candidates.
Proof.
  rewrite list_elem_of_omap. setoid_rewrite asDurableBlockerClass_spec. setoid_rewrite dedup_elem.
  split; [by intros (s & [Hs _] & <-)|]. intros Hs. exists (blocker_class_name c).
  split; [split; [done|apply not_elem_of_nil]|done].
Qed.

Lemma named_classes_NoDup candidates : NoDup (omap asDurableBlockerClass (dedup [] candidates)).
Proof.
  generalize (dedup_NoDup candidates []). generalize (dedup [] candidates). intros l.
  induction l as [|s l IH]; simpl; [intros; apply NoDup_nil_2|]. rewrite NoDup_cons. intros [Hni Hnd].
  destruct (asDurableBlockerClass s) as [c|] eqn:Hc; [|by auto]. apply NoDup_cons. split; [|by auto].
  rewrite list_elem_of_omap. intros (s' & Hs' & Hc'). apply asDurableBlockerClass_spec in Hc, Hc'. congruence.
Qed.

(** ** Properties *)

(** Eligibility is exactly the documented condition: an item is offered
    iff it is pending, no item is running, no hard stop is in force, the item
    is not the one a mechanical stop names, every declared dependency is done
    and every external one satisfied; and the items are offered in contract
    order.  Upgrading old documents on the way changes none of it. *)
Theorem eligible_items_spec sha c l ext fr :
  LedgerWF l → NoDup (item_ids c) → eligibleIndependentItems sha c l ext = Ok fr →
  fr `sublist_of` item_ids c ∧ (∀ x, x ∈ fr ↔ ∃ it, ci_id it = x ∧ Eligible c l ext it).
Proof.
  intros Hwf Hnd H. apply eligible_frontier in H as ->; [|done..].
  split; [apply frontier_sublist|]. intros x. by apply frontier_elem.
Qed.

(** Classification fails closed: it answers a class exactly when that
    class is the only one the candidates name, and otherwise refuses with a
    stop, whether nothing or more than one class was named. *)
Theorem classify_fails_closed candidates :
  match classifyBlocker candidates with
  | Ok c => ∀ c', blocker_class_name c' ∈ candidates ↔ c' = c
  | Err e => loopFailureClass e = FStop ∧ ¬ ∃ c, ∀ c', blocker_class_name c' ∈ candidates ↔ c' = c
  end.
Proof.
  unfold classifyBlocker. pose proof (named_classes candidates) as Hn.
  pose proof (named_classes_NoDup candidates) as Hd.
  destruct (omap _ _) as [|c1 [|c2 cs]]; cbn [loopFailureClass].
  - split; [done|]. intros (c & Hc). specialize (proj2 (Hc c) eq_refl). rewrite <-Hn. apply not_elem_of_nil.
  - intros c'. by rewrite <-Hn, list_elem_of_singleton.
  - split; [done|]. intros (c & Hc). setoid_rewrite <-Hn in Hc. apply NoDup_cons in Hd as [Hni _].
    assert (c1 = c) as -> by (apply Hc; left). assert (c2 = c) as -> by (apply Hc; right; left).
    destruct Hni. left.
Qed.

(** The ledger upgrade is idempotent, and it rewrites nothing but legacy
    blocked themes and incomplete recovery attempts: keys, states, histories,
    the stop record, the merge barrier and the lifecycle record survive. *)
Theorem ledger_upgrade_conservative sha l :
  let l' := upgradeLedgerForRecovery sha l in
  upgradeLedgerForRecovery sha l' = l' ∧ okeys (items l') = okeys (items l) ∧
  stop l' = stop l ∧ merge_barrier l' = merge_barrier l ∧ lifecycle l' = lifecycle l ∧
  (∀ k e, oget (items l) k = Some e →
     ∃ e', oget (items l') k = Some e' ∧ id e' = id e ∧ state e' = state e ∧ history e' = history e ∧
           (blocked_theme e' = blocked_theme e ∨
            ∃ t c, blocked_theme e = Some t ∧ isDurableBlockerClass t = false ∧
                   mapLegacyThemeToBlockerClass t = Ok c ∧ blocked_theme e' = Some (blocker_class_name c))).
Proof.
  cbv zeta. split; [apply upgradeLedger_idemp|]. split; [apply upgradeLedger_keys|].
  split; [done|]. split; [done|]. split; [done|]. intros k e He.
  exists (upgradeEntry e). rewrite upgradeLedger_get, He. split; [done|].
  destruct (upgradeEntry_keeps e) as (-> & -> & -> & _). split; [done|]. split; [done|]. split; [done|].
  unfold upgradeEntry. destruct (truthy (blocked_theme e)) as [t|] eqn:Ht; [|by left].
  apply truthy_Some in Ht as [Ht _]. destruct (isDurableBlockerClass t) eqn:Hc; [by left|].
  destruct (mapLegacyThemeToBlockerClass t) as [c|err] eqn:Hm; [|by left]. right. by exists t, c.
Qed.

(** ** Samples *)

Lemma LedgerWF_check l :
  NoDup (okeys (items l)) → forallb (fun p => bool_decide (id p.2 = p.1)) (items l) = true → LedgerWF l.
Proof.
  intros Hnd Hall. split; [done|]. intros k e He. apply oget_Some_elem in He.
  rewrite forallb_elem in Hall. specialize (Hall _ He). by apply bool_decide_eq_true in Hall.
Qed.

Module FrontierSample.
Definition entry (i : string) (s : LoopItemState) (theme : option string) : string * LoopItemLedgerEntry :=
  (i, mkEntry i s [] theme [] None None None None None None None None).
Definition item (i : string) (deps ext : list string) : LoopContractItem :=
  mkContractItem i deps (Some ext) None.
Definition ledger (es : obj LoopItemLedgerEntry) : LoopLedger :=
  mkLedger "run" es None None None None None None None None 0 None.

(** Item 2 waits on a done item, 3 on a blocked one, 4 on an open issue. *)
Definition contract : LoopContract :=
  mkContract "run" None Claude None
    [item "1" [] []; item "2" ["1"] ["77"]; item "5" [] []; item "3" ["5"] []; item "4" [] ["78"]] None [].
Definition run : LoopLedger :=
  ledger [entry "1" Ready None; entry "2" Pending None; entry "3" Pending None; entry "4" Pending None;
          entry "5" Blocked (Some "rate limit")].
Definition statuses : gmap string ExternalDependencyStatus :=
  <["77" := Satisfied]> (<["78" := ExtPending]> ∅).

Lemma run_wf : LedgerWF run.
Proof. apply LedgerWF_check; [by apply (bool_decide_unpack _); vm_compute|by vm_compute]. Defined.
Lemma contract_ids : NoDup (item_ids contract).
Proof. by apply (bool_decide_unpack _); vm_compute. Defined.
End FrontierSample.

Lemma eligible_items_spec_witness :
  eligibleIndependentItems (fun s => s) FrontierSample.contract FrontierSample.run FrontierSample.statuses = Ok ["2"] ∧
  ∃ it, ci_id it = "2" ∧ Eligible FrontierSample.contract FrontierSample.run FrontierSample.statuses it.
Proof.
  assert (eligibleIndependentItems (fun s => s) FrontierSample.contract FrontierSample.run
            FrontierSample.statuses = Ok ["2"]) as E by by vm_compute.
  split; [exact E|].
  destruct (eligible_items_spec _ _ _ _ _ FrontierSample.run_wf FrontierSample.contract_ids E) as [_ H].
  apply H. left.
Defined.
