(* ===== verification/Dependencies.v ===== *)
(** * Dependency integrity

    The run-time half of [core/scripts/loop/dependencies.ts]: verification of
    external dependencies against live truth, propagation of skips to a
    fixpoint, and detection of dependency deadlocks. *)

From Stdlib Require Import ZArith Ascii.
From stdpp Require Import numbers base gmap strings list relations.
From S2P Require Import Prelude LoopTypes ContractCompile Lifecycle RecoveryPolicy Frontier.
Local Open Scope result_scope.

(** ** External dependencies *)

Inductive IssueState := IssueOpen | IssueClosed.
Inductive StateReason := Completed | NotPlanned | Reopened.

#[export] Instance issue_state_eq_dec : EqDecision IssueState.
Proof. solve_decision. Defined.
#[export] Instance state_reason_eq_dec : EqDecision StateReason.
Proof. solve_decision. Defined.

Record IssueObservation := mkIssueObs {
  obs_state : IssueState;
  obs_reason : option StateReason;
}.

Definition externalDependencyStatus (issueState : option IssueObservation) (linkedPrMerged : bool)
    : ExternalDependencyStatus :=
  if linkedPrMerged then Satisfied
  else match issueState with
  | None => ExtPending
  | Some o =>
      match obs_state o with
      | IssueOpen => ExtPending
      | IssueClosed =>
          match obs_reason o with
          | Some Completed => Satisfied
          | Some NotPlanned => Unsatisfiable
          | _ => ExtPending
          end
      end
  end.

Definition collectExternalDependencyIds (c : LoopContract) : list string :=
  dedup [] (c_items c ≫= fun it => default [] (external_depends_on it)).

(** [/^[1-9][0-9]*$/]. *)
Definition isDigit (a : ascii) : bool := (48 <=? nat_of_ascii a)%nat && (nat_of_ascii a <=? 57)%nat.
Definition isCanonicalIssueId (s : string) : bool :=
  match chars s with
  | [] => false
  | a :: rest => isDigit a && negb (bool_decide (a = "0"%char)) && forallb isDigit rest
  end.

(** The double nearest to a natural number, ties to even. *)
Definition roundDouble (n : Z) : jsnum :=
  if (n <? 2 ^ 53)%Z then num n
  else
    let e := (Z.log2 n - 52)%Z in
    let q := (n / 2 ^ e)%Z in
    let r := (n mod 2 ^ e)%Z in
    let up := ((2 ^ (e - 1) <? r) || ((r =? 2 ^ (e - 1)) && Z.odd q))%Z in
    let v := ((if up then q + 1 else q) * 2 ^ e)%Z in
    if (2 ^ 1024 <=? v)%Z then NonFinite else num v.

Definition decimalValue (l : list ascii) : Z :=
  foldl (fun acc a => acc * 10 + (Z.of_nat (nat_of_ascii a) - 48))%Z 0%Z l.

(** [Number(id)] on a canonical id. *)
Definition Number (s : string) : jsnum := roundDouble (decimalValue (chars s)).

(** The calls of the observation seam this module makes; a rejected promise is
    an [Err]. *)
Record ReconcileObserveDeps (E : Type) := mkObserveDeps {
  getExternalDependencyIssueState : jsnum → result E (option IssueObservation);
  findPrForIssue : jsnum → result E (option jsnum);
  (** [getPrDetail(n)?.state]. *)
  getPrDetail : jsnum → result E (option PrState);
}.
Arguments getExternalDependencyIssueState {E}.
Arguments findPrForIssue {E}.
Arguments getPrDetail {E}.

Section Observation.
Context {E : Type} (observeDeps : ReconcileObserveDeps E).

(** The live status of one canonical id. *)
Definition observeStatus (i : string) : result E ExternalDependencyStatus :=
  try issueState := getExternalDependencyIssueState observeDeps (Number i) in
  try prNumber := findPrForIssue observeDeps (Number i) in
  try prState := match prNumber with Some n => getPrDetail observeDeps n | None => Ok None end in
  Ok (externalDependencyStatus issueState (bool_decide (prState = Some PrStateMerged))).

Definition statusStep (statuses : gmap string ExternalDependencyStatus) (i : string)
    : result E (gmap string ExternalDependencyStatus) :=
  if isCanonicalIssueId i then
    try s := observeStatus i in Ok (<[i := s]> statuses)
  else Ok (<[i := ExtPending]> statuses).

Definition computeExternalDependencyStatuses (c : LoopContract)
    : result E (gmap string ExternalDependencyStatus) :=
  rfold statusStep ∅ (collectExternalDependencyIds c).
End Observation.

Definition allExternalDependenciesSatisfied (it : LoopContractItem)
    (ext : gmap string ExternalDependencyStatus) : bool :=
  forallb (fun i => bool_decide (ext !! i = Some Satisfied)) (default [] (external_depends_on it)).

(** ** Skip propagation *)

(** [SKIPPABLE_FROM_STATES.has(s)]. *)
Definition isSkippable (s : LoopItemState) : bool :=
  match s with Pending | Blocked => true | _ => false end.

Record SkipCause := mkCause {
  causingId : string;
  cause_kind : DepKind;
}.

Definition isDeadState (s : option LoopItemState) : bool :=
  match s with Some Abandoned | Some Skipped => true | _ => false end.

Definition findSkipCause (it : LoopContractItem) (its : obj LoopItemLedgerEntry)
    (ext : gmap string ExternalDependencyStatus) : option SkipCause :=
  match list_find (fun d => isDeadState (state_of its d) = true) (depends_on it) with
  | Some (_, d) => Some (mkCause d InRun)
  | None =>
      match list_find (fun x => ext !! x = Some Unsatisfiable) (default [] (external_depends_on it)) with
      | Some (_, x) => Some (mkCause x External)
      | None => None
      end
  end.

Definition dep_kind_name (k : DepKind) : string :=
  match k with InRun => "in_run" | External => "external" end.

Definition skipNote (cause : SkipCause) : string :=
  "skipped: " +:+ dep_kind_name (cause_kind cause) +:+ " dependency " +:+ quoted (causingId cause) +:+
  " will never be satisfied".

(** The loop's variables.  [now()] is read once per skip, so the number of
    skips is the number of readings taken. *)
Record SkipState := mkSkip {
  sk_items : obj LoopItemLedgerEntry;
  skippedItemIds : list string;
  changed : bool;
}.

Section Propagation.
Context (c : LoopContract) (ext : gmap string ExternalDependencyStatus)
  (now : nat → string) (engine : LoopEngineName).

Definition skippedEntry (e : LoopItemLedgerEntry) (cause : SkipCause) (time : string) : LoopItemLedgerEntry :=
  entry_step e Skipped (mkHistory time (state e) Skipped engine None None (Some (skipNote cause))).

(** The body of the [for] loop. *)
Definition skipItem (st : SkipState) (it : LoopContractItem) : SkipState :=
  match oget (sk_items st) (ci_id it) with
  | None => st
  | Some entry =>
      if negb (isSkippable (state entry)) then st
      else match findSkipCause it (sk_items st) ext with
      | None => st
      | Some cause =>
          mkSkip (oset (ci_id it) (skippedEntry entry cause (now (length (skippedItemIds st)))) (sk_items st))
            (skippedItemIds st ++ [ci_id it]) true
      end
  end.

Definition skipPass (st : SkipState) : SkipState :=
  foldl skipItem (mkSkip (sk_items st) (skippedItemIds st) false) (c_items c).

(** [while (changed)]. *)
Fixpoint skipLoop (fuel : nat) (st : SkipState) : option SkipState :=
  match fuel with
  | O => None
  | S fuel' => let st' := skipPass st in if changed st' then skipLoop fuel' st' else Some st'
  end.

(** Every pass but the last skips an entry: the entries bound the passes. *)
Definition propagateSkips (l : LoopLedger) : option (LoopLedger * list string) :=
  st ← skipLoop (S (length (items l))) (mkSkip (items l) [] true);
  Some (with_items l (sk_items st), skippedItemIds st).
End Propagation.

(** ** Deadlock detection *)

(** [TERMINAL_ITEM_STATES.has(s)]. *)
Definition isTerminalItemState (s : LoopItemState) : bool :=
  match s with Ready | Merged | Released | Deployed | Abandoned | Skipped => true | _ => false end.

Definition inRunWait (l : LoopLedger) (i d : string) : option LoopDeadlockChainEntry :=
  match state_of (items l) d with
  | None => Some (mkDeadlock i d InRun "missing")
  | Some Pending => Some (mkDeadlock i d InRun (item_state_name Pending))
  | Some _ => None
  end.

Definition externalWait (ext : gmap string ExternalDependencyStatus) (i x : string)
    : option LoopDeadlockChainEntry :=
  match default ExtPending (ext !! x) with
  | Satisfied => None
  | s => Some (mkDeadlock i x External (external_status_name s))
  end.

(** The chain entries one contract item contributes. *)
Definition itemWaits (l : LoopLedger) (ext : gmap string ExternalDependencyStatus) (it : LoopContractItem)
    : list LoopDeadlockChainEntry :=
  match oget (items l) (ci_id it) with
  | None => []
  | Some entry =>
      if isTerminalItemState (state entry) then []
      else omap (inRunWait l (ci_id it)) (depends_on it) ++
           omap (externalWait ext (ci_id it)) (default [] (external_depends_on it))
  end.

Definition detectDependencyDeadlock (sha256hex : string → string) (c : LoopContract) (l : LoopLedger)
    (ext : gmap string ExternalDependencyStatus) : result LoopError (option (list LoopDeadlockChainEntry)) :=
  if anyInProgress l then Ok None
  else
    try eligible := eligibleIndependentItems sha256hex c l ext in
    match eligible with
    | _ :: _ => Ok None
    | [] => Ok (match c_items c ≫= itemWaits l ext with [] => None | chain => Some chain end)
    end.

(** ** Skip propagation computes the doomed items *)

Definition Dead (l : LoopLedger) (d : string) : Prop := isDeadState (state_of (items l) d) = true.

Definition Skippable (l : LoopLedger) (i : string) : Prop :=
  ∃ s, state_of (items l) i = Some s ∧ isSkippable s = true.

(** The items that can never satisfy their prerequisites: the least set closed
    under "depends on a dead or doomed item, or on an unsatisfiable issue". *)
Inductive Doomed (c : LoopContract) (l : LoopLedger) (ext : gmap string ExternalDependencyStatus)
    : string → Prop :=
| doomed_dead it d :
    it ∈ c_items c → Skippable l (ci_id it) → d ∈ depends_on it → Dead l d → Doomed c l ext (ci_id it)
| doomed_step it d :
    it ∈ c_items c → Skippable l (ci_id it) → d ∈ depends_on it → Doomed c l ext d →
    Doomed c l ext (ci_id it)
| doomed_external it x :
    it ∈ c_items c → Skippable l (ci_id it) → x ∈ default [] (external_depends_on it) →
    ext !! x = Some Unsatisfiable → Doomed c l ext (ci_id it).

(** The record a skip leaves: the entry as it was, in state [skipped], with one
    more history entry whose note names a declared prerequisite. *)
Definition skip_record (c : LoopContract) (engine : LoopEngineName) (k : string)
    (e e' : LoopItemLedgerEntry) : Prop :=
  ∃ it cause time, it ∈ c_items c ∧ ci_id it = k ∧ e' = skippedEntry engine e cause time ∧
    match cause_kind cause with
    | InRun => causingId cause ∈ depends_on it
    | External => causingId cause ∈ default [] (external_depends_on it)
    end.

Lemma findSkipCause_Some it its ext cause :
  findSkipCause it its ext = Some cause →
  match cause_kind cause with
  | InRun => causingId cause ∈ depends_on it ∧ isDeadState (state_of its (causingId cause)) = true
  | External => causingId cause ∈ default [] (external_depends_on it) ∧
                ext !! causingId cause = Some Unsatisfiable
  end.
Proof.
  unfold findSkipCause. destruct (list_find _ (depends_on it)) as [[n d]|] eqn:H1.
  { intros [= <-]. apply list_find_Some in H1 as (Hl & Hd & _). simpl. eauto using list_elem_of_lookup_2. }
  destruct (list_find _ (default [] _)) as [[n x]|] eqn:H2; [|done].
  intros [= <-]. apply list_find_Some in H2 as (Hl & Hd & _). simpl. eauto using list_elem_of_lookup_2.
Qed.

Lemma findSkipCause_None it its ext :
  findSkipCause it its ext = None →
  (∀ d, d ∈ depends_on it → isDeadState (state_of its d) = false) ∧
  (∀ x, x ∈ default [] (external_depends_on it) → ext !! x ≠ Some Unsatisfiable).
Proof.
  unfold findSkipCause. destruct (list_find _ (depends_on it)) as [[n d]|] eqn:H1; [done|].
  destruct (list_find _ (default [] _)) as [[n x]|] eqn:H2; [done|]. intros _.
  apply list_find_None in H1, H2. rewrite Forall_forall in H1, H2.
  split; [intros d Hd; apply not_true_iff_false; by apply H1|done].
Qed.

Section PropagationFacts.
Context (c : LoopContract) (ext : gmap string ExternalDependencyStatus)
  (now : nat → string) (engine : LoopEngineName) (l : LoopLedger).

(** Between iterations: what was skipped was doomed and is recorded as
    skipped; the rest is as the ledger had it. *)
Record SkipInv (st : SkipState) : Prop := {
  si_keys : okeys (sk_items st) = okeys (items l);
  si_nodup : NoDup (skippedItemIds st);
  si_skipped : ∀ k, k ∈ skippedItemIds st → Doomed c l ext k ∧
    ∃ e e', oget (items l) k = Some e ∧ oget (sk_items st) k = Some e' ∧ skip_record c engine k e e';
  si_rest : ∀ k, k ∉ skippedItemIds st → oget (sk_items st) k = oget (items l) k;
}.

Lemma skip_record_state k e e' : skip_record c engine k e e' → state e' = Skipped.
Proof. by intros (it & cause & time & _ & _ & -> & _). Qed.

Lemma SkipInv_state st k :
  SkipInv st →
  (k ∈ skippedItemIds st ∧ state_of (sk_items st) k = Some Skipped ∧ Doomed c l ext k) ∨
  (k ∉ skippedItemIds st ∧ state_of (sk_items st) k = state_of (items l) k).
Proof.
  intros [_ _ Hsk Hre]. destruct (decide (k ∈ skippedItemIds st)) as [Hin|Hni].
  - left. destruct (Hsk k Hin) as (Hd & e & e' & _ & He' & Hr). split; [done|]. split; [|done].
    unfold state_of. rewrite He'. simpl. by rewrite (skip_record_state k e e').
  - right. split; [done|]. unfold state_of. by rewrite Hre.
Qed.

Lemma skipItem_inv st it : SkipInv st → it ∈ c_items c → SkipInv (skipItem ext now engine st it).
Proof.
  intros Hinv Hit. unfold skipItem. destruct (oget (sk_items st) (ci_id it)) as [e|] eqn:He; [|done].
  destruct (isSkippable (state e)) eqn:Hs; simpl; [|done].
  destruct (findSkipCause it (sk_items st) ext) as [cause|] eqn:Hc; [|done].
  apply findSkipCause_Some in Hc.
  destruct (SkipInv_state st (ci_id it) Hinv) as [(_ & Hst & _)|[Hni Hst]].
  { unfold state_of in Hst. rewrite He in Hst. simpl in Hst. injection Hst as Hst. by rewrite Hst in Hs. }
  assert (oget (items l) (ci_id it) = Some e) as Hl by (by rewrite <-(si_rest st Hinv)).
  assert (Skippable l (ci_id it)) as Hk by (exists (state e); unfold state_of; by rewrite Hl).
  assert (Doomed c l ext (ci_id it)) as Hd.
  { destruct (cause_kind cause); destruct Hc as [Hc1 Hc2]; [|by eapply doomed_external].
    destruct (SkipInv_state st (causingId cause) Hinv) as [(_ & _ & Hd)|[_ Hst']]; [by eapply doomed_step|].
    rewrite Hst' in Hc2. by eapply doomed_dead. }
  split; simpl.
  - rewrite okeys_oset; [apply Hinv|]. apply oget_is_Some. eauto.
  - apply NoDup_app. split; [apply Hinv|]. split; [|apply NoDup_singleton].
    intros x Hx Hx'. apply list_elem_of_singleton in Hx' as ->. done.
  - intros k. rewrite elem_of_app, list_elem_of_singleton. intros [Hin| ->].
    + rewrite oget_oset_ne; [by apply Hinv|]. intros <-. done.
    + split; [done|]. exists e, (skippedEntry engine e cause (now (length (skippedItemIds st)))).
      rewrite oget_oset_eq. split; [done|]. split; [done|]. exists it, cause, (now (length (skippedItemIds st))).
      split; [done|]. split; [done|]. split; [done|]. destruct (cause_kind cause); apply Hc.
  - intros k. rewrite elem_of_app, list_elem_of_singleton. intros Hn.
    rewrite oget_oset_ne; [apply Hinv; naive_solver|naive_solver].
Qed.

Lemma skipItems_inv its st :
  (∀ it, it ∈ its → it ∈ c_items c) → SkipInv st → SkipInv (foldl (skipItem ext now engine) st its).
Proof.
  revert st. induction its as [|it its IH]; intros st Hits Hst; [done|]. simpl. apply IH.
  - intros; apply Hits; by right.
  - apply skipItem_inv; [done|]. apply Hits. left.
Qed.

Lemma skipPass_inv st : SkipInv st → SkipInv (skipPass c ext now engine st).
Proof. intros [? ? ? ?]. apply skipItems_inv; [done|]. by split. Qed.

(** *** Termination *)

Definition skippables (its : obj LoopItemLedgerEntry) : nat :=
  length (filter (fun p => isSkippable (state p.2) = true) its).

Lemma skippables_oset its k e e' :
  oget its k = Some e → isSkippable (state e) = true → isSkippable (state e') = false →
  S (skippables (oset k e' its)) = skippables its.
Proof.
  intros Hg Hs Hs'. unfold skippables. revert Hg. induction its as [|[k1 e1] its IH]; simpl; [done|].
  case_decide; intros Hg; simplify_eq; rewrite !filter_cons; simpl.
  - repeat case_decide; simpl; congruence.
  - case_decide; simpl; rewrite <-(IH Hg); lia.
Qed.

Lemma skipItem_measure st it :
  let st' := skipItem ext now engine st it in
  st' = st ∨ (changed st' = true ∧ S (skippables (sk_items st')) = skippables (sk_items st)).
Proof.
  cbv zeta. unfold skipItem. destruct (oget (sk_items st) (ci_id it)) as [e|] eqn:He; [|by left].
  destruct (isSkippable (state e)) eqn:Hs; simpl; [|by left].
  destruct (findSkipCause it (sk_items st) ext) as [cause|]; [|by left].
  right. split; [done|]. by apply (skippables_oset _ _ e).
Qed.

Lemma skipItems_measure its st :
  let st' := foldl (skipItem ext now engine) st its in
  st' = st ∨ (changed st' = true ∧ (skippables (sk_items st') < skippables (sk_items st))%nat).
Proof.
  revert st. induction its as [|it its IH]; intros st; simpl; [by left|].
  destruct (IH (skipItem ext now engine st it)) as [->|[Hc Hlt]];
    destruct (skipItem_measure st it) as [Heq|[Hc' Hlt']]; rewrite ?Heq in *; auto; right; split; auto; lia.
Qed.

Lemma skipLoop_total fuel st :
  (skippables (sk_items st) < fuel)%nat → is_Some (skipLoop c ext now engine fuel st).
Proof.
  revert st. induction fuel as [|fuel IH]; intros st Hf; [lia|]. simpl.
  destruct (changed (skipPass c ext now engine st)) eqn:Hc; [|eauto]. apply IH.
  destruct (skipItems_measure (c_items c) (mkSkip (sk_items st) (skippedItemIds st) false)) as [He|[_ Hlt]].
  - unfold skipPass in Hc. by rewrite He in Hc.
  - unfold skipPass. simpl in Hlt. lia.
Qed.

(** *** The last pass found nothing to skip *)

Definition quiet (its : obj LoopItemLedgerEntry) (it : LoopContractItem) : Prop :=
  ∀ s, state_of its (ci_id it) = Some s → isSkippable s = true → findSkipCause it its ext = None.

Lemma skipItem_quiet st it :
  changed (skipItem ext now engine st it) = false → skipItem ext now engine st it = st ∧ quiet (sk_items st) it.
Proof.
  unfold skipItem, quiet, state_of. destruct (oget (sk_items st) (ci_id it)) as [e|] eqn:He; [|done].
  destruct (isSkippable (state e)) eqn:Hs; simpl; [|naive_solver congruence].
  destruct (findSkipCause it (sk_items st) ext) as [cause|] eqn:Hf; [done|]. done.
Qed.

Lemma skipItems_changed its st : changed st = true → changed (foldl (skipItem ext now engine) st its) = true.
Proof.
  revert st. induction its as [|it its IH]; intros st Hc; [done|]. simpl. apply IH.
  destruct (skipItem_measure st it) as [->|[? _]]; done.
Qed.

Lemma skipItems_quiet its st :
  changed (foldl (skipItem ext now engine) st its) = false →
  foldl (skipItem ext now engine) st its = st ∧ ∀ it, it ∈ its → quiet (sk_items st) it.
Proof.
  revert st. induction its as [|it its IH]; intros st; simpl.
  { intros _. split; [done|]. intros ? H. inversion H. }
  intros Hc. destruct (changed (skipItem ext now engine st it)) eqn:Hi.
  { by rewrite skipItems_changed in Hc. }
  apply skipItem_quiet in Hi as [Heq Hq]. rewrite Heq in *. destruct (IH st Hc) as [-> Hrest].
  split; [done|]. intros it' [->|Hin]%elem_of_cons; auto.
Qed.

Lemma skipLoop_spec fuel st st' :
  SkipInv st → skipLoop c ext now engine fuel st = Some st' →
  SkipInv st' ∧ ∀ it, it ∈ c_items c → quiet (sk_items st') it.
Proof.
  revert st. induction fuel as [|fuel IH]; intros st Hst; simpl; [done|].
  destruct (changed (skipPass c ext now engine st)) eqn:Hc.
  - apply IH. by apply skipPass_inv.
  - intros [= <-]. split; [by apply skipPass_inv|]. unfold skipPass in *.
    apply skipItems_quiet in Hc as [-> Hq]. done.
Qed.

Lemma skipLoop_doomed st :
  SkipInv st → (∀ it, it ∈ c_items c → quiet (sk_items st) it) →
  ∀ k, Doomed c l ext k → k ∈ skippedItemIds st.
Proof.
  intros Hinv Hq.
  assert (∀ it, it ∈ c_items c → Skippable l (ci_id it) → ci_id it ∉ skippedItemIds st →
                findSkipCause it (sk_items st) ext = None) as Hnone.
  { intros it Hit (s & Hs & Hk) Hni. apply (Hq it Hit s); [|done].
    destruct (SkipInv_state st (ci_id it) Hinv) as [[? _]|[_ ->]]; done. }
  assert (∀ d, Dead l d → isDeadState (state_of (sk_items st) d) = true) as Hdead.
  { intros d Hd. destruct (SkipInv_state st d Hinv) as [(_ & -> & _)|[_ ->]]; done. }
  induction 1 as [it d Hit Hs Hin Hd|it d Hit Hs Hin Hd IH|it x Hit Hs Hin Hx];
    destruct (decide (ci_id it ∈ skippedItemIds st)) as [|Hni]; try done; exfalso;
    destruct (findSkipCause_None _ _ _ (Hnone it Hit Hs Hni)) as [Hf1 Hf2].
  - specialize (Hf1 d Hin). by rewrite (Hdead d Hd) in Hf1.
  - specialize (Hf1 d Hin). destruct (SkipInv_state st d Hinv) as [(_ & Hst & _)|[? _]]; [|done].
    by rewrite Hst in Hf1.
  - by apply (Hf2 x Hin).
Qed.
End PropagationFacts.

Lemma propagate_inv c ext now engine l l' sk :
  propagateSkips c ext now engine l = Some (l', sk) →
  ∃ st, l' = with_items l (sk_items st) ∧ sk = skippedItemIds st ∧ SkipInv c ext engine l st ∧
        ∀ it, it ∈ c_items c → quiet ext (sk_items st) it.
Proof.
  unfold propagateSkips. intros H. apply bind_Some in H as (st & Hst & [= <- <-]). exists st.
  apply skipLoop_spec with (l := l) in Hst as [Hinv Hq]; [done|].
  split; simpl; [done|apply NoDup_nil_2| |done]. intros k Hk. inversion Hk.
Qed.

Lemma propagate_total c ext now engine l : is_Some (propagateSkips c ext now engine l).
Proof.
  unfold propagateSkips.
  destruct (skipLoop_total c ext now engine (S (length (items l))) (mkSkip (items l) [] true)) as [st ->];
    [|simpl; eauto].
  apply Nat.lt_succ_r. simpl. unfold skippables. apply length_filter.
Qed.

Lemma propagate_wf c ext now engine l l' sk :
  LedgerWF l → propagateSkips c ext now engine l = Some (l', sk) → LedgerWF l'.
Proof.
  intros [Hk Hi] H. apply propagate_inv in H as (st & -> & -> & Hinv & _).
  split; simpl; [by rewrite (si_keys _ _ _ _ _ Hinv)|]. intros k e He.
  destruct (decide (k ∈ skippedItemIds st)) as [Hin|Hni].
  - destruct (si_skipped _ _ _ _ _ Hinv k Hin) as (_ & e0 & e' & He0 & He' & Hr). simplify_eq.
    destruct Hr as (it & cause & time & _ & _ & -> & _). simpl. eauto.
  - rewrite (si_rest _ _ _ _ _ Hinv k Hni) in He. eauto.
Qed.

(** After propagation no skippable item has a dead prerequisite. *)
Lemma propagate_quiet c ext now engine l l' sk it :
  propagateSkips c ext now engine l = Some (l', sk) → it ∈ c_items c → Skippable l' (ci_id it) →
  findSkipCause it (items l') ext = None.
Proof.
  intros H Hit (s & Hs & Hk). apply propagate_inv in H as (st & -> & -> & _ & Hq). by apply (Hq it Hit s).
Qed.

Lemma skipItem_settled ext now engine st it : quiet ext (sk_items st) it → skipItem ext now engine st it = st.
Proof.
  unfold quiet, skipItem, state_of. intros Hq. destruct (oget (sk_items st) (ci_id it)) as [e|]; [|done].
  destruct (isSkippable (state e)) eqn:Hs; simpl; [|done]. by rewrite (Hq (state e)).
Qed.

Lemma propagate_settled c ext now engine l :
  (∀ it, it ∈ c_items c → quiet ext (items l) it) → propagateSkips c ext now engine l = Some (l, []).
Proof.
  intros Hq. unfold propagateSkips. cbn [skipLoop].
  assert (skipPass c ext now engine (mkSkip (items l) [] true) = mkSkip (items l) [] false) as ->.
  { unfold skipPass. simpl. revert Hq. generalize (c_items c). intros its. induction its as [|it its IH]; intros Hq.
    - done.
    - simpl. rewrite skipItem_settled; [|simpl; apply Hq; left]. apply IH. intros; apply Hq; by right. }
  simpl. by destruct l.
Qed.

(** ** Deadlock chains *)

Definition NonTerminal (l : LoopLedger) (i : string) : Prop :=
  ∃ s, state_of (items l) i = Some s ∧ isTerminalItemState s = false.

(** One edge an unfinished item waits on. *)
Inductive Waits (c : LoopContract) (l : LoopLedger) (ext : gmap string ExternalDependencyStatus)
    : LoopDeadlockChainEntry → Prop :=
| waits_missing it d :
    it ∈ c_items c → NonTerminal l (ci_id it) → d ∈ depends_on it → state_of (items l) d = None →
    Waits c l ext (mkDeadlock (ci_id it) d InRun "missing")
| waits_pending it d :
    it ∈ c_items c → NonTerminal l (ci_id it) → d ∈ depends_on it → state_of (items l) d = Some Pending →
    Waits c l ext (mkDeadlock (ci_id it) d InRun "pending")
| waits_external it x :
    it ∈ c_items c → NonTerminal l (ci_id it) → x ∈ default [] (external_depends_on it) →
    ext !! x ≠ Some Satisfied →
    Waits c l ext (mkDeadlock (ci_id it) x External (external_status_name (default ExtPending (ext !! x)))).

Lemma inRunWait_Some l i d e :
  inRunWait l i d = Some e ↔
  (state_of (items l) d = None ∧ e = mkDeadlock i d InRun "missing") ∨
  (state_of (items l) d = Some Pending ∧ e = mkDeadlock i d InRun "pending").
Proof. unfold inRunWait. destruct (state_of (items l) d) as [[]|]; naive_solver. Qed.

Lemma externalWait_Some ext i x e :
  externalWait ext i x = Some e ↔
  ext !! x ≠ Some Satisfied ∧ e = mkDeadlock i x External (external_status_name (default ExtPending (ext !! x))).
Proof. unfold externalWait. destruct (ext !! x) as [[]|]; naive_solver. Qed.

Lemma itemWaits_elem c l ext e :
  e ∈ (c_items c ≫= itemWaits l ext) ↔ Waits c l ext e.
Proof.
  rewrite list_elem_of_bind. unfold itemWaits. split.
  - intros (it & He & Hit). destruct (oget (items l) (ci_id it)) as [en|] eqn:Hg; [|inversion He].
    destruct (isTerminalItemState (state en)) eqn:Ht; [inversion He|].
    assert (NonTerminal l (ci_id it)) by (exists (state en); unfold state_of; by rewrite Hg).
    rewrite elem_of_app, !list_elem_of_omap in He. destruct He as [(d & Hd & He)|(x & Hx & He)].
    + apply inRunWait_Some in He as [[? ->]|[? ->]]; by econstructor.
    + apply externalWait_Some in He as [? ->]. by econstructor.
  - assert (∀ it, NonTerminal l (ci_id it) → ∃ en, oget (items l) (ci_id it) = Some en ∧
              isTerminalItemState (state en) = false) as Hnt.
    { intros it (s & Hs & Ht). unfold state_of in Hs. apply fmap_Some in Hs as (en & He & ->). eauto. }
    intros Hw. destruct Hw as [it d Hit Hn Hd Hs|it d Hit Hn Hd Hs|it x Hit Hn Hx Hs]; exists it; split; try done;
      destruct (Hnt it Hn) as (en & -> & ->); rewrite elem_of_app, !list_elem_of_omap.
    + left. exists d. rewrite inRunWait_Some. auto.
    + left. exists d. rewrite inRunWait_Some. auto.
    + right. exists x. rewrite externalWait_Some. auto.
Qed.

Lemma detect_cases sha c l ext r :
  LedgerWF l → NoDup (item_ids c) → detectDependencyDeadlock sha c l ext = Ok r →
  match r with
  | Some chain => anyInProgress l = false ∧ frontier c l ext = [] ∧ chain ≠ [] ∧ ∀ e, e ∈ chain ↔ Waits c l ext e
  | None => anyInProgress l = true ∨ frontier c l ext ≠ [] ∨ ∀ e, ¬ Waits c l ext e
  end.
Proof.
  intros Hwf Hnd. unfold detectDependencyDeadlock. destruct (anyInProgress l) eqn:Ha; [intros [= <-]; by left|].
  destruct (eligibleIndependentItems sha c l ext) as [fr|] eqn:Hf; cbn [rbind]; [|done].
  apply eligible_frontier in Hf as ->; [|done..].
  destruct (frontier c l ext) eqn:Hfr; [|intros [= <-]; by right; left].
  pose proof (itemWaits_elem c l ext) as Hw. destruct (c_items c ≫= itemWaits l ext) as [|e0 chain].
  - intros [= <-]. right; right. intros e. rewrite <-Hw. apply not_elem_of_nil.
  - intros [= <-]. auto.
Qed.

(** ** A pending item is never stuck silently *)

(** The in-run dependency states with a resolution path of their own. *)
Definition isHeldState (s : LoopItemState) : bool :=
  match s with Blocked | Implemented | PrOpened | Paused | Waiting => true | _ => false end.

Lemma state_partition s :
  s = Pending ∨ s = InProgress ∨ isDeadState (Some s) = true ∨ isDoneState s = true ∨ isHeldState s = true.
Proof. destruct s; simpl; auto. Qed.

(** The first element with a decidable property. *)
Lemma first_such {A} (P : A → Prop) `{∀ x, Decision (P x)} l x :
  x ∈ l → P x → ∃ l1 y l2, l = l1 ++ y :: l2 ∧ P y ∧ ∀ z, z ∈ l1 → ¬ P z.
Proof.
  intros Hin HP. destruct (list_find_elem_of P l x Hin HP) as [[n y] Hf].
  apply list_find_Some in Hf as (Hy & HPy & Hbefore).
  exists (take n l), y, (drop (S n) l). split; [by rewrite take_drop_middle|]. split; [done|].
  intros z Hz. apply list_elem_of_lookup in Hz as [m Hm].
  pose proof (lookup_lt_Some _ _ _ Hm) as Hlt. rewrite length_take in Hlt.
  rewrite lookup_take_lt in Hm by lia. eapply Hbefore; [done|lia].
Qed.

Section Stall.
Context (c : LoopContract) (ext : gmap string ExternalDependencyStatus) (l : LoopLedger).
Context (wf : LedgerWF l) (ids : NoDup (item_ids c)) (order : topological (c_items c)).
Context (covered : ∀ it, it ∈ c_items c → ∃ s, state_of (items l) (ci_id it) = Some s).
Context (settled : ∀ it, it ∈ c_items c → Skippable l (ci_id it) → findSkipCause it (items l) ext = None).
Context (running : hardStopped l = false) (idle : anyInProgress l = false).

(** The first pending item waits only on items that are done or held. *)
Lemma first_pending i :
  i ∈ item_ids c → state_of (items l) i = Some Pending →
  ∃ it, it ∈ c_items c ∧ state_of (items l) (ci_id it) = Some Pending ∧
    ∀ d, d ∈ depends_on it → ∃ s, state_of (items l) d = Some s ∧ (isDoneState s = true ∨ isHeldState s = true).
Proof.
  intros Hi Hp. apply list_elem_of_fmap in Hi as (it0 & -> & Hit0).
  destruct (first_such (fun it => state_of (items l) (ci_id it) = Some Pending) _ it0 Hit0 Hp)
    as (l1 & it & l2 & Hl & Hpi & Hbefore).
  assert (it ∈ c_items c) as Hit by (rewrite Hl; set_solver). exists it. split; [done|]. split; [done|].
  intros d Hd. pose proof (order _ _ _ Hl d Hd) as Hd1. apply list_elem_of_fmap in Hd1 as (it1 & -> & Hit1).
  destruct (covered it1) as [s Hs]; [rewrite Hl; set_solver|]. exists s. split; [done|].
  assert (Skippable l (ci_id it)) as Hsk by by exists Pending.
  destruct (findSkipCause_None _ _ _ (settled it Hit Hsk)) as [Hdead _]. specialize (Hdead _ Hd).
  rewrite Hs in Hdead. destruct (state_partition s) as [->|[->|[Hx|Hx]]]; [| |congruence|done].
  - by destruct (Hbefore it1 Hit1).
  - exfalso. by eapply (proj1 (anyInProgress_false l wf) idle).
Qed.

Lemma stalled_why i :
  i ∈ item_ids c → state_of (items l) i = Some Pending → frontier c l ext = [] → (∀ e, ¬ Waits c l ext e) →
  ∃ it, it ∈ c_items c ∧ state_of (items l) (ci_id it) = Some Pending ∧
    (exhaustedItem l = Some (ci_id it) ∨
     ∃ d s, d ∈ depends_on it ∧ state_of (items l) d = Some s ∧ isHeldState s = true).
Proof.
  intros Hi Hp Hfr Hw. destruct (first_pending i Hi Hp) as (it & Hit & Hpi & Hdeps).
  exists it. split; [done|]. split; [done|].
  destruct (decide (exhaustedItem l = Some (ci_id it))) as [|Hx]; [by left|right].
  destruct (existsb (fun d => match state_of (items l) d with Some s => isHeldState s | None => false end)
    (depends_on it)) eqn:Hh.
  { apply existsb_elem in Hh as (d & Hd & Hh). destruct (Hdeps d Hd) as (s & Hs & _). rewrite Hs in Hh. by exists d, s. }
  rewrite existsb_not_elem in Hh.
  exfalso. assert (ci_id it ∈ frontier c l ext) as Hin; [|rewrite Hfr in Hin; inversion Hin].
  apply frontier_elem; [done..|]. exists it. split; [done|]. split; try done.
  - by apply anyInProgress_false.
  - intros d Hd. destruct (Hdeps d Hd) as (s & Hs & [Hdone|Hheld]); [by exists s|].
    specialize (Hh d Hd). rewrite Hs in Hh. congruence.
  - intros x Hx'. destruct (decide (ext !! x = Some Satisfied)) as [|Hn]; [done|].
    destruct (Hw _ (waits_external c l ext it x Hit (ex_intro _ Pending (conj Hpi eq_refl)) Hx' Hn)).
Qed.
End Stall.

(** ** Issue numbers *)

Lemma digit_range a : isDigit a = true → (0 <= Z.of_nat (nat_of_ascii a) - 48 <= 9)%Z.
Proof.
  unfold isDigit. rewrite andb_true_iff, !Nat.leb_le. lia.
Qed.

Lemma digit_inj a b :
  (Z.of_nat (nat_of_ascii a) - 48 = Z.of_nat (nat_of_ascii b) - 48)%Z → a = b.
Proof.
  intros H. rewrite <-(ascii_nat_embedding a), <-(ascii_nat_embedding b). f_equal. lia.
Qed.

Lemma decimal_snoc l a : decimalValue (l ++ [a]) = (decimalValue l * 10 + (Z.of_nat (nat_of_ascii a) - 48))%Z.
Proof. unfold decimalValue. by rewrite foldl_app. Qed.

Lemma decimal_nonneg l : forallb isDigit l = true → (0 <= decimalValue l)%Z.
Proof.
  induction l as [|a l IH] using rev_ind; [done|]. rewrite forallb_app, decimal_snoc. simpl.
  rewrite !andb_true_iff. intros (Hl & Ha & _). apply digit_range in Ha. specialize (IH Hl). lia.
Qed.

(** A canonical digit list: not empty, no leading zero. *)
Definition canonicalDigits (l : list ascii) : Prop :=
  forallb isDigit l = true ∧ (∃ a, head l = Some a ∧ a ≠ "0"%char).

Lemma canonical_spec s : isCanonicalIssueId s = true ↔ canonicalDigits (chars s).
Proof.
  unfold isCanonicalIssueId, canonicalDigits. destruct (chars s) as [|a l]; simpl; [naive_solver|].
  rewrite !andb_true_iff, negb_true_iff, bool_decide_eq_false. naive_solver.
Qed.

Lemma canonical_pos l : canonicalDigits l → (0 < decimalValue l)%Z.
Proof.
  induction l as [|a l IH] using rev_ind; [intros (_ & ? & ? & _); done|].
  intros (Hd & b & Hb & Hne). rewrite forallb_app in Hd. simpl in Hd. rewrite !andb_true_iff in Hd.
  destruct Hd as (Hl & Ha & _). apply digit_range in Ha. rewrite decimal_snoc. destruct l as [|b' l].
  - simpl in *. simplify_eq. assert (Z.of_nat (nat_of_ascii b) - 48 ≠ 0)%Z; [|unfold decimalValue; simpl; lia].
    intros H0. apply Hne. apply digit_inj. rewrite H0. done.
  - assert (0 < decimalValue (b' :: l))%Z; [|lia]. apply IH. split; [done|]. by exists b.
Qed.

Lemma canonical_init l a : canonicalDigits (l ++ [a]) → l ≠ [] → canonicalDigits l.
Proof.
  intros (Hd & b & Hb & Hne) Hl. rewrite forallb_app, andb_true_iff in Hd. split; [apply Hd|].
  exists b. split; [|done]. by destruct l.
Qed.

Lemma decimal_inj l : ∀ l', canonicalDigits l → canonicalDigits l' → decimalValue l = decimalValue l' → l = l'.
Proof.
  induction l as [|a l IH] using rev_ind; intros l' Hl Hl'; [by destruct Hl as (_ & ? & ? & _)|].
  destruct l' as [|a' l' _] using rev_ind; [by destruct Hl' as (_ & ? & ? & _)|].
  rewrite !decimal_snoc. intros Heq.
  assert (isDigit a = true ∧ isDigit a' = true) as [Ha Ha'].
  { destruct Hl as [Hl _], Hl' as [Hl' _]. rewrite forallb_app in Hl, Hl'. simpl in *.
    rewrite !andb_true_iff in *. naive_solver. }
  pose proof (digit_range a Ha). pose proof (digit_range a' Ha').
  assert (decimalValue l = decimalValue l') as Hv by lia.
  assert (a = a') as -> by (apply digit_inj; lia). f_equal.
  destruct (decide (l = [])) as [->|Hne], (decide (l' = [])) as [->|Hne']; [done|..].
  - pose proof (canonical_pos l' (canonical_init _ _ Hl' Hne')). change (decimalValue []) with 0%Z in *. lia.
  - pose proof (canonical_pos l (canonical_init _ _ Hl Hne)). change (decimalValue []) with 0%Z in *. lia.
  - apply IH; [by eapply canonical_init..|done].
Qed.

Lemma num_inj a b : num a = num b → a = b.
Proof.
  unfold num. intros H. apply QArith_base.inject_Z_injective, Qcanon.Q2Qc_eq_iff. congruence.
Qed.

Lemma Number_exact s : (decimalValue (chars s) < 2 ^ 53)%Z → Number s = num (decimalValue (chars s)).
Proof. intros H. unfold Number, roundDouble. by rewrite (proj2 (Z.ltb_lt _ _) H). Qed.

(** ** Statuses *)

Section StatusFacts.
Context {E : Type} (d : ReconcileObserveDeps E).

(** What live truth says of the issue numbered [n]. *)
Definition issueClosedAs (n : jsnum) (r : StateReason) : Prop :=
  getExternalDependencyIssueState d n = Ok (Some (mkIssueObs IssueClosed (Some r))).
Definition prMerged (n : jsnum) : Prop :=
  ∃ pr, findPrForIssue d n = Ok (Some pr) ∧ getPrDetail d pr = Ok (Some PrStateMerged).

Lemma observeStatus_spec i s :
  observeStatus d i = Ok s →
  (s = Satisfied ↔ issueClosedAs (Number i) Completed ∨ prMerged (Number i)) ∧
  (s = Unsatisfiable ↔ issueClosedAs (Number i) NotPlanned ∧ ¬ prMerged (Number i)).
Proof.
  unfold observeStatus, issueClosedAs. intros H.
  destruct (getExternalDependencyIssueState d (Number i)) as [o|]; cbn [rbind] in H; [|done].
  assert (∃ b, externalDependencyStatus o b = s ∧ (b = true ↔ prMerged (Number i))) as (b & <- & Hb).
  { unfold prMerged. destruct (findPrForIssue d (Number i)) as [[pr|]|]; cbn [rbind] in H; [| |done].
    - destruct (getPrDetail d pr) as [p|] eqn:Hd; cbn [rbind] in H; [|done]. injection H as <-.
      eexists. split; [done|]. rewrite bool_decide_eq_true. split; [intros ->; eauto|].
      intros (pr' & [= <-] & ?). congruence.
    - injection H as <-. exists false. split; [done|]. split; [done|]. by intros (? & ? & ?). }
  assert (∀ r, Ok (E := E) o = Ok (Some (mkIssueObs IssueClosed (Some r))) ↔ o = Some (mkIssueObs IssueClosed (Some r)))
    as Ho by (intros; split; congruence). rewrite !Ho, <-Hb. clear.
  destruct b, o as [[[] [[]|]]|]; simpl; intuition congruence.
Qed.

Lemma statuses_inv ids m :
  rfold (statusStep d) ∅ ids = Ok m →
  ∀ i s, m !! i = Some s → i ∈ ids ∧
    (if isCanonicalIssueId i then observeStatus d i = Ok s else s = ExtPending).
Proof.
  intros H. apply (rfold_ind (statusStep d) (fun m => ∀ i s, m !! i = Some s → i ∈ ids ∧
    (if isCanonicalIssueId i then observeStatus d i = Ok s else s = ExtPending)) ids ∅ m); [done| |done].
  clear m H. intros m j m' Hj Hm H i s Hs. unfold statusStep in H.
  destruct (decide (i = j)) as [->|Hne].
  - destruct (isCanonicalIssueId j).
    + inv_bind H. injection H as <-. rewrite lookup_insert_eq in Hs. by simplify_eq.
    + injection H as <-. rewrite lookup_insert_eq in Hs. by simplify_eq.
  - apply Hm. destruct (isCanonicalIssueId j).
    + inv_bind H. injection H as <-. by rewrite lookup_insert_ne in Hs.
    + injection H as <-. by rewrite lookup_insert_ne in Hs.
Qed.

Lemma statuses_total ids m : rfold (statusStep d) ∅ ids = Ok m → ∀ i, i ∈ ids → is_Some (m !! i).
Proof.
  intros H. apply (rfold_each (statusStep d) (fun _ => True) (fun i m => is_Some (m !! i)) ids ∅ m);
    [done| | |done].
  - intros m1 i m2 _ _. unfold statusStep. destruct (isCanonicalIssueId i).
    + intros H1. inv_bind H1. injection H1 as <-. rewrite lookup_insert_eq. eauto.
    + intros [= <-]. rewrite lookup_insert_eq. eauto.
  - intros m1 i j m2 _ _ Hj. unfold statusStep. intros H1.
    assert (∃ s, m2 = <[i := s]> m1) as [s ->].
    { destruct (isCanonicalIssueId i); [inv_bind H1|]; injection H1 as <-; eauto. }
    destruct (decide (i = j)) as [->|]; [rewrite lookup_insert_eq; eauto|by rewrite lookup_insert_ne].
Qed.
End StatusFacts.

(** ** Properties *)

(** C6. Skip propagation terminates on every ledger and computes exactly the
    doomed items, whatever the order and shape of the contract: each is
    skipped once, keeps its entry and gains one history record naming a
    declared prerequisite; every other entry, the key order and the rest of
    the ledger are untouched. *)
Theorem propagation_exact c ext now engine l :
  ∃ l' sk, propagateSkips c ext now engine l = Some (l', sk) ∧
    NoDup sk ∧ (∀ k, k ∈ sk ↔ Doomed c l ext k) ∧
    l' = with_items l (items l') ∧ okeys (items l') = okeys (items l) ∧
    (∀ k, ¬ Doomed c l ext k → oget (items l') k = oget (items l) k) ∧
    (∀ k, Doomed c l ext k →
       ∃ e e', oget (items l) k = Some e ∧ oget (items l') k = Some e' ∧ skip_record c engine k e e').
Proof.
  destruct (propagate_total c ext now engine l) as [[l' sk] H]. exists l', sk. split; [done|].
  apply propagate_inv in H as (st & -> & -> & Hinv & Hq).
  assert (∀ k, k ∈ skippedItemIds st ↔ Doomed c l ext k) as Hiff.
  { intros k. split; [intros Hk; by apply (si_skipped _ _ _ _ _ Hinv)|].
    by apply (skipLoop_doomed c ext engine l). }
  split; [apply Hinv|]. split; [done|]. split; [done|]. split; [apply Hinv|]. split.
  - intros k Hk. apply (si_rest _ _ _ _ _ Hinv). by rewrite Hiff.
  - intros k Hk. apply Hiff in Hk. by apply (si_skipped _ _ _ _ _ Hinv).
Qed.

(** One propagation settles the ledger: a second one, at any later time and
    by any engine, skips nothing and returns the same ledger. *)
Theorem propagation_settles c ext now engine now' engine' l l' sk :
  propagateSkips c ext now engine l = Some (l', sk) →
  propagateSkips c ext now' engine' l' = Some (l', []).
Proof.
  intros H. apply propagate_settled. apply propagate_inv in H as (st & -> & -> & _ & Hq). exact Hq.
Qed.

(** A reported deadlock is real and complete: nothing runs, nothing is
    eligible, and the chain lists exactly the edges unfinished items wait on;
    no report means that something runs, something is eligible or no unfinished
    item waits on a pending, missing or unsatisfied dependency. *)
Theorem deadlock_exact sha c l ext r :
  LedgerWF l → NoDup (item_ids c) → detectDependencyDeadlock sha c l ext = Ok r →
  match r with
  | Some chain =>
      (∀ k, state_of (items l) k ≠ Some InProgress) ∧ (∀ it, ¬ Eligible c l ext it) ∧
      chain ≠ [] ∧ ∀ e, e ∈ chain ↔ Waits c l ext e
  | None =>
      (∃ k, state_of (items l) k = Some InProgress) ∨ (∃ it, Eligible c l ext it) ∨ ∀ e, ¬ Waits c l ext e
  end.
Proof.
  intros Hwf Hnd H. apply detect_cases in H; [|done..]. destruct r as [chain|].
  - destruct H as (Ha & Hf & Hne & Hw). split; [by apply anyInProgress_false|]. split; [|done].
    intros it He. assert (ci_id it ∈ frontier c l ext) as Hin by (apply frontier_elem; eauto).
    rewrite Hf in Hin. inversion Hin.
  - destruct H as [Ha|[Hf|Hw]]; [left| |auto].
    + unfold anyInProgress in Ha. apply existsb_elem in Ha as (e & He & Hs). apply bool_decide_eq_true in Hs.
      destruct (proj1 (values_states l (.= InProgress) Hwf)) as (k & s & Hk & ->); eauto.
    + right; left. destruct (frontier c l ext) as [|x fr] eqn:E; [done|].
      destruct (proj1 (frontier_elem c l ext x Hnd Hwf)) as (it & _ & He); [rewrite E; left|eauto].
Qed.

(** C7. A run never stalls without saying why.  On a compiled contract, after
    propagation and while no hard stop is in force, a pending item implies that
    an item is running, that an item is eligible, that a deadlock is reported,
    or that some pending item is the one a mechanical stop names or waits on an
    item that is blocked, implemented, [pr_opened], paused or waiting. *)
Theorem no_silent_stall sha raws c l ext now engine l' sk r i :
  compileContractItems raws = Ok (c_items c) → LedgerWF l →
  (∀ it, it ∈ c_items c → ci_id it ∈ okeys (items l)) → hardStopped l = false →
  propagateSkips c ext now engine l = Some (l', sk) → detectDependencyDeadlock sha c l' ext = Ok r →
  i ∈ item_ids c → state_of (items l') i = Some Pending →
  (∃ k, state_of (items l') k = Some InProgress) ∨ (∃ it, Eligible c l' ext it) ∨ is_Some r ∨
  ∃ it, it ∈ c_items c ∧ state_of (items l') (ci_id it) = Some Pending ∧
    (exhaustedItem l' = Some (ci_id it) ∨
     ∃ d s, d ∈ depends_on it ∧ state_of (items l') d = Some s ∧ isHeldState s = true).
Proof.
  intros Hc Hwf Hcov Hrun Hp Hd Hi Hpi. pose proof (propagate_wf _ _ _ _ _ _ _ Hwf Hp) as Hwf'.
  assert (NoDup (item_ids c)) as Hnd.
  { unfold item_ids. rewrite (compile_ids _ _ Hc). by apply compile_inv in Hc as [? _]. }
  destruct r as [chain|]; [eauto|]. pose proof Hd as Hd'. apply detect_cases in Hd'; [|done..].
  destruct (anyInProgress l') eqn:Ha.
  { left. apply existsb_elem in Ha as (e & He & Hs). apply bool_decide_eq_true in Hs.
    destruct (proj1 (values_states l' (.= InProgress) Hwf')) as (k & s & Hk & ->); eauto. }
  destruct (frontier c l' ext) as [|x fr] eqn:Hf.
  2: { right; left. destruct (proj1 (frontier_elem c l' ext x Hnd Hwf')) as (it & _ & He); [rewrite Hf; left|eauto]. }
  destruct Hd' as [?|[?|Hw]]; [done..|]. right; right; right.
  pose proof Hp as Hq. apply propagate_inv in Hq as (st & Hl' & _ & Hinv & _).
  apply (stalled_why c ext l' Hwf' Hnd (compile_topological _ _ Hc)) with (i := i); try done.
  - intros it Hit. specialize (Hcov it Hit). rewrite <-(si_keys _ _ _ _ _ Hinv) in Hcov.
    apply oget_is_Some in Hcov as [e He]. exists (state e). rewrite Hl'. unfold state_of. simpl. by rewrite He.
  - intros it Hit Hs. by eapply propagate_quiet.
  - by rewrite Hl'.
Qed.

(** External dependencies fail closed: every declared one is classified;
    only live evidence of completion or of a merged pull request satisfies it,
    only an issue closed as not planned without one dooms it, and an id that is
    not a canonical issue number stays pending whatever the seam would say. *)
Theorem external_fail_closed {E} (d : ReconcileObserveDeps E) c statuses :
  computeExternalDependencyStatuses d c = Ok statuses →
  (∀ it x, it ∈ c_items c → x ∈ default [] (external_depends_on it) → is_Some (statuses !! x)) ∧
  ∀ x s, statuses !! x = Some s →
    if isCanonicalIssueId x then
      (s = Satisfied ↔ issueClosedAs d (Number x) Completed ∨ prMerged d (Number x)) ∧
      (s = Unsatisfiable ↔ issueClosedAs d (Number x) NotPlanned ∧ ¬ prMerged d (Number x))
    else s = ExtPending.
Proof.
  intros H. split.
  - intros it x Hit Hx. eapply statuses_total; [exact H|]. apply dedup_elem. split; [|apply not_elem_of_nil].
    apply list_elem_of_bind. eauto.
  - intros x s Hs. apply (statuses_inv d _ _ H) in Hs as [_ Hs]. destruct (isCanonicalIssueId x); [|done].
    by apply observeStatus_spec.
Qed.

(** Below [2 ^ 53] the numeric conversion is exact and injective on
    canonical ids: two distinct dependencies are never verified against the
    same issue.  (From [2 ^ 53] on, neighbouring ids do share a number.) *)
Theorem issue_numbers_distinct a b :
  isCanonicalIssueId a = true → isCanonicalIssueId b = true →
  (decimalValue (chars a) < 2 ^ 53)%Z → (decimalValue (chars b) < 2 ^ 53)%Z →
  Number a = Number b ↔ a = b.
Proof.
  rewrite !canonical_spec. intros Ha Hb Hla Hlb. split; [|by intros ->]. rewrite !Number_exact by done. intros H%num_inj.
  apply (decimal_inj _ _ Ha Hb) in H. apply (f_equal unchars) in H.
  by rewrite !String.string_of_list_ascii_of_string in H.
Qed.

(** Beyond [2 ^ 53] two canonical ids are verified against one issue. *)
Example large_ids_alias :
  isCanonicalIssueId "9007199254740993" = true ∧
  Number "9007199254740993" = Number "9007199254740992".
Proof. split; vm_compute; reflexivity. Qed.

(** ** Samples *)

Module DependencySample.
Import FrontierSample.

Definition raws : list RawContractItem :=
  [mkRaw "3" (Some ["2"]); mkRaw "1" None; mkRaw "2" (Some ["1"]); mkRaw "4" (Some ["77"]);
   mkRaw "5" (Some ["78"]); mkRaw "6" (Some ["4"])].
Definition contract : LoopContract :=
  mkContract "run" None Claude None
    [item "1" [] []; item "2" ["1"] []; item "3" ["2"] []; item "4" [] ["77"]; item "5" [] ["78"];
     item "6" ["4"] []] None [].

(** Item 1 was abandoned: 2 and 3 are doomed; issue 78 was closed as not
    planned: 5 is doomed; issue 77 is open: 4 waits, and 6 on 4. *)
Definition start : LoopLedger :=
  ledger [entry "1" Abandoned None; entry "2" Pending None; entry "3" Blocked None; entry "4" Pending None;
          entry "5" Pending None; entry "6" Pending None].
Definition seam : ReconcileObserveDeps unit :=
  mkObserveDeps unit
    (fun n => Ok (if decide (n = num 77) then Some (mkIssueObs IssueOpen None)
                  else if decide (n = num 78) then Some (mkIssueObs IssueClosed (Some NotPlanned)) else None))
    (fun n => Ok (if decide (n = num 77) then Some (num 500) else None))
    (fun _ => Ok (Some PrStateOpen)).
Definition statuses : gmap string ExternalDependencyStatus :=
  <["77" := ExtPending]> (<["78" := Unsatisfiable]> ∅).
Definition clock (n : nat) : string := "t".

Example statuses_observed : computeExternalDependencyStatuses seam contract = Ok statuses.
Proof. vm_compute. reflexivity. Qed.

Definition settledLedger : LoopLedger :=
  match propagateSkips contract statuses clock Claude start with Some (l', _) => l' | None => start end.

Definition chain : list LoopDeadlockChainEntry :=
  [mkDeadlock "4" "77" External "pending"; mkDeadlock "6" "4" InRun "pending"].

Lemma start_wf : LedgerWF start.
Proof. apply LedgerWF_check; [by apply (bool_decide_unpack _); vm_compute|by vm_compute]. Defined.
Lemma settled_wf : LedgerWF settledLedger.
Proof. apply LedgerWF_check; [by apply (bool_decide_unpack _); vm_compute|by vm_compute]. Defined.
Lemma ids_distinct : NoDup (item_ids contract).
Proof. by apply (bool_decide_unpack _); vm_compute. Defined.

Example propagation_run :
  propagateSkips contract statuses clock Claude start = Some (settledLedger, ["2"; "3"; "5"]).
Proof. vm_compute. reflexivity. Qed.
End DependencySample.

Lemma propagation_settles_witness :
  propagateSkips DependencySample.contract DependencySample.statuses DependencySample.clock Codex
    DependencySample.settledLedger = Some (DependencySample.settledLedger, []).
Proof.
  apply (propagation_settles _ _ DependencySample.clock Claude DependencySample.clock Codex
           DependencySample.start _ ["2"; "3"; "5"]). vm_compute. reflexivity.
Defined.

Lemma deadlock_exact_witness :
  detectDependencyDeadlock (fun s => s) DependencySample.contract DependencySample.settledLedger
    DependencySample.statuses = Ok (Some DependencySample.chain) ∧
  (∀ it, ¬ Eligible DependencySample.contract DependencySample.settledLedger DependencySample.statuses it).
Proof.
  assert (detectDependencyDeadlock (fun s => s) DependencySample.contract DependencySample.settledLedger
    DependencySample.statuses = Ok (Some DependencySample.chain)) as H by (vm_compute; reflexivity).
  split; [exact H|].
  apply (deadlock_exact _ _ _ _ _ DependencySample.settled_wf DependencySample.ids_distinct H).
Defined.

Lemma no_silent_stall_witness :
  (∃ k, state_of (items DependencySample.settledLedger) k = Some InProgress) ∨
  (∃ it, Eligible DependencySample.contract DependencySample.settledLedger DependencySample.statuses it) ∨
  is_Some (Some DependencySample.chain) ∨
  ∃ it, it ∈ c_items DependencySample.contract ∧
    state_of (items DependencySample.settledLedger) (ci_id it) = Some Pending ∧
    (exhaustedItem DependencySample.settledLedger = Some (ci_id it) ∨
     ∃ d s, d ∈ depends_on it ∧ state_of (items DependencySample.settledLedger) d = Some s ∧
            isHeldState s = true).
Proof.
  apply (no_silent_stall (fun s => s) DependencySample.raws _ DependencySample.start _ DependencySample.clock
           Claude _ ["2"; "3"; "5"] _ "4").
  - vm_compute. reflexivity.
  - exact DependencySample.start_wf.
  - intros it Hit. unfold DependencySample.contract in Hit. simpl in Hit.
    repeat (apply elem_of_cons in Hit as [->|Hit]; [by apply (bool_decide_unpack _); vm_compute|]).
    inversion Hit.
  - vm_compute. reflexivity.
  - vm_compute. reflexivity.
  - vm_compute. reflexivity.
  - by apply (bool_decide_unpack _); vm_compute.
  - vm_compute. reflexivity.
Defined.

Lemma external_fail_closed_witness :
  is_Some (DependencySample.statuses !! "77") ∧
  (ExtPending = Satisfied ↔ issueClosedAs DependencySample.seam (Number "77") Completed ∨
                            prMerged DependencySample.seam (Number "77")).
Proof.
  assert (computeExternalDependencyStatuses DependencySample.seam DependencySample.contract =
          Ok DependencySample.statuses) as H by (vm_compute; reflexivity).
  split; [by eexists|].
  apply (proj2 (external_fail_closed DependencySample.seam DependencySample.contract _ H) "77" ExtPending).
  reflexivity.
Defined.

Lemma issue_numbers_distinct_witness : Number "1234" = Number "1235" ↔ "1234" = "1235" :> string.
Proof. apply (issue_numbers_distinct "1234" "1235"); vm_compute; reflexivity. Defined.
