(* ===== verification/Schedule.v ===== *)
(** * The independent-set scheduler

    [core/scripts/loop/schedule.ts]: the dependency-path test, the rationale of
    dependency-blocked items, the admission loop of [selectSchedulableSet] and
    the changed-file overlap check that backs it up after a run. *)

From Stdlib Require Import ZArith QArith Qcanon Qround.
From stdpp Require Import numbers base gmap fin_sets strings list relations sorting.
From S2P Require Import Prelude LoopTypes ContractCompile Ownership Lifecycle RecoveryPolicy Frontier.
Local Open Scope result_scope.
Local Open Scope nat_scope.

(** ** Decisions *)

Inductive ScheduleDisposition :=
| ItemAdmitted
| DependencyPath
| ConflictEdge
| UnknownOwner
| UnresolvedDrift
| MergeBarrier
| BudgetTruncation.

#[export] Instance schedule_disposition_eq_dec : EqDecision ScheduleDisposition.
Proof. solve_decision. Defined.

Record ScheduleRationale := mkRationale {
  r_item_id : string;
  disposition : ScheduleDisposition;
  r_counterpart : option string;
  r_detail : option string;
}.

#[export] Instance schedule_rationale_eq_dec : EqDecision ScheduleRationale.
Proof. solve_decision. Defined.

Record ScheduleDecision := mkDecision {
  selected : list string;
  rationale : list ScheduleRationale;
}.

(** [new Map(contract.items.map((item) => [item.id, item]))]. *)
Definition itemsById (c : LoopContract) : gmap string LoopContractItem :=
  js_map ((fun it => (ci_id it, it)) <$> c_items c).

(** ** Dependency paths *)

(** The inner [for] of [dependsTransitively]; [None] is [return true].  The top
    of the stack is the head of the list. *)
Fixpoint pushDeps (to : string) (deps : list string) (visited : gset string) (stack : list string)
    : option (gset string * list string) :=
  match deps with
  | [] => Some (visited, stack)
  | dep :: deps' =>
      if decide (dep = to) then None
      else if decide (dep ∈ visited) then pushDeps to deps' visited stack
      else pushDeps to deps' ({[dep]} ∪ visited) (dep :: stack)
  end.

Section Paths.
Context (m : gmap string LoopContractItem).

(** The [while] loop; [None] only when the fuel runs out. *)
Fixpoint dependsLoop (fuel : nat) (to : string) (visited : gset string) (stack : list string) : option bool :=
  match fuel with
  | O => None
  | S fuel' =>
      match stack with
      | [] => Some false
      | current :: stack' =>
          match pushDeps to (depsOf m current) visited stack' with
          | None => Some true
          | Some (visited', stack'') => dependsLoop fuel' to visited' stack''
          end
      end
  end.

(** Every dependency any item declares. *)
Definition allDeps : list string := (map_to_list m).*2 ≫= depends_on.

(** A dependency is pushed once: the declared dependencies bound the passes. *)
Definition dependsTransitively (from to : string) : bool :=
  default false (dependsLoop (S (S (size (list_to_set (C := gset string) allDeps)))) to ∅ [from]).

Definition hasDependencyPath (a b : string) : bool := dependsTransitively a b || dependsTransitively b a.
End Paths.

(** ** The rationale of dependency-blocked items *)

Section Blocked.
Context (c : LoopContract) (l : LoopLedger).

(** [depEntry === undefined || !DONE_STATES.has(depEntry.state)]. *)
Definition notDone (d : string) : bool :=
  match state_of (items l) d with Some s => negb (isDoneState s) | None => true end.

(** The breadth-first walk of one pending item. *)
Fixpoint blockedWalk (fuel : nat) (i : string) (visited : gset string) (queue : list string)
    : option (list ScheduleRationale) :=
  match fuel with
  | O => None
  | S fuel' =>
      match queue with
      | [] => Some []
      | dep :: queue' =>
          if decide (dep ∈ visited) then blockedWalk fuel' i visited queue'
          else
            rest ← blockedWalk fuel' i ({[dep]} ∪ visited) (queue' ++ depsOf (itemsById c) dep);
            Some (if notDone dep then mkRationale i DependencyPath (Some dep) None :: rest else rest)
      end
  end.

(** Every visited dependency enqueues its own dependencies once. *)
Definition walkFuel (queue : list string) : nat :=
  S (length queue + length (c_items c ≫= depends_on)).

Definition itemBlockedRationale (it : LoopContractItem) : list ScheduleRationale :=
  if decide (state_of (items l) (ci_id it) = Some Pending) then
    default [] (blockedWalk (walkFuel (depends_on it)) (ci_id it) ∅ (depends_on it))
  else [].

Definition dependencyBlockedRationale : list ScheduleRationale := c_items c ≫= itemBlockedRationale.
End Blocked.

(** ** Admission *)

(** [Number.isFinite(b) && b >= 1 ? Math.floor(b) : 1]. *)
Definition scheduleBudget (c : LoopContract) : nat :=
  match default (num 1) (max_concurrent c) with
  | Fin q => if num_geb (Fin q) 1 then Z.to_nat (Qfloor q) else 1
  | NonFinite => 1
  end.

(** The drift entries whose item no pass has resolved yet. *)
Definition driftUnresolved (r : LoopReconciliation) (d : LoopDrift) : bool :=
  match oget (rec_next_actions r) (drift_item_id d) with
  | Some ActRepairForward => false
  | Some ActReconstruct =>
      bool_decide (drift_class d = IdentityMismatch) &&
      match oget (rec_observed r) (drift_item_id d) with
      | Some o => bool_decide (rebase_in_progress o = Some true) || bool_decide (product_dirt o = Some true)
      | None => false
      end
  | _ => true
  end.

Definition unresolvedDriftIds (l : LoopLedger) : gset string :=
  match last_reconciliation l with
  | Some r => list_to_set (drift_item_id <$> filter (fun d => driftUnresolved r d = true) (rec_drift r))
  | None => ∅
  end.

(** What the scheduler asks of the components it consumes: whether two items
    are linked by dependencies, and their ownership verdict. *)
Class IndependenceOracle (path : string → string → bool)
    (verdict : string → string → OwnershipConflictVerdict) : Prop := {
  path_sym : ∀ a b, path a b = path b a;
  verdict_sym : ∀ a b, verdict a b = Disjoint ↔ verdict b a = Disjoint;
}.

Section Admission.
Context (path : string → string → bool) (verdict : string → string → OwnershipConflictVerdict)
  (drifting : gset string) (budget : nat).

(** The rationale of a conflict with an admitted item. *)
Definition conflictRationale (candidate admitted : string) (r : OwnershipConflictReason) : ScheduleRationale :=
  match r with
  | UnknownOwnership detail => mkRationale candidate UnknownOwner (Some admitted) (Some detail)
  | OverlappingSurface s =>
      mkRationale candidate ConflictEdge (Some admitted) (Some (s_kind s +:+ ":" +:+ s_pattern s))
  | ExplicitEdge => mkRationale candidate ConflictEdge (Some admitted) None
  end.

Fixpoint firstConflict (candidate : string) (admitted : list string) : option ScheduleRationale :=
  match admitted with
  | [] => None
  | a :: rest =>
      match verdict candidate a with
      | Disjoint => firstConflict candidate rest
      | Conflict r => Some (conflictRationale candidate a r)
      end
  end.

(** [denied], by the fixed precedence. *)
Definition denial (candidate : string) (sel : list string) : option ScheduleRationale :=
  match list_find (fun a => path candidate a = true) sel with
  | Some (_, a) => Some (mkRationale candidate DependencyPath (Some a) None)
  | None =>
      match firstConflict candidate sel with
      | Some r => Some r
      | None =>
          if decide (candidate ∈ drifting) then Some (mkRationale candidate UnresolvedDrift None None)
          else if budget <=? length sel then Some (mkRationale candidate BudgetTruncation None None)
          else None
      end
  end.

Definition admitStep (d : ScheduleDecision) (candidate : string) : ScheduleDecision :=
  match denial candidate (selected d) with
  | Some r => mkDecision (selected d) (rationale d ++ [r])
  | None => mkDecision (selected d ++ [candidate]) (rationale d ++ [mkRationale candidate ItemAdmitted None None])
  end.

Definition admitAll (candidates : list string) : ScheduleDecision :=
  foldl admitStep (mkDecision [] []) candidates.
End Admission.

(** [evalInputsById.get(id)!]; every candidate is an item of the contract. *)
Definition evalInputOf (c : LoopContract) (i : string) : OwnershipEvalInput :=
  default (evalInput i None)
    (js_map ((fun it => (ci_id it, evalInput (ci_id it) (ownership it))) <$> c_items c) !! i).

Definition contractPath (c : LoopContract) (a b : string) : bool := hasDependencyPath (itemsById c) a b.
Definition contractVerdict (c : LoopContract) (a b : string) : OwnershipConflictVerdict :=
  evaluateConflict (evalInputOf c a) (evalInputOf c b).

Definition selectSchedulableSet (sha256hex : string → string) (c : LoopContract) (l : LoopLedger)
    (ext : gmap string ExternalDependencyStatus) : result LoopError ScheduleDecision :=
  try fr := eligibleIndependentItems sha256hex c l ext in
  let blocked := dependencyBlockedRationale c l in
  match fr with
  | [] => Ok (mkDecision [] blocked)
  | _ :: _ =>
      match merge_barrier l with
      | Some _ => Ok (mkDecision [] (((fun i => mkRationale i MergeBarrier None None) <$> fr) ++ blocked))
      | None =>
          let d := admitAll (contractPath c) (contractVerdict c) (unresolvedDriftIds l) (scheduleBudget c) fr in
          Ok (mkDecision (selected d) (rationale d ++ blocked))
      end
  end.

(** ** Changed-file overlap *)

Record ChangedFileOverlapResult := mkOverlap {
  affected_item_ids : list string;
  overlapping_paths : list string;
}.

(** [i < j] over the sorted ids. *)
Fixpoint orderedPairs {A} (xs : list A) : list (A * A) :=
  match xs with
  | [] => []
  | x :: rest => (pair x <$> rest) ++ orderedPairs rest
  end.

Definition commonPaths (files : obj (list string)) (p : string * string) : list string :=
  filter (fun f => f ∈ default [] (oget files p.2)) (default [] (oget files p.1)).

Definition detectChangedFileOverlap (files : obj (list string)) : ChangedFileOverlapResult :=
  let hits := filter (fun p => commonPaths files p ≠ []) (orderedPairs (js_sort (okeys files))) in
  mkOverlap (js_sort (dedup [] (hits ≫= fun p => [p.1; p.2])))
            (js_sort (dedup [] (hits ≫= commonPaths files))).

Record LoopReplanRequest := mkReplan {
  replan_time : string;
  replan_items : list string;
  replan_paths : list string;
  replan_reason : string;
}.

Definition buildReplanRequest (r : ChangedFileOverlapResult) (time : string) : option LoopReplanRequest :=
  match affected_item_ids r with
  | [] => None
  | ids => Some (mkReplan time ids (overlapping_paths r)
             ("observed changed-file overlap not predicted by declared ownership: " +:+
              join ", " (overlapping_paths r)))
  end.

(** ** The path test decides reachability *)

Lemma pushDeps_None to deps visited stack : pushDeps to deps visited stack = None → to ∈ deps.
Proof.
  revert visited stack. induction deps as [|d deps IH]; intros visited stack; simpl; [done|].
  case_decide as Ht; [intros _; rewrite Ht; left|]. case_decide; intros H'; right; eauto.
Qed.

Lemma pushDeps_Some to deps visited stack v s :
  pushDeps to deps visited stack = Some (v, s) →
  to ∉ deps ∧ (∀ x, x ∈ v ↔ x ∈ visited ∨ x ∈ deps) ∧
  (∀ x, x ∈ s ↔ x ∈ stack ∨ (x ∈ deps ∧ x ∉ visited)) ∧
  ∀ U : gset string, (∀ d, d ∈ deps → d ∈ U) →
    size (U ∖ v) + length s = size (U ∖ visited) + length stack.
Proof.
  revert visited stack. induction deps as [|d deps IH]; intros visited stack; simpl.
  { intros [= <- <-]. set_solver. }
  case_decide as Ht; [done|]. case_decide as Hv; intros H; apply IH in H as (H1 & H2 & H3 & H4).
  - assert (to ∉ d :: deps) by (rewrite not_elem_of_cons; auto). split; [done|].
    split; [intros x; rewrite H2, elem_of_cons; clear -Hv; naive_solver|].
    split; [intros x; rewrite H3, elem_of_cons; clear -Hv; naive_solver|].
    intros U HU. apply H4. intros; apply HU; by right.
  - assert (to ∉ d :: deps) by (rewrite not_elem_of_cons; auto). split; [done|].
    split; [intros x; rewrite H2, elem_of_cons; clear; set_solver|].
    split; [intros x; rewrite H3, !elem_of_cons, elem_of_union, elem_of_singleton; clear -Hv|].
    { destruct (decide (x = d)) as [->|]; naive_solver. }
    intros U HU. rewrite H4 by (intros; apply HU; by right). simpl.
    assert (d ∈ U) as Hd by (apply HU; left).
    assert (U ∖ visited = {[d]} ∪ U ∖ ({[d]} ∪ visited)) as ->.
    { clear -Hv Hd. apply set_eq. intros x. destruct (decide (x = d)); set_solver. }
    rewrite (size_union {[d]} (U ∖ ({[d]} ∪ visited))), size_singleton by (clear; set_solver). lia.
Qed.

Section PathFacts.
Context (m : gmap string LoopContractItem).

Lemma depsOf_all x d : d ∈ depsOf m x → d ∈ allDeps m.
Proof.
  unfold depsOf, allDeps. destruct (m !! x) as [it|] eqn:E; simpl; [|intros H; inversion H].
  intros Hd. apply list_elem_of_bind. exists it. split; [done|]. apply list_elem_of_fmap.
  exists (x, it). split; [done|]. by apply elem_of_map_to_list.
Qed.

Lemma dependsLoop_total to fuel : ∀ visited stack,
  size (list_to_set (allDeps m) ∖ visited) + length stack < fuel →
  is_Some (dependsLoop m fuel to visited stack).
Proof.
  induction fuel as [|fuel IH]; intros visited stack Hf; [lia|]. simpl.
  destruct stack as [|x stack]; [eauto|]. destruct (pushDeps _ _ _ _) as [[v s]|] eqn:E; [|eauto].
  apply pushDeps_Some in E as (_ & _ & _ & Hsz). apply IH.
  rewrite (Hsz (list_to_set (allDeps m))); [simpl in Hf; lia|].
  intros d Hd. apply elem_of_list_to_set. by eapply depsOf_all.
Qed.

(** The search's invariant: what it saw is reachable, and what left the stack
    was expanded without meeting the target. *)
Record SearchInv (from to : string) (visited : gset string) (stack : list string) : Prop := {
  se_reach : ∀ x, x ∈ visited → tc (edge m) from x;
  se_stack : ∀ x, x ∈ stack → x = from ∨ x ∈ visited;
  se_done : ∀ x, x = from ∨ x ∈ visited → x ∉ stack → ∀ d, edge m x d → d ≠ to ∧ d ∈ visited;
}.

Lemma dependsLoop_spec from to fuel : ∀ visited stack b,
  SearchInv from to visited stack → dependsLoop m fuel to visited stack = Some b →
  (b = true ↔ tc (edge m) from to).
Proof.
  induction fuel as [|fuel IH]; intros visited stack b [Hr Hs Hd]; simpl; [done|].
  destruct stack as [|x stack].
  { intros [= <-]. split; [done|]. intros Ht.
    assert (∀ y z, tc (edge m) y z → y = from ∨ y ∈ visited → z ≠ to ∧ z ∈ visited) as Hc.
    { clear Ht. intros y z Ht. induction Ht as [y z Hyz|y w z Hyw _ IHt]; intros Hy.
      - eapply Hd; [done|set_solver|done].
      - apply IHt. right. eapply Hd; [done|set_solver|done]. }
    by destruct (Hc _ _ Ht (or_introl eq_refl)). }
  assert (∀ d, d ∈ depsOf m x → tc (edge m) from d) as Hx.
  { intros d Hin. destruct (Hs x ltac:(left)) as [->|Hv]; [by apply tc_once|].
    eapply tc_r; [by apply Hr|done]. }
  destruct (pushDeps to (depsOf m x) visited stack) as [[v s]|] eqn:E.
  - apply pushDeps_Some in E as (Ht & Hv & Hst & _). apply IH. split.
    + intros y Hy. apply Hv in Hy as [Hy|Hy]; auto.
    + intros y Hy. apply Hst in Hy as [Hy|[Hy _]]; [|right; apply Hv; by right].
      destruct (Hs y ltac:(by right)) as [|]; [by left|right; apply Hv; by left].
    + intros y Hy Hn d Hd'. destruct (decide (y = x)) as [->|Hne].
      * split; [by intros ->|]. apply Hv. by right.
      * assert (y = from ∨ y ∈ visited) as Hy'.
        { destruct Hy as [|Hy]; [by left|]. right. apply Hv in Hy as [|Hy]; [done|].
          destruct (decide (y ∈ visited)); [done|]. destruct Hn. apply Hst. by right. }
        destruct (Hd y Hy') with d as [? ?]; [|done|].
        { intros [->|Hin]%elem_of_cons; [done|]. apply Hn, Hst. by left. }
        split; [done|]. apply Hv. by left.
  - intros [= <-]. apply pushDeps_None in E. split; [intros _; auto|done].
Qed.

Lemma depends_tc from to : dependsTransitively m from to = true ↔ tc (edge m) from to.
Proof.
  unfold dependsTransitively.
  destruct (dependsLoop_total to (S (S (size (list_to_set (C := gset string) (allDeps m))))) ∅ [from]) as [b Hb].
  { simpl. rewrite difference_empty_L. lia. }
  rewrite Hb. simpl. eapply (dependsLoop_spec from to); [|exact Hb]. split; set_solver.
Qed.

Lemma path_iff a b : hasDependencyPath m a b = true ↔ tc (edge m) a b ∨ tc (edge m) b a.
Proof. unfold hasDependencyPath. by rewrite orb_true_iff, !depends_tc. Qed.

Lemma path_false a b : hasDependencyPath m a b = false ↔ ¬ tc (edge m) a b ∧ ¬ tc (edge m) b a.
Proof. rewrite <-not_true_iff_false, path_iff. tauto. Qed.
End PathFacts.

(** ** The walk of a blocked item lists its unfinished ancestors *)

Lemma js_map_elem {V} (es : list (string * V)) k v : js_map es !! k = Some v → (k, v) ∈ es.
Proof.
  unfold js_map. intros H.
  assert (∀ m : gmap string V, foldl (fun m p => <[p.1 := p.2]> m) m es !! k = Some v →
            (k, v) ∈ es ∨ m !! k = Some v) as Hg.
  { clear H. induction es as [|[k' v'] es IH]; intros m H; [by right|]. simpl in H.
    apply IH in H as [H|H]; [left; by right|]. destruct (decide (k' = k)) as [->|].
    - rewrite lookup_insert_eq in H. simplify_eq. left; left.
    - rewrite lookup_insert_ne in H by done. by right. }
  by apply Hg in H as [H|H]; [|rewrite lookup_empty in H].
Qed.

Lemma itemsById_elem c i it : itemsById c !! i = Some it → it ∈ c_items c ∧ ci_id it = i.
Proof. intros H%js_map_elem. apply list_elem_of_fmap in H as (it' & [= -> ->] & ?). done. Qed.

Lemma itemsById_deps c it : NoDup (item_ids c) → it ∈ c_items c → depsOf (itemsById c) (ci_id it) = depends_on it.
Proof. intros Hnd Hit. unfold depsOf, itemsById. by rewrite (contract_index (fun it => it)). Qed.

Section BlockedFacts.
Context (c : LoopContract) (l : LoopLedger).

Definition unexplored (visited : gset string) (its : list LoopContractItem) : nat :=
  length (filter (fun it => ci_id it ∉ visited) its ≫= depends_on).

Lemma unexplored_mono v its d : unexplored ({[d]} ∪ v) its <= unexplored v its.
Proof.
  unfold unexplored. induction its as [|it its IH]; [done|]. rewrite !filter_cons.
  repeat case_decide; csimpl; rewrite ?length_app; [lia|set_solver|lia|lia].
Qed.

Lemma unexplored_visit v its it :
  it ∈ its → ci_id it ∉ v → length (depends_on it) + unexplored ({[ci_id it]} ∪ v) its <= unexplored v its.
Proof.
  intros Hin Hv. induction its as [|it' its IH]; [inversion Hin|]. unfold unexplored. rewrite !filter_cons.
  apply elem_of_cons in Hin as [<-|Hin].
  - rewrite decide_False by set_solver. rewrite decide_True by done. csimpl. rewrite length_app.
    pose proof (unexplored_mono v its (ci_id it)) as Hm. unfold unexplored in Hm. lia.
  - specialize (IH Hin). unfold unexplored in IH.
    repeat case_decide; csimpl; rewrite ?length_app; [lia|set_solver|lia|lia].
Qed.

Lemma blockedWalk_total i fuel : ∀ visited queue,
  length queue + unexplored visited (c_items c) < fuel → is_Some (blockedWalk c l fuel i visited queue).
Proof.
  induction fuel as [|fuel IH]; intros visited queue Hf; [lia|]. simpl. destruct queue as [|d queue]; [eauto|].
  simpl in Hf. case_decide as Hv; [apply IH; lia|].
  destruct (IH ({[d]} ∪ visited) (queue ++ depsOf (itemsById c) d)) as [rest ->]; [|simpl; eauto].
  rewrite length_app. unfold depsOf. destruct (itemsById c !! d) as [it|] eqn:E; simpl.
  - apply itemsById_elem in E as [Hin <-]. pose proof (unexplored_visit visited _ it Hin Hv). lia.
  - pose proof (unexplored_mono visited (c_items c) d). lia.
Qed.

Definition blockedEntry (i d : string) : ScheduleRationale := mkRationale i DependencyPath (Some d) None.

(** A walk out of the visited set crosses the queue. *)
Lemma walk_leaves (R : string → string → Prop) (visited : gset string) (queue : list string) x d :
  (∀ x y, x ∈ visited → R x y → y ∈ visited ∨ y ∈ queue) → rtc R x d → x ∈ visited → d ∉ visited →
  ∃ y, y ∈ queue ∧ y ∉ visited ∧ rtc R y d.
Proof.
  intros Hc Hxd. induction Hxd as [x|x y d Hxy Hyd IH]; intros Hx Hd; [done|].
  destruct (decide (y ∈ visited)); [by apply IH|]. destruct (Hc x y Hx Hxy); [done|]. by exists y.
Qed.

(** What a walk can still discover, and the closure that makes it complete. *)
Definition reach (visited : gset string) (queue : list string) (d : string) : Prop :=
  d ∉ visited ∧ ∃ q, q ∈ queue ∧ rtc (edge (itemsById c)) q d.
Definition closedWalk (visited : gset string) (queue : list string) : Prop :=
  ∀ x y, x ∈ visited → edge (itemsById c) x y → y ∈ visited ∨ y ∈ queue.

Lemma reach_seen visited queue x d :
  closedWalk visited (x :: queue) → x ∈ visited → reach visited (x :: queue) d ↔ reach visited queue d.
Proof.
  intros Hc Hx. split; intros (Hd & q & Hq & Hrt); (split; [done|]).
  - apply elem_of_cons in Hq as [->|Hq]; [|by exists q].
    destruct (walk_leaves _ visited (x :: queue) x d Hc Hrt Hx Hd) as (y & [->|Hy]%elem_of_cons & Hyv & Hyd); [done|].
    by exists y.
  - exists q. split; [by right|done].
Qed.

Lemma reach_visit visited queue x d :
  x ∉ visited →
  reach visited (x :: queue) d ↔ d = x ∨ reach ({[x]} ∪ visited) (queue ++ depsOf (itemsById c) x) d.
Proof.
  intros Hx. unfold reach. rewrite not_elem_of_union, elem_of_singleton. setoid_rewrite elem_of_cons.
  setoid_rewrite elem_of_app. split.
  - intros (Hd & q & Hq & Hrt). destruct (decide (d = x)) as [|Hne]; [by left|right]. split; [done|].
    destruct Hq as [->|Hq]; [|by exists q; auto].
    inversion Hrt as [|a y b Hxy Hyd]; simplify_eq. exists y. split; [by right|done].
  - intros [->|((Hne & Hd) & q & [Hq|Hq] & Hrt)].
    + split; [done|]. exists x. split; [by left|done].
    + split; [done|]. exists q. split; [by right|done].
    + split; [done|]. exists x. split; [by left|]. by eapply rtc_l.
Qed.

Lemma closed_seen visited queue x : closedWalk visited (x :: queue) → x ∈ visited → closedWalk visited queue.
Proof. intros Hc Hx y z Hy Hz. destruct (Hc y z Hy Hz) as [|[->|]%elem_of_cons]; auto. Qed.

Lemma closed_visit visited queue x :
  closedWalk visited (x :: queue) → closedWalk ({[x]} ∪ visited) (queue ++ depsOf (itemsById c) x).
Proof.
  intros Hc y z Hy Hz. rewrite elem_of_app. apply elem_of_union in Hy as [->%elem_of_singleton|Hy]; [by auto|].
  destruct (Hc y z Hy Hz) as [|[->|]%elem_of_cons]; [set_solver..|by auto].
Qed.

Lemma blockedWalk_spec i fuel : ∀ visited queue out,
  closedWalk visited queue → blockedWalk c l fuel i visited queue = Some out →
  NoDup out ∧ ∀ r, r ∈ out ↔ ∃ d, r = blockedEntry i d ∧ notDone l d = true ∧ reach visited queue d.
Proof.
  induction fuel as [|fuel IH]; intros visited queue out Hc; simpl; [done|]. destruct queue as [|x queue].
  { intros [= <-]. split; [apply NoDup_nil_2|]. intros r. rewrite elem_of_nil. split; [done|].
    intros (d & _ & _ & _ & q & Hq & _). inversion Hq. }
  case_decide as Hv.
  - intros H. apply IH in H as [Hnd Hout]; [|by eapply closed_seen]. split; [done|]. intros r. rewrite Hout.
    by setoid_rewrite (reach_seen visited queue x _ Hc Hv).
  - intros H. apply bind_Some in H as (rest & Hrest & [= <-]). apply IH in Hrest as [Hnd Hout]; [|by apply closed_visit].
    assert (blockedEntry i x ∉ rest) as Hx.
    { rewrite Hout. intros (d & [= <-] & _ & Hr & _). set_solver. }
    setoid_rewrite (reach_visit visited queue x _ Hv). destruct (notDone l x) eqn:Hn.
    + split; [by apply NoDup_cons|]. intros r. rewrite elem_of_cons, Hout. clear -Hn. naive_solver.
    + split; [done|]. intros r. rewrite Hout. clear -Hn. naive_solver congruence.
Qed.

Lemma unexplored_empty its : unexplored ∅ its = length (its ≫= depends_on).
Proof.
  unfold unexplored. induction its as [|it its IH]; [done|]. rewrite filter_cons, decide_True by set_solver.
  csimpl. by rewrite !length_app, IH.
Qed.

Lemma itemBlocked_spec it :
  NoDup (item_ids c) → it ∈ c_items c → state_of (items l) (ci_id it) = Some Pending →
  NoDup (itemBlockedRationale c l it) ∧
  ∀ r, r ∈ itemBlockedRationale c l it ↔
    ∃ d, r = blockedEntry (ci_id it) d ∧ notDone l d = true ∧ tc (edge (itemsById c)) (ci_id it) d.
Proof.
  intros Hnd Hit Hp. unfold itemBlockedRationale. rewrite decide_True by done.
  destruct (blockedWalk_total (ci_id it) (walkFuel c (depends_on it)) ∅ (depends_on it)) as [out Hout].
  { rewrite unexplored_empty. unfold walkFuel. lia. }
  rewrite Hout. simpl. apply blockedWalk_spec in Hout as [HN Hout]; [|intros x y Hx; set_solver].
  split; [done|]. intros r. rewrite Hout.
  assert (∀ d, reach ∅ (depends_on it) d ↔ tc (edge (itemsById c)) (ci_id it) d) as Hr; [|by setoid_rewrite Hr].
  intros d. unfold reach. split.
  - intros (_ & q & Hq & Hrt). apply tc_rtc_r with q; [|done]. apply tc_once. unfold edge. by rewrite itemsById_deps.
  - intros Ht. split; [set_solver|].
    inversion Ht as [a b Hab|a y b Hay Hyb]; simplify_eq; unfold edge in *.
    + exists d. rewrite itemsById_deps in Hab by done. done.
    + exists y. rewrite itemsById_deps in Hay by done. split; [done|]. by apply tc_rtc.
Qed.
End BlockedFacts.

(** ** Admission against the oracle interface *)

Section AdmissionFacts.
Context (path : string → string → bool) (verdict : string → string → OwnershipConflictVerdict)
  `{!IndependenceOracle path verdict} (drifting : gset string) (budget : nat).

Definition Independent (a b : string) : Prop := path a b = false ∧ verdict a b = Disjoint.

#[local] Instance Independent_sym : Symmetric Independent.
Proof. intros a b [Hp Hv]. split; [by rewrite path_sym|by apply verdict_sym]. Qed.

(** Why a rationale entry stands, given the final selection. *)
Inductive Justified (sel : list string) : ScheduleRationale → Prop :=
| just_admitted x : x ∈ sel → Justified sel (mkRationale x ItemAdmitted None None)
| just_path x a : a ∈ sel → path x a = true → Justified sel (mkRationale x DependencyPath (Some a) None)
| just_conflict x a r : a ∈ sel → verdict x a = Conflict r → Justified sel (conflictRationale x a r)
| just_drift x : x ∈ drifting → Justified sel (mkRationale x UnresolvedDrift None None)
| just_budget x : budget <= length sel → Justified sel (mkRationale x BudgetTruncation None None).

Lemma Justified_mono sel x r : Justified sel r → Justified (sel ++ [x]) r.
Proof.
  destruct 1; econstructor; rewrite ?elem_of_app; eauto. rewrite length_app. simpl. lia.
Qed.

Lemma firstConflict_Some x sel r :
  firstConflict verdict x sel = Some r → ∃ a why, a ∈ sel ∧ verdict x a = Conflict why ∧ r = conflictRationale x a why.
Proof.
  induction sel as [|a sel IH]; simpl; [done|]. destruct (verdict x a) as [|why] eqn:Hv.
  - intros H. destruct (IH H) as (b & why & ? & ? & ?). exists b, why. split; [by right|done].
  - intros [= <-]. exists a, why. split; [left|done].
Qed.

Lemma firstConflict_None x sel : firstConflict verdict x sel = None → ∀ a, a ∈ sel → verdict x a = Disjoint.
Proof.
  induction sel as [|a sel IH]; simpl; [intros _ b Hb; inversion Hb|].
  destruct (verdict x a) eqn:Hv; [|done]. intros H b [->|Hb]%elem_of_cons; auto.
Qed.

Lemma denial_Some x sel r :
  denial path verdict drifting budget x sel = Some r → Justified sel r ∧ r_item_id r = x ∧ disposition r ≠ ItemAdmitted.
Proof.
  unfold denial. destruct (list_find _ sel) as [[n a]|] eqn:Hf.
  { intros [= <-]. apply list_find_Some in Hf as (Hl & Hp & _). split; [|done].
    econstructor; [|done]. by eapply list_elem_of_lookup_2. }
  destruct (firstConflict verdict x sel) as [r'|] eqn:Hc.
  { intros [= <-]. apply firstConflict_Some in Hc as (a & why & Ha & Hv & ->).
    split; [by constructor|]. by destruct why. }
  case_decide; [intros [= <-]; split; [by constructor|done]|].
  destruct (Nat.leb_spec budget (length sel)); [|done]. intros [= <-]. split; [by constructor|done].
Qed.

Lemma denial_None x sel :
  denial path verdict drifting budget x sel = None →
  (∀ a, a ∈ sel → Independent x a) ∧ x ∉ drifting ∧ length sel < budget.
Proof.
  unfold denial. destruct (list_find _ sel) as [[n a]|] eqn:Hf; [done|].
  destruct (firstConflict verdict x sel) eqn:Hc; [done|]. case_decide; [done|].
  destruct (Nat.leb_spec budget (length sel)); [done|]. intros _. split; [|done].
  apply list_find_None in Hf. rewrite Forall_forall in Hf. intros a Ha. split.
  - apply not_true_iff_false. by apply Hf.
  - by eapply firstConflict_None.
Qed.

(** What holds after the candidates [done] have been walked. *)
Record AdmitInv (done : list string) (d : ScheduleDecision) : Prop := {
  ad_sub : selected d `sublist_of` done;
  ad_indep : ∀ a b, a ∈ selected d → b ∈ selected d → a ≠ b → Independent a b;
  ad_drift : ∀ a, a ∈ selected d → a ∉ drifting;
  ad_budget : length (selected d) <= budget;
  ad_each : r_item_id <$> rationale d = done;
  ad_just : ∀ r, r ∈ rationale d → Justified (selected d) r;
  ad_admitted : ∀ a, a ∈ selected d → mkRationale a ItemAdmitted None None ∈ rationale d;
}.

Lemma admitStep_inv done d x :
  AdmitInv done d → AdmitInv (done ++ [x]) (admitStep path verdict drifting budget d x).
Proof.
  intros []. unfold admitStep. destruct (denial _ _ _ _ x (selected d)) as [r|] eqn:Hd; split; simpl.
  - by apply sublist_inserts_r.
  - done.
  - done.
  - done.
  - rewrite fmap_app, ad_each0. simpl. by apply denial_Some in Hd as (_ & -> & _).
  - intros r' [Hr|Hr]%elem_of_app; [by apply ad_just0|]. apply list_elem_of_singleton in Hr as ->.
    by apply denial_Some in Hd as [? _].
  - intros a Ha. apply elem_of_app. auto.
  - by apply sublist_app.
  - apply denial_None in Hd as (Hi & _ & _). intros a b. rewrite !elem_of_app, !list_elem_of_singleton.
    intros [Ha|Ha] [Hb|Hb] Hne; subst; [by apply ad_indep0|symmetry; by apply Hi|by apply Hi|done].
  - apply denial_None in Hd as (_ & Hn & _). intros a [Ha| ->%list_elem_of_singleton]%elem_of_app; [by apply ad_drift0|done].
  - apply denial_None in Hd as (_ & _ & Hl). rewrite length_app. simpl. lia.
  - by rewrite fmap_app, ad_each0.
  - intros r [Hr|Hr]%elem_of_app; [by apply Justified_mono, ad_just0|].
    apply list_elem_of_singleton in Hr as ->. constructor. apply elem_of_app. right. left.
  - intros a. rewrite !elem_of_app, !list_elem_of_singleton. intros [Ha| ->]; [left; auto|by right].
Qed.

Lemma admit_inv cands : AdmitInv cands (admitAll path verdict drifting budget cands).
Proof.
  unfold admitAll. induction cands as [|x cands IH] using rev_ind; simpl.
  - assert (∀ (A : Type) (P : A → Prop) x, x ∈ [] → P x) as Hnil by (intros A P x Hx; inversion Hx).
    split; simpl; [done| |by apply Hnil|lia|done|by apply Hnil|by apply Hnil].
    intros a b Ha. inversion Ha.
  - rewrite foldl_app. simpl. by apply admitStep_inv.
Qed.

(** The first candidate is admitted unless it drifts: [budget] is at least one. *)
Lemma admitStep_keeps d x y :
  y ∈ selected d → y ∈ selected (admitStep path verdict drifting budget d x).
Proof. unfold admitStep. destruct (denial _ _ _ _ _ _); simpl; [done|]. rewrite elem_of_app. auto. Qed.

Lemma admitSteps_keep cands d y :
  y ∈ selected d → y ∈ selected (foldl (admitStep path verdict drifting budget) d cands).
Proof. revert d. induction cands as [|x cands IH]; intros d H; [done|]. by apply IH, admitStep_keeps. Qed.

Lemma admit_head x cands :
  1 <= budget → x ∉ drifting → x ∈ selected (admitAll path verdict drifting budget (x :: cands)).
Proof.
  intros Hb Hx. unfold admitAll. cbn [foldl]. apply admitSteps_keep. unfold admitStep. cbn [selected].
  assert (denial path verdict drifting budget x [] = None) as ->; [|left].
  unfold denial. cbn [list_find firstConflict length]. rewrite decide_False by done.
  by destruct (Nat.leb_spec budget 0); [lia|].
Qed.
End AdmissionFacts.

(** The contract's graph and declarations implement the interface. *)
#[export] Instance contract_oracle c : IndependenceOracle (contractPath c) (contractVerdict c).
Proof.
  split; intros a b.
  - unfold contractPath, hasDependencyPath. apply orb_comm.
  - apply evaluate_sym.
Qed.

Lemma scheduleBudget_pos c : 1 <= scheduleBudget c.
Proof.
  unfold scheduleBudget. destruct (default (num 1) (max_concurrent c)) as [q|]; [|done].
  destruct (num_geb (Fin q) 1) eqn:Hq; [|done]. simpl in Hq. apply Qle_bool_iff in Hq.
  apply Qfloor_resp_le in Hq. rewrite Qfloor_Z in Hq. lia.
Qed.

Lemma evalInputOf_item c it :
  NoDup (item_ids c) → it ∈ c_items c → evalInputOf c (ci_id it) = evalInput (ci_id it) (ownership it).
Proof.
  intros Hnd Hit. unfold evalInputOf.
  by rewrite (contract_index (fun it => evalInput (ci_id it) (ownership it))).
Qed.

(** The selection and the candidates' part of the rationale. *)
Definition barrierRationale (i : string) : ScheduleRationale := mkRationale i MergeBarrier None None.

Lemma select_cases sha c l ext d :
  LedgerWF l → NoDup (item_ids c) → selectSchedulableSet sha c l ext = Ok d →
  let ad := admitAll (contractPath c) (contractVerdict c) (unresolvedDriftIds l) (scheduleBudget c)
              (frontier c l ext) in
  match merge_barrier l with
  | Some _ => d = mkDecision [] ((barrierRationale <$> frontier c l ext) ++ dependencyBlockedRationale c l)
  | None => d = mkDecision (selected ad) (rationale ad ++ dependencyBlockedRationale c l)
  end.
Proof.
  intros Hwf Hnd. unfold selectSchedulableSet.
  destruct (eligibleIndependentItems sha c l ext) as [fr|] eqn:Hf; cbn [rbind]; [|done].
  apply eligible_frontier in Hf as <-; [|done..]. destruct fr as [|x fr].
  - intros [= <-]. by destruct (merge_barrier l).
  - destruct (merge_barrier l); intros [= <-]; done.
Qed.

Lemma select_admitted sha c l ext d :
  LedgerWF l → NoDup (item_ids c) → selectSchedulableSet sha c l ext = Ok d →
  selected d = [] ∨
  (merge_barrier l = None ∧
   selected d = selected (admitAll (contractPath c) (contractVerdict c) (unresolvedDriftIds l) (scheduleBudget c)
                            (frontier c l ext))).
Proof.
  intros Hwf Hnd H. apply select_cases in H; [|done..]. destruct (merge_barrier l); subst; auto.
Qed.

Lemma frontier_NoDup c l ext : NoDup (item_ids c) → NoDup (frontier c l ext).
Proof. intros H. eapply sublist_NoDup; [|apply frontier_sublist]. done. Qed.

(** ** Overlap detection *)

Lemma orderedPairs_elem {A} (xs : list A) a b :
  (a, b) ∈ orderedPairs xs ↔ ∃ l1 l2 l3, xs = l1 ++ a :: l2 ++ b :: l3.
Proof.
  induction xs as [|x xs IH]; simpl.
  { rewrite elem_of_nil. split; [done|]. intros (l1 & l2 & l3 & H). by destruct l1. }
  rewrite elem_of_app, list_elem_of_fmap, IH. split.
  - intros [(y & [= -> ->] & Hy)|(l1 & l2 & l3 & ->)].
    + apply list_elem_of_split in Hy as (l2 & l3 & ->). by exists [], l2, l3.
    + by exists (x :: l1), l2, l3.
  - intros (l1 & l2 & l3 & Heq). destruct l1 as [|x' l1]; simplify_eq/=.
    + left. exists b. split; [done|]. set_solver.
    + right. by exists l1, l2, l3.
Qed.

(** Two distinct members of a list meet in one order or the other. *)
Lemma orderedPairs_either {A} (xs : list A) a b :
  a ∈ xs → b ∈ xs → a ≠ b → (a, b) ∈ orderedPairs xs ∨ (b, a) ∈ orderedPairs xs.
Proof.
  intros Ha Hb Hne. apply list_elem_of_split in Ha as (l1 & l2 & ->).
  apply elem_of_app in Hb as [Hb|[->|Hb]%elem_of_cons]; [|done|].
  - right. apply list_elem_of_split in Hb as (m1 & m2 & ->). apply orderedPairs_elem.
    exists m1, m2, l2. by rewrite <-app_assoc.
  - left. apply list_elem_of_split in Hb as (m1 & m2 & ->). apply orderedPairs_elem. by exists l1, m1, m2.
Qed.

Definition changed_by (files : obj (list string)) (i p : string) : Prop := ∃ fs, oget files i = Some fs ∧ p ∈ fs.

Lemma commonPaths_elem files a b p :
  p ∈ commonPaths files (a, b) ↔ changed_by files a p ∧ changed_by files b p.
Proof.
  unfold commonPaths, changed_by. rewrite list_elem_of_filter. simpl.
  destruct (oget files a) as [fa|], (oget files b) as [fb|]; simpl; rewrite ?elem_of_nil; naive_solver.
Qed.

(** Some other changed file set shares the path. *)
Lemma overlap_hits files a b p :
  NoDup (okeys files) →
  ((a, b) ∈ orderedPairs (js_sort (okeys files)) ∧ p ∈ commonPaths files (a, b)) ∨
  ((b, a) ∈ orderedPairs (js_sort (okeys files)) ∧ p ∈ commonPaths files (b, a)) ↔
  a ≠ b ∧ changed_by files a p ∧ changed_by files b p.
Proof.
  intros Hnd. rewrite !commonPaths_elem.
  assert (∀ a b, (a, b) ∈ orderedPairs (js_sort (okeys files)) → a ≠ b) as Hne.
  { intros x y Hxy ->. apply orderedPairs_elem in Hxy as (l1 & l2 & l3 & Heq).
    assert (NoDup (js_sort (okeys files))) as Hs by (unfold js_sort; by rewrite merge_sort_Permutation).
    rewrite Heq in Hs. apply NoDup_app in Hs as (_ & _ & Hs). apply NoDup_cons in Hs as [Hs _]. set_solver. }
  split.
  - intros [(H & ? & ?)|(H & ? & ?)]; pose proof (Hne _ _ H); auto.
  - intros (Hab & Ha & Hb). destruct (orderedPairs_either (js_sort (okeys files)) a b) as [|]; auto;
      apply js_sort_elem, oget_is_Some; [destruct Ha as (fs & -> & _)|destruct Hb as (fs & -> & _)]; eauto.
Qed.

Lemma detect_affected files x :
  NoDup (okeys files) →
  x ∈ affected_item_ids (detectChangedFileOverlap files) ↔
  ∃ y p, x ≠ y ∧ changed_by files x p ∧ changed_by files y p.
Proof.
  intros Hnd. unfold detectChangedFileOverlap. cbn [affected_item_ids].
  rewrite js_sort_elem, dedup_elem, list_elem_of_bind. split.
  - intros [((a, b) & Hx & Hin) _]. apply list_elem_of_filter in Hin as [Hne Hin].
    destruct (commonPaths files (a, b)) as [|p ps] eqn:Hp; [done|].
    assert (p ∈ commonPaths files (a, b)) as Hpin by (rewrite Hp; left).
    destruct (proj1 (overlap_hits files a b p Hnd)) as (Hab & Ha & Hb); [by left|].
    simpl in Hx. apply elem_of_cons in Hx as [->|Hx]; [by exists b, p|].
    apply list_elem_of_singleton in Hx as ->. exists a, p. auto.
  - intros (y & p & Hxy & Hx & Hy). split; [|apply not_elem_of_nil].
    destruct (proj2 (overlap_hits files x y p Hnd)) as [[Hin Hp]|[Hin Hp]]; [done|..].
    + exists (x, y). split; [left|]. apply list_elem_of_filter. split; [|done]. intros E. rewrite E in Hp. inversion Hp.
    + exists (y, x). split; [right; left|]. apply list_elem_of_filter. split; [|done]. intros E. rewrite E in Hp. inversion Hp.
Qed.

Lemma detect_paths files p :
  NoDup (okeys files) →
  p ∈ overlapping_paths (detectChangedFileOverlap files) ↔
  ∃ x y, x ≠ y ∧ changed_by files x p ∧ changed_by files y p.
Proof.
  intros Hnd. unfold detectChangedFileOverlap. cbn [overlapping_paths].
  rewrite js_sort_elem, dedup_elem, list_elem_of_bind. split.
  - intros [((a, b) & Hp & Hin) _]. apply list_elem_of_filter in Hin as [_ Hin]. exists a, b.
    apply (overlap_hits files a b p Hnd). by left.
  - intros (x & y & H). split; [|apply not_elem_of_nil].
    apply (overlap_hits files x y p Hnd) in H as [[Hin Hp]|[Hin Hp]]; [exists (x, y)|exists (y, x)];
      (split; [done|]); apply list_elem_of_filter; (split; [|done]); intros E; rewrite E in Hp; inversion Hp.
Qed.

Lemma notDone_iff l x : notDone l x = true ↔ ¬ Done l x.
Proof.
  unfold notDone, Done. destruct (state_of (items l) x) as [s|].
  - destruct (isDoneState s) eqn:Es; simpl; split; try done; [intros []; eauto|]. intros _ (s' & [= <-] & ?). congruence.
  - split; [|done]. intros _ (s & ? & _). done.
Qed.

Lemma edge_item c x y : edge (itemsById c) x y → ∃ it, it ∈ c_items c ∧ ci_id it = x ∧ y ∈ depends_on it.
Proof.
  unfold edge, depsOf. destruct (itemsById c !! x) as [it|] eqn:E; simpl; [|intros H; inversion H].
  apply itemsById_elem in E as [? ?]. eauto.
Qed.

(** ** Properties *)

(** C5. The scheduler only ever starts items that may run together: each
    selected item is eligible and free of unresolved drift, no two of them are
    linked by a dependency path in either direction, every pair has a disjoint
    ownership verdict, the budget is respected, and a merge barrier admits
    nothing. *)
Theorem schedule_safe sha c l ext d :
  LedgerWF l → NoDup (item_ids c) → selectSchedulableSet sha c l ext = Ok d →
  NoDup (selected d) ∧ length (selected d) <= scheduleBudget c ∧ (is_Some (merge_barrier l) → selected d = []) ∧
  (∀ a, a ∈ selected d → a ∉ unresolvedDriftIds l ∧ ∃ it, ci_id it = a ∧ Eligible c l ext it) ∧
  ∀ a b, a ∈ selected d → b ∈ selected d → a ≠ b →
    ¬ tc (edge (itemsById c)) a b ∧ evaluateConflict (evalInputOf c a) (evalInputOf c b) = Disjoint.
Proof.
  intros Hwf Hnd H. pose proof H as Hc. apply select_cases in Hc; [|done..]. apply select_admitted in H; [|done..].
  destruct H as [->|[Hm ->]].
  { split; [apply NoDup_nil_2|]. split; [simpl; lia|]. split; [done|]. split; [|intros a b Ha]; [intros a Ha|]; inversion Ha. }
  destruct (admit_inv (contractPath c) (contractVerdict c) (unresolvedDriftIds l) (scheduleBudget c) (frontier c l ext))
    as [Hsub Hi Hd Hb _ _ _].
  split; [by eapply sublist_NoDup; [apply frontier_NoDup|]|]. split; [done|]. split; [rewrite Hm; by intros [? ?]|].
  split.
  - intros a Ha. split; [by apply Hd|]. apply frontier_elem; [done..|]. by eapply elem_of_sublist.
  - intros a b Ha Hb' Hne. destruct (Hi a b Ha Hb' Hne) as [Hp Hv]. split; [|done].
    by apply path_false in Hp as [? _].
Qed.

(** End to end, two items scheduled together never own a common path: a
    path covered by a declared surface of each is covered by shared surfaces
    on both sides. *)
Theorem schedule_paths_disjoint sha c l ext d ita itb sa sb path :
  LedgerWF l → NoDup (item_ids c) → selectSchedulableSet sha c l ext = Ok d →
  ita ∈ c_items c → itb ∈ c_items c → ci_id ita ∈ selected d → ci_id itb ∈ selected d → ci_id ita ≠ ci_id itb →
  sa ∈ normalizeOwnership (ownership ita) → sb ∈ normalizeOwnership (ownership itb) →
  covers (s_pattern sa) path → covers (s_pattern sb) path →
  s_class sa = SharedClass ∧ s_class sb = SharedClass.
Proof.
  intros Hwf Hnd H Hia Hib Ha Hb Hne Hsa Hsb Hpa Hpb. apply select_admitted in H; [|done..].
  destruct H as [Hs|[_ Hs]]; rewrite Hs in Ha, Hb; [inversion Ha|].
  pose proof (ad_indep _ _ _ _ _ _
    (admit_inv (contractPath c) (contractVerdict c) (unresolvedDriftIds l) (scheduleBudget c) (frontier c l ext))
    _ _ Ha Hb Hne) as [_ Hv].
  unfold contractVerdict in Hv. rewrite !evalInputOf_item in Hv by done. by eapply disjoint_paths.
Qed.

(** Every decision is explained: the rationale names each candidate of the
    frontier once and in order, an item is admitted exactly when it is
    selected, every denial holds of the final selection, and then come exactly
    the unfinished transitive dependencies of the pending items. *)
Theorem schedule_explained sha c l ext d :
  LedgerWF l → NoDup (item_ids c) → merge_barrier l = None → selectSchedulableSet sha c l ext = Ok d →
  ∃ front blocked, rationale d = front ++ blocked ∧ r_item_id <$> front = frontier c l ext ∧
    (∀ a, a ∈ selected d ↔ mkRationale a ItemAdmitted None None ∈ front) ∧
    (∀ r, r ∈ front →
       Justified (contractPath c) (contractVerdict c) (unresolvedDriftIds l) (scheduleBudget c) (selected d) r) ∧
    ∀ r, r ∈ blocked ↔ ∃ it x, it ∈ c_items c ∧ state_of (items l) (ci_id it) = Some Pending ∧
           r = blockedEntry (ci_id it) x ∧ ¬ Done l x ∧ tc (edge (itemsById c)) (ci_id it) x.
Proof.
  intros Hwf Hnd Hm H. apply select_cases in H; [|done..]. rewrite Hm in H. subst d. simpl.
  destruct (admit_inv (contractPath c) (contractVerdict c) (unresolvedDriftIds l) (scheduleBudget c) (frontier c l ext))
    as [_ _ _ _ He Hj Ha].
  eexists _, _. split; [done|]. split; [done|]. split; [|split; [done|]].
  - intros a. split; [apply Ha|]. intros Hin. apply Hj in Hin. by inversion Hin as [| |? ? []| |].
  - intros r. unfold dependencyBlockedRationale. rewrite list_elem_of_bind.
    pose proof (notDone_iff l) as Hn. split.
    + intros (it & Hr & Hit). destruct (decide (state_of (items l) (ci_id it) = Some Pending)) as [Hp|Hp].
      * apply itemBlocked_spec in Hr as (x & -> & Hx & Ht); [|done..]. exists it, x. by rewrite <-Hn.
      * unfold itemBlockedRationale in Hr. rewrite decide_False in Hr by done. inversion Hr.
    + intros (it & x & Hit & Hp & -> & Hx & Ht). exists it. split; [|done].
      apply itemBlocked_spec; [done..|]. exists x. by rewrite Hn.
Qed.

(** Scheduling only refuses a contract whose recovery policy does not compile. *)
Lemma select_total sha c l ext c' :
  upgradeContractForRecovery c = Ok c' → ∃ d, selectSchedulableSet sha c l ext = Ok d.
Proof.
  intros H. unfold selectSchedulableSet, eligibleIndependentItems. rewrite H. cbn [rbind].
  destruct (frontier _ _ _); [eauto|]. destruct (merge_barrier l); eauto.
Qed.

(** The scheduler makes progress: on a contract whose recovery policy
    compiles it returns a decision, and without a merge barrier the first
    eligible item is selected unless it drifts, whatever the budget says; a
    budget of one selects it alone. *)
Theorem schedule_progress sha c c' l ext x fr :
  LedgerWF l → NoDup (item_ids c) → upgradeContractForRecovery c = Ok c' → merge_barrier l = None →
  frontier c l ext = x :: fr → x ∉ unresolvedDriftIds l →
  ∃ d, selectSchedulableSet sha c l ext = Ok d ∧ x ∈ selected d ∧ (scheduleBudget c = 1 → selected d = [x]).
Proof.
  intros Hwf Hnd Hc Hm Hf Hx. destruct (select_total sha c l ext c' Hc) as [d H]. exists d. split; [done|].
  apply select_cases in H; [|done..]. rewrite Hm, Hf in H. subst d. cbn [selected].
  pose proof (admit_head (contractPath c) (contractVerdict c) (unresolvedDriftIds l) (scheduleBudget c) x fr
                (scheduleBudget_pos c) Hx) as Hin. split; [done|].
  intros Hb. pose proof (ad_budget _ _ _ _ _ _
    (admit_inv (contractPath c) (contractVerdict c) (unresolvedDriftIds l) (scheduleBudget c) (x :: fr))) as Hl.
  rewrite Hb in Hl, Hin |- *. destruct (selected _) as [|y [|z ys]]; [inversion Hin| |simpl in Hl; lia].
  by apply list_elem_of_singleton in Hin as ->.
Qed.

(** While done items have done dependencies, the frontier is an antichain
    of the dependency graph: the path test the admission loop makes between
    candidates never fires. *)
Theorem frontier_antichain sha c l ext fr a b :
  LedgerWF l → NoDup (item_ids c) →
  (∀ it d, it ∈ c_items c → Done l (ci_id it) → d ∈ depends_on it → Done l d) →
  eligibleIndependentItems sha c l ext = Ok fr → a ∈ fr → b ∈ fr →
  hasDependencyPath (itemsById c) a b = false.
Proof.
  intros Hwf Hnd Hdone H. apply eligible_frontier in H as ->; [|done..].
  assert (∀ x y, tc (edge (itemsById c)) x y → (∀ d, edge (itemsById c) x d → Done l d) → Done l y) as Hreach.
  { intros x y Ht. induction Ht as [x y Hxy|x z y Hxz _ IH]; intros Hx; [by apply Hx|]. apply IH.
    intros d Hd. apply edge_item in Hd as (it & Hit & <- & Hd). eapply Hdone; eauto. }
  assert (∀ x y, x ∈ frontier c l ext → y ∈ frontier c l ext → ¬ tc (edge (itemsById c)) x y) as Hn.
  { intros x y Hx Hy Ht. apply frontier_elem in Hx as (itx & <- & Hx), Hy as (ity & <- & Hy); [|done..].
    destruct (Hreach _ _ Ht) as (s & Hs & Hds).
    - intros d Hd. unfold edge in Hd. rewrite itemsById_deps in Hd by (done || apply Hx). by apply Hx.
    - rewrite (el_pending _ _ _ _ Hy) in Hs. by simplify_eq. }
  intros Ha Hb. apply path_false. auto.
Qed.

(** The closure is needed: with a finished item between two pending ones the
    frontier does offer an item and its transitive dependency together, and it
    is the path test that keeps them apart. *)
Theorem frontier_can_hold_linked_items :
  ∃ c l d, LedgerWF l ∧ NoDup (item_ids c) ∧
    eligibleIndependentItems (fun s => s) c l ∅ = Ok ["base"; "top"] ∧
    tc (edge (itemsById c)) "top" "base" ∧
    selectSchedulableSet (fun s => s) c l ∅ = Ok d ∧ selected d = ["base"] ∧
    mkRationale "top" DependencyPath (Some "base") None ∈ rationale d.
Proof.
  exists (mkContract "run" None Claude None
      [FrontierSample.item "base" [] []; FrontierSample.item "mid" ["base"] []; FrontierSample.item "top" ["mid"] []]
      (Some (num 4)) []),
    (FrontierSample.ledger [FrontierSample.entry "base" Pending None; FrontierSample.entry "mid" Ready None;
                            FrontierSample.entry "top" Pending None]).
  eexists. split; [apply LedgerWF_check; [by apply (bool_decide_unpack _); vm_compute|by vm_compute]|].
  split; [by apply (bool_decide_unpack _); vm_compute|]. split; [vm_compute; reflexivity|].
  split; [apply depends_tc; vm_compute; reflexivity|]. split; [vm_compute; reflexivity|].
  split; [vm_compute; reflexivity|]. by apply (bool_decide_unpack _); vm_compute.
Qed.

(** The post-run check reports real overlap, all of it and nothing else: an
    item is affected iff another item changed a file it changed, a path is
    listed iff two items changed it, both lists are sorted, and a replan is
    requested exactly when some path is. *)
Theorem overlap_exact files time :
  NoDup (okeys files) →
  let r := detectChangedFileOverlap files in
  (∀ x, x ∈ affected_item_ids r ↔ ∃ y p, x ≠ y ∧ changed_by files x p ∧ changed_by files y p) ∧
  (∀ p, p ∈ overlapping_paths r ↔ ∃ x y, x ≠ y ∧ changed_by files x p ∧ changed_by files y p) ∧
  StronglySorted String.le (affected_item_ids r) ∧ StronglySorted String.le (overlapping_paths r) ∧
  (is_Some (buildReplanRequest r time) ↔ overlapping_paths r ≠ []).
Proof.
  intros Hnd r. split; [intros x; by apply detect_affected|]. split; [intros p; by apply detect_paths|].
  split; [apply js_sort_sorted|]. split; [apply js_sort_sorted|]. unfold buildReplanRequest.
  pose proof (fun x => detect_affected files x Hnd) as Ha. pose proof (fun p => detect_paths files p Hnd) as Hp.
  fold r in Ha, Hp. destruct (affected_item_ids r) as [|x xs]; destruct (overlapping_paths r) as [|p ps].
  - split; [by intros [? ?]|done].
  - exfalso. destruct (proj1 (Hp p) (list_elem_of_here _ _)) as (x & y & Hx).
    assert (x ∈ []) as Hin by (apply Ha; eauto). inversion Hin.
  - exfalso. destruct (proj1 (Ha x) (list_elem_of_here _ _)) as (y & p & Hx).
    assert (p ∈ []) as Hin by (apply Hp; eauto). inversion Hin.
  - split; [done|eauto].
Qed.

(** ** Samples *)

Module ScheduleSample.
Definition own (paths : list string) : option OwnershipDeclaration :=
  Some (Build_OwnershipDeclaration (Some paths) None None None).
Definition item (i : string) (deps : list string) (o : option OwnershipDeclaration) : LoopContractItem :=
  mkContractItem i deps (Some []) o.

(** 1 and 2 own disjoint trees, 3 clashes with 1, 4 declares nothing, 5 waits
    on 2, and 6 is one more than the budget. *)
Definition contract : LoopContract :=
  mkContract "run" None Claude None
    [item "1" [] (own ["src/api/**"]); item "2" [] (own ["src/db/**"]); item "3" [] (own ["src/api/users.ts"]);
     item "4" [] None; item "5" ["2"] (own ["docs/*"]); item "6" [] (own ["tests/*"])] (Some (num 2)) [].
Definition run : LoopLedger :=
  FrontierSample.ledger ((fun i => FrontierSample.entry i Pending None) <$> ["1"; "2"; "3"; "4"; "5"; "6"]).
Definition decision : ScheduleDecision :=
  mkDecision ["1"; "2"]
    [mkRationale "1" ItemAdmitted None None; mkRationale "2" ItemAdmitted None None;
     mkRationale "3" ConflictEdge (Some "1") (Some "source:src/api/users.ts");
     mkRationale "4" UnknownOwner (Some "1") (Some (noSurfaces (evalInput "4" None)));
     mkRationale "6" BudgetTruncation None None;
     mkRationale "5" DependencyPath (Some "2") None].

Lemma sample_wf : LedgerWF run.
Proof. apply LedgerWF_check; [by apply (bool_decide_unpack _); vm_compute|by vm_compute]. Defined.
Lemma sample_ids : NoDup (item_ids contract).
Proof. by apply (bool_decide_unpack _); vm_compute. Defined.

Definition files : obj (list string) := [("9", ["a.ts"; "b.ts"]); ("7", ["b.ts"]); ("8", ["c.ts"])].

(** Shared surfaces may overlap while their patterns differ. *)
Definition shares (pattern : string) : option OwnershipDeclaration :=
  Some (Build_OwnershipDeclaration None (Some [("shared_config", [pattern])]) None None).
Definition sharing : LoopContract :=
  mkContract "run" None Claude None
    [item "1" [] (shares "config/**"); item "2" [] (shares "config/a.ts")] (Some (num 2)) [].
Definition sharingRun : LoopLedger :=
  FrontierSample.ledger ((fun i => FrontierSample.entry i Pending None) <$> ["1"; "2"]).

Example decided : selectSchedulableSet (fun s => s) contract run ∅ = Ok decision.
Proof. vm_compute. reflexivity. Qed.
End ScheduleSample.

Lemma schedule_safe_witness :
  evaluateConflict (evalInputOf ScheduleSample.contract "1") (evalInputOf ScheduleSample.contract "2") = Disjoint ∧
  length (selected ScheduleSample.decision) <= scheduleBudget ScheduleSample.contract.
Proof.
  assert (selectSchedulableSet (fun s => s) ScheduleSample.contract ScheduleSample.run ∅ =
          Ok ScheduleSample.decision) as H by (vm_compute; reflexivity).
  destruct (schedule_safe _ _ _ _ _ ScheduleSample.sample_wf ScheduleSample.sample_ids H)
    as (_ & Hl & _ & _ & Hp).
  split; [|exact Hl]. apply (Hp "1" "2"); [left|right; left|discriminate].
Defined.

Lemma schedule_paths_disjoint_witness :
  ∃ d, selectSchedulableSet (fun s => s) ScheduleSample.sharing ScheduleSample.sharingRun ∅ = Ok d ∧
    selected d = ["1"; "2"] ∧ SharedClass = SharedClass ∧ SharedClass = SharedClass.
Proof.
  eexists. split; [vm_compute; reflexivity|]. split; [reflexivity|].
  apply (schedule_paths_disjoint (fun s => s) ScheduleSample.sharing ScheduleSample.sharingRun ∅ _
           (ScheduleSample.item "1" [] (ScheduleSample.shares "config/**"))
           (ScheduleSample.item "2" [] (ScheduleSample.shares "config/a.ts"))
           (mkSurface "shared_config" "config/**" SharedClass) (mkSurface "shared_config" "config/a.ts" SharedClass)
           [chars "config"; chars "a.ts"]
           ltac:(apply LedgerWF_check; [by apply (bool_decide_unpack _); vm_compute|by vm_compute])
           ltac:(by apply (bool_decide_unpack _); vm_compute) ltac:(vm_compute; reflexivity)); simpl.
  - left.
  - right; left.
  - left.
  - right; left.
  - discriminate.
  - by apply (bool_decide_unpack _); vm_compute.
  - by apply (bool_decide_unpack _); vm_compute.
  - unfold covers; vm_compute. apply GM_seg; [done|apply segmentTest_sound; vm_compute; done|].
    apply GM_dstar_more, GM_dstar_none. constructor.
  - unfold covers; vm_compute. do 2 (apply GM_seg; [done|apply segmentTest_sound; vm_compute; done|]). constructor.
Defined.

Lemma schedule_explained_witness :
  ∃ front blocked, rationale ScheduleSample.decision = front ++ blocked ∧
    r_item_id <$> front = ["1"; "2"; "3"; "4"; "6"].
Proof.
  assert (selectSchedulableSet (fun s => s) ScheduleSample.contract ScheduleSample.run ∅ =
          Ok ScheduleSample.decision) as H by (vm_compute; reflexivity).
  destruct (schedule_explained _ _ _ _ _ ScheduleSample.sample_wf ScheduleSample.sample_ids eq_refl H)
    as (front & blocked & Hr & Hf & _).
  exists front, blocked. split; [exact Hr|]. rewrite Hf. vm_compute. reflexivity.
Defined.

Lemma schedule_progress_witness :
  ∃ d, selectSchedulableSet (fun s => s) ScheduleSample.contract ScheduleSample.run ∅ = Ok d ∧ "1" ∈ selected d.
Proof.
  destruct (upgradeContractForRecovery ScheduleSample.contract) as [c'|] eqn:E; [|by vm_compute in E].
  destruct (schedule_progress (fun s => s) ScheduleSample.contract c' ScheduleSample.run ∅ "1"
    ["2"; "3"; "4"; "6"] ScheduleSample.sample_wf ScheduleSample.sample_ids E eq_refl) as (d & H & Hin & _).
  - vm_compute. reflexivity.
  - by apply (bool_decide_unpack _); vm_compute.
  - by exists d.
Defined.

Lemma frontier_antichain_witness : hasDependencyPath (itemsById ScheduleSample.contract) "1" "6" = false.
Proof.
  apply (frontier_antichain (fun s => s) ScheduleSample.contract ScheduleSample.run ∅ ["1"; "2"; "3"; "4"; "6"]).
  - exact ScheduleSample.sample_wf.
  - exact ScheduleSample.sample_ids.
  - intros it d Hit (s & Hs & Hd). exfalso. unfold ScheduleSample.contract in Hit. simpl in Hit.
    repeat (apply elem_of_cons in Hit as [->|Hit]; [vm_compute in Hs; injection Hs as <-; discriminate Hd|]).
    inversion Hit.
  - vm_compute. reflexivity.
  - by apply (bool_decide_unpack _); vm_compute.
  - by apply (bool_decide_unpack _); vm_compute.
Defined.

Lemma overlap_exact_witness :
  detectChangedFileOverlap ScheduleSample.files = mkOverlap ["7"; "9"] ["b.ts"] ∧
  ("8" ∈ affected_item_ids (detectChangedFileOverlap ScheduleSample.files) ↔
   ∃ y p, "8" ≠ y ∧ changed_by ScheduleSample.files "8" p ∧ changed_by ScheduleSample.files y p).
Proof.
  split; [vm_compute; reflexivity|]. apply (overlap_exact ScheduleSample.files "t").
  by apply (bool_decide_unpack _); vm_compute.
Defined.
