(* ===== verification/Precondition.v ===== *)
(** * The precondition stage gate

    [core/scripts/loop/precondition.ts], with the stage vocabulary of
    [core/scripts/types.ts]: which work-list items may enter the frontier, given
    the live [pipeline:*] stage of each, the stage a label list spells, and the
    check that a dispatch moved no label. *)

From Stdlib Require Import Ascii.
From stdpp Require Import base gmap strings list.
From S2P Require Import Prelude LoopTypes Ownership Frontier Dependencies Schedule.

Definition STAGES : list string :=
  ["backlog"; "needs-spec"; "ready"; "planning"; "plan-review"; "pre-code-attestation"; "implementing";
   "design-gate"; "review-1"; "fix-1"; "review-2"; "fix-2"; "pre-merge"; "visual-gate"; "eval-gate";
   "shipcheck-gate"; "ready-to-deploy"; "needs-human"].

Definition LABEL_PREFIX : string := "pipeline:".
Definition BLOCKED_LABEL : string := "blocked".

Definition PRECONDITION_REQUIRED_STAGE : string := LABEL_PREFIX +:+ "ready".

Definition PRE_PIPELINE_STAGE_SUFFIXES : list string := ["backlog"; "needs-spec"].

Definition NON_MID_FLIGHT_STAGE_SUFFIXES : list string :=
  ["backlog"; "needs-spec"; "ready"; "ready-to-deploy"; "needs-human"].

Definition MID_FLIGHT_STAGE_SUFFIXES : list string :=
  filter (fun s => includes s NON_MID_FLIGHT_STAGE_SUFFIXES = false) STAGES.

Definition isPrePipelineStage (stage : option string) : bool :=
  match stage with
  | None => true
  | Some s => includes s PRE_PIPELINE_STAGE_SUFFIXES
  end.

Definition isMidFlightPipelineStage (stage : option string) : bool :=
  match stage with
  | None => false
  | Some s =>
      if includes s NON_MID_FLIGHT_STAGE_SUFFIXES then false
      else if includes s MID_FLIGHT_STAGE_SUFFIXES then true
      else true
  end.

Definition isAdvanceStillNeeded (i : LoopExternalIdentity) : bool :=
  if bool_decide (pr_number i = None) || bool_decide (pr_state i ≠ Some PrStateOpen) then false
  else if ready_label_present i then false
  else if decide (pipeline_stage i = Some "needs-human") then false
  else true.

Definition describeObservedStage (stage : option string) : string :=
  match stage with
  | None => "none"
  | Some s => LABEL_PREFIX +:+ s
  end.

(** The index a label gives its stage, [-1] for every other label. *)
Definition stageIndex (label : string) : Z :=
  match strip_prefix LABEL_PREFIX label with
  | None => -1
  | Some suffix => from_option Z.of_nat (-1)%Z (indexOf suffix STAGES)
  end.

(** The loop's [best] and [bestIndex]. *)
Definition stageStep (b : option string * Z) (label : string) : option string * Z :=
  let index := stageIndex label in
  if (b.2 <? index)%Z then (STAGES !! Z.to_nat index, index) else b.

Definition pipelineStageFromLabels (labels : list string) : option string :=
  (foldl stageStep (None, (-1)%Z) labels).1.

Definition isBlockedInLabels (labels : list string) : bool := includes BLOCKED_LABEL labels.

Record LoopPreconditionExclusion := mkExclusion {
  pe_item_id : string;
  pe_required_stage : string;
  pe_observed_stage : string;
}.

Definition buildPreconditionExclusion (itemId : string) (stage : option string) : LoopPreconditionExclusion :=
  mkExclusion itemId PRECONDITION_REQUIRED_STAGE (describeObservedStage stage).

Definition observedIdentities (l : LoopLedger) : obj LoopExternalIdentity :=
  from_option rec_observed [] (last_reconciliation l).

Definition exclusionFor (l : LoopLedger) (it : LoopContractItem) : option LoopPreconditionExclusion :=
  entry ← oget (items l) (ci_id it);
  if bool_decide (state entry ≠ Pending) then None
  else
    identity ← oget (observedIdentities l) (ci_id it);
    if isPrePipelineStage (pipeline_stage identity)
    then Some (buildPreconditionExclusion (ci_id it) (pipeline_stage identity))
    else None.

Definition classifyPreconditionExclusions (c : LoopContract) (l : LoopLedger) : list LoopPreconditionExclusion :=
  omap (exclusionFor l) (c_items c).

Record LabelEvent := mkLabelEvent {
  le_label : string;
  le_createdAt : string;
}.

#[export] Instance label_event_eq_dec : EqDecision LabelEvent.
Proof. solve_decision. Defined.

Definition eventKey (e : LabelEvent) : string := le_label e +:+ "|" +:+ le_createdAt e.

Definition countOf (m : gmap string nat) (k : string) : nat := default 0 (m !! k).

Definition tally (events : list LabelEvent) : gmap string nat :=
  foldl (fun m e => <[eventKey e := S (countOf m (eventKey e))]> m) ∅ events.

Fixpoint exceeds (remaining : gmap string nat) (after : list LabelEvent) : bool :=
  match after with
  | [] => false
  | e :: after' =>
      match countOf remaining (eventKey e) with
      | O => true
      | S n => exceeds (<[eventKey e := n]> remaining) after'
      end
  end.

Definition hasNewLabelEvent (before after : list LabelEvent) : bool := exceeds (tally before) after.

Definition excludeContractItems (c : LoopContract) (excludedItemIds : gset string) : LoopContract :=
  if decide (excludedItemIds = ∅) then c
  else mkContract (c_run_id c) (c_logical_operation_id c) (c_engine c) (recovery_policy c)
         (filter (fun it => ci_id it ∉ excludedItemIds) (c_items c)) (max_concurrent c) (authority_grants c).

(** ** Facts *)

Lemma stages_nodup : NoDup STAGES.
Proof. by apply (bool_decide_unpack _); vm_compute. Qed.

(** A known stage label has the index of its stage. *)
Lemma stageIndex_known s n : STAGES !! n = Some s → stageIndex (LABEL_PREFIX +:+ s) = Z.of_nat n.
Proof.
  intros Hn. unfold stageIndex. rewrite (proj2 (strip_prefix_Some LABEL_PREFIX _ s) eq_refl).
  destruct (proj2 (indexOf_is_Some s STAGES)) as [m Hm]; [by eapply list_elem_of_lookup_2|].
  rewrite Hm. simpl. apply indexOf_Some in Hm. pose proof (NoDup_lookup _ _ _ _ stages_nodup Hn Hm). lia.
Qed.

Lemma stageIndex_inv label : (0 <= stageIndex label)%Z →
  ∃ s, STAGES !! Z.to_nat (stageIndex label) = Some s ∧ label = LABEL_PREFIX +:+ s.
Proof.
  unfold stageIndex. destruct (strip_prefix LABEL_PREFIX label) as [s|] eqn:E; [|lia].
  apply strip_prefix_Some in E. destruct (indexOf s STAGES) as [n|] eqn:En; simpl; [|lia].
  intros _. exists s. rewrite Nat2Z.id. split; [by apply indexOf_Some|done].
Qed.

Definition best_of (labels : list string) (b : option string * Z) : Prop :=
  (-1 <= b.2)%Z ∧ (∀ x, x ∈ labels → (stageIndex x <= b.2)%Z) ∧
  ((b.2 = -1)%Z ∧ b.1 = None ∨
   ∃ x, x ∈ labels ∧ stageIndex x = b.2 ∧ (0 <= b.2)%Z ∧ b.1 = STAGES !! Z.to_nat b.2).

Lemma stageStep_best labels x b : best_of labels b → best_of (labels ++ [x]) (stageStep b x).
Proof.
  intros (Hlo & Hmax & Hb). unfold stageStep, best_of.
  destruct (Z.ltb_spec b.2 (stageIndex x)) as [Hlt|Hge]; simpl.
  - split; [lia|]. split.
    + intros y [Hy|Hy]%elem_of_app; [specialize (Hmax y Hy); lia|]. apply list_elem_of_singleton in Hy as ->. lia.
    + right. exists x. split; [apply elem_of_app; right; left|]. split; [done|]. split; [lia|done].
  - split; [done|]. split.
    + intros y [Hy|Hy]%elem_of_app; [by apply Hmax|]. apply list_elem_of_singleton in Hy as ->. lia.
    + destruct Hb as [?|(y & ? & ?)]; [by left|right]. exists y. split; [apply elem_of_app; by left|done].
Qed.

Lemma stages_best labels : best_of labels (foldl stageStep (None, (-1)%Z) labels).
Proof.
  induction labels as [|x labels IH] using rev_ind.
  - split; [simpl; lia|]. split; [intros x Hx; inversion Hx|by left].
  - rewrite foldl_app. by apply stageStep_best.
Qed.

(** The stage at index [n] is read exactly when its label is present and no
    label of a later stage is. *)
Lemma stageFromLabels_spec labels s n :
  STAGES !! n = Some s →
  pipelineStageFromLabels labels = Some s ↔
  LABEL_PREFIX +:+ s ∈ labels ∧ ∀ m s', STAGES !! m = Some s' → LABEL_PREFIX +:+ s' ∈ labels → m <= n.
Proof.
  intros Hn. unfold pipelineStageFromLabels. destruct (stages_best labels) as (Hlo & Hmax & Hb). split.
  - intros Hs. destruct Hb as [[_ Hb]|(x & Hx & Hi & Hge & Hb)]; [congruence|].
    destruct (stageIndex_inv x) as (s' & Hs' & ->); [lia|].
    assert (s' = s) as -> by (rewrite Hi in Hs'; congruence). split; [done|].
    intros m s' Hm Hin. specialize (Hmax _ Hin). rewrite (stageIndex_known _ _ Hm) in Hmax.
    rewrite (stageIndex_known _ _ Hn) in Hi. lia.
  - intros [Hin Hle]. pose proof (Hmax _ Hin) as Hge. rewrite (stageIndex_known _ _ Hn) in Hge.
    destruct Hb as [[Hb _]|(x & Hx & Hi & Hge' & ->)]; [lia|].
    destruct (stageIndex_inv x) as (s' & Hs' & ->); [lia|]. specialize (Hle _ _ Hs' Hx).
    rewrite <-Hn. f_equal. lia.
Qed.

Lemma stageFromLabels_known labels s : pipelineStageFromLabels labels = Some s → s ∈ STAGES.
Proof.
  unfold pipelineStageFromLabels. destruct (stages_best labels) as (_ & _ & Hb). intros Hs.
  destruct Hb as [[_ Hb]|(x & _ & _ & _ & Hb)]; [congruence|]. rewrite Hb in Hs. by eapply list_elem_of_lookup_2.
Qed.

Lemma stageFromLabels_None labels :
  pipelineStageFromLabels labels = None ↔ ∀ s, s ∈ STAGES → LABEL_PREFIX +:+ s ∉ labels.
Proof.
  unfold pipelineStageFromLabels. destruct (stages_best labels) as (Hlo & Hmax & Hb). split.
  - intros Hs s [n Hn]%list_elem_of_lookup_1 Hin. specialize (Hmax _ Hin). rewrite (stageIndex_known _ _ Hn) in Hmax.
    destruct Hb as [[Hb _]|(x & _ & Hi & Hge & Hb)]; [lia|].
    destruct (stageIndex_inv x) as (s' & Hs' & _); [lia|]. rewrite Hi in Hs'. congruence.
  - intros Hno. destruct Hb as [[_ Hb]|(x & Hx & Hi & Hge & Hb)]; [done|].
    destruct (stageIndex_inv x) as (s' & Hs' & ->); [lia|]. by destruct (Hno s'); [eapply list_elem_of_lookup_2|].
Qed.

(** *** Label events *)

Definition occurrences (k : string) (events : list LabelEvent) : nat :=
  length (filter (fun e => eventKey e = k) events).

Lemma occurrences_cons k e events :
  occurrences k (e :: events) = (if decide (eventKey e = k) then S (occurrences k events) else occurrences k events).
Proof. unfold occurrences. rewrite filter_cons. by destruct (decide (eventKey e = k)). Qed.

Lemma countOf_insert m k n k' : countOf (<[k := n]> m) k' = if decide (k = k') then n else countOf m k'.
Proof.
  unfold countOf. destruct (decide (k = k')) as [<-|]; [by rewrite lookup_insert_eq|by rewrite lookup_insert_ne].
Qed.

Lemma tally_spec events k : countOf (tally events) k = occurrences k events.
Proof.
  unfold tally. induction events as [|e events IH] using rev_ind; [done|].
  rewrite foldl_app. simpl. unfold occurrences. rewrite filter_app, length_app. fold (occurrences k events).
  rewrite filter_cons, countOf_insert. destruct (decide (eventKey e = k)) as [<-|Hne]; simpl; lia.
Qed.

Lemma exceeds_spec remaining after :
  exceeds remaining after = true ↔ ∃ k, countOf remaining k < occurrences k after.
Proof.
  revert remaining. induction after as [|e after IH]; intros remaining; simpl.
  { split; [done|]. intros [k Hk]. unfold occurrences in Hk. simpl in Hk. lia. }
  setoid_rewrite occurrences_cons. destruct (countOf remaining (eventKey e)) as [|n] eqn:E.
  { split; [|done]. intros _. exists (eventKey e). rewrite E. destruct (decide _); [lia|done]. }
  rewrite IH. split; intros [k Hk]; exists k; revert Hk; rewrite countOf_insert;
    (destruct (decide (eventKey e = k)) as [<-|Hne]; [rewrite E; lia|done]).
Qed.

(** A timestamp without a bar makes the key of an event unambiguous. *)
Definition bar_free (s : string) : Prop := "|"%char ∉ chars s.

Lemma eventKey_inj e e' : bar_free (le_createdAt e) → bar_free (le_createdAt e') → eventKey e = eventKey e' → e = e'.
Proof.
  destruct e as [l t], e' as [l' t']. unfold eventKey, bar_free. simpl. intros Ht Ht' Heq.
  apply (f_equal String.list_ascii_of_string) in Heq. rewrite !chars_app in Heq.
  apply last_separator in Heq as [? ?]; [|done..]. f_equal; by apply chars_inj.
Qed.

Lemma new_event_keys before after :
  hasNewLabelEvent before after = true ↔ ∃ k, occurrences k before < occurrences k after.
Proof. unfold hasNewLabelEvent. rewrite exceeds_spec. by setoid_rewrite tally_spec. Qed.

Definition copies (e : LabelEvent) (events : list LabelEvent) : nat := length (filter (eq e) events).

Lemma occurrences_copies e events :
  bar_free (le_createdAt e) → (∀ x, x ∈ events → bar_free (le_createdAt x)) →
  occurrences (eventKey e) events = copies e events.
Proof.
  intros He Hall. unfold occurrences, copies. induction events as [|x events IH]; [done|]. rewrite !filter_cons.
  assert (eventKey x = eventKey e ↔ e = x) as Hx.
  { split; [|by intros <-]. intros Hk. symmetry. apply eventKey_inj; [|done..]. apply Hall. left. }
  destruct (decide (eventKey x = eventKey e)), (decide (e = x)); try tauto; simpl;
    rewrite IH by (intros y Hy; apply Hall; by right); done.
Qed.

(** *** The pruned contract *)

Lemma exclude_items c ids : c_items (excludeContractItems c ids) = filter (fun it => ci_id it ∉ ids) (c_items c).
Proof.
  unfold excludeContractItems. destruct (decide (ids = ∅)) as [->|]; [|done].
  induction (c_items c) as [|it its IH]; [done|]. rewrite filter_cons. destruct (decide _) as [|Hn]; [by f_equal|].
  destruct Hn. set_solver.
Qed.

Lemma exclude_NoDup c ids : NoDup (item_ids c) → NoDup (item_ids (excludeContractItems c ids)).
Proof.
  unfold item_ids. rewrite exclude_items. intros H. eapply sublist_NoDup; [exact H|].
  apply fmap_sublist, sublist_filter.
Qed.

Definition excludedIds (c : LoopContract) (l : LoopLedger) : gset string :=
  list_to_set (pe_item_id <$> classifyPreconditionExclusions c l).

(** An observation of the current cycle that is still before the precondition. *)
Definition heldBack (l : LoopLedger) (i : string) : Prop :=
  state_of (items l) i = Some Pending ∧
  ∃ o, oget (observedIdentities l) i = Some o ∧ isPrePipelineStage (pipeline_stage o) = true.

Lemma exclusionFor_spec l it x :
  exclusionFor l it = Some x ↔
  state_of (items l) (ci_id it) = Some Pending ∧
  ∃ o, oget (observedIdentities l) (ci_id it) = Some o ∧ isPrePipelineStage (pipeline_stage o) = true ∧
       x = buildPreconditionExclusion (ci_id it) (pipeline_stage o).
Proof.
  unfold exclusionFor, state_of. destruct (oget (items l) (ci_id it)) as [e|]; simpl; [|split; [done|by intros [? _]]].
  case_bool_decide as Hs; [split; [done|by intros [[= ?] _]]|].
  destruct (oget (observedIdentities l) (ci_id it)) as [o|]; simpl; [|split; [done|by intros (_ & ? & [= ] & _)]].
  destruct (isPrePipelineStage (pipeline_stage o)) eqn:E.
  - split; [intros [= <-]|by intros (_ & ? & [= <-] & _ & ->)]. split; [f_equal; tauto|eauto].
  - split; [done|]. intros (_ & ? & [= <-] & Ht & _). congruence.
Qed.

Lemma excludedIds_spec c l i : i ∈ excludedIds c l ↔ i ∈ item_ids c ∧ heldBack l i.
Proof.
  unfold excludedIds, classifyPreconditionExclusions, item_ids, heldBack.
  rewrite elem_of_list_to_set, list_elem_of_fmap. setoid_rewrite list_elem_of_omap. setoid_rewrite exclusionFor_spec.
  rewrite list_elem_of_fmap. split.
  - intros (x & -> & it & Hit & Hp & o & Ho & Hpre & ->). simpl. eauto 10.
  - intros [(it & -> & Hit) [Hp (o & Ho & Hpre)]]. eexists. split; [|by eauto 10]. done.
Qed.

Lemma selected_eligible sha c l ext d a :
  LedgerWF l → NoDup (item_ids c) → selectSchedulableSet sha c l ext = Ok d → a ∈ selected d →
  ∃ it, ci_id it = a ∧ Eligible c l ext it.
Proof.
  intros Hwf Hnd H Ha. apply select_admitted in H; [|done..].
  destruct H as [H|[_ H]]; rewrite H in Ha; [inversion Ha|]. apply frontier_elem; [done..|].
  destruct (admit_inv (contractPath c) (contractVerdict c) (unresolvedDriftIds l) (scheduleBudget c) (frontier c l ext))
    as [Hsub _ _ _ _ _ _]. by eapply elem_of_sublist.
Qed.

(** ** Properties *)

(** The stage read from an issue's labels is a function of the set of
    labels alone: a stage is read exactly when its label is present and no
    label of a later stage is, and none is read exactly when no known stage
    label is present.  Neither order nor repetition nor foreign labels can
    change it. *)
Theorem stage_from_labels_exact labels :
  match pipelineStageFromLabels labels with
  | Some s => ∃ n, STAGES !! n = Some s ∧ LABEL_PREFIX +:+ s ∈ labels ∧
      ∀ m s', STAGES !! m = Some s' → LABEL_PREFIX +:+ s' ∈ labels → m <= n
  | None => ∀ s, s ∈ STAGES → LABEL_PREFIX +:+ s ∉ labels
  end.
Proof.
  destruct (pipelineStageFromLabels labels) as [s|] eqn:E; [|by apply stageFromLabels_None].
  pose proof (stageFromLabels_known _ _ E) as [n Hn]%list_elem_of_lookup_1.
  exists n. split; [done|]. by apply (stageFromLabels_spec labels s n).
Qed.

(** The zero-transition check is a multiset difference: with bar-free
    timestamps, it reports a new event exactly when some event occurs more
    often after the dispatch than before it, so a repeated historical event is
    never taken for a transition and a round trip never hides one. *)
Theorem new_label_event_exact before after :
  (∀ e, e ∈ before ++ after → bar_free (le_createdAt e)) →
  hasNewLabelEvent before after = true ↔ ∃ e, copies e before < copies e after.
Proof.
  intros Hbar. rewrite new_event_keys.
  assert (∀ e, e ∈ before ∨ e ∈ after → bar_free (le_createdAt e)) as Hb by (intros e; rewrite <-elem_of_app; apply Hbar).
  split; intros [k Hk].
  - assert (∃ e, e ∈ after ∧ eventKey e = k) as (e & He & <-).
    { unfold occurrences in Hk. destruct (filter (fun e => eventKey e = k) after) as [|e es] eqn:E; [simpl in Hk; lia|].
      exists e. pose proof (list_elem_of_here e es) as He. rewrite <-E in He. by apply list_elem_of_filter in He as [? ?]. }
    exists e. rewrite !occurrences_copies in Hk by auto. done.
  - assert (k ∈ after) as Hin.
    { unfold copies in Hk. destruct (filter (eq k) after) as [|e es] eqn:E; [simpl in Hk; lia|].
      pose proof (list_elem_of_here e es) as He. rewrite <-E in He. by apply list_elem_of_filter in He as [-> ?]. }
    exists (eventKey k). rewrite !occurrences_copies by auto. done.
Qed.

(** The gate and the scheduler compose: over the pruned contract the
    scheduler only selects items that are eligible in the full contract and are
    not held back by an observed pre-pipeline stage, and the items pruned are
    exactly the contract's held-back ones. *)
Theorem precondition_gate sha c l ext d :
  LedgerWF l → NoDup (item_ids c) →
  selectSchedulableSet sha (excludeContractItems c (excludedIds c l)) l ext = Ok d →
  (∀ i, i ∈ excludedIds c l ↔ i ∈ item_ids c ∧ heldBack l i) ∧
  ∀ a, a ∈ selected d → ¬ heldBack l a ∧ ∃ it, ci_id it = a ∧ Eligible c l ext it.
Proof.
  intros Hwf Hnd H. split; [apply excludedIds_spec|]. intros a Ha.
  destruct (selected_eligible _ _ _ _ _ _ Hwf (exclude_NoDup c _ Hnd) H Ha) as (it & <- & [Hit Hp Hi Hr Hf Hd He]).
  rewrite exclude_items in Hit. apply list_elem_of_filter in Hit as [Hni Hit]. split.
  - intros Hh. apply Hni. apply excludedIds_spec. split; [|done]. apply list_elem_of_fmap. eauto.
  - exists it. split; [done|]. by constructor.
Qed.

(** ** Witnesses *)

Module PreconditionSample.
Definition observed (i : Z) (stage : option string) : LoopExternalIdentity :=
  mkIdentity i true false false None None "" "" None ChecksNone stage "t" None None None None None None None None
    None None None.
(** 1 was observed at [backlog], 2 at [ready], 3 not at all. *)
Definition run : LoopLedger :=
  let l := FrontierSample.ledger ((fun i => FrontierSample.entry i Pending None) <$> ["1"; "2"; "3"]) in
  mkLedger (l_run_id l) (items l) None None None None None
    (Some (mkReconciliation 1 "t" [("1", observed 1 (Some "backlog")); ("2", observed 2 (Some "ready"))] [] []))
    None None 1 None.
Definition contract : LoopContract :=
  mkContract "run" None Claude None
    [FrontierSample.item "1" [] []; FrontierSample.item "2" [] []; FrontierSample.item "3" [] []] None [].
Definition old : LabelEvent := mkLabelEvent "pipeline:ready" "2026-01-01T00:00:00Z".
Definition new : LabelEvent := mkLabelEvent "pipeline:ready" "2026-01-02T00:00:00Z".

Example excluded : pe_item_id <$> classifyPreconditionExclusions contract run = ["1"].
Proof. vm_compute. reflexivity. Qed.
Example stage : pipelineStageFromLabels ["pipeline:review-1"; "bug"; "pipeline:needs-human"; "pipeline:ready"] = Some "needs-human".
Proof. vm_compute. reflexivity. Qed.
End PreconditionSample.

Lemma new_label_event_exact_witness :
  ∃ e, copies e [PreconditionSample.old; PreconditionSample.old] < copies e [PreconditionSample.old; PreconditionSample.new].
Proof.
  apply (new_label_event_exact [PreconditionSample.old; PreconditionSample.old] [PreconditionSample.old; PreconditionSample.new]).
  - intros e He. unfold bar_free. revert e He. apply (proj1 (Forall_forall _ _)). repeat constructor; by apply (bool_decide_unpack _); vm_compute.
  - by vm_compute.
Defined.

Lemma precondition_gate_witness : ¬ heldBack PreconditionSample.run "2" ∧
    ∃ it, ci_id it = "2" ∧ Eligible PreconditionSample.contract PreconditionSample.run ∅ it.
Proof.
  destruct (precondition_gate (fun s => s) PreconditionSample.contract PreconditionSample.run ∅
    (mkDecision ["2"] [mkRationale "2" ItemAdmitted None None; mkRationale "3" UnknownOwner (Some "2") (Some (noSurfaces (evalInput "3" None)))])) as [_ H].
  - apply LedgerWF_check; [by apply (bool_decide_unpack _); vm_compute|by vm_compute].
  - by apply (bool_decide_unpack _); vm_compute.
  - vm_compute. reflexivity.
  - apply H. by apply (bool_decide_unpack _); vm_compute.
Defined.
