(* ===== verification/Observation.v ===== *)
(** * Side-effect certainty

    The proof rules of [core/scripts/operation-observation.ts] that decide,
    from every linked pull request, whether an integration already happened,
    certainly did not, or cannot be told, and what may be done next. *)

From stdpp Require Import base gmap strings list.
From S2P Require Import Prelude LoopTypes.

Definition mayReplaySideEffect (c : SideEffectCertainty) : bool := bool_decide (c = KnownAbsent).

Inductive Treatment := TreatComplete | TreatReplay | TreatCooling.

Definition treatmentForSideEffectCertainty (c : SideEffectCertainty) : Treatment :=
  match c with
  | KnownComplete => TreatComplete
  | KnownAbsent => TreatReplay
  | Uncertain => TreatCooling
  end.

Record LinkedPrIntegrationFact := mkLinked {
  lp_number : Z;
  lp_state : PrState;
  lp_merge_commit_sha : option string;
  lp_contained : option bool;
  lp_artifact_role : option ArtifactRole;
  lp_artifact_identity : option string;
  lp_candidate_sha : option string;
  lp_candidate_epoch : option string;
  lp_logical_operation_id : option string;
}.

Record ExpectedLinkedPrBinding := mkExpected {
  candidateSha : option string;
  logicalOperationId : option string;
}.

(** [v?.trim().toLowerCase() ?? ""]. *)
Definition normSha (v : option string) : string := lowerString (js_trim (default "" v)).

(** [Boolean(v?.trim())]. *)
Definition present (v : option string) : bool := bool_decide (js_trim (default "" v) ≠ "").

Definition isExactLinkedImplementation (pr : LinkedPrIntegrationFact) (expected : ExpectedLinkedPrBinding) : bool :=
  let sha := normSha (lp_candidate_sha pr) in
  let epoch := normSha (lp_candidate_epoch pr) in
  let expectedSha := normSha (candidateSha expected) in
  let expectedOperation := js_trim (default "" (logicalOperationId expected)) in
  bool_decide (lp_artifact_role pr = Some RoleImplementation) && present (lp_artifact_identity pr) &&
  bool_decide (sha ≠ "") && bool_decide (sha = epoch) &&
  (bool_decide (expectedSha = "") || bool_decide (sha = expectedSha)) &&
  (bool_decide (expectedOperation = "") ||
   bool_decide (js_trim <$> lp_logical_operation_id pr = Some expectedOperation)).

Definition isMerged (pr : LinkedPrIntegrationFact) : bool := bool_decide (lp_state pr = PrStateMerged).

(** Merged, contained in the fetched base, and exactly the expected artifact. *)
Definition isContainedMerge (expected : ExpectedLinkedPrBinding) (pr : LinkedPrIntegrationFact) : bool :=
  isMerged pr && bool_decide (lp_contained pr = Some true) && isExactLinkedImplementation pr expected.

Definition integrationSideEffectCertainty (linked : list LinkedPrIntegrationFact) (truncated incompleteDetails : bool)
    (expected : ExpectedLinkedPrBinding) : SideEffectCertainty :=
  if existsb (isContainedMerge expected) linked then KnownComplete
  else if truncated || incompleteDetails then Uncertain
  else if existsb isMerged linked then Uncertain
  else KnownAbsent.

Record SuccessorMutations := mkSuccessor {
  openSuccessorPr : bool;
  rebaseContainedCommits : bool;
}.

Definition successorMutationsAllowed (c : SideEffectCertainty) : SuccessorMutations :=
  let allowed := bool_decide (c = KnownAbsent) in
  mkSuccessor allowed allowed.

(** [linked.find(p)]. *)
Definition js_find {A} (p : A → bool) (l : list A) : option A := head (filter (fun x => p x = true) l).

Definition selectAuthoritativeLinkedPr (linked : list LinkedPrIntegrationFact) (expected : ExpectedLinkedPrBinding)
    : option LinkedPrIntegrationFact :=
  match js_find (isContainedMerge expected) linked with
  | Some pr => Some pr
  | None =>
      match js_find (fun pr => bool_decide (lp_state pr = PrStateOpen) && isExactLinkedImplementation pr expected) linked with
      | Some pr => Some pr
      | None =>
          match js_find isMerged linked with
          | Some pr => Some pr
          | None => head linked
          end
      end
  end.

Record ArchiveDecision := mkArchive {
  archive_certainty : SideEffectCertainty;
  replay_archive : bool;
  dirty_fail_closed : bool;
  archive_rebase_in_progress : bool;
}.

Definition archiveReplayDecision (archiveAlreadyDone rebaseInProgress : bool) (productDirt : list string)
    : ArchiveDecision :=
  let c := if archiveAlreadyDone then KnownComplete
           else if rebaseInProgress then Uncertain
           else KnownAbsent in
  mkArchive c (mayReplaySideEffect c) (bool_decide (productDirt ≠ [])) rebaseInProgress.

(** ** Facts *)

Lemma js_find_Some {A} (p : A → bool) l x : js_find p l = Some x → x ∈ l ∧ p x = true.
Proof.
  unfold js_find. intros H. assert (x ∈ filter (fun x => p x = true) l) as Hx.
  { destruct (filter _ l); simplify_eq/=. left. }
  apply list_elem_of_filter in Hx as [? ?]. auto.
Qed.

Lemma js_find_None {A} (p : A → bool) l : js_find p l = None ↔ ∀ x, x ∈ l → p x = false.
Proof.
  unfold js_find. rewrite head_None. split.
  - intros H x Hx. apply not_true_iff_false. intros Hp.
    pose proof (proj2 (list_elem_of_filter (fun x => p x = true) l x) (conj Hp Hx)) as Hin. rewrite H in Hin. inversion Hin.
  - intros H. destruct (filter (fun x => p x = true) l) as [|x xs] eqn:E; [done|].
    pose proof (list_elem_of_here x xs) as Hin. rewrite <-E in Hin. apply list_elem_of_filter in Hin as [Hp Hx].
    rewrite H in Hp; done.
Qed.

(** What must be known before an integration counts as done, and before its
    absence counts as proven. *)
Definition Integrated (linked : list LinkedPrIntegrationFact) (e : ExpectedLinkedPrBinding) : Prop :=
  ∃ pr, pr ∈ linked ∧ lp_state pr = PrStateMerged ∧ lp_contained pr = Some true ∧
        isExactLinkedImplementation pr e = true.
Definition ProvenAbsent (linked : list LinkedPrIntegrationFact) (truncated incomplete : bool) : Prop :=
  truncated = false ∧ incomplete = false ∧ ∀ pr, pr ∈ linked → lp_state pr ≠ PrStateMerged.

Lemma isContainedMerge_true e pr :
  isContainedMerge e pr = true ↔
  lp_state pr = PrStateMerged ∧ lp_contained pr = Some true ∧ isExactLinkedImplementation pr e = true.
Proof. unfold isContainedMerge, isMerged. rewrite !andb_true_iff, !bool_decide_eq_true. tauto. Qed.

Lemma integrated_true e linked : existsb (isContainedMerge e) linked = true ↔ Integrated linked e.
Proof. rewrite existsb_elem. unfold Integrated. by setoid_rewrite isContainedMerge_true. Qed.

Lemma merged_false linked : existsb isMerged linked = false ↔ ∀ pr, pr ∈ linked → lp_state pr ≠ PrStateMerged.
Proof. rewrite existsb_not_elem. unfold isMerged. by setoid_rewrite bool_decide_eq_false. Qed.

Lemma certainty_complete linked t i e : integrationSideEffectCertainty linked t i e = KnownComplete ↔ Integrated linked e.
Proof.
  rewrite <-integrated_true. unfold integrationSideEffectCertainty. destruct (existsb (isContainedMerge e) linked); [done|].
  by destruct (t || i), (existsb isMerged linked).
Qed.

Lemma certainty_absent linked t i e : integrationSideEffectCertainty linked t i e = KnownAbsent ↔ ProvenAbsent linked t i.
Proof.
  unfold ProvenAbsent. rewrite <-merged_false. unfold integrationSideEffectCertainty.
  destruct (existsb (isContainedMerge e) linked) eqn:E.
  - split; [done|]. intros (_ & _ & H). apply integrated_true in E as (pr & Hin & Hm & _).
    by apply (proj1 (merged_false linked) H) in Hin.
  - destruct t, i, (existsb isMerged linked); simpl; naive_solver.
Qed.

(** ** Properties *)

(** Integration certainty fails closed.  It is [known_complete] exactly
    when some linked pull request is merged, contained in the base and is the
    expected implementation, and [known_absent] exactly when the enumeration
    was complete, every detail was read and no linked pull request is merged;
    successor mutations are allowed in that case only.  The selected authority
    agrees: it is a contained merge exactly when integration is complete. *)
Theorem integration_fail_closed linked truncated incomplete e :
  (integrationSideEffectCertainty linked truncated incomplete e = KnownComplete ↔ Integrated linked e) ∧
  (integrationSideEffectCertainty linked truncated incomplete e = KnownAbsent ↔ ProvenAbsent linked truncated incomplete) ∧
  (openSuccessorPr (successorMutationsAllowed (integrationSideEffectCertainty linked truncated incomplete e)) = true ↔
   ProvenAbsent linked truncated incomplete) ∧
  (Integrated linked e ↔
   ∃ pr, selectAuthoritativeLinkedPr linked e = Some pr ∧ isContainedMerge e pr = true).
Proof.
  split; [apply certainty_complete|]. split; [apply certainty_absent|].
  split; [simpl; rewrite bool_decide_eq_true; apply certainty_absent|].
  rewrite <-integrated_true. unfold selectAuthoritativeLinkedPr.
  destruct (js_find (isContainedMerge e) linked) as [pr|] eqn:E.
  - apply js_find_Some in E as [Hin Hp]. rewrite existsb_elem. split; eauto.
  - pose proof (proj1 (js_find_None _ _) E) as Hno. rewrite (proj2 (existsb_not_elem _ _) Hno).
    split; [done|]. intros (pr & Hs & Hp). assert (pr ∈ linked) as Hin; [|by rewrite Hno in Hp].
    repeat case_match; simplify_eq.
    1, 2: match goal with H : js_find _ _ = Some _ |- _ => by apply js_find_Some in H as [? _] end.
    destruct linked; simplify_eq/=. left.
Qed.

(** A later pull request never hides an earlier integration, whatever its
    state and wherever it is enumerated. *)
Lemma integration_kept linked more t i t' i' e :
  integrationSideEffectCertainty linked t i e = KnownComplete → linked ⊆ more →
  integrationSideEffectCertainty more t' i' e = KnownComplete.
Proof. rewrite !certainty_complete. intros (pr & Hin & H) Hsub. exists pr. split; [by apply Hsub|done]. Qed.
