(* ===== verification/Claims.v ===== *)
(** * Operation claims

    The claim adapter of [core/scripts/operation-observation.ts]: the
    observation record, the decision what a stored claim becomes, the
    compare-and-swap loop of [persistOperationObservation], the lock file that
    makes the swap atomic, and the consumers of a claim.  A claim file is shared
    by every process of the host, so the loop is modelled against the moves the
    others make between its read and its swap. *)

From Stdlib Require Import Ascii.
From stdpp Require Import base gmap strings list relations.
From S2P Require Import Prelude LoopTypes Lifecycle.
Local Open Scope result_scope.

Inductive ObservationLifecycleState := OActive | OCooling | OWaiting | OComplete.

#[export] Instance observation_lifecycle_eq_dec : EqDecision ObservationLifecycleState.
Proof. solve_decision. Defined.

Inductive ArtifactEvidenceRole := EvidencePlanning | EvidenceImplementation.

Record CapabilityRequestObservation := mkCapabilityObs {
  co_capability : string;
  co_detail : string;
}.

Record OperationIdentity := mkOpIdentity {
  o_domain : string;
  o_logical_operation_id : string;
  o_repository : option string;
  o_issue : option Z;
  o_run_id : option string;
}.

(** The literal-typed flags are kept: a document read back may carry others. *)
Record OperationObservation := mkObs {
  o_identity : OperationIdentity;
  o_schema_version : Z;
  o_operation : string;
  o_form_id : string;
  o_certainty : SideEffectCertainty;
  o_lifecycle : ObservationLifecycleState;
  o_human_owned : bool;
  o_complete : bool;
  o_cancelled : bool;
  o_owned : bool;
  o_fault : option string;
  o_message : string;
  o_capability_request : option CapabilityRequestObservation;
  o_invariant : option string;
  o_candidate_epoch : option string;
  o_evidence_role : option ArtifactEvidenceRole;
  o_artifact_identity : option string;
  o_evidence_identity : option string;
  o_attempts_per_strategy : option (obj Z);
  o_strategy_cursor : option Z;
  o_next_eligible_at : option string;
  o_episode_id : option string;
}.

Record PersistedOperationObservation := mkPersisted {
  p_obs : OperationObservation;
  observation_id : string;
  recorded_at : string;
  transitioned_at : option string;
  (** Absent on records written before the swap existed. *)
  claim_revision : option Z;
}.

Definition OPERATION_OBSERVATION_SCHEMA_VERSION : Z := 1.

(** ** Keys and files *)

Definition LOGICAL_OPERATION_ID_PREFIX : string := "lop-".

Definition isLogicalOperationId (value : string) : bool :=
  startsWith value LOGICAL_OPERATION_ID_PREFIX &&
  bool_decide (String.length LOGICAL_OPERATION_ID_PREFIX < String.length value).

Definition operationClaimKey (domain logicalOperationId : string) : string :=
  lowerString (js_trim domain) +:+ "::" +:+ logicalOperationId.

(** [[a-zA-Z0-9._-]]. *)
Definition fileNameChar (c : ascii) : bool :=
  let n := nat_of_ascii c in
  (97 <=? n) && (n <=? 122) || (65 <=? n) && (n <=? 90) || (48 <=? n) && (n <=? 57) ||
  (n =? 46) || (n =? 95) || (n =? 45).

(** [key.replace(/[^a-zA-Z0-9._-]+/g, "_")]. *)
Fixpoint sanitize (run : bool) (l : list ascii) : list ascii :=
  match l with
  | [] => []
  | c :: l' =>
      if fileNameChar c then c :: sanitize false l'
      else if run then sanitize true l' else "_"%char :: sanitize true l'
  end.

Definition observationFileName (key : string) : string := unchars (sanitize false (chars key)) +:+ ".json".

(** A claim file: absent, present but not a readable claim document, or one. *)
Inductive ClaimFile :=
| NoFile
| Unparsable
| Document (p : PersistedOperationObservation).

Definition readClaimFile (f : ClaimFile) : option PersistedOperationObservation :=
  match f with
  | Document raw =>
      if negb (o_owned (p_obs raw)) || bool_decide (o_schema_version (p_obs raw) ≠ OPERATION_OBSERVATION_SCHEMA_VERSION)
      then None
      else if bool_decide (o_domain (o_identity (p_obs raw)) = "") ||
              negb (isLogicalOperationId (o_logical_operation_id (o_identity (p_obs raw)))) then None
      else Some raw
  | NoFile | Unparsable => None
  end.

(** ** Minting observations *)

(** [typeof v === "string" && v.trim() ? v.trim() : null]. *)
Definition trimmed (v : option string) : option string :=
  match v with
  | Some s => truthy (Some (js_trim s))
  | None => None
  end.

Definition mintObservationIdentity (domain : string) (logical_operation_id repository : option string)
    (issue : option Z) (run_id : option string) (mint : string) : result string OperationIdentity :=
  let d := js_trim domain in
  if decide (d = "") then Err "operation observation: domain is required"
  else
    let op := default mint (trimmed logical_operation_id) in
    if negb (isLogicalOperationId op) then Err "operation observation: logical_operation_id is required"
    else Ok (mkOpIdentity d op (trimmed repository) issue (trimmed run_id)).

Definition observationBase (identity : OperationIdentity) (operation form_id message : string)
    (certainty : option SideEffectCertainty) (lifecycle : ObservationLifecycleState) (complete : bool)
    (fault : option string) (capability : option CapabilityRequestObservation) : OperationObservation :=
  mkObs identity OPERATION_OBSERVATION_SCHEMA_VERSION operation form_id (default Uncertain certainty) lifecycle
    false complete false true fault message capability None None None None None None None None None.

Definition ownedAdmissionObservation (identity : OperationIdentity) (operation form_id message : string) : OperationObservation :=
  observationBase identity operation form_id message (Some Uncertain) OActive false None None.

Definition completedOperationObservation (identity : OperationIdentity) (operation form_id message : string) : OperationObservation :=
  observationBase identity operation form_id message (Some KnownComplete) OComplete true None None.

Definition mechanicalFaultObservation (identity : OperationIdentity) (operation form_id message : string)
    (fault : option string) (certainty : option SideEffectCertainty) (capability : option CapabilityRequestObservation)
    : OperationObservation :=
  observationBase identity operation form_id message (Some (default Uncertain certainty)) OCooling false
    (Some (default "mechanical" fault)) capability.

(** ** The next claim *)

Definition CLAIM_CAS_ATTEMPTS : nat := 16.

Definition LIFECYCLE_RANK (s : ObservationLifecycleState) : nat :=
  match s with
  | OActive => 0
  | OCooling => 1
  | OWaiting => 1
  | OComplete => 2
  end.

Definition lifecycleMayAdvance (from to : ObservationLifecycleState) : bool := LIFECYCLE_RANK from <=? LIFECYCLE_RANK to.

Definition claimRevisionOf (record : option PersistedOperationObservation) : Z :=
  default 0%Z (record ≫= claim_revision).

Definition stableObservationId (o : OperationObservation) : string :=
  o_logical_operation_id (o_identity o) +:+ ":" +:+ o_form_id o +:+ ":" +:+ o_operation o.

Definition sameClaimIdentity (a b : OperationObservation) : bool :=
  bool_decide (o_domain (o_identity a) = o_domain (o_identity b)) &&
  bool_decide (o_logical_operation_id (o_identity a) = o_logical_operation_id (o_identity b)) &&
  bool_decide (o_form_id a = o_form_id b) && bool_decide (o_operation a = o_operation b).

Definition isDuplicateClaim (existing o : OperationObservation) : bool :=
  bool_decide (o_lifecycle existing = o_lifecycle o) && bool_decide (o_fault existing = o_fault o) &&
  eqb (o_complete existing) (o_complete o) && bool_decide (o_message existing = o_message o).

(** [x] unless the new record omits the field. *)
Definition orElse {A} (x y : option A) : option A := match x with Some _ => x | None => y end.

(** [{ ...existing, ...obs }]: an optional field the observation omits stays. *)
Definition overlay (e o : OperationObservation) : OperationObservation :=
  mkObs (o_identity o) (o_schema_version o) (o_operation o) (o_form_id o) (o_certainty o) (o_lifecycle o)
    (o_human_owned o) (o_complete o) (o_cancelled o) (o_owned o) (o_fault o) (o_message o) (o_capability_request o)
    (orElse (o_invariant o) (o_invariant e)) (orElse (o_candidate_epoch o) (o_candidate_epoch e))
    (orElse (o_evidence_role o) (o_evidence_role e)) (orElse (o_artifact_identity o) (o_artifact_identity e))
    (orElse (o_evidence_identity o) (o_evidence_identity e))
    (orElse (o_attempts_per_strategy o) (o_attempts_per_strategy e))
    (orElse (o_strategy_cursor o) (o_strategy_cursor e)) (orElse (o_next_eligible_at o) (o_next_eligible_at e))
    (orElse (o_episode_id o) (o_episode_id e)).

(** [decideNextClaim]; the stored object itself is returned where the code does
    so, which its callers test with [===]. *)
Inductive ClaimDecision :=
| KeepClaim (existing : PersistedOperationObservation)
| NextClaim (next : PersistedOperationObservation).

Definition decideNextClaim (existing : option PersistedOperationObservation) (o : OperationObservation)
    (now : string) : ClaimDecision :=
  match existing with
  | None => NextClaim (mkPersisted o (stableObservationId o) now None (Some 1%Z))
  | Some e =>
      if negb (lifecycleMayAdvance (o_lifecycle (p_obs e)) (o_lifecycle o)) then KeepClaim e
      else if sameClaimIdentity (p_obs e) o && isDuplicateClaim (p_obs e) o then KeepClaim e
      else if sameClaimIdentity (p_obs e) o then
        NextClaim (mkPersisted (overlay (p_obs e) o) (observation_id e) (recorded_at e) (Some now)
                     (Some (claimRevisionOf existing + 1)%Z))
      else NextClaim (mkPersisted o (stableObservationId o) now None (Some (claimRevisionOf existing + 1)%Z))
  end.

(** ** Compare and swap *)

Definition claimCasEqual (current expected : option PersistedOperationObservation) : bool :=
  match current, expected with
  | None, None => true
  | Some c, Some e =>
      bool_decide (claimRevisionOf current = claimRevisionOf expected) &&
      bool_decide (observation_id c = observation_id e) &&
      bool_decide (o_lifecycle (p_obs c) = o_lifecycle (p_obs e))
  | _, _ => false
  end.

(** The file after a swap, [None] when it lost.  [lockFree]: the lock file was
    obtained. *)
Definition compareAndSwapClaim (f : ClaimFile) (expected : option PersistedOperationObservation)
    (next : PersistedOperationObservation) (lockFree : bool) : option ClaimFile :=
  match expected with
  | None => match f with NoFile => Some (Document next) | _ => None end
  | Some _ =>
      if negb lockFree then None
      else if claimCasEqual (readClaimFile f) expected then Some (Document next) else None
  end.

Section Persist.
(** What the other processes do to the file between this process's read and its
    swap in each attempt, and whether the lock was free. *)
Context (others : nat → ClaimFile → ClaimFile) (lockFree : nat → bool).

Fixpoint persistLoop (o : OperationObservation) (now : string) (left attempt : nat) (f : ClaimFile)
    : result string PersistedOperationObservation * ClaimFile :=
  let existing := readClaimFile f in
  match decideNextClaim existing o now with
  | KeepClaim e => (Ok e, f)
  | NextClaim next =>
      match left with
      | O => (Err "operation observation: claim CAS retries exhausted", f)
      | S left' =>
          let f' := others attempt f in
          match compareAndSwapClaim f' existing next (lockFree attempt) with
          | Some f'' => (Ok next, f'')
          | None => persistLoop o now left' (S attempt) f'
          end
      end
  end.

Definition persistOperationObservation (o : OperationObservation) (now : string) (f : ClaimFile)
    : result string PersistedOperationObservation * ClaimFile :=
  if blank (o_domain (o_identity o)) || negb (isLogicalOperationId (o_logical_operation_id (o_identity o)))
  then (Err "operation observation: domain and logical_operation_id are required", f)
  else persistLoop o now CLAIM_CAS_ATTEMPTS 0 f.
End Persist.

(** ** Consumers *)

Definition disowned (c : PersistedOperationObservation) : bool :=
  negb (o_owned (p_obs c)) || o_complete (p_obs c) || o_human_owned (p_obs c) || o_cancelled (p_obs c).

Definition loadOwnedOperationClaim (f : ClaimFile) : option PersistedOperationObservation :=
  rec ← readClaimFile f;
  if disowned rec then None else Some rec.

Record OwnedOperation := mkOwned {
  ow_lifecycle : ObservationLifecycleState;
  ow_domain : string;
  ow_logical_operation_id : string;
  ow_issue : option Z;
  ow_run_id : option string;
}.

Definition consumeOwnedOperation (c : PersistedOperationObservation) : result string OwnedOperation :=
  if disowned c then Err "recovery supervisor: claim is not an owned Logical Operation"
  else
    let i := o_identity (p_obs c) in
    Ok (mkOwned (o_lifecycle (p_obs c)) (o_domain i) (o_logical_operation_id i) (o_issue i) (o_run_id i)).

Definition listPersistedOperationObservations (dir : obj ClaimFile) : list PersistedOperationObservation :=
  omap (fun p => if bool_decide (drop (length (chars p.1) - 5) (chars p.1) = chars ".json") then readClaimFile p.2 else None) dir.

(** ** Lawful moves of a claim file *)

Definition rankOf (c : PersistedOperationObservation) : nat := LIFECYCLE_RANK (o_lifecycle (p_obs c)).

(** A readable claim stays readable, its rank never falls, and it only changes
    under a greater revision. *)
Definition lawful (f f' : ClaimFile) : Prop :=
  ∀ c, readClaimFile f = Some c →
  ∃ c', readClaimFile f' = Some c' ∧ rankOf c <= rankOf c' ∧
        (c' = c ∨ (claimRevisionOf (Some c) < claimRevisionOf (Some c'))%Z).

#[export] Instance lawful_preorder : PreOrder lawful.
Proof.
  split; [by intros f c Hc; exists c; eauto|]. intros f g h Hfg Hgh c Hc.
  destruct (Hfg c Hc) as (c1 & Hc1 & Hr1 & Hv1). destruct (Hgh c1 Hc1) as (c2 & Hc2 & Hr2 & Hv2).
  exists c2. split; [done|]. split; [lia|]. destruct Hv1 as [->|], Hv2 as [->|]; auto. right. lia.
Qed.

(** What the static type of an observation guarantees, and the entry check. *)
Definition reportable (o : OperationObservation) : Prop :=
  o_owned o = true ∧ o_schema_version o = OPERATION_OBSERVATION_SCHEMA_VERSION ∧
  blank (o_domain (o_identity o)) = false ∧ isLogicalOperationId (o_logical_operation_id (o_identity o)) = true.

Lemma next_readable e o now n :
  reportable o → decideNextClaim e o now = NextClaim n → readClaimFile (Document n) = Some n.
Proof.
  intros (Hw & Hv & Hd & Hi) H.
  assert (o_owned (p_obs n) = o_owned o ∧ o_schema_version (p_obs n) = o_schema_version o ∧
          o_identity (p_obs n) = o_identity o) as (E1 & E2 & E3).
  { destruct e as [e|]; simpl in H; [repeat case_match|]; by simplify_eq/=. }
  unfold readClaimFile. rewrite E1, E2, E3, Hw, Hv, Hi. simpl.
  case_bool_decide as Hempty; [|done]. by rewrite Hempty in Hd.
Qed.

Lemma next_advances e o now n :
  decideNextClaim (Some e) o now = NextClaim n →
  rankOf e <= rankOf n ∧ claimRevisionOf (Some n) = (claimRevisionOf (Some e) + 1)%Z.
Proof.
  simpl. unfold lifecycleMayAdvance, rankOf. destruct (Nat.leb_spec (LIFECYCLE_RANK (o_lifecycle (p_obs e))) (LIFECYCLE_RANK (o_lifecycle o)));
    simpl; [|done]. intros H0. repeat case_match; by simplify_eq/=.
Qed.

Lemma next_lifecycle e o now n : decideNextClaim e o now = NextClaim n → o_lifecycle (p_obs n) = o_lifecycle o.
Proof. destruct e as [e|]; simpl; repeat case_match; intros; by simplify_eq/=. Qed.

Lemma keep_covers e o now c : decideNextClaim e o now = KeepClaim c → e = Some c ∧ LIFECYCLE_RANK (o_lifecycle o) <= rankOf c.
Proof.
  destruct e as [e|]; simpl; [|done]. unfold lifecycleMayAdvance, rankOf.
  destruct (Nat.leb_spec (LIFECYCLE_RANK (o_lifecycle (p_obs e))) (LIFECYCLE_RANK (o_lifecycle o))); simpl.
  - destruct (sameClaimIdentity _ _ && isDuplicateClaim _ _) eqn:E; [|by case_match].
    intros [= ->]. split; [done|]. apply andb_true_iff in E as [_ E]. unfold isDuplicateClaim in E.
    rewrite !andb_true_iff, !bool_decide_eq_true in E. destruct E as [[[E _] _] _]. by rewrite E.
  - intros [= ->]. split; [done|]. lia.
Qed.

Lemma cas_equal c e :
  claimCasEqual (Some c) (Some e) = true → claimRevisionOf (Some c) = claimRevisionOf (Some e) ∧ rankOf c = rankOf e.
Proof.
  unfold claimCasEqual, rankOf. rewrite !andb_true_iff, !bool_decide_eq_true. intros [[H1 _] ->]. done.
Qed.

(** Replacing a claim the swap found equal to the expected one is lawful. *)
Lemma swap_lawful o now f e n :
  reportable o → decideNextClaim (Some e) o now = NextClaim n →
  claimCasEqual (readClaimFile f) (Some e) = true → lawful f (Document n).
Proof.
  intros Ho Hn Hcas c Hc. rewrite Hc in Hcas. apply cas_equal in Hcas as [Hv Hr].
  destruct (next_advances _ _ _ _ Hn) as [Hr' Hv']. exists n. split; [by eapply next_readable|]. split; [lia|]. right. lia.
Qed.

(** Under lawful moves a claim that compares equal is the claim that was read. *)
Lemma lawful_same f f' e :
  lawful f f' → readClaimFile f = Some e → claimCasEqual (readClaimFile f') (Some e) = true → readClaimFile f' = Some e.
Proof.
  intros Hl He Hcas. destruct (Hl e He) as (c & Hc & _ & [->|Hlt]); [done|].
  rewrite Hc in Hcas. apply cas_equal in Hcas as [? _]. lia.
Qed.

Section PersistFacts.
Context (others : nat → ClaimFile → ClaimFile) (lockFree : nat → bool).
Context (others_lawful : ∀ n f, lawful f (others n f)).

(** The call takes effect at one instant: [f1] is the file at that instant. *)
Definition took_effect (o : OperationObservation) (now : string) (f : ClaimFile) (p : PersistedOperationObservation)
    (f' : ClaimFile) : Prop :=
  ∃ f1, lawful f f1 ∧
    (decideNextClaim (readClaimFile f1) o now = KeepClaim p ∧ f' = f1 ∨
     decideNextClaim (readClaimFile f1) o now = NextClaim p ∧ f' = Document p).

Lemma loop_effect o now left n f r f' :
  reportable o → persistLoop others lockFree o now left n f = (r, f') →
  match r with
  | Ok p => took_effect o now f p f'
  | Err _ => lawful f f'
  end.
Proof.
  intros Ho. revert n f. induction left as [|left IH]; intros n f; simpl;
    destruct (decideNextClaim (readClaimFile f) o now) as [e|nx] eqn:E.
  1, 3: intros [= <- <-]; exists f; split; [done|by left].
  - by intros [= <- <-].
  - destruct (compareAndSwapClaim (others n f) (readClaimFile f) nx (lockFree n)) as [f2|] eqn:Ec.
    + intros [= <- <-]. exists (others n f). split; [apply others_lawful|]. right. revert Ec. unfold compareAndSwapClaim.
      destruct (readClaimFile f) as [e|] eqn:Ef.
      * destruct (lockFree n); simpl; [|done]. destruct (claimCasEqual _ _) eqn:Hcas; [|done]. intros [= <-].
        rewrite (lawful_same f _ e); [done|apply others_lawful|done|done].
      * destruct (others n f); [|done..]. by intros [= <-].
    + intros H. apply IH in H. destruct r as [p|].
      * destruct H as (f1 & Hl & H). exists f1. split; [|done]. etrans; [apply others_lawful|done].
      * etrans; [apply others_lawful|done].
Qed.
End PersistFacts.

Lemma took_effect_covers o now f p f' :
  reportable o → took_effect o now f p f' →
  lawful f f' ∧ readClaimFile f' = Some p ∧ LIFECYCLE_RANK (o_lifecycle o) <= rankOf p.
Proof.
  intros Ho (f1 & Hl & [[Hd ->]|[Hd ->]]).
  - destruct (keep_covers _ _ _ _ Hd) as [-> Hr]. by split.
  - split; [|split; [by eapply next_readable|unfold rankOf; by rewrite (next_lifecycle _ _ _ _ Hd)]].
    etrans; [exact Hl|]. intros c Hc. rewrite Hc in Hd. destruct (next_advances _ _ _ _ Hd) as [Hr Hv].
    exists p. split; [by eapply next_readable|]. split; [done|]. right. lia.
Qed.

(** Why an attempt was lost: the lock was held, the claim was swapped meanwhile,
    or the file exists although no claim could be read from it. *)
Definition lostAttempt (others : nat → ClaimFile → ClaimFile) (lockFree : nat → bool) (n : nat) (f : ClaimFile) : Prop :=
  match readClaimFile f with
  | Some e => lockFree n = false ∨ claimCasEqual (readClaimFile (others n f)) (Some e) = false
  | None => others n f ≠ NoFile
  end.

(** The file as each attempt finds it when every earlier one was lost. *)
Fixpoint fileAt (others : nat → ClaimFile → ClaimFile) (n : nat) (f : ClaimFile) : ClaimFile :=
  match n with
  | O => f
  | S n' => others n' (fileAt others n' f)
  end.

Lemma swap_lost others lockFree n f next :
  compareAndSwapClaim (others n f) (readClaimFile f) next (lockFree n) = None ↔ lostAttempt others lockFree n f.
Proof.
  unfold compareAndSwapClaim, lostAttempt. destruct (readClaimFile f) as [e|]; [|by destruct (others n f)].
  destruct (lockFree n); simpl; [|by split; [left|]]. destruct (claimCasEqual _ _); naive_solver.
Qed.

Lemma loop_exhausted others lockFree o now left n f e f' :
  persistLoop others lockFree o now left n (fileAt others n f) = (Err e, f') →
  f' = fileAt others (n + left) f ∧ ∀ k, n <= k < n + left → lostAttempt others lockFree k (fileAt others k f).
Proof.
  revert n. induction left as [|left IH]; intros n; simpl; destruct (decideNextClaim _ o now) as [|nx]; [done| |done|].
  - intros [= _ <-]. rewrite Nat.add_0_r. split; [done|lia].
  - destruct (compareAndSwapClaim _ _ nx _) as [|] eqn:Ec; [done|]. apply swap_lost in Ec. intros H.
    destruct (IH (S n) H) as [-> Hk]. split; [f_equal; lia|]. intros k Hle.
    destruct (decide (k = n)) as [->|]; [done|]. apply Hk. lia.
Qed.

(** ** The lock file

    [withClaimCasLock] step by step, with the claim file it protects.  A process
    reads and decides, opens the lock file exclusively, compares inside, writes
    and unlinks; when the lock exists it reads the holder's process id, and
    unlinks the file if that process is gone.  Processes may die between any two
    steps. *)
Module Race.
Inductive Pc :=
| Idle
| Decided (expected next : PersistedOperationObservation)
| Peeked (expected next : PersistedOperationObservation)
| Inside (expected next : PersistedOperationObservation)
| Checked (next : PersistedOperationObservation).

Record State := mkState {
  file : ClaimFile;
  caslock : option nat;
  pc : nat → Pc;
  alive : nat → bool;
}.

Definition set_pc (f : nat → Pc) (p : nat) (c : Pc) : nat → Pc := fun q => if decide (q = p) then c else f q.

Inductive step (report : nat → OperationObservation) (now : string) (s : State) : State → Prop :=
| step_read p e n :
    alive s p = true → pc s p = Idle → readClaimFile (file s) = Some e →
    decideNextClaim (Some e) (report p) now = NextClaim n →
    step report now s (mkState (file s) (caslock s) (set_pc (pc s) p (Decided e n)) (alive s))
| step_create p n :
    alive s p = true → pc s p = Idle → file s = NoFile → decideNextClaim None (report p) now = NextClaim n →
    step report now s (mkState (Document n) (caslock s) (pc s) (alive s))
| step_open p e n :
    alive s p = true → pc s p = Decided e n → caslock s = None →
    step report now s (mkState (file s) (Some p) (set_pc (pc s) p (Inside e n)) (alive s))
| step_busy p e n h :
    alive s p = true → pc s p = Decided e n → caslock s = Some h → h ≠ p → alive s h = true →
    step report now s (mkState (file s) (caslock s) (set_pc (pc s) p Idle) (alive s))
| step_peek p e n h :
    alive s p = true → pc s p = Decided e n → caslock s = Some h → h = p ∨ alive s h = false →
    step report now s (mkState (file s) (caslock s) (set_pc (pc s) p (Peeked e n)) (alive s))
| step_reclaim p e n :
    alive s p = true → pc s p = Peeked e n →
    step report now s (mkState (file s) None (set_pc (pc s) p (Decided e n)) (alive s))
| step_compare p e n :
    alive s p = true → pc s p = Inside e n → claimCasEqual (readClaimFile (file s)) (Some e) = true →
    step report now s (mkState (file s) (caslock s) (set_pc (pc s) p (Checked n)) (alive s))
| step_lose p e n :
    alive s p = true → pc s p = Inside e n → claimCasEqual (readClaimFile (file s)) (Some e) = false →
    step report now s (mkState (file s) None (set_pc (pc s) p Idle) (alive s))
| step_write p n :
    alive s p = true → pc s p = Checked n →
    step report now s (mkState (Document n) None (set_pc (pc s) p Idle) (alive s)).

Inductive crash (s : State) : State → Prop :=
| crash_at p : crash s (mkState (file s) (caslock s) (pc s) (fun q => if decide (q = p) then false else alive s q)).

(** Where a process may stand relative to the lock and the file while nobody
    dies. *)
Definition pc_ok (report : nat → OperationObservation) (now : string) (s : State) (p : nat) : Prop :=
  match pc s p with
  | Idle => caslock s ≠ Some p
  | Decided e n => caslock s ≠ Some p ∧ decideNextClaim (Some e) (report p) now = NextClaim n
  | Peeked _ _ => False
  | Inside e n => caslock s = Some p ∧ decideNextClaim (Some e) (report p) now = NextClaim n
  | Checked n => caslock s = Some p ∧ lawful (file s) (Document n) ∧ is_Some (readClaimFile (file s))
  end.

Definition Inv (report : nat → OperationObservation) (now : string) (s : State) : Prop :=
  (∀ p, alive s p = true) ∧ ∀ p, pc_ok report now s p.

Definition inside (s : State) (p : nat) : Prop :=
  match pc s p with Inside _ _ | Checked _ => True | _ => False end.

Lemma inside_holds report now s p : Inv report now s → inside s p → caslock s = Some p.
Proof. intros [_ Hp]. specialize (Hp p). unfold pc_ok, inside in *. destruct (pc s p); naive_solver. Qed.

(** A process the step does not move keeps its place when the lock and the file
    it relies on are kept. *)
Lemma pc_frame report now s s' p :
  pc s' p = pc s p → pc_ok report now s p → (caslock s' = Some p ↔ caslock s = Some p) →
  (file s' = file s ∨ caslock s ≠ Some p) → pc_ok report now s' p.
Proof.
  unfold pc_ok. intros -> Hok Hl Hf. destruct (pc s p); [naive_solver..|]. destruct Hok as (Hc & ? & ?).
  destruct Hf as [->|]; [|done]. split; [by apply Hl|done].
Qed.

Lemma set_pc_same f p c : set_pc f p c p = c.
Proof. unfold set_pc. by rewrite decide_True. Qed.
Lemma set_pc_other f p c q : q ≠ p → set_pc f p c q = f q.
Proof. intros. unfold set_pc. by rewrite decide_False. Qed.

(** One step of process [p]: its own place, and what the others see of it. *)
Lemma inv_moved report now s p c f k :
  Inv report now s → let s' := mkState f k (set_pc (pc s) p c) (alive s) in
  pc_ok report now s' p → (∀ q, q ≠ p → k = Some q ↔ caslock s = Some q) →
  (f = file s ∨ caslock s = Some p) → Inv report now s'.
Proof.
  intros [Hal Hp] s' Hme Hk Hf. split; [done|]. intros q. destruct (decide (q = p)) as [->|Hne]; [done|].
  apply (pc_frame _ _ s); simpl; [by apply set_pc_other|apply Hp|by apply Hk|].
  destruct Hf as [->|Hf]; [by left|right; congruence].
Qed.

Lemma inv_step report now s s' :
  (∀ p, reportable (report p)) → Inv report now s → step report now s s' → Inv report now s'.
Proof.
  intros Hrep Hi Hs. pose proof Hi as [Hal Hp].
  destruct Hs as [p e n _ E Hf Hd|p n _ E Hf Hd|p e n _ E Hc|p e n h _ E Hc Hne _|p e n h _ E Hc Hst|p e n _ E
                 |p e n _ E Hcas|p e n _ E Hcas|p n _ E]; pose proof (Hp p) as Hme; unfold pc_ok in Hme; rewrite E in Hme.
  - apply inv_moved; [done| |done|by left]. unfold pc_ok; simpl; rewrite set_pc_same. done.
  - split; [done|]. intros q. specialize (Hp q). unfold pc_ok in *. simpl. destruct (pc s q); try done.
    destruct Hp as (_ & _ & [c Hc]). by rewrite Hf in Hc.
  - apply inv_moved; [done| | |by left]; [unfold pc_ok; simpl; rewrite set_pc_same; naive_solver|].
    rewrite Hc. intros q Hq. split; congruence.
  - apply inv_moved; [done| |done|by left]. unfold pc_ok; simpl; rewrite set_pc_same. naive_solver.
  - destruct Hst as [->|Hst]; [by destruct Hme|]. by rewrite Hal in Hst.
  - done.
  - apply inv_moved; [done| |done|by left]. unfold pc_ok; simpl; rewrite set_pc_same. destruct Hme as [? Hn].
    split; [done|]. split; [by eapply swap_lawful|]. destruct (readClaimFile (file s)); [by eexists|done].
  - apply inv_moved; [done| | |by left]; [unfold pc_ok; simpl; by rewrite set_pc_same|].
    destruct Hme as [-> _]. intros q Hq. split; congruence.
  - destruct Hme as [Hl _]. apply inv_moved; [done| | |by right]; [unfold pc_ok; simpl; by rewrite set_pc_same|].
    rewrite Hl. intros q Hq. split; congruence.
Qed.

Lemma step_lawful report now s s' : Inv report now s → step report now s s' → lawful (file s) (file s').
Proof.
  intros [_ Hp] Hs. destruct Hs; simpl; try reflexivity.
  - intros c Hc. by rewrite H1 in Hc.
  - specialize (Hp p). unfold pc_ok in Hp. rewrite H0 in Hp. by destruct Hp as (_ & ? & _).
Qed.

Lemma steps_lawful report now s s' :
  (∀ p, reportable (report p)) → Inv report now s → rtc (step report now) s s' →
  Inv report now s' ∧ lawful (file s) (file s').
Proof.
  intros Hrep Hi Hs. induction Hs as [s|s s1 s2 H1 _ IH]; [done|].
  destruct (IH (inv_step _ _ _ _ Hrep Hi H1)) as [? ?]. split; [done|].
  etrans; [by eapply step_lawful|done].
Qed.

Definition start (f : ClaimFile) : State := mkState f None (fun _ => Idle) (fun _ => true).

Lemma start_inv report now f : Inv report now (start f).
Proof. split; [done|]. intros p. unfold pc_ok. done. Qed.
End Race.

(** ** Properties *)

(** C37. Reporting an observation is linearizable: against any lawful moves of
    other processes between its read and its swap, a call that returns took
    effect at one instant, where it replaced or kept exactly the claim then
    stored; afterwards the file holds the returned claim, which is at least as
    advanced as the report, and no claim ever lost rank or went back to an
    earlier revision. *)
Theorem claim_linearizable others lockFree o now f p f' :
  (∀ n g, lawful g (others n g)) → reportable o →
  persistOperationObservation others lockFree o now f = (Ok p, f') →
  took_effect o now f p f' ∧ lawful f f' ∧ readClaimFile f' = Some p ∧ LIFECYCLE_RANK (o_lifecycle o) <= rankOf p.
Proof.
  intros Hl Ho H. pose proof Ho as (_ & _ & Hd & Hi). unfold persistOperationObservation in H. rewrite Hd, Hi in H.
  assert (took_effect o now f p f') as He by exact (loop_effect _ _ Hl _ _ _ _ _ _ _ Ho H).
  split; [done|]. exact (took_effect_covers o now f p f' Ho He).
Qed.

(** The swap loop is bounded: a report is given up only after exactly 16
    attempts, each of which was lost to a held lock, a claim swapped meanwhile
    or an unreadable file; a report with one attempt that is not lost returns.
    In particular an uncontended report of a readable or absent claim returns. *)
Theorem claim_attempts_bounded others lockFree o now f r f' :
  reportable o → persistOperationObservation others lockFree o now f = (r, f') →
  match r with
  | Err _ => f' = fileAt others CLAIM_CAS_ATTEMPTS f ∧
             ∀ k, k < CLAIM_CAS_ATTEMPTS → lostAttempt others lockFree k (fileAt others k f)
  | Ok _ => True
  end ∧
  ((∃ k, k < CLAIM_CAS_ATTEMPTS ∧ ¬ lostAttempt others lockFree k (fileAt others k f)) → ∃ p, r = Ok p).
Proof.
  intros (_ & _ & Hd & Hi) H. unfold persistOperationObservation in H. rewrite Hd, Hi in H. cbn [orb negb] in H.
  destruct r as [p|e]; [by split; [|eexists]|].
  apply (loop_exhausted others lockFree o now CLAIM_CAS_ATTEMPTS 0 f) in H as [-> Hk].
  split; [split; [done|]; intros k ?; apply Hk; lia|]. intros (k & Hlt & Hn). destruct Hn. apply Hk. lia.
Qed.

(** C36. The claim protocol is monotone under any interleaving of any number of
    processes that do not die holding the lock: at most one is inside the
    critical section, and the stored claim never loses rank and only changes
    under a greater revision. *)
Theorem claims_monotone report now f s s' :
  (∀ p, reportable (report p)) → rtc (Race.step report now) (Race.start f) s → rtc (Race.step report now) s s' →
  lawful (Race.file s) (Race.file s') ∧ (∀ p q, Race.inside s' p → Race.inside s' q → p = q).
Proof.
  intros Hrep H0 H1. destruct (Race.steps_lawful _ _ _ _ Hrep (Race.start_inv report now f) H0) as [Hi _].
  destruct (Race.steps_lawful _ _ _ _ Hrep Hi H1) as [Hi' Hl]. split; [done|]. intros p q Hp Hq.
  pose proof (Race.inside_holds _ _ _ _ Hi' Hp). pose proof (Race.inside_holds _ _ _ _ Hi' Hq). congruence.
Qed.

(** ** Witnesses *)

Module ClaimSample.
Definition identity : OperationIdentity := mkOpIdentity "factory" "lop-1" None (Some 7%Z) None.
Definition admission : OperationObservation := ownedAdmissionObservation identity "advance" "form" "admitted".
Definition cooling : OperationObservation := mechanicalFaultObservation identity "advance" "form" "exit 1" None None None.
Definition completed : OperationObservation := completedOperationObservation identity "advance" "form" "done".
Definition stored : PersistedOperationObservation := mkPersisted admission (stableObservationId admission) "t0" None (Some 1%Z).
Definition next (o : OperationObservation) : PersistedOperationObservation :=
  match decideNextClaim (Some stored) o "t1" with KeepClaim p | NextClaim p => p end.

(** In the first attempt another process completes the operation. *)
Definition others (n : nat) (f : ClaimFile) : ClaimFile :=
  if (n =? 0) && claimCasEqual (readClaimFile f) (Some stored) then Document (next completed) else f.

Lemma cooling_reportable : reportable cooling.
Proof. by repeat split. Qed.
Lemma completed_reportable : reportable completed.
Proof. by repeat split. Qed.

Lemma others_lawful n f : lawful f (others n f).
Proof.
  unfold others. destruct (n =? 0); simpl; [|done]. destruct (claimCasEqual _ _) eqn:E; [|done].
  by apply (swap_lawful completed "t1" f stored); [apply completed_reportable| |].
Qed.

(** Processes 0 and 2 report a fault, 1 reports completion. *)
Definition report (p : nat) : OperationObservation := if p =? 1 then completed else cooling.
Lemma report_reportable p : reportable (report p).
Proof. unfold report. destruct (p =? 1); [apply completed_reportable|apply cooling_reportable]. Qed.
End ClaimSample.

Lemma claim_linearizable_witness :
  readClaimFile (Document (ClaimSample.next ClaimSample.completed)) = Some (ClaimSample.next ClaimSample.completed) ∧
  LIFECYCLE_RANK OCooling <= rankOf (ClaimSample.next ClaimSample.completed).
Proof.
  apply (claim_linearizable ClaimSample.others (fun _ => true) ClaimSample.cooling "t1" (Document ClaimSample.stored)
    (ClaimSample.next ClaimSample.completed) (Document (ClaimSample.next ClaimSample.completed))).
  - apply ClaimSample.others_lawful.
  - apply ClaimSample.cooling_reportable.
  - vm_compute. reflexivity.
Defined.

Lemma claim_attempts_bounded_witness :
  ∃ p, (persistOperationObservation (fun _ f => f) (fun n => n =? 15) ClaimSample.cooling "t1" (Document ClaimSample.stored)).1 = Ok p.
Proof.
  apply (claim_attempts_bounded (fun _ f => f) (fun n => n =? 15) ClaimSample.cooling "t1" (Document ClaimSample.stored)
    _ (Document (ClaimSample.next ClaimSample.cooling))).
  - apply ClaimSample.cooling_reportable.
  - vm_compute. reflexivity.
  - exists 15. split; [unfold CLAIM_CAS_ATTEMPTS; lia|]. vm_compute. intros [?|?]; congruence.
Defined.

Lemma claims_monotone_witness :
  ∃ s s', Race.file s = Document ClaimSample.stored ∧ Race.file s' = Document (ClaimSample.next ClaimSample.cooling) ∧
    lawful (Race.file s) (Race.file s').
Proof.
  exists (Race.start (Document ClaimSample.stored)). assert (∃ s', rtc (Race.step ClaimSample.report "t1") (Race.start (Document ClaimSample.stored)) s' ∧
    Race.file s' = Document (ClaimSample.next ClaimSample.cooling)) as (s' & Hs & Hf).
  { eexists. split.
    - eapply rtc_l; [by eapply (Race.step_read _ _ _ 0); vm_compute|].
      eapply rtc_l; [by eapply (Race.step_open _ _ _ 0); vm_compute|].
      eapply rtc_l; [by eapply (Race.step_compare _ _ _ 0); vm_compute|].
      eapply rtc_l; [by eapply (Race.step_write _ _ _ 0); vm_compute|]. reflexivity.
    - vm_compute. reflexivity. }
  exists s'. split; [reflexivity|]. split; [exact Hf|].
  by apply (claims_monotone ClaimSample.report "t1" (Document ClaimSample.stored) _ s' ClaimSample.report_reportable (rtc_refl _ _) Hs).
Defined.

Ltac race_side := first [right; vm_compute; reflexivity | vm_compute; reflexivity].
Tactic Notation "race" uconstr(rule) := eapply rtc_l; [left; apply rule; race_side|]; cbn [Race.file Race.caslock Race.pc Race.alive].

(** The exclusion of [claims_monotone] needs its hypothesis.  When a process
    dies holding the lock, two others can both read its process id; the first
    reclaims and enters, the second then unlinks the first one's lock and enters
    too, and its write takes a completed claim back to Cooling. *)
Theorem dead_holder_breaks_monotonicity :
  ∃ s s', rtc (fun a b => Race.step ClaimSample.report "t1" a b ∨ Race.crash a b) (Race.start (Document ClaimSample.stored)) s ∧
    Race.step ClaimSample.report "t1" s s' ∧
    (o_lifecycle ∘ p_obs <$> readClaimFile (Race.file s)) = Some OComplete ∧
    (o_lifecycle ∘ p_obs <$> readClaimFile (Race.file s')) = Some OCooling.
Proof.
  eexists _, _. split.
  - race (Race.step_read _ _ _ 0 ClaimSample.stored (ClaimSample.next ClaimSample.cooling)).
    race (Race.step_open _ _ _ 0 ClaimSample.stored (ClaimSample.next ClaimSample.cooling)).
    eapply rtc_l; [right; apply (Race.crash_at _ 0)|]; cbn [Race.file Race.caslock Race.pc Race.alive].
    race (Race.step_read _ _ _ 1 ClaimSample.stored (ClaimSample.next ClaimSample.completed)).
    race (Race.step_read _ _ _ 2 ClaimSample.stored (ClaimSample.next ClaimSample.cooling)).
    race (Race.step_peek _ _ _ 1 ClaimSample.stored (ClaimSample.next ClaimSample.completed) 0).
    race (Race.step_peek _ _ _ 2 ClaimSample.stored (ClaimSample.next ClaimSample.cooling) 0).
    race (Race.step_reclaim _ _ _ 1 ClaimSample.stored (ClaimSample.next ClaimSample.completed)).
    race (Race.step_open _ _ _ 1 ClaimSample.stored (ClaimSample.next ClaimSample.completed)).
    race (Race.step_compare _ _ _ 1 ClaimSample.stored (ClaimSample.next ClaimSample.completed)).
    race (Race.step_reclaim _ _ _ 2 ClaimSample.stored (ClaimSample.next ClaimSample.cooling)).
    race (Race.step_open _ _ _ 2 ClaimSample.stored (ClaimSample.next ClaimSample.cooling)).
    race (Race.step_compare _ _ _ 2 ClaimSample.stored (ClaimSample.next ClaimSample.cooling)).
    race (Race.step_write _ _ _ 1 (ClaimSample.next ClaimSample.completed)).
    apply rtc_refl.
  - split; [apply (Race.step_write _ _ _ 2 (ClaimSample.next ClaimSample.cooling)); race_side|]. split; vm_compute; reflexivity.
Qed.
