(* ===== verification/TypedRequests.v ===== *)
(** * Typed requests

    The public typed-request union of [core/scripts/typed-request-resolution.ts]
    with the validators of its three records, and its correspondence with the
    durable-pause kinds of [core/scripts/loop/types.ts].  The records arrive as
    unchecked JSON; a validator returns the complete record or the reason it is
    not one. *)

From stdpp Require Import base gmap strings list.
From S2P Require Import Prelude LoopTypes Lifecycle Observation.
Local Open Scope result_scope.

(** ** Reading unchecked documents *)

(** [v.k] where [v] may be anything; only objects have named fields here. *)
Definition fieldOf (v : option jval) (k : string) : option jval :=
  match v with
  | Some (JObj fs) => oget fs k
  | _ => None
  end.

(** [v && typeof v === "object"]: arrays are objects. *)
Definition isObjectValue (v : option jval) : bool :=
  match v with
  | Some (JObj _) | Some (JArr _) => true
  | _ => false
  end.

(** [typeof v === "string" && v.trim() !== ""]. *)
Definition nonBlankString (v : option jval) : option string :=
  match v with
  | Some (JStr s) => if blank s then None else Some s
  | _ => None
  end.

Definition asString (v : jval) : option string := match v with JStr s => Some s | _ => None end.

(** [Array.isArray(v) && v.every((x) => typeof x === "string")]. *)
Definition stringArray (v : option jval) : option (list string) :=
  match v with
  | Some (JArr xs) => mapM asString xs
  | _ => None
  end.

(** ** Kinds *)

Definition LOOP_HUMAN_INPUT_REQUEST_KINDS : list string := ["decision"; "answer"; "authority-grant"].

Definition isLoopHumanInputRequestKind (v : option jval) : option string :=
  match v with
  | Some (JStr s) => if includes s LOOP_HUMAN_INPUT_REQUEST_KINDS then Some s else None
  | _ => None
  end.

Definition pauseKindToTypedRequest (kind : string) : option PublicTypedRequest :=
  if decide (kind = "decision") then Some DecisionRequest
  else if decide (kind = "answer") then Some CapabilityRequest
  else if decide (kind = "authority-grant") then Some AuthorityRequest
  else None.

Definition typedRequestToPauseKind (r : PublicTypedRequest) : string :=
  match r with
  | DecisionRequest => "decision"
  | CapabilityRequest => "answer"
  | AuthorityRequest => "authority-grant"
  end.

Definition durableClassForTypedRequest (r : PublicTypedRequest) : option DurableBlockerClass :=
  match r with
  | DecisionRequest => Some SpecificationDecision
  | AuthorityRequest => Some MissingAuthority
  | CapabilityRequest => None
  end.

Definition PROTECTED_AUTHORITY_OPERATIONS : list string := ["merge"; "release"; "deploy"; "secret"; "override"].

Definition isProtectedAuthorityOperation (operation : string) : bool :=
  includes (lowerString (js_trim operation)) PROTECTED_AUTHORITY_OPERATIONS.

(** ** Records *)

Record DecisionResolutionPackage := mkDecisionPackage {
  dp_recommendation : string;
  dp_rationale : string;
  dp_alternatives : list string;
  dp_risk : string;
  dp_evidence : list string;
}.

Record CapabilityRequestRecord := mkCapability {
  cr_missing : string;
  cr_provider : string;
  cr_live_probe : string;
  cr_resume_condition : string;
}.

(** The elements of [evidence] are not checked; [grant] is always [null]. *)
Record AuthorityRequestRecord := mkAuthority {
  ar_eligible_actor : string;
  ar_repository : string;
  ar_operation : string;
  ar_scope : string;
  ar_candidate_epoch : option string;
  ar_evidence : list jval;
  ar_expiry : string;
}.

(** The objects the validators return. *)
Definition decisionJson (p : DecisionResolutionPackage) : jval :=
  JObj [("recommendation", JStr (dp_recommendation p)); ("rationale", JStr (dp_rationale p));
        ("alternatives", JArr (JStr <$> dp_alternatives p)); ("risk", JStr (dp_risk p));
        ("evidence", JArr (JStr <$> dp_evidence p))].
Definition capabilityJson (r : CapabilityRequestRecord) : jval :=
  JObj [("missing", JStr (cr_missing r)); ("provider", JStr (cr_provider r)); ("live_probe", JStr (cr_live_probe r));
        ("resume_condition", JStr (cr_resume_condition r))].
Definition authorityJson (r : AuthorityRequestRecord) : jval :=
  JObj [("eligible_actor", JStr (ar_eligible_actor r)); ("repository", JStr (ar_repository r));
        ("operation", JStr (ar_operation r)); ("scope", JStr (ar_scope r));
        ("candidate_epoch", from_option JStr JNull (ar_candidate_epoch r)); ("evidence", JArr (ar_evidence r));
        ("expiry", JStr (ar_expiry r)); ("grant", JNull)].

(** ** Validators *)

Definition require {A} (o : option A) (reason : string) : result string A :=
  match o with
  | Some a => Ok a
  | None => Err reason
  end.

(** A present, non-empty list. *)
Definition nonEmptyList {A} (o : option (list A)) : option (list A) :=
  match o with
  | Some (x :: xs) => Some (x :: xs)
  | _ => None
  end.

Definition validateDecisionPackage (pkg : option jval) : result string DecisionResolutionPackage :=
  if negb (isObjectValue pkg) then Err "decision resolution package is missing"
  else
    try recommendation := require (nonBlankString (fieldOf pkg "recommendation")) "decision resolution missing recommendation" in
    try rationale := require (nonBlankString (fieldOf pkg "rationale")) "decision resolution missing rationale" in
    try alternatives := require (stringArray (fieldOf pkg "alternatives")) "decision resolution missing alternatives" in
    try risk := require (nonBlankString (fieldOf pkg "risk")) "decision resolution missing risk" in
    try evidence := require (nonEmptyList (stringArray (fieldOf pkg "evidence"))) "decision resolution missing evidence" in
    Ok (mkDecisionPackage recommendation rationale alternatives risk evidence).

Definition validateCapabilityRequest (record : option jval) : result string CapabilityRequestRecord :=
  if negb (isObjectValue record) then Err "CapabilityRequest is missing"
  else
    try missing := require (nonBlankString (fieldOf record "missing")) "CapabilityRequest missing capability or information" in
    try provider := require (nonBlankString (fieldOf record "provider")) "CapabilityRequest missing provider" in
    try probe := require (nonBlankString (fieldOf record "live_probe")) "CapabilityRequest missing live probe" in
    try resume := require (nonBlankString (fieldOf record "resume_condition")) "CapabilityRequest missing resume condition" in
    Ok (mkCapability missing provider probe resume).

(** [record.evidence] as an array of any values. *)
Definition anyArray (v : option jval) : option (list jval) :=
  match v with
  | Some (JArr xs) => Some xs
  | _ => None
  end.

(** [typeof e === "string" && e.trim() ? e.trim() : null]. *)
Definition trimmedString (v : option jval) : option string := js_trim <$> nonBlankString v.

Definition grantPresent (record : option jval) : bool :=
  match fieldOf record "grant" with
  | None | Some JNull => false
  | Some _ => true
  end.

Definition validateAuthorityRequest (record : option jval) (tipPresent : bool) : result string AuthorityRequestRecord :=
  if negb (isObjectValue record) then Err "AuthorityRequest is missing"
  else if grantPresent record then Err "AuthorityRequest must not record a default grant"
  else
    try actor := require (nonBlankString (fieldOf record "eligible_actor")) "AuthorityRequest missing eligible actor" in
    try repository := require (nonBlankString (fieldOf record "repository")) "AuthorityRequest missing repository" in
    try operation := require (nonBlankString (fieldOf record "operation")) "AuthorityRequest missing operation" in
    try scope := require (nonBlankString (fieldOf record "scope")) "AuthorityRequest missing scope" in
    try expiry := require (nonBlankString (fieldOf record "expiry")) "AuthorityRequest missing expiry" in
    try evidence := require (nonEmptyList (anyArray (fieldOf record "evidence"))) "AuthorityRequest missing evidence" in
    let epoch := trimmedString (fieldOf record "candidate_epoch") in
    if tipPresent && bool_decide (epoch = None)
    then Err "AuthorityRequest missing candidate epoch while a tip exists"
    else Ok (mkAuthority actor repository operation scope epoch evidence expiry).

(** ** Completeness of a persisted hold

    [persistedTypedRequestComplete] of [core/scripts/loop/pause.ts]. *)
Definition is_ok {E A} (r : result E A) : bool := match r with Ok _ => true | Err _ => false end.

(** [outstanding.typed_request ?? pauseKindToTypedRequest(outstanding.kind)]; a
    spelling outside the union matches none of the three tests. *)
Definition holdTypedRequest (h : LoopHumanInputRequest) : option PublicTypedRequest :=
  match typed_request h with
  | Some s => asPublicTypedRequest (Some s)
  | None => pauseKindToTypedRequest (hold_kind h)
  end.

Definition persistedTypedRequestComplete (h : LoopHumanInputRequest) : bool :=
  match holdTypedRequest h with
  | Some DecisionRequest => is_ok (validateDecisionPackage (decision_package h))
  | Some CapabilityRequest => is_ok (validateCapabilityRequest (capability_request h))
  | Some AuthorityRequest =>
      is_ok (validateAuthorityRequest (authority_request h) (bool_decide (is_Some (truthy (authority_candidate_head h)))))
  | None => false
  end.

(** ** Facts *)

Lemma require_Ok {A} (o : option A) reason a : require o reason = Ok a ↔ o = Some a.
Proof. destruct o; simpl; split; congruence. Qed.

Lemma nonBlankString_spec v s : nonBlankString v = Some s ↔ v = Some (JStr s) ∧ blank s = false.
Proof.
  destruct v as [[| | |t| |]|]; simpl; try (split; [done|by intros [? _]]).
  destruct (blank t) eqn:E; split; [done|intros [[= <-] ?]; congruence|by intros [= <-]|by intros [[= ->] _]].
Qed.

Lemma mapM_asString xs : mapM asString (JStr <$> xs) = Some xs.
Proof. by apply mapM_fmap_Some. Qed.

Lemma nonEmptyList_Some {A} (o : option (list A)) xs : nonEmptyList o = Some xs ↔ o = Some xs ∧ xs ≠ [].
Proof. destruct o as [[|x l]|]; simpl; naive_solver. Qed.

Lemma stringArray_json xs : stringArray (Some (JArr (JStr <$> xs))) = Some xs.
Proof. apply mapM_asString. Qed.

Lemma trimmedString_idem v e : trimmedString v = Some e → trimmedString (Some (JStr e)) = Some e.
Proof.
  unfold trimmedString. intros H. apply fmap_Some in H as (s & Hs & ->). apply nonBlankString_spec in Hs as [-> Hb].
  simpl. rewrite blank_trim, Hb. simpl. by rewrite js_trim_idem.
Qed.

(** A bind that succeeded, for each [require] of a validator. *)
Ltac inv_require H :=
  repeat (let E := fresh "E" in
    match type of H with
    | rbind (require ?o ?r) _ = Ok _ =>
        destruct (require o r) eqn:E; cbn [rbind] in H; [apply require_Ok in E|discriminate H]
    end).

Lemma decision_revalidates v p : validateDecisionPackage v = Ok p → validateDecisionPackage (Some (decisionJson p)) = Ok p.
Proof.
  unfold validateDecisionPackage at 1. destruct (negb (isObjectValue v)); [done|]. intros H. inv_require H.
  apply nonBlankString_spec in E as [_ E], E0 as [_ E0], E2 as [_ E2]. apply nonEmptyList_Some in E3 as [_ E3].
  injection H as <-. unfold validateDecisionPackage. simpl. rewrite E, E0, E2. simpl. rewrite !mapM_asString. simpl.
  by destruct a3.
Qed.

Lemma capability_revalidates v r :
  validateCapabilityRequest v = Ok r → validateCapabilityRequest (Some (capabilityJson r)) = Ok r.
Proof.
  unfold validateCapabilityRequest at 1. destruct (negb (isObjectValue v)); [done|]. intros H. inv_require H.
  apply nonBlankString_spec in E as [_ E], E0 as [_ E0], E1 as [_ E1], E2 as [_ E2].
  injection H as <-. unfold validateCapabilityRequest. simpl. by rewrite E, E0, E1, E2.
Qed.

(** A stored record is at least as complete as the tip it was built for. *)
Lemma authority_revalidates v tip tip' r :
  validateAuthorityRequest v tip = Ok r → (tip' = true → tip = true) →
  validateAuthorityRequest (Some (authorityJson r)) tip' = Ok r.
Proof.
  unfold validateAuthorityRequest at 1. destruct (negb (isObjectValue v)); [done|]. destruct (grantPresent v); [done|].
  intros H Htip. inv_require H.
  apply nonBlankString_spec in E as [_ E], E0 as [_ E0], E1 as [_ E1], E2 as [_ E2], E3 as [_ E3].
  apply nonEmptyList_Some in E4 as [_ E4]. destruct (tip && _) eqn:Et; [done|]. injection H as <-.
  unfold validateAuthorityRequest. simpl. rewrite E, E0, E1, E2, E3. simpl. destruct a4 as [|x xs]; [done|]. simpl.
  set (epoch := trimmedString (fieldOf v "candidate_epoch")) in *.
  assert (trimmedString (Some (from_option JStr JNull epoch)) = epoch) as ->.
  { destruct epoch as [e|] eqn:Ee; [|done]. by apply (trimmedString_idem (fieldOf v "candidate_epoch")). }
  destruct tip'; simpl; [|done]. rewrite Htip in Et by done. simpl in Et. by rewrite Et.
Qed.

(** ** Properties *)

(** C39. Typed requests round-trip.  The pause kinds and the public union are
    mutually inverse, with no fourth kind; a record a validator accepted
    validates again to itself from the document it is stored as, so a hold the
    engine wrote is read back complete; and a stored authority request never
    carries a grant. *)
Theorem typed_request_roundtrip :
  (∀ r, pauseKindToTypedRequest (typedRequestToPauseKind r) = Some r) ∧
  (∀ k r, pauseKindToTypedRequest k = Some r ↔ k = typedRequestToPauseKind r) ∧
  (∀ k, is_Some (pauseKindToTypedRequest k) ↔ k ∈ LOOP_HUMAN_INPUT_REQUEST_KINDS) ∧
  (∀ v p, validateDecisionPackage v = Ok p → validateDecisionPackage (Some (decisionJson p)) = Ok p) ∧
  (∀ v r, validateCapabilityRequest v = Ok r → validateCapabilityRequest (Some (capabilityJson r)) = Ok r) ∧
  (∀ v tip r, validateAuthorityRequest v tip = Ok r →
    validateAuthorityRequest (Some (authorityJson r)) tip = Ok r ∧ grantPresent (Some (authorityJson r)) = false).
Proof.
  assert (∀ k r, pauseKindToTypedRequest k = Some r ↔ k = typedRequestToPauseKind r) as Hk.
  { intros k r. unfold pauseKindToTypedRequest. destruct (decide (k = "decision")) as [->|];
      [|destruct (decide (k = "answer")) as [->|]; [|destruct (decide (k = "authority-grant")) as [->|]]];
      destruct r; simpl; split; congruence. }
  split; [by intros []|]. split; [done|]. split.
  { intros k. unfold LOOP_HUMAN_INPUT_REQUEST_KINDS. rewrite !elem_of_cons, elem_of_nil. split.
    - intros [r Hr]. apply Hk in Hr as ->. destruct r; simpl; auto.
    - intros [->|[->|[->|[]]]]; by eexists. }
  split; [apply decision_revalidates|]. split; [apply capability_revalidates|].
  intros v tip r Hr. split; [by eapply authority_revalidates|done].
Qed.
