(* ===== verification/RecoveryEpisodes.v ===== *)
(** * Recovery episodes

    [core/scripts/loop/recovery-episodes.ts]: candidate-scoped recovery state
    kept on the recovery attempts of the ledger.  The strategy cursor and the
    per-strategy bounds, the selection of the next strategy, Cooling, and the
    relational checks a persisted episode must pass before it is authority. *)

From Stdlib Require Import ZArith QArith Qcanon Qround.
From stdpp Require Import numbers base gmap strings list pretty.
From S2P Require Import Prelude LoopTypes Ownership Lifecycle RecoveryPolicy Frontier.
Local Open Scope result_scope.
Local Open Scope Z_scope.

(** ** Episodes *)

Record RecoveryEpisodeKey := mkKey {
  key_operation : string;
  key_invariant : string;
  key_epoch : string;
  key_evidence : string;
}.

Record RecoveryEpisodeRecord := mkEpisode {
  ep_id : string;
  ep_operation : string;
  ep_invariant : string;
  ep_epoch : string;
  ep_evidence : string;
  ep_counts : obj Z;
  ep_cursor : Z;
  ep_next : string;
  ep_skipped : list string;
  ep_fence : option string;
}.

#[export] Instance episode_key_eq_dec : EqDecision RecoveryEpisodeKey.
Proof. solve_decision. Defined.

Definition sameEpisodeKey (a b : RecoveryEpisodeKey) : bool :=
  bool_decide (key_operation a = key_operation b) && bool_decide (key_invariant a = key_invariant b) &&
  bool_decide (key_epoch a = key_epoch b) && bool_decide (key_evidence a = key_evidence b).

(** [x >= n] between an integer and a number; false on the non-finite ones. *)
Definition reaches (x : Z) (n : jsnum) : bool :=
  match n with Fin q => Qle_bool q (inject_Z x) | NonFinite => false end.

(** [counts[recipe] ?? 0]. *)
Definition spent (counts : obj Z) (r : string) : Z := default 0 (oget counts r).

(** [counts[recipe] = (counts[recipe] ?? 0) + 1]. *)
Definition charge (counts : obj Z) (r : string) : obj Z := oset r (spent counts r + 1) counts.

Definition perStrategyBound (e : RecoveryPolicyEntry) : jsnum :=
  match per_strategy_bound e with
  | Some n => if isFinite n && num_geb n 0 then n else retry_budget e
  | None => retry_budget e
  end.

(** ** Candidate epochs *)

(** [s.includes(t)]. *)
Definition string_includes (s t : string) : bool := contains (chars t) (chars s).

Definition attemptBelongsToCandidateEpoch (candidate_epoch candidate_identity : option string)
    (candidateEpoch : string) : bool :=
  let wanted := lowerString (js_trim candidateEpoch) in
  if decide (wanted = "") then false
  else
    let epoch := lowerString (js_trim (default "" candidate_epoch)) in
    if decide (epoch = wanted) then true
    else if string_includes epoch ("head=" +:+ wanted) then true
    else string_includes (lowerString (default "" candidate_identity)) ("head=" +:+ wanted).

Section Cooling.
(** [Date.parse]; [None] is [NaN]. *)
Context (Date_parse : string → option Z).

(** The attempt a legacy Cooling record was created under. *)
Definition ownsCooling (c : LoopCoolingRecord) (itemId : string) (a : LoopRecoveryAttempt) : bool :=
  if decide (att_item_id a ≠ itemId) then false
  else
    match truthy (cool_next_eligible_at c) with
    | Some t => bool_decide (att_next_eligible_at a = Some t)
    | None => false
    end ||
    match Date_parse (cool_time c), Date_parse (att_time a) with
    | Some ct, Some t => t <=? ct
    | _, _ => false
    end.

Definition coolingIsStaleForNewCandidateEpoch (cooling : option LoopCoolingRecord)
    (attempts : list LoopRecoveryAttempt) (itemId : option string) (candidateEpoch candidateHead : string) : bool :=
  match cooling, truthy itemId with
  | Some c, Some i =>
      match truthy (cool_item_id c) with
      | Some ci => if decide (ci ≠ i) then false else true
      | None => true
      end &&
      let wanted := js_trim candidateEpoch in
      if decide (wanted = "") then false
      else match truthy (cool_candidate_epoch c) with
      | Some e => negb (attemptBelongsToCandidateEpoch (Some e) None wanted)
      | None =>
          match list_find (fun a => ownsCooling c i a = true) (reverse attempts) with
          | None => false
          | Some (_, owner) =>
              negb (attemptBelongsToCandidateEpoch (att_candidate_epoch owner) (candidate_identity owner)
                      (js_trim candidateHead))
          end
      end
  | _, _ => false
  end.

Definition coolingIsActive (cooling : option LoopCoolingRecord) (nowIso : string) : bool :=
  match cooling with
  | None => false
  | Some c =>
      match truthy (cool_next_eligible_at c) with
      | None => true
      | Some t =>
          match Date_parse t, Date_parse nowIso with
          | Some a, Some b => b <? a
          | _, _ => false
          end
      end
  end.
End Cooling.

Definition buildCoolingRecord (reason : CoolingReason) (time nextEligibleAt : string)
    (itemId theme candidateEpoch historicalEvidence quarantinePath : option string) : LoopCoolingRecord :=
  mkCooling reason time (truthy itemId) (truthy theme) (truthy candidateEpoch) (Some nextEligibleAt)
    (truthy historicalEvidence) (truthy quarantinePath).

Definition coolingRecordForItem (l : LoopLedger) (itemId : string) : option LoopCoolingRecord :=
  match item_cooling l ≫= fun o => oget o itemId with
  | Some r => Some r
  | None =>
      match cooling l with
      | Some c => if decide (cool_item_id c = Some itemId) then Some c else None
      | None => None
      end
  end.

Definition stampEpisodeNextEligibleAt (attempts : list LoopRecoveryAttempt) (itemId nextEligibleAt : string)
    : list LoopRecoveryAttempt :=
  match list_find (fun a => att_item_id a = itemId ∧ is_Some (truthy (episode_id a))) (reverse attempts) with
  | None => attempts
  | Some (_, latest) =>
      (fun a => if decide (episode_id a = episode_id latest) then with_next_eligible a nextEligibleAt else a)
        <$> attempts
  end.

(** ** Resuming an episode from its attempts *)

Section Episodes.
Context (sha256hex : string → string).

Definition episodeIdOf (k : RecoveryEpisodeKey) : string :=
  recoveryEpisodeId sha256hex (key_operation k) (key_invariant k) (key_epoch k) (key_evidence k).

(** An upgraded attempt carries its action; an absent one would be keyed as
    the property ["undefined"]. *)
Definition actionKey (a : LoopRecoveryAttempt) : string := default "undefined" (action a).

(** [outcome !== "skipped" && outcome !== "superseded"]. *)
Definition isCharged (a : LoopRecoveryAttempt) : bool :=
  match outcome a with OutSkipped | OutSuperseded => false | _ => true end.

Definition countChargedStrategyAttempts (attempts : list LoopRecoveryAttempt) (k : RecoveryEpisodeKey)
    (recipe : RecoveryRecipe) : nat :=
  length (filter (fun a => episode_id a = Some (episodeIdOf k) ∧ action a = Some (recipe_name recipe) ∧
                           isCharged a = true) attempts).

(** [if (!skipped.includes(r)) skipped.push(r)]. *)
Definition addSkip (skipped : list string) (r : string) : list string :=
  if includes r skipped then skipped else skipped ++ [r].

Definition projectStep (countAll : bool) (acc : obj Z * list string) (a : LoopRecoveryAttempt)
    : obj Z * list string :=
  match outcome a with
  | OutSkipped => (acc.1, addSkip acc.2 (actionKey a))
  | OutSuperseded => acc
  | _ => if countAll then (charge acc.1 (actionKey a), acc.2) else acc
  end.

Definition projectEpisode (matching : list LoopRecoveryAttempt) (latest : LoopRecoveryAttempt)
    (k : RecoveryEpisodeKey) : RecoveryEpisodeRecord :=
  let counts := default [] (attempts_per_strategy latest) in
  let skipped := default [] (skipped_strategies latest) in
  let acc := foldl (projectStep (bool_decide (counts = []))) (counts, skipped) matching in
  mkEpisode (default (episodeIdOf k) (episode_id latest)) (default (key_operation k) (att_operation latest))
    (default (key_invariant k) (invariant latest)) (default (key_epoch k) (att_candidate_epoch latest))
    (default (key_evidence k) (evidence_identity latest)) acc.1 (default 0 (strategy_cursor latest))
    (match att_next_eligible_at latest with
     | Some t => t
     | None => default (att_time latest) (not_before latest)
     end) acc.2 (fence_token latest).

(** The attempts that carry the key without its derived id. *)
Definition matchesKey (k : RecoveryEpisodeKey) (a : LoopRecoveryAttempt) : bool :=
  bool_decide (att_operation a = Some (key_operation k)) && bool_decide (invariant a = Some (key_invariant k)) &&
  bool_decide (att_candidate_epoch a = Some (key_epoch k)) &&
  bool_decide (default (att_evidence_fingerprint a) (evidence_identity a) = key_evidence k).

Definition resumeEpisodeFromAttempts (attempts : list LoopRecoveryAttempt) (k : RecoveryEpisodeKey)
    : option RecoveryEpisodeRecord :=
  let matching := filter (fun a => episode_id a = Some (episodeIdOf k)) attempts in
  match last matching with
  | Some latest => Some (projectEpisode matching latest k)
  | None =>
      let byFields := filter (fun a => matchesKey k a = true) attempts in
      match last byFields with
      | Some latest => Some (projectEpisode byFields latest k)
      | None => None
      end
  end.

Definition emptyEpisode (k : RecoveryEpisodeKey) (nextEligibleAt : string) : RecoveryEpisodeRecord :=
  mkEpisode (episodeIdOf k) (key_operation k) (key_invariant k) (key_epoch k) (key_evidence k) [] 0
    nextEligibleAt [] None.

Definition episodeKeyFromAttempt (a : LoopRecoveryAttempt) (fallbackOperation : string)
    : RecoveryEpisodeKey :=
  mkKey (default fallbackOperation (att_operation a)) (default (att_class a) (invariant a))
    (default (default "undefined" (candidate_identity a)) (att_candidate_epoch a))
    (default (att_evidence_fingerprint a) (evidence_identity a)).
End Episodes.

Definition applyClaimToEpisode (ep : RecoveryEpisodeRecord) (recipe nextEligibleAt : string)
    : RecoveryEpisodeRecord :=
  mkEpisode (ep_id ep) (ep_operation ep) (ep_invariant ep) (ep_epoch ep) (ep_evidence ep)
    (charge (ep_counts ep) recipe) (ep_cursor ep) nextEligibleAt (ep_skipped ep) (ep_fence ep).

Definition applySkipToEpisode (ep : RecoveryEpisodeRecord) (recipe : string) (nextCursor : Z)
    : RecoveryEpisodeRecord :=
  mkEpisode (ep_id ep) (ep_operation ep) (ep_invariant ep) (ep_epoch ep) (ep_evidence ep) (ep_counts ep)
    nextCursor (ep_next ep) (ep_skipped ep ++ [recipe]) (ep_fence ep).

Definition advanceCursor (ep : RecoveryEpisodeRecord) (nextCursor : Z) (nextEligibleAt : string)
    : RecoveryEpisodeRecord :=
  mkEpisode (ep_id ep) (ep_operation ep) (ep_invariant ep) (ep_epoch ep) (ep_evidence ep) (ep_counts ep)
    nextCursor nextEligibleAt (ep_skipped ep) (ep_fence ep).

Definition assertCursorDoesNotRegress (previous next : Z) : result LoopError Z :=
  if next <? 0 then Err (mkLoopError FValidation
         ("strategy cursor must be a non-negative number, got " +:+ pretty next))
  else if next <? previous then Err (mkLoopError FValidation
         ("strategy cursor cannot regress from " +:+ pretty previous +:+ " to " +:+ pretty next))
  else Ok next.

(** ** Selecting the next strategy *)

Inductive SelectStrategyResult :=
| Claim (act : RecoveryRecipe) (cursor : Z) (skipped : list RecoveryRecipe)
| StrategiesExhausted (skipped : list RecoveryRecipe).

Section Selection.
Context (recipes : list RecoveryRecipe) (counts : obj Z)
  (strategyBound : RecoveryRecipe → jsnum) (isApplicable : RecoveryRecipe → bool).

(** [spent >= bound]. *)
Definition used_up (r : RecoveryRecipe) : bool := reaches (spent counts (recipe_name r)) (strategyBound r).

(** The [while] loop, over the recipes from the cursor on. *)
Fixpoint selectFrom (rest : list RecoveryRecipe) (cursor : Z) (skipped : list RecoveryRecipe)
    : SelectStrategyResult :=
  match rest with
  | [] => StrategiesExhausted skipped
  | r :: rest' =>
      if used_up r then selectFrom rest' (cursor + 1) skipped
      else if negb (isApplicable r) then selectFrom rest' (cursor + 1) (skipped ++ [r])
      else Claim r cursor skipped
  end.

Definition selectNextApplicableStrategy (cursor : Z) : SelectStrategyResult :=
  selectFrom (drop (Z.to_nat cursor) recipes) (Z.max 0 cursor) [].

Definition selectEligibleRecoveryStrategy (cursor : Z) (repeatedEvidenceCount : Z)
    (repeatedEvidenceLimit : jsnum) : SelectStrategyResult :=
  let cursor := Z.max 0 cursor in
  match recipes !! Z.to_nat cursor with
  | Some current =>
      if reaches repeatedEvidenceCount repeatedEvidenceLimit && (0 <? spent counts (recipe_name current))
      then selectNextApplicableStrategy (cursor + 1)
      else selectNextApplicableStrategy cursor
  | None => selectNextApplicableStrategy cursor
  end.
End Selection.

(** ** Uncertain claims *)

Inductive ClaimReconciliation := ReconcileForward | Replay | WaitForEvidence.

Definition reconcileUncertainClaim (c : SideEffectCertainty) : ClaimReconciliation :=
  match c with KnownComplete => ReconcileForward | KnownAbsent => Replay | Uncertain => WaitForEvidence end.

(** ** Persisted episodes as authority *)

(** [CLASS_RECOVERY_SEQUENCE]. *)
Definition configuredRecoverySequence (cls : DurableBlockerClass) : list RecoveryRecipe * Z :=
  match cls with
  | TransientRateLimit => ([WaitAndRetry], 5)
  | WorkflowState => ([ResyncWorkflowState; RepairPipelineItem], 3)
  | ImplementationCi => ([VerifyHeadGoal; RerunCi; RepairPipelineItem], 3)
  | ReviewFindings => ([UnlinkEngineScratch; RepairPipelineItem], 3)
  | EnvironmentAuth => ([VerifyAuthentication], 2)
  | SpecificationDecision => ([], 0)
  | MissingAuthority => ([], 0)
  | UpstreamDependency => ([RetryUpstreamCheck], 3)
  | WorkflowEngineDefect =>
      ([UnlinkEngineScratch; CheckpointOwnedHarnessDirt; PublishUnpublishedStageCommit;
        RebindTesterEvidenceAfterPr; RestartWorkflowEngine; RepairPipelineItem], 2)
  end.

(** The recipes and the bound a valid raw policy entry defines. *)
Definition isRecoveryPolicyEntry (cls : DurableBlockerClass) (v : jval) : option (list RecoveryRecipe * jsnum) :=
  match v with
  | JObj f =>
      rs ← match oget f "recipes" with Some (JArr xs) => mapM recipeOf xs | _ => None end;
      budget ← finiteAtLeast 0 (oget f "retry_budget");
      bound ← match oget f "per_strategy_bound" with
              | None => Some budget
              | Some _ => finiteAtLeast 0 (oget f "per_strategy_bound")
              end;
      _ ← compileBackoff (oget f "backoff");
      term ← compileTerminal (oget f "terminal_outcome");
      _ ← match oget f "run_fatal" with Some (JBool b) => Some b | _ => None end;
      _ ← finiteAtLeast 1 (oget f "repeated_evidence_limit");
      if includes cls HUMAN_AUTHORITY_CLASSES &&
         (bool_decide (term ≠ HumanAuthorityOutcome) || bool_decide (rs ≠ [])) then None
      else Some (rs, bound)
  | _ => None
  end.

(** [skipped_strategies] of the record and the skipped rows of its episode. *)
Definition collectSkippedRecipes (value : LoopRecoveryAttempt) (history : list LoopRecoveryAttempt)
    : option (list string) :=
  own ← match skipped_strategies value with
        | None => Some []
        | Some xs =>
            if negb (forallb isRecoveryRecipe xs) then None
            else match strategy_cursor value with
            | Some c => if c <? Z.of_nat (length xs) then None else Some xs
            | None => Some xs
            end
        end;
  let rows := match history with [] => [value] | _ => history end in
  Some (own ++ omap (fun row =>
    if decide (is_Some (episode_id value) ∧ episode_id row ≠ episode_id value) then None
    else match outcome row, action row with
    | OutSkipped, Some r => if isRecoveryRecipe r then Some r else None
    | _, _ => None
    end) rows).

Definition derivedStep (episode : option string) (counts : obj Z) (row : LoopRecoveryAttempt) : obj Z :=
  if decide (episode_id row ≠ episode) then counts
  else match action row with
  | Some r => if isRecoveryRecipe r && isCharged row then charge counts r else counts
  | None => counts
  end.

Definition derivedAttemptCounts (episode : option string) (history : list LoopRecoveryAttempt) : obj Z :=
  foldl (derivedStep episode) [] history.

Definition countsMatchPersisted (persisted derived : obj Z) : bool :=
  forallb (fun r => bool_decide (spent persisted r = spent derived r)) (okeys persisted ++ okeys derived).

Section Accounting.
Context (bound : jsnum) (counts : obj Z) (skipped : list string).

(** Skipped, or spent up to its bound. *)
Definition accounted (r : RecoveryRecipe) : bool :=
  includes (recipe_name r) skipped || reaches (spent counts (recipe_name r)) bound.

Fixpoint justifiedStrategyCursor (recipes : list RecoveryRecipe) : Z :=
  match recipes with
  | [] => 0
  | r :: rest => if accounted r then 1 + justifiedStrategyCursor rest else 0
  end.

Definition sequenceFullyAccounted (recipes : list RecoveryRecipe) : bool := forallb accounted recipes.
End Accounting.

Section Authority.
Context (sha256hex : string → string).

(** The sequence that governs a record: its class's policy entry, or the
    configured default; [None] refuses the record. *)
Definition governingSequence (value : LoopRecoveryAttempt) (policy : option (obj jval))
    : option (list RecoveryRecipe * jsnum) :=
  cls ← match asDurableBlockerClass (att_class value) with
        | Some c => Some c
        | None => invariant value ≫= asDurableBlockerClass
        end;
  match policy ≫= fun p => oget p (blocker_class_name cls) with
  | Some entry => isRecoveryPolicyEntry cls entry
  | None => let '(rs, b) := configuredRecoverySequence cls in Some (rs, num b)
  end.

Definition allowedRecipe (rs : list RecoveryRecipe) (s : string) : bool :=
  match asRecoveryRecipe s with Some r => includes r rs | None => false end.

Definition isAuthoritativeEpisodeState (value : LoopRecoveryAttempt) (siblings : list LoopRecoveryAttempt)
    (policy : option (obj jval)) : bool :=
  match nonBlank (att_operation value), nonBlank (invariant value), att_candidate_epoch value,
        evidence_identity value, nonBlank (episode_id value), strategy_cursor value with
  | Some op, Some inv, Some epoch, Some ev, Some episode, Some cursor =>
      bool_decide (episode = recoveryEpisodeId sha256hex op inv epoch ev) && (0 <=? cursor) &&
      match governingSequence value policy, collectSkippedRecipes value siblings, attempts_per_strategy value with
      | Some (rs, bound), Some skipped, Some persisted =>
          match action value with
          | Some r => negb (isRecoveryRecipe r) || allowedRecipe rs r
          | None => true
          end &&
          forallb (allowedRecipe rs) (actions value) && (cursor <=? Z.of_nat (length rs)) &&
          forallb (allowedRecipe rs) skipped &&
          forallb (fun p => allowedRecipe rs p.1 && (0 <=? p.2)) persisted &&
          (let useDerived := negb (bool_decide (siblings = [])) && bool_decide (outcome value ≠ OutSuperseded) in
           let derived := derivedAttemptCounts (Some episode) siblings in
           let counts := if useDerived then derived else persisted in
           (negb useDerived || countsMatchPersisted persisted derived) &&
           (cursor <=? justifiedStrategyCursor bound counts skipped rs) &&
           (negb (cursor =? Z.of_nat (length rs)) || sequenceFullyAccounted bound counts skipped rs))
      | _, _, _ => false
      end
  | _, _, _, _, _, _ => false
  end.

(** The last attempt of every episode, in order of first appearance. *)
Definition latestByEpisode (attempts : list LoopRecoveryAttempt) : obj LoopRecoveryAttempt :=
  foldl (fun m a => match truthy (episode_id a) with Some e => oset e a m | None => m end) [] attempts.

Definition ledgerEpisodesAreAuthoritative (attempts : list LoopRecoveryAttempt) (policy : option (obj jval))
    : bool :=
  forallb (fun latest => isAuthoritativeEpisodeState latest attempts policy)
    (ovalues (latestByEpisode attempts)).
End Authority.

(** ** Selection *)

Lemma spent_charge_eq counts r : spent (charge counts r) r = spent counts r + 1.
Proof. unfold spent at 1, charge. by rewrite oget_oset_eq. Qed.

Lemma spent_charge_ne counts r r' : r ≠ r' → spent (charge counts r) r' = spent counts r'.
Proof. intros H. unfold spent at 1, charge. by rewrite oget_oset_ne. Qed.

Section SelectionFacts.
Context (recipes : list RecoveryRecipe) (counts : obj Z)
  (strategyBound : RecoveryRecipe → jsnum) (isApplicable : RecoveryRecipe → bool).

Definition passed_over (r : RecoveryRecipe) : Prop :=
  used_up counts strategyBound r = true ∨ isApplicable r = false.
Definition inapplicable_left (r : RecoveryRecipe) : bool :=
  negb (used_up counts strategyBound r) && negb (isApplicable r).

Lemma selectFrom_spec rest cursor skipped :
  match selectFrom counts strategyBound isApplicable rest cursor skipped with
  | Claim r c sk => ∃ before after, rest = before ++ r :: after ∧ c = cursor + Z.of_nat (length before) ∧
      isApplicable r = true ∧ used_up counts strategyBound r = false ∧ Forall passed_over before ∧
      sk = skipped ++ filter (fun r => inapplicable_left r = true) before
  | StrategiesExhausted sk => Forall passed_over rest ∧
      sk = skipped ++ filter (fun r => inapplicable_left r = true) rest
  end.
Proof.
  revert cursor skipped. induction rest as [|r rest IH]; intros cursor skipped; simpl.
  { split; [constructor|by rewrite app_nil_r]. }
  destruct (used_up counts strategyBound r) eqn:Hu.
  - specialize (IH (cursor + 1) skipped).
    assert (inapplicable_left r = false) as Hil by (unfold inapplicable_left; by rewrite Hu).
    destruct (selectFrom _ _ _ rest (cursor + 1) skipped) as [r' c sk|sk].
    + destruct IH as (before & after & -> & -> & Ha & Hu' & Hf & ->). exists (r :: before), after.
      split; [done|]. split; [simpl; lia|]. split; [done|]. split; [done|].
      split; [constructor; [by left|done]|]. by rewrite filter_cons, decide_False by congruence.
    + destruct IH as [Hf ->]. split; [constructor; [by left|done]|].
      by rewrite filter_cons, decide_False by congruence.
  - destruct (isApplicable r) eqn:Hap; simpl.
    + exists [], rest. split; [done|]. split; [simpl; lia|]. split; [done|]. split; [done|].
      split; [constructor|by rewrite app_nil_r].
    + assert (inapplicable_left r = true) as Hil by (unfold inapplicable_left; by rewrite Hu, Hap).
      specialize (IH (cursor + 1) (skipped ++ [r])).
      destruct (selectFrom _ _ _ rest (cursor + 1) _) as [r' c sk|sk].
      * destruct IH as (before & after & -> & -> & Ha & Hu' & Hf & ->). exists (r :: before), after.
        split; [done|]. split; [simpl; lia|]. split; [done|]. split; [done|].
        split; [constructor; [by right|done]|]. rewrite filter_cons, decide_True by done. by rewrite <-app_assoc.
      * destruct IH as [Hf ->]. split; [constructor; [by right|done]|].
        rewrite filter_cons, decide_True by done. by rewrite <-app_assoc.
Qed.

Lemma select_claim cursor r c sk :
  selectNextApplicableStrategy recipes counts strategyBound isApplicable cursor = Claim r c sk →
  Z.max 0 cursor <= c ∧ recipes !! Z.to_nat c = Some r ∧ isApplicable r = true ∧
  used_up counts strategyBound r = false ∧
  ∀ i r', Z.max 0 cursor <= Z.of_nat i < c → recipes !! i = Some r' → passed_over r'.
Proof.
  unfold selectNextApplicableStrategy. intros H.
  pose proof (selectFrom_spec (drop (Z.to_nat cursor) recipes) (Z.max 0 cursor) []) as Hs. rewrite H in Hs.
  destruct Hs as (before & after & Hd & -> & Ha & Hu & Hf & _). split; [lia|].
  assert (∀ i, drop (Z.to_nat cursor) recipes !! i = recipes !! (Z.to_nat cursor + i)%nat) as Hl
    by (intros; apply lookup_drop).
  split; [|split; [done|split; [done|]]].
  - replace (Z.to_nat (Z.max 0 cursor + Z.of_nat (length before))) with (Z.to_nat cursor + length before)%nat by lia.
    rewrite <-Hl, Hd. by rewrite list_lookup_middle.
  - intros i r' Hi Hr. rewrite Forall_forall in Hf. apply Hf.
    assert (i = (Z.to_nat cursor + (i - Z.to_nat cursor))%nat) as Hi' by lia.
    rewrite Hi', <-Hl, Hd, lookup_app_l in Hr by lia. by eapply list_elem_of_lookup_2.
Qed.

Lemma select_exhausted cursor sk :
  selectNextApplicableStrategy recipes counts strategyBound isApplicable cursor = StrategiesExhausted sk →
  ∀ i r', Z.max 0 cursor <= Z.of_nat i → recipes !! i = Some r' → passed_over r'.
Proof.
  unfold selectNextApplicableStrategy. intros H.
  pose proof (selectFrom_spec (drop (Z.to_nat cursor) recipes) (Z.max 0 cursor) []) as Hs. rewrite H in Hs.
  destruct Hs as [Hf _]. rewrite Forall_forall in Hf. intros i r' Hi Hr. apply Hf.
  assert (i = (Z.to_nat cursor + (i - Z.to_nat cursor))%nat) as Hi' by lia.
  rewrite Hi', <-lookup_drop in Hr. by eapply list_elem_of_lookup_2.
Qed.

(** The cursor the repeated-evidence rule starts from. *)
Lemma selectEligible_start cursor count limit :
  ∃ start, (start = Z.max 0 cursor ∨
            (start = Z.max 0 cursor + 1 ∧ reaches count limit = true ∧
             ∃ r, recipes !! Z.to_nat cursor = Some r ∧ 0 < spent counts (recipe_name r))) ∧
    selectEligibleRecoveryStrategy recipes counts strategyBound isApplicable cursor count limit =
    selectNextApplicableStrategy recipes counts strategyBound isApplicable start.
Proof.
  unfold selectEligibleRecoveryStrategy. replace (Z.to_nat (Z.max 0 cursor)) with (Z.to_nat cursor) by lia.
  destruct (recipes !! Z.to_nat cursor) as [r|] eqn:Hr; [|eauto].
  destruct (reaches count limit && (0 <? spent counts (recipe_name r))) eqn:Hc; [|eauto].
  apply andb_true_iff in Hc as [Hc1 Hc2%Z.ltb_lt]. exists (Z.max 0 cursor + 1). split; [|done].
  right. split; [done|]. split; [done|]. eauto.
Qed.
End SelectionFacts.

(** ** Compiled policies *)

Lemma policyFor_wf doc p cls e : compileRecoveryPolicy doc = Ok p → policyFor p cls = Some e → entry_wf cls e.
Proof.
  intros [_ Hall]%compile_policy_entries He. unfold policyFor in He.
  apply bind_Some in He as ([i [c' e']] & Hf & [= <-]). apply list_find_Some in Hf as (Hi & Hc & _). simpl in Hc.
  subst c'. apply list_elem_of_lookup_2 in Hi. by apply (proj1 (Forall_forall _ _) Hall (cls, e')).
Qed.

(** ** Authoritative episodes *)

(** The rows of [history] that charged [r] in the episode. *)
Definition chargedRows (episode : option string) (r : string) (history : list LoopRecoveryAttempt) : nat :=
  length (filter (fun a => episode_id a = episode ∧ action a = Some r ∧ isCharged a = true) history).

Lemma derived_spent episode history r :
  isRecoveryRecipe r = true → spent (derivedAttemptCounts episode history) r = Z.of_nat (chargedRows episode r history).
Proof.
  intros Hr. unfold derivedAttemptCounts, chargedRows. induction history as [|a history IH] using rev_ind; [done|].
  rewrite foldl_app, filter_app, length_app, Nat2Z.inj_add, <-IH. simpl. unfold derivedStep at 1.
  rewrite filter_cons. case_decide as He.
  { rewrite decide_False by tauto. simpl. lia. }
  destruct (action a) as [r'|] eqn:Ha.
  2: { rewrite decide_False by (intros (_ & ? & _); done). simpl. lia. }
  destruct (decide (r' = r)) as [->|Hne].
  - rewrite Hr. destruct (isCharged a) eqn:Hc; simpl.
    + rewrite decide_True by done. rewrite spent_charge_eq. simpl. lia.
    + rewrite decide_False by (intros (_ & _ & ?); done). simpl. lia.
  - rewrite decide_False by (intros (_ & ? & _); congruence). simpl.
    destruct (isRecoveryRecipe r' && isCharged a); [|lia]. rewrite spent_charge_ne by done. lia.
Qed.

Lemma spent_absent counts r : r ∉ okeys counts → spent counts r = 0.
Proof. unfold spent. rewrite <-oget_is_Some. destruct (oget counts r); [|done]. intros []; eauto. Qed.

Lemma countsMatch_spec persisted derived :
  countsMatchPersisted persisted derived = true ↔ ∀ r, spent persisted r = spent derived r.
Proof.
  unfold countsMatchPersisted. rewrite forallb_elem. setoid_rewrite bool_decide_eq_true. split; [|auto].
  intros H r. destruct (decide (r ∈ okeys persisted ++ okeys derived)) as [|Hn]; [by apply H|].
  apply not_elem_of_app in Hn as [? ?]. by rewrite !spent_absent.
Qed.

Lemma justified_prefix bound counts skipped rs c :
  0 <= c → (c <= justifiedStrategyCursor bound counts skipped rs ↔
  c <= Z.of_nat (length rs) ∧ ∀ i r, Z.of_nat i < c → rs !! i = Some r → accounted bound counts skipped r = true).
Proof.
  revert c. induction rs as [|r rs IH]; intros c Hc; simpl.
  { split; [|by intros [? _]]. intros. split; [lia|]. intros i r _ Hr. by destruct i. }
  destruct (accounted bound counts skipped r) eqn:Ha.
  - destruct (decide (c = 0)) as [->|Hne].
    + split; [|intros _; pose proof (proj2 (IH 0 ltac:(lia))) as H0; specialize (H0 ltac:(split; [lia|lia])); lia].
      intros _. split; [lia|]. lia.
    + rewrite <-(Z.sub_add 1 c). rewrite (Z.add_comm _ 1), <-Z.add_le_mono_l. rewrite IH by lia. split.
      * intros [Hl H]. split; [lia|]. intros [|i] r' Hi Hr; simpl in Hr; [by simplify_eq|]. eapply H; [|done]. lia.
      * intros [Hl H]. split; [lia|]. intros i r' Hi Hr. eapply (H (S i)); [lia|done].
  - split.
    + intros. assert (c = 0) as -> by lia. split; [lia|]. lia.
    + intros [_ H]. destruct (decide (c = 0)); [lia|]. specialize (H 0%nat r ltac:(lia) eq_refl). congruence.
Qed.

Lemma fully_accounted bound counts skipped rs :
  sequenceFullyAccounted bound counts skipped rs = true ↔
  ∀ i r, rs !! i = Some r → accounted bound counts skipped r = true.
Proof.
  unfold sequenceFullyAccounted. rewrite forallb_elem. split.
  - intros H i r Hr. apply H. by eapply list_elem_of_lookup_2.
  - intros H r Hr. apply list_elem_of_lookup in Hr as [i Hi]. eauto.
Qed.

Section AuthorityFacts.
Context (sha256hex : string → string).

(** What an accepted record proves, against the rows it was checked with. *)
Record Authoritative (v : LoopRecoveryAttempt) (rows : list LoopRecoveryAttempt) (policy : option (obj jval))
    : Prop := {
  au_identity : ∃ op inv epoch ev, att_operation v = Some op ∧ invariant v = Some inv ∧
    att_candidate_epoch v = Some epoch ∧ evidence_identity v = Some ev ∧ blank op = false ∧ blank inv = false ∧
    episode_id v = Some (recoveryEpisodeId sha256hex op inv epoch ev);
  au_counts : ∃ persisted, attempts_per_strategy v = Some persisted ∧
    (rows ≠ [] → outcome v ≠ OutSuperseded →
     ∀ r, spent persisted r = spent (derivedAttemptCounts (episode_id v) rows) r);
  au_cursor : ∃ cursor rs bound persisted skipped, strategy_cursor v = Some cursor ∧
    governingSequence v policy = Some (rs, bound) ∧ attempts_per_strategy v = Some persisted ∧
    collectSkippedRecipes v rows = Some skipped ∧ 0 <= cursor <= Z.of_nat (length rs) ∧
    (∀ s, s ∈ skipped → allowedRecipe rs s = true) ∧ (∀ s, s ∈ okeys persisted → allowedRecipe rs s = true) ∧
    ∀ i r, Z.of_nat i < cursor → rs !! i = Some r → accounted bound persisted skipped r = true;
}.

Lemma nonBlank_Some o s : nonBlank o = Some s ↔ o = Some s ∧ blank s = false.
Proof.
  unfold nonBlank. destruct o as [t|]; [|naive_solver]. destruct (blank t) eqn:Hb; [|naive_solver congruence].
  split; [done|]. intros [[= ->] ?]. congruence.
Qed.

Lemma accounted_ext bound c c' skipped r :
  (∀ s, spent c s = spent c' s) → accounted bound c skipped r = accounted bound c' skipped r.
Proof. intros H. unfold accounted. by rewrite H. Qed.

Lemma authoritative_spec v rows policy :
  isAuthoritativeEpisodeState sha256hex v rows policy = true → Authoritative v rows policy.
Proof.
  unfold isAuthoritativeEpisodeState. intros H.
  destruct (nonBlank (att_operation v)) as [op|] eqn:Hop; [|done].
  destruct (nonBlank (invariant v)) as [inv|] eqn:Hinv; [|done].
  destruct (att_candidate_epoch v) as [epoch|] eqn:Hepoch; [|done].
  destruct (evidence_identity v) as [ev|] eqn:Hev; [|done].
  destruct (nonBlank (episode_id v)) as [episode|] eqn:Hep; [|done].
  destruct (strategy_cursor v) as [cursor|] eqn:Hcur; [|done].
  apply nonBlank_Some in Hop as [Hop Hop'], Hinv as [Hinv Hinv'], Hep as [Hep _].
  apply andb_true_iff in H as [H1 H]. apply andb_true_iff in H1 as [Hid Hc0].
  apply bool_decide_eq_true in Hid as ->. apply Z.leb_le in Hc0.
  destruct (governingSequence v policy) as [[rs bound]|] eqn:Hg; [|done].
  destruct (collectSkippedRecipes v rows) as [skipped|] eqn:Hsk; [|done].
  destruct (attempts_per_strategy v) as [persisted|] eqn:Hper; [|done].
  rewrite !andb_true_iff in H. destruct H as (((((Hact & Hacts) & Hlen) & Hskip) & Hpers) & ((Hm & Hj) & _)).
  apply Z.leb_le in Hlen, Hj.
  set (useDerived := negb (bool_decide (rows = [])) && bool_decide (outcome v ≠ OutSuperseded)) in *.
  assert (useDerived = true → ∀ r, spent persisted r =
            spent (derivedAttemptCounts (Some (recoveryEpisodeId sha256hex op inv epoch ev)) rows) r) as Hcounts.
  { intros Hu. rewrite Hu in Hm. by apply countsMatch_spec. }
  split.
  - exists op, inv, epoch, ev. done.
  - exists persisted. split; [done|]. rewrite Hep. intros Hr Ho. apply Hcounts. unfold useDerived.
    by rewrite bool_decide_eq_false_2, bool_decide_eq_true_2.
  - exists cursor, rs, bound, persisted, skipped. split; [done|]. split; [done|]. split; [done|]. split; [done|].
    split; [lia|]. split; [by apply forallb_elem|]. split.
    + intros s Hs. apply oget_is_Some in Hs as [n Hs]. apply oget_Some_elem in Hs.
      rewrite forallb_elem in Hpers. specialize (Hpers _ Hs). by apply andb_true_iff in Hpers as [? _].
    + apply justified_prefix in Hj as [_ Hj]; [|done]. intros i r Hi Hr. specialize (Hj i r Hi Hr).
      destruct useDerived; [|done]. by rewrite (accounted_ext bound persisted _ skipped r (Hcounts eq_refl)).
Qed.

(** *** The latest record of an episode *)

Lemma latest_lookup attempts e :
  e ≠ "" → oget (latestByEpisode attempts) e = last (filter (fun a => episode_id a = Some e) attempts).
Proof.
  intros He. unfold latestByEpisode. induction attempts as [|a attempts IH] using rev_ind; [done|].
  rewrite foldl_app, filter_app. simpl. rewrite filter_cons, filter_nil.
  destruct (truthy (episode_id a)) as [e'|] eqn:Ht.
  - apply truthy_Some in Ht as [Ht _]. destruct (decide (e' = e)) as [->|Hne].
    + rewrite decide_True by done. rewrite oget_oset_eq, last_snoc. done.
    + rewrite decide_False by congruence. rewrite oget_oset_ne by done. by rewrite app_nil_r.
  - rewrite decide_False; [by rewrite app_nil_r|]. intros Ha. rewrite Ha in Ht.
    assert (truthy (Some e) = Some e) as Ht' by (by apply truthy_Some). congruence.
Qed.

Lemma latest_keys attempts : NoDup (okeys (latestByEpisode attempts)).
Proof.
  unfold latestByEpisode. induction attempts as [|a attempts IH] using rev_ind; [apply NoDup_nil_2|].
  rewrite foldl_app. simpl. destruct (truthy (episode_id a)); [by apply NoDup_okeys_oset|done].
Qed.

Lemma latest_key_nonempty attempts e : e ∈ okeys (latestByEpisode attempts) → e ≠ "".
Proof.
  unfold latestByEpisode. induction attempts as [|a attempts IH] using rev_ind; [intros H; inversion H|].
  rewrite foldl_app. simpl. destruct (truthy (episode_id a)) as [e'|] eqn:Ht; [|done].
  intros [->|Hin]%elem_okeys_oset; [|auto]. by apply truthy_Some in Ht as [_ ?].
Qed.

Lemma ledger_authority attempts policy :
  ledgerEpisodesAreAuthoritative sha256hex attempts policy = true ↔
  ∀ e v, e ≠ "" → last (filter (fun a => episode_id a = Some e) attempts) = Some v →
    isAuthoritativeEpisodeState sha256hex v attempts policy = true.
Proof.
  unfold ledgerEpisodesAreAuthoritative. rewrite forallb_elem. split.
  - intros H e v He Hl. apply H. rewrite <-latest_lookup in Hl by done.
    apply elem_ovalues. eauto using oget_Some_elem.
  - intros H v Hv. apply elem_ovalues in Hv as [e Hv]. apply elem_oget in Hv; [|apply latest_keys].
    assert (e ≠ "") as He by (apply (latest_key_nonempty attempts), oget_is_Some; eauto).
    apply (H e); [done|]. by rewrite <-latest_lookup.
Qed.
End AuthorityFacts.

(** ** Properties *)

(** Selection takes the first strategy, at or after the cursor, that is
    applicable and below its bound, and reports exhaustion only when every
    strategy from there on is used up or inapplicable; repeating the same
    evidence past its limit steps over the current strategy only, and only
    after that strategy was tried. *)
Theorem strategy_selection_spec recipes counts bound app cursor count limit :
  ∃ start, (start = Z.max 0 cursor ∨
            (start = Z.max 0 cursor + 1 ∧ reaches count limit = true ∧
             ∃ r, recipes !! Z.to_nat cursor = Some r ∧ 0 < spent counts (recipe_name r))) ∧
  match selectEligibleRecoveryStrategy recipes counts bound app cursor count limit with
  | Claim r c _ =>
      start <= c ∧ recipes !! Z.to_nat c = Some r ∧ app r = true ∧ used_up counts bound r = false ∧
      ∀ i r', start <= Z.of_nat i < c → recipes !! i = Some r' → used_up counts bound r' = true ∨ app r' = false
  | StrategiesExhausted _ =>
      ∀ i r', start <= Z.of_nat i → recipes !! i = Some r' → used_up counts bound r' = true ∨ app r' = false
  end.
Proof.
  destruct (selectEligible_start recipes counts bound app cursor count limit) as (start & Hs & ->).
  exists start. split; [done|]. assert (Z.max 0 start = start) as Hm by lia.
  destruct (selectNextApplicableStrategy recipes counts bound app start) as [r c sk|sk] eqn:E.
  - apply select_claim in E. by rewrite Hm in E.
  - intros i r' Hi. apply (select_exhausted _ _ _ _ _ _ E). by rewrite Hm.
Qed.

(** A persisted episode cannot be forged into authority: in an accepted
    ledger the latest record of every episode carries the id its own key
    hashes to, counts that equal the charged rows of the episode, and a cursor
    below which every strategy of the governing sequence was skipped or spent. *)
Theorem episode_authority sha attempts policy e v :
  ledgerEpisodesAreAuthoritative sha attempts policy = true → e ≠ "" →
  last (filter (fun a => episode_id a = Some e) attempts) = Some v → outcome v ≠ OutSuperseded →
  ∃ op inv epoch ev cursor rs bound counts skipped,
    att_operation v = Some op ∧ invariant v = Some inv ∧ att_candidate_epoch v = Some epoch ∧
    evidence_identity v = Some ev ∧ e = recoveryEpisodeId sha op inv epoch ev ∧
    strategy_cursor v = Some cursor ∧ governingSequence v policy = Some (rs, bound) ∧
    attempts_per_strategy v = Some counts ∧ collectSkippedRecipes v attempts = Some skipped ∧
    (∀ r, spent counts (recipe_name r) = Z.of_nat (chargedRows (Some e) (recipe_name r) attempts)) ∧
    0 <= cursor <= Z.of_nat (length rs) ∧
    ∀ i r, Z.of_nat i < cursor → rs !! i = Some r →
      recipe_name r ∈ skipped ∨ reaches (spent counts (recipe_name r)) bound = true.
Proof.
  intros H He Hl Ho. rewrite ledger_authority in H. specialize (H e v He Hl). apply authoritative_spec in H.
  assert (v ∈ filter (fun a => episode_id a = Some e) attempts) as Hin.
  { apply last_Some_elem_of. exact Hl. }
  apply list_elem_of_filter in Hin as [Hev Hin].
  destruct H as [(op & inv & epoch & ev & ? & ? & ? & ? & _ & _ & Hid) (persisted & Hp & Hcounts)
    (cursor & rs & bound & persisted' & skipped & ? & ? & Hp' & ? & ? & _ & _ & Hacc)].
  rewrite Hp in Hp'. injection Hp' as <-. rewrite Hev in Hid. injection Hid as Hid.
  exists op, inv, epoch, ev, cursor, rs, bound, persisted, skipped. do 9 (split; [done|]). split; [|split; [done|]].
  - intros r. rewrite Hcounts, Hev; [|by intros ->; inversion Hin|done]. apply derived_spent.
    unfold isRecoveryRecipe. apply bool_decide_eq_true. exists r. by apply asRecoveryRecipe_spec.
  - intros i r Hi Hr. specialize (Hacc i r Hi Hr). unfold accounted in Hacc.
    apply orb_true_iff in Hacc as [Hs%includes_true|]; auto.
Qed.

(** The built-in sequences used when a ledger is validated without its
    contract's policy agree with the shipped policy, class by class: the same
    recipes in the same order and the same bound. *)
Theorem configured_sequences_agree cls :
  ∃ p e, compileRecoveryPolicy (Some DEFAULT_RECOVERY_POLICY_INPUT) = Ok p ∧ policyFor p cls = Some e ∧
    (configuredRecoverySequence cls).1 = recipes e ∧
    num (configuredRecoverySequence cls).2 = perStrategyBound e.
Proof.
  destruct (compileRecoveryPolicy (Some DEFAULT_RECOVERY_POLICY_INPUT)) as [p|] eqn:E; vm_compute in E; [|discriminate E].
  injection E as <-. eexists _. destruct cls; eexists; (split; [reflexivity|]); split; vm_compute; split; reflexivity.
Qed.

(** ** Witnesses *)

Module EpisodeSample.
Definition id : string := recoveryEpisodeId (fun s => s) "loop_recovery" "implementation-ci" "abc" "tests failed".
Definition row (n : Z) : LoopRecoveryAttempt :=
  mkAttempt (Some "a") (n - 1) "t" "7" "implementation-ci" (Some "abc") (Some "verify_head_goal") ["verify_head_goal"]
    "tests failed" OutFailed None (Some "loop_recovery") (Some "implementation-ci") (Some "abc") (Some "tests failed")
    (Some id) (Some [("verify_head_goal", n)]) (Some 0) (Some []) (Some "t") None None None None None None.
End EpisodeSample.

Lemma episode_authority_witness :
  ∃ counts, attempts_per_strategy (EpisodeSample.row 2) = Some counts ∧
    ∀ r, spent counts (recipe_name r) = Z.of_nat (chargedRows (Some EpisodeSample.id) (recipe_name r)
                                                    [EpisodeSample.row 1; EpisodeSample.row 2]).
Proof.
  destruct (episode_authority (fun s => s) [EpisodeSample.row 1; EpisodeSample.row 2] None EpisodeSample.id
    (EpisodeSample.row 2)) as (_ & _ & _ & _ & _ & _ & _ & counts & _ & _ & _ & _ & _ & _ & _ & _ & H1 & _ & H2 & _).
  - by vm_compute.
  - done.
  - by vm_compute.
  - done.
  - exists counts. done.
Defined.
