(* ===== verification/Settlement.v ===== *)
(** * Settling recommendations

    [core/scripts/grill-taxonomy.ts] and [core/scripts/grill-settle.ts], the
    engine's own predicate for what may be settled without a human, and the
    resolution of typed requests of [core/scripts/typed-request-resolution.ts]
    on top of it.  A model proposes a recommendation and signals; what is
    protected and what existing authority covers is derived from the words of
    the recommendation, its class and the gathered facts. *)

From Stdlib Require Import ZArith Ascii.
From stdpp Require Import numbers base gmap strings list.
From S2P Require Import Prelude Regex LoopTypes Ownership Lifecycle TypedRequests RecoveryEpisodes.
Local Open Scope result_scope.
Local Open Scope nat_scope.

(** ** The taxonomy *)

Definition OPERATOR_REQUIRED_CLASSES : list string :=
  ["scope"; "security"; "irreversible-operations"; "merge-release"; "human-attestation"].
Definition NON_AUTHORITY_CLASSES : list string := ["interface-contract"; "test-evidence"; "docs-surface"; "operational-default"].

Definition AUTO_ACCEPT_ELIGIBILITY_REASON : string :=
  "auto-settle: reversible, in-scope, policy-consistent, covered by existing authority".

Definition isGrillTaxonomyClass (c : string) : bool := includes c (OPERATOR_REQUIRED_CLASSES ++ NON_AUTHORITY_CLASSES).
Definition isOperatorRequiredClass (c : string) : bool := includes c OPERATOR_REQUIRED_CLASSES.
Definition isNonAuthorityClass (c : string) : bool := includes c NON_AUTHORITY_CLASSES.

Record Authority := mkClassified {
  au_known : bool;
  au_operatorRequired : bool;
  au_mayAutoDefault : bool;
}.

Definition classifyAuthority (c : string) : Authority :=
  let known := isGrillTaxonomyClass c in
  let operatorRequired := isOperatorRequiredClass c in
  mkClassified known (operatorRequired || negb known) (known && negb operatorRequired).

(** ** The vocabulary of protected actions *)

Definition PROTECTED_CLASSES : list string := ["security"; "irreversible-operations"; "merge-release"; "human-attestation"].

Definition PROTECTED_ACTION_TOKENS : list string :=
  ["merge"; "merging"; "merged"; "merger"; "deploy"; "deploying"; "deployment"; "ship"; "shipping"; "irreversible"; "secret"; "secrets";
   "credential"; "credentials"; "password"; "passwords"; "rbac"; "auth"; "authentication"; "authorization"; "authenticate"; "automerge";
   "squash"; "bypass"; "bypassing"; "bypassed"; "override"; "overriding"; "overridden"; "weaken"; "weakening"; "weakened"; "destroy";
   "destroying"; "destroyed"; "wipe"; "wiping"; "wiped"].

Definition RELEASE_ACTION_TOKENS : list string := ["release"; "releasing"; "released"].
Definition RELEASE_NOTES_TOKENS : list string := ["notes"; "changelog"; "readme"].

Definition PROTECTED_PAIRS : list (string * string) :=
  [("force", "push"); ("auto", "merge"); ("delete", "branch"); ("remove", "branch"); ("delete", "worktree"); ("remove", "worktree");
   ("drop", "database"); ("drop", "table"); ("drop", "data"); ("grant", "merge"); ("grant", "release"); ("grant", "deploy");
   ("disable", "auth"); ("disable", "authentication"); ("disable", "authorization"); ("skip", "auth"); ("skip", "authentication");
   ("expose", "secret"); ("leak", "secret"); ("commit", "secret"); ("expose", "credential"); ("disable", "rbac")].

Definition ACCESS_ACTORS : list string := ["anyone"; "anybody"; "anonymous"; "unauthenticated"; "everyone"; "world"].
Definition ACCESS_VERBS : list string :=
  ["allow"; "allows"; "allowed"; "permit"; "permits"; "permitted"; "grant"; "grants"; "granted"; "authorize"; "authorizes"; "authorized";
   "open"; "opens"; "expose"; "exposes"; "enable"; "enables"].
Definition GRANT_REVOKE : list string :=
  ["grant"; "grants"; "granted"; "revoke"; "revokes"; "revoked"; "deny"; "denies"; "denied"].
Definition PERMISSION_OBJECTS : list string :=
  ["permission"; "permissions"; "role"; "roles"; "privilege"; "privileges"; "rbac"; "acl"; "entitlement"; "entitlements"].
Definition ADMIN_OBJECTS : list string := ["admin"; "administrator"; "admins"; "root"; "superuser"].
Definition ACCESS_OBJECTS : list string := ["api"; "access"; "endpoint"].
Definition PUBLIC_ACTORS : list string := ["public"; "anonymous"].
Definition FACT_STOPWORDS : list string :=
  ["a"; "an"; "the"; "and"; "or"; "for"; "of"; "to"; "in"; "on"; "at"; "by"; "with"; "from"; "as"; "is"; "be"; "are"; "was"; "were"; "that";
   "this"; "it"; "its"; "use"; "using"; "used"; "via"; "into"; "than"].

(** ** Words *)

(** [[a-z0-9]]. *)
Definition isAlnum (c : ascii) : bool := let n := nat_of_ascii c in isDecimal c || (97 <=? n) && (n <=? 122).

(** [text.split(/[^a-z0-9]+/).filter((t) => t.length > 0)], [run] being the word
    that is read, backwards. *)
Fixpoint wordsFrom (run : list ascii) (text : list ascii) : list string :=
  let flush := match run with [] => [] | _ => [unchars (reverse run)] end in
  match text with
  | [] => flush
  | c :: text' => if isAlnum c then wordsFrom (c :: run) text' else flush ++ wordsFrom [] text'
  end.

Definition tokenizeRecommendation (recommendation : string) : list string :=
  wordsFrom [] (chars (replaceAll (lit "--") " " (lowerString recommendation))).

(** The words up to [window] after each position. *)
Fixpoint hasPairWithin (window : nat) (tokens : list string) (a b : string) : bool :=
  match tokens with
  | [] => false
  | t :: rest => bool_decide (t = a) && includes b (take window rest) || hasPairWithin window rest a b
  end.

Fixpoint hasSetPairWithin (window : nat) (tokens : list string) (left right : list string) : bool :=
  match tokens with
  | [] => false
  | t :: rest =>
      existsb (fun u => includes t left && includes u right || includes t right && includes u left) (take window rest) ||
      hasSetPairWithin window rest left right
  end.

Definition recommendationMatchesAccessControl (tokens : list string) : bool :=
  hasSetPairWithin 8 tokens ACCESS_VERBS ACCESS_ACTORS || hasSetPairWithin 8 tokens ACCESS_ACTORS ADMIN_OBJECTS ||
  hasSetPairWithin 8 tokens ACCESS_ACTORS ACCESS_OBJECTS || hasSetPairWithin 8 tokens GRANT_REVOKE PERMISSION_OBJECTS ||
  hasSetPairWithin 8 tokens PUBLIC_ACTORS ADMIN_OBJECTS ||
  (hasPairWithin 4 tokens "policy" "exception" || hasPairWithin 4 tokens "exception" "policy") ||
  (hasPairWithin 4 tokens "policy" "exceptions" || hasPairWithin 4 tokens "exceptions" "policy").

Definition anyToken (tokens set : list string) : bool := existsb (fun t => includes t set) tokens.

Definition isReleaseNotesDocumentation (tokens : list string) : bool :=
  anyToken tokens RELEASE_ACTION_TOKENS && anyToken tokens RELEASE_NOTES_TOKENS.

Definition recommendationMatchesProtectedAction (recommendation : string) : bool :=
  let rec := js_trim recommendation in
  if decide (rec = "") then false
  else
    let tokens := tokenizeRecommendation rec in
    recommendationMatchesAccessControl tokens || existsb (fun p => hasPairWithin 3 tokens p.1 p.2) PROTECTED_PAIRS ||
    anyToken tokens PROTECTED_ACTION_TOKENS || (negb (isReleaseNotesDocumentation tokens) && anyToken tokens RELEASE_ACTION_TOKENS).

Definition contentTokens (text : string) : list string :=
  filter (fun t => includes t FACT_STOPWORDS = false ∧ 1 < String.length t) (tokenizeRecommendation text).

Definition factsCoverRecommendation (recommendation factText : string) : bool :=
  let rec := js_trim recommendation in
  let facts := js_trim factText in
  if decide (rec = "" ∨ facts = "") then false
  else if string_includes (lowerString facts) (lowerString rec) then true
  else match contentTokens rec with
       | [] => false
       | recTokens => forallb (fun t => includes t (tokenizeRecommendation facts)) recTokens
       end.

(** ** Settlement *)

Definition engineProtectedAction (nodeClass recommendation : string) : bool :=
  includes nodeClass PROTECTED_CLASSES || recommendationMatchesProtectedAction recommendation.

Definition engineCoveredByExistingAuthority (nodeClass recommendation factText : string) : bool :=
  let rec := js_trim recommendation in
  if decide (rec = "") then false
  else if engineProtectedAction nodeClass rec then false
  else factsCoverRecommendation rec factText.

Definition engineDiscoverableFromFacts (recommendation factText : string) : bool := factsCoverRecommendation recommendation factText.

Inductive Confidence := ConfidenceLow | ConfidenceMedium | ConfidenceHigh.

Record SettlementSignals := mkSignals {
  reversible : bool;
  in_scope : bool;
  policy_consistent : bool;
  covered_by_existing_authority : bool;
  contradictory : bool;
  missing_external : bool;
  discoverable_from_facts : bool;
  protected_action : bool;
  confidence : Confidence;
}.

Inductive HandoffClass :=
| MissingContext | ProductJudgment | DomainExpertise | RiskAuthority | OverrideDisposition | ManualRepair | UnknownHandoff.

Inductive SettlementResult :=
| AutoAccept (eligibility_reason : string)
| AskTyped (request : PublicTypedRequest) (handoff_class : HandoffClass) (reason : string)
| Unresolved (reason : string).

Definition typedRequestHandoffClass (request : PublicTypedRequest) (nodeClass : string) : HandoffClass :=
  match request with
  | CapabilityRequest => MissingContext
  | DecisionRequest => ProductJudgment
  | AuthorityRequest => if includes nodeClass ["security"; "irreversible-operations"] then RiskAuthority else ProductJudgment
  end.

Definition deriveSettlementSignals (nodeClass recommendation factText : string) : SettlementSignals :=
  let rec := js_trim recommendation in
  let unproven := bool_decide (rec = "") in
  let recProtected := recommendationMatchesProtectedAction rec in
  let protectedAction := unproven || engineProtectedAction nodeClass rec in
  mkSignals (negb unproven && negb protectedAction) (negb unproven && negb protectedAction)
    (negb unproven && negb protectedAction && negb recProtected) (engineCoveredByExistingAuthority nodeClass rec factText)
    false false (engineDiscoverableFromFacts rec factText) protectedAction ConfidenceMedium.

Definition defaultSettlementSignals (nodeClass recommendation factText : string) : SettlementSignals :=
  deriveSettlementSignals nodeClass recommendation factText.

Definition ask (request : PublicTypedRequest) (nodeClass reason : string) : SettlementResult :=
  AskTyped request (typedRequestHandoffClass request nodeClass) reason.

Definition settleRecommendation (nodeClass recommendation : string) (signals : SettlementSignals) (factText : string) : SettlementResult :=
  let rec := js_trim recommendation in
  if contradictory signals then ask DecisionRequest nodeClass "contradictory product requirements"
  else if missing_external signals && negb (discoverable_from_facts signals) && negb (engineDiscoverableFromFacts rec factText)
  then ask CapabilityRequest nodeClass "missing external ability or information"
  else if negb (isGrillTaxonomyClass nodeClass) then Unresolved ("unknown class " +:+ nodeClass)
  else
    let classified := classifyAuthority nodeClass in
    if decide (rec = "") then
      if au_operatorRequired classified then ask AuthorityRequest nodeClass "operator-required node has no recommendation"
      else Unresolved "empty recommendation"
    else
      let derived := deriveSettlementSignals nodeClass rec factText in
      let covered := covered_by_existing_authority derived in
      if protected_action derived && negb covered then ask AuthorityRequest nodeClass "protected action lacks existing authority"
      else if reversible derived && in_scope derived && policy_consistent derived && covered && negb (protected_action derived)
      then AutoAccept AUTO_ACCEPT_ELIGIBILITY_REASON
      else if au_operatorRequired classified
      then ask AuthorityRequest nodeClass "operator-required recommendation is not covered by existing authority"
      else Unresolved "recommendation does not meet auto-settle predicate".

(** [raw[key]] if it is a boolean. *)
Definition boolField (raw : obj jval) (key : string) (fallback : bool) : bool :=
  match oget raw key with Some (JBool b) => b | _ => fallback end.

Definition parseSignalsFromModel (raw : obj jval) (nodeClass recommendation factText : string) : SettlementSignals :=
  let base := deriveSettlementSignals nodeClass recommendation factText in
  let conf := match oget raw "confidence" with
              | Some (JStr s) => if decide (s = "low") then ConfidenceLow else if decide (s = "medium") then ConfidenceMedium
                                 else if decide (s = "high") then ConfidenceHigh else confidence base
              | _ => confidence base
              end in
  let candidateMissing := boolField raw "missing_external" (missing_external base) in
  mkSignals (reversible base) (in_scope base) (policy_consistent base) (covered_by_existing_authority base)
    (boolField raw "contradictory" (contradictory base)) (candidateMissing && negb (discoverable_from_facts base))
    (discoverable_from_facts base) (protected_action base) conf.

(** ** Typed requests *)

Inductive RequestSource := UnknownError | StaleLabel | RetryExhaustionSource | LowConfidence | FromDiagnostic | FromGrill.

#[export] Instance request_source_eq_dec : EqDecision RequestSource.
Proof. solve_decision. Defined.

Definition source_name (s : RequestSource) : string :=
  match s with
  | UnknownError => "unknown-error"
  | StaleLabel => "stale-label"
  | RetryExhaustionSource => "retry-exhaustion"
  | LowConfidence => "low-confidence"
  | FromDiagnostic => "diagnostic"
  | FromGrill => "grill"
  end.

Inductive AskCategory := ProductDecisionAsk | AuthorityAsk.

#[export] Instance ask_category_eq_dec : EqDecision AskCategory.
Proof. solve_decision. Defined.

(** [Partial<CapabilityRequestRecord>] and [Partial<Omit<AuthorityRequestRecord, "grant">>]. *)
Record PartialCapability := mkPartialCapability {
  pc_missing : option string;
  pc_provider : option string;
  pc_live_probe : option string;
  pc_resume_condition : option string;
}.

Record PartialAuthority := mkPartialAuthority {
  pa_eligible_actor : option string;
  pa_repository : option string;
  pa_operation : option string;
  pa_scope : option string;
  pa_candidate_epoch : option string;
  pa_evidence : option (list string);
  pa_expiry : option string;
}.

Record ResolveTypedRequestInput := mkResolve {
  ri_nodeClass : string;
  ri_recommendation : string;
  ri_factText : option string;
  ri_signals : option (obj jval);
  ri_category : option AskCategory;
  ri_source : option RequestSource;
  ri_externalConditionWithoutInput : bool;
  ri_capability : option PartialCapability;
  ri_authority : option PartialAuthority;
  ri_tipPresent : bool;
  ri_candidateSha : option string;
  (** [now.getTime()]. *)
  ri_now : option Z;
  ri_rationale : option string;
  ri_alternatives : option (list string);
  ri_risk : option string;
  ri_evidence : option (list string);
}.

Inductive TypedRequestResolution :=
| AutoSettle (package : DecisionResolutionPackage) (eligibility_reason : string)
| ResolvedDecision (package : DecisionResolutionPackage)
| ResolvedCapability (record : CapabilityRequestRecord)
| ExternalConditionWait (record : CapabilityRequestRecord)
| ResolvedAuthority (record : AuthorityRequestRecord)
| EngineOwned (reason : string).

(** [pause_kind] and [durable_class] of a resolution. *)
Definition pauseKindOf (r : TypedRequestResolution) : option string :=
  match r with
  | ResolvedDecision _ => Some "decision"
  | ResolvedCapability _ => Some "answer"
  | ResolvedAuthority _ => Some "authority-grant"
  | _ => None
  end.

Definition durableClassOf (r : TypedRequestResolution) : option DurableBlockerClass :=
  match r with
  | ResolvedDecision _ => Some SpecificationDecision
  | ResolvedAuthority _ => Some MissingAuthority
  | _ => None
  end.

(** [candidateEpochFromSha(sha).epoch_id] and [candidateEpochChanged]. *)
Definition candidateEpochFromSha (sha : string) : string := lowerString (js_trim sha).

Definition candidateEpochChanged (previous next : option string) : bool :=
  let a := lowerString (js_trim (default "" previous)) in
  let b := lowerString (js_trim (default "" next)) in
  if decide (a = "" ∨ b = "") then bool_decide (a ≠ "" ∨ b ≠ "") else bool_decide (a ≠ b).

Definition isCandidateBoundRequestStale (boundSha boundEpoch currentSha : option string) : bool :=
  let bound := js_trim (default "" (match boundEpoch with Some e => Some e | None => boundSha end)) in
  let current := js_trim (default "" currentSha) in
  if decide (bound = "") then false else candidateEpochChanged (Some bound) (Some current).

(** [/\bw\b/.test(s)]. *)
Fixpoint found (r : regex) (before : option ascii) (text : list ascii) : bool :=
  bool_decide (exec r (before, text) ≠ []) || match text with [] => false | c :: text' => found r (Some c) text' end.

Definition wordIn (w s : string) : bool := found (cat [Boundary; lit w; Boundary]) None (chars s).

Definition inferProtectedOperation (recommendation nodeClass : string) : string :=
  let rec := lowerString recommendation in
  if wordIn "override" rec then "override"
  else if wordIn "secret" rec || wordIn "credential" rec then "secret"
  else if wordIn "deploy" rec then "deploy"
  else if wordIn "release" rec && negb (wordIn "notes" rec || wordIn "changelog" rec) then "release"
  else if wordIn "merge" rec || bool_decide (nodeClass = "merge-release") then "merge"
  else if decide (nodeClass = "security") then "security"
  else if decide (nodeClass = "irreversible-operations") then "irreversible-operation"
  else if decide (nodeClass = "human-attestation") then "human-attestation"
  else "protected-action".

(** [(typeof s === "string" && s.trim()) || ...]. *)
Definition trimmedText (s : option string) : option string := truthy (js_trim <$> s).

Definition signalsFromInput (i : ResolveTypedRequestInput) : SettlementSignals :=
  let factText := default "" (ri_factText i) in
  match ri_signals i with
  | Some raw => parseSignalsFromModel raw (ri_nodeClass i) (ri_recommendation i) factText
  | None => defaultSettlementSignals (ri_nodeClass i) (ri_recommendation i) factText
  end.

Definition resultReason (r : SettlementResult) : string :=
  match r with AutoAccept reason | AskTyped _ _ reason | Unresolved reason => reason end.

Definition buildPackage (i : ResolveTypedRequestInput) (r : SettlementResult) : DecisionResolutionPackage :=
  let rationale := default (resultReason r) (trimmedText (ri_rationale i)) in
  let evidence := match ri_evidence i with
                  | Some (e :: es) => e :: es
                  | _ => match trimmedText (ri_factText i) with Some t => [t] | None => [rationale] end
                  end in
  mkDecisionPackage (default "(none)" (trimmedText (Some (ri_recommendation i)))) rationale (default [] (ri_alternatives i))
    (default (match r with AskTyped AuthorityRequest _ _ => "high" | _ => "low" end) (trimmedText (ri_risk i))) evidence.

Definition buildCapabilityRecord (i : ResolveTypedRequestInput) : CapabilityRequestRecord :=
  let missing := default (default "missing information or capability" (trimmedText (Some (ri_recommendation i)))) (ri_capability i ≫= pc_missing) in
  mkCapability missing (default "operator" (ri_capability i ≫= pc_provider))
    (default ("live probe for " +:+ missing) (ri_capability i ≫= pc_live_probe))
    (default (if ri_externalConditionWithoutInput i then "external condition becomes true without supplied input"
              else "supplied input restores the missing capability or information") (ri_capability i ≫= pc_resume_condition)).

Section Resolve.
(** [new Date(ms).toISOString()] and the clock. *)
Context (isoOfMs : Z → string) (clockMs : Z).

Definition msZ : regex := cat [lit "."; exact 3 digit; lit "Z"; AtEnd].

Definition defaultAuthorityExpiry (now : Z) : string := replaceAll msZ "Z" (isoOfMs (now + 14 * 24 * 60 * 60 * 1000)).

(** The record as the object that is validated; an absent field is left out. *)
Definition buildAuthorityRecord (i : ResolveTypedRequestInput) : jval :=
  let given {A} (f : PartialAuthority → option A) : option A := ri_authority i ≫= f in
  let sha := js_trim (default "" (match ri_candidateSha i with Some s => Some s | None => given pa_candidate_epoch end)) in
  let epoch := if decide (sha = "") then given pa_candidate_epoch else Some (candidateEpochFromSha sha) in
  let optionalField (k : string) (v : option string) := match v with Some s => [(k, JStr s)] | None => [] end in
  JObj (optionalField "eligible_actor" (given pa_eligible_actor) ++ optionalField "repository" (given pa_repository) ++
    [("operation", JStr (default (inferProtectedOperation (ri_recommendation i) (ri_nodeClass i)) (given pa_operation)));
     ("scope", JStr (default (ri_nodeClass i) (given pa_scope)));
     ("candidate_epoch", from_option JStr JNull epoch);
     ("evidence", JArr (JStr <$> default (match trimmedText (ri_factText i) with
                                          | Some t => [t]
                                          | None => [default "protected action" (truthy (Some (ri_recommendation i)))]
                                          end) (given pa_evidence)));
     ("expiry", JStr (default (defaultAuthorityExpiry (default clockMs (ri_now i))) (given pa_expiry)));
     ("grant", JNull)]).

(** A validated record, or the reason it is engine-owned work. *)
Definition orEngineOwned {A} (r : result string A) (k : A → TypedRequestResolution) : TypedRequestResolution :=
  match r with Ok a => k a | Err reason => EngineOwned reason end.

Definition askAuthority (i : ResolveTypedRequestInput) : TypedRequestResolution :=
  orEngineOwned (validateAuthorityRequest (Some (buildAuthorityRecord i)) (ri_tipPresent i)) ResolvedAuthority.

Definition packaged (i : ResolveTypedRequestInput) (r : SettlementResult) (k : DecisionResolutionPackage → TypedRequestResolution)
    : TypedRequestResolution :=
  orEngineOwned (validateDecisionPackage (Some (decisionJson (buildPackage i r)))) k.

Definition capabilityAsked (i : ResolveTypedRequestInput) (k : CapabilityRequestRecord → TypedRequestResolution) : TypedRequestResolution :=
  orEngineOwned (validateCapabilityRequest (Some (capabilityJson (buildCapabilityRecord i)))) k.

(** The sources that never ask a human. *)
Definition falseHuman (s : option RequestSource) : option string :=
  match s with
  | Some UnknownError | Some StaleLabel | Some RetryExhaustionSource => source_name <$> s
  | _ => None
  end.

Definition resolveTypedRequest (i : ResolveTypedRequestInput) : TypedRequestResolution :=
  match falseHuman (ri_source i) with
  | Some reason => EngineOwned reason
  | None =>
      if ri_externalConditionWithoutInput i then capabilityAsked i ExternalConditionWait
      else
        let result := settleRecommendation (ri_nodeClass i) (ri_recommendation i) (signalsFromInput i) (default "" (ri_factText i)) in
        if decide (ri_category i = Some AuthorityAsk) then askAuthority i
        else match result with
        | AutoAccept reason => packaged i result (fun p => AutoSettle p reason)
        | AskTyped DecisionRequest _ _ => packaged i result ResolvedDecision
        | AskTyped CapabilityRequest _ _ => capabilityAsked i ResolvedCapability
        | AskTyped AuthorityRequest _ _ => askAuthority i
        | Unresolved reason =>
            if decide (ri_category i = Some ProductDecisionAsk) then packaged i result ResolvedDecision else EngineOwned reason
        end
  end.

Definition with_class (i : ResolveTypedRequestInput) (nodeClass : string) (signals : option (obj jval)) : ResolveTypedRequestInput :=
  mkResolve nodeClass (ri_recommendation i) (ri_factText i) signals (ri_category i) (ri_source i) (ri_externalConditionWithoutInput i)
    (ri_capability i) (ri_authority i) (ri_tipPresent i) (ri_candidateSha i) (ri_now i) (ri_rationale i) (ri_alternatives i) (ri_risk i)
    (ri_evidence i).

Definition classifyHumanAsk (i : ResolveTypedRequestInput) (reasonCode : option string) : TypedRequestResolution :=
  let code := default "" reasonCode in
  if bool_decide (code ≠ "" ∧ code ≠ "human-decision-required" ∧ code ≠ "human-context-required" ∧
                  ri_source i ≠ Some FromDiagnostic ∧ ri_source i ≠ Some FromGrill ∧ ri_source i ≠ Some LowConfidence ∧ ri_category i = None)
  then EngineOwned ("reason_code " +:+ code +:+ " is not a typed request")
  else if bool_decide (code = "human-context-required") && negb (ri_externalConditionWithoutInput i) then
    resolveTypedRequest (with_class i (default "operational-default" (truthy (Some (ri_nodeClass i))))
      (Some (oset "contradictory" (JBool false) (oset "missing_external" (JBool true) (default [] (ri_signals i))))))
  else
    resolveTypedRequest (with_class i
      (default (if decide (ri_category i = Some AuthorityAsk) then "merge-release" else "interface-contract") (truthy (Some (ri_nodeClass i))))
      (ri_signals i)).

Definition shouldReleaseAutoSettleableHold (i : ResolveTypedRequestInput) : bool :=
  match resolveTypedRequest i with AutoSettle _ _ => true | _ => false end.
End Resolve.

(** ** Pairs of words *)

(** Two words of the text, the second at most [window] words after the first. *)
Definition near (window : nat) (tokens : list string) (P : string → string → Prop) : Prop :=
  ∃ i j t u, tokens !! i = Some t ∧ tokens !! j = Some u ∧ i < j ≤ i + window ∧ P t u.

Lemma elem_take {A} (x : A) n l : x ∈ take n l ↔ ∃ j, l !! j = Some x ∧ j < n.
Proof.
  split.
  - intros (i & Hi & Hl)%elem_of_take. eauto.
  - intros (j & Hj & Hn). apply list_elem_of_lookup. exists j. by rewrite lookup_take_lt.
Qed.

Lemma near_cons w t ts P : near w (t :: ts) P ↔ (∃ u, u ∈ take w ts ∧ P t u) ∨ near w ts P.
Proof.
  unfold near. split.
  - intros ([|i] & [|j] & a & b & Hi & Hj & Hij & HP); [lia| |lia|].
    + left. simpl in Hi, Hj. injection Hi as ->. exists b. split; [|done]. apply elem_take. exists j. split; [done|lia].
    + right. exists i, j, a, b. split; [done|]. split; [done|]. split; [lia|done].
  - intros [(u & (j & Hj & Hn)%elem_take & HP)|(i & j & a & b & Hi & Hj & Hij & HP)].
    + exists 0, (S j), t, u. do 2 (split; [done|]). split; [lia|done].
    + exists (S i), (S j), a, b. do 2 (split; [done|]). split; [lia|done].
Qed.

Lemma near_nil w P : ¬ near w [] P.
Proof. intros (i & j & t & u & Hi & _). done. Qed.

Lemma pairWithin_exact w ts a b : hasPairWithin w ts a b = true ↔ near w ts (fun t u => t = a ∧ u = b).
Proof.
  induction ts as [|t ts IH]; cbn [hasPairWithin]; [split; [done|by intros ?%near_nil]|].
  rewrite near_cons, orb_true_iff, andb_true_iff, bool_decide_eq_true, includes_true, IH. split.
  - intros [[-> Hb]|Hn]; [left; by exists b|by right].
  - intros [(u & Hu & -> & ->)|Hn]; [by left|by right].
Qed.

Lemma setPairWithin_exact w ts l r :
  hasSetPairWithin w ts l r = true ↔ near w ts (fun t u => (t ∈ l ∧ u ∈ r) ∨ (t ∈ r ∧ u ∈ l)).
Proof.
  induction ts as [|t ts IH]; cbn [hasSetPairWithin]; [split; [done|by intros ?%near_nil]|].
  rewrite near_cons, orb_true_iff, IH, existsb_elem.
  assert (∀ u, (includes t l && includes u r || includes t r && includes u l = true) ↔ (t ∈ l ∧ u ∈ r) ∨ (t ∈ r ∧ u ∈ l)) as Hu.
  { intros u. by rewrite orb_true_iff, !andb_true_iff, !includes_true. }
  split; (intros [(u & Hin & HP)|Hn]; [left; exists u; split; [done|by apply Hu]|by right]).
Qed.

(** ** Words are the maximal runs *)

#[local] Arguments isAlnum : simpl never.

Definition edge (o : option ascii) : Prop := from_option isAlnum false o = false.

Definition WordOf (text w : list ascii) : Prop :=
  w ≠ [] ∧ Forall (fun c => isAlnum c = true) w ∧ ∃ pre post, text = pre ++ w ++ post ∧ edge (last pre) ∧ edge (head post).

Lemma edge_nil (l : list ascii) : Forall (fun c => isAlnum c = true) l → edge (last l) → l = [].
Proof.
  intros Hf. destruct l as [|c l _] using rev_ind; [done|]. rewrite last_snoc. apply Forall_app in Hf as [_ Hc].
  rewrite Forall_singleton in Hc. intros He. change (isAlnum c = false) in He. congruence.
Qed.

Lemma word_whole text w : Forall (fun c => isAlnum c = true) text → WordOf text w ↔ w = text ∧ text ≠ [].
Proof.
  intros Hf. split.
  - intros (Hne & _ & pre & post & -> & Hp & Hq). apply Forall_app in Hf as [H1 Hf]. apply Forall_app in Hf as [H2 H3].
    rewrite (edge_nil pre H1 Hp) in *. destruct post as [|c post]; [by rewrite app_nil_r|].
    apply Forall_cons in H3 as [H3 _]. change (isAlnum c = false) in Hq. congruence.
  - intros [-> Hne]. split; [done|]. split; [done|]. exists [], []. by rewrite app_nil_r.
Qed.

(** A separator ends a run of letters and starts afresh. *)
Lemma word_split run c text w :
  Forall (fun c => isAlnum c = true) run → isAlnum c = false →
  WordOf (run ++ c :: text) w ↔ (w = run ∧ run ≠ []) ∨ WordOf text w.
Proof.
  intros Hr Hc. split.
  - intros (Hne & Hf & pre & post & E & Hp & Hq). apply app_eq_app in E as (k & [[E1 E2]|[E1 E2]]).
    + left. rewrite E1 in Hr. apply Forall_app in Hr as [Hr1 Hr2].
      rewrite (edge_nil _ Hr1 Hp) in *. simpl in *. subst k.
      apply app_eq_app in E2 as (j & [[E2 E3]|[E2 E3]]).
      * destruct j as [|x j]; [rewrite app_nil_r in E2; by subst|]. injection E3 as <- _. rewrite E2 in Hf. apply Forall_app in Hf as [_ Hf].
        apply Forall_cons in Hf as [Hx _]. congruence.
      * destruct j as [|x j]; [rewrite app_nil_r in E2; by subst|]. rewrite E2 in Hr2. apply Forall_app in Hr2 as [_ Hr2].
        apply Forall_cons in Hr2 as [Hx _]. rewrite E3 in Hq. change (isAlnum x = false) in Hq. congruence.
    + destruct k as [|x k].
      * rewrite app_nil_r in E1. subst pre. simpl in E2. destruct w as [|y w]; [done|]. injection E2 as -> _.
        apply Forall_cons in Hf as [Hy _]. congruence.
      * injection E2 as <- ->. right. split; [done|]. split; [done|]. exists k, post. split; [done|]. split; [|done].
        rewrite E1 in Hp. destruct k as [|z k _] using rev_ind; [done|]. rewrite app_comm_cons, (assoc_L (++)), last_snoc in Hp. by rewrite last_snoc.
  - intros [[-> Hne]|(Hne & Hf & pre & post & -> & Hp & Hq)].
    + split; [done|]. split; [done|]. by exists [], (c :: text).
    + split; [done|]. split; [done|]. exists (run ++ c :: pre), post. rewrite <- (assoc_L (++)). split; [done|]. split; [|done].
      destruct pre as [|z pre _] using rev_ind; [by rewrite last_snoc|]. rewrite last_snoc in Hp.
      by rewrite app_comm_cons, (assoc_L (++)), last_snoc.
Qed.

Lemma words_exact text : ∀ run t, Forall (fun c => isAlnum c = true) run →
  t ∈ wordsFrom run text ↔ WordOf (reverse run ++ text) (chars t).
Proof.
  assert (∀ (l : list ascii) t, t ∈ (match l with [] => [] | _ => [unchars (reverse l)] end) ↔ chars t = reverse l ∧ reverse l ≠ []) as Hfl.
  { intros l t. assert (reverse l = [] ↔ l = []) as Hr.
    { split; [|by intros ->]. intros H. by apply (f_equal length) in H; rewrite length_reverse in H; destruct l. }
    destruct l as [|c l]; [split; [by intros ?%elem_of_nil|by intros [_ []]]|]. rewrite list_elem_of_singleton. split.
    - intros ->. rewrite String.list_ascii_of_string_of_list_ascii. split; [done|]. by rewrite Hr.
    - intros [<- _]. by rewrite String.string_of_list_ascii_of_string. }
  induction text as [|c text IH]; intros run t Hr; cbn [wordsFrom].
  - rewrite app_nil_r, word_whole by by apply Forall_reverse. apply Hfl.
  - destruct (isAlnum c) eqn:Hc.
    + rewrite IH by by constructor. by rewrite reverse_cons, <- (assoc_L (++)).
    + rewrite elem_of_app, Hfl, IH by constructor. rewrite word_split by first [done | by apply Forall_reverse]. done.
Qed.

(** Two dashes separate words with or without the replacement. *)
Lemma dashes_words n : ∀ b text run, length text < n →
  wordsFrom run (replaceFrom n (lit "--") (chars " ") (b, text)) = wordsFrom run text.
Proof.
  induction n as [|n IH]; intros b text run Hn; [lia|]. destruct text as [|c text]; [done|]. simpl in Hn.
  assert (exec (lit "--") (b, c :: text) = match text with d :: text' => if bool_decide (c = "-"%char) && bool_decide (d = "-"%char) then [(Some d, text')] else [] | [] => [] end) as E.
  { unfold lit. simpl. case_bool_decide; simpl; [|by destruct text]. destruct text as [|d text]; [done|]. simpl. by case_bool_decide. }
  cbn [replaceFrom]. rewrite E. clear E. assert (wordsFrom run (c :: replaceFrom n (lit "--") (chars " ") (Some c, text)) = wordsFrom run (c :: text)) as Hkeep.
  { cbn [wordsFrom]. destruct (isAlnum c); [|f_equal]; apply IH; lia. }
  destruct text as [|d text]; [exact Hkeep|]. destruct (bool_decide (c = _) && bool_decide (d = _)) eqn:Ed; [|exact Hkeep].
  apply andb_prop in Ed as [->%bool_decide_eq_true ->%bool_decide_eq_true]. cbn [snd length].
  assert (length text <? S (S (length text)) = true) as -> by (apply Nat.ltb_lt; lia). simpl in Hn.
  change (chars " ") with [" "%char]. cbn [app wordsFrom]. change (isAlnum " "%char) with false. change (isAlnum "-"%char) with false.
  simpl. f_equal. apply IH. lia.
Qed.

(** The words of a recommendation are the maximal runs of letters and digits of
    its lower-case spelling. *)
Lemma tokens_exact rec t : t ∈ tokenizeRecommendation rec ↔ WordOf (chars (lowerString rec)) (chars t).
Proof.
  unfold tokenizeRecommendation, replaceAll. rewrite String.list_ascii_of_string_of_list_ascii, dashes_words by lia. by rewrite words_exact.
Qed.

(** ** What is protected *)

Definition accessPairs : list (list string * list string) :=
  [(ACCESS_VERBS, ACCESS_ACTORS); (ACCESS_ACTORS, ADMIN_OBJECTS); (ACCESS_ACTORS, ACCESS_OBJECTS); (GRANT_REVOKE, PERMISSION_OBJECTS);
   (PUBLIC_ACTORS, ADMIN_OBJECTS)].

Inductive Protected (ts : list string) : Prop :=
| pr_access l r : (l, r) ∈ accessPairs → near 8 ts (fun t u => (t ∈ l ∧ u ∈ r) ∨ (t ∈ r ∧ u ∈ l)) → Protected ts
| pr_exception e : e ∈ ["exception"; "exceptions"] → near 4 ts (fun t u => (t = "policy" ∧ u = e) ∨ (t = e ∧ u = "policy")) → Protected ts
| pr_pair a b : (a, b) ∈ PROTECTED_PAIRS → near 3 ts (fun t u => t = a ∧ u = b) → Protected ts
| pr_token t : t ∈ ts → t ∈ PROTECTED_ACTION_TOKENS → Protected ts
| pr_release t : t ∈ ts → t ∈ RELEASE_ACTION_TOKENS → (∀ u, u ∈ ts → u ∉ RELEASE_NOTES_TOKENS) → Protected ts.

Lemma near_mono w ts P Q : near w ts P → (∀ t u, P t u → Q t u) → near w ts Q.
Proof. intros (i & j & t & u & Hi & Hj & Hij & HP) HQ. exists i, j, t, u. auto. Qed.

Lemma near_or w ts P Q : near w ts (fun t u => P t u ∨ Q t u) ↔ near w ts P ∨ near w ts Q.
Proof.
  split.
  - intros (i & j & t & u & Hi & Hj & Hij & [HP|HQ]); [left|right]; by exists i, j, t, u.
  - intros [H|H]; (eapply near_mono; [exact H|]); auto.
Qed.

Lemma anyToken_exact ts set : anyToken ts set = true ↔ ∃ t, t ∈ ts ∧ t ∈ set.
Proof. unfold anyToken. rewrite existsb_elem. by setoid_rewrite includes_true. Qed.

Lemma eitherWay_exact w ts a b :
  (hasPairWithin w ts a b || hasPairWithin w ts b a = true) ↔ near w ts (fun t u => (t = a ∧ u = b) ∨ (t = b ∧ u = a)).
Proof. by rewrite orb_true_iff, !pairWithin_exact, near_or. Qed.

Lemma access_exact ts :
  recommendationMatchesAccessControl ts = true ↔
  (∃ l r, (l, r) ∈ accessPairs ∧ near 8 ts (fun t u => (t ∈ l ∧ u ∈ r) ∨ (t ∈ r ∧ u ∈ l))) ∨
  ∃ e, e ∈ ["exception"; "exceptions"] ∧ near 4 ts (fun t u => (t = "policy" ∧ u = e) ∨ (t = e ∧ u = "policy")).
Proof.
  unfold recommendationMatchesAccessControl. do 6 rewrite orb_true_iff. rewrite !setPairWithin_exact, !eitherWay_exact.
  split.
  - intros [[[[[[H|H]|H]|H]|H]|H]|H]; [left..|right|right].
    1-5: eexists _, _; split; [|exact H]; unfold accessPairs; rewrite !elem_of_cons; tauto.
    all: eexists; split; [|exact H]; rewrite !elem_of_cons; tauto.
  - intros [(l & r & Hin & H)|(e & Hin & H)]; unfold accessPairs in *; rewrite !elem_of_cons, elem_of_nil in Hin.
    + destruct Hin as [[= -> ->]|[[= -> ->]|[[= -> ->]|[[= -> ->]|[[= -> ->]|[]]]]]]; tauto.
    + destruct Hin as [->|[->|[]]]; tauto.
Qed.

Lemma tokens_blank : tokenizeRecommendation "" = [].
Proof. done. Qed.

Lemma not_protected_nil : ¬ Protected [].
Proof. intros [? ? _ H|? _ H|? ? _ H|? H|? H]; try (by apply near_nil in H); by apply elem_of_nil in H. Qed.

(** The scan finds exactly the protected actions. *)
Lemma protected_exact rec : recommendationMatchesProtectedAction rec = true ↔ Protected (tokenizeRecommendation (js_trim rec)).
Proof.
  unfold recommendationMatchesProtectedAction. case_decide as Hb; [rewrite Hb, tokens_blank; split; [done|by intros ?%not_protected_nil]|].
  cbv zeta. set (ts := tokenizeRecommendation _). clearbody ts.
  rewrite !orb_true_iff, access_exact, existsb_elem, anyToken_exact, andb_true_iff, negb_true_iff, anyToken_exact. split.
  - intros [[[[(l & r & Hin & H)|(e & Hin & H)]|([a b] & Hin & H%pairWithin_exact)]|(t & H1 & H2)]|[Hn (t & H1 & H2)]].
    + by eapply pr_access.
    + by eapply pr_exception.
    + by eapply pr_pair.
    + by eapply pr_token.
    + eapply pr_release; [done|done|]. intros u Hu Hnotes. apply not_true_iff_false in Hn. apply Hn. unfold isReleaseNotesDocumentation.
      rewrite andb_true_iff, !anyToken_exact. split; [by exists t|by exists u].
  - intros [l r Hin H|e Hin H|a b Hin H|t H1 H2|t H1 H2 Hn].
    + left. left. left. left. eauto.
    + left. left. left. right. eauto.
    + left. left. right. exists (a, b). split; [done|]. by apply pairWithin_exact.
    + left. right. eauto.
    + right. split; [|eauto]. apply not_true_iff_false. unfold isReleaseNotesDocumentation. rewrite andb_true_iff, !anyToken_exact.
      intros [_ (u & Hu & Hin)]. by apply (Hn u).
Qed.

(** ** What the facts cover *)

(** The recommendation is written out in the facts, or its words, but for
    stopwords and single letters, are all words of the facts. *)
Definition Covered (rec facts : string) : Prop :=
  js_trim rec ≠ "" ∧ js_trim facts ≠ "" ∧
  ((∃ pre post, chars (lowerString (js_trim facts)) = pre ++ chars (lowerString (js_trim rec)) ++ post) ∨
   (contentTokens (js_trim rec) ≠ [] ∧ ∀ t, t ∈ contentTokens (js_trim rec) → WordOf (chars (lowerString (js_trim facts))) (chars t))).

Lemma contains_exact t l : contains t l = true ↔ ∃ pre post, l = pre ++ t ++ post.
Proof.
  induction l as [|c l IH]; cbn [contains]; rewrite orb_true_iff, bool_decide_eq_true.
  - split.
    + intros [(k & ->)|?]; [by exists [], k|done].
    + intros (pre & post & E). left. exists post. by destruct pre.
  - rewrite IH. split.
    + intros [(k & E)|(pre & post & ->)]; [by exists [], k|by exists (c :: pre), post].
    + intros ([|x pre] & post & E); [left; by exists post|right]. injection E as -> ->. by exists pre, post.
Qed.

Lemma covered_exact rec facts : factsCoverRecommendation rec facts = true ↔ Covered rec facts.
Proof.
  unfold factsCoverRecommendation, Covered. cbv zeta. case_decide as Hb; [split; [done|tauto]|].
  assert (js_trim rec ≠ "" ∧ js_trim facts ≠ "") as [H1 H2] by tauto. clear Hb. unfold string_includes.
  destruct (contains _ _) eqn:Ec; [apply contains_exact in Ec; tauto|].
  apply not_true_iff_false in Ec. rewrite contains_exact in Ec. destruct (contentTokens _) as [|t ts] eqn:Et.
  - split; [done|]. intros (_ & _ & [?|[? _]]); done.
  - rewrite forallb_elem. setoid_rewrite includes_true. setoid_rewrite tokens_exact. split; [|tauto]. intros H. split; [done|]. split; [done|].
    right. by split.
Qed.

(** ** What is settled *)

Definition settleable : list string := ["scope"; "interface-contract"; "test-evidence"; "docs-surface"; "operational-default"].

Lemma settleable_exact c : c ∈ settleable ↔ isGrillTaxonomyClass c = true ∧ includes c PROTECTED_CLASSES = false.
Proof.
  unfold isGrillTaxonomyClass, includes. rewrite bool_decide_eq_true, bool_decide_eq_false. split.
  - intros H. split; [|intros K]; unfold settleable, OPERATOR_REQUIRED_CLASSES, NON_AUTHORITY_CLASSES, PROTECTED_CLASSES in *; set_solver.
  - unfold settleable, OPERATOR_REQUIRED_CLASSES, NON_AUTHORITY_CLASSES, PROTECTED_CLASSES. set_solver.
Qed.

Lemma settle_exact cls rec sig facts :
  (∃ reason, settleRecommendation cls rec sig facts = AutoAccept reason) ↔
  contradictory sig = false ∧ cls ∈ settleable ∧ ¬ Protected (tokenizeRecommendation (js_trim rec)) ∧ Covered rec facts.
Proof.
  rewrite settleable_exact. rewrite <- (js_trim_idem rec) at 1. rewrite <- protected_exact, not_true_iff_false.
  assert (Covered rec facts ↔ factsCoverRecommendation (js_trim rec) facts = true) as ->.
  { rewrite covered_exact. unfold Covered. by rewrite js_trim_idem. }
  unfold settleRecommendation, deriveSettlementSignals, engineCoveredByExistingAuthority, engineDiscoverableFromFacts, engineProtectedAction, ask.
  cbv zeta. rewrite !js_trim_idem.
  destruct (contradictory sig); [naive_solver|].
  destruct (decide (js_trim rec = "")) as [Hb|Hb].
  - assert (factsCoverRecommendation (js_trim rec) facts = false) as ->.
    { unfold factsCoverRecommendation. rewrite js_trim_idem. by rewrite decide_True by by left. }
    split; [|by intros (_ & _ & _ & ?)]. intros [reason H]. by repeat case_match.
  - rewrite bool_decide_false by done.
    destruct (factsCoverRecommendation _ _), (missing_external sig), (discoverable_from_facts sig), (isGrillTaxonomyClass cls),
      (includes cls PROTECTED_CLASSES), (recommendationMatchesProtectedAction _), (au_operatorRequired _); cbn;
      (split; [intros [reason Hr]; first [discriminate Hr|done]|intros (_ & [H1 H2] & H3 & H4); first [discriminate|by eexists]]).
Qed.

(** *** The package of a settlement is complete *)

Lemma trimmed_nonblank s t : trimmedText s = Some t → blank t = false.
Proof.
  unfold trimmedText, truthy. destruct s as [s|]; [|done]. simpl. case_decide as H; [done|]. intros [= <-].
  rewrite blank_trim, blank_js_trim. by apply bool_decide_eq_false.
Qed.

Lemma default_nonblank s d : blank d = false → blank (default d (trimmedText s)) = false.
Proof. intros H. destruct (trimmedText s) eqn:E; [by eapply trimmed_nonblank|done]. Qed.

Lemma decision_validates p :
  blank (dp_recommendation p) = false → blank (dp_rationale p) = false → blank (dp_risk p) = false → dp_evidence p ≠ [] →
  validateDecisionPackage (Some (decisionJson p)) = Ok p.
Proof.
  destruct p as [rec rationale alts risk ev]. unfold validateDecisionPackage. simpl. intros -> -> -> He. simpl. rewrite !mapM_asString. simpl.
  by destruct ev.
Qed.

Lemma package_complete i r k : blank (resultReason r) = false → packaged i r k = k (buildPackage i r).
Proof.
  intros H. unfold packaged. rewrite decision_validates; [done|apply default_nonblank..|]; [done|done|by destruct r as [|[]|]|].
  unfold buildPackage. cbn [dp_evidence]. destruct (ri_evidence i) as [[|e es]|]; [|done|]; by destruct (trimmedText (ri_factText i)).
Qed.

(** ** Properties *)

Lemma drop_spaces_nil l : drop_spaces l = [] → Forall (fun c => js_space c = true) l.
Proof. induction l as [|c l IH]; simpl; [done|]. destruct (js_space c) eqn:E; [|done]. intros H. constructor; auto. Qed.

Lemma blank_cons c s : js_space c = false → blank (String c s) = false.
Proof.
  intros Hc. unfold blank, trim. simpl. rewrite Hc. apply bool_decide_eq_false. intros H.
  apply (f_equal reverse) in H. rewrite reverse_involutive in H. apply drop_spaces_nil in H. rewrite Forall_reverse in H.
  apply Forall_cons in H as [H _]. congruence.
Qed.

Lemma reason_nonblank cls rec sig facts : blank (resultReason (settleRecommendation cls rec sig facts)) = false.
Proof. unfold settleRecommendation, ask. cbv zeta. repeat case_match; by apply blank_cons. Qed.

(** When a request is settled without asking a human. *)
Record AutoSettles (i : ResolveTypedRequestInput) : Prop := {
  as_source : ri_source i ∉ [Some UnknownError; Some StaleLabel; Some RetryExhaustionSource];
  as_input : ri_externalConditionWithoutInput i = false;
  as_category : ri_category i ≠ Some AuthorityAsk;
  as_consistent : ∀ raw, ri_signals i = Some raw → oget raw "contradictory" ≠ Some (JBool true);
  as_class : ri_nodeClass i ∈ settleable;
  as_unprotected : ¬ Protected (tokenizeRecommendation (js_trim (ri_recommendation i)));
  as_covered : Covered (ri_recommendation i) (default "" (ri_factText i));
}.

Lemma signals_contradictory i :
  contradictory (signalsFromInput i) = false ↔ ∀ raw, ri_signals i = Some raw → oget raw "contradictory" ≠ Some (JBool true).
Proof.
  unfold signalsFromInput. destruct (ri_signals i) as [raw|]; [|by split]. cbn. unfold boolField.
  split; [by intros H r [= <-] E; rewrite E in H|]. intros H. specialize (H raw eq_refl).
  by destruct (oget raw "contradictory") as [[|[]| | | |]|].
Qed.

Lemma falseHuman_None s : falseHuman s = None ↔ s ∉ [Some UnknownError; Some StaleLabel; Some RetryExhaustionSource].
Proof. rewrite !elem_of_cons, elem_of_nil. destruct s as [[]|]; simpl; naive_solver. Qed.

Lemma settles_exact isoOfMs clockMs i :
  shouldReleaseAutoSettleableHold isoOfMs clockMs i = true ↔ AutoSettles i.
Proof.
  unfold shouldReleaseAutoSettleableHold, resolveTypedRequest. set (out := settleRecommendation _ _ _ _).
  pose proof (settle_exact (ri_nodeClass i) (ri_recommendation i) (signalsFromInput i) (default "" (ri_factText i))) as Hs. fold out in Hs.
  rewrite signals_contradictory in Hs. pose proof (reason_nonblank (ri_nodeClass i) (ri_recommendation i) (signalsFromInput i) (default "" (ri_factText i))) as Hr.
  fold out in Hr. clearbody out. destruct (falseHuman (ri_source i)) eqn:Ef.
  { split; [done|]. intros [H _ _ _ _ _ _]. apply falseHuman_None in H. congruence. }
  apply falseHuman_None in Ef. destruct (ri_externalConditionWithoutInput i) eqn:Ee.
  { split; [unfold capabilityAsked, orEngineOwned; by destruct (validateCapabilityRequest _)|]. intros []. congruence. }
  case_decide as Hc; [split; [unfold askAuthority, orEngineOwned; by destruct (validateAuthorityRequest _ _)|by intros []]|].
  destruct out as [reason|[] ? reason|reason]; rewrite ?package_complete by done.
  - split; [intros _|done]. destruct Hs as [(H1 & H2 & H3 & H4) _]; [by eexists|]. by split.
  - split; [done|]. intros []. destruct Hs as [_ [? ?]]; done.
  - split; [unfold capabilityAsked, orEngineOwned; by destruct (validateCapabilityRequest _)|]. intros []. destruct Hs as [_ [? ?]]; done.
  - split; [unfold askAuthority, orEngineOwned; by destruct (validateAuthorityRequest _ _)|]. intros []. destruct Hs as [_ [? ?]]; done.
  - split; [by case_decide; rewrite ?package_complete by done|]. intros []. destruct Hs as [_ [? ?]]; done.
Qed.

Lemma settles_resolution isoOfMs clockMs i :
  AutoSettles i → resolveTypedRequest isoOfMs clockMs i =
    AutoSettle (buildPackage i (AutoAccept AUTO_ACCEPT_ELIGIBILITY_REASON)) AUTO_ACCEPT_ELIGIBILITY_REASON.
Proof.
  intros [H1 H2 H3 H4 H5 H6 H7]. unfold resolveTypedRequest. apply falseHuman_None in H1. rewrite H1, H2. rewrite decide_False by done.
  assert (∃ reason, settleRecommendation (ri_nodeClass i) (ri_recommendation i) (signalsFromInput i) (default "" (ri_factText i)) = AutoAccept reason)
    as [reason E] by (apply settle_exact; by rewrite signals_contradictory).
  rewrite E. assert (reason = AUTO_ACCEPT_ELIGIBILITY_REASON) as ->; [|by rewrite package_complete].
  revert E. unfold settleRecommendation, ask. cbv zeta. repeat case_match; by intros [= <-].
Qed.

(** C27. A typed request is settled without a human only when it has a source
    that may ask, waits on no outside condition, asks for no authority, carries
    no reported contradiction, is of a class that is not protected, says nothing
    the scan for protected actions knows, in any of its words, and is covered by
    the gathered facts; it is then settled with a complete package; and the same
    request without the signals a model reports is settled too: they can prevent
    a settlement and never bring one about. *)
Theorem auto_settle_sound isoOfMs clockMs i :
  shouldReleaseAutoSettleableHold isoOfMs clockMs i = true →
  AutoSettles i ∧
  resolveTypedRequest isoOfMs clockMs i =
    AutoSettle (buildPackage i (AutoAccept AUTO_ACCEPT_ELIGIBILITY_REASON)) AUTO_ACCEPT_ELIGIBILITY_REASON ∧
  shouldReleaseAutoSettleableHold isoOfMs clockMs (with_class i (ri_nodeClass i) None) = true.
Proof.
  intros H. apply settles_exact in H. split; [done|]. split; [by apply settles_resolution|]. apply settles_exact. destruct H as [H1 H2 H3 _ H5 H6 H7]. by split.
Qed.

Lemma authority_Ok v tip r :
  validateAuthorityRequest v tip = Ok r →
  fieldOf v "eligible_actor" = Some (JStr (ar_eligible_actor r)) ∧ fieldOf v "repository" = Some (JStr (ar_repository r)) ∧
  (tip = true → is_Some (ar_candidate_epoch r)).
Proof.
  unfold validateAuthorityRequest. destruct (negb _); [done|]. destruct (grantPresent v); [done|]. intros H. inv_require H. cbv zeta in H.
  apply nonBlankString_spec in E as [E _], E0 as [E0 _]. destruct (tip && _) eqn:Et; [done|]. injection H as <-. split; [done|]. split; [done|].
  intros ->. simpl in Et. apply bool_decide_eq_false in Et. simpl. by apply not_eq_None_Some.
Qed.

(** The engine never invents who may grant an authority: a request for it
    names the actor and the repository its caller supplied, and the candidate it
    is bound to whenever there is one. *)
Theorem authority_supplied isoOfMs clockMs i r :
  resolveTypedRequest isoOfMs clockMs i = ResolvedAuthority r →
  (ri_authority i ≫= pa_eligible_actor) = Some (ar_eligible_actor r) ∧ (ri_authority i ≫= pa_repository) = Some (ar_repository r) ∧
  (ri_tipPresent i = true → is_Some (ar_candidate_epoch r)).
Proof.
  intros H. assert (askAuthority isoOfMs clockMs i = ResolvedAuthority r) as Ha.
  { revert H. unfold resolveTypedRequest. destruct (falseHuman _); [done|].
    destruct (ri_externalConditionWithoutInput i); [unfold capabilityAsked, orEngineOwned; by destruct (validateCapabilityRequest _)|].
    pose proof (reason_nonblank (ri_nodeClass i) (ri_recommendation i) (signalsFromInput i) (default "" (ri_factText i))) as Hr.
    case_decide; [done|]. destruct (settleRecommendation _ _ _ _) as [?|[]|?]; rewrite ?package_complete by done; try done.
    - unfold capabilityAsked, orEngineOwned. by destruct (validateCapabilityRequest _).
    - case_decide; rewrite ?package_complete by done; done. }
  revert Ha. unfold askAuthority, orEngineOwned. destruct (validateAuthorityRequest _ _) as [r'|] eqn:E; [|done]. intros [= ->].
  apply authority_Ok in E as (H1 & H2 & H3). split; [|split; [|done]].
  - revert H1. unfold buildAuthorityRecord. cbv zeta. destruct (ri_authority i ≫= pa_eligible_actor); [by intros [= ->]|].
    by destruct (ri_authority i ≫= pa_repository).
  - revert H2. unfold buildAuthorityRecord. cbv zeta. destruct (ri_authority i ≫= pa_eligible_actor), (ri_authority i ≫= pa_repository);
      try done; by intros [= ->].
Qed.

(** A candidate-bound request is stale exactly when it is bound and the current
    head, however spelled, is another one. *)
Lemma stale_exact sha epoch current :
  isCandidateBoundRequestStale sha epoch current = true ↔
  let bound := js_trim (default "" (match epoch with Some e => Some e | None => sha end)) in
  bound ≠ "" ∧ lowerString bound ≠ lowerString (js_trim (default "" current)).
Proof.
  unfold isCandidateBoundRequestStale, candidateEpochChanged. cbv zeta. generalize (default "" (match epoch with Some e => Some e | None => sha end)).
  intros x. cbn [default Datatypes.id]. case_decide as Hb; [naive_solver|]. rewrite !js_trim_idem.
  assert (lowerString (js_trim x) ≠ "") as Hl.
  { unfold lowerString. intros H. apply Hb. destruct (chars (js_trim x)) as [|c l] eqn:E; [|done].
    by rewrite <- (String.string_of_list_ascii_of_string (js_trim x)), E. }
  case_decide as Hc; rewrite bool_decide_eq_true; [|naive_solver]. destruct Hc as [Hc|Hc]; [done|]. rewrite Hc. naive_solver.
Qed.

(** ** Witnesses *)

Module SettlementSample.
Definition request (cls rec facts : string) (category : option AskCategory) : ResolveTypedRequestInput :=
  mkResolve cls rec (Some facts) None category (Some FromDiagnostic) false None
    (Some (mkPartialAuthority (Some "owner") (Some "repo") None None None None None)) true (Some "ABC") (Some 0%Z) None None None None.
Definition iso (ms : Z) : string := "2026-01-15T00:00:00.000Z".
Definition releases (cls rec facts : string) : bool := shouldReleaseAutoSettleableHold iso 0 (request cls rec facts None).

(** The tests of the source. *)
Example settled :
  releases "operational-default" "use REST for the public API" "CONTEXT.md: the public API uses REST" = true ∧
  releases "docs-surface" "document the release notes" "CONTEXT.md asks to document the release notes" = true ∧
  releases "docs-surface" "document the release" "document the release" = false ∧
  releases "docs-surface" "make the admin API public" "make the admin API public" = false ∧
  releases "docs-surface" "drop production data" "drop production data" = false ∧
  releases "interface-contract" "REST" "" = false.
Proof. by vm_compute. Qed.

(** The scan knows [merge], [merging] and [merged], not [merges], and [deployment],
    not [deployed]: such a recommendation is settled without a human. *)
Theorem inflected_action_settles :
  releases "operational-default" "The bot merges the pull request" "The bot merges the pull request." = true ∧
  releases "operational-default" "The service is deployed nightly" "The service is deployed nightly." = true ∧
  releases "operational-default" "merge the pull request" "merge the pull request" = false.
Proof. by vm_compute. Qed.

(** A release is settled when its changelog is mentioned along with it. *)
Theorem release_with_changelog_settles :
  releases "operational-default" "Release version 2 and update the changelog" "Release version 2 and update the changelog." = true ∧
  releases "operational-default" "Release version 2" "Release version 2." = false.
Proof. by vm_compute. Qed.

Example authority : 
  resolveTypedRequest iso 0 (request "merge-release" "Merge it" "" None) =
    ResolvedAuthority (mkAuthority "owner" "repo" "merge" "merge-release" (Some "abc") [JStr "Merge it"] "2026-01-15T00:00:00Z").
Proof. by vm_compute. Qed.
End SettlementSample.

Lemma auto_settle_sound_witness :
  AutoSettles (SettlementSample.request "operational-default" "use REST for the public API" "CONTEXT.md: the public API uses REST" None).
Proof.
  apply (auto_settle_sound SettlementSample.iso 0). vm_compute. reflexivity.
Defined.

Lemma authority_supplied_witness : ∃ r,
  resolveTypedRequest SettlementSample.iso 0 (SettlementSample.request "merge-release" "Merge it" "" None) = ResolvedAuthority r ∧
  is_Some (ar_candidate_epoch r).
Proof.
  eexists. split; [by vm_compute|].
  eapply (authority_supplied SettlementSample.iso 0 (SettlementSample.request "merge-release" "Merge it" "" None)); [by vm_compute|done].
Defined.
