(* ===== verification/RecoveryHandlers.v ===== *)
(** * The recovery handlers

    The state-changing operations of [core/scripts/loop/recovery.ts]: blocking
    an item, claiming a recovery attempt before its side effect, completing it,
    the one-call wrapper, and owned Cooling.  A handler takes the ledger it
    read; a refused call is an [Err] and writes nothing; a successful one
    returns the ledger, whether it wrote it, and the events it appended. *)

From Stdlib Require Import ZArith QArith Qcanon Ascii.
From stdpp Require Import numbers base gmap strings list pretty.
From S2P Require Import Prelude LoopTypes Ownership Lifecycle RecoveryPolicy Frontier RecoveryEpisodes.
Local Open Scope result_scope.
Local Open Scope Z_scope.

Inductive LoopEvent :=
| ItemBlocked (item cls fingerprint : string) (epoch head : option string) (repeated : Z)
| RunStopped (reason : LoopStopReason) (item fingerprint : string)
| AttemptStarted (a : LoopRecoveryAttempt)
| AttemptRecorded (a : LoopRecoveryAttempt)
| ItemCooling (c : LoopCoolingRecord).

(** What a handler leaves behind. *)
Record Effect (A : Type) := mkEffect {
  eff_ledger : LoopLedger;
  eff_written : bool;
  eff_events : list LoopEvent;
  eff_value : A;
}.
Arguments mkEffect {A}.
Arguments eff_ledger {A}.
Arguments eff_written {A}.
Arguments eff_events {A}.
Arguments eff_value {A}.

(** ** Updating parts of a ledger *)

Definition with_attempts (l : LoopLedger) (xs : list LoopRecoveryAttempt) : LoopLedger :=
  mkLedger (l_run_id l) (items l) (merge_barrier l) (stop l) (cooling l) (item_cooling l) (lifecycle l)
    (last_reconciliation l) (Some xs) (last_native_goal_check l) (reconciliation_sequence l)
    (authority_amendments l).
Definition with_stop (l : LoopLedger) (s : option LoopStopRecord) : LoopLedger :=
  mkLedger (l_run_id l) (items l) (merge_barrier l) s (cooling l) (item_cooling l) (lifecycle l)
    (last_reconciliation l) (recovery_attempts l) (last_native_goal_check l) (reconciliation_sequence l)
    (authority_amendments l).
Definition with_cooling (l : LoopLedger) (c : LoopCoolingRecord) (per : option (obj LoopCoolingRecord))
    : LoopLedger :=
  mkLedger (l_run_id l) (items l) (merge_barrier l) (stop l) (Some c) per (lifecycle l)
    (last_reconciliation l) (recovery_attempts l) (last_native_goal_check l) (reconciliation_sequence l)
    (authority_amendments l).

(** The attempts of an upgraded ledger. *)
Definition attemptsOf (l : LoopLedger) : list LoopRecoveryAttempt := default [] (recovery_attempts l).

(** ** Shared pieces *)

Definition nonEmptyTrim (o : option string) : option string :=
  match o with Some s => truthy (Some (js_trim s)) | None => None end.

(** The first binding present wins; [mint] is the id a fresh operation gets. *)
Definition resolveLogicalOperationId (written loopStore parent namedRun : option string) (mint : string)
    : string :=
  match nonEmptyTrim written with
  | Some w => w
  | None =>
      match nonEmptyTrim loopStore with
      | Some s => s
      | None =>
          match nonEmptyTrim parent with
          | Some p => p
          | None => default mint (nonEmptyTrim namedRun)
          end
      end
  end.

Definition admitRecoveryLifecycle (mint : string) (c : LoopContract) (l : LoopLedger) (updatedAt : string)
    : LoopLedger :=
  let op := resolveLogicalOperationId (lr_logical_operation_id <$> lifecycle l) (c_logical_operation_id c) None None mint in
  let facts := mkDerivation [] (typed_request_name <$> typedRequestFromOwnedItems (items l))
                 (stop_reason_name ∘ stop_reason <$> stop l) (bool_decide (is_Some (cooling l)))
                 None false None false false true false None in
  let ownership := match lifecycle l with
                   | Some r => consultLifecycleRecord (Some r) facts
                   | None => deriveLifecycleState facts
                   end in
  bindLifecycleRecord l op ownership updatedAt.

Definition recoveryEpisodeCandidateEpoch (identity : option LoopExternalIdentity) (fallback : string) : string :=
  match identity ≫= logical_candidate_epoch with
  | Some e => default fallback (truthy (Some (js_trim e)))
  | None => fallback
  end.

(** [/^[0-9a-f]{40}$/i]. *)
Definition isHexDigit (a : ascii) : bool :=
  let n := nat_of_ascii a in
  ((48 <=? n) && (n <=? 57) || (97 <=? n) && (n <=? 102) || (65 <=? n) && (n <=? 70))%nat.
Definition isSha40 (s : string) : bool :=
  bool_decide (length (chars s) = 40%nat) && forallb isHexDigit (chars s).

Definition isReviewFindingsPrepUnlink (cls act : string) : bool :=
  bool_decide (cls = "review-findings") && bool_decide (act = "unlink_engine_scratch").

Definition throw {A} (k : LoopFailureClass) (msg : string) : result LoopError A := Err (mkLoopError k msg).

Definition lifecycle_state_name (s : RecoveryLifecycleState) : string :=
  match s with
  | LActive => "active"
  | LCooling => "cooling"
  | LExternalConditionWait => "external-condition-wait"
  | LTypedInputWait => "typed-input-wait"
  | LSucceeded => "succeeded"
  | LCancelled => "cancelled"
  end.

(** The first two refusals every handler makes. *)
Definition requireLiveLifecycle (l : LoopLedger) (itemId : string) : result LoopError unit :=
  if lifecycleAllowsRecoveryRecipe (lifecycle l) (oget (items l) itemId) then Ok tt
  else throw FStop ("logical operation lifecycle is " +:+
         lifecycle_state_name (lo_state (consultLifecycleRecord (lifecycle l) noEvidence))).

Definition requireNotStopped (l : LoopLedger) (runId itemId : string) : result LoopError unit :=
  match stop l with
  | Some st =>
      if compatibilityStopRefusesItem (Some st) itemId then
        throw FStop ("loop run " +:+ quoted runId +:+ " is already stopped: " +:+ stop_reason_name (stop_reason st))
      else Ok tt
  | None => Ok tt
  end.

(** The policy entry of a class; a compiled policy has one for every class. *)
Definition entryFor (c : LoopContract) (cls : DurableBlockerClass) : result LoopError RecoveryPolicyEntry :=
  try p := compileRecoveryPolicy (recovery_policy c) in
  match policyFor p cls with
  | Some e => Ok e
  | None => throw FValidation "recovery policy entry is undefined"
  end.

Section Handlers.
Context (sha256hex : string → string) (fingerprintEvidence : string → string) (mint : string)
  (** [new Date(Date.parse(t) + s * 1000).toISOString()]. *)
  (isoAfter : string → jsnum → string).

(** ** Blocking *)

Record BlockItemInput := mkBlock {
  b_runId : string;
  b_itemId : string;
  b_engine : LoopEngineName;
  b_blockerClass : string;
  b_evidence : string;
  (** Own properties of the input, which may hold [undefined]. *)
  b_candidateEpoch : option (option string);
  b_candidateHead : option (option string);
  b_note : option string;
  b_allowAlreadyStopped : bool;
}.

(** The candidate binding recorded at the block boundary. *)
Definition blockBoundary (item : LoopItemLedgerEntry) (i : BlockItemInput) : option string * option string :=
  let identity := last_verified_identity item in
  let verifiedHead := default "" (js_trim ∘ head_sha <$> identity) in
  let explicit := bool_decide (is_Some (b_candidateEpoch i) ∨ is_Some (b_candidateHead i)) in
  let epochIn := if explicit then default "" (js_trim <$> mjoin (b_candidateEpoch i))
                 else recoveryEpisodeCandidateEpoch identity verifiedHead in
  let headIn := if explicit then default "" (js_trim <$> mjoin (b_candidateHead i)) else verifiedHead in
  if isSha40 epochIn then (Some epochIn, if isSha40 headIn then Some headIn else None) else (None, None).

Definition blockedEntryOf (item : LoopItemLedgerEntry) (i : BlockItemInput) (cls time fingerprint : string)
    (count : Z) : LoopItemLedgerEntry :=
  let '(epoch, head) := blockBoundary item i in
  mkEntry (id item) Blocked
    (history item ++ [mkHistory time (state item) Blocked (b_engine i) (Some cls) (Some (b_evidence i)) (b_note i)])
    (Some cls) (recovery_budgets_remaining item) (Some fingerprint) (Some (default "" epoch)) head (Some count)
    (hold_request item) (last_verified_identity item) (current_stage item) (advance_run_id item).

Definition blockItem (c0 : LoopContract) (l0 : LoopLedger) (i : BlockItemInput) (time : string)
    : result LoopError (Effect unit) :=
  match asDurableBlockerClass (b_blockerClass i) with
  | None => throw FValidation (quoted (b_blockerClass i) +:+ " is not a valid DurableBlockerClass")
  | Some cls =>
      try c := upgradeContractForRecovery c0 in
      let l := upgradeLedgerForRecovery sha256hex l0 in
      try _ := requireLiveLifecycle l (b_itemId i) in
      try _ := (if b_allowAlreadyStopped i then Ok tt else requireNotStopped l (b_runId i) (b_itemId i)) in
      match oget (items l) (b_itemId i) with
      | None => throw FValidation ("item " +:+ quoted (b_itemId i) +:+ " not found in run " +:+ quoted (b_runId i))
      | Some item =>
          if decide (state item ≠ InProgress) then
            throw FValidation ("item " +:+ quoted (b_itemId i) +:+ " cannot block from state " +:+
              quoted (item_state_name (state item)) +:+ " — only an in_progress item may transition into blocked " +:+
              "(a blocked item must be recovered back to in_progress first)")
          else
            try entry := entryFor c cls in
            let fp := fingerprintEvidence (b_evidence i) in
            let count := if decide (evidence_fingerprint item = Some fp)
                         then default 0 (repeated_evidence_count item) + 1 else 0 in
            let name := blocker_class_name cls in
            let l1 := with_items l (oset (b_itemId i) (blockedEntryOf item i name time fp count) (items l)) in
            let l2 := match stop l1 with
                      | None =>
                          if decide (terminal_outcome entry = HumanAuthorityOutcome) then
                            with_stop l1 (Some (mkStop HumanAuthority time (Some (b_itemId i)) (Some name) None
                                                  (outstandingReadyItemIds l1)))
                          else l1
                      | Some _ => l1
                      end in
            let next := admitRecoveryLifecycle mint c l2 time in
            let '(epoch, head) := blockBoundary item i in
            Ok (mkEffect next true
                  (ItemBlocked (b_itemId i) name fp epoch head count ::
                   match stop next, stop l with
                   | Some st, None => [RunStopped (stop_reason st) (b_itemId i) fp]
                   | _, _ => []
                   end) tt)
      end
  end.

Definition classifyAndBlockItem (c0 : LoopContract) (l0 : LoopLedger) (i : BlockItemInput)
    (candidateClasses : list string) (time : string) : result LoopError (Effect unit) :=
  match classifyBlocker candidateClasses with
  | Ok cls =>
      blockItem c0 l0 (mkBlock (b_runId i) (b_itemId i) (b_engine i) (blocker_class_name cls) (b_evidence i)
        (b_candidateEpoch i) (b_candidateHead i) (b_note i) (b_allowAlreadyStopped i)) time
  | Err err =>
      blockItem c0 l0 (mkBlock (b_runId i) (b_itemId i) (b_engine i) "workflow-engine-defect"
        ("blocker classification defect: " +:+ message err +:+ "; source evidence: " +:+ b_evidence i)
        (b_candidateEpoch i) (b_candidateHead i)
        (Some "typed blocker classification failed; bounded engine repair required")
        (b_allowAlreadyStopped i)) time
  end.

(** ** Claiming an attempt *)

Record StartRecoveryAttemptInput := mkStart {
  s_runId : string;
  s_token : string;
  s_itemId : string;
  s_action : RecoveryRecipe;
  s_candidateIdentity : option string;
  s_operation : option string;
  s_invariant : option string;
  s_candidateEpoch : option string;
  s_evidenceIdentity : option string;
  s_skipInapplicable : bool;
}.

(** [requested?.trim() || `block:${n}:${fp}`]. *)
Definition recoveryCandidateIdentity (requested : option string) (fp : string) (n : Z) : string :=
  default ("block:" +:+ pretty n +:+ ":" +:+ fp) (nonEmptyTrim requested).

(** [s.replace(/\|attempt=\d+$/i, "")]. *)
Definition stripAttemptOrdinal (s : string) : string :=
  let rev := reverse (chars s) in
  let isDigit a := ((48 <=? nat_of_ascii a) && (nat_of_ascii a <=? 57))%nat in
  let fix skipDigits l := match l with a :: l' => if isDigit a then skipDigits l' else l | [] => [] end in
  let rest := skipDigits rev in
  let tag := reverse (chars "|attempt=") in
  if bool_decide (rest = rev) then s
  else if bool_decide (lower <$> take (length tag) rest = tag)
  then unchars (reverse (drop (length tag) rest)) else s.

(** Arithmetic of the retry budget and of the backoff schedule, on exact
    values; a non-finite operand makes the result non-finite. *)
Definition num_dec (n : jsnum) : jsnum :=
  match n with Fin q => Fin (if Qle_bool 1 q then (q - 1)%Qc else 0%Qc) | NonFinite => NonFinite end.
Definition num_mul (a b : jsnum) : jsnum :=
  match a, b with Fin p, Fin q => Fin (p * q)%Qc | _, _ => NonFinite end.
Fixpoint num_pow (a : jsnum) (n : nat) : jsnum :=
  match n with O => num 1 | S n' => num_mul a (num_pow a n') end.
Definition num_min (a b : jsnum) : jsnum :=
  match a, b with Fin p, Fin q => Fin (if Qle_bool p q then p else q) | _, _ => NonFinite end.
Definition num_positive (a : jsnum) : bool :=
  match a with Fin q => negb (Qle_bool q 0) | NonFinite => false end.

(** Attempts of the class on the same evidence, skips and free preparation apart. *)
Definition priorClassAttempts (attempts : list LoopRecoveryAttempt) (itemId cls fp : string) : nat :=
  length (filter (fun a => att_item_id a = itemId ∧ att_class a = cls ∧ att_evidence_fingerprint a = fp ∧
            outcome a ≠ OutSkipped ∧ isReviewFindingsPrepUnlink (att_class a) (default "" (action a)) = false)
            attempts).

Definition backoffSeconds (b : RecoveryBackoff) (n : nat) : jsnum :=
  num_min (max_seconds b) (num_mul (initial_seconds b) (num_pow (multiplier b) n)).

(** [recipes.indexOf(action)]. *)
Definition recipeIndex (rs : list RecoveryRecipe) (r : RecoveryRecipe) : nat :=
  match list_find (fun x => x = r) rs with Some (i, _) => i | None => 0%nat end.

(** Moving the cursor up to the claimed recipe: unspent predecessors count as
    skipped. *)
Definition advanceTo (e : RecoveryPolicyEntry) (idx : nat) (ep : RecoveryEpisodeRecord) : RecoveryEpisodeRecord :=
  if ep_cursor ep <? Z.of_nat idx then
    let predecessors := drop (Z.to_nat (ep_cursor ep)) (take idx (recipes e)) in
    let implicitSkips := filter (fun r => recipe_name r ∉ ep_skipped ep ∧
          reaches (spent (ep_counts ep) (recipe_name r)) (perStrategyBound e) = false) predecessors in
    mkEpisode (ep_id ep) (ep_operation ep) (ep_invariant ep) (ep_epoch ep) (ep_evidence ep) (ep_counts ep)
      (Z.of_nat idx) (ep_next ep) (ep_skipped ep ++ (recipe_name <$> implicitSkips)) (ep_fence ep)
  else ep.

(** [{ ...episode, strategy_cursor, skipped_strategies, next_eligible_at }]. *)
Definition skipRecipe (idx : nat) (act time : string) (ep : RecoveryEpisodeRecord) : RecoveryEpisodeRecord :=
  mkEpisode (ep_id ep) (ep_operation ep) (ep_invariant ep) (ep_epoch ep) (ep_evidence ep) (ep_counts ep)
    (Z.max (ep_cursor ep) (Z.of_nat idx + 1)) time (ep_skipped ep ++ [act]) (ep_fence ep).

Definition with_next (ep : RecoveryEpisodeRecord) (time : string) : RecoveryEpisodeRecord :=
  mkEpisode (ep_id ep) (ep_operation ep) (ep_invariant ep) (ep_epoch ep) (ep_evidence ep) (ep_counts ep) (ep_cursor ep) time (ep_skipped ep) (ep_fence ep).

(** The attempt row with its episode fields attached: the literal of
    [startRecoveryAttempt] through [attachEpisodeFields]. *)
Definition newAttempt (i : StartRecoveryAttemptInput) (attemptId cls candidate fp time : string) (sq : nat)
    (out : RecoveryAttemptOutcome) (budget : jsnum) (notBefore : option string) (ep : RecoveryEpisodeRecord)
    : LoopRecoveryAttempt :=
  let act := recipe_name (s_action i) in
  mkAttempt (Some attemptId) (Z.of_nat sq) time (s_itemId i) cls (Some candidate) (Some act) [act] fp out
    (Some budget) (Some (ep_operation ep)) (Some (ep_invariant ep)) (Some (ep_epoch ep)) (Some (ep_evidence ep))
    (Some (ep_id ep)) (Some (ep_counts ep)) (Some (ep_cursor ep)) (Some (ep_skipped ep)) (Some (ep_next ep))
    notBefore None
    (match out with
     | OutExhausted => Some ("recovery budget exhausted before action " +:+ quoted act +:+ " could start")
     | OutSkipped => Some ("recipe " +:+ quoted act +:+ " is inapplicable and was skipped without charging repair budget")
     | _ => None
     end)
    (match out with OutExhausted => Some TermFailed | _ => None end)
    (truthy (Some (s_token i)))
    (match out with OutStarted => Some Uncertain | _ => None end).

(** [assertRecoveryEpisodeFields]. *)
Definition assertRecoveryEpisodeFields (a : LoopRecoveryAttempt) : result LoopError unit :=
  let missing := omap (fun p : string * bool => if p.2 then None else Some p.1)
    [("invariant", bool_decide (is_Some (invariant a)));
     ("candidate_epoch", bool_decide (is_Some (att_candidate_epoch a)));
     ("evidence_identity", bool_decide (is_Some (evidence_identity a)));
     ("attempts_per_strategy", bool_decide (is_Some (attempts_per_strategy a)));
     ("strategy_cursor", bool_decide (is_Some (strategy_cursor a)));
     ("next_eligible_at", bool_decide (is_Some (att_next_eligible_at a)))] in
  match missing with
  | [] => Ok tt
  | _ => throw FValidation ("Recovery Episode missing required field(s): " +:+ join ", " missing)
  end.

(** What a claim is decided from once the guards have passed. *)
Record ClaimContext := mkClaimContext {
  cc_contract : LoopContract;
  cc_ledger : LoopLedger;
  cc_item : LoopItemLedgerEntry;
  cc_class : DurableBlockerClass;
  cc_entry : RecoveryPolicyEntry;
}.

Definition claimGuards (c0 : LoopContract) (l0 : LoopLedger) (i : StartRecoveryAttemptInput)
    : result LoopError ClaimContext :=
  try c := upgradeContractForRecovery c0 in
  let l := upgradeLedgerForRecovery sha256hex l0 in
  try _ := requireLiveLifecycle l (s_itemId i) in
  try _ := requireNotStopped l (s_runId i) (s_itemId i) in
  let refused := throw FValidation ("item " +:+ quoted (s_itemId i) +:+
                   " is not a blocked item with a valid blocker class") in
  match oget (items l) (s_itemId i) with
  | None => refused
  | Some item =>
      match state item, blocked_theme item ≫= asDurableBlockerClass with
      | Blocked, Some cls =>
          try e := entryFor c cls in
          if decide (terminal_outcome e = HumanAuthorityOutcome) then
            throw FStop ("blocker class " +:+ quoted (blocker_class_name cls) +:+
              " requires human authority and permits no recovery action")
          else if negb (includes (s_action i) (recipes e)) then
            throw FValidation ("recipe " +:+ quoted (recipe_name (s_action i)) +:+
              " is not permitted for blocker class " +:+ quoted (blocker_class_name cls))
          else Ok (mkClaimContext c l item cls e)
      | _, _ => refused
      end
  end.

Definition claimFingerprint (item : LoopItemLedgerEntry) : string := default "" (evidence_fingerprint item).

Definition claimCandidate (x : ClaimContext) (i : StartRecoveryAttemptInput) : string :=
  recoveryCandidateIdentity (s_candidateIdentity i) (claimFingerprint (cc_item x))
    (default 0 (repeated_evidence_count (cc_item x))).

Definition claimKey (x : ClaimContext) (i : StartRecoveryAttemptInput) : RecoveryEpisodeKey :=
  let candidate := claimCandidate x i in
  mkKey (default "loop_recovery" (s_operation i))
    (default (blocker_class_name (cc_class x)) (s_invariant i))
    (default candidate (nonEmptyTrim (Some (default (stripAttemptOrdinal candidate) (s_candidateEpoch i)))))
    (default (claimFingerprint (cc_item x)) (nonEmptyTrim (s_evidenceIdentity i))).

Definition claimId (x : ClaimContext) (i : StartRecoveryAttemptInput) : string :=
  recoveryAttemptId sha256hex (s_itemId i) (claimCandidate x i) (claimFingerprint (cc_item x))
    (recipe_name (s_action i)).

Definition claimEpisode (x : ClaimContext) (i : StartRecoveryAttemptInput) (time : string) : RecoveryEpisodeRecord :=
  default (emptyEpisode sha256hex (claimKey x i) time)
    (resumeEpisodeFromAttempts sha256hex (attemptsOf (cc_ledger x)) (claimKey x i)).

Definition findingsPrep (x : ClaimContext) (i : StartRecoveryAttemptInput) : bool :=
  isReviewFindingsPrepUnlink (blocker_class_name (cc_class x)) (recipe_name (s_action i)).

Definition claimOutcome (x : ClaimContext) (i : StartRecoveryAttemptInput) (ep : RecoveryEpisodeRecord)
    : RecoveryAttemptOutcome :=
  if s_skipInapplicable i then OutSkipped
  else if negb (findingsPrep x i) &&
          reaches (spent (ep_counts ep) (recipe_name (s_action i))) (perStrategyBound (cc_entry x))
  then OutExhausted else OutStarted.

(** A new claim: its row, its charge and the ledger it leaves. *)
Definition recordClaim (x : ClaimContext) (i : StartRecoveryAttemptInput) (time : string)
    : LoopLedger * LoopRecoveryAttempt :=
  let act := recipe_name (s_action i) in
  let cls := blocker_class_name (cc_class x) in
  let e := cc_entry x in
  let item := cc_item x in
  let l := cc_ledger x in
  let fp := claimFingerprint item in
  let ep0 := claimEpisode x i time in
  let out := claimOutcome x i ep0 in
  let free := findingsPrep x i || s_skipInapplicable i in
  let charged := bool_decide (out = OutStarted) && negb free in
  let remaining := default (retry_budget e) (oget (recovery_budgets_remaining item) cls) in
  let budget := if charged then num_dec remaining else remaining in
  let backoffS := if free then num 0
                  else backoffSeconds (backoff e) (priorClassAttempts (attemptsOf l) (s_itemId i) cls fp) in
  let notBefore := isoAfter time backoffS in
  let idx := recipeIndex (recipes e) (s_action i) in
  let ep1 := advanceTo e idx ep0 in
  let ep := match out with
            | OutSkipped => skipRecipe idx act time ep1
            | OutStarted => applyClaimToEpisode ep1 act (if num_positive backoffS then notBefore else time)
            | _ => with_next ep1 time
            end in
  let row := newAttempt i (claimId x i) cls (claimCandidate x i) fp time (length (attemptsOf l)) out budget
               (if bool_decide (out = OutStarted) && num_positive backoffS then Some notBefore else None) ep in
  let l1 := with_attempts l (attemptsOf l ++ [row]) in
  let l2 := if charged then
              with_items l1 (oset (s_itemId i)
                (mkEntry (id item) (state item) (history item) (blocked_theme item)
                   (oset cls budget (recovery_budgets_remaining item)) (evidence_fingerprint item)
                   (blocker_candidate_epoch item) (blocker_candidate_head item) (repeated_evidence_count item)
                   (hold_request item) (last_verified_identity item) (current_stage item) (advance_run_id item))
                (items l1))
            else l1 in
  (l2, row).

Definition startRecoveryAttempt (c0 : LoopContract) (l0 : LoopLedger) (i : StartRecoveryAttemptInput)
    (time time' : string) : result LoopError (Effect LoopRecoveryAttempt) :=
  try x := claimGuards c0 l0 i in
  let l := cc_ledger x in
  match list_find (fun a => attempt_id a = Some (claimId x i)) (attemptsOf l) with
  | Some (_, existing) =>
      try _ := match truthy (invariant existing) with
               | Some _ => assertRecoveryEpisodeFields existing
               | None => Ok tt
               end in
      let admitted := admitRecoveryLifecycle mint (cc_contract x) l time' in
      Ok (mkEffect admitted (bool_decide (lifecycle admitted ≠ lifecycle l)) [] existing)
  | None =>
      let '(l2, row) := recordClaim x i time in
      let next := admitRecoveryLifecycle mint (cc_contract x) l2 time in
      Ok (mkEffect next true
            [if decide (outcome row = OutStarted) then AttemptStarted row else AttemptRecorded row] row)
  end.

(** ** Completing an attempt *)

Record CompleteRecoveryAttemptInput := mkComplete {
  k_runId : string;
  k_itemId : string;
  k_engine : LoopEngineName;
  k_attemptId : string;
  k_succeeded : bool;
  k_error : option string;
}.

(** The attempt's terminal write. *)
Definition completedAttempt (i : CompleteRecoveryAttemptInput) (a : LoopRecoveryAttempt) (time : string)
    : LoopRecoveryAttempt :=
  let prep := isReviewFindingsPrepUnlink (att_class a) (default "" (action a)) in
  let act := quoted (default "undefined" (action a)) in
  let failedWith dflt := with_completion a time OutFailed TermFailed (Some (default dflt (nonEmptyTrim (k_error i)))) in
  if k_succeeded i then
    if prep then failedWith ("recovery action " +:+ act +:+
                   " is preparatory for review-findings and cannot mark recovery success")
    else with_completion a time OutRecovered TermSuccess None
  else failedWith ("recovery action " +:+ act +:+ " failed without error detail").

(** A recovered item goes back to [in_progress]. *)
Definition resumedEntry (i : CompleteRecoveryAttemptInput) (a : LoopRecoveryAttempt) (item : LoopItemLedgerEntry)
    (showNum : jsnum → string) (time : string) : LoopItemLedgerEntry :=
  entry_step item InProgress
    (mkHistory time Blocked InProgress (k_engine i) (Some (att_class a)) None
       (Some ("recovery action " +:+ quoted (default "undefined" (action a)) +:+ " completed (" +:+
              match budget_remaining a with Some n => showNum n | None => "undefined" end +:+ " of class " +:+
              quoted (att_class a) +:+ " remaining)"))).

Context (showNum : jsnum → string).

Definition completeRecoveryAttempt (c0 : LoopContract) (l0 : LoopLedger) (i : CompleteRecoveryAttemptInput)
    (time : string) : result LoopError (Effect LoopRecoveryAttempt) :=
  try c := upgradeContractForRecovery c0 in
  let l := upgradeLedgerForRecovery sha256hex l0 in
  try _ := requireLiveLifecycle l (k_itemId i) in
  let unknown := throw FValidation ("recovery attempt " +:+ quoted (k_attemptId i) +:+
                   " was not started for item " +:+ quoted (k_itemId i)) in
  match list_find (fun a => attempt_id a = Some (k_attemptId i)) (attemptsOf l) with
  | None => unknown
  | Some (n, a) =>
      if decide (att_item_id a ≠ k_itemId i) then unknown
      else if decide (outcome a ≠ OutStarted) then
        let admitted := admitRecoveryLifecycle mint c l time in
        Ok (mkEffect admitted (bool_decide (lifecycle admitted ≠ lifecycle l)) [] a)
      else
        try _ := requireNotStopped l (k_runId i) (k_itemId i) in
        let stale := throw FValidation ("recovery attempt " +:+ quoted (k_attemptId i) +:+
                       " no longer matches the blocked candidate for item " +:+ quoted (k_itemId i)) in
        match oget (items l) (k_itemId i) with
        | None => stale
        | Some item =>
            if decide (state item ≠ Blocked ∨ blocked_theme item ≠ Some (att_class a) ∨
                       default "" (evidence_fingerprint item) ≠ att_evidence_fingerprint a) then stale
            else
              let a' := completedAttempt i a time in
              let l1 := with_attempts l (<[n := a']> (attemptsOf l)) in
              let l2 := if decide (outcome a' = OutRecovered)
                        then with_items l1 (oset (k_itemId i) (resumedEntry i a item showNum time) (items l1))
                        else l1 in
              let next := admitRecoveryLifecycle mint c l2 time in
              Ok (mkEffect next true [AttemptRecorded a'] a')
        end
  end.

(** ** The one-call wrapper *)

Record RecoverItemInput := mkRecover {
  v_runId : string;
  v_token : string;
  v_itemId : string;
  v_engine : LoopEngineName;
  v_actions : list RecoveryRecipe;
  v_candidateIdentity : option string;
  v_succeeded : bool;
  v_error : option string;
}.

(** The completion reads the ledger again: [reread] is what the store gives after
    the claim was written. *)
Definition recoverItem (reread : LoopLedger → LoopLedger) (c0 : LoopContract) (l0 : LoopLedger) (i : RecoverItemInput) (t1 t2 t3 : string)
    : result LoopError (Effect LoopRecoveryAttempt) :=
  let current := upgradeLedgerForRecovery sha256hex l0 in
  try _ := requireLiveLifecycle current (v_itemId i) in
  match stop current with
  | Some st =>
      throw FStop ("loop run " +:+ quoted (v_runId i) +:+ " is already stopped: " +:+ stop_reason_name (stop_reason st))
  | None =>
      match v_actions i with
      | [act] =>
          try started := startRecoveryAttempt c0 l0
            (mkStart (v_runId i) (v_token i) (v_itemId i) act (v_candidateIdentity i) None None None None false)
            t1 t2 in
          if decide (outcome (eff_value started) ≠ OutStarted) then Ok started
          else
            try done := completeRecoveryAttempt c0 (reread (eff_ledger started))
              (mkComplete (v_runId i) (v_itemId i) (v_engine i)
                 (default "undefined" (attempt_id (eff_value started))) (v_succeeded i) (v_error i)) t3 in
            Ok (mkEffect (eff_ledger done) (eff_written started || eff_written done)
                  (eff_events started ++ eff_events done) (eff_value done))
      | _ => throw FValidation ("recovery for item " +:+ quoted (v_itemId i) +:+
               " requires exactly one selected recovery action")
      end
  end.

(** ** Owned Cooling *)

Definition persistOwnedCooling (l0 : LoopLedger) (c : LoopCoolingRecord) : Effect unit :=
  let l := upgradeLedgerForRecovery sha256hex l0 in
  let per := match truthy (cool_item_id c) with
             | Some i => Some (oset i c (default [] (item_cooling l)))
             | None => item_cooling l
             end in
  let attempts := match truthy (cool_item_id c), truthy (cool_next_eligible_at c) with
                  | Some i, Some t => stampEpisodeNextEligibleAt (attemptsOf l) i t
                  | _, _ => attemptsOf l
                  end in
  mkEffect (with_attempts (with_cooling l c per) attempts) true [ItemCooling c] tt.
End Handlers.

(** ** What the lifecycle admission leaves alone *)

Section HandlerFacts.
Context (sha256hex : string → string) (fingerprintEvidence : string → string) (mint : string)
  (isoAfter : string → jsnum → string) (showNum : jsnum → string).

Lemma admit_keeps c l t :
  items (admitRecoveryLifecycle mint c l t) = items l ∧ stop (admitRecoveryLifecycle mint c l t) = stop l ∧
  recovery_attempts (admitRecoveryLifecycle mint c l t) = recovery_attempts l ∧
  merge_barrier (admitRecoveryLifecycle mint c l t) = merge_barrier l.
Proof. done. Qed.

Lemma upgrade_attempts l :
  attemptsOf (upgradeLedgerForRecovery sha256hex l) = upgradeAttempt sha256hex <$> attemptsOf l.
Proof. done. Qed.

(** A guard passes or throws; passing says what it checked. *)
Lemma requireLive_Ok l i u :
  requireLiveLifecycle l i = Ok u → lifecycleAllowsRecoveryRecipe (lifecycle l) (oget (items l) i) = true.
Proof. unfold requireLiveLifecycle. by destruct (lifecycleAllowsRecoveryRecipe _ _). Qed.

Lemma requireNotStopped_Ok l r i u : requireNotStopped l r i = Ok u → compatibilityStopRefusesItem (stop l) i = false.
Proof. unfold requireNotStopped. destruct (stop l); [|done]. by destruct (compatibilityStopRefusesItem _ _). Qed.

Lemma entryFor_Ok c cls e :
  entryFor c cls = Ok e → ∃ p, compileRecoveryPolicy (recovery_policy c) = Ok p ∧ policyFor p cls = Some e.
Proof.
  unfold entryFor. intros H. inv_bind H. exists x. split; [done|]. destruct (policyFor x cls); [|done].
  by simplify_eq.
Qed.

Lemma entryFor_wf c cls e : entryFor c cls = Ok e → entry_wf cls e.
Proof. intros (p & Hp & He)%entryFor_Ok. by eapply policyFor_wf. Qed.

Lemma claimGuards_Ok c0 l0 i x :
  claimGuards sha256hex c0 l0 i = Ok x →
  upgradeContractForRecovery c0 = Ok (cc_contract x) ∧ cc_ledger x = upgradeLedgerForRecovery sha256hex l0 ∧
  oget (items (cc_ledger x)) (s_itemId i) = Some (cc_item x) ∧ state (cc_item x) = Blocked ∧
  blocked_theme (cc_item x) = Some (blocker_class_name (cc_class x)) ∧
  entryFor (cc_contract x) (cc_class x) = Ok (cc_entry x) ∧
  terminal_outcome (cc_entry x) = Retry ∧ s_action i ∈ recipes (cc_entry x) ∧
  lifecycleAllowsRecoveryRecipe (lifecycle (cc_ledger x)) (Some (cc_item x)) = true ∧
  compatibilityStopRefusesItem (stop (cc_ledger x)) (s_itemId i) = false.
Proof.
  unfold claimGuards. intros H. destruct (upgradeContractForRecovery c0) as [c|] eqn:Hc; cbn [rbind] in H; [|done].
  destruct (requireLiveLifecycle _ _) as [u|] eqn:Hlive; cbn [rbind] in H; [|done].
  destruct (requireNotStopped _ _ _) as [u'|] eqn:Hst; cbn [rbind] in H; [|done].
  apply requireLive_Ok in Hlive. apply requireNotStopped_Ok in Hst.
  destruct (oget (items (upgradeLedgerForRecovery sha256hex l0)) (s_itemId i)) as [item|] eqn:Hi; [|done].
  destruct (state item) eqn:Hs; try done.
  destruct (blocked_theme item) as [theme|] eqn:Ht; [|done]. cbn [mbind option_bind] in H.
  destruct (asDurableBlockerClass theme) as [cls|] eqn:Hcls; [|done].
  destruct (entryFor c cls) as [e|] eqn:He; cbn [rbind] in H; [|done].
  case_decide as Hh; [done|]. destruct (includes (s_action i) (recipes e)) eqn:Ha; simpl in H; [|done].
  injection H as <-. simpl. apply asDurableBlockerClass_spec in Hcls as ->. apply includes_true in Ha.
  split; [done|]. split; [done|]. split; [done|]. split; [done|]. split; [done|]. split; [done|].
  split; [|done]. destruct (terminal_outcome e); [done|]. by destruct Hh.
Qed.

(** ** Claims *)

Lemma recordClaim_spec x i t l2 row :
  recordClaim sha256hex isoAfter x i t = (l2, row) →
  attemptsOf l2 = attemptsOf (cc_ledger x) ++ [row] ∧ stop l2 = stop (cc_ledger x) ∧
  lifecycle l2 = lifecycle (cc_ledger x) ∧ attempt_id row = Some (claimId sha256hex x i) ∧
  att_item_id row = s_itemId i ∧ action row = Some (recipe_name (s_action i)) ∧
  outcome row = claimOutcome x i (claimEpisode sha256hex x i t) ∧
  items l2 = (if bool_decide (outcome row = OutStarted) && negb (findingsPrep x i)
              then oset (s_itemId i)
                     (mkEntry (id (cc_item x)) (state (cc_item x)) (history (cc_item x)) (blocked_theme (cc_item x))
                        (oset (blocker_class_name (cc_class x)) (default (num 0) (budget_remaining row))
                           (recovery_budgets_remaining (cc_item x)))
                        (evidence_fingerprint (cc_item x)) (blocker_candidate_epoch (cc_item x))
                        (blocker_candidate_head (cc_item x)) (repeated_evidence_count (cc_item x))
                        (hold_request (cc_item x)) (last_verified_identity (cc_item x)) (current_stage (cc_item x))
                        (advance_run_id (cc_item x))) (items (cc_ledger x))
              else items (cc_ledger x)) ∧
  budget_remaining row =
    Some (let remaining := default (retry_budget (cc_entry x))
                             (oget (recovery_budgets_remaining (cc_item x)) (blocker_class_name (cc_class x))) in
          if bool_decide (outcome row = OutStarted) && negb (findingsPrep x i) then num_dec remaining else remaining).
Proof.
  unfold recordClaim. set (ep0 := claimEpisode sha256hex x i t). set (out := claimOutcome x i ep0).
  assert (bool_decide (out = OutStarted) && negb (findingsPrep x i || s_skipInapplicable i) =
          bool_decide (out = OutStarted) && negb (findingsPrep x i)) as Hfree.
  { unfold out, claimOutcome. destruct (s_skipInapplicable i); [done|]. by rewrite orb_false_r. }
  intros H. injection H as <- <-. cbn [outcome newAttempt attempt_id att_item_id action budget_remaining].
  rewrite Hfree. destruct (bool_decide (out = OutStarted) && negb (findingsPrep x i)); done.
Qed.

Lemma advanceTo_counts e idx ep : ep_counts (advanceTo e idx ep) = ep_counts ep.
Proof. unfold advanceTo. by destruct (_ <? _). Qed.

(** A started claim charges its strategy once; a skip or a refusal charges nothing. *)
Lemma recordClaim_counts x i t l2 row :
  recordClaim sha256hex isoAfter x i t = (l2, row) →
  let counts := ep_counts (claimEpisode sha256hex x i t) in
  attempts_per_strategy row =
    Some (if decide (outcome row = OutStarted) then charge counts (recipe_name (s_action i)) else counts).
Proof.
  unfold recordClaim. intros H. injection H as _ <-. cbn [attempts_per_strategy outcome newAttempt].
  destruct (claimOutcome x i _); simpl; by rewrite advanceTo_counts.
Qed.

(** ** Entries and attempts under the handlers *)

Lemma upgradeEntry_theme e c : blocked_theme e = Some (blocker_class_name c) → upgradeEntry e = e.
Proof.
  intros H. unfold upgradeEntry. rewrite H. destruct (truthy _) as [t|] eqn:Ht; [|done].
  apply truthy_Some in Ht as [[= <-] _]. by rewrite class_name_known.
Qed.

Lemma upgradeAttempt_settled a : filled a → is_Some (episode_id a) → upgradeAttempt sha256hex a = a.
Proof.
  intros Hf He. pose proof (upgradeAttempt_filled sha256hex a Hf) as H.
  assert (normalizeStartedRecoveryEpisodeIdentity sha256hex a = a) as Hn; [|by rewrite Hn in H].
  unfold normalizeStartedRecoveryEpisodeIdentity. rewrite (bool_decide_eq_true_2 (is_Some (episode_id a))) by done.
  by rewrite orb_true_r.
Qed.

Lemma items_map_oset (f : LoopItemLedgerEntry → LoopItemLedgerEntry) k v (o : obj LoopItemLedgerEntry) :
  f v = v → (fun p => (p.1, f p.2)) <$> o = o → (fun p => (p.1, f p.2)) <$> oset k v o = oset k v o.
Proof.
  intros Hv. induction o as [|[k' v'] o IH]; csimpl; intros H; [by rewrite Hv|]. injection H as Hv' Ho.
  case_decide; csimpl; [by rewrite Hv, Ho|]. by rewrite Hv', IH.
Qed.

(** The ledger a claim leaves is already upgraded. *)
Lemma recordClaim_settled x i t l2 row l0 :
  cc_ledger x = upgradeLedgerForRecovery sha256hex l0 →
  blocked_theme (cc_item x) = Some (blocker_class_name (cc_class x)) →
  recordClaim sha256hex isoAfter x i t = (l2, row) →
  items (upgradeLedgerForRecovery sha256hex l2) = items l2 ∧
  attemptsOf (upgradeLedgerForRecovery sha256hex l2) = attemptsOf l2.
Proof.
  intros Hl Ht H. pose proof (upgradeLedger_idemp sha256hex l0) as Hid.
  assert (upgradeAttempt sha256hex row = row) as Hrow.
  { apply upgradeAttempt_settled; unfold recordClaim in H; injection H as <- <-; repeat split; simpl; eauto. }
  apply recordClaim_spec in H as (Ha & _ & _ & _ & _ & _ & _ & Hi & _). split.
  - simpl. rewrite Hi, Hl.
    assert ((fun p => (p.1, upgradeEntry p.2)) <$> items (upgradeLedgerForRecovery sha256hex l0) =
            items (upgradeLedgerForRecovery sha256hex l0)) as Hitems.
    { exact (f_equal items Hid). }
    destruct (_ && _); [|done]. apply items_map_oset; [|done]. by apply (upgradeEntry_theme _ (cc_class x)).
  - rewrite upgrade_attempts, Ha, fmap_app. simpl. rewrite Hrow. f_equal. rewrite Hl.
    change (upgradeAttempt sha256hex <$> attemptsOf (upgradeLedgerForRecovery sha256hex l0))
      with (attemptsOf (upgradeLedgerForRecovery sha256hex (upgradeLedgerForRecovery sha256hex l0))).
    by rewrite Hid.
Qed.

(** A later state of an attempt: the same claim, completed at most once. *)
Record same_claim (a a' : LoopRecoveryAttempt) : Prop := {
  sc_id : ∀ i, attempt_id a = Some i → attempt_id a' = Some i;
  sc_item : att_item_id a' = att_item_id a;
  sc_action : ∀ r, action a = Some r → action a' = Some r;
  sc_outcome : outcome a' = outcome a ∨
               (outcome a = OutStarted ∧ (outcome a' = OutRecovered ∨ outcome a' = OutFailed));
}.

#[local] Instance same_claim_refl : Reflexive same_claim.
Proof. intros a. split; auto. Qed.
#[local] Instance same_claim_trans : Transitive same_claim.
Proof.
  intros a b c [H1 H2 H3 H4] [K1 K2 K3 K4]. split; auto; [congruence|].
  destruct H4 as [H4|[H4 H4']], K4 as [K4|[K4 K4']]; try (left; congruence); right; split; try congruence;
    destruct H4' || destruct K4'; (left; congruence) || (right; congruence).
Qed.

(** Attempt logs only grow, row by row. *)
Definition grows (L L' : list LoopRecoveryAttempt) : Prop :=
  ∀ n a, L !! n = Some a → ∃ a', L' !! n = Some a' ∧ same_claim a a'.

#[local] Instance grows_preorder : PreOrder grows.
Proof.
  split.
  - intros L n a H. by exists a.
  - intros L1 L2 L3 H12 H23 n a H. destruct (H12 n a H) as (b & Hb & Hab). destruct (H23 n b Hb) as (c & Hc & Hbc).
    exists c. split; [done|]. by trans b.
Qed.

Lemma grows_fmap (f : LoopRecoveryAttempt → LoopRecoveryAttempt) L : (∀ a, same_claim a (f a)) → grows L (f <$> L).
Proof. intros Hf n a Ha. exists (f a). by rewrite list_lookup_fmap, Ha. Qed.

Lemma grows_app L L' : grows L (L ++ L').
Proof. intros n a Ha. exists a. split; [|done]. by apply lookup_app_l_Some. Qed.

Lemma grows_insert L n a a' : L !! n = Some a → same_claim a a' → grows L (<[n := a']> L).
Proof.
  intros Ha Hs m b Hb. destruct (decide (m = n)) as [->|Hne].
  - exists a'. rewrite list_lookup_insert_eq by (by eapply lookup_lt_Some). split; [done|]. congruence.
  - exists b. by rewrite list_lookup_insert_ne.
Qed.

Lemma normalizeStarted_same b : same_claim b (normalizeStartedRecoveryEpisodeIdentity sha256hex b).
Proof.
  destruct (normalizeStarted_keeps sha256hex b) as (H1 & _ & H3 & _).
  split; [by rewrite H1| |by rewrite H3|];
    unfold normalizeStartedRecoveryEpisodeIdentity; repeat case_match_goal; auto.
Qed.

Lemma upgradeAttempt_same a : same_claim a (upgradeAttempt sha256hex a).
Proof.
  unfold upgradeAttempt. destruct (hasCoreFields a); [apply normalizeStarted_same|].
  destruct (truthy (attemptAction a)) as [act|] eqn:Ht; [|done].
  etrans; [|apply normalizeStarted_same]. split; simpl; [by intros i ->|done| |by left].
  intros r Hr. apply truthy_Some in Ht as [Ht _]. unfold attemptAction in Ht. rewrite Hr in Ht. by simplify_eq.
Qed.

Lemma upgrade_grows l : grows (attemptsOf l) (attemptsOf (upgradeLedgerForRecovery sha256hex l)).
Proof. rewrite upgrade_attempts. apply grows_fmap, upgradeAttempt_same. Qed.

Lemma stamp_grows L i t : grows L (stampEpisodeNextEligibleAt L i t).
Proof.
  unfold stampEpisodeNextEligibleAt. destruct (list_find _ _) as [[n a]|]; [|done].
  apply grows_fmap. intros b. case_decide; [|done]. by split; auto.
Qed.

Lemma completed_same i a t : outcome a = OutStarted → same_claim a (completedAttempt i a t).
Proof.
  intros Ho. unfold completedAttempt. repeat case_match_goal; split; simpl; auto.
Qed.

(** ** What every handler preserves *)

Definition isActiveState (s : LoopItemState) : bool := match s with InProgress | Blocked => true | _ => false end.

(** An item's entry as a handler may leave it. *)
Record entry_moves (e e' : LoopItemLedgerEntry) : Prop := {
  em_id : id e' = id e;
  em_state : state e' = state e ∨ (isActiveState (state e) = true ∧ isActiveState (state e') = true);
  em_history : ∃ hs, history e' = history e ++ hs ∧ histPath (state e) hs (state e') ∧
                 Forall (fun h => isActiveState (h_from h) = true ∧ isActiveState (h_to h) = true) hs;
  em_identity : last_verified_identity e' = last_verified_identity e;
}.

(** A handler keeps an item's state and history, or adds one line to them. *)
Lemma entry_stays (e e' : LoopItemLedgerEntry) :
  id e' = id e → state e' = state e → history e' = history e → last_verified_identity e' = last_verified_identity e →
  entry_moves e e'.
Proof. intros H1 H2 H3 H4. split; [done|by left| |done]. exists []. by rewrite H3, app_nil_r, H2. Qed.

Lemma entry_line (e e' : LoopItemLedgerEntry) h :
  id e' = id e → history e' = history e ++ [h] → h_from h = state e → h_to h = state e' →
  isActiveState (state e) = true → isActiveState (state e') = true →
  last_verified_identity e' = last_verified_identity e → entry_moves e e'.
Proof.
  intros H1 H2 H3 H4 Ha Ha' H5. split; [done|by right| |done]. exists [h]. split; [done|]. split; [by rewrite <-H3|].
  constructor; [|done]. by rewrite H3, H4.
Qed.

#[export] Instance entry_moves_preorder : PreOrder entry_moves.
Proof.
  split; [intros e; by apply entry_stays|].
  intros a b c [H1 H2 (hs & H3 & Hp & Hf) H4] [K1 K2 (hs' & K3 & Kp & Kf) K4]. split; [congruence| | |congruence].
  2: { exists (hs ++ hs'). rewrite K3, H3, <-app_assoc. split; [done|]. split; [by eapply histPath_app|by apply Forall_app]. }
  destruct H2 as [H2|[H2 H2']], K2 as [K2|[K2 K2']];
    [left; congruence|right; rewrite <-H2; auto|right; rewrite K2; auto|by right].
Qed.

Record Keeps (l l' : LoopLedger) : Prop := {
  kp_keys : okeys (items l') = okeys (items l);
  kp_items : ∀ k e, oget (items l) k = Some e → ∃ e', oget (items l') k = Some e' ∧ entry_moves e e';
  kp_stop : ∀ s, stop l = Some s → stop l' = Some s;
  kp_barrier : merge_barrier l' = merge_barrier l;
  kp_attempts : grows (attemptsOf l) (attemptsOf l');
}.

#[export] Instance Keeps_preorder : PreOrder Keeps.
Proof.
  split; [intros l; split; auto; [intros k e He; by exists e|done]|].
  intros a b c [H1 H2 H3 H4 H5] [K1 K2 K3 K4 K5]. split; [congruence| |auto|congruence|by trans (attemptsOf b)].
  intros k e He. destruct (H2 k e He) as (e1 & He1 & Hm1). destruct (K2 k e1 He1) as (e2 & He2 & Hm2).
  exists e2. split; [done|]. by trans e1.
Qed.

Lemma Keeps_wf l l' : Keeps l l' → LedgerWF l → LedgerWF l'.
Proof.
  intros [Hk Hi _ _ _] [Hnd Hid]. split; [by rewrite Hk|]. intros k e' He'.
  assert (k ∈ okeys (items l)) as Hin by (rewrite <-Hk; apply oget_is_Some; eauto).
  apply oget_is_Some in Hin as [e He]. destruct (Hi k e He) as (e1 & He1 & [Hid1 _ _ _]).
  rewrite He' in He1. injection He1 as <-. rewrite Hid1. by apply Hid.
Qed.

Lemma Keeps_upgrade l : Keeps l (upgradeLedgerForRecovery sha256hex l).
Proof.
  split; [apply upgradeLedger_keys| |done|done|apply upgrade_grows].
  intros k e He. exists (upgradeEntry e). rewrite upgradeLedger_get, He. split; [done|].
  destruct (upgradeEntry_keeps e) as (H1 & H2 & H3 & H4). by apply entry_stays.
Qed.

Lemma Keeps_admit c l t : Keeps l (admitRecoveryLifecycle mint c l t).
Proof. split; try done. intros k e He. by exists e. Qed.

Lemma Keeps_attempts l xs : grows (attemptsOf l) xs → Keeps l (with_attempts l xs).
Proof. intros H. split; try done. intros k e He. by exists e. Qed.

Lemma Keeps_entry l k e e' :
  oget (items l) k = Some e → entry_moves e e' → Keeps l (with_items l (oset k e' (items l))).
Proof.
  intros He Hm. split; simpl; try done.
  - apply okeys_oset, oget_is_Some. eauto.
  - intros k' e1 He1. destruct (decide (k = k')) as [<-|Hne].
    + exists e'. rewrite oget_oset_eq. split; [done|]. rewrite He in He1. by injection He1 as <-.
    + exists e1. by rewrite oget_oset_ne.
Qed.

Lemma Keeps_stop l s : stop l = None → Keeps l (with_stop l s).
Proof. intros H. split; try done; simpl; [intros k e He; by exists e|]. intros s'. by rewrite H. Qed.

Lemma blocked_moves item i cls t fp n :
  state item = InProgress → entry_moves item (blockedEntryOf item i cls t fp n).
Proof.
  intros Hs. unfold blockedEntryOf. destruct (blockBoundary item i). eapply entry_line; try done; by rewrite Hs.
Qed.

(** The ledger a successful block leaves. *)
Lemma block_Ok c0 l0 i t eff :
  blockItem sha256hex fingerprintEvidence mint c0 l0 i t = Ok eff →
  ∃ cls c item e l1,
    b_blockerClass i = blocker_class_name cls ∧ upgradeContractForRecovery c0 = Ok c ∧
    oget (items (upgradeLedgerForRecovery sha256hex l0)) (b_itemId i) = Some item ∧ state item = InProgress ∧
    entryFor c cls = Ok e ∧
    (b_allowAlreadyStopped i = false → compatibilityStopRefusesItem (stop l0) (b_itemId i) = false) ∧
    let fp := fingerprintEvidence (b_evidence i) in
    let count := if decide (evidence_fingerprint item = Some fp)
                 then default 0 (repeated_evidence_count item) + 1 else 0 in
    let l := upgradeLedgerForRecovery sha256hex l0 in
    l1 = with_items l (oset (b_itemId i) (blockedEntryOf item i (blocker_class_name cls) t fp count) (items l)) ∧
    eff_ledger eff = admitRecoveryLifecycle mint c
      (match stop l0 with
       | None => if decide (terminal_outcome e = HumanAuthorityOutcome)
                 then with_stop l1 (Some (mkStop HumanAuthority t (Some (b_itemId i)) (Some (blocker_class_name cls)) None
                                            (outstandingReadyItemIds l1)))
                 else l1
       | Some _ => l1
       end) t ∧ eff_written eff = true.
Proof.
  unfold blockItem. destruct (asDurableBlockerClass (b_blockerClass i)) as [cls|] eqn:Hcls; [|done]. intros H.
  destruct (upgradeContractForRecovery c0) as [c|] eqn:Hc; cbn [rbind] in H; [|done].
  destruct (requireLiveLifecycle _ _); cbn [rbind] in H; [|done].
  destruct (if b_allowAlreadyStopped i then _ else _) as [u|] eqn:Hst; cbn [rbind] in H; [|done].
  destruct (oget _ (b_itemId i)) as [item|] eqn:Hi; [|done]. case_decide as Hs; [done|].
  destruct (entryFor c cls) as [e|] eqn:He; cbn [rbind] in H; [|done].
  destruct (blockBoundary item i) as [epoch head]. injection H as <-.
  exists cls, c, item, e. eexists. apply asDurableBlockerClass_spec in Hcls.
  split; [done|]. split; [done|]. split; [done|].
  split; [destruct (state item); first [done|by destruct Hs]|]. split; [done|].
  split; [|by split; [reflexivity|]].
  intros Ha. rewrite Ha in Hst. by apply requireNotStopped_Ok in Hst.
Qed.

Lemma block_keeps c0 l0 i t eff :
  blockItem sha256hex fingerprintEvidence mint c0 l0 i t = Ok eff → Keeps l0 (eff_ledger eff).
Proof.
  intros (cls & c & item & e & l1 & _ & _ & Hi & Hs & _ & _ & Hl1 & -> & _)%block_Ok.
  etrans; [apply Keeps_upgrade|]. etrans; [|apply Keeps_admit].
  assert (Keeps (upgradeLedgerForRecovery sha256hex l0) l1) as Hk.
  { rewrite Hl1. eapply Keeps_entry; [done|]. by apply blocked_moves. }
  etrans; [exact Hk|]. destruct (stop l0) eqn:Hst; [done|].
  destruct (decide (terminal_outcome e = HumanAuthorityOutcome)); [|done].
  apply Keeps_stop. by rewrite Hl1.
Qed.

Lemma start_Ok c0 l0 i t t' eff :
  startRecoveryAttempt sha256hex mint isoAfter c0 l0 i t t' = Ok eff →
  ∃ x, claimGuards sha256hex c0 l0 i = Ok x ∧
    ((∃ n existing, list_find (fun a => attempt_id a = Some (claimId sha256hex x i)) (attemptsOf (cc_ledger x)) =
                      Some (n, existing) ∧
        (is_Some (truthy (invariant existing)) → assertRecoveryEpisodeFields existing = Ok tt) ∧
        eff = mkEffect (admitRecoveryLifecycle mint (cc_contract x) (cc_ledger x) t')
                (bool_decide (lifecycle (admitRecoveryLifecycle mint (cc_contract x) (cc_ledger x) t') ≠
                              lifecycle (cc_ledger x))) [] existing) ∨
     (∃ l2 row, list_find (fun a => attempt_id a = Some (claimId sha256hex x i)) (attemptsOf (cc_ledger x)) = None ∧
        recordClaim sha256hex isoAfter x i t = (l2, row) ∧
        eff = mkEffect (admitRecoveryLifecycle mint (cc_contract x) l2 t) true
                [if decide (outcome row = OutStarted) then AttemptStarted row else AttemptRecorded row] row)).
Proof.
  unfold startRecoveryAttempt. destruct (claimGuards sha256hex c0 l0 i) as [x|] eqn:Hx; cbn [rbind]; [|done].
  intros H. exists x. split; [done|].
  destruct (list_find _ (attemptsOf (cc_ledger x))) as [[n existing]|] eqn:Hf.
  - left. exists n, existing. split; [done|]. destruct (truthy (invariant existing)) eqn:Ht.
    + destruct (assertRecoveryEpisodeFields existing) as [[]|]; cbn [rbind] in H; [|done]. by injection H as <-.
    + cbn [rbind] in H. injection H as <-. split; [by intros [? ?]|done].
  - right. destruct (recordClaim sha256hex isoAfter x i t) as [l2 row] eqn:Hr. injection H as <-. by exists l2, row.
Qed.

Lemma Keeps_claim l row k e e' :
  oget (items l) k = Some e → entry_moves e e' →
  Keeps l (with_items (with_attempts l (attemptsOf l ++ [row])) (oset k e' (items l))).
Proof.
  intros He Hm. etrans; [apply (Keeps_attempts l (attemptsOf l ++ [row])), grows_app|].
  by apply (Keeps_entry (with_attempts l (attemptsOf l ++ [row])) k e e').
Qed.

Lemma recordClaim_keeps x i t l2 row :
  oget (items (cc_ledger x)) (s_itemId i) = Some (cc_item x) →
  recordClaim sha256hex isoAfter x i t = (l2, row) → Keeps (cc_ledger x) l2.
Proof.
  intros Hi H. unfold recordClaim in H. injection H as <- _.
  match goal with |- Keeps _ (if ?b then _ else _) => destruct b end;
    [|apply Keeps_attempts, grows_app].
  eapply Keeps_claim; [exact Hi|]. by apply entry_stays.
Qed.

Lemma start_keeps c0 l0 i t t' eff :
  startRecoveryAttempt sha256hex mint isoAfter c0 l0 i t t' = Ok eff → Keeps l0 (eff_ledger eff).
Proof.
  intros (x & Hx & H)%start_Ok. apply claimGuards_Ok in Hx as (_ & Hl & Hi & _).
  etrans; [apply Keeps_upgrade|]. rewrite <-Hl.
  destruct H as [(n & ex & _ & _ & ->)|(l2 & row & _ & Hr & ->)]; simpl; [apply Keeps_admit|].
  etrans; [by eapply recordClaim_keeps|apply Keeps_admit].
Qed.

(** The ways a completion succeeds: a replay, or the terminal write. *)
Lemma complete_Ok c0 l0 i t eff :
  completeRecoveryAttempt sha256hex mint showNum c0 l0 i t = Ok eff →
  let l := upgradeLedgerForRecovery sha256hex l0 in
  ∃ c n a, upgradeContractForRecovery c0 = Ok c ∧
    list_find (fun a => attempt_id a = Some (k_attemptId i)) (attemptsOf l) = Some (n, a) ∧
    att_item_id a = k_itemId i ∧
    ((outcome a ≠ OutStarted ∧ eff_ledger eff = admitRecoveryLifecycle mint c l t ∧ eff_value eff = a ∧
      eff_events eff = []) ∨
     (∃ item, outcome a = OutStarted ∧ oget (items l) (k_itemId i) = Some item ∧ state item = Blocked ∧
        blocked_theme item = Some (att_class a) ∧ default "" (evidence_fingerprint item) = att_evidence_fingerprint a ∧
        compatibilityStopRefusesItem (stop l) (k_itemId i) = false ∧
        let a' := completedAttempt i a t in
        let l1 := with_attempts l (<[n := a']> (attemptsOf l)) in
        eff_value eff = a' ∧ eff_written eff = true ∧ eff_events eff = [AttemptRecorded a'] ∧
        eff_ledger eff = admitRecoveryLifecycle mint c
          (if decide (outcome a' = OutRecovered)
           then with_items l1 (oset (k_itemId i) (resumedEntry i a item showNum t) (items l1)) else l1) t)).
Proof.
  cbv zeta. unfold completeRecoveryAttempt. intros H.
  destruct (upgradeContractForRecovery c0) as [c|] eqn:Hc; cbn [rbind] in H; [|done].
  destruct (requireLiveLifecycle _ _) as [u0|]; cbn [rbind] in H; [|done].
  destruct (list_find _ _) as [[n a]|] eqn:Hf; [|done]. case_decide as Hai; [done|].
  exists c, n, a. split; [done|]. split; [done|]. split; [done|].
  destruct (decide (outcome a ≠ OutStarted)) as [Ho|Ho].
  - injection H as <-. left. done.
  - right. destruct (requireNotStopped _ _ _) as [u|] eqn:Hst; cbn [rbind] in H; [|done].
    apply requireNotStopped_Ok in Hst. destruct (oget _ (k_itemId i)) as [item|]; [|done].
    destruct (decide (state item ≠ Blocked ∨ _)) as [|Hn]; [done|]. injection H as <-. exists item.
    split; [by apply dec_stable|]. split; [done|].
    destruct (decide (state item = Blocked)) as [Hs|]; [|by destruct Hn; left].
    destruct (decide (blocked_theme item = Some (att_class a))) as [Hb|]; [|by destruct Hn; right; left].
    destruct (decide (default "" (evidence_fingerprint item) = att_evidence_fingerprint a)) as [He|];
      [|by destruct Hn; right; right].
    done.
Qed.

Lemma Keeps_completion l n a a' k e e' :
  attemptsOf l !! n = Some a → same_claim a a' → oget (items l) k = Some e → entry_moves e e' →
  Keeps l (with_attempts l (<[n := a']> (attemptsOf l))) ∧
  Keeps l (with_items (with_attempts l (<[n := a']> (attemptsOf l))) (oset k e' (items l))).
Proof.
  intros Ha Hs He Hm. assert (Keeps l (with_attempts l (<[n := a']> (attemptsOf l)))) as H1
    by (apply Keeps_attempts; by eapply grows_insert).
  split; [done|]. etrans; [exact H1|]. by apply (Keeps_entry (with_attempts l (<[n := a']> (attemptsOf l))) k e e').
Qed.

Lemma resumed_moves i a item t : state item = Blocked → entry_moves item (resumedEntry i a item showNum t).
Proof. intros Hs. eapply entry_line; try done; by rewrite Hs. Qed.

Lemma complete_keeps c0 l0 i t eff :
  completeRecoveryAttempt sha256hex mint showNum c0 l0 i t = Ok eff → Keeps l0 (eff_ledger eff).
Proof.
  intros H. apply complete_Ok in H. destruct H as (c & n & a & _ & Hf & _ & H). etrans; [apply Keeps_upgrade|].
  destruct H as [(_ & -> & _)|(item & Ho & Hi & Hs & _ & _ & _ & _ & _ & _ & ->)]; [apply Keeps_admit|].
  etrans; [|apply Keeps_admit]. apply list_find_Some in Hf as (Hn & _ & _).
  destruct (Keeps_completion _ n a _ (k_itemId i) item _ Hn (completed_same i a t Ho) Hi (resumed_moves i a item t Hs))
    as [H1 H2].
  by destruct (decide (outcome (completedAttempt i a t) = OutRecovered)).
Qed.

Lemma cooling_keeps l0 c : Keeps l0 (eff_ledger (persistOwnedCooling sha256hex l0 c)).
Proof.
  unfold persistOwnedCooling. cbn [eff_ledger]. etrans; [apply Keeps_upgrade|].
  set (l := upgradeLedgerForRecovery sha256hex l0). clearbody l.
  split; try done; simpl; [intros k e He; by exists e|].
  change (grows (attemptsOf l) (match truthy (cool_item_id c), truthy (cool_next_eligible_at c) with
     | Some i, Some t => stampEpisodeNextEligibleAt (attemptsOf l) i t | _, _ => attemptsOf l end)).
  repeat case_match; [apply stamp_grows|done..].
Qed.

(** ** The ledger as a state machine *)

(** One durable recovery operation on the run's ledger. *)
Inductive handler_step (c : LoopContract) (l : LoopLedger) : LoopLedger → Prop :=
| step_block i t eff :
    blockItem sha256hex fingerprintEvidence mint c l i t = Ok eff → handler_step c l (eff_ledger eff)
| step_classify i cs t eff :
    classifyAndBlockItem sha256hex fingerprintEvidence mint c l i cs t = Ok eff → handler_step c l (eff_ledger eff)
| step_start i t t' eff :
    startRecoveryAttempt sha256hex mint isoAfter c l i t t' = Ok eff → handler_step c l (eff_ledger eff)
| step_complete i t eff :
    completeRecoveryAttempt sha256hex mint showNum c l i t = Ok eff → handler_step c l (eff_ledger eff)
| step_cool cool : handler_step c l (eff_ledger (persistOwnedCooling sha256hex l cool)).

(** The wrapper, whatever the store gives back that keeps the ledger. *)
Lemma recover_keeps reread c l i t1 t2 t3 eff :
  (∀ x, Keeps l x → Keeps l (reread x)) →
  recoverItem sha256hex mint isoAfter showNum reread c l i t1 t2 t3 = Ok eff → Keeps l (eff_ledger eff).
Proof.
  unfold recoverItem. intros Hr H. destruct (requireLiveLifecycle _ _); cbn [rbind] in H; [|done].
  destruct (stop _); [done|]. destruct (v_actions i) as [|act [|]]; [done| |done].
  destruct (startRecoveryAttempt _ _ _ _ _ _ _ _) as [started|] eqn:Hs; cbn [rbind] in H; [|done].
  apply start_keeps in Hs. case_decide; [by injection H as <-|].
  destruct (completeRecoveryAttempt _ _ _ _ _ _ _) as [fin|] eqn:Hk; cbn [rbind] in H; [|done].
  injection H as <-. apply complete_keeps in Hk. etrans; [by apply Hr|exact Hk].
Qed.

Lemma step_keeps c l l' : handler_step c l l' → Keeps l l'.
Proof.
  destruct 1 as [i t eff H|i cs t eff H|i t t' eff H|i t eff H|cool].
  - by eapply block_keeps.
  - unfold classifyAndBlockItem in H. destruct (classifyBlocker cs); by eapply block_keeps.
  - by eapply start_keeps.
  - by eapply complete_keeps.
  - apply cooling_keeps.
Qed.

(** ** Replaying a claim *)

(** Guards read the item, the stop record, the lifecycle and the policy. *)
Lemma claimGuards_again c0 l0 l1 i x item1 :
  claimGuards sha256hex c0 l0 i = Ok x → requireLiveLifecycle l1 (s_itemId i) = Ok tt →
  items (upgradeLedgerForRecovery sha256hex l1) = items l1 → stop l1 = stop (cc_ledger x) →
  oget (items l1) (s_itemId i) = Some item1 → state item1 = Blocked → blocked_theme item1 = blocked_theme (cc_item x) →
  claimGuards sha256hex c0 l1 i =
    Ok (mkClaimContext (cc_contract x) (upgradeLedgerForRecovery sha256hex l1) item1 (cc_class x) (cc_entry x)).
Proof.
  intros Hx Hlive Hup Hstop Hi Hs Ht. pose proof (claimGuards_Ok c0 l0 i x Hx) as
    (Hc & Hl & _ & _ & Hth & He & Hterm & Hact & _ & Hst).
  unfold claimGuards. rewrite Hc. cbn [rbind].
  assert (requireLiveLifecycle (upgradeLedgerForRecovery sha256hex l1) (s_itemId i) = Ok tt) as ->.
  { unfold requireLiveLifecycle in *. rewrite Hup. exact Hlive. }
  cbn [rbind].
  assert (requireNotStopped (upgradeLedgerForRecovery sha256hex l1) (s_runId i) (s_itemId i) = Ok tt) as ->.
  { unfold requireNotStopped. cbn [stop upgradeLedgerForRecovery]. rewrite Hstop.
    destruct (stop (cc_ledger x)) as [st|]; [|done]. by rewrite Hst. }
  cbn [rbind]. rewrite Hup, Hi, Hs, Ht, Hth. cbn [mbind option_bind].
  rewrite (proj2 (asDurableBlockerClass_spec _ (cc_class x)) eq_refl), He. cbn [rbind].
  rewrite decide_False by (by rewrite Hterm). by rewrite (proj2 (includes_true _ _) Hact).
Qed.

Lemma claimId_again x y i :
  evidence_fingerprint (cc_item y) = evidence_fingerprint (cc_item x) →
  repeated_evidence_count (cc_item y) = repeated_evidence_count (cc_item x) →
  claimId sha256hex y i = claimId sha256hex x i.
Proof. intros Hf Hc. unfold claimId, claimCandidate, claimFingerprint. by rewrite Hf, Hc. Qed.

Lemma newRow_fields x i t l2 row :
  recordClaim sha256hex isoAfter x i t = (l2, row) → assertRecoveryEpisodeFields row = Ok tt.
Proof. unfold recordClaim. intros H. injection H as _ <-. done. Qed.

Lemma list_find_snoc {A} (P : A → Prop) `{∀ a, Decision (P a)} l a :
  list_find P l = None → P a → list_find P (l ++ [a]) = Some (length l, a).
Proof.
  intros Hn Ha. apply list_find_Some. split; [by apply list_lookup_middle|]. split; [done|].
  intros j y Hy Hj. rewrite lookup_app_l in Hy by done. apply list_find_None in Hn.
  rewrite Forall_forall in Hn. apply Hn. by eapply list_elem_of_lookup_2.
Qed.

(** The ledger a successful claim leaves, in one shape for both paths. *)
Lemma start_leaves c0 l0 i t t' eff :
  startRecoveryAttempt sha256hex mint isoAfter c0 l0 i t t' = Ok eff →
  ∃ x n item1, claimGuards sha256hex c0 l0 i = Ok x ∧
    items (upgradeLedgerForRecovery sha256hex (eff_ledger eff)) = items (eff_ledger eff) ∧
    attemptsOf (upgradeLedgerForRecovery sha256hex (eff_ledger eff)) = attemptsOf (eff_ledger eff) ∧
    stop (eff_ledger eff) = stop (cc_ledger x) ∧ oget (items (eff_ledger eff)) (s_itemId i) = Some item1 ∧
    state item1 = Blocked ∧ blocked_theme item1 = blocked_theme (cc_item x) ∧
    evidence_fingerprint item1 = evidence_fingerprint (cc_item x) ∧
    repeated_evidence_count item1 = repeated_evidence_count (cc_item x) ∧
    list_find (fun a => attempt_id a = Some (claimId sha256hex x i)) (attemptsOf (eff_ledger eff)) =
      Some (n, eff_value eff) ∧
    (is_Some (truthy (invariant (eff_value eff))) → assertRecoveryEpisodeFields (eff_value eff) = Ok tt).
Proof.
  intros H. apply start_Ok in H as (x & Hx & H). pose proof (claimGuards_Ok _ _ _ _ Hx) as
    (_ & Hl & Hi & Hs & Ht & _). exists x.
  destruct H as [(n & ex & Hf & Ha & ->)|(l2 & row & Hf & Hr & ->)]; cbn [eff_ledger eff_value].
  - exists n, (cc_item x). split; [done|]. pose proof (upgradeLedger_idemp sha256hex l0) as Hid. rewrite <-Hl in Hid.
    split; [exact (f_equal items Hid)|]. split; [exact (f_equal attemptsOf Hid)|]. done.
  - pose proof (recordClaim_settled x i t l2 row l0 Hl Ht Hr) as [Hup1 Hup2].
    pose proof (newRow_fields x i t l2 row Hr) as Hfields.
    apply recordClaim_spec in Hr as (Hat & Hst & _ & Hid & _ & _ & _ & Hit & _).
    assert (∃ item1, oget (items l2) (s_itemId i) = Some item1 ∧ state item1 = Blocked ∧
      blocked_theme item1 = blocked_theme (cc_item x) ∧ evidence_fingerprint item1 = evidence_fingerprint (cc_item x) ∧
      repeated_evidence_count item1 = repeated_evidence_count (cc_item x)) as (item1 & H1 & H2 & H3 & H4 & H5).
    { rewrite Hit. destruct (_ && _); [|by exists (cc_item x)]. eexists. rewrite oget_oset_eq. done. }
    exists (length (attemptsOf (cc_ledger x))), item1. split; [done|]. split; [exact Hup1|]. split; [exact Hup2|].
    split; [exact Hst|]. do 5 (split; [done|]). split; [|done].
    change (attemptsOf (admitRecoveryLifecycle mint (cc_contract x) l2 t)) with (attemptsOf l2).
    rewrite Hat. by apply list_find_snoc.
Qed.
End HandlerFacts.

#[export] Existing Instances same_claim_refl same_claim_trans grows_preorder entry_moves_preorder.

(** ** When a handler accepts *)

Section Acceptance.
Context (sha256hex : string → string) (fingerprintEvidence : string → string) (mint : string)
  (isoAfter : string → jsnum → string) (showNum : jsnum → string) (c0 : LoopContract) (l0 : LoopLedger).

(** The item is open to recovery: the operation is live for it, and no stop
    record refuses it. *)
Definition open (itemId : string) (ignoreStop : bool) : Prop :=
  lifecycleAllowsRecoveryRecipe (lifecycle l0) (oget (items (upgradeLedgerForRecovery sha256hex l0)) itemId) = true ∧
  (ignoreStop = false → compatibilityStopRefusesItem (stop l0) itemId = false).

Definition BlockAllowed (i : BlockItemInput) : Prop :=
  ∃ cls c item, b_blockerClass i = blocker_class_name cls ∧ upgradeContractForRecovery c0 = Ok c ∧
    open (b_itemId i) (b_allowAlreadyStopped i) ∧
    oget (items (upgradeLedgerForRecovery sha256hex l0)) (b_itemId i) = Some item ∧ state item = InProgress.

Definition ClaimAllowed (i : StartRecoveryAttemptInput) (x : ClaimContext) : Prop :=
  upgradeContractForRecovery c0 = Ok (cc_contract x) ∧ cc_ledger x = upgradeLedgerForRecovery sha256hex l0 ∧
  open (s_itemId i) false ∧ oget (items (cc_ledger x)) (s_itemId i) = Some (cc_item x) ∧
  state (cc_item x) = Blocked ∧ blocked_theme (cc_item x) = Some (blocker_class_name (cc_class x)) ∧
  entryFor (cc_contract x) (cc_class x) = Ok (cc_entry x) ∧ terminal_outcome (cc_entry x) = Retry ∧
  s_action i ∈ recipes (cc_entry x).

(** A recorded attempt may be returned unless it names an invariant and lacks
    episode fields. *)
Definition replayable (x : ClaimContext) (i : StartRecoveryAttemptInput) : Prop :=
  ∀ n a, list_find (fun a => attempt_id a = Some (claimId sha256hex x i)) (attemptsOf (cc_ledger x)) = Some (n, a) →
    is_Some (truthy (invariant a)) → assertRecoveryEpisodeFields a = Ok tt.

Definition CompletionAllowed (i : CompleteRecoveryAttemptInput) : Prop :=
  let l := upgradeLedgerForRecovery sha256hex l0 in
  ∃ c n a, upgradeContractForRecovery c0 = Ok c ∧
    list_find (fun a => attempt_id a = Some (k_attemptId i)) (attemptsOf l) = Some (n, a) ∧
    att_item_id a = k_itemId i ∧ open (k_itemId i) (bool_decide (outcome a ≠ OutStarted)) ∧
    (outcome a = OutStarted → ∃ item, oget (items l) (k_itemId i) = Some item ∧ state item = Blocked ∧
       blocked_theme item = Some (att_class a) ∧ default "" (evidence_fingerprint item) = att_evidence_fingerprint a).

Lemma requireLive_iff i :
  requireLiveLifecycle (upgradeLedgerForRecovery sha256hex l0) i = Ok tt ↔
  lifecycleAllowsRecoveryRecipe (lifecycle l0) (oget (items (upgradeLedgerForRecovery sha256hex l0)) i) = true.
Proof.
  unfold requireLiveLifecycle. change (lifecycle (upgradeLedgerForRecovery sha256hex l0)) with (lifecycle l0).
  by destruct (lifecycleAllowsRecoveryRecipe _ _).
Qed.

Lemma requireNotStopped_iff r i :
  requireNotStopped (upgradeLedgerForRecovery sha256hex l0) r i = Ok tt ↔
  compatibilityStopRefusesItem (stop l0) i = false.
Proof.
  unfold requireNotStopped. change (stop (upgradeLedgerForRecovery sha256hex l0)) with (stop l0).
  destruct (stop l0) as [st|]; [|done]. by destruct (compatibilityStopRefusesItem _ _).
Qed.

(** Once upgraded, a contract has a policy entry for every class. *)
Lemma entryFor_upgraded c cls : upgradeContractForRecovery c0 = Ok c → ∃ e, entryFor c cls = Ok e.
Proof.
  intros H. pose proof (upgradeContract_keeps _ _ H) as (_ & _ & Hp). unfold upgradeContractForRecovery in H.
  inv_bind H. unfold entryFor. rewrite Hp, E. cbn [rbind]. apply compile_policy_entries in E as [Hk _].
  destruct (policyFor_Some x cls) as (e & He & _); [rewrite Hk; apply all_classes|]. rewrite He. eauto.
Qed.

Lemma block_accepts i t :
  (∃ eff, blockItem sha256hex fingerprintEvidence mint c0 l0 i t = Ok eff) ↔ BlockAllowed i.
Proof.
  split.
  - intros [eff H]. pose proof H as (cls & c & item & e & l1 & Hcls & Hc & Hi & Hs & _ & Hst & _)%block_Ok.
    exists cls, c, item. split; [done|]. split; [done|]. split; [|done]. split; [|exact Hst].
    apply requireLive_iff. unfold blockItem in H. destruct (asDurableBlockerClass _); [|done].
    rewrite Hc in H. cbn [rbind] in H. by destruct (requireLiveLifecycle _ _) as [[]|].
  - intros (cls & c & item & Hcls & Hc & [Hlive Hst] & Hi & Hs). unfold blockItem.
    rewrite (proj2 (asDurableBlockerClass_spec _ cls) (eq_sym Hcls)), Hc. cbn [rbind].
    rewrite (proj2 (requireLive_iff _) Hlive). cbn [rbind].
    assert ((if b_allowAlreadyStopped i then Ok tt else
      requireNotStopped (upgradeLedgerForRecovery sha256hex l0) (b_runId i) (b_itemId i)) = Ok tt) as ->.
    { destruct (b_allowAlreadyStopped i); [done|]. apply requireNotStopped_iff. by apply Hst. }
    cbn [rbind]. rewrite Hi. destruct (decide (state item ≠ InProgress)) as [Hn|_]; [by destruct Hn|].
    destruct (entryFor_upgraded c cls Hc) as [e ->]. cbn [rbind]. destruct (blockBoundary item i). eauto.
Qed.

Lemma guards_accept i x : claimGuards sha256hex c0 l0 i = Ok x ↔ ClaimAllowed i x.
Proof.
  split.
  - intros (Hc & Hl & Hi & Hs & Ht & He & Hr & Ha & Hlive & Hst)%claimGuards_Ok. do 2 (split; [done|]). split; [|done].
    rewrite Hl in Hlive, Hst, Hi. split; [rewrite Hi; exact Hlive|]. intros _. exact Hst.
  - destruct x as [c l item cls e]. intros (Hc & Hl & [Hlive Hst] & Hi & Hs & Ht & He & Hr & Ha). simpl in *. subst l.
    unfold claimGuards. rewrite Hc. cbn [rbind]. rewrite (proj2 (requireLive_iff _) Hlive). cbn [rbind].
    rewrite (proj2 (requireNotStopped_iff _ _) (Hst eq_refl)). cbn [rbind]. rewrite Hi, Hs, Ht. cbn [mbind option_bind].
    rewrite (proj2 (asDurableBlockerClass_spec _ cls) eq_refl), He. cbn [rbind].
    rewrite decide_False by (by rewrite Hr). by rewrite (proj2 (includes_true _ _) Ha).
Qed.

Lemma claim_accepts i t t' :
  (∃ eff, startRecoveryAttempt sha256hex mint isoAfter c0 l0 i t t' = Ok eff) ↔
  ∃ x, ClaimAllowed i x ∧ replayable x i.
Proof.
  split.
  - intros [eff H]. apply start_Ok in H as (x & Hx & H). exists x. split; [by apply guards_accept|]. intros n a Hf.
    destruct H as [(n' & a' & Hf' & Ha & _)|(l2 & row & Hn & _)]; [|by rewrite Hf in Hn].
    rewrite Hf in Hf'. by injection Hf' as <- <-.
  - intros (x & Hx%guards_accept & Hr). unfold startRecoveryAttempt. rewrite Hx. cbn [rbind]. unfold replayable in Hr.
    destruct (list_find _ (attemptsOf (cc_ledger x))) as [[n a]|].
    + specialize (Hr n a eq_refl). destruct (truthy (invariant a)); [|cbn [rbind]; eauto].
      rewrite Hr by eauto. cbn [rbind]. eauto.
    + destruct (recordClaim _ _ _ _ _). eauto.
Qed.

Lemma completion_accepts i t :
  (∃ eff, completeRecoveryAttempt sha256hex mint showNum c0 l0 i t = Ok eff) ↔ CompletionAllowed i.
Proof.
  split.
  - intros [eff H]. pose proof H as Hok. apply complete_Ok in Hok. cbv zeta in Hok.
    destruct Hok as (c & n & a & Hc & Hf & Hai & Hok).
    exists c, n, a. do 3 (split; [done|]). unfold completeRecoveryAttempt in H. rewrite Hc in H. cbn [rbind] in H.
    destruct (requireLiveLifecycle _ _) as [[]|] eqn:Hlive; [|done]. apply requireLive_iff in Hlive.
    destruct Hok as [(Ho & _)|(item & Ho & Hi & Hs & Ht & Hfp & Hst & _)].
    + rewrite bool_decide_eq_true_2 by done. split; [by split|]. intros Ho'. by destruct Ho.
    + split; [split; [done|]; intros _; exact Hst|]. intros _. by exists item.
  - intros (c & n & a & Hc & Hf & Hai & [Hlive Hst] & Hs). unfold completeRecoveryAttempt. rewrite Hc. cbn [rbind].
    rewrite (proj2 (requireLive_iff _) Hlive). cbn [rbind]. rewrite Hf.
    destruct (decide (att_item_id a ≠ k_itemId i)) as [Hn|_]; [by destruct Hn|].
    destruct (decide (outcome a ≠ OutStarted)) as [_|Ho]; [eauto|]. apply dec_stable in Ho.
    rewrite (proj2 (requireNotStopped_iff _ _)) by (apply Hst; by rewrite Ho). cbn [rbind].
    destruct (Hs Ho) as (item & Hi & Hb & Ht & Hfp). rewrite Hi.
    destruct (decide (state item ≠ Blocked ∨ _)) as [Hn|_]; [|eauto]. exfalso.
    destruct Hn as [Hn|[Hn|Hn]]; by destruct Hn.
Qed.
End Acceptance.

(** ** Properties *)

(** Blocking records exactly one classified block: only a running item
    blocks, it takes the class and the fingerprint of the evidence, the repeat
    count grows exactly when the fingerprint repeats, a class that needs human
    authority stops a run that was not stopped, and nothing else changes. *)
Theorem block_effect sha fp mint c0 l0 i t eff :
  blockItem sha fp mint c0 l0 i t = Ok eff →
  ∃ cls item item', b_blockerClass i = blocker_class_name cls ∧
    oget (items (upgradeLedgerForRecovery sha l0)) (b_itemId i) = Some item ∧ state item = InProgress ∧
    oget (items (eff_ledger eff)) (b_itemId i) = Some item' ∧ state item' = Blocked ∧
    blocked_theme item' = Some (blocker_class_name cls) ∧ evidence_fingerprint item' = Some (fp (b_evidence i)) ∧
    repeated_evidence_count item' =
      Some (if decide (evidence_fingerprint item = Some (fp (b_evidence i)))
            then default 0 (repeated_evidence_count item) + 1 else 0) ∧
    recovery_attempts (eff_ledger eff) = recovery_attempts (upgradeLedgerForRecovery sha l0) ∧
    (∀ k, k ≠ b_itemId i → oget (items (eff_ledger eff)) k = oget (items (upgradeLedgerForRecovery sha l0)) k) ∧
    (∀ s, stop l0 = Some s → stop (eff_ledger eff) = Some s) ∧
    (stop l0 = None → cls ∈ HUMAN_AUTHORITY_CLASSES →
       stop_reason <$> stop (eff_ledger eff) = Some HumanAuthority).
Proof.
  intros (cls & c & item & e & l1 & Hcls & _ & Hi & Hs & He & _ & Hl1 & -> & _)%block_Ok.
  exists cls, item. eexists. split; [done|]. split; [done|]. split; [done|].
  set (l2 := match stop l0 with None => _ | Some _ => _ end).
  assert (items l2 = items l1 ∧ recovery_attempts l2 = recovery_attempts l1) as [Hi2 Ha2].
  { subst l2. destruct (stop l0); [done|]. by destruct (decide (terminal_outcome e = HumanAuthorityOutcome)). }
  change (items (admitRecoveryLifecycle mint c l2 t)) with (items l2).
  change (recovery_attempts (admitRecoveryLifecycle mint c l2 t)) with (recovery_attempts l2).
  change (stop (admitRecoveryLifecycle mint c l2 t)) with (stop l2).
  rewrite Hi2, Ha2, Hl1. simpl. rewrite oget_oset_eq. split; [done|]. unfold blockedEntryOf.
  destruct (blockBoundary item i) as [epoch hd]. do 5 (split; [done|]). split.
  { intros k Hk. by rewrite oget_oset_ne. }
  split.
  - intros s Hst. subst l2. rewrite Hst, Hl1. simpl. done.
  - intros Hst Hh. subst l2. rewrite Hst. apply entryFor_wf in He as (_ & _ & _ & Hterm).
    rewrite decide_True by (by apply Hterm). done.
Qed.

(** The handlers refuse exactly what they must: a block is recorded iff
    the class is known, the contract's policy compiles and the item is running
    and open to recovery; a claim iff the item is blocked on a class whose
    policy retries with that very recipe; a completion iff the claim exists for
    the item and, while it is only started, the item is still blocked on the
    same class and evidence.  Nothing else is refused. *)
Theorem handlers_accept_exactly sha fp mint iso show c0 l0 :
  (∀ i t, (∃ eff, blockItem sha fp mint c0 l0 i t = Ok eff) ↔ BlockAllowed sha c0 l0 i) ∧
  (∀ i t t', (∃ eff, startRecoveryAttempt sha mint iso c0 l0 i t t' = Ok eff) ↔
     ∃ x, ClaimAllowed sha c0 l0 i x ∧ replayable sha x i) ∧
  (∀ i t, (∃ eff, completeRecoveryAttempt sha mint show c0 l0 i t = Ok eff) ↔ CompletionAllowed sha c0 l0 i).
Proof.
  split; [|split]; intros.
  - apply block_accepts.
  - apply claim_accepts.
  - apply completion_accepts.
Qed.

(** C4. A claim is written ahead of its side effect, once: it either returns
    the attempt already recorded under its id and records nothing, or appends
    one row with a fresh id.  Starting requires the strategy to be below its
    bound in its episode, preparation for review findings apart; a started
    claim charges its strategy exactly once, a skip or a refusal charges
    nothing; no other item changes, and the item itself changes only when the
    claim started and is not preparation. *)
Theorem claim_effect sha mint iso c0 l0 i t t' eff :
  startRecoveryAttempt sha mint iso c0 l0 i t t' = Ok eff →
  let l := upgradeLedgerForRecovery sha l0 in
  let row := eff_value eff in
  ∃ x, claimGuards sha c0 l0 i = Ok x ∧ attempt_id row = Some (claimId sha x i) ∧
    stop (eff_ledger eff) = stop l0 ∧
    ((row ∈ attemptsOf l ∧ attemptsOf (eff_ledger eff) = attemptsOf l ∧ items (eff_ledger eff) = items l ∧
      eff_events eff = []) ∨
     ((∀ a, a ∈ attemptsOf l → attempt_id a ≠ attempt_id row) ∧ attemptsOf (eff_ledger eff) = attemptsOf l ++ [row] ∧
      eff_written eff = true ∧
      (outcome row = OutStarted → findingsPrep x i = true ∨
         reaches (spent (ep_counts (claimEpisode sha x i t)) (recipe_name (s_action i)))
           (perStrategyBound (cc_entry x)) = false) ∧
      attempts_per_strategy row =
        Some (let counts := ep_counts (claimEpisode sha x i t) in
              if decide (outcome row = OutStarted) then charge counts (recipe_name (s_action i)) else counts) ∧
      ((outcome row ≠ OutStarted ∨ findingsPrep x i = true) → items (eff_ledger eff) = items l) ∧
      ∀ k, k ≠ s_itemId i → oget (items (eff_ledger eff)) k = oget (items l) k)).
Proof.
  intros H. cbv zeta. apply start_Ok in H as (x & Hx & H). exists x. split; [done|].
  pose proof (claimGuards_Ok _ _ _ _ _ Hx) as (_ & Hl & _). rewrite <-Hl.
  assert (stop (cc_ledger x) = stop l0) as Hst by (by rewrite Hl).
  destruct H as [(n & ex & Hf & _ & ->)|(l2 & row & Hf & Hr & ->)]; cbn [eff_ledger eff_value eff_events eff_written].
  - apply list_find_Some in Hf as (Hn & Hid & _). split; [done|]. split; [done|]. left.
    split; [by eapply list_elem_of_lookup_2|]. done.
  - pose proof (recordClaim_counts _ _ _ _ _ _ _ Hr) as Hcounts.
    apply recordClaim_spec in Hr as (Ha & Hs & _ & Hid & _ & _ & Ho & Hit & _).
    split; [done|]. split; [by rewrite <-Hst|]. right. split.
    { apply list_find_None in Hf. rewrite Forall_forall in Hf. intros a Hin. rewrite Hid. by apply Hf. }
    split; [done|]. split; [done|]. change (items (admitRecoveryLifecycle mint (cc_contract x) l2 t)) with (items l2).
    rewrite Hit. split; [|split; [exact Hcounts|split]].
    + rewrite Ho. unfold claimOutcome. destruct (s_skipInapplicable i); [done|].
      destruct (findingsPrep x i); [by left|]. simpl. destruct (reaches _ _); [done|by right].
    + intros [Hn|Hp]; [by rewrite bool_decide_eq_false_2|]. by rewrite Hp, andb_false_r.
    + intros k Hk. destruct (_ && _); [|done]. by rewrite oget_oset_ne.
Qed.

(** Claims are idempotent: replaying one on the ledger it left, at any later
    time, returns the same attempt, charges nothing, records no event and
    leaves items and attempts as they are, as long as the lifecycle still
    admits recovery of the item. *)
Theorem claim_replay sha mint iso c0 l0 i t t' eff t2 t2' :
  startRecoveryAttempt sha mint iso c0 l0 i t t' = Ok eff →
  requireLiveLifecycle (eff_ledger eff) (s_itemId i) = Ok tt →
  ∃ eff', startRecoveryAttempt sha mint iso c0 (eff_ledger eff) i t2 t2' = Ok eff' ∧
    eff_value eff' = eff_value eff ∧ eff_events eff' = [] ∧ items (eff_ledger eff') = items (eff_ledger eff) ∧
    attemptsOf (eff_ledger eff') = attemptsOf (eff_ledger eff) ∧ stop (eff_ledger eff') = stop (eff_ledger eff).
Proof.
  intros H Hlive. apply start_leaves in H as
    (x & n & item1 & Hx & Hup1 & Hup2 & Hst & Hi & Hs & Ht & Hfp & Hct & Hf & Hfields).
  pose proof (claimGuards_again _ _ _ _ _ _ item1 Hx Hlive Hup1 Hst Hi Hs Ht) as Hg.
  unfold startRecoveryAttempt. rewrite Hg. cbn [rbind cc_ledger cc_contract].
  rewrite (claimId_again sha x (mkClaimContext (cc_contract x) (upgradeLedgerForRecovery sha (eff_ledger eff)) item1
    (cc_class x) (cc_entry x)) i Hfp Hct), Hup2, Hf.
  eexists. split; [|split; [|split; [|split; [|split]]]].
  - destruct (truthy (invariant (eff_value eff))) eqn:Etr; [|reflexivity].
    rewrite Hfields by eauto. reflexivity.
  - done.
  - done.
  - exact Hup1.
  - exact Hup2.
  - done.
Qed.

(** A class that needs human authority is never recovered automatically:
    whatever its contract says, a claim on an item blocked with it is refused. *)
Theorem human_classes_never_claimed sha mint iso c0 l0 i t t' item cls :
  oget (items (upgradeLedgerForRecovery sha l0)) (s_itemId i) = Some item →
  blocked_theme item = Some (blocker_class_name cls) → cls ∈ HUMAN_AUTHORITY_CLASSES →
  ∃ e, startRecoveryAttempt sha mint iso c0 l0 i t t' = Err e.
Proof.
  intros Hi Ht Hh. destruct (startRecoveryAttempt sha mint iso c0 l0 i t t') as [eff|e] eqn:H; [|eauto].
  apply start_Ok in H as (x & Hx & _). apply claimGuards_Ok in Hx as (_ & Hl & Hi' & _ & Ht' & He & Hterm & _).
  rewrite Hl, Hi in Hi'. injection Hi' as ->. rewrite Ht in Ht'. injection Ht' as Hc.
  apply (inj blocker_class_name) in Hc as ->. apply entryFor_wf in He as (_ & _ & _ & Hw).
  destruct (Hw Hh) as [Hw' _]. congruence.
Qed.

(** A completion only ever lands on the claim it belongs to: a recorded
    terminal attempt is returned unchanged; a started one is completed while
    its item is still blocked on the same class and evidence, and only a
    successful action other than review-findings preparation puts the item
    back to work. *)
Theorem completion_effect sha mint show c0 l0 i t eff :
  completeRecoveryAttempt sha mint show c0 l0 i t = Ok eff →
  let l := upgradeLedgerForRecovery sha l0 in
  ∃ n a, attemptsOf l !! n = Some a ∧ attempt_id a = Some (k_attemptId i) ∧ att_item_id a = k_itemId i ∧
    (∀ k, k ≠ k_itemId i → oget (items (eff_ledger eff)) k = oget (items l) k) ∧
    if decide (outcome a = OutStarted) then
      ∃ item item', oget (items l) (k_itemId i) = Some item ∧ state item = Blocked ∧
        blocked_theme item = Some (att_class a) ∧ oget (items (eff_ledger eff)) (k_itemId i) = Some item' ∧
        attemptsOf (eff_ledger eff) = <[n := eff_value eff]> (attemptsOf l) ∧
        (outcome (eff_value eff) = OutRecovered ∨ outcome (eff_value eff) = OutFailed) ∧
        (state item' = InProgress ↔ outcome (eff_value eff) = OutRecovered) ∧
        (outcome (eff_value eff) = OutRecovered ↔
           k_succeeded i = true ∧ isReviewFindingsPrepUnlink (att_class a) (default "" (action a)) = false)
    else attemptsOf (eff_ledger eff) = attemptsOf l ∧ items (eff_ledger eff) = items l ∧ eff_value eff = a.
Proof.
  intros H. apply complete_Ok in H. cbv zeta in *. destruct H as (c & n & a & _ & Hf & Hai & H).
  apply list_find_Some in Hf as (Hn & Hid & _). exists n, a. do 3 (split; [done|]).
  destruct H as [(Ho & -> & -> & _)|(item & Ho & Hi & Hs & Ht & _ & _ & Hval & _ & _ & ->)].
  { split; [done|]. by rewrite decide_False. }
  set (a' := completedAttempt i a t) in *.
  assert (outcome a' = OutRecovered ↔
    k_succeeded i = true ∧ isReviewFindingsPrepUnlink (att_class a) (default "" (action a)) = false) as Hrec.
  { subst a'. unfold completedAttempt. destruct (k_succeeded i); [|simpl; naive_solver].
    destruct (isReviewFindingsPrepUnlink _ _); simpl; naive_solver. }
  assert (outcome a' = OutRecovered ∨ outcome a' = OutFailed) as Hor.
  { subst a'. unfold completedAttempt. destruct (k_succeeded i); [|by right].
    destruct (isReviewFindingsPrepUnlink _ _); [by right|by left]. }
  rewrite (decide_True (P := outcome a = OutStarted) _ _ Ho).
  destruct (decide (outcome a' = OutRecovered)) as [Hr|Hr]; simpl.
  - split; [intros k Hk; by rewrite oget_oset_ne|]. exists item. eexists. rewrite oget_oset_eq.
    do 4 (split; [done|]). split; [by rewrite Hval|]. rewrite Hval. split; [done|]. split; [|done]. done.
  - split; [done|]. exists item, item. rewrite Hval. do 6 (split; [done|]). split; [|done].
    rewrite Hs. split; [done|]. intros Hc. by destruct Hr.
Qed.

(** ** Witnesses *)

Module HandlerSample.
Definition block : BlockItemInput :=
  mkBlock "run" "7" Claude "implementation-ci" "tests failed" None None None false.
Definition human : BlockItemInput :=
  mkBlock "run" "7" Claude "missing-authority" "no push access" None None None false.
Definition claim : StartRecoveryAttemptInput :=
  mkStart "run" "tok" "7" RerunCi None None None None None false.
Definition fresh : LoopLedger := FrontierSample.ledger [FrontierSample.entry "7" InProgress None].

Definition runBlock (i : BlockItemInput) : result LoopError (Effect unit) :=
  blockItem (fun s => s) (fun s => s) "lop-1" FrontierSample.contract fresh i "t1".
Definition afterBlock (i : BlockItemInput) : LoopLedger :=
  match runBlock i with Ok eff => eff_ledger eff | Err _ => fresh end.
Definition runClaim (l : LoopLedger) (i : StartRecoveryAttemptInput) : result LoopError (Effect LoopRecoveryAttempt) :=
  startRecoveryAttempt (fun s => s) "lop-1" (fun t _ => t) FrontierSample.contract l i "t2" "t2".
Definition afterClaim (l : LoopLedger) (i : StartRecoveryAttemptInput) : LoopLedger :=
  match runClaim l i with Ok eff => eff_ledger eff | Err _ => l end.
Definition claimed : LoopLedger := afterClaim (afterBlock block) claim.
Definition lastId (l : LoopLedger) : string := default "" (last (attemptsOf l) ≫= attempt_id).
Definition complete (l : LoopLedger) (ok : bool) : CompleteRecoveryAttemptInput :=
  mkComplete "run" "7" Claude (lastId l) ok None.
Definition runComplete (l : LoopLedger) (ok : bool) : result LoopError (Effect LoopRecoveryAttempt) :=
  completeRecoveryAttempt (fun s => s) "lop-1" (fun _ => "n") FrontierSample.contract l (complete l ok) "t3".

(** Three claims of one strategy in one episode, and a fourth beyond its bound. *)
Definition nth (ordinal : string) : StartRecoveryAttemptInput :=
  mkStart "run" "tok" "7" RerunCi (Some ("abc|attempt=" +:+ ordinal)) None None None None false.
Definition spentLedger : LoopLedger := foldl afterClaim (afterBlock block) (nth <$> ["1"; "2"; "3"]).
End HandlerSample.

Lemma block_effect_witness :
  ∃ eff, HandlerSample.runBlock HandlerSample.human = Ok eff ∧ stop_reason <$> stop (eff_ledger eff) = Some HumanAuthority.
Proof.
  destruct (HandlerSample.runBlock HandlerSample.human) as [eff|] eqn:E; [|by vm_compute in E].
  exists eff. split; [done|].
  destruct (block_effect _ _ _ _ _ _ _ _ E) as (cls & _ & _ & Hc & _ & _ & _ & _ & _ & _ & _ & _ & _ & _ & H).
  apply H; [done|]. assert (cls = MissingAuthority) as -> by (apply (inj blocker_class_name); exact (eq_sym Hc)).
  by apply (bool_decide_unpack _); vm_compute.
Defined.

Lemma claim_effect_witness :
  ∃ eff, HandlerSample.runClaim (HandlerSample.afterBlock HandlerSample.block) HandlerSample.claim = Ok eff ∧
    stop (eff_ledger eff) = None.
Proof.
  destruct (HandlerSample.runClaim (HandlerSample.afterBlock HandlerSample.block) HandlerSample.claim)
    as [eff|] eqn:E; [|by vm_compute in E].
  exists eff. split; [done|]. by destruct (claim_effect _ _ _ _ _ _ _ _ _ E) as (x & _ & _ & -> & _).
Defined.

Lemma claim_replay_witness :
  ∃ eff eff', HandlerSample.runClaim (HandlerSample.afterBlock HandlerSample.block) HandlerSample.claim = Ok eff ∧
    HandlerSample.runClaim (eff_ledger eff) HandlerSample.claim = Ok eff' ∧ eff_value eff' = eff_value eff.
Proof.
  destruct (HandlerSample.runClaim (HandlerSample.afterBlock HandlerSample.block) HandlerSample.claim)
    as [eff|] eqn:E; [|by vm_compute in E].
  assert (requireLiveLifecycle (eff_ledger eff) (s_itemId HandlerSample.claim) = Ok tt) as Hlive.
  { vm_compute in E. injection E as <-. by vm_compute. }
  destruct (claim_replay _ _ _ _ _ _ _ _ _ "t2" "t2" E Hlive) as (eff' & H1 & H2 & _).
  exists eff, eff'. done.
Defined.

Lemma human_classes_never_claimed_witness :
  ∃ e, HandlerSample.runClaim (HandlerSample.afterBlock HandlerSample.human) HandlerSample.claim = Err e.
Proof.
  apply (human_classes_never_claimed _ _ _ _ _ _ _ _
    (default (snd (FrontierSample.entry "7" Pending None))
       (oget (items (HandlerSample.afterBlock HandlerSample.human)) "7")) MissingAuthority).
  - by vm_compute.
  - by vm_compute.
  - by apply (bool_decide_unpack _); vm_compute.
Defined.

Lemma completion_effect_witness :
  ∃ eff n a, HandlerSample.runComplete HandlerSample.claimed true = Ok eff ∧
    attemptsOf HandlerSample.claimed !! n = Some a ∧ attempt_id a = Some (HandlerSample.lastId HandlerSample.claimed).
Proof.
  destruct (HandlerSample.runComplete HandlerSample.claimed true) as [eff|] eqn:E; [|by vm_compute in E].
  destruct (completion_effect _ _ _ _ _ _ _ _ E) as (n & a & H1 & H2 & _). exists eff, n, a.
  split; [done|]. split; [|exact H2]. rewrite <-H1. f_equal; by vm_compute.
Defined.

(** A refused claim breaks the episode record it reports on: the [exhausted]
    row repeats the counts of its episode unchanged, while the authority check
    counts every row that is neither skipped nor superseded, so the ledger the
    handler writes is rejected by the check the next read applies. *)
Theorem refused_claim_breaks_authority :
  ∃ eff, HandlerSample.runClaim HandlerSample.spentLedger (HandlerSample.nth "4") = Ok eff ∧
    outcome (eff_value eff) = OutExhausted ∧ eff_written eff = true ∧
    ledgerEpisodesAreAuthoritative (fun s => s) (attemptsOf HandlerSample.spentLedger) None = true ∧
    ledgerEpisodesAreAuthoritative (fun s => s) (attemptsOf (eff_ledger eff)) None = false.
Proof. eexists. split; [by vm_compute|]. by vm_compute. Qed.
