(* ===== verification/Store.v ===== *)
(** * The run store

    What [core/scripts/loop/store.ts] keeps for one run: the contract, the
    ledger, the lock file and the two append-only logs, with the operations the
    handlers use.  A handler is modelled as the list of durable writes it
    performs in order; each write checks the lock token again, and a crash is a
    prefix of the list. *)

From Stdlib Require Import ZArith QArith Qcanon.
From stdpp Require Import numbers base gmap strings list pretty relations.
From S2P Require Import Prelude LoopTypes Ownership Lifecycle RecoveryPolicy Frontier Dependencies Schedule RecoveryEpisodes RecoveryHandlers.
Local Open Scope result_scope.
Local Open Scope nat_scope.

(** ** Append-only logs *)

Record LogRecord (A : Type) := mkLogRecord {
  log_seq : nat;
  log_time : string;
  log_data : A;
}.
Arguments mkLogRecord {A}.
Arguments log_seq {A}.
Arguments log_time {A}.
Arguments log_data {A}.

(** The lines of a log, and what one process cached as its next number. *)
Record Log (A : Type) := mkLogFile {
  lines : list (LogRecord A);
  nextSeqCache : option nat;
}.
Arguments mkLogFile {A}.
Arguments lines {A}.
Arguments nextSeqCache {A}.

Definition nextSeq {A} (g : Log A) : nat := default (length (lines g)) (nextSeqCache g).

Definition appendLog {A} (g : Log A) (time : string) (data : A) : Log A :=
  mkLogFile (lines g ++ [mkLogRecord (nextSeq g) time data]) (Some (S (nextSeq g))).

(** ** Documents of a run *)

Record LoopLockRecord := mkLock {
  lk_engine : LoopEngineName;
  lk_pid : Z;
  lk_hostname : string;
  lk_acquired_at : string;
  lk_token : string;
  lk_run_id : string;
  lk_starttime : option string;
}.

#[export] Instance lock_eq_dec : EqDecision LoopLockRecord.
Proof. solve_decision. Defined.

Definition engine_name (e : LoopEngineName) : string :=
  match e with
  | Claude => "claude"
  | Codex => "codex"
  end.

Record LoopHandoff := mkHandoff {
  ho_from_engine : LoopEngineName;
  ho_to_engine : LoopEngineName;
  ho_reason : string;
  ho_time : string;
}.

(** The response a resume carries; [request_id] may be absent. *)
Record ResumeResponse := mkResponse {
  rs_request_id : option string;
  rs_value : string;
}.

(** What a terminal summary is compared by: every item's state and request, the
    held and the excluded items, the Cooling reason. *)
Record TerminalRevision := mkRevision {
  tv_items : list (string * LoopItemState * option string);
  tv_held : list string;
  tv_excluded : list string;
  tv_cooling : option CoolingReason;
}.

#[export] Instance cooling_reason_eq_dec : EqDecision CoolingReason.
Proof. solve_decision. Defined.
#[export] Instance revision_eq_dec : EqDecision TerminalRevision.
Proof. solve_decision. Defined.

Inductive StoreEvent :=
| EvRecovery (e : LoopEvent)
| EvItemPaused (item : string) (request : option (string * string))
| EvItemWaiting (item : string) (request : option (string * string))
| EvHoldInvalidated (item request_id : string)
| EvItemAbandoned (item : string) (from : LoopItemState)
| EvItemResumed (item : string) (from : LoopItemState)
| EvItemTransitioned (item : string) (from to : LoopItemState)
| EvReconciled (sequence : Z) (drift : list LoopDrift) (next_actions : obj LoopNextAction)
| EvMergeBarrierCleared (item sha : string)
| EvLockRecovered (engine : LoopEngineName) (pid : Z) (hostname reason : string)
| EvItemStarted (item : string)
| EvPreconditionExcluded (item required observed : string)
| EvCapacityWait (item : string)
| EvTypedRequestAutoSettled (item : string)
| EvDeadHolderTakeover (item holder_run_id crash_fingerprint : string)
| EvHoldCleared (item : string)
| EvCoexistenceDeferred (item : string)
| EvAuthorityHoldInvalidated (item : string) (evidence_key : option string) (authority_head : string) (current_head : option string)
| EvAttemptSuperseded (a : LoopRecoveryAttempt) (reason : string)
| EvItemCooling (item theme : option string) (historical_evidence : string)
| EvStopRecorded (st : LoopStopRecord)
| EvRunFatalSuperseded (prior : LoopStopRecord)
| EvItemSkipped (item : string)
| EvRecoverySuperseded (item : string) (st : option LoopItemState) (pr_number : option Z) (head_sha : option string)
| EvScheduleEvaluated (d : ScheduleDecision)
| EvCoexistenceWait (item : string)
(** [loop_item_hold_invalidated] with reason [typed_request_auto_settled]. *)
| EvHoldAutoSettled (item : string)
(** What the execution of a recovery records. *)
| EvPreflightDeferred (item : string) (attempt : option string) (reason : string)
| EvCandidateReconciled (item : string) (attempt : option string) (pr_number : option Z) (head_sha pipeline_stage : option string)
| EvAttemptStale (attempt : option string) (item claimed_head current_head : string)
| EvBackoffDeferred (attempt : option string) (item : string) (delay_ms : Z) (not_before : option string)
| EvActionExecuted (attempt : option string) (item : string) (action : option string) (succeeded : option bool) (evidence : string)
    (error candidate_head : option string) (postcondition : string)
| EvPostconditionDeferred (attempt : option string) (item reason : string)
| EvCandidateSuperseded (item blocker_epoch current_epoch : string) (pr_number : option Z) (head_sha : string)
| EvPreflightCooling (item detail : string)
| EvDriveStarted (drive_id : string) (engine : LoopEngineName) (resumed : bool)
| EvRunComplete (drive_id : string) (revision : TerminalRevision) (outcome : string) (held : list string) (dispatched : nat)
    (excluded : list string).

Inductive StoreDecision :=
| DHoldInvalidated (item : string) (from : LoopItemState) (request_id actor : string)
| DHoldResumed (item : string) (from : LoopItemState) (engine : LoopEngineName) (actor : string)
    (response : ResumeResponse) (time : string)
| DAuthorityAmendment (a : LoopAuthorityAmendment)
| DHandoff (h : LoopHandoff).

(** The directory of one run, as the process that runs the handlers sees it.
    [run_ledger] is the generation a read gives: what was written last, or, where
    the store's check rejects that, the last generation that passed it.
    [run_rejected] lists what was written and rejected.  [LedgerFiles] below
    relates [run_ledger] to the two files. *)
Record RunStore := mkRun {
  run_contract : LoopContract;
  run_ledger : LoopLedger;
  run_lock : option LoopLockRecord;
  run_events : Log StoreEvent;
  run_decisions : Log StoreDecision;
  run_rejected : list LoopLedger;
}.

(** ** Reading *)

(** [Number.isFinite(Date.parse(value))]. *)
Class IsoDates := parsesAsDate : string → bool.

Section Store.
Context (sha256hex : string → string) {dates : IsoDates}.

(** The legacy cursors of the exact policy entry that preceded the
    tester-rebind strategy. *)
Definition rebasesLegacyCursor (policy : option jval) : bool :=
  match policy ≫= fun v => match v with JObj fs => oget fs "workflow-engine-defect" | _ => None end,
        last (staleEntries WorkflowEngineDefect) with
  | Some entry, Some pre1468 => samePolicyEntry entry pre1468
  | _, _ => false
  end.

Definition rebaseCursor (rebase : bool) (n : LoopRecoveryAttempt) : LoopRecoveryAttempt :=
  if negb rebase ||
     bool_decide (att_class n ≠ "workflow-engine-defect" ∧ invariant n ≠ Some "workflow-engine-defect")
  then n
  else match strategy_cursor n with
  | Some c => if (c <? 3)%Z then n else with_strategy_cursor n 3
  | None => n
  end.

Definition normalizeAttempt (rebase : bool) (a : LoopRecoveryAttempt) : LoopRecoveryAttempt :=
  rebaseCursor rebase (normalizeStartedRecoveryEpisodeIdentity sha256hex a).

Definition normalizeRecoveryLedgerCompatibility (policy : option jval) (l : LoopLedger) : LoopLedger :=
  match recovery_attempts l with
  | None => l
  | Some xs => with_attempts l (normalizeAttempt (rebasesLegacyCursor policy) <$> xs)
  end.

(** *** The check of a generation *)

Definition isIsoTimestamp (s : string) : bool := bool_decide (s ≠ "") && parsesAsDate s.

Definition isAttemptsPerStrategy (counts : obj Z) : bool := forallb (fun p => isRecoveryRecipe p.1 && (0 <=? p.2)%Z) counts.

(** [value[field] != null]. *)
Definition given {A} (o : option A) : bool := bool_decide (is_Some o).

Definition attemptCarriesEpisodeState (a : LoopRecoveryAttempt) : bool :=
  given (episode_id a) || given (att_operation a) || given (invariant a) || given (att_candidate_epoch a) ||
  given (evidence_identity a) || given (attempts_per_strategy a) || given (strategy_cursor a) || given (att_next_eligible_at a).

Definition isCompleteEpisodeState (a : LoopRecoveryAttempt) (policy : option (obj jval)) : bool :=
  given (invariant a) && given (att_candidate_epoch a) && given (evidence_identity a) &&
  from_option isAttemptsPerStrategy false (attempts_per_strategy a) && from_option (Z.leb 0) false (strategy_cursor a) &&
  from_option isIsoTimestamp false (att_next_eligible_at a) && isAuthoritativeEpisodeState sha256hex a [] policy.

Definition isLoopRecoveryAttemptShape (a : LoopRecoveryAttempt) (policy : option (obj jval)) : bool :=
  bool_decide (att_item_id a ≠ "") && bool_decide (att_time a ≠ "") && isDurableBlockerClass (att_class a) &&
  from_option isRecoveryRecipe true (action a) && forallb isRecoveryRecipe (actions a) &&
  (from_option isRecoveryRecipe false (action a) || bool_decide (actions a ≠ [])) &&
  (negb (attemptCarriesEpisodeState a) || isCompleteEpisodeState a policy) &&
  from_option (Z.leb 0) true (strategy_cursor a) && from_option isAttemptsPerStrategy true (attempts_per_strategy a).

Definition isCoolingRecordShape (c : LoopCoolingRecord) : bool :=
  isIsoTimestamp (cool_time c) && from_option isIsoTimestamp false (cool_next_eligible_at c).

Definition isLoopLedgerShape (l : LoopLedger) (policy : option (obj jval)) : bool :=
  bool_decide (l_run_id l ≠ "") &&
  match recovery_attempts l with
  | None => true
  | Some rows => forallb (fun a => isLoopRecoveryAttemptShape a policy) rows && ledgerEpisodesAreAuthoritative sha256hex rows policy
  end &&
  from_option isCoolingRecordShape true (cooling l) &&
  from_option (fun m => forallb (fun p => isCoolingRecordShape p.2) m) true (item_cooling l).

(** A compiled policy as the object the check reads. *)
Definition policyEntryJson (e : RecoveryPolicyEntry) : jval :=
  JObj ([("recipes", JArr ((JStr ∘ recipe_name) <$> recipes e)); ("retry_budget", JNum (retry_budget e));
         ("backoff", JObj [("initial_seconds", JNum (initial_seconds (backoff e))); ("multiplier", JNum (multiplier (backoff e)));
                           ("max_seconds", JNum (max_seconds (backoff e)))]);
         ("terminal_outcome", JStr (match terminal_outcome e with Retry => "retry" | HumanAuthorityOutcome => "human_authority" end));
         ("run_fatal", JBool (run_fatal e)); ("repeated_evidence_limit", JNum (repeated_evidence_limit e))] ++
        match per_strategy_bound e with Some b => [("per_strategy_bound", JNum b)] | None => [] end).

(** [effectiveRecoveryPolicyForLedgerValidation(raw) ?? raw]. *)
Definition validationPolicy (raw : option jval) : option (obj jval) :=
  match effectiveRecoveryPolicyForLedgerValidation raw, raw with
  | Some p, _ => Some ((fun e => (blocker_class_name e.1, policyEntryJson e.2)) <$> p)
  | None, Some (JObj fields) => Some fields
  | None, _ => None
  end.

(** The generation [l] passes the check of a read under the contract [c]. *)
Definition passes (c : LoopContract) (l : LoopLedger) : bool := isLoopLedgerShape l (validationPolicy (recovery_policy c)).

(** What a read gives. *)
Definition readLedger (s : RunStore) : LoopLedger :=
  normalizeRecoveryLedgerCompatibility (recovery_policy (run_contract s)) (run_ledger s).

(** ** Locks *)

Definition lockHolder (k : LoopLockRecord) : string :=
  engine_name (lk_engine k) +:+ " pid " +:+ pretty (lk_pid k) +:+ " on " +:+ lk_hostname k.

Definition requireToken (s : RunStore) (runId token : string) : result LoopError LoopLockRecord :=
  let refuse holder := throw FLock
    ("loop run " +:+ quoted runId +:+ ": mutating operation requires the current lock holder's token (" +:+ holder +:+ ")") in
  match run_lock s with
  | None => refuse "no holder"
  | Some k => if decide (lk_token k = token) then Ok k else refuse (lockHolder k)
  end.

Definition acquireLock (s : RunStore) (runId : string) (record : LoopLockRecord) : result LoopError RunStore :=
  match run_lock s with
  | None => Ok (mkRun (run_contract s) (run_ledger s) (Some record) (run_events s) (run_decisions s) (run_rejected s))
  | Some k => throw FLock ("loop run " +:+ quoted runId +:+ " is already locked by " +:+ lockHolder k +:+
                           " (acquired " +:+ lk_acquired_at k +:+ ")")
  end.

(** [requireToken] and the compare-and-delete of the record it returned. *)
Definition releaseLock (s : RunStore) (runId token : string) : result LoopError RunStore :=
  try _ := requireToken s runId token in
  Ok (mkRun (run_contract s) (run_ledger s) None (run_events s) (run_decisions s) (run_rejected s)).

Inductive LockStaleness := NotStale | StaleSameHostDeadPid | UnverifiableCrossHost.

#[export] Instance staleness_eq_dec : EqDecision LockStaleness.
Proof. solve_decision. Defined.

Definition classifyStaleness (hostname : string) (isPidAlive : Z → bool) (k : LoopLockRecord) : LockStaleness :=
  if decide (lk_hostname k ≠ hostname) then UnverifiableCrossHost
  else if isPidAlive (lk_pid k) then NotStale else StaleSameHostDeadPid.

Definition recoverLock (hostname : string) (isPidAlive : Z → bool) (s : RunStore) (runId reason : string)
    (force : bool) (time : string) : result LoopError RunStore :=
  match run_lock s with
  | None => Ok s
  | Some k =>
      let staleness := classifyStaleness hostname isPidAlive k in
      if bool_decide (staleness ≠ StaleSameHostDeadPid) && negb force
      then throw FLock ("loop run " +:+ quoted runId +:+ ": lock held by " +:+ lockHolder k +:+
                        " is not verifiably stale — refusing recovery without force")
      else
        let why := if force && bool_decide (staleness ≠ StaleSameHostDeadPid) then reason +:+ " (forced)" else reason in
        Ok (mkRun (run_contract s) (run_ledger s) None
              (appendLog (run_events s) time (EvLockRecovered (lk_engine k) (lk_pid k) (lk_hostname k) why))
              (run_decisions s) (run_rejected s))
  end.

(** ** Writing *)

Definition DURABLE_GENERATION_QUARANTINE_THEME : string := "durable_generation_quarantine".

Definition isQuarantineOwnedWait (l : LoopLedger) : bool :=
  bool_decide ((cooling l ≫= cool_theme) = Some DURABLE_GENERATION_QUARANTINE_THEME) &&
  bool_decide (last_reconciliation l = None).

Definition quarantineWaitBlocksMutation (current next : LoopLedger) : bool :=
  if negb (isQuarantineOwnedWait current) then false
  else if bool_decide (is_Some (last_reconciliation next)) then false
  else bool_decide (items current ≠ items next) ||
       bool_decide (default [] (recovery_attempts current) ≠ default [] (recovery_attempts next)).

(** A ledger the check rejects is written all the same; what a read gives stays. *)
Definition writeLedger (s : RunStore) (runId token : string) (l : LoopLedger) : result LoopError RunStore :=
  try _ := requireToken s runId token in
  let effective := normalizeRecoveryLedgerCompatibility (recovery_policy (run_contract s)) l in
  let current := readLedger s in
  if quarantineWaitBlocksMutation current effective
  then throw FValidation ("quarantined generation wait requires live reconciliation before mutation; evidence=" +:+
                          default "missing" (cooling current ≫= cool_quarantine_path))
  else if passes (run_contract s) effective
  then Ok (mkRun (run_contract s) effective (run_lock s) (run_events s) (run_decisions s) (run_rejected s))
  else Ok (mkRun (run_contract s) current (run_lock s) (run_events s) (run_decisions s) (run_rejected s ++ [effective])).

Definition appendEvent (s : RunStore) (runId token time : string) (e : StoreEvent) : result LoopError RunStore :=
  try _ := requireToken s runId token in
  Ok (mkRun (run_contract s) (run_ledger s) (run_lock s) (appendLog (run_events s) time e) (run_decisions s) (run_rejected s)).

Definition appendDecision (s : RunStore) (runId token time : string) (d : StoreDecision) : result LoopError RunStore :=
  try _ := requireToken s runId token in
  Ok (mkRun (run_contract s) (run_ledger s) (run_lock s) (run_events s) (appendLog (run_decisions s) time d) (run_rejected s)).

(** The durable writes of a handler, in order. *)
Inductive StoreWrite :=
| WLedger (l : LoopLedger)
| WEvent (time : string) (e : StoreEvent)
| WDecision (time : string) (d : StoreDecision)
| WReleaseLock.

Definition perform (runId token : string) (s : RunStore) (w : StoreWrite) : result LoopError RunStore :=
  match w with
  | WLedger l => writeLedger s runId token l
  | WEvent t e => appendEvent s runId token t e
  | WDecision t d => appendDecision s runId token t d
  | WReleaseLock => releaseLock s runId token
  end.

(** A handler that ran to the end, or was cut off after its first [n] writes. *)
Definition execute (runId token : string) (s : RunStore) (ws : list StoreWrite) : result LoopError RunStore :=
  rfold (perform runId token) s ws.
End Store.

(** ** Facts *)

(** *** Logs *)

(** Line [i] carries number [i], and the cache, when set, is the next one. *)
Definition dense {A} (g : Log A) : Prop :=
  (∀ i r, lines g !! i = Some r → log_seq r = i) ∧ (∀ n, nextSeqCache g = Some n → n = length (lines g)).

Lemma append_dense {A} (g : Log A) t d : dense g → dense (appendLog g t d).
Proof.
  intros [Hl Hc]. assert (nextSeq g = length (lines g)) as Hn.
  { unfold nextSeq. destruct (nextSeqCache g) as [n|]; simpl; [by apply Hc|done]. }
  split; simpl; [|by intros n [= <-]; rewrite length_app, Hn; simpl; lia].
  intros i r Hi. apply lookup_app_Some in Hi as [Hi|[Hi Hr]]; [by apply Hl|].
  apply list_lookup_singleton_Some in Hr as [? <-]. simpl. lia.
Qed.

(** *** Reading keeps everything but the attempts *)

Section StoreFacts.
Context (sha256hex : string → string) {dates : IsoDates}.

Lemma normalize_frame policy l :
  let l' := normalizeRecoveryLedgerCompatibility sha256hex policy l in
  items l' = items l ∧ stop l' = stop l ∧ lifecycle l' = lifecycle l ∧ cooling l' = cooling l ∧
  item_cooling l' = item_cooling l ∧ merge_barrier l' = merge_barrier l ∧
  last_reconciliation l' = last_reconciliation l ∧ authority_amendments l' = authority_amendments l ∧
  reconciliation_sequence l' = reconciliation_sequence l ∧ l_run_id l' = l_run_id l.
Proof. unfold normalizeRecoveryLedgerCompatibility. by destruct (recovery_attempts l). Qed.

Lemma rebaseCursor_cases b n : rebaseCursor b n = n ∨ rebaseCursor b n = with_strategy_cursor n 3.
Proof. unfold rebaseCursor. repeat case_match; auto. Qed.

Lemma rebaseCursor_idem b n : rebaseCursor b (rebaseCursor b n) = rebaseCursor b n.
Proof.
  unfold rebaseCursor at 2 3. destruct (negb b || _) eqn:E; [unfold rebaseCursor; by rewrite E|].
  destruct (strategy_cursor n) as [c|] eqn:Ec; [destruct (c <? 3)%Z eqn:Hc|];
    unfold rebaseCursor; simpl; rewrite ?E, ?Ec, ?Hc; done.
Qed.

(** Whether an attempt still lacks its derived identity does not depend on its
    cursor. *)
Lemma started_with_cursor n c :
  normalizeStartedRecoveryEpisodeIdentity sha256hex n = n →
  normalizeStartedRecoveryEpisodeIdentity sha256hex (with_strategy_cursor n c) = with_strategy_cursor n c.
Proof.
  unfold normalizeStartedRecoveryEpisodeIdentity. simpl. destruct (_ || _) eqn:E; [done|].
  destruct (nonBlank (att_operation n)), (nonBlank (invariant n)), (nonBlank (att_candidate_epoch n)),
    (blank (default (att_evidence_fingerprint n) (evidence_identity n))); try done.
  intros Hn. apply (f_equal episode_id) in Hn. simpl in Hn. apply orb_false_iff in E as [_ E].
  apply bool_decide_eq_false in E. destruct E. rewrite <-Hn. by eexists.
Qed.

Lemma normalizeAttempt_idem b a :
  normalizeAttempt sha256hex b (normalizeAttempt sha256hex b a) = normalizeAttempt sha256hex b a.
Proof.
  unfold normalizeAttempt. set (n := normalizeStartedRecoveryEpisodeIdentity sha256hex a).
  assert (normalizeStartedRecoveryEpisodeIdentity sha256hex n = n) as Hn by apply normalizeStarted_idemp.
  assert (normalizeStartedRecoveryEpisodeIdentity sha256hex (rebaseCursor b n) = rebaseCursor b n) as ->.
  { destruct (rebaseCursor_cases b n) as [-> | ->]; [done|by apply started_with_cursor]. }
  apply rebaseCursor_idem.
Qed.

Lemma normalize_idem policy l :
  normalizeRecoveryLedgerCompatibility sha256hex policy (normalizeRecoveryLedgerCompatibility sha256hex policy l) =
  normalizeRecoveryLedgerCompatibility sha256hex policy l.
Proof.
  unfold normalizeRecoveryLedgerCompatibility at 2 3. destruct (recovery_attempts l) as [xs|] eqn:E.
  - unfold normalizeRecoveryLedgerCompatibility. simpl. unfold with_attempts. simpl. do 2 f_equal.
    rewrite <-list_fmap_compose. apply list_fmap_ext. intros i a _. apply normalizeAttempt_idem.
  - unfold normalizeRecoveryLedgerCompatibility. by rewrite E.
Qed.

(** *** The two files of a ledger *)

(** [ledger.json] and its last-valid copy. *)
Record LedgerFiles := mkFiles {
  published : LoopLedger;
  lastValid : LoopLedger;
}.

Section Files.
Context (c : LoopContract).
#[local] Abbreviation normalize := (normalizeRecoveryLedgerCompatibility sha256hex (recovery_policy c)).

(** A published generation that fails the check is quarantined and the last valid
    one published again; without one the read ends in an owned wait. *)
Definition readGeneration (f : LedgerFiles) : option (LedgerFiles * LoopLedger) :=
  let parsed := normalize (published f) in
  if passes sha256hex c parsed then Some (f, parsed)
  else
    let restored := normalize (lastValid f) in
    if passes sha256hex c restored then Some (mkFiles restored (lastValid f), normalize restored) else None.

(** The current generation becomes the last valid one before the new one is
    published, which becomes it in turn if it passes. *)
Definition writeGeneration (f : LedgerFiles) (l : LoopLedger) : result LoopError LedgerFiles :=
  let effective := normalize l in
  let current := normalize (published f) in
  if passes sha256hex c current && quarantineWaitBlocksMutation current effective
  then throw FValidation ("quarantined generation wait requires live reconciliation before mutation; evidence=" +:+
                          default "missing" (cooling current ≫= cool_quarantine_path))
  else
    let valid := if passes sha256hex c current then current else lastValid f in
    Ok (mkFiles effective (if passes sha256hex c effective then effective else valid)).
End Files.

(** The files stand for the store: a read gives its ledger, which passes. *)
Definition StandsFor (f : LedgerFiles) (s : RunStore) : Prop :=
  passes sha256hex (run_contract s) (readLedger sha256hex s) = true ∧
  readLedger sha256hex s =
    normalizeRecoveryLedgerCompatibility sha256hex (recovery_policy (run_contract s))
      (if passes sha256hex (run_contract s)
            (normalizeRecoveryLedgerCompatibility sha256hex (recovery_policy (run_contract s)) (published f))
       then published f else lastValid f).

Lemma read_stands f s :
  StandsFor f s → ∃ f', readGeneration (run_contract s) f = Some (f', readLedger sha256hex s) ∧ StandsFor f' s ∧
    passes sha256hex (run_contract s) (normalizeRecoveryLedgerCompatibility sha256hex (recovery_policy (run_contract s)) (published f')) = true.
Proof.
  intros [Hp Hr]. unfold readGeneration, StandsFor. cbv zeta. destruct (passes _ _ (_ (published f))) eqn:E.
  - exists f. rewrite E, <- Hr. done.
  - exists (mkFiles (readLedger sha256hex s) (lastValid f)). cbn [published lastValid].
    assert (normalizeRecoveryLedgerCompatibility sha256hex (recovery_policy (run_contract s)) (readLedger sha256hex s) = readLedger sha256hex s) as Hi
      by apply normalize_idem.
    rewrite <- Hr, Hp, !Hi, Hp. by rewrite Hi.
Qed.

(** A write after a read does to the files what it does to the store. *)
Lemma write_stands f s r t l :
  StandsFor f s →
  passes sha256hex (run_contract s) (normalizeRecoveryLedgerCompatibility sha256hex (recovery_policy (run_contract s)) (published f)) = true →
  (∃ k, requireToken s r t = Ok k) →
  match writeGeneration (run_contract s) f l, writeLedger sha256hex s r t l with
  | Ok f', Ok s' => StandsFor f' s'
  | Err e, Err e' => e = e'
  | _, _ => False
  end.
Proof.
  intros [Hp Hr] E [k Hk]. rewrite E in Hr. unfold writeGeneration, writeLedger. cbv zeta. rewrite Hk, E. cbn [rbind andb]. rewrite <- Hr.
  destruct (quarantineWaitBlocksMutation _ _); [done|].
  destruct (passes _ _ (_ l)) eqn:El; unfold StandsFor, readLedger at 1 2; cbn [run_contract run_ledger published lastValid]; rewrite ?normalize_idem, ?El.
  - by rewrite normalize_idem.
  - assert (normalizeRecoveryLedgerCompatibility sha256hex (recovery_policy (run_contract s)) (readLedger sha256hex s) = readLedger sha256hex s) as Hi
      by apply normalize_idem.
    by rewrite Hi.
Qed.

(** *** Performing writes *)

Lemma requireToken_Ok s r t k : requireToken s r t = Ok k ↔ run_lock s = Some k ∧ lk_token k = t.
Proof.
  unfold requireToken. destruct (run_lock s) as [k'|]; [|split; [done|by intros [? _]]].
  destruct (decide (lk_token k' = t)) as [Ht|Hn]; split.
  - by intros [= <-].
  - by intros [[= ->] _].
  - done.
  - intros [[= ->] ?]. done.
Qed.

(** Whether a list of writes contains a lock release. *)
Definition isRelease (w : StoreWrite) : bool := match w with WReleaseLock => true | _ => false end.

Lemma perform_frame r t s w s' :
  perform sha256hex r t s w = Ok s' →
  (∃ k, run_lock s = Some k ∧ lk_token k = t) ∧ run_contract s' = run_contract s ∧
  lines (run_decisions s) `prefix_of` lines (run_decisions s') ∧ lines (run_events s) `prefix_of` lines (run_events s') ∧
  run_lock s' = (if isRelease w then None else run_lock s) ∧
  match w with
  | WLedger l =>
      let x := normalizeRecoveryLedgerCompatibility sha256hex (recovery_policy (run_contract s)) l in
      if passes sha256hex (run_contract s) x then run_ledger s' = x ∧ run_rejected s' = run_rejected s
      else run_ledger s' = readLedger sha256hex s ∧ run_rejected s' = run_rejected s ++ [x]
  | _ => run_ledger s' = run_ledger s ∧ run_rejected s' = run_rejected s
  end.
Proof.
  destruct w; simpl; unfold writeLedger, appendEvent, appendDecision, releaseLock;
    destruct (requireToken s r t) as [k|] eqn:E; simpl; try done; apply requireToken_Ok in E; intros H;
    (split; [by exists k|]); [case_match; [done|]; destruct (passes _ _ _)|..]; injection H as <-; simpl; repeat split; try done;
    by eexists.
Qed.

(** The check looks at the run id, the attempts and the Cooling records only. *)
Lemma passes_frame c l l' :
  l_run_id l' = l_run_id l → recovery_attempts l' = recovery_attempts l → cooling l' = cooling l → item_cooling l' = item_cooling l →
  passes sha256hex c l' = passes sha256hex c l.
Proof. unfold passes, isLoopLedgerShape. by intros -> -> -> ->. Qed.

(** What a read gives goes on to pass. *)
Lemma perform_passes r t s w s' :
  perform sha256hex r t s w = Ok s' → passes sha256hex (run_contract s) (readLedger sha256hex s) = true →
  passes sha256hex (run_contract s') (readLedger sha256hex s') = true.
Proof.
  intros H Hp. apply perform_frame in H as (_ & Hc & _ & _ & _ & H). unfold readLedger. rewrite Hc. destruct w as [l| | |].
  - cbv zeta in H. destruct (passes _ _ (_ l)) eqn:E; destruct H as [-> _]; [by rewrite normalize_idem|].
    unfold readLedger. by rewrite normalize_idem.
  - by destruct H as [-> _].
  - by destruct H as [-> _].
  - by destruct H as [-> _].
Qed.

Lemma execute_passes r t s ws s' :
  execute sha256hex r t s ws = Ok s' → passes sha256hex (run_contract s) (readLedger sha256hex s) = true →
  passes sha256hex (run_contract s') (readLedger sha256hex s') = true.
Proof.
  unfold execute. revert s. induction ws as [|w ws IH]; intros s; simpl; [by intros [= <-]|].
  destruct (perform sha256hex r t s w) as [s1|] eqn:E; simpl; [|done]. intros H Hp. eapply IH; [exact H|]. by eapply perform_passes.
Qed.

Lemma execute_frame r t s ws s' :
  execute sha256hex r t s ws = Ok s' →
  run_contract s' = run_contract s ∧ lines (run_decisions s) `prefix_of` lines (run_decisions s') ∧
  lines (run_events s) `prefix_of` lines (run_events s').
Proof.
  unfold execute. revert s. induction ws as [|w ws IH]; intros s; simpl; [by intros [= <-]|].
  destruct (perform sha256hex r t s w) as [s1|] eqn:E; simpl; [|done]. intros H.
  apply perform_frame in E as (_ & Hc & Hd & He & _). destruct (IH _ H) as (Hc' & Hd' & He').
  split; [congruence|]. split; by etrans.
Qed.

(** Nothing is written under a token that is not the current holder's. *)
Lemma execute_needs_token r t s ws s' :
  ws ≠ [] → execute sha256hex r t s ws = Ok s' → ∃ k, run_lock s = Some k ∧ lk_token k = t.
Proof.
  destruct ws as [|w ws]; [done|]. intros _. unfold execute. simpl.
  destruct (perform sha256hex r t s w) as [s1|] eqn:E; simpl; [|done]. intros _. by apply perform_frame in E as [? _].
Qed.

(** The ledger only changes where a ledger write is reached. *)
Lemma execute_no_ledger r t s ws s' :
  (∀ w, w ∈ ws → match w with WLedger _ => False | _ => True end) → execute sha256hex r t s ws = Ok s' →
  run_ledger s' = run_ledger s.
Proof.
  unfold execute. revert s. induction ws as [|w ws IH]; intros s Hws; simpl; [by intros [= <-]|].
  destruct (perform sha256hex r t s w) as [s1|] eqn:E; simpl; [|done]. intros H.
  rewrite (IH s1); [|intros w' Hw'; apply Hws; by right|done].
  pose proof (Hws w ltac:(by left)) as Hw. apply perform_frame in E as (_ & _ & _ & _ & _ & E). destruct w; [done|by destruct E as [? _]..].
Qed.

(** A decision that is written first is on record wherever the handler stops. *)
Lemma decision_first r t s t0 d ws k s' :
  execute sha256hex r t s (take (S k) (WDecision t0 d :: ws)) = Ok s' →
  d ∈ log_data <$> drop (length (lines (run_decisions s))) (lines (run_decisions s')).
Proof.
  unfold execute. simpl. unfold appendDecision. destruct (requireToken s r t) as [k'|]; simpl; [|done]. intros H.
  apply execute_frame in H as (_ & [rest Hd] & _). simpl in Hd. rewrite Hd, <-app_assoc, drop_app_length.
  simpl. left.
Qed.

(** Every run of writes without a release can be carried out under the token,
    unless a quarantined generation refuses the mutation. *)
Lemma execute_live r t s ws k :
  run_lock s = Some k → lk_token k = t →
  isQuarantineOwnedWait (run_ledger s) = false →
  (∀ w, w ∈ ws → isRelease w = false ∧ match w with WLedger l => isQuarantineOwnedWait l = false | _ => True end) →
  ∃ s', execute sha256hex r t s ws = Ok s'.
Proof.
  intros Hk Ht. revert s Hk. induction ws as [|w ws IH]; intros s Hk Hq Hws; [by eexists|].
  destruct (Hws w) as [Hr Hw]; [by left|]. assert (requireToken s r t = Ok k) as Htok by by apply requireToken_Ok.
  assert (∀ l, isQuarantineOwnedWait (normalizeRecoveryLedgerCompatibility sha256hex (recovery_policy (run_contract s)) l) =
               isQuarantineOwnedWait l) as Hnq.
  { intros l. unfold isQuarantineOwnedWait. pose proof (normalize_frame (recovery_policy (run_contract s)) l) as Hf.
    simpl in Hf. destruct Hf as (_ & _ & _ & -> & _ & _ & -> & _). done. }
  assert (∃ s1, perform sha256hex r t s w = Ok s1 ∧ run_lock s1 = Some k ∧ isQuarantineOwnedWait (run_ledger s1) = false)
    as (s1 & Hs1 & Hk1 & Hq1).
  { destruct w; simpl in *; [|by unfold appendEvent, appendDecision; rewrite Htok; simpl; eauto..|done].
    unfold writeLedger, readLedger. rewrite Htok. simpl. unfold quarantineWaitBlocksMutation. rewrite Hnq, Hq. simpl.
    destruct (passes _ _ _); (eexists; split; [done|]; simpl; by rewrite Hnq). }
  unfold execute. simpl. rewrite Hs1. simpl. apply (IH s1); [done..|]. intros w' Hw'. apply Hws. by right.
Qed.
End StoreFacts.

(** ** The recovery handlers through the store *)

Section Handlers.
Context (sha256hex fingerprintEvidence : string → string) {dates : IsoDates} (mint : string) (isoAfter : string → jsnum → string)
  (showNum : jsnum → string) (c : LoopContract).
#[local] Abbreviation normalize := (normalizeRecoveryLedgerCompatibility sha256hex (recovery_policy c)).

Lemma normalize_keeps l : Keeps l (normalize l).
Proof.
  pose proof (normalize_frame sha256hex (recovery_policy c) l) as Hf. cbv zeta in Hf. destruct Hf as (Hi & Hs & _ & _ & _ & Hb & _).
  split; rewrite ?Hi, ?Hs, ?Hb; try done.
  - intros k e He. by exists e.
  - unfold normalizeRecoveryLedgerCompatibility, attemptsOf. destruct (recovery_attempts l) as [xs|] eqn:E; simpl; [|by rewrite E].
    apply grows_fmap. intros a. unfold normalizeAttempt. etrans; [apply normalizeStarted_same|].
    destruct (rebaseCursor_cases (rebasesLegacyCursor (recovery_policy c)) (normalizeStartedRecoveryEpisodeIdentity sha256hex a)) as [-> | ->]; [done|].
    by split; auto.
Qed.

(** What a read gives once [x] was written over [l]. *)
Definition reread (l x : LoopLedger) : LoopLedger := if passes sha256hex c (normalize x) then normalize x else l.

Lemma reread_keeps l x : Keeps l x → Keeps l (reread l x).
Proof. intros H. unfold reread. destruct (passes _ _ _); [|done]. etrans; [exact H|apply normalize_keeps]. Qed.

(** One recovery operation, from what a read gives to what the next one gives. *)
Inductive stored_step (l : LoopLedger) : LoopLedger → Prop :=
| step_handler x : handler_step sha256hex fingerprintEvidence mint isoAfter showNum c l x → stored_step l (reread l x)
| step_wrapper i t1 t2 t3 eff :
    recoverItem sha256hex mint isoAfter showNum (reread l) c l i t1 t2 t3 = Ok eff → stored_step l (reread l (eff_ledger eff)).

Lemma stored_keeps l l' : rtc stored_step l l' → Keeps l l' ∧ (passes sha256hex c l = true → passes sha256hex c l' = true).
Proof.
  induction 1 as [l|l1 l2 l3 H _ [IH1 IH2]]; [done|].
  assert (∃ x, l2 = reread l1 x ∧ Keeps l1 x) as (x & -> & Hx).
  { destruct H as [x H|i t1 t2 t3 eff H]; eexists; (split; [done|]); [by eapply step_keeps|eapply recover_keeps; [|exact H]; apply reread_keeps]. }
  split; [etrans; [by apply reread_keeps|exact IH1]|]. intros Hp. apply IH2. unfold reread. by destruct (passes _ _ (normalize x)) eqn:E.
Qed.
End Handlers.

(** ** Properties *)

(** C3. Whatever sequence of recovery operations runs, in any order and by any
    engine, each from what a read of the store gives, where a generation that
    fails the store's check was replaced by the one before: no item appears or
    disappears, an item's state only moves between running and blocked and
    exactly along the history lines appended, its verified identity stays, the
    first stop record is never overwritten, no attempt that a read once gave is
    lost, re-identified or completed twice, and what a read gives goes on to pass
    the check. *)
Theorem handlers_preserve sha fp {dates : IsoDates} mint iso show c l l' :
  LedgerWF l → rtc (stored_step sha fp mint iso show c) l l' →
  LedgerWF l' ∧ okeys (items l') = okeys (items l) ∧ merge_barrier l' = merge_barrier l ∧
  (∀ k e, oget (items l) k = Some e → ∃ e', oget (items l') k = Some e' ∧ entry_moves e e') ∧
  (∀ s, stop l = Some s → stop l' = Some s) ∧ grows (attemptsOf l) (attemptsOf l') ∧
  (passes sha c l = true → passes sha c l' = true).
Proof.
  intros Hwf H. apply stored_keeps in H as [H Hp]. split; [by eapply Keeps_wf|]. destruct H. by repeat split.
Qed.

(** C20. The two generations on disk refine the store of the model: a read of the
    published file and the last valid one, which sets a published generation
    that fails the check aside and publishes the last valid one again, gives the
    ledger of the store they stand for and leaves files that stand for it; and a
    write by the holder of the lock does to the files what it does to the store,
    its refusals included. *)
Theorem generations_refine sha {dates : IsoDates} f s r t l :
  StandsFor sha f s → (∃ k, requireToken s r t = Ok k) →
  ∃ f', readGeneration sha (run_contract s) f = Some (f', readLedger sha s) ∧ StandsFor sha f' s ∧
    match writeGeneration sha (run_contract s) f' l, writeLedger sha s r t l with
    | Ok f'', Ok s' => StandsFor sha f'' s'
    | Err e, Err e' => e = e'
    | _, _ => False
    end.
Proof. intros Hf Hk. destruct (read_stands _ _ _ Hf) as (f' & H1 & H2 & H3). exists f'. split; [done|]. split; [done|]. by apply write_stands. Qed.

(** The cached numbering is per process: a process that appends again after
    another one held the lock repeats a number. *)
Theorem stale_cache_repeats_a_sequence_number :
  ∃ a1 a2 b1 : Log string,
    a1 = appendLog (mkLogFile [] None) "t0" "first" ∧
    b1 = appendLog (mkLogFile (lines a1) None) "t1" "other process" ∧
    a2 = appendLog (mkLogFile (lines b1) (nextSeqCache a1)) "t2" "first again" ∧
    log_seq <$> lines a2 = [0; 1; 1].
Proof. by do 3 eexists. Qed.

(** ** Witnesses *)

Module StoreSample.
#[export] Instance dates : IsoDates := fun _ => true.
Definition step : LoopLedger → LoopLedger → Prop :=
  stored_step (fun s => s) (fun s => s) "lop-1" (fun t _ => t) (fun _ => "n") FrontierSample.contract.
Definition claimOn (l : LoopLedger) (i : StartRecoveryAttemptInput) : LoopLedger :=
  match HandlerSample.runClaim l i with Ok eff => eff_ledger eff | Err _ => l end.
Definition spent : LoopLedger := HandlerSample.spentLedger.
Definition refused : LoopLedger := claimOn spent (HandlerSample.nth "4").
Definition after : LoopLedger := reread (fun s => s) FrontierSample.contract spent refused.

Lemma claim_stored l i :
  match HandlerSample.runClaim l i with Ok _ => true | Err _ => false end = true →
  rtc step l (reread (fun s => s) FrontierSample.contract l (claimOn l i)).
Proof.
  intros H. apply rtc_once. unfold claimOn. destruct (HandlerSample.runClaim l i) as [eff|] eqn:E; [|done].
  apply step_handler. by eapply step_start.
Qed.

(** The [exhausted] row of a refused claim is gone at the next read. *)
Example refused_claim_rolled_back :
  passes (fun s => s) FrontierSample.contract spent = true ∧ length (attemptsOf refused) = 4 ∧
  passes (fun s => s) FrontierSample.contract refused = false ∧ length (attemptsOf after) = 3.
Proof. by vm_compute. Qed.

Definition lock : LoopLockRecord := mkLock Claude 41 "host" "t0" "tok" "run" None.
Definition store : RunStore := mkRun FrontierSample.contract spent (Some lock) (mkLogFile [] None) (mkLogFile [] None) [refused].
Definition files : LedgerFiles := mkFiles refused spent.
End StoreSample.
#[local] Existing Instance StoreSample.dates.

Lemma handlers_preserve_witness :
  passes (fun s => s) FrontierSample.contract StoreSample.refused = false ∧
  grows (attemptsOf StoreSample.spent) (attemptsOf StoreSample.after) ∧ passes (fun s => s) FrontierSample.contract StoreSample.after = true.
Proof.
  assert (rtc StoreSample.step StoreSample.spent StoreSample.after) as H.
  { apply (StoreSample.claim_stored StoreSample.spent (HandlerSample.nth "4")). vm_cast_no_check (eq_refl true). }
  assert (LedgerWF StoreSample.spent) as Hwf by (apply LedgerWF_check; [by apply (bool_decide_unpack _); vm_compute|by vm_compute]).
  pose proof (handlers_preserve (fun s => s) (fun s => s) "lop-1" (fun t _ => t) (fun _ => "n") FrontierSample.contract
    StoreSample.spent StoreSample.after Hwf H) as (_ & _ & _ & _ & _ & Hg & Hp).
  split; [vm_cast_no_check (eq_refl false)|]. split; [exact Hg|]. apply Hp. vm_cast_no_check (eq_refl true).
Defined.

(** The refused claim is on disk; the read publishes the generation before it. *)
Lemma generations_refine_witness :
  ∃ f', readGeneration (fun s => s) FrontierSample.contract StoreSample.files = Some (f', readLedger (fun s => s) StoreSample.store).
Proof.
  destruct (generations_refine (fun s => s) StoreSample.files StoreSample.store "run" "tok" StoreSample.spent) as (f' & H & _).
  - split; by vm_compute.
  - exists StoreSample.lock. by vm_compute.
  - exists f'. exact H.
Defined.
