(* ===== verification/Locks.v ===== *)
(** * The lock under concurrency

    [core/scripts/loop/store.ts] again, one level lower: the lock file as
    several processes see it.  Acquisition is an exclusive create; release and
    recovery read a record and then remove it with [removeFileIfMatches], whose
    contract is an atomic compare-and-delete and whose implementation renames
    the file away, reads what it took and links a foreign record back.  The
    contract is a step relation, the implementation a finer one; the theorems
    say what the contract guarantees, when the implementation meets it and
    where it does not. *)

From Stdlib Require Import ZArith.
From stdpp Require Import numbers base gmap strings list relations.
From S2P Require Import Prelude LoopTypes Store.
Local Open Scope nat_scope.

(** ** Processes *)

(** What a process is doing with the lock file. *)
Inductive LockProc :=
| LockIdle
(** It read [expected] and is about to remove it. *)
| LockRemoving (expected : LoopLockRecord)
(** It renamed [claimed] away and has not settled it yet. *)
| LockClaimed (expected claimed : LoopLockRecord).

Record LockSystem := mkSystem {
  lock_file : option LoopLockRecord;
  lock_procs : gmap nat LockProc;
}.

Definition at_proc (s : LockSystem) (p : nat) (q : LockProc) : Prop := lock_procs s !! p = Some q.
Definition with_proc (s : LockSystem) (file : option LoopLockRecord) (p : nat) (q : LockProc) : LockSystem :=
  mkSystem file (<[p := q]> (lock_procs s)).

(** [createFileExclusive]: the created file, or nothing when one exists. *)
Definition createFileExclusive (file : option LoopLockRecord) (r : LoopLockRecord) : option (option LoopLockRecord) :=
  match file with None => Some (Some r) | Some _ => None end.

(** [fs.promises.rename(p, claim)]: [None] on [ENOENT]. *)
Definition renameAway (file : option LoopLockRecord) : option (option LoopLockRecord * LoopLockRecord) :=
  match file with Some r => Some (None, r) | None => None end.

(** What follows the read of the claim: the file, and whether it was removed.
    The records are compared as the text they were written as. *)
Definition settleClaim (file : option LoopLockRecord) (expected claimed : LoopLockRecord) : option LoopLockRecord * bool :=
  if decide (claimed = expected) then (file, true)
  else (match file with None => Some claimed | Some y => Some y end, false).

(** The steps both levels share. *)
Inductive lock_acquires (s : LockSystem) : LockSystem → Prop :=
| lock_acquire p r file :
    at_proc s p LockIdle → createFileExclusive (lock_file s) r = Some file → lock_acquires s (with_proc s file p LockIdle).

Inductive lock_common (s : LockSystem) : LockSystem → Prop :=
| common_acquire s' : lock_acquires s s' → lock_common s s'
| common_observe p r :
    at_proc s p LockIdle → lock_file s = Some r → lock_common s (with_proc s (lock_file s) p (LockRemoving r)).

(** The contract: the removal compares and deletes at once; it may also report
    that the record was superseded, and then leaves the file alone. *)
Inductive lock_spec_step (s : LockSystem) : LockSystem → Prop :=
| spec_common s' : lock_common s s' → lock_spec_step s s'
| spec_removed p e :
    at_proc s p (LockRemoving e) → lock_file s = Some e → lock_spec_step s (with_proc s None p LockIdle)
| spec_superseded p e :
    at_proc s p (LockRemoving e) → lock_spec_step s (with_proc s (lock_file s) p LockIdle).

(** The implementation. *)
Inductive lock_step (s : LockSystem) : LockSystem → Prop :=
| impl_common s' : lock_common s s' → lock_step s s'
| impl_missing p e :
    at_proc s p (LockRemoving e) → renameAway (lock_file s) = None → lock_step s (with_proc s (lock_file s) p LockIdle)
| impl_rename p e file x :
    at_proc s p (LockRemoving e) → renameAway (lock_file s) = Some (file, x) →
    lock_step s (with_proc s file p (LockClaimed e x))
| impl_settle p e x file b :
    at_proc s p (LockClaimed e x) → settleClaim (lock_file s) e x = (file, b) → lock_step s (with_proc s file p LockIdle).

(** A process holds a record that is not the one it meant to remove. *)
Definition foreignClaim (s : LockSystem) (p : nat) (x : LoopLockRecord) : Prop :=
  ∃ e, at_proc s p (LockClaimed e x) ∧ x ≠ e.

(** A step that acquires nothing while a foreign record is off the disk. *)
Definition quiet_step (s s' : LockSystem) : Prop :=
  lock_step s s' ∧ (lock_acquires s s' → ∀ p x, ¬ foreignClaim s p x).

(** ** The implementation against the contract *)

Definition absProc (q : LockProc) : LockProc :=
  match q with
  | LockClaimed e x => if decide (x = e) then LockIdle else LockRemoving e
  | q => q
  end.

(** The contract's state behind an implementation state: a foreign record that
    was renamed away is still the lock. *)
Record lock_abs (s a : LockSystem) : Prop := {
  la_procs : lock_procs a = absProc <$> lock_procs s;
  la_file : (lock_file a = lock_file s ∧ ∀ p x, ¬ foreignClaim s p x) ∨
            (lock_file s = None ∧ ∃ p x, foreignClaim s p x ∧ lock_file a = Some x ∧ ∀ q y, foreignClaim s q y → q = p);
}.

Lemma abs_at s a p q : lock_abs s a → at_proc s p q → at_proc a p (absProc q).
Proof. intros [Hp _] H. unfold at_proc in *. by rewrite Hp, lookup_fmap, H. Qed.

Lemma abs_procs s a p q file file' :
  lock_abs s a → lock_procs (with_proc a file p (absProc q)) = absProc <$> lock_procs (with_proc s file' p q).
Proof. intros [Hp _]. simpl. by rewrite Hp, fmap_insert. Qed.

(** Foreign claims after one process moved. *)
Lemma foreign_with s file p q r y :
  foreignClaim (with_proc s file p q) r y ↔
  (r = p ∧ ∃ e, q = LockClaimed e y ∧ y ≠ e) ∨ (r ≠ p ∧ foreignClaim s r y).
Proof.
  unfold foreignClaim, at_proc. simpl. destruct (decide (r = p)) as [->|Hne].
  - setoid_rewrite lookup_insert_eq. naive_solver.
  - setoid_rewrite lookup_insert_ne; [|done]. naive_solver.
Qed.

Lemma foreign_with_idle s file p q r y :
  (∀ e, q ≠ LockClaimed e y) → foreignClaim (with_proc s file p q) r y → foreignClaim s r y ∧ r ≠ p.
Proof. intros Hq. rewrite foreign_with. intros [(_ & e & -> & _)|[? ?]]; [by destruct (Hq e)|done]. Qed.

(** A process that moves between idle and removing leaves the claims alone. *)
Lemma abs_plain s a p q0 q file file' :
  lock_abs s a → at_proc s p q0 → (∀ e x, q0 ≠ LockClaimed e x) → (∀ e x, q ≠ LockClaimed e x) →
  (lock_file s = file' ∧ lock_file a = file ∨ (∀ r y, ¬ foreignClaim s r y) ∧ file = file') →
  lock_abs (with_proc s file' p q) (with_proc a file p (absProc q)).
Proof.
  intros Ha Hq0 Hn0 Hn Hf. split; [by apply abs_procs|].
  assert (∀ r y, foreignClaim (with_proc s file' p q) r y ↔ foreignClaim s r y) as Hsame.
  { intros r y. rewrite foreign_with. split.
    - intros [(-> & e & Hx & _)|[_ ?]]; [by destruct (Hn e y)|done].
    - intros Hx. right. split; [|done]. intros ->. destruct Hx as (e & Hx & _). unfold at_proc in *. rewrite Hq0 in Hx.
      injection Hx as Hx. by destruct (Hn0 e y). }
  destruct Hf as [[Hfs Hfa]|[Hno ->]].
  - destruct (la_file _ _ Ha) as [[Heq Hno]|(Hnone & r & y & Hfc & Hay & Hu)].
    + left. simpl. split; [congruence|]. intros r y. rewrite Hsame. apply Hno.
    + right. simpl. split; [congruence|]. exists r, y. rewrite Hsame. split; [done|]. split; [congruence|].
      intros r' y'. rewrite Hsame. apply Hu.
  - left. split; [done|]. intros r y. rewrite Hsame. apply Hno.
Qed.

(** The contract does the same in at most one step. *)
Definition simulated (s' a : LockSystem) : Prop := ∃ a', (a' = a ∨ lock_spec_step a a') ∧ lock_abs s' a'.

(** The rename is the removal when the record is the expected one, and nothing
    yet otherwise. *)
Lemma rename_simulates s a p e file x :
  lock_abs s a → at_proc s p (LockRemoving e) → renameAway (lock_file s) = Some (file, x) →
  simulated (with_proc s file p (LockClaimed e x)) a.
Proof.
  intros Ha Hp Hr.
  unfold renameAway in Hr. destruct (lock_file s) as [y|] eqn:Hf; [|done]. injection Hr as <- <-.
  destruct (la_file _ _ Ha) as [[Heq Hno]|(Hn & _)]; [|congruence]. destruct (decide (y = e)) as [->|Hne].
  - exists (with_proc a None p LockIdle). split.
    + right. apply spec_removed with e; [exact (abs_at _ _ _ _ Ha Hp)|congruence].
    + split.
      { pose proof (abs_procs s a p (LockClaimed e e) None None Ha) as Hx. simpl in *. by rewrite decide_True in Hx. }
      left. split; [done|]. intros q y. rewrite foreign_with. intros [(_ & e' & [= <- <-] & ?)|[_ Hx]]; [done|by destruct (Hno q y)].
  - exists a. split; [by left|]. split.
    + simpl. rewrite fmap_insert. simpl. rewrite decide_False by done.
      rewrite insert_id; [apply (la_procs _ _ Ha)|]. by rewrite lookup_fmap, Hp.
    + right. split; [done|]. exists p, y. rewrite foreign_with. split; [left; by eauto|]. split; [congruence|].
      intros q z. rewrite foreign_with. intros [[? _]|[_ Hx]]; [done|by destruct (Hno q z)].
Qed.

(** Settling finishes a removal, or puts the foreign record back. *)
Lemma settle_simulates s a p e x file b :
  lock_abs s a → at_proc s p (LockClaimed e x) → settleClaim (lock_file s) e x = (file, b) →
  simulated (with_proc s file p LockIdle) a.
Proof.
  intros Ha Hp Hr.
  unfold settleClaim in Hr. destruct (decide (x = e)) as [->|Hne]; injection Hr as <- <-.
  - exists a. split; [by left|].
    assert (∀ r y, foreignClaim (with_proc s (lock_file s) p LockIdle) r y ↔ foreignClaim s r y) as Hsame.
    { intros r y. rewrite foreign_with. split; [intros [(_ & ? & ? & _)|[_ ?]]; done|]. intros Hx. right. split; [|done].
      intros ->. destruct Hx as (e' & Hx & ?). unfold at_proc in *. rewrite Hp in Hx. by injection Hx as <- <-. }
    split; [|destruct (la_file _ _ Ha) as [[? Hno]|(? & q & y & ? & ? & Hu)]; [left|right]].
    + simpl. rewrite fmap_insert. simpl. rewrite insert_id; [apply (la_procs _ _ Ha)|].
      rewrite lookup_fmap, Hp. simpl. by rewrite decide_True.
    + split; [done|]. intros r y. rewrite Hsame. apply Hno.
    + split; [done|]. exists q, y. rewrite Hsame. split; [done|]. split; [done|]. intros r z. rewrite Hsame. apply Hu.
  - assert (foreignClaim s p x) as Hfc by by exists e.
    destruct (la_file _ _ Ha) as [[_ Hno]|(Hn & q & y & Hfq & Hay & Hu)]; [by destruct (Hno p x)|].
    assert (q = p) as -> by (symmetry; by eapply Hu). destruct Hfq as (e' & Hq' & _). unfold at_proc in *. rewrite Hp in Hq'.
    injection Hq' as <- <-. rewrite Hn. exists (with_proc a (lock_file a) p LockIdle). split.
    + right. apply spec_superseded with e. pose proof (abs_at _ _ _ _ Ha Hp) as Hx. simpl in Hx. by rewrite decide_False in Hx.
    + split; [by apply (abs_procs s a p LockIdle)|]. left. simpl. split; [congruence|]. intros r z. rewrite foreign_with.
      intros [(_ & ? & ? & _)|[Hr Hz]]; [done|]. apply Hr. by eapply Hu.
Qed.

(** One quiet step is at most one step of the contract. *)
Lemma quiet_simulates s s' a :
  quiet_step s s' → lock_abs s a → simulated s' a.
Proof.
  intros [H Hq] Ha. destruct H as [s' H|p e Hp Hr|p e file x Hp Hr|p e x file b Hp Hr].
  - destruct H as [s' Hacq|p r Hp Hr].
    + pose proof (Hq Hacq) as Hno. destruct Hacq as [p r file Hp Hc].
      assert (lock_file a = lock_file s) as Heq by (destruct (la_file _ _ Ha) as [[? _]|(_ & q & y & ? & _)]; [done|by destruct (Hno q y)]).
      exists (with_proc a file p LockIdle). split.
      * right. apply spec_common, common_acquire. apply lock_acquire with r; [exact (abs_at _ _ _ _ Ha Hp)|by rewrite Heq].
      * by apply (abs_plain s a p LockIdle LockIdle file file Ha Hp); [done|done|right].
    + assert (lock_file a = lock_file s) as Heq by (destruct (la_file _ _ Ha) as [[? _]|(Hn & _)]; [done|congruence]).
      exists (with_proc a (lock_file a) p (LockRemoving r)). split.
      * right. apply spec_common. apply common_observe; [exact (abs_at _ _ _ _ Ha Hp)|congruence].
      * by apply (abs_plain s a p LockIdle (LockRemoving r) _ _ Ha Hp); [done|done|left].
  - exists (with_proc a (lock_file a) p LockIdle). split.
    + right. apply spec_superseded with e. exact (abs_at _ _ _ _ Ha Hp).
    + by apply (abs_plain s a p (LockRemoving e) LockIdle _ _ Ha Hp); [done|done|left].
  - by eapply rename_simulates.
  - by eapply settle_simulates.
Qed.

(** The record that is the lock: the file, or a foreign record on its way back. *)
Definition holds (s : LockSystem) (r : LoopLockRecord) : Prop := lock_file s = Some r ∨ ∃ p, foreignClaim s p r.

Lemma abs_holds s a r : lock_abs s a → holds s r ↔ lock_file a = Some r.
Proof.
  intros [_ [[-> Hno]|(Hn & p & x & Hf & -> & Hu)]]; unfold holds.
  - split; [intros [?|[p Hx]]; [done|by destruct (Hno p r)]|by left].
  - rewrite Hn. split.
    + intros [?|[q Hq]]; [done|]. assert (q = p) as -> by by eapply Hu. destruct Hf as (e & Hf & _), Hq as (e' & Hq & _).
      unfold at_proc in *. congruence.
    + intros [= ->]. right. eauto.
Qed.

Definition allIdle (s : LockSystem) : Prop := ∀ p q, at_proc s p q → q = LockIdle.

Lemma abs_start s : allIdle s → lock_abs s s.
Proof.
  intros H. split.
  - apply map_eq. intros p. rewrite lookup_fmap. destruct (lock_procs s !! p) as [q|] eqn:E; [|done]. simpl.
    by rewrite (H p q E).
  - left. split; [done|]. intros p x (e & Hx & _). by apply H in Hx.
Qed.

Lemma quiet_run s s' a : rtc quiet_step s s' → lock_abs s a → ∃ a', rtc lock_spec_step a a' ∧ lock_abs s' a'.
Proof.
  intros H. revert a. induction H as [s|s1 s2 s3 H _ IH]; intros a Ha; [by exists a|].
  destruct (quiet_simulates _ _ _ H Ha) as (a1 & H1 & Ha1). destruct (IH a1 Ha1) as (a2 & H2 & Ha2).
  exists a2. split; [|done]. destruct H1 as [->|H1]; [done|by eapply rtc_l].
Qed.

(** The process read [r] and is removing it. *)
Definition removes (s : LockSystem) (p : nat) (r : LoopLockRecord) : Prop :=
  at_proc s p (LockRemoving r) ∨ ∃ x, at_proc s p (LockClaimed r x).

Lemma abs_removes s a p r : lock_abs s a → at_proc a p (LockRemoving r) → removes s p r.
Proof.
  intros [Hp _] H. unfold at_proc in H. rewrite Hp, lookup_fmap in H. apply fmap_Some in H as (q & Hq & Hr).
  destruct q as [|e|e x]; simpl in Hr; [done|injection Hr as <-; by left|]. case_decide; [done|]. injection Hr as <-. right. by exists x.
Qed.

(** What the contract does to the lock in one step. *)
Lemma spec_keeps a a' r :
  lock_spec_step a a' → lock_file a = Some r → lock_file a' = Some r ∨ ∃ p, at_proc a p (LockRemoving r).
Proof.
  intros [s' [s0 [p x file Hp Hc]|p x Hp Hx]|p e Hp He|p e Hp] Hr; simpl; eauto.
  - rewrite Hr in Hc. done.
  - right. exists p. congruence.
Qed.

(** ** Properties *)

(** C19. As long as nobody acquires while a removal holds a record that is not
    the one it read, the file protocol is the atomic compare-and-delete its
    callers rely on: every reachable state is a state of the contract, there is
    at most one holder, and a holder keeps the lock through any step unless some
    process read that very record and is removing it.  A recovery that judged an
    older record stale cannot take a newer holder's lock. *)
Theorem lock_refines_contract s0 s :
  allIdle s0 → rtc quiet_step s0 s →
  (∃ a, rtc lock_spec_step s0 a ∧ lock_abs s a ∧ ∀ r, holds s r ↔ lock_file a = Some r) ∧
  (∀ r r', holds s r → holds s r' → r = r') ∧
  (∀ s' r, quiet_step s s' → holds s r → holds s' r ∨ ∃ p, removes s p r).
Proof.
  intros Hi H. destruct (quiet_run _ _ s0 H (abs_start _ Hi)) as (a & Hr & Ha). pose proof (abs_holds s a) as Hh.
  split; [exists a; split; [done|]; split; [done|]; intros r; by apply Hh|]. split.
  - intros r r' H1 H2. apply (Hh _ Ha) in H1, H2. congruence.
  - intros s' r Hq Hhr. apply (Hh r Ha) in Hhr. destruct (quiet_simulates _ _ _ Hq Ha) as (a' & Hs & Ha').
    rewrite (abs_holds s' a' r Ha'). destruct Hs as [->|Hs]; [by left|].
    destruct (spec_keeps _ _ _ Hs Hhr) as [?|[p Hp]]; [by left|]. right. exists p. by eapply abs_removes.
Qed.

Module LockSample.
Definition record (pid : Z) (token : string) : LoopLockRecord := mkLock Claude pid "host" "t" token "run" None.
Definition dead : LoopLockRecord := record 1 "dead".
Definition newer : LoopLockRecord := record 2 "newer".
Definition newest : LoopLockRecord := record 3 "newest".
Definition procs (qs : list LockProc) : gmap nat LockProc := list_to_map (imap pair qs).
Definition sys (file : option LoopLockRecord) (qs : list LockProc) : LockSystem := mkSystem file (procs qs).

(** Two recoveries read the dead holder's record; the first removes it, a third
    process acquires, and the second recovery renames that record away. *)
Definition start : LockSystem := sys (Some dead) [LockIdle; LockIdle; LockIdle].
Definition acquired : LockSystem := sys (Some newer) [LockRemoving dead; LockIdle; LockIdle].
Definition renamed : LockSystem := sys None [LockClaimed dead newer; LockIdle; LockIdle].
Definition raced : LockSystem := sys (Some newest) [LockClaimed dead newer; LockIdle; LockIdle].
Definition settled : LockSystem := sys (Some newest) [LockIdle; LockIdle; LockIdle].

Lemma start_idle : allIdle start.
Proof.
  intros p q. unfold at_proc, start, sys, procs. simpl. rewrite !lookup_insert_Some, lookup_empty. naive_solver.
Qed.

(** The implementation step that takes [s] to [s'], checked by evaluation. *)
Lemma take_step s s' s1 : lock_step s s' → s' = s1 → lock_step s s1.
Proof. by intros ? <-. Qed.

Definition noForeign (s : LockSystem) : Prop :=
  map_Forall (fun _ q => match q with LockClaimed e x => x = e | _ => True end) (lock_procs s).
#[global] Instance noForeign_dec s : Decision (noForeign s).
Proof. unfold noForeign. apply map_Forall_dec. intros _ []; apply _. Defined.

Lemma quiet_take s s1 : lock_step s s1 → noForeign s → quiet_step s s1.
Proof. intros H Hn. split; [done|]. intros _ p x (e & He & Hne). by specialize (Hn p _ He). Qed.

Definition read1 : LockSystem := sys (Some dead) [LockRemoving dead; LockIdle; LockIdle].
Definition read2 : LockSystem := sys (Some dead) [LockRemoving dead; LockRemoving dead; LockIdle].
Definition taken : LockSystem := sys None [LockRemoving dead; LockClaimed dead dead; LockIdle].
Definition removed : LockSystem := sys None [LockRemoving dead; LockIdle; LockIdle].

Lemma until_acquired : rtc quiet_step start acquired.
Proof.
  apply rtc_l with read1.
  { apply quiet_take; [|by apply (bool_decide_unpack _); vm_compute].
    eapply take_step; [apply impl_common, (common_observe _ 0 dead); done|by vm_compute]. }
  apply rtc_l with read2.
  { apply quiet_take; [|by apply (bool_decide_unpack _); vm_compute].
    eapply take_step; [apply impl_common, (common_observe _ 1 dead); done|by vm_compute]. }
  apply rtc_l with taken.
  { apply quiet_take; [|by apply (bool_decide_unpack _); vm_compute].
    eapply take_step; [apply (impl_rename _ 1 dead None dead); done|by vm_compute]. }
  apply rtc_l with removed.
  { apply quiet_take; [|by apply (bool_decide_unpack _); vm_compute].
    eapply take_step; [apply (impl_settle _ 1 dead dead None true); by vm_compute|by vm_compute]. }
  apply rtc_once, quiet_take; [|by apply (bool_decide_unpack _); vm_compute].
  eapply take_step; [apply impl_common, common_acquire, (lock_acquire _ 2 newer (Some newer)); done|by vm_compute].
Defined.

Lemma race : lock_step acquired renamed ∧ lock_step renamed raced ∧ lock_step raced settled.
Proof.
  split; [|split].
  - eapply take_step; [apply (impl_rename _ 0 dead None newer); done|by vm_compute].
  - eapply take_step; [apply impl_common, common_acquire, (lock_acquire _ 1 newest (Some newest)); done|by vm_compute].
  - eapply take_step; [apply (impl_settle _ 0 dead newer (Some newest) false); by vm_compute|by vm_compute].
Qed.

(** No process is removing [r]. *)
Definition unread (r : LoopLockRecord) (s : LockSystem) : Prop :=
  map_Forall (fun _ q => match q with LockRemoving e | LockClaimed e _ => e ≠ r | LockIdle => True end) (lock_procs s).
#[global] Instance unread_dec r s : Decision (unread r s).
Proof. unfold unread. apply map_Forall_dec. intros _ []; apply _. Defined.

Lemma unread_removes r s p : unread r s → ¬ removes s p r.
Proof. intros H [Hp|[x Hp]]; by specialize (H p _ Hp). Qed.
End LockSample.

Lemma lock_refines_contract_witness : holds LockSample.acquired LockSample.newer ∧
  ¬ (∃ p, removes LockSample.acquired p LockSample.newer) ∧ holds LockSample.renamed LockSample.newer.
Proof.
  destruct (lock_refines_contract _ _ LockSample.start_idle LockSample.until_acquired) as (_ & _ & H).
  assert (holds LockSample.acquired LockSample.newer) as Hh by by left.
  assert (¬ (∃ p, removes LockSample.acquired p LockSample.newer)) as Hn.
  { intros [p Hp]. revert Hp. apply LockSample.unread_removes. by apply (bool_decide_unpack _); vm_compute. }
  split; [done|]. split; [done|].
  destruct (H LockSample.renamed LockSample.newer) as [?|?]; [|done|done|done].
  apply LockSample.quiet_take; [apply LockSample.race|]. by apply (bool_decide_unpack _); vm_compute.
Defined.

(** Without that proviso the protocol loses a live holder's lock: a process that
    acquires between the rename and the link takes the lock of a holder whose
    record no process ever read. *)
Theorem racing_acquire_takes_the_lock :
  rtc quiet_step LockSample.start LockSample.acquired ∧ holds LockSample.acquired LockSample.newer ∧
  lock_step LockSample.acquired LockSample.renamed ∧ lock_step LockSample.renamed LockSample.raced ∧
  lock_step LockSample.raced LockSample.settled ∧
  (∀ s p, s ∈ [LockSample.acquired; LockSample.renamed; LockSample.raced; LockSample.settled] → ¬ removes s p LockSample.newer) ∧
  ¬ holds LockSample.settled LockSample.newer.
Proof.
  split; [apply LockSample.until_acquired|]. split; [by left|]. destruct LockSample.race as (H1 & H2 & H3).
  do 3 (split; [done|]). split.
  - intros s p Hs. apply LockSample.unread_removes. rewrite !elem_of_cons, elem_of_nil in Hs.
    destruct Hs as [->|[->|[->|[->|[]]]]]; by apply (bool_decide_unpack _); vm_compute.
  - intros [H|[p (e & H & Hne)]]; [by vm_compute in H|].
    assert (LockSample.noForeign LockSample.settled) as Hn by by apply (bool_decide_unpack _); vm_compute.
    by specialize (Hn p _ H).
Qed.
