(* ===== verification/Holds.v ===== *)
(** * Holds, resumes, authority amendments and handoff

    [core/scripts/loop/pause.ts]: entering and leaving a durable hold, the
    human-input request a [waiting] item carries, the audited fail-closed
    resume, the scoped authority amendments and the cross-engine handoff.  Each
    handler reads the run's store and returns the durable writes it performs, in
    order, or the error it throws before any of them. *)

From Stdlib Require Import ZArith QArith Qcanon.
From stdpp Require Import numbers base gmap strings list pretty.
From S2P Require Import Prelude LoopTypes Ownership Lifecycle RecoveryPolicy Frontier Observation TypedRequests RecoveryEpisodes RecoveryHandlers Store.
Local Open Scope result_scope.
Local Open Scope nat_scope.

(** ** Updating a ledger *)

Definition with_amendments (l : LoopLedger) (xs : list LoopAuthorityAmendment) : LoopLedger :=
  mkLedger (l_run_id l) (items l) (merge_barrier l) (stop l) (cooling l) (item_cooling l) (lifecycle l)
    (last_reconciliation l) (recovery_attempts l) (last_native_goal_check l) (reconciliation_sequence l) (Some xs).

Definition with_goal_check (l : LoopLedger) (g : LoopNativeGoalCheck) : LoopLedger :=
  mkLedger (l_run_id l) (items l) (merge_barrier l) (stop l) (cooling l) (item_cooling l) (lifecycle l)
    (last_reconciliation l) (recovery_attempts l) (Some g) (reconciliation_sequence l) (authority_amendments l).

(** The item's new state, hold and history line. *)
Definition hold_entry (e : LoopItemLedgerEntry) (s : LoopItemState) (request : option LoopHumanInputRequest)
    (h : LoopHistoryEntry) : LoopItemLedgerEntry :=
  mkEntry (id e) s (history e ++ [h]) (blocked_theme e) (recovery_budgets_remaining e) (evidence_fingerprint e)
    (blocker_candidate_epoch e) (blocker_candidate_head e) (repeated_evidence_count e) request
    (last_verified_identity e) (current_stage e) (advance_run_id e).

Definition upgradeLedgerForPauseAuthority (l : LoopLedger) : LoopLedger :=
  match authority_amendments l with
  | Some _ => l
  | None => with_amendments l []
  end.

Definition bindHoldLifecycle (mint : string) (l : LoopLedger) (time : string) (logicalOperationId : option string)
    : LoopLedger :=
  let op := resolveLogicalOperationId (lr_logical_operation_id <$> lifecycle l) None logicalOperationId None mint in
  bindLifecycleRecord l op
    (deriveLifecycleState
       (mkDerivation [] (typed_request_name <$> typedRequestFromOwnedItems (items l))
          (stop_reason_name ∘ stop_reason <$> stop l) (bool_decide (is_Some (cooling l))) None false None false false
          true false None)) time.

(** ** The human-input request *)

(** [String(v)]; a number prints as [showNum] prints it. *)
Fixpoint js_String (showNum : jsnum → string) (v : jval) : string :=
  match v with
  | JNull => "null"
  | JBool true => "true"
  | JBool false => "false"
  | JNum n => showNum n
  | JStr s => s
  | JArr xs => join "," (map (fun x => match x with JNull => "" | _ => js_String showNum x end) xs)
  | JObj _ => "[object Object]"
  end.

Definition js_StringOf (showNum : jsnum → string) (v : option jval) : string := from_option (js_String showNum) "undefined" v.

Record TypedFields := mkTypedFields {
  tf_decision_package : option jval;
  tf_capability_request : option jval;
  tf_authority_request : option jval;
}.

(** A reason becomes a [LoopError]. *)
Definition orValidation {A} (r : result string A) : result LoopError A :=
  match r with
  | Ok a => Ok a
  | Err reason => throw FValidation reason
  end.

Definition requireCompleteTypedRequest (kind : string) (req : option jval) : result LoopError TypedFields :=
  if decide (kind = "decision") then
    try p := orValidation (validateDecisionPackage (fieldOf req "decision_package")) in
    Ok (mkTypedFields (Some (decisionJson p)) None None)
  else if decide (kind = "answer") then
    try r := orValidation (validateCapabilityRequest (fieldOf req "capability_request")) in
    Ok (mkTypedFields None (Some (capabilityJson r)) None)
  else
    try r := orValidation (validateAuthorityRequest (fieldOf req "authority_request")
               (bool_decide (is_Some (nonBlankString (fieldOf req "authority_candidate_head"))))) in
    Ok (mkTypedFields None None (Some (authorityJson r))).

(** [undefined], or a present and non-empty array of strings. *)
Definition permittedResponses (v : option jval) : result LoopError (option (list string)) :=
  match v with
  | None => Ok None
  | Some _ =>
      match nonEmptyList (stringArray v) with
      | Some xs => Ok (Some xs)
      | None => throw FValidation "a human-input request's permitted_responses, when present, must be a non-empty array of strings"
      end
  end.

(** Both evidence fields absent, or both non-blank strings. *)
Definition authorityEvidence (key head : option jval) : result LoopError (option string * option string) :=
  match key, head with
  | None, None => Ok (None, None)
  | _, _ =>
      match nonBlankString key, nonBlankString head with
      | Some k, Some h => Ok (Some k, Some h)
      | _, _ => throw FValidation "authority hold evidence requires both a non-empty evidence key and candidate head"
      end
  end.

Definition buildHumanInputRequest (showNum : jsnum → string) (uuid now itemId : string) (engine : LoopEngineName)
    (req : option jval) : result LoopError LoopHumanInputRequest :=
  if negb (isObjectValue req) then throw FValidation "a waiting transition requires a human-input request"
  else match isLoopHumanInputRequestKind (fieldOf req "kind") with
  | None => throw FValidation ("human-input request kind " +:+ quoted (js_StringOf showNum (fieldOf req "kind")) +:+
                               " is not one of " +:+ quoted "decision" +:+ ", " +:+ quoted "answer" +:+ ", " +:+
                               quoted "authority-grant")
  | Some kind =>
      match nonBlankString (fieldOf req "prompt") with
      | None => throw FValidation "a waiting transition's human-input request requires a non-empty prompt"
      | Some prompt =>
          try permitted := permittedResponses (fieldOf req "permitted_responses") in
          try fields := requireCompleteTypedRequest kind req in
          try evidence := authorityEvidence (fieldOf req "authority_evidence_key") (fieldOf req "authority_candidate_head") in
          Ok (mkHold ("req-" +:+ uuid) itemId prompt permitted engine now
                (typed_request_name <$> pauseKindToTypedRequest kind) (fieldOf req "source" ≫= asString) kind
                (tf_decision_package fields) (tf_capability_request fields) (tf_authority_request fields)
                evidence.1 evidence.2)
      end
  end.

(** ** Entering a hold *)

Section Holds.
Context (sha256hex : string → string) {dates : IsoDates} (mint : string) (showNum : jsnum → string)
        (Date_parse : string → option Z).

Definition notFound {A} (runId itemId : string) : result LoopError A :=
  throw FValidation ("item " +:+ quoted itemId +:+ " not found in run " +:+ quoted runId).

(** The lock holder must be the engine the call names. *)
Definition requireEngine (what : string) (engine : LoopEngineName) (k : LoopLockRecord) : result LoopError unit :=
  if decide (lk_engine k = engine) then Ok tt
  else throw FValidation (what +:+ " " +:+ quoted (engine_name engine) +:+
         ", which does not match the current lock holder engine " +:+ quoted (engine_name (lk_engine k))).

(** The ledger a handler starts from, and the item it names. *)
Definition openItem (s : RunStore) (runId itemId : string) : result LoopError (LoopLedger * LoopItemLedgerEntry) :=
  let l := upgradeLedgerForPauseAuthority (readLedger sha256hex s) in
  try _ := requireNotStopped l runId itemId in
  match oget (items l) itemId with
  | None => notFound runId itemId
  | Some e => Ok (l, e)
  end.

Record EnterHoldInput := mkEnter {
  eh_itemId : string;
  eh_engine : LoopEngineName;
  eh_note : option string;
  eh_logicalOperationId : option string;
}.

Definition holdEvent (to : LoopItemState) (itemId : string) (request : option LoopHumanInputRequest) : StoreEvent :=
  let r := (fun h => (request_id h, hold_kind h)) <$> request in
  if decide (to = Paused) then EvItemPaused itemId r else EvItemWaiting itemId r.

Definition enterHold (s : RunStore) (runId token : string) (i : EnterHoldInput) (to : LoopItemState)
    (request : option LoopHumanInputRequest) (time logTime : string) : result LoopError (list StoreWrite * LoopLedger) :=
  try lock := requireToken s runId token in
  try _ := requireEngine "hold transition names engine" (eh_engine i) lock in
  try (l, item) := openItem s runId (eh_itemId i) in
  if decide (state item ≠ InProgress)
  then throw FValidation ("item " +:+ quoted (eh_itemId i) +:+ " cannot transition from " +:+
         quoted (item_state_name (state item)) +:+ " to " +:+ quoted (item_state_name to) +:+
         " — only an in_progress item may enter a hold")
  else
    let held := hold_entry item to request (mkHistory time (state item) to (eh_engine i) None None (eh_note i)) in
    let next := bindHoldLifecycle mint (with_items l (oset (eh_itemId i) held (items l))) time (eh_logicalOperationId i) in
    Ok ([WLedger next; WEvent logTime (holdEvent to (eh_itemId i) request)], next).

Definition pauseItem (s : RunStore) (runId token : string) (i : EnterHoldInput) (time logTime : string) :=
  enterHold s runId token i Paused None time logTime.

(** The request is validated before any ledger read. *)
Definition waitItem (s : RunStore) (runId token : string) (i : EnterHoldInput) (req : option jval)
    (uuid requestedAt time logTime : string) : result LoopError (list StoreWrite * LoopLedger) :=
  try request := buildHumanInputRequest showNum uuid requestedAt (eh_itemId i) (eh_engine i) req in
  enterHold s runId token i Waiting (Some request) time logTime.

Definition isHeld (s : LoopItemState) : bool := match s with Paused | Waiting => true | _ => false end.

(** ** Invalidation and abandonment *)

Record InvalidateInput := mkInvalidate {
  iv_itemId : string;
  iv_engine : LoopEngineName;
  iv_actor : option string;
  iv_requestId : option string;
  iv_logicalOperationId : option string;
}.

Definition invalidateIncompleteHoldForReclassify (s : RunStore) (runId token : string) (i : InvalidateInput)
    (time logTime : string) : result LoopError (list StoreWrite * LoopLedger) :=
  try _ := requireToken s runId token in
  let l := upgradeLedgerForPauseAuthority (readLedger sha256hex s) in
  let refuse := throw FValidation ("item " +:+ quoted (iv_itemId i) +:+ " has no incomplete hold to invalidate") in
  match oget (items l) (iv_itemId i) with
  | None => refuse
  | Some item =>
      match isHeld (state item), hold_request item with
      | true, Some h =>
          let requestId := default (request_id h) (iv_requestId i) in
          let updated := hold_entry item Pending None
                (mkHistory time (state item) Pending (iv_engine i) None None
                   (Some "legacy or incomplete typed-request hold invalidated for classifier re-admission")) in
          let next := bindHoldLifecycle mint (with_items l (oset (iv_itemId i) updated (items l))) time
                        (iv_logicalOperationId i) in
          Ok ([WDecision logTime (DHoldInvalidated (iv_itemId i) (state item) requestId (default "engine" (iv_actor i)));
               WLedger next; WEvent logTime (EvHoldInvalidated (iv_itemId i) requestId)], next)
      | _, _ => refuse
      end
  end.

Record AbandonHoldInput := mkAbandon {
  ab_itemId : string;
  ab_engine : LoopEngineName;
  ab_note : option string;
}.

Definition abandonHold (s : RunStore) (runId token : string) (i : AbandonHoldInput) (time logTime : string)
    : result LoopError (list StoreWrite * LoopLedger) :=
  try lock := requireToken s runId token in
  try _ := requireEngine "abandonHold names engine" (ab_engine i) lock in
  try (l, item) := openItem s runId (ab_itemId i) in
  if negb (isHeld (state item))
  then throw FValidation ("item " +:+ quoted (ab_itemId i) +:+ " cannot transition from " +:+
         quoted (item_state_name (state item)) +:+ " to " +:+ quoted "abandoned" +:+
         " via abandonHold — only a paused or waiting item may be abandoned this way")
  else
    let gone := hold_entry item Abandoned None (mkHistory time (state item) Abandoned (ab_engine i) None None (ab_note i)) in
    let next := with_items l (oset (ab_itemId i) gone (items l)) in
    Ok ([WLedger next; WEvent logTime (EvItemAbandoned (ab_itemId i) (state item))], next).

(** ** Resume *)

Definition NATIVE_GOAL_FRESHNESS_WINDOW_SECONDS : Z := 300.

(** The fields of [LoopPipelinePreflightEvidence] that are read. *)
Record LoopPipelinePreflightEvidence := mkPreflight {
  pf_passed : bool;
  pf_checked_at : string;
}.

Definition validatePipelinePreflightEvidence (e : option LoopPipelinePreflightEvidence) : result LoopError unit :=
  match e with
  | Some p => if pf_passed p then Ok tt else throw FPipelineMandate "resume into in_progress requires evidence that the Pipeline preflight passed"
  | None => throw FPipelineMandate "resume into in_progress requires evidence that the Pipeline preflight passed"
  end.

Definition validateNativeGoalEvidence (e : option LoopNativeGoalCheck) (expectedEngine : LoopEngineName)
    (expectedRunId : string) (nowMs : Z) : result LoopError LoopNativeGoalCheck :=
  let corrective := "re-run the native bootstrap for " +:+ quoted (engine_name expectedEngine) +:+
                    " and retry with fresh evidence" in
  match e with
  | None => throw FNativeGoalMandate ("resume requires fresh native-goal evidence — " +:+ corrective)
  | Some g =>
      if decide (gc_engine g ≠ expectedEngine)
      then throw FNativeGoalMandate ("native-goal evidence names engine " +:+ quoted (engine_name (gc_engine g)) +:+
             ", expected " +:+ quoted (engine_name expectedEngine) +:+ " — " +:+ corrective)
      else if decide (gc_run_id g ≠ expectedRunId)
      then throw FNativeGoalMandate ("native-goal evidence names run " +:+ quoted (gc_run_id g) +:+ ", expected " +:+
             quoted expectedRunId +:+ " — " +:+ corrective)
      else if decide (gc_status g ≠ "active")
      then throw FNativeGoalMandate ("native-goal evidence reports status " +:+ quoted (gc_status g) +:+
             ", expected " +:+ quoted "active" +:+ " — " +:+ corrective)
      else
        let stale := throw FNativeGoalMandate ("native-goal evidence checked_at is outside the " +:+
               pretty NATIVE_GOAL_FRESHNESS_WINDOW_SECONDS +:+ "s freshness window — " +:+ corrective) in
        match Date_parse (gc_checked_at g) with
        | None => stale
        | Some t => if (NATIVE_GOAL_FRESHNESS_WINDOW_SECONDS * 1000 <? Z.abs (nowMs - t))%Z then stale else Ok g
        end
  end.

(** The response as the caller supplied it. *)
Definition validateResumeResponse (response : option jval) : result LoopError ResumeResponse :=
  match response with
  | Some (JObj _) =>
      match nonBlankString (fieldOf response "value") with
      | Some v => Ok (mkResponse (fieldOf response "request_id" ≫= asString) v)
      | None => throw FValidation "resume requires a non-empty response.value"
      end
  | _ => throw FValidation "resume requires a response object"
  end.

Record ResumeHoldInput := mkResume {
  rh_itemId : string;
  rh_engine : LoopEngineName;
  rh_actor : string;
  rh_response : option jval;
  rh_pipeline_preflight : option LoopPipelinePreflightEvidence;
  rh_native_goal : option LoopNativeGoalCheck;
  rh_note : option string;
  rh_logicalOperationId : option string;
}.

(** What the outstanding request of a waiting item makes of the response. *)
Inductive HoldAnswer :=
| AnswerAccepted
| AnswerReclassify (requestId : string).

Definition answerHold (i : ResumeHoldInput) (item : LoopItemLedgerEntry) (r : ResumeResponse) : result LoopError HoldAnswer :=
  if decide (state item ≠ Waiting) then Ok AnswerAccepted
  else match hold_request item with
  | None => throw FValidation ("item " +:+ quoted (rh_itemId i) +:+ " is waiting but carries no outstanding human-input request")
  | Some h =>
      if decide (rs_request_id r ≠ Some (request_id h))
      then throw FValidation ("resume response names request " +:+
             quoted (js_StringOf showNum (fieldOf (rh_response i) "request_id")) +:+ ", but item " +:+
             quoted (rh_itemId i) +:+ "'s outstanding request is " +:+ quoted (request_id h))
      else if negb (persistedTypedRequestComplete h) then Ok (AnswerReclassify (request_id h))
      else match permitted_responses h with
      | Some xs =>
          if includes (rs_value r) xs then Ok AnswerAccepted
          else throw FValidation ("resume response " +:+ quoted (rs_value r) +:+
                 " is not among the outstanding request's permitted responses: " +:+ join ", " xs)
      | None => Ok AnswerAccepted
      end
  end.

Definition resumeHold (s : RunStore) (runId token : string) (i : ResumeHoldInput) (nowMs : Z) (time logTime : string)
    : result LoopError (list StoreWrite * LoopLedger) :=
  try lock := requireToken s runId token in
  try _ := requireEngine "resumeHold names engine" (rh_engine i) lock in
  try (l, item) := openItem s runId (rh_itemId i) in
  if negb (isHeld (state item))
  then throw FValidation ("item " +:+ quoted (rh_itemId i) +:+ " has no active hold to resume — its state is " +:+
         quoted (item_state_name (state item)) +:+ ", not " +:+ quoted "paused" +:+ " or " +:+ quoted "waiting")
  else
    try response := validateResumeResponse (rh_response i) in
    try answer := answerHold i item response in
    match answer with
    | AnswerReclassify requestId =>
        invalidateIncompleteHoldForReclassify s runId token
          (mkInvalidate (rh_itemId i) (rh_engine i) (Some (rh_actor i)) (Some requestId) (rh_logicalOperationId i)) time logTime
    | AnswerAccepted =>
        try _ := validatePipelinePreflightEvidence (rh_pipeline_preflight i) in
        try goal := validateNativeGoalEvidence (rh_native_goal i) (rh_engine i) runId nowMs in
        let resumed := hold_entry item InProgress None
              (mkHistory time (state item) InProgress (rh_engine i) None None (rh_note i)) in
        let next := bindHoldLifecycle mint (with_goal_check (with_items l (oset (rh_itemId i) resumed (items l))) goal) time
                      (rh_logicalOperationId i) in
        Ok ([WDecision logTime (DHoldResumed (rh_itemId i) (state item) (rh_engine i) (rh_actor i) response time);
             WLedger next; WEvent logTime (EvItemResumed (rh_itemId i) (state item))], next)
    end.

(** ** Authority amendments *)

Record RecordAmendmentInput := mkRecordAmendment {
  ra_gate : option jval;
  ra_scope_item_id : option string;
  ra_actor : string;
  ra_reason : string;
}.

(** The gate an amendment names: a single, known one. *)
Definition amendmentGate (v : option jval) : result LoopError LoopAuthorityGate :=
  match v with
  | Some (JArr _) => throw FValidation "an authority amendment must name exactly one gate, not a list"
  | _ =>
      if falsy v then throw FValidation "an authority amendment must name a gate"
      else match (v ≫= asString) ≫= asLoopAuthorityGate with
      | Some g => Ok g
      | None => throw FValidation ("an authority amendment names unknown gate " +:+ quoted (js_StringOf showNum v))
      end
  end.

Definition recordAuthorityAmendment (s : RunStore) (i : RecordAmendmentInput) (time logTime : string)
    : result LoopError (list StoreWrite * (LoopLedger * LoopAuthorityAmendment)) :=
  try gate := amendmentGate (ra_gate i) in
  match nonBlank (ra_scope_item_id i) with
  | None => throw FValidation "an authority amendment must name a scope_item_id — a broad, un-scoped grant is refused"
  | Some scope =>
      let l := upgradeLedgerForPauseAuthority (readLedger sha256hex s) in
      let amendment := mkAmendment gate scope (ra_actor i) (ra_reason i) time in
      let next := with_amendments l (default [] (authority_amendments l) ++ [amendment]) in
      Ok ([WDecision logTime (DAuthorityAmendment amendment); WLedger next], (next, amendment))
  end.

Definition gateGranted (grants : list LoopAuthorityGate) (l : LoopLedger) (g : LoopAuthorityGate) (itemId : string) : bool :=
  includes g grants ||
  existsb (fun a => bool_decide (am_gate a = g) && bool_decide (am_scope_item_id a = itemId))
    (default [] (authority_amendments (upgradeLedgerForPauseAuthority l))).

Definition authorizeGatedTransition (grants : list LoopAuthorityGate) (l : LoopLedger) (g : LoopAuthorityGate)
    (itemId : string) (evidence : option string) : result LoopError unit :=
  if negb (gateGranted grants l g itemId)
  then throw FAuthority ("gate " +:+ quoted (gate_name g) +:+ " is not granted for item " +:+ quoted itemId +:+
         " — broad objectives do not grant gates; the run must stop and report")
  else match nonBlank evidence with
  | None => throw FValidation ("transition through gate " +:+ quoted (gate_name g) +:+
              " requires directly verified facts, not an agent's claim")
  | Some _ => Ok tt
  end.

(** ** Handoff *)

Record HandoffInput := mkHandoffInput {
  hi_fromEngine : LoopEngineName;
  hi_toEngine : LoopEngineName;
  hi_reason : string;
}.

Definition handoffRun (s : RunStore) (runId token : string) (i : HandoffInput) (time logTime : string)
    : result LoopError (list StoreWrite) :=
  let l := upgradeLedgerForPauseAuthority (readLedger sha256hex s) in
  if existsb (fun e => bool_decide (state e = InProgress)) (ovalues (items l))
  then throw FConflict ("loop run " +:+ quoted runId +:+ ": handoff refused while an item is in_progress")
  else
    try lock := requireToken s runId token in
    if decide (lk_engine lock ≠ hi_fromEngine i)
    then throw FValidation ("handoff from_engine " +:+ quoted (engine_name (hi_fromEngine i)) +:+
           " does not match the current lock holder engine " +:+ quoted (engine_name (lk_engine lock)))
    else Ok [WDecision logTime (DHandoff (mkHandoff (hi_fromEngine i) (hi_toEngine i) (hi_reason i) time)); WReleaseLock].
End Holds.

(** ** Facts *)

Section HoldFacts.
Context (sha256hex : string → string) {dates : IsoDates} (mint : string) (showNum : jsnum → string)
        (Date_parse : string → option Z).

Lemma pause_upgrade_frame l :
  let l' := upgradeLedgerForPauseAuthority l in
  items l' = items l ∧ stop l' = stop l ∧ lifecycle l' = lifecycle l ∧ cooling l' = cooling l ∧
  recovery_attempts l' = recovery_attempts l ∧ last_reconciliation l' = last_reconciliation l ∧
  merge_barrier l' = merge_barrier l ∧ reconciliation_sequence l' = reconciliation_sequence l ∧
  default [] (authority_amendments l') = default [] (authority_amendments l).
Proof. unfold upgradeLedgerForPauseAuthority. destruct (authority_amendments l) eqn:E; simpl; by rewrite ?E. Qed.

(** The ledger a hold handler starts from. *)
Definition opened (s : RunStore) : LoopLedger := upgradeLedgerForPauseAuthority (readLedger sha256hex s).

Lemma opened_items s : items (opened s) = items (run_ledger s).
Proof.
  unfold opened, readLedger. destruct (pause_upgrade_frame (normalizeRecoveryLedgerCompatibility sha256hex
    (recovery_policy (run_contract s)) (run_ledger s))) as [-> _]. apply normalize_frame.
Qed.

Lemma opened_stop s : stop (opened s) = stop (run_ledger s).
Proof.
  unfold opened, readLedger. destruct (pause_upgrade_frame (normalizeRecoveryLedgerCompatibility sha256hex
    (recovery_policy (run_contract s)) (run_ledger s))) as (_ & -> & _). apply normalize_frame.
Qed.

Lemma opened_amendments s : default [] (authority_amendments (opened s)) = default [] (authority_amendments (run_ledger s)).
Proof.
  unfold opened, readLedger. destruct (pause_upgrade_frame (normalizeRecoveryLedgerCompatibility sha256hex
    (recovery_policy (run_contract s)) (run_ledger s))) as (_ & _ & _ & _ & _ & _ & _ & _ & ->).
  pose proof (normalize_frame sha256hex (recovery_policy (run_contract s)) (run_ledger s)) as Hf. simpl in Hf.
  by destruct Hf as (_ & _ & _ & _ & _ & _ & _ & -> & _).
Qed.

Lemma requireNotStopped_spec l r i : requireNotStopped l r i = Ok tt ↔ compatibilityStopRefusesItem (stop l) i = false.
Proof. unfold requireNotStopped. destruct (stop l) as [st|]; [|done]. by destruct (compatibilityStopRefusesItem _ _). Qed.

Lemma openItem_Ok s r i l e :
  openItem sha256hex s r i = Ok (l, e) ↔
  l = opened s ∧ compatibilityStopRefusesItem (stop (run_ledger s)) i = false ∧
  oget (items (run_ledger s)) i = Some e.
Proof.
  unfold openItem. fold (opened s). rewrite <-opened_stop, <-opened_items.
  destruct (requireNotStopped (opened s) r i) as [[]|] eqn:E; simpl.
  - apply requireNotStopped_spec in E. destruct (oget (items (opened s)) i) as [e'|]; split.
    + by intros [= <- <-].
    + by intros (-> & _ & [= ->]).
    + done.
    + by intros (_ & _ & ?).
  - split; [done|]. intros (_ & Hs & _). apply requireNotStopped_spec with (r := r) in Hs. congruence.
Qed.

Lemma requireEngine_Ok what e k u : requireEngine what e k = Ok u ↔ lk_engine k = e.
Proof. unfold requireEngine. destruct u. by destruct (decide _). Qed.

(** Binding the lifecycle touches nothing else. *)
Lemma bind_frame l t op :
  let l' := bindHoldLifecycle mint l t op in
  items l' = items l ∧ stop l' = stop l ∧ cooling l' = cooling l ∧ recovery_attempts l' = recovery_attempts l ∧
  authority_amendments l' = authority_amendments l ∧ last_reconciliation l' = last_reconciliation l ∧
  merge_barrier l' = merge_barrier l.
Proof. done. Qed.

(** *** The request a [waiting] item carries is complete *)

Lemma typed_fields_complete kind req fields :
  kind ∈ LOOP_HUMAN_INPUT_REQUEST_KINDS → requireCompleteTypedRequest kind req = Ok fields →
  ∀ uuid item prompt permitted engine now src key head,
    (head ≠ None → is_Some (nonBlankString (fieldOf req "authority_candidate_head"))) →
    persistedTypedRequestComplete
      (mkHold uuid item prompt permitted engine now (typed_request_name <$> pauseKindToTypedRequest kind) src kind
         (tf_decision_package fields) (tf_capability_request fields) (tf_authority_request fields) key head) = true.
Proof.
  intros Hk H uuid item prompt permitted engine now src key head Hhead.
  unfold LOOP_HUMAN_INPUT_REQUEST_KINDS in Hk. rewrite !elem_of_cons, elem_of_nil in Hk.
  destruct Hk as [->|[->|[->|[]]]]; unfold requireCompleteTypedRequest in H; simpl in H.
  - destruct (validateDecisionPackage _) as [p|] eqn:E; simpl in H; [|done]. injection H as <-.
    unfold persistedTypedRequestComplete. simpl. by rewrite (decision_revalidates _ _ E).
  - destruct (validateCapabilityRequest _) as [p|] eqn:E; simpl in H; [|done]. injection H as <-.
    unfold persistedTypedRequestComplete. simpl. by rewrite (capability_revalidates _ _ E).
  - destruct (validateAuthorityRequest _ _) as [p|] eqn:E; simpl in H; [|done]. injection H as <-.
    unfold persistedTypedRequestComplete. simpl. rewrite (authority_revalidates _ _ _ _ E); [done|].
    rewrite !bool_decide_eq_true. intros [h Hh]. apply Hhead. by destruct head.
Qed.

Lemma build_complete uuid now item engine req h :
  buildHumanInputRequest showNum uuid now item engine req = Ok h →
  persistedTypedRequestComplete h = true ∧ hold_item_id h = item ∧ is_Some (asPublicTypedRequest (typed_request h)) ∧
  permitted_responses h ≠ Some [].
Proof.
  unfold buildHumanInputRequest. destruct (negb _); [done|].
  destruct (isLoopHumanInputRequestKind _) as [kind|] eqn:Ek; [|done].
  destruct (nonBlankString (fieldOf req "prompt")); [|done].
  assert (kind ∈ LOOP_HUMAN_INPUT_REQUEST_KINDS) as Hk.
  { unfold isLoopHumanInputRequestKind in Ek. repeat case_match; simplify_eq. by apply includes_true. }
  intros H. destruct (permittedResponses _) as [ps|] eqn:Ep; cbn [rbind] in H; [|done].
  destruct (requireCompleteTypedRequest kind req) as [fields|] eqn:Ef; cbn [rbind] in H; [|done].
  destruct (authorityEvidence _ _) as [ev|] eqn:Ee; cbn [rbind] in H; [|done]. injection H as <-. split.
  { apply (typed_fields_complete _ req); [done..|]. intros Hh. unfold authorityEvidence in Ee.
    destruct (nonBlankString (fieldOf req "authority_candidate_head")); [by eexists|].
    repeat case_match; by simplify_eq/=. }
  split; [done|]. split.
  - unfold LOOP_HUMAN_INPUT_REQUEST_KINDS in Hk. rewrite !elem_of_cons, elem_of_nil in Hk.
    destruct Hk as [->|[->|[->|[]]]]; by eexists.
  - simpl. unfold permittedResponses in Ep. repeat case_match; simplify_eq; try done.
    match goal with H : nonEmptyList _ = Some _ |- _ => apply nonEmptyList_Some in H as [_ ?] end. congruence.
Qed.

(** *** Acceptance of a resume *)

(** Native-goal evidence that is the engine's own, for this run, active and at
    most 300 seconds from now. *)
Definition freshGoal (e : option LoopNativeGoalCheck) (engine : LoopEngineName) (runId : string) (nowMs : Z) : Prop :=
  ∃ g t, e = Some g ∧ gc_engine g = engine ∧ gc_run_id g = runId ∧ gc_status g = "active" ∧
         Date_parse (gc_checked_at g) = Some t ∧ (Z.abs (nowMs - t) <= 300000)%Z.

Lemma goal_spec e engine runId nowMs :
  (∃ g, validateNativeGoalEvidence Date_parse e engine runId nowMs = Ok g) ↔ freshGoal e engine runId nowMs.
Proof.
  unfold validateNativeGoalEvidence, freshGoal, NATIVE_GOAL_FRESHNESS_WINDOW_SECONDS. split.
  - intros [g H]. destruct e as [g'|]; [|done]. repeat (case_decide; [done|]).
    destruct (Date_parse (gc_checked_at g')) as [t|] eqn:Et; [|done].
    destruct (Z.ltb_spec (300 * 1000) (Z.abs (nowMs - t))); [done|].
    exists g', t. repeat (split; [by first [done|apply dec_stable]|]). lia.
  - intros (g & t & -> & He & Hr & Hs & Ht & Hle). repeat (case_decide; [done|]). rewrite Ht.
    destruct (Z.ltb_spec (300 * 1000) (Z.abs (nowMs - t))); [lia|]. by eexists.
Qed.

Lemma preflight_spec e : validatePipelinePreflightEvidence e = Ok tt ↔ ∃ p, e = Some p ∧ pf_passed p = true.
Proof.
  unfold validatePipelinePreflightEvidence. destruct e as [p|]; [|split; [done|by intros (? & [= ] & _)]].
  destruct (pf_passed p) eqn:E; split; [eauto|done|done|intros (p' & [= <-] & ?); congruence].
Qed.

(** The response answers the request the item is waiting on, in full. *)
Definition answers (h : LoopHumanInputRequest) (r : ResumeResponse) : Prop :=
  rs_request_id r = Some (request_id h) ∧ persistedTypedRequestComplete h = true ∧
  ∀ xs, permitted_responses h = Some xs → rs_value r ∈ xs.

Lemma answer_spec i item r :
  answerHold showNum i item r = Ok AnswerAccepted ↔
  (state item = Waiting → ∃ h, hold_request item = Some h ∧ answers h r).
Proof.
  unfold answerHold, answers. destruct (decide (state item ≠ Waiting)) as [Hs|Hs]; [done|].
  apply dec_stable in Hs. split.
  - intros H _. destruct (hold_request item) as [h|]; [|done]. case_decide as Hr; [done|].
    destruct (persistedTypedRequestComplete h) eqn:Hc; simpl in H; [|done]. exists h. split; [done|].
    split; [done|]. split; [done|]. intros xs Hx. rewrite Hx in H.
    destruct (includes (rs_value r) xs) eqn:Ei; [by apply includes_true|done].
  - intros H. destruct (H Hs) as (h & -> & Hr & Hc & Hp). rewrite decide_False by (intros Hn; by destruct Hn).
    rewrite Hc. simpl. destruct (permitted_responses h) as [xs|]; [|done].
    by rewrite (proj2 (includes_true _ _) (Hp xs eq_refl)).
Qed.

Record ResumeAllowed (s : RunStore) (runId token : string) (i : ResumeHoldInput) (nowMs : Z) : Prop := {
  al_lock : ∃ k, run_lock s = Some k ∧ lk_token k = token ∧ lk_engine k = rh_engine i;
  al_running : compatibilityStopRefusesItem (stop (run_ledger s)) (rh_itemId i) = false;
  al_item : ∃ e r, oget (items (run_ledger s)) (rh_itemId i) = Some e ∧ isHeld (state e) = true ∧
      validateResumeResponse (rh_response i) = Ok r ∧
      (state e = Waiting → ∃ h, hold_request e = Some h ∧ answers h r);
  al_preflight : ∃ p, rh_pipeline_preflight i = Some p ∧ pf_passed p = true;
  al_goal : freshGoal (rh_native_goal i) (rh_engine i) runId nowMs;
}.

(** What a successful resume is: either the resumed item, with its decision
    first, or the invalidation of an incomplete hold. *)
Lemma resume_Ok s runId token i nowMs t tl ws next :
  resumeHold sha256hex mint showNum Date_parse s runId token i nowMs t tl = Ok (ws, next) →
  ∃ e r k, run_lock s = Some k ∧ lk_token k = token ∧ lk_engine k = rh_engine i ∧
    compatibilityStopRefusesItem (stop (run_ledger s)) (rh_itemId i) = false ∧
    oget (items (run_ledger s)) (rh_itemId i) = Some e ∧ isHeld (state e) = true ∧
    validateResumeResponse (rh_response i) = Ok r ∧
    ((answerHold showNum i e r = Ok AnswerAccepted ∧ validatePipelinePreflightEvidence (rh_pipeline_preflight i) = Ok tt ∧
      ∃ g, validateNativeGoalEvidence Date_parse (rh_native_goal i) (rh_engine i) runId nowMs = Ok g ∧
      let resumed := hold_entry e InProgress None (mkHistory t (state e) InProgress (rh_engine i) None None (rh_note i)) in
      next = bindHoldLifecycle mint
        (with_goal_check (with_items (opened s) (oset (rh_itemId i) resumed (items (run_ledger s)))) g) t
        (rh_logicalOperationId i) ∧
      ws = [WDecision tl (DHoldResumed (rh_itemId i) (state e) (rh_engine i) (rh_actor i) r t); WLedger next;
            WEvent tl (EvItemResumed (rh_itemId i) (state e))]) ∨
     (∃ q, answerHold showNum i e r = Ok (AnswerReclassify q) ∧
      invalidateIncompleteHoldForReclassify sha256hex mint s runId token
        (mkInvalidate (rh_itemId i) (rh_engine i) (Some (rh_actor i)) (Some q) (rh_logicalOperationId i)) t tl = Ok (ws, next))).
Proof.
  unfold resumeHold. intros H. inv_bind H. inv_bind H. inv_bind H. destruct x1 as [l e].
  apply requireToken_Ok in E as [Hk Ht]. apply requireEngine_Ok in E0. apply openItem_Ok in E1 as (-> & Hs & He).
  destruct (isHeld (state e)) eqn:Hh; simpl in H; [|done]. inv_bind H. inv_bind H.
  exists e, x1, x. do 7 (split; [done|]). destruct x2 as [|q].
  - inv_bind H. destruct x2. inv_bind H. left. split; [done|]. split; [done|]. exists x2. split; [done|].
    injection H as <- <-. by rewrite opened_items.
  - right. eauto.
Qed.

Lemma invalidate_Ok s runId token i t tl ws next :
  invalidateIncompleteHoldForReclassify sha256hex mint s runId token i t tl = Ok (ws, next) →
  ∃ e h, oget (items (run_ledger s)) (iv_itemId i) = Some e ∧ isHeld (state e) = true ∧ hold_request e = Some h ∧
    let updated := hold_entry e Pending None (mkHistory t (state e) Pending (iv_engine i) None None
       (Some "legacy or incomplete typed-request hold invalidated for classifier re-admission")) in
    next = bindHoldLifecycle mint (with_items (opened s) (oset (iv_itemId i) updated (items (run_ledger s)))) t
             (iv_logicalOperationId i) ∧
    ws = [WDecision tl (DHoldInvalidated (iv_itemId i) (state e) (default (request_id h) (iv_requestId i))
                          (default "engine" (iv_actor i)));
          WLedger next; WEvent tl (EvHoldInvalidated (iv_itemId i) (default (request_id h) (iv_requestId i)))].
Proof.
  unfold invalidateIncompleteHoldForReclassify. intros H. inv_bind H. fold (opened s) in H.
  rewrite opened_items in H. destruct (oget (items (run_ledger s)) (iv_itemId i)) as [e|]; [|done].
  destruct (isHeld (state e)) eqn:Hh; [|done]. destruct (hold_request e) as [h|] eqn:Hr; [|done].
  exists e, h. do 3 (split; [done|]). by injection H as <- <-.
Qed.

Lemma enter_Ok s runId token i to req t tl ws next :
  enterHold sha256hex mint s runId token i to req t tl = Ok (ws, next) →
  ∃ e k, run_lock s = Some k ∧ lk_token k = token ∧ lk_engine k = eh_engine i ∧
    oget (items (run_ledger s)) (eh_itemId i) = Some e ∧ state e = InProgress ∧
    let held := hold_entry e to req (mkHistory t (state e) to (eh_engine i) None None (eh_note i)) in
    next = bindHoldLifecycle mint (with_items (opened s) (oset (eh_itemId i) held (items (run_ledger s)))) t
             (eh_logicalOperationId i) ∧
    ws = [WLedger next; WEvent tl (holdEvent to (eh_itemId i) req)].
Proof.
  unfold enterHold. intros H. inv_bind H. inv_bind H. inv_bind H. destruct x1 as [l e].
  apply requireToken_Ok in E as [Hk Ht]. apply requireEngine_Ok in E0. apply openItem_Ok in E1 as (-> & Hs & He).
  case_decide as Hst; [done|]. exists e, x. do 5 (split; [done|]).
  injection H as <- <-. by rewrite opened_items.
Qed.

Lemma abandon_Ok s runId token i t tl ws next :
  abandonHold sha256hex s runId token i t tl = Ok (ws, next) →
  ∃ e k, run_lock s = Some k ∧ lk_token k = token ∧ lk_engine k = ab_engine i ∧
    oget (items (run_ledger s)) (ab_itemId i) = Some e ∧ isHeld (state e) = true ∧
    let gone := hold_entry e Abandoned None (mkHistory t (state e) Abandoned (ab_engine i) None None (ab_note i)) in
    next = with_items (opened s) (oset (ab_itemId i) gone (items (run_ledger s))) ∧
    ws = [WLedger next; WEvent tl (EvItemAbandoned (ab_itemId i) (state e))].
Proof.
  unfold abandonHold. intros H. inv_bind H. inv_bind H. inv_bind H. destruct x1 as [l e].
  apply requireToken_Ok in E as [Hk Ht]. apply requireEngine_Ok in E0. apply openItem_Ok in E1 as (-> & Hs & He).
  destruct (isHeld (state e)) eqn:Hh; simpl in H; [|done]. exists e, x. do 5 (split; [done|]).
  injection H as <- <-. by rewrite opened_items.
Qed.
End HoldFacts.

(** The ledger a handler left alone, or a decision it appended before touching
    it, wherever it was cut off. *)
Definition audits (sha256hex : string → string) {dates : IsoDates} (s : RunStore) (runId token : string) (ws : list StoreWrite)
    (d : StoreDecision) : Prop :=
  ∀ k s', execute sha256hex runId token s (take k ws) = Ok s' →
    run_ledger s' = run_ledger s ∧ run_rejected s' = run_rejected s ∨
    d ∈ log_data <$> drop (length (lines (run_decisions s))) (lines (run_decisions s')).

Lemma audits_first sha {dates : IsoDates} s r t t0 d ws : audits sha s r t (WDecision t0 d :: ws) d.
Proof. intros [|k] s' H; [left; by injection H as <-|right]. by eapply decision_first. Qed.

Lemma state_of_oset its k e : state_of (oset k e its) k = Some (state e).
Proof. unfold state_of. by rewrite oget_oset_eq. Qed.

(** ** Properties *)

(** C31. A resume fails closed: it returns the item to [in_progress] exactly
    when the caller holds the lock with the engine it names, no stop refuses the
    item, the item is held, the response is well formed and, for a waiting item,
    answers the complete outstanding request within its permitted set, the
    pipeline preflight passed, and the native-goal evidence is this engine's,
    for this run, active and at most 300 seconds old. *)
Theorem resume_fail_closed sha mint showNum Date_parse s runId token i nowMs t tl :
  (∃ ws next, resumeHold sha mint showNum Date_parse s runId token i nowMs t tl = Ok (ws, next) ∧
              state_of (items next) (rh_itemId i) = Some InProgress) ↔
  ResumeAllowed Date_parse s runId token i nowMs.
Proof.
  split.
  - intros (ws & next & H & Hst). apply resume_Ok in H as (e & r & k & Hk & Ht & Hen & Hs & He & Hh & Hr & [H|(q & Ha & H)]).
    + destruct H as (Ha & Hp & g & Hg & _ & _). split; [by eauto| done| |by apply preflight_spec|by apply goal_spec; eauto].
      exists e, r. do 3 (split; [done|]). by eapply answer_spec.
    + apply invalidate_Ok in H as (e' & h & _ & _ & _ & -> & _). cbn [iv_itemId] in Hst. simpl in Hst.
      by rewrite state_of_oset in Hst.
  - intros [(k & Hk & Ht & Hen) Hs (e & r & He & Hh & Hr & Ha) Hp Hg].
    apply preflight_spec in Hp. apply goal_spec in Hg as [g Hg].
    unfold resumeHold. rewrite (proj2 (requireToken_Ok s runId token k) (conj Hk Ht)). cbn [rbind].
    rewrite (proj2 (requireEngine_Ok _ (rh_engine i) k tt) Hen). cbn [rbind].
    rewrite (proj2 (openItem_Ok sha s runId (rh_itemId i) (opened sha s) e)) by done. cbn [rbind]. rewrite Hh, Hr.
    cbn [rbind negb]. rewrite (proj2 (answer_spec showNum i e r) Ha). cbn [rbind]. rewrite Hp. cbn [rbind].
    rewrite Hg. cbn [rbind]. do 2 eexists. split; [done|]. simpl. apply state_of_oset.
Qed.

(** C38. Audit precedes effect, at every crash point: wherever a resume, an
    invalidation or an authority amendment is cut off, either the ledger is the
    one the handler found or the decision log already carries the attributed
    decision for exactly that change. *)
Theorem audit_precedes_effect sha {dates : IsoDates} mint showNum Date_parse s runId token :
  (∀ i nowMs t tl ws next, resumeHold sha mint showNum Date_parse s runId token i nowMs t tl = Ok (ws, next) →
     ∃ d, audits sha s runId token ws d ∧
       ((∃ from r, d = DHoldResumed (rh_itemId i) from (rh_engine i) (rh_actor i) r t ∧
                   state_of (items next) (rh_itemId i) = Some InProgress) ∨
        (∃ from q, d = DHoldInvalidated (rh_itemId i) from q (rh_actor i) ∧
                   state_of (items next) (rh_itemId i) = Some Pending))) ∧
  (∀ i t tl ws next, invalidateIncompleteHoldForReclassify sha mint s runId token i t tl = Ok (ws, next) →
     ∃ from q, audits sha s runId token ws (DHoldInvalidated (iv_itemId i) from q (default "engine" (iv_actor i)))) ∧
  (∀ i t tl ws next a, recordAuthorityAmendment sha showNum s i t tl = Ok (ws, (next, a)) →
     audits sha s runId token ws (DAuthorityAmendment a)).
Proof.
  split; [|split].
  - intros i nowMs t tl ws next H.
    apply resume_Ok in H as (e & r & k & _ & _ & _ & _ & _ & _ & _ & [H|(q & _ & H)]).
    + destruct H as (_ & _ & g & _ & -> & ->). eexists. split; [apply audits_first|]. left. do 2 eexists. split; [done|].
      simpl. apply state_of_oset.
    + apply invalidate_Ok in H as (e' & h & _ & _ & _ & -> & ->). eexists. split; [apply audits_first|]. right.
      do 2 eexists. split; [done|]. simpl. apply state_of_oset.
  - intros i t tl ws next H. apply invalidate_Ok in H as (e & h & _ & _ & _ & _ & ->). do 2 eexists. apply audits_first.
  - intros i t tl ws next a H. unfold recordAuthorityAmendment in H. inv_bind H. case_match; [|done].
    injection H as <- <- <-. apply audits_first.
Qed.

(** An authority amendment widens exactly one gate for exactly one item and
    nothing else: after it a gate is granted where it was before or at that pair
    only, the items are untouched, and passing a gate still takes non-blank
    evidence. *)
Theorem amendment_scoped sha showNum s i t tl ws next a :
  recordAuthorityAmendment sha showNum s i t tl = Ok (ws, (next, a)) →
  items next = items (run_ledger s) ∧ blank (am_scope_item_id a) = false ∧
  (∀ grants g item, gateGranted grants next g item = true ↔
     gateGranted grants (run_ledger s) g item = true ∨ (g = am_gate a ∧ item = am_scope_item_id a)) ∧
  (∀ grants l g item ev, authorizeGatedTransition grants l g item ev = Ok tt ↔
     gateGranted grants l g item = true ∧ is_Some (nonBlank ev)).
Proof.
  intros H. unfold recordAuthorityAmendment in H. inv_bind H. destruct (nonBlank (ra_scope_item_id i)) as [scope|] eqn:En; [|done].
  injection H as _ <- <-. split; [simpl; apply opened_items|]. split.
  { simpl. destruct (ra_scope_item_id i) as [z|]; simpl in En; [|done]. destruct (blank z) eqn:Eb; [done|]. by injection En as ->. }
  split.
  - intros grants g item. unfold gateGranted.
    assert (∀ l, default [] (authority_amendments (upgradeLedgerForPauseAuthority l)) = default [] (authority_amendments l)) as Hu
      by (intros l; apply pause_upgrade_frame). rewrite !Hu. simpl. rewrite existsb_app. simpl.
    pose proof (opened_amendments sha s) as Ho. unfold opened in Ho. rewrite Hu in Ho. rewrite Ho, !orb_true_iff, andb_true_iff, !bool_decide_eq_true.
    split.
    + intros [?|[?|[[-> ->]|[=]]]]; auto.
    + intros [[?|?]|[-> ->]]; auto.
  - intros grants l g item ev. unfold authorizeGatedTransition. destruct (gateGranted grants l g item); simpl.
    + destruct (nonBlank ev); split; [by eauto|done|done|by intros [_ [? ?]]].
    + split; [done|by intros [? _]].
Qed.

(** A wait is answerable: an item put into [waiting] carries a complete
    typed request of its own, any later response that names it with a permitted
    value is accepted rather than reclassified, and entering the hold charges no
    recovery attempt and touches no other item. *)
Theorem wait_is_answerable sha mint showNum s runId token i req uuid t0 t tl ws next :
  waitItem sha mint showNum s runId token i req uuid t0 t tl = Ok (ws, next) →
  ∃ e h, oget (items next) (eh_itemId i) = Some e ∧ state e = Waiting ∧ hold_request e = Some h ∧
    hold_item_id h = eh_itemId i ∧ is_Some (asPublicTypedRequest (typed_request h)) ∧
    (∀ j r, rs_request_id r = Some (request_id h) → (∀ xs, permitted_responses h = Some xs → rs_value r ∈ xs) →
       answerHold showNum j e r = Ok AnswerAccepted) ∧
    recovery_attempts next = recovery_attempts (readLedger sha s) ∧
    ∀ k, k ≠ eh_itemId i → oget (items next) k = oget (items (run_ledger s)) k.
Proof.
  unfold waitItem. intros H. inv_bind H. apply build_complete in E as (Hc & Hi & Ht & _).
  apply enter_Ok in H as (e & k & _ & _ & _ & He & Hs & -> & _). simpl. rewrite oget_oset_eq. do 2 eexists.
  do 3 (split; [done|]). do 2 (split; [done|]). split; [|split].
  - intros j r Hr Hp. apply answer_spec. intros _. exists x. by repeat split.
  - unfold opened. by destruct (pause_upgrade_frame (readLedger sha s)) as (_ & _ & _ & _ & -> & _).
  - intros k' Hk. by rewrite oget_oset_ne.
Qed.

(** A handoff transfers no token: it happens only while no item is in
    progress and under the lock of the engine handing off, logs its decision,
    leaves the ledger as it was, releases the lock, and from then on the old
    token writes nothing. *)
Theorem handoff_releases sha {dates : IsoDates} s runId token i t tl ws :
  handoffRun sha s runId token i t tl = Ok ws →
  (∀ k, state_of (items (run_ledger s)) k ≠ Some InProgress) ∧
  ∃ s', execute sha runId token s ws = Ok s' ∧ run_lock s' = None ∧ run_ledger s' = run_ledger s ∧
    DHandoff (mkHandoff (hi_fromEngine i) (hi_toEngine i) (hi_reason i) t) ∈ log_data <$> lines (run_decisions s') ∧
    ∀ ws', ws' ≠ [] → ∃ e, execute sha runId token s' ws' = Err e.
Proof.
  unfold handoffRun. fold (opened sha s). rewrite opened_items. destruct (existsb _ _) eqn:Ex; [done|]. intros H. inv_bind H.
  case_decide as Hen; [done|]. injection H as <-. split.
  { intros k Hk. unfold state_of in Hk. apply fmap_Some in Hk as (e & He & Hs).
    assert (e ∈ ovalues (items (run_ledger s))) as Hin by (apply elem_ovalues; eauto using oget_Some_elem).
    pose proof (proj1 (existsb_not_elem _ _) Ex e Hin) as Hf. by apply bool_decide_eq_false in Hf. }
  apply requireToken_Ok in E as [Hk Ht]. assert (requireToken s runId token = Ok x) as Htok by by apply requireToken_Ok.
  eexists. split.
  { unfold execute. simpl. unfold appendDecision. rewrite Htok. simpl. unfold releaseLock, requireToken. simpl.
    rewrite Hk, decide_True by done. done. }
  simpl. do 2 (split; [done|]). split; [rewrite fmap_app; apply elem_of_app; right; left|].
  intros ws' Hne. destruct (execute sha runId token _ ws') as [s2|e2] eqn:E2; [|by eexists].
  apply execute_needs_token in E2 as (k & [=] & _); done.
Qed.

(** ** Witnesses *)

#[local] Existing Instance StoreSample.dates.

Module HoldSample.
Definition ledger : LoopLedger := FrontierSample.ledger [FrontierSample.entry "7" InProgress None; FrontierSample.entry "8" Pending None].
Definition lock : LoopLockRecord := mkLock Claude 41 "host" "t0" "tok" "run" None.
Definition store (l : LoopLedger) : RunStore :=
  mkRun FrontierSample.contract l (Some lock) (mkLogFile [] None) (mkLogFile [] None) [].
Definition sha (s : string) : string := s.
Definition showNum (n : jsnum) : string := "n".
Definition parse (s : string) : option Z := if decide (s = "now") then Some 1000000%Z else None.

Definition capability : jval :=
  JObj [("missing", JStr "token"); ("provider", JStr "operator"); ("live_probe", JStr "gh auth status");
        ("resume_condition", JStr "token supplied")].
Definition request : option jval :=
  Some (JObj [("kind", JStr "answer"); ("prompt", JStr "which token?"); ("permitted_responses", JArr [JStr "yes"; JStr "no"]);
              ("capability_request", capability)]).
Definition enter : EnterHoldInput := mkEnter "7" Claude None (Some "lop-1").
Definition waited : result LoopError (list StoreWrite * LoopLedger) :=
  waitItem sha "lop-9" showNum (store ledger) "run" "tok" enter request "u1" "t1" "t2" "t3".
Definition waiting : RunStore := store (from_option snd ledger (match waited with Ok p => Some p | Err _ => None end)).

Definition resume : ResumeHoldInput :=
  mkResume "7" Claude "alice" (Some (JObj [("request_id", JStr "req-u1"); ("value", JStr "yes")]))
    (Some (mkPreflight true "t")) (Some (mkGoalCheck Claude "run" "active" "now")) None (Some "lop-1").
Definition resumed : result LoopError (list StoreWrite * LoopLedger) :=
  resumeHold sha "lop-9" showNum parse waiting "run" "tok" resume 1200000 "t4" "t5".
Definition amendment : RecordAmendmentInput := mkRecordAmendment (Some (JStr "merge")) (Some "7") "alice" "reviewed".
Definition amended : result LoopError (list StoreWrite * (LoopLedger * LoopAuthorityAmendment)) :=
  recordAuthorityAmendment sha showNum (store ledger) amendment "t" "t".
Definition handoff : HandoffInput := mkHandoffInput Claude Codex "shift change".

Example stale_goal_refused : ∃ m,
  resumeHold sha "lop-9" showNum parse waiting "run" "tok" resume 1400000 "t4" "t5" = Err (mkLoopError FNativeGoalMandate m).
Proof. eexists. vm_compute. reflexivity. Qed.
End HoldSample.

Lemma audit_precedes_effect_witness :
  match HoldSample.resumed with
  | Ok (ws, next) => ∃ d, audits HoldSample.sha HoldSample.waiting "run" "tok" ws d
  | Err _ => False
  end.
Proof.
  destruct HoldSample.resumed as [[ws next]|] eqn:E; [|by vm_compute in E].
  destruct (proj1 (audit_precedes_effect HoldSample.sha "lop-9" HoldSample.showNum HoldSample.parse HoldSample.waiting "run" "tok")
    HoldSample.resume 1200000%Z "t4" "t5" ws next E) as (d & Hd & _). by exists d.
Defined.

Lemma amendment_scoped_witness :
  match HoldSample.amended with
  | Ok (_, (next, _)) => gateGranted [] next MergeGate "7" = true
  | Err _ => False
  end.
Proof.
  destruct HoldSample.amended as [[ws [next a]]|] eqn:E; [|by vm_compute in E].
  apply (amendment_scoped HoldSample.sha HoldSample.showNum (HoldSample.store HoldSample.ledger) HoldSample.amendment "t" "t" ws next a E).
  right. vm_compute in E. by injection E as _ _ <-.
Defined.

Lemma wait_is_answerable_witness :
  match HoldSample.waited with
  | Ok (_, next) => ∃ e h, oget (items next) "7" = Some e ∧ state e = Waiting ∧ hold_request e = Some h
  | Err _ => False
  end.
Proof.
  destruct HoldSample.waited as [[ws next]|] eqn:E; [|by vm_compute in E].
  destruct (wait_is_answerable HoldSample.sha "lop-9" HoldSample.showNum (HoldSample.store HoldSample.ledger) "run" "tok"
    HoldSample.enter HoldSample.request "u1" "t1" "t2" "t3" ws next E) as (e & h & He & Hs & Hh & _).
  by exists e, h.
Defined.

Lemma handoff_releases_witness :
  match handoffRun HoldSample.sha HoldSample.waiting "run" "tok" HoldSample.handoff "t" "t" with
  | Ok ws => ∃ s', execute HoldSample.sha "run" "tok" HoldSample.waiting ws = Ok s' ∧ run_lock s' = None
  | Err _ => False
  end.
Proof.
  destruct (handoffRun _ _ _ _ _ _ _) as [ws|] eqn:E; [|by vm_compute in E].
  destruct (handoff_releases HoldSample.sha HoldSample.waiting "run" "tok" HoldSample.handoff "t" "t" ws E)
    as (_ & s' & He & Hl & _). by exists s'.
Defined.

(** The conditions of a resume are met by an actual one. *)
Lemma resume_fail_closed_witness : ResumeAllowed HoldSample.parse HoldSample.waiting "run" "tok" HoldSample.resume 1200000.
Proof.
  apply (resume_fail_closed HoldSample.sha "lop-9" HoldSample.showNum HoldSample.parse HoldSample.waiting "run" "tok"
    HoldSample.resume 1200000 "t4" "t5").
  destruct HoldSample.resumed as [[ws next]|] eqn:E; [|by vm_compute in E]. exists ws, next. split; [exact E|].
  vm_compute in E. by injection E as _ <-.
Defined.
