(* ===== verification/StageDiagnostic.v ===== *)
(** * Stage diagnostics

    [core/scripts/stage-diagnostic.ts] carries the outcome of one Pipeline
    advance into the durable loop: a closed set of reason codes, the projection
    of an untyped diagnostic onto a blocker class and a disposition, the builder
    producers use, and the diagnostic of a run's last blocker event.  A value
    read from outside is a [jval]; whatever is not a well-formed diagnostic is a
    protocol failure. *)

From Stdlib Require Import ZArith QArith Qcanon Ascii.
From stdpp Require Import numbers base gmap strings list.
From S2P Require Import Prelude LoopTypes RecoveryPolicy TypedRequests RecoveryHandlers Store Holds.
Local Open Scope result_scope.
Local Open Scope nat_scope.

(** ** Vocabularies *)

Inductive BlockerKind :=
| KNeedsHuman | KReviewFindings | KTestGateExhausted | KNoCommits | KHarnessFailure | KOpenspecInvalid | KOpenspecStaleDelta
| KMergeConflict | KWorktreeMissing | KWorktreeCreationFailed | KWorktreeCapacity | KPrCreationFailed | KNoPullRequest
| KPlanGenFailed | KPushFailed | KEvalGateMisconfigured | KEvalGateFailed | KVisualGateMisconfigured | KVisualGateFailed
| KShipcheckFailed | KHeadDrift | KWorktreeSetupFailed | KBuildFailed | KDesignGateFailed | KPreCodeAttestationFailed
| KHumanDecisionRequired | KCiExhausted | KReviewIndependentQuorumUnmet | KReviewNoUsableReviewers | KReviewPromptTooLarge
| KPlanningFactsProviderContract.

Definition BLOCKER_KINDS : list BlockerKind :=
  [KNeedsHuman; KReviewFindings; KTestGateExhausted; KNoCommits; KHarnessFailure; KOpenspecInvalid; KOpenspecStaleDelta;
   KMergeConflict; KWorktreeMissing; KWorktreeCreationFailed; KWorktreeCapacity; KPrCreationFailed; KNoPullRequest;
   KPlanGenFailed; KPushFailed; KEvalGateMisconfigured; KEvalGateFailed; KVisualGateMisconfigured; KVisualGateFailed;
   KShipcheckFailed; KHeadDrift; KWorktreeSetupFailed; KBuildFailed; KDesignGateFailed; KPreCodeAttestationFailed;
   KHumanDecisionRequired; KCiExhausted; KReviewIndependentQuorumUnmet; KReviewNoUsableReviewers; KReviewPromptTooLarge;
   KPlanningFactsProviderContract].

Definition kind_name (k : BlockerKind) : string :=
  match k with
  | KNeedsHuman => "needs-human"
  | KReviewFindings => "review-findings"
  | KTestGateExhausted => "test-gate-exhausted"
  | KNoCommits => "no-commits"
  | KHarnessFailure => "harness-failure"
  | KOpenspecInvalid => "openspec-invalid"
  | KOpenspecStaleDelta => "openspec-stale-delta"
  | KMergeConflict => "merge-conflict"
  | KWorktreeMissing => "worktree-missing"
  | KWorktreeCreationFailed => "worktree-creation-failed"
  | KWorktreeCapacity => "worktree-capacity"
  | KPrCreationFailed => "pr-creation-failed"
  | KNoPullRequest => "no-pull-request"
  | KPlanGenFailed => "plan-gen-failed"
  | KPushFailed => "push-failed"
  | KEvalGateMisconfigured => "eval-gate-misconfigured"
  | KEvalGateFailed => "eval-gate-failed"
  | KVisualGateMisconfigured => "visual-gate-misconfigured"
  | KVisualGateFailed => "visual-gate-failed"
  | KShipcheckFailed => "shipcheck-failed"
  | KHeadDrift => "head-drift"
  | KWorktreeSetupFailed => "worktree-setup-failed"
  | KBuildFailed => "build-failed"
  | KDesignGateFailed => "design-gate-failed"
  | KPreCodeAttestationFailed => "pre-code-attestation-failed"
  | KHumanDecisionRequired => "human-decision-required"
  | KCiExhausted => "ci-exhausted"
  | KReviewIndependentQuorumUnmet => "review-independent-quorum-unmet"
  | KReviewNoUsableReviewers => "review-no-usable-reviewers"
  | KReviewPromptTooLarge => "review-prompt-too-large"
  | KPlanningFactsProviderContract => "planning-facts-provider-contract"
  end.

Inductive PreMergeOfframpClass := OffCiFailed | OffDeltaReview | OffMergeConflict | OffOpenspecInvalid | OffOpenspecStaleDelta | OffOther.

Definition PRE_MERGE_OFFRAMP_CLASSES : list PreMergeOfframpClass :=
  [OffCiFailed; OffDeltaReview; OffMergeConflict; OffOpenspecInvalid; OffOpenspecStaleDelta; OffOther].

Definition offramp_name (c : PreMergeOfframpClass) : string :=
  match c with
  | OffCiFailed => "ci-failed"
  | OffDeltaReview => "delta-review"
  | OffMergeConflict => "merge-conflict"
  | OffOpenspecInvalid => "openspec-invalid"
  | OffOpenspecStaleDelta => "openspec-stale-delta"
  | OffOther => "other"
  end.

Inductive StageDiagnosticReasonCode :=
| RWorkflowState | RImplementationCi | RReviewFindings | RWorkflowEngineDefect | REnvironmentAuth | RWorktreeCapacity
| RHumanDecisionRequired | ROpenspecArchiveApplyConflict | ROpenspecGeneratedDeltaInvalid | RTransientInfra | RHarnessTimeout
| RHarnessContract | RRepairBudgetExhausted | RExternalWait | RHumanContextRequired | RCapabilityRefusal
| RHarnessBackgroundWait | RModelEntitlementRequired.

Definition STAGE_DIAGNOSTIC_REASON_CODES : list StageDiagnosticReasonCode :=
  [RWorkflowState; RImplementationCi; RReviewFindings; RWorkflowEngineDefect; REnvironmentAuth; RWorktreeCapacity;
   RHumanDecisionRequired; ROpenspecArchiveApplyConflict; ROpenspecGeneratedDeltaInvalid; RTransientInfra; RHarnessTimeout;
   RHarnessContract; RRepairBudgetExhausted; RExternalWait; RHumanContextRequired; RCapabilityRefusal;
   RHarnessBackgroundWait; RModelEntitlementRequired].

Definition reason_name (r : StageDiagnosticReasonCode) : string :=
  match r with
  | RWorkflowState => "workflow-state"
  | RImplementationCi => "implementation-ci"
  | RReviewFindings => "review-findings"
  | RWorkflowEngineDefect => "workflow-engine-defect"
  | REnvironmentAuth => "environment-auth"
  | RWorktreeCapacity => "worktree-capacity"
  | RHumanDecisionRequired => "human-decision-required"
  | ROpenspecArchiveApplyConflict => "openspec-archive-apply-conflict"
  | ROpenspecGeneratedDeltaInvalid => "openspec-generated-delta-invalid"
  | RTransientInfra => "transient-infra"
  | RHarnessTimeout => "harness-timeout"
  | RHarnessContract => "harness-contract"
  | RRepairBudgetExhausted => "repair-budget-exhausted"
  | RExternalWait => "external-wait"
  | RHumanContextRequired => "human-context-required"
  | RCapabilityRefusal => "capability-refusal"
  | RHarnessBackgroundWait => "harness-background-wait"
  | RModelEntitlementRequired => "model-entitlement-required"
  end.

#[export] Instance kind_eq_dec : EqDecision BlockerKind.
Proof. solve_decision. Defined.
#[export] Instance offramp_eq_dec : EqDecision PreMergeOfframpClass.
Proof. solve_decision. Defined.
#[export] Instance reason_eq_dec : EqDecision StageDiagnosticReasonCode.
Proof. solve_decision. Defined.

(** The member of a closed vocabulary that a value spells. *)
Definition spelled {A} (name : A → string) (all : list A) (v : option jval) : option A :=
  match v with
  | Some (JStr s) => snd <$> list_find (fun x => name x = s) all
  | _ => None
  end.

Definition isBlockerKind : option jval → option BlockerKind := spelled kind_name BLOCKER_KINDS.
Definition isPreMergeOfframpClass : option jval → option PreMergeOfframpClass := spelled offramp_name PRE_MERGE_OFFRAMP_CLASSES.
Definition asReasonCode : option jval → option StageDiagnosticReasonCode := spelled reason_name STAGE_DIAGNOSTIC_REASON_CODES.

(** ** Reason codes *)

Definition mechanicalReasonCodeForKind (k : BlockerKind) : StageDiagnosticReasonCode :=
  match k with
  | KNeedsHuman | KMergeConflict | KWorktreeMissing | KWorktreeCreationFailed | KPrCreationFailed | KNoPullRequest
  | KPlanGenFailed | KPushFailed | KHeadDrift | KWorktreeSetupFailed => RWorkflowState
  | KTestGateExhausted | KNoCommits | KOpenspecInvalid | KOpenspecStaleDelta | KEvalGateMisconfigured | KEvalGateFailed
  | KVisualGateMisconfigured | KVisualGateFailed | KShipcheckFailed | KBuildFailed | KDesignGateFailed
  | KPreCodeAttestationFailed | KCiExhausted => RImplementationCi
  | KReviewFindings => RReviewFindings
  | KHarnessFailure => RWorkflowEngineDefect
  | KWorktreeCapacity => RWorktreeCapacity
  | KHumanDecisionRequired => RHumanDecisionRequired
  | KReviewIndependentQuorumUnmet => RWorkflowEngineDefect
  | KReviewNoUsableReviewers => RHarnessContract
  | KReviewPromptTooLarge => RCapabilityRefusal
  | KPlanningFactsProviderContract => RWorkflowEngineDefect
  end.

Definition reasonCodeFor (k : BlockerKind) (off : option PreMergeOfframpClass) : StageDiagnosticReasonCode :=
  if decide (k = KHumanDecisionRequired) then RHumanDecisionRequired
  else match off with
  | Some OffCiFailed | Some OffOpenspecInvalid | Some OffOpenspecStaleDelta => RImplementationCi
  | Some OffDeltaReview => RReviewFindings
  | Some OffMergeConflict => RWorkflowState
  | Some OffOther | None => mechanicalReasonCodeForKind k
  end.

(** The path tag of [pre-merge-offramp.ts]; unknown input is [other]. *)
Definition toPreMergeOfframpClass (blockerKind pathTag : option string) : PreMergeOfframpClass :=
  match isPreMergeOfframpClass (JStr <$> pathTag) with
  | Some OffOther | None =>
      match isBlockerKind (JStr <$> blockerKind) with
      | Some KMergeConflict => OffMergeConflict
      | Some KOpenspecInvalid => OffOpenspecInvalid
      | Some KOpenspecStaleDelta => OffOpenspecStaleDelta
      | Some KTestGateExhausted | Some KBuildFailed | Some KCiExhausted => OffCiFailed
      | _ => OffOther
      end
  | Some c => c
  end.

Inductive StageDiagnosticDisposition := Recover | HumanAuthorityDisposition | CapacityDisposition | ProtocolFailure.

#[export] Instance disposition_eq_dec : EqDecision StageDiagnosticDisposition.
Proof. solve_decision. Defined.

Record StageDiagnosticProjection := mkProjection {
  pj_blockerClass : DurableBlockerClass;
  pj_disposition : StageDiagnosticDisposition;
  pj_protocolError : option string;
}.

Definition protocolFailure (why : string) : StageDiagnosticProjection :=
  mkProjection WorkflowEngineDefect ProtocolFailure (Some why).

Definition projectReason (r : StageDiagnosticReasonCode) : StageDiagnosticProjection :=
  let recover c := mkProjection c Recover None in
  match r with
  | RWorkflowState => recover WorkflowState
  | RImplementationCi => recover ImplementationCi
  | RReviewFindings => recover ReviewFindings
  | RWorkflowEngineDefect => recover WorkflowEngineDefect
  | REnvironmentAuth | RCapabilityRefusal | RModelEntitlementRequired => recover EnvironmentAuth
  | RWorktreeCapacity => mkProjection WorkflowState CapacityDisposition None
  | RHumanDecisionRequired => mkProjection SpecificationDecision HumanAuthorityDisposition None
  | ROpenspecArchiveApplyConflict | ROpenspecGeneratedDeltaInvalid => recover ImplementationCi
  | RTransientInfra => recover TransientRateLimit
  | RHarnessTimeout | RHarnessBackgroundWait | RHarnessContract => recover WorkflowEngineDefect
  | RRepairBudgetExhausted => recover WorkflowEngineDefect
  | RExternalWait => recover UpstreamDependency
  | RHumanContextRequired => recover UpstreamDependency
  end.

(** ** Validation *)

Definition STAGE_DIAGNOSTIC_SCHEMA : string := "pipeline/stage-diagnostic@1".

(** [[0-9a-f]], and [[0-9a-fA-F]] under the flag [i]. *)
Definition lowerHex (c : ascii) : bool :=
  let n := nat_of_ascii c in ((48 <=? n) && (n <=? 57) || (97 <=? n) && (n <=? 102)).
Definition hexText (min max : nat) (s : string) : bool :=
  (min <=? length (chars s)) && (length (chars s) <=? max) && forallb lowerHex (chars s).

Section Diagnostic.
(** Printing a number, [JSON.stringify], and the signal names of the platform. *)
Context (showNum : jsnum → string) (stringify : jval → string) (signals : list string).

Definition stringifyOf (v : option jval) : string := from_option stringify "undefined" v.

Definition projectPipelineReasonCode (v : option jval) : StageDiagnosticProjection :=
  match asReasonCode v with
  | Some r => projectReason r
  | None => protocolFailure ("unknown stage diagnostic reason_code " +:+ stringifyOf v)
  end.

Definition isNonzeroCode (v : option jval) : bool :=
  match v with
  | Some (JNum n) => isFinite n && isInteger n && num_geb n 1 && negb (num_geb n 256)
  | _ => false
  end.

Definition isSignal (v : option jval) : bool :=
  match v with Some (JStr s) => includes s signals | _ => false end.

Definition isNestedAdvanceProcessExit (v : option jval) : bool :=
  match v with
  | Some (JObj _) =>
      bool_decide (fieldOf v "kind" = Some (JStr "nested_advance_child")) &&
      match fieldOf v "store_initialized" with Some (JBool _) => true | _ => false end &&
      (isNonzeroCode (fieldOf v "code") && bool_decide (fieldOf v "signal" = Some JNull) ||
       bool_decide (fieldOf v "code" = Some JNull) && isSignal (fieldOf v "signal"))
  | _ => false
  end.

Definition HUMAN_AUTHORITY_CATEGORIES : list string := ["product-decision"; "authority"].

(** The regular expressions test the value as a string. *)
Definition validAuthorityEntry (v : jval) : bool :=
  isObjectValue (Some v) &&
  match fieldOf (Some v) "category" with Some (JStr s) => includes s HUMAN_AUTHORITY_CATEGORIES | _ => false end &&
  hexText 8 8 (js_StringOf showNum (fieldOf (Some v) "finding_key")) &&
  hexText 16 16 (js_StringOf showNum (fieldOf (Some v) "finding_fingerprint")) &&
  hexText 6 64 (lowerString (js_StringOf showNum (fieldOf (Some v) "reviewed_sha"))).

Definition validAuthorityEvidence (v : option jval) : bool :=
  match v with
  | Some (JArr xs) => bool_decide (xs ≠ []) && forallb validAuthorityEntry xs
  | _ => false
  end.

(** An absent field, or one that satisfies the test. *)
Definition absentOr (test : option jval → bool) (v : option jval) : bool :=
  match v with None => true | Some _ => test v end.

Definition isNonBlank (v : option jval) : bool := bool_decide (is_Some (nonBlankString v)).

Definition validUncertainty (v : option jval) : bool :=
  isObjectValue v && bool_decide (fieldOf v "observer" = Some (JStr "forge")) &&
  bool_decide (fieldOf v "operation" = Some (JStr "issue_pr_refresh")) && isNonBlank (fieldOf v "reason").

Definition hasField (v : option jval) (k s : string) : bool := bool_decide (fieldOf v k = Some (JStr s)).

(** The detail of a diagnostic, with its kind and its off-ramp class. *)
Definition readDetail (value : option jval) : option (BlockerKind * option PreMergeOfframpClass) :=
  let detail := fieldOf value "detail" in
  k ← isBlockerKind (fieldOf detail "blocker_kind");
  if isNonBlank (fieldOf detail "reason") && absentOr isNonBlank (fieldOf detail "stage") &&
     absentOr (fun v => bool_decide (is_Some (isPreMergeOfframpClass v))) (fieldOf detail "offramp_class") &&
     absentOr validUncertainty (fieldOf detail "observation_uncertainty") &&
     absentOr (fun v => isNestedAdvanceProcessExit v && bool_decide (k = KHarnessFailure) && hasField detail "stage" "loop-dispatch" &&
                        hasField value "reason_code" "workflow-engine-defect") (fieldOf detail "process_exit")
  then Some (k, isPreMergeOfframpClass (fieldOf detail "offramp_class"))
  else None.

Definition isAbsent (v : option jval) : bool := match v with None => true | Some _ => false end.

Definition exactOpenSpecReason (value : option jval) (k : BlockerKind) (off : option PreMergeOfframpClass) : bool :=
  let stage := fieldOf (fieldOf value "detail") "stage" in
  hasField value "reason_code" "openspec-archive-apply-conflict" && bool_decide (k = KOpenspecInvalid) &&
    bool_decide (stage = Some (JStr "pre-merge")) && bool_decide (off = Some OffOpenspecInvalid) ||
  hasField value "reason_code" "openspec-generated-delta-invalid" && bool_decide (k = KOpenspecInvalid) &&
    (bool_decide (stage = Some (JStr "planning")) || bool_decide (stage = Some (JStr "plan-review"))) && bool_decide (off = None).

Definition exactEnvironmentAuthReason (value : option jval) (k : BlockerKind) (off : option PreMergeOfframpClass) : bool :=
  hasField value "reason_code" "environment-auth" && bool_decide (k = KHarnessFailure) && bool_decide (off = None).

Definition ADDITIVE_MECHANICAL_REASONS : list StageDiagnosticReasonCode :=
  [RTransientInfra; RHarnessTimeout; RHarnessBackgroundWait; RHarnessContract; RRepairBudgetExhausted; RExternalWait;
   RHumanContextRequired; RCapabilityRefusal; RModelEntitlementRequired].
Definition ADDITIVE_MECHANICAL_KINDS : list BlockerKind :=
  [KHarnessFailure; KPushFailed; KNeedsHuman; KWorktreeMissing; KWorktreeCreationFailed; KWorktreeSetupFailed; KNoPullRequest;
   KPrCreationFailed].

Definition exactAdditiveMechanicalReason (value : option jval) (k : BlockerKind) (off : option PreMergeOfframpClass) : bool :=
  match asReasonCode (fieldOf value "reason_code") with
  | Some r => includes r ADDITIVE_MECHANICAL_REASONS
  | None => false
  end && bool_decide (off = None) && includes k ADDITIVE_MECHANICAL_KINDS.

Definition acceptedReason (value : option jval) (k : BlockerKind) (off : option PreMergeOfframpClass) : bool :=
  hasField value "reason_code" (reason_name (reasonCodeFor k off)) || exactOpenSpecReason value k off ||
  exactEnvironmentAuthReason value k off || exactAdditiveMechanicalReason value k off.

Definition projectStageDiagnostic (value : option jval) : StageDiagnosticProjection :=
  match value with
  | Some (JObj _) =>
      if negb (hasField value "schema" STAGE_DIAGNOSTIC_SCHEMA)
      then protocolFailure ("unsupported stage diagnostic schema " +:+ stringifyOf (fieldOf value "schema"))
      else match readDetail value with
      | None => protocolFailure "malformed pipeline/stage-diagnostic@1 detail"
      | Some (k, off) =>
          let evidence := fieldOf (fieldOf value "detail") "authority_evidence" in
          if (if decide (k = KHumanDecisionRequired) then negb (validAuthorityEvidence evidence) else negb (isAbsent evidence))
          then protocolFailure "human authority diagnostic is missing valid current finding evidence"
          else if negb (acceptedReason value k off)
          then protocolFailure ("inconsistent stage diagnostic reason_code " +:+ stringifyOf (fieldOf value "reason_code"))
          else if negb (isNonBlank (fieldOf value "evidence_key"))
          then protocolFailure "stage diagnostic evidence_key is missing"
          else projectPipelineReasonCode (fieldOf value "reason_code")
      end
  | _ => protocolFailure "missing pipeline/stage-diagnostic@1"
  end.

(** ** Building *)

(** The typed input; the structured sub-records are passed through as they
    are. *)
Record DiagnosticInput := mkDiagnosticInput {
  dg_reasonCode : option StageDiagnosticReasonCode;
  dg_evidenceKey : option string;
  dg_blockerKind : BlockerKind;
  dg_reason : string;
  dg_stage : option string;
  dg_offrampClass : option PreMergeOfframpClass;
  dg_authorityEvidence : option (list jval);
  dg_preflightFailed : option bool;
  dg_preflightClass : option string;
  dg_preflightReasonCode : option string;
  dg_preflightInterventionKind : option string;
  dg_evidenceOrdering : option jval;
  dg_processExit : option jval;
}.

(** [...(v !== undefined ? { k: v } : {})]. *)
Definition optional (k : string) (v : option jval) : obj jval := match v with Some x => [(k, x)] | None => [] end.

Definition detailOf (i : DiagnosticInput) : obj jval :=
  [("blocker_kind", JStr (kind_name (dg_blockerKind i))); ("reason", JStr (dg_reason i))] ++
  optional "stage" (JStr <$> dg_stage i) ++ optional "offramp_class" (JStr ∘ offramp_name <$> dg_offrampClass i) ++
  optional "authority_evidence" (JArr <$> dg_authorityEvidence i) ++ optional "preflight_failed" (JBool <$> dg_preflightFailed i) ++
  optional "preflight_class" (JStr <$> dg_preflightClass i) ++ optional "preflight_reason_code" (JStr <$> dg_preflightReasonCode i) ++
  optional "preflight_intervention_kind" (JStr <$> dg_preflightInterventionKind i) ++
  optional "evidence_ordering" (dg_evidenceOrdering i) ++ optional "process_exit" (dg_processExit i).

Context (sha256hex : string → string).

(** [v ?? null]. *)
Definition orNull (v : option jval) : jval := default JNull v.

Definition evidenceKeyFor (r : StageDiagnosticReasonCode) (detail : obj jval) : string :=
  let f k := (k, orNull (oget detail k)) in
  "sha256:" +:+ sha256hex (stringify (JObj
    [("schema", JStr STAGE_DIAGNOSTIC_SCHEMA); ("reason_code", JStr (reason_name r));
     ("blocker_kind", orNull (oget detail "blocker_kind")); f "stage"; f "offramp_class"; f "authority_evidence"; f "preflight_failed";
     f "preflight_class"; f "preflight_reason_code"; f "preflight_intervention_kind"; f "evidence_ordering"; f "process_exit"])).

Definition diagnosticOf (i : DiagnosticInput) : jval :=
  let r := default (reasonCodeFor (dg_blockerKind i) (dg_offrampClass i)) (dg_reasonCode i) in
  JObj [("schema", JStr STAGE_DIAGNOSTIC_SCHEMA); ("reason_code", JStr (reason_name r));
        ("evidence_key", JStr (default (evidenceKeyFor r (detailOf i)) (dg_evidenceKey i))); ("detail", JObj (detailOf i))].

(** An [Error] is its message. *)
Definition buildStageDiagnostic (i : DiagnosticInput) : result string jval :=
  let d := diagnosticOf i in
  let p := projectStageDiagnostic (Some d) in
  if decide (pj_disposition p = ProtocolFailure) then Err (default "invalid stage diagnostic" (pj_protocolError p)) else Ok d.

(** ** Consumers *)

(** The parameter is typed: [reviewed_sha] is a string. *)
Definition isCurrentHumanAuthorityDiagnostic (d : jval) (currentHead : string) : bool :=
  if decide (pj_disposition (projectStageDiagnostic (Some d)) ≠ HumanAuthorityDisposition) then false
  else
    let normalized := lowerString (js_trim currentHead) in
    bool_decide (normalized ≠ "") &&
    match fieldOf (fieldOf (Some d) "detail") "authority_evidence" with
    | Some (JArr xs) => forallb (fun x => match fieldOf (Some x) "reviewed_sha" with
                                          | Some (JStr sha) => bool_decide (lowerString sha = normalized)
                                          | _ => false
                                          end) xs
    | _ => false
    end.

Record StageDiagnosticResolution := mkResolution {
  rs_projection : StageDiagnosticProjection;
  rs_diagnostic : option jval;
}.

Definition blockerSetKind (event : option jval) : option (BlockerKind * option PreMergeOfframpClass) :=
  k ← isBlockerKind (fieldOf event "blocker_kind");
  if hasField event "type" "blocker_set" && isNonBlank (fieldOf event "reason") && absentOr isNonBlank (fieldOf event "stage") &&
     absentOr (fun v => bool_decide (is_Some (isPreMergeOfframpClass v))) (fieldOf event "offramp_class")
  then Some (k, isPreMergeOfframpClass (fieldOf event "offramp_class"))
  else None.

Definition stageDiagnosticFromBlockerSet (event : option jval) : result string StageDiagnosticResolution :=
  match event with
  | Some (JObj _) =>
      match blockerSetKind event with
      | None => Ok (mkResolution (protocolFailure
                  "final blocker_set is missing a recognized blocker_kind or valid structured fields") None)
      | Some (k, off) =>
          match fieldOf event "diagnostic" with
          | Some d =>
              let p := projectStageDiagnostic (Some d) in
              let detail := fieldOf (Some d) "detail" in
              if decide (pj_disposition p = ProtocolFailure) then Ok (mkResolution p None)
              else if forallb (fun f => bool_decide (fieldOf detail f = fieldOf event f)) ["blocker_kind"; "reason"; "stage"; "offramp_class"]
              then Ok (mkResolution p (Some d))
              else Ok (mkResolution (protocolFailure "producer diagnostic conflicts with its enclosing blocker_set") None)
          | None =>
              try d := buildStageDiagnostic (mkDiagnosticInput None None k (default "" (nonBlankString (fieldOf event "reason")))
                         (fieldOf event "stage" ≫= asString) off None None None None None None None) in
              Ok (mkResolution (projectStageDiagnostic (Some d)) (Some d))
          end
      end
  | _ => Ok (mkResolution (projectStageDiagnostic (Some JNull)) None)
  end.

(** The lines of the event file, parsed; [None] is output that is not JSON. *)
Definition lastBlockerSet (events : list (option jval)) : option jval :=
  last (omap (fun e => if hasField e "type" "blocker_set" then e else None) events).

Record DiagnosticWriteHealthHint := mkWriteHealth {
  wh_failure_count : Z;
  wh_worst_criticality : option string;
  wh_last_error : option string;
  wh_last_event_type : option string;
}.

Definition isElevatedDiagnosticWriteHealth (h : option DiagnosticWriteHealthHint) : bool :=
  match h with Some x => (0 <? wh_failure_count x)%Z | None => false end.

Definition lastStageDiagnosticFromEvents (events : list (option jval)) (health : option DiagnosticWriteHealthHint)
    : result string StageDiagnosticResolution :=
  match lastBlockerSet events with
  | Some e => stageDiagnosticFromBlockerSet (Some e)
  | None =>
      match health with
      | Some h =>
          if isElevatedDiagnosticWriteHealth health then
            Ok (mkResolution (protocolFailure
              ("blocked item has no final blocker_set diagnostic after event-stream write failure (failures=" +:+
               showNum (num (wh_failure_count h)) +:+ ", worst_criticality=" +:+ default "unknown" (wh_worst_criticality h) +:+
               ", last_type=" +:+ default "unknown" (wh_last_event_type h) +:+ ", last_error=" +:+ default "unknown" (wh_last_error h) +:+ ")"))
              None)
          else Ok (mkResolution (protocolFailure "blocked item has no final blocker_set diagnostic") None)
      | None => Ok (mkResolution (protocolFailure "blocked item has no final blocker_set diagnostic") None)
      end
  end.
End Diagnostic.

(** ** Facts *)

Lemma spelled_spec {A} (name : A → string) all v x :
  (∀ y, y ∈ all) → Inj (=) (=) name → spelled name all v = Some x ↔ v = Some (JStr (name x)).
Proof.
  intros Hall Hinj. unfold spelled. split.
  - destruct v as [[]|]; try done. intros H. destruct (list_find _ all) as [[n y]|] eqn:E; [|done]. simpl in H. simplify_eq.
    apply list_find_Some in E as (_ & <- & _). done.
  - intros ->. destruct (list_find_elem_of (fun y => name y = name x) all x (Hall x) eq_refl) as [[n y] E]. rewrite E. simpl.
    apply list_find_Some in E as (_ & Hy & _). by rewrite (Hinj _ _ Hy).
Qed.

Lemma kind_known k : k ∈ BLOCKER_KINDS.
Proof. destruct k; by (apply (bool_decide_unpack _); vm_compute). Qed.
Lemma offramp_known c : c ∈ PRE_MERGE_OFFRAMP_CLASSES.
Proof. destruct c; by (apply (bool_decide_unpack _); vm_compute). Qed.
Lemma reason_known r : r ∈ STAGE_DIAGNOSTIC_REASON_CODES.
Proof. destruct r; by (apply (bool_decide_unpack _); vm_compute). Qed.

(** Distinct members of a list of names are spelled differently. *)
Lemma names_inj {A} (name : A → string) all : (∀ y, y ∈ all) → NoDup (name <$> all) → Inj (=) (=) name.
Proof.
  intros Hall Hnd x y Hxy. destruct (list_elem_of_lookup_1 all x (Hall x)) as [i Hi].
  destruct (list_elem_of_lookup_1 all y (Hall y)) as [j Hj].
  assert (i = j) as ->; [|congruence]. apply (NoDup_lookup _ i j (name x) Hnd); rewrite list_lookup_fmap; [by rewrite Hi|by rewrite Hj, Hxy].
Qed.

#[export] Instance kind_name_inj : Inj (=) (=) kind_name.
Proof. apply (names_inj _ BLOCKER_KINDS kind_known). by apply (bool_decide_unpack _); vm_compute. Qed.
#[export] Instance offramp_name_inj : Inj (=) (=) offramp_name.
Proof. apply (names_inj _ PRE_MERGE_OFFRAMP_CLASSES offramp_known). by apply (bool_decide_unpack _); vm_compute. Qed.
#[export] Instance reason_name_inj : Inj (=) (=) reason_name.
Proof. apply (names_inj _ STAGE_DIAGNOSTIC_REASON_CODES reason_known). by apply (bool_decide_unpack _); vm_compute. Qed.

Lemma kind_spec v k : isBlockerKind v = Some k ↔ v = Some (JStr (kind_name k)).
Proof. apply spelled_spec; [apply kind_known|apply _]. Qed.
Lemma offramp_spec v c : isPreMergeOfframpClass v = Some c ↔ v = Some (JStr (offramp_name c)).
Proof. apply spelled_spec; [apply offramp_known|apply _]. Qed.
Lemma reason_spec v r : asReasonCode v = Some r ↔ v = Some (JStr (reason_name r)).
Proof. apply spelled_spec; [apply reason_known|apply _]. Qed.

Lemma hasField_spec v k s : hasField v k s = true ↔ fieldOf v k = Some (JStr s).
Proof. apply bool_decide_eq_true. Qed.

(** Only one reason code is a human's. *)
Lemma project_human r : pj_disposition (projectReason r) = HumanAuthorityDisposition ↔ r = RHumanDecisionRequired.
Proof. by destruct r. Qed.

Lemma project_recognized r : pj_disposition (projectReason r) ≠ ProtocolFailure.
Proof. by destruct r. Qed.

Lemma reasonFor_human k off : reasonCodeFor k off = RHumanDecisionRequired ↔ k = KHumanDecisionRequired.
Proof. unfold reasonCodeFor. case_decide; [done|]. destruct off as [[]|], k; done. Qed.

Section Facts.
Context (showNum : jsnum → string) (stringify : jval → string) (signals : list string).

#[local] Abbreviation project := (projectStageDiagnostic showNum stringify signals).

(** The accepted codes of an authority diagnostic, and of no other. *)
Lemma accepted_human v k off :
  fieldOf v "reason_code" = Some (JStr (reason_name RHumanDecisionRequired)) →
  acceptedReason v k off = true ↔ k = KHumanDecisionRequired.
Proof.
  intros Hr. unfold acceptedReason, exactOpenSpecReason, exactEnvironmentAuthReason, exactAdditiveMechanicalReason.
  rewrite (proj2 (reason_spec _ _) Hr). unfold hasField. rewrite Hr. split.
  - intros H. apply orb_true_iff in H as [H|H]; [|by vm_compute in H].
    apply orb_true_iff in H as [H|H]; [|by vm_compute in H]. apply orb_true_iff in H as [H|H]; [|by vm_compute in H].
    apply bool_decide_eq_true in H. injection H as H. by apply reasonFor_human with off, (inj reason_name).
  - intros ->. by rewrite (proj2 (reasonFor_human KHumanDecisionRequired off) eq_refl).
Qed.

(** The branches of the projection. *)
Lemma project_cases v p :
  project v = p → pj_disposition p ≠ ProtocolFailure →
  ∃ fs k off r, v = Some (JObj fs) ∧ fieldOf v "schema" = Some (JStr STAGE_DIAGNOSTIC_SCHEMA) ∧
    readDetail signals v = Some (k, off) ∧
    (if decide (k = KHumanDecisionRequired) then validAuthorityEvidence showNum (fieldOf (fieldOf v "detail") "authority_evidence") = true
     else fieldOf (fieldOf v "detail") "authority_evidence" = None) ∧
    acceptedReason v k off = true ∧ isNonBlank (fieldOf v "evidence_key") = true ∧
    fieldOf v "reason_code" = Some (JStr (reason_name r)) ∧ p = projectReason r.
Proof.
  intros <- Hd. unfold projectStageDiagnostic in *. destruct v as [[| | | | |fs]|]; try done. exists fs.
  destruct (hasField _ "schema" _) eqn:Es; [|done]. apply hasField_spec in Es. cbn [negb] in *.
  destruct (readDetail _ _) as [[k off]|]; [|done]. exists k, off.
  destruct (if decide (k = KHumanDecisionRequired) then _ else _) eqn:Ea; [done|].
  destruct (acceptedReason _ _ _) eqn:Er; [|done]. destruct (isNonBlank _) eqn:Ek; [|done]. cbn [negb] in *.
  unfold projectPipelineReasonCode in *. destruct (asReasonCode _) as [r|] eqn:Ec; [|done]. exists r. apply reason_spec in Ec.
  do 3 (split; [done|]). split; [|done].
  case_decide; [by apply negb_false_iff in Ea|]. apply negb_false_iff in Ea. by destruct (fieldOf _ "authority_evidence").
Qed.

Lemma authorityEvidence_spec v :
  validAuthorityEvidence showNum v = true ↔
  ∃ xs, v = Some (JArr xs) ∧ xs ≠ [] ∧ ∀ x, x ∈ xs → validAuthorityEntry showNum x = true.
Proof.
  unfold validAuthorityEvidence. split.
  - destruct v as [[| | | |xs|]|]; try done. rewrite andb_true_iff, bool_decide_eq_true, forallb_elem. intros [? ?]. by exists xs.
  - intros (xs & -> & Hne & Hall). by rewrite andb_true_iff, bool_decide_eq_true, forallb_elem.
Qed.

(** The loop hands work to a human exactly on proof: a diagnostic has the
    human-authority disposition if and only if it is a well-formed diagnostic of
    kind and reason [human-decision-required] that carries at least one authority
    record, each naming its category, finding, fingerprint and reviewed commit;
    no other kind, reason code or text can claim it. *)
Theorem authority_needs_evidence v :
  pj_disposition (project v) = HumanAuthorityDisposition ↔
  ∃ fs off xs, v = Some (JObj fs) ∧ fieldOf v "schema" = Some (JStr STAGE_DIAGNOSTIC_SCHEMA) ∧
    readDetail signals v = Some (KHumanDecisionRequired, off) ∧
    fieldOf (fieldOf v "detail") "authority_evidence" = Some (JArr xs) ∧ xs ≠ [] ∧
    (∀ x, x ∈ xs → validAuthorityEntry showNum x = true) ∧
    fieldOf v "reason_code" = Some (JStr "human-decision-required") ∧ isNonBlank (fieldOf v "evidence_key") = true.
Proof.
  split.
  - intros H. destruct (project_cases v (project v) eq_refl) as (fs & k & off & r & Hv & Hs & Hd & Ha & Hacc & Hk & Hr & Hp).
    { by rewrite H. }
    rewrite Hp in H. apply project_human in H as ->. apply accepted_human in Hacc as ->; [|done].
    rewrite decide_True in Ha by done. apply authorityEvidence_spec in Ha as (xs & Hx & Hne & Hall).
    by exists fs, off, xs.
  - intros (fs & off & xs & -> & Hs & Hd & Hx & Hne & Hall & Hr & Hk). unfold projectStageDiagnostic.
    rewrite (proj2 (hasField_spec _ _ _) Hs). cbn [negb]. rewrite Hd, decide_True by done.
    rewrite (proj2 (authorityEvidence_spec _)) by by exists xs. cbn [negb].
    rewrite (proj2 (accepted_human _ KHumanDecisionRequired off Hr) eq_refl), Hk. cbn [negb]. unfold projectPipelineReasonCode.
    by rewrite (proj2 (reason_spec _ RHumanDecisionRequired) Hr).
Qed.

(** ** Free text has no say *)

(** The same diagnostic with another reason text. *)
Definition withReason (fs ds : obj jval) (r : string) : jval := JObj (oset "detail" (JObj (oset "reason" (JStr r) ds)) fs).

(** The projection is blind to prose: two diagnostics that differ only in
    their (non-blank) reason text have the same blocker class, disposition and
    protocol error. *)
Theorem projection_ignores_prose fs ds r1 r2 :
  blank r1 = false → blank r2 = false → project (Some (withReason fs ds r1)) = project (Some (withReason fs ds r2)).
Proof.
  intros H1 H2.
  assert (∀ r k, k ≠ "detail" → fieldOf (Some (withReason fs ds r)) k = oget fs k) as Hf.
  { intros r k Hk. unfold withReason. simpl. by apply oget_oset_ne. }
  assert (∀ r, fieldOf (Some (withReason fs ds r)) "detail" = Some (JObj (oset "reason" (JStr r) ds))) as Hd.
  { intros r. unfold withReason. cbn [fieldOf]. apply oget_oset_eq. }
  assert (∀ r k, k ≠ "reason" → fieldOf (Some (JObj (oset "reason" (JStr r) ds))) k = oget ds k) as Hk.
  { intros r k Hn. simpl. by apply oget_oset_ne. }
  assert (∀ r, blank r = false → isNonBlank (fieldOf (Some (JObj (oset "reason" (JStr r) ds))) "reason") = true) as Hb.
  { intros r Hr. cbn [fieldOf]. rewrite oget_oset_eq. unfold isNonBlank. simpl. by rewrite Hr. }
  assert (readDetail signals (Some (withReason fs ds r1)) = readDetail signals (Some (withReason fs ds r2))) as Hread.
  { unfold readDetail. rewrite !Hd, !Hb by done. unfold hasField. rewrite !Hk, !Hf by done. done. }
  pose proof (Hf r1) as F1. pose proof (Hf r2) as F2. pose proof (Hd r1) as D1. pose proof (Hd r2) as D2. clear Hf Hd.
  assert (∀ r, ∃ gs, withReason fs ds r = JObj gs) as Hv by (intros r; by eexists).
  destruct (Hv r1) as [g1 E1], (Hv r2) as [g2 E2]. rewrite E1, E2 in *. unfold projectStageDiagnostic. rewrite Hread.
  unfold acceptedReason, exactOpenSpecReason, exactEnvironmentAuthReason, exactAdditiveMechanicalReason, hasField.
  rewrite !D1, !D2, !F1, !F2, !Hk by done. done.
Qed.

(** ** The builder and the blocker event *)

Context (sha256hex : string → string).

#[local] Abbreviation diagnostic := (diagnosticOf stringify sha256hex).
#[local] Abbreviation fromBlockerSet := (stageDiagnosticFromBlockerSet showNum stringify signals sha256hex).

Lemma key_nonblank r d : isNonBlank (Some (JStr (evidenceKeyFor stringify sha256hex r d))) = true.
Proof.
  unfold isNonBlank, nonBlankString, evidenceKeyFor. cbv zeta.
  assert (∀ t, blank ("sha256:" +:+ t) = false) as Hb; [|by rewrite Hb].
  intros t. unfold blank. apply bool_decide_eq_false. intros Ht.
  apply (f_equal reverse) in Ht. unfold trim in Ht. rewrite reverse_involutive in Ht. simpl in Ht.
  assert (∀ (c : ascii) l, js_space c = false → drop_spaces (reverse (c :: l)) ≠ []) as Hd; [|by eapply Hd in Ht].
  intros c l Hc. rewrite reverse_cons. induction (reverse l) as [|x m IH]; simpl; [by rewrite Hc|by destruct (js_space x)].
Qed.

(** The input of a producer that names only the kind, the reason, the stage and
    the off-ramp. *)
Definition coarse k reason stage off : DiagnosticInput :=
  mkDiagnosticInput None None k reason stage off None None None None None None None.

Lemma coarse_detail k reason stage off f :
  f ∈ ["blocker_kind"; "reason"; "stage"; "offramp_class"] →
  fieldOf (fieldOf (Some (diagnostic (coarse k reason stage off))) "detail") f =
  oget ([("blocker_kind", JStr (kind_name k)); ("reason", JStr reason)] ++
        optional "stage" (JStr <$> stage) ++ optional "offramp_class" (JStr ∘ offramp_name <$> off)) f.
Proof. intros _. by destruct stage, off. Qed.

Lemma coarse_read k reason stage off :
  blank reason = false → (∀ s, stage = Some s → blank s = false) →
  readDetail signals (Some (diagnostic (coarse k reason stage off))) = Some (k, off).
Proof.
  intros Hr Hs.
  assert (∀ f, fieldOf (fieldOf (Some (diagnostic (coarse k reason stage off))) "detail") f = oget (detailOf (coarse k reason stage off)) f)
    as Hf by done.
  unfold readDetail. rewrite !Hf. clear Hf.
  assert (oget (detailOf (coarse k reason stage off)) "stage" = JStr <$> stage) as -> by by destruct stage, off.
  assert (oget (detailOf (coarse k reason stage off)) "offramp_class" = JStr ∘ offramp_name <$> off) as -> by by destruct stage, off.
  assert (oget (detailOf (coarse k reason stage off)) "observation_uncertainty" = None) as -> by by destruct stage, off.
  assert (oget (detailOf (coarse k reason stage off)) "process_exit" = None) as -> by by destruct stage, off.
  assert (oget (detailOf (coarse k reason stage off)) "blocker_kind" = Some (JStr (kind_name k))) as -> by done.
  assert (oget (detailOf (coarse k reason stage off)) "reason" = Some (JStr reason)) as -> by done.
  rewrite (proj2 (kind_spec _ k) eq_refl). cbn [mbind option_bind absentOr].
  assert (isNonBlank (Some (JStr reason)) = true) as -> by (unfold isNonBlank; simpl; by rewrite Hr).
  assert (absentOr isNonBlank (JStr <$> stage) = true) as ->.
  { destruct stage as [s|]; [|done]. unfold isNonBlank. simpl. by rewrite (Hs s). }
  destruct off as [o|]; [|done]. cbn [fmap option_fmap option_map absentOr andb compose].
  by rewrite (proj2 (offramp_spec _ o) eq_refl).
Qed.

Lemma coarse_project k reason stage off :
  blank reason = false → (∀ s, stage = Some s → blank s = false) →
  project (Some (diagnostic (coarse k reason stage off))) =
  if decide (k = KHumanDecisionRequired) then protocolFailure "human authority diagnostic is missing valid current finding evidence"
  else projectReason (reasonCodeFor k off).
Proof.
  intros Hr Hs. pose proof (coarse_read k reason stage off Hr Hs) as Hd.
  assert (∃ fs, diagnostic (coarse k reason stage off) = JObj fs) as [fs E] by by eexists.
  assert (fieldOf (Some (JObj fs)) "schema" = Some (JStr STAGE_DIAGNOSTIC_SCHEMA)) as Fs by by rewrite <- E.
  assert (fieldOf (fieldOf (Some (JObj fs)) "detail") "authority_evidence" = None) as Fa by (rewrite <- E; by destruct stage, off).
  assert (fieldOf (Some (JObj fs)) "reason_code" = Some (JStr (reason_name (reasonCodeFor k off)))) as Fr by by rewrite <- E.
  assert (isNonBlank (fieldOf (Some (JObj fs)) "evidence_key") = true) as Fk by (rewrite <- E; apply key_nonblank).
  rewrite E in *. unfold projectStageDiagnostic. rewrite (proj2 (hasField_spec _ _ _) Fs), Hd, Fa. cbn [negb].
  case_decide; [done|]. cbn [isAbsent negb]. unfold acceptedReason. rewrite (proj2 (hasField_spec _ _ _) Fr), Fk. cbn [orb negb].
  unfold projectPipelineReasonCode. by rewrite (proj2 (reason_spec _ _) Fr).
Qed.

Lemma nonBlank_spec v : isNonBlank v = true ↔ ∃ s, v = Some (JStr s) ∧ blank s = false.
Proof.
  unfold isNonBlank, nonBlankString. rewrite bool_decide_eq_true. split.
  - intros [s H]. destruct v as [[]|]; try done. case_match eqn:E; [done|]. by eexists.
  - intros (s & -> & E). rewrite E. by eexists.
Qed.

(** The fields of a recognized blocker event. *)
Lemma blockerSetKind_fields e k off :
  blockerSetKind e = Some (k, off) →
  ∃ reason stage, blank reason = false ∧ (∀ s, stage = Some s → blank s = false) ∧
    fieldOf e "blocker_kind" = Some (JStr (kind_name k)) ∧ fieldOf e "reason" = Some (JStr reason) ∧
    fieldOf e "stage" = JStr <$> stage ∧ fieldOf e "offramp_class" = JStr ∘ offramp_name <$> off.
Proof.
  unfold blockerSetKind. intros H. destruct (isBlockerKind _) as [k'|] eqn:Ek; [|done]. apply kind_spec in Ek. cbn in H.
  case_match eqn:E; [|done]. simplify_eq. rewrite !andb_true_iff in E. destruct E as [[[_ Hr] Hs] Ho].
  apply nonBlank_spec in Hr as (reason & Hr & Hb). exists reason.
  assert (∃ stage, (∀ s, stage = Some s → blank s = false) ∧ fieldOf e "stage" = JStr <$> stage) as (stage & Hst & Est).
  { destruct (fieldOf e "stage") as [v|]; [|by exists None]. apply nonBlank_spec in Hs as (s & Hv & Hn). simplify_eq.
    exists (Some s). split; [naive_solver|done]. }
  exists stage. do 4 (split; [done|]). split; [done|].
  destruct (fieldOf e "offramp_class") as [v|]; [|done]. cbn [absentOr] in Ho.
  apply bool_decide_eq_true in Ho as [o Ho]. rewrite Ho. by apply offramp_spec in Ho.
Qed.

(** Reading a run's blocker event never invents an outcome.  The reader throws
    exactly on a recognized [human-decision-required] event without a diagnostic;
    otherwise, with no diagnostic the result is a protocol failure, and with one
    it is that diagnostic's own accepted projection, its detail agreeing with the
    enclosing event in kind, reason, stage and off-ramp class; a diagnostic the
    reader builds itself has the projection of the event's kind and off-ramp. *)
Theorem blocker_event_resolved e :
  match fromBlockerSet e with
  | Err _ => ∃ off, blockerSetKind e = Some (KHumanDecisionRequired, off) ∧ fieldOf e "diagnostic" = None
  | Ok r =>
      match rs_diagnostic r with
      | None => pj_disposition (rs_projection r) = ProtocolFailure
      | Some d =>
          rs_projection r = project (Some d) ∧ pj_disposition (rs_projection r) ≠ ProtocolFailure ∧
          (∀ f, f ∈ ["blocker_kind"; "reason"; "stage"; "offramp_class"] → fieldOf (fieldOf (Some d) "detail") f = fieldOf e f) ∧
          match fieldOf e "diagnostic" with
          | Some d' => d' = d
          | None => ∃ k off, blockerSetKind e = Some (k, off) ∧ rs_projection r = projectReason (reasonCodeFor k off)
          end
      end
  end.
Proof.
  unfold stageDiagnosticFromBlockerSet. destruct e as [[| | | | |fs]|]; try done.
  destruct (blockerSetKind _) as [[k off]|] eqn:Eb; [|done].
  destruct (fieldOf (Some (JObj fs)) "diagnostic") as [d|] eqn:Ed.
  - case_decide as Hp; [done|]. destruct (forallb _ _) eqn:Ef; [|done]. cbn [rs_diagnostic rs_projection].
    rewrite forallb_elem in Ef. do 2 (split; [done|]). split; [|done]. intros f Hf. by apply Ef, bool_decide_eq_true in Hf.
  - destruct (blockerSetKind_fields _ _ _ Eb) as (reason & stage & Hb & Hs & Fk & Fr & Fs & Fo).
    assert (fieldOf (Some (JObj fs)) "stage" ≫= asString = stage) as -> by (rewrite Fs; by destruct stage).
    assert (default "" (nonBlankString (fieldOf (Some (JObj fs)) "reason")) = reason) as -> by (rewrite Fr; simpl; by rewrite Hb).
    pose proof (coarse_project k reason stage off Hb Hs) as Hp. unfold coarse in Hp. unfold buildStageDiagnostic. cbv zeta. rewrite Hp.
    case_decide as Hk; [subst; simpl; by exists off|].
    rewrite decide_False by apply project_recognized. cbn [rbind rs_diagnostic rs_projection].
    split; [done|]. rewrite Hp. split; [apply project_recognized|]. split; [|by exists k, off].
    intros f Hf. change (mkDiagnosticInput None None k reason stage off None None None None None None None) with (coarse k reason stage off).
    rewrite coarse_detail by done. rewrite !elem_of_cons in Hf. destruct Hf as [->|[->|[->|[->|Hf]]]]; [done|done| | |by inv Hf].
    + rewrite Fs. by destruct stage, off.
    + rewrite Fo. by destruct stage, off.
Qed.

End Facts.

(** ** A run of the readers *)

Module DiagnosticSample.
Definition show (_ : jsnum) : string := "0".
Definition shown (_ : jval) : string := "value".
Definition digest (_ : string) : string := "00".

Definition authority : jval :=
  JObj [("category", JStr "authority"); ("finding_key", JStr "0a1b2c3d"); ("finding_fingerprint", JStr "0123456789abcdef");
        ("reviewed_sha", JStr "ABCDEF0123")].
Definition input : DiagnosticInput :=
  mkDiagnosticInput None None KHumanDecisionRequired "choose" (Some "review-1") None (Some [authority]) None None None None None None.

Example authority_built :
  match buildStageDiagnostic show shown [] digest input with
  | Ok d => pj_disposition (projectStageDiagnostic show shown [] (Some d)) = HumanAuthorityDisposition ∧
            isCurrentHumanAuthorityDiagnostic show shown [] d " abcdef0123 " = true ∧
            isCurrentHumanAuthorityDiagnostic show shown [] d "abcdef0124" = false
  | Err _ => False
  end.
Proof. vm_compute. done. Qed.

Definition blocked (kind : string) : option jval :=
  Some (JObj [("type", JStr "blocker_set"); ("blocker_kind", JStr kind); ("reason", JStr "why")]).

(** The event of a human decision without its evidence escapes as an exception. *)
Example authority_event_throws :
  lastStageDiagnosticFromEvents show shown [] digest [blocked "human-decision-required"] None =
  Err "human authority diagnostic is missing valid current finding evidence".
Proof. reflexivity. Qed.

Example last_event_wins :
  match lastStageDiagnosticFromEvents show shown [] digest [blocked "review-findings"; None; blocked "worktree-capacity"; Some JNull] None with
  | Ok r => rs_projection r = projectReason RWorktreeCapacity
  | Err _ => False
  end.
Proof. vm_compute. done. Qed.

Definition detail : obj jval := [("blocker_kind", JStr "needs-human"); ("reason", JStr "x")].
Definition envelope : obj jval :=
  [("schema", JStr STAGE_DIAGNOSTIC_SCHEMA); ("reason_code", JStr "external-wait"); ("evidence_key", JStr "k"); ("detail", JObj detail)].

Lemma projection_ignores_prose_witness :
  projectStageDiagnostic show shown [] (Some (withReason envelope detail "waiting for the upstream release")) = projectReason RExternalWait ∧
  projectStageDiagnostic show shown [] (Some (withReason envelope detail "waiting for the upstream release")) =
  projectStageDiagnostic show shown [] (Some (withReason envelope detail "needs human authority decision")).
Proof. split; [vm_compute; reflexivity|]. apply (projection_ignores_prose show shown [] envelope detail); vm_compute; reflexivity. Defined.
End DiagnosticSample.
