(* ===== verification/Applicability.v ===== *)
(** * Evidence identities and the applicability of recovery recipes

    [normalizeEvidenceIdentity] of [core/scripts/loop/recovery-episodes.ts], the
    contract of [core/scripts/loop/recovery-applicability.ts] shared by the
    selection and the execution of a recipe (with the recipe filters of
    [harness-adapters/background-job-lifecycle.ts] and
    [rebind-tester-evidence-after-pr.ts]), and the queries of
    [core/scripts/loop/recovery.ts] that decide whether a run under a mechanical
    stop still has a sibling to continue.  A diagnostic is the [jval] the
    document holds; SHA-256 and JSON text are parameters. *)

From Stdlib Require Import ZArith Ascii.
From stdpp Require Import numbers base gmap strings list pretty.
From S2P Require Import Prelude Regex LoopTypes Lifecycle RecoveryPolicy Frontier TypedRequests RecoveryEpisodes RecoveryHandlers Store Holds StageDiagnostic.
Local Open Scope result_scope.
Local Open Scope nat_scope.

(** ** The identity of an evidence text *)

Definition hexClass : regex := Char (fun c => isDecimal c || bool_decide (c ∈ chars "abcdef")).
Definition wordSpan (rs : list regex) : regex := cat (Boundary :: rs ++ [Boundary]).

Definition timestampRe : regex :=
  cat [exact 4 digit; lit "-"; exact 2 digit; lit "-"; exact 2 digit; lit "t"; exact 2 digit; lit ":"; exact 2 digit; lit ":";
       exact 2 digit; opt (Cat (lit ".") (plus digit));
       opt (Alt (lit "z") (cat [anyOf "+-"; exact 2 digit; lit ":"; exact 2 digit]))].
Definition uuidRe : regex :=
  wordSpan [exact 8 hexClass; lit "-"; exact 4 hexClass; lit "-"; exact 4 hexClass; lit "-"; exact 4 hexClass; lit "-"; exact 12 hexClass].
Definition requestIdRe : regex :=
  cat [Boundary; Alt (lit "x-request-id") (Alt (lit "x-github-request-id") (cat [lit "request"; opt (anyOf "-_"); lit "id"]));
       plus (Char (fun c => bool_decide (c ∈ chars "=:") || js_space c));
       plus (Char (fun c => isDecimal c || (97 <=? nat_of_ascii c) && (nat_of_ascii c <=? 122) || bool_decide (c ∈ chars "._:-")))].
Definition hashRe : regex := wordSpan [Many 7 (Some 33) hexClass].
Definition spacesRe : regex := plus space.

Definition normalizedEvidence (evidence : string) : string :=
  js_trim (replaceAll spacesRe " " (replaceAll hashRe "<hash>" (replaceAll requestIdRe "<reqid>"
    (replaceAll uuidRe "<id>" (replaceAll timestampRe "<ts>" (lowerString evidence)))))).

Definition normalizeEvidenceIdentity (sha256hex : string → string) (evidence : string) : string :=
  sha256hex (normalizedEvidence evidence).

(** ** Recipes a diagnostic excludes *)

Definition HARNESS_BACKGROUND_WAIT_FORBIDDEN_RECIPES : list RecoveryRecipe := [RepairPipelineItem; PublishUnpublishedStageCommit].
Definition NEVER_STARTED_PREFLIGHT_FORBIDDEN_RECIPES : list RecoveryRecipe :=
  [UnlinkEngineScratch; CheckpointOwnedHarnessDirt; PublishUnpublishedStageCommit].
Definition TESTER_EVIDENCE_ORDERING_INAPPLICABLE_RECIPES : list RecoveryRecipe :=
  [UnlinkEngineScratch; CheckpointOwnedHarnessDirt; PublishUnpublishedStageCommit].

Definition filterRecipesForHarnessBackgroundWait (rs : list RecoveryRecipe) : list RecoveryRecipe :=
  filter (fun r => r ∉ HARNESS_BACKGROUND_WAIT_FORBIDDEN_RECIPES) rs.
Definition filterRecipesForNeverStartedPreflight (rs : list RecoveryRecipe) : list RecoveryRecipe :=
  filter (fun r => r ∉ NEVER_STARTED_PREFLIGHT_FORBIDDEN_RECIPES) rs.
Definition filterRecipesForTesterEvidenceOrdering (rs : list RecoveryRecipe) : list RecoveryRecipe :=
  filter (fun r => r ∉ TESTER_EVIDENCE_ORDERING_INAPPLICABLE_RECIPES) rs.

Definition normalizeCandidateSha (v : option jval) : option string :=
  match v with
  | Some (JStr s) => if isSha40 (js_trim s) then Some (lowerString (js_trim s)) else None
  | _ => None
  end.

Definition isTesterEvidenceOrderingDiagnostic (d : option jval) : bool :=
  let ordering := fieldOf (fieldOf d "detail") "evidence_ordering" in
  let outcome := fieldOf ordering "trusted_surface_outcome" in
  if negb (isObjectValue d) then false
  else if negb (isObjectValue ordering) then false
  else if negb (hasField ordering "kind" "tester_rebind_after_pr") then false
  else if negb (hasField ordering "required_role" "implementation") then false
  else if negb (hasField ordering "observed_role" "missing") then false
  else if match fieldOf ordering "blocker_code" with Some (JStr s) => startsWith s "tester_rebind_" | _ => false end then true
  else if negb (hasField ordering "trusted_surface_outcome" "passthrough") && negb (hasField ordering "trusted_surface_outcome" "rebound") &&
          negb (hasField ordering "trusted_surface_outcome" "blocked") &&
          negb (bool_decide (fieldOf ordering "subject_omitted_because_unobservable" = Some (JBool true))) then false
  else match fieldOf ordering "pr_head" with
  | None | Some JNull | Some (JStr EmptyString) => true
  | v => bool_decide (is_Some (normalizeCandidateSha v))
  end.

Section Applicability.
Context (showNum : jsnum → string) (stringify : jval → string) (signals : list string).

Definition filterRecipesForWorkflowEngineDiagnostic (rs : list RecoveryRecipe) (d : option jval) : list RecoveryRecipe :=
  let detail := fieldOf d "detail" in
  if hasField d "schema" STAGE_DIAGNOSTIC_SCHEMA && hasField d "reason_code" "workflow-engine-defect" &&
     hasField detail "blocker_kind" "harness-failure" && hasField detail "stage" "loop-dispatch" &&
     isNestedAdvanceProcessExit signals (fieldOf detail "process_exit")
  then filter (fun r => r = RestartWorkflowEngine) rs
  else if isTesterEvidenceOrderingDiagnostic d then filterRecipesForTesterEvidenceOrdering rs
  else filter (fun r => r ≠ RebindTesterEvidenceAfterPr) rs.

Inductive RecoveryApplicability := Applicable | NotApplicable (reason : string).

#[export] Instance applicability_eq_dec : EqDecision RecoveryApplicability.
Proof. solve_decision. Defined.

Definition disposition_name (d : StageDiagnosticDisposition) : string :=
  match d with
  | Recover => "recover"
  | HumanAuthorityDisposition => "human_authority"
  | CapacityDisposition => "capacity"
  | ProtocolFailure => "protocol_failure"
  end.

Record RecoveryApplicabilityInput := mkApplicability {
  ra_action : RecoveryRecipe;
  ra_blockerClass : DurableBlockerClass;
  ra_diagnostic : jval;
  ra_candidateHeadPresent : bool;
}.

Definition eligibleRecipes (i : RecoveryApplicabilityInput) : list RecoveryRecipe :=
  let d := Some (ra_diagnostic i) in
  let e1 := [ra_action i] in
  let e2 := if hasField d "reason_code" "harness-background-wait" then filterRecipesForHarnessBackgroundWait e1 else e1 in
  let e3 := if bool_decide (fieldOf (fieldOf d "detail") "preflight_failed" = Some (JBool true))
            then filterRecipesForNeverStartedPreflight e2 else e2 in
  if decide (ra_blockerClass i = WorkflowEngineDefect) then filterRecipesForWorkflowEngineDiagnostic e3 d else e3.

Definition recoveryRecipeApplicability (i : RecoveryApplicabilityInput) : RecoveryApplicability :=
  let d := Some (ra_diagnostic i) in
  let p := projectStageDiagnostic showNum stringify signals d in
  let act := recipe_name (ra_action i) in
  if bool_decide (pj_disposition p ≠ Recover) || bool_decide (pj_blockerClass p ≠ ra_blockerClass i)
  then NotApplicable ("diagnostic disposition " +:+ disposition_name (pj_disposition p) +:+ " does not match class " +:+
                      blocker_class_name (ra_blockerClass i))
  else if negb (includes (ra_action i) (eligibleRecipes i)) then NotApplicable ("diagnostic contract excludes " +:+ act)
  else if (bool_decide (ra_action i = VerifyHeadGoal) || bool_decide (ra_action i = RepairPipelineItem)) && negb (ra_candidateHeadPresent i)
  then NotApplicable (act +:+ " requires a current candidate head")
  else if bool_decide (ra_action i = VerifyHeadGoal) && negb (hasField (fieldOf d "detail") "blocker_kind" "no-commits")
  then NotApplicable ("verify_head_goal does not apply to blocker_kind=" +:+ js_StringOf showNum (fieldOf (fieldOf d "detail") "blocker_kind"))
  else Applicable.

(** ** The identity of progress *)

(** [const { k1: _, ..., ...rest } = detail]. *)
Definition without (ks : list string) (fs : obj jval) : obj jval := filter (fun p => p.1 ∉ ks) fs.
Definition objectOf (v : option jval) : obj jval := match v with Some (JObj fs) => fs | _ => [] end.

Definition progressDocument (cls : DurableBlockerClass) (d : jval) : jval :=
  JObj ([("schema", JStr "pipeline/recovery-progress-evidence@1"); ("blocker_class", JStr (blocker_class_name cls))] ++
        if decide (cls = ImplementationCi)
        then optional "reason_code" (fieldOf (Some d) "reason_code") ++
             [("detail", JObj (without ["reason"] (objectOf (fieldOf (Some d) "detail"))))]
        else [("diagnostic", d)]).

Definition recoveryProgressEvidence (cls : DurableBlockerClass) (d : jval) : string := stringify (progressDocument cls d).

(** No value of a document is [undefined]. *)
Definition isCoarseImplementationAttestation (d : jval) : bool :=
  let detail := fieldOf (Some d) "detail" in
  hasField (Some d) "reason_code" "implementation-ci" && negb (isNonBlank (fieldOf detail "stage")) &&
  bool_decide (without ["blocker_kind"; "reason"; "stage"] (objectOf detail) = []).

Definition recoveryRecipeOnlyProvesRedispatch (act : option string) : bool :=
  match act ≫= asRecoveryRecipe with
  | Some RerunCi | Some ResyncWorkflowState | Some RetryUpstreamCheck | Some RestartWorkflowEngine | Some WaitAndRetry
  | Some VerifyAuthentication => true
  | _ => false
  end.

Context (sha256hex : string → string).

Definition progressId (cls : DurableBlockerClass) (d : jval) : string := normalizeEvidenceIdentity sha256hex (recoveryProgressEvidence cls d).

Record ProgressInput := mkProgressInput {
  pi_itemId : string;
  pi_blockerClass : DurableBlockerClass;
  pi_diagnostic : jval;
  pi_priorDiagnostics : list (option jval);
  pi_attempts : list LoopRecoveryAttempt;
  pi_candidateEpoch : string;
}.

Definition ofSameKind (i : ProgressInput) (prior : jval) : bool :=
  let p := projectStageDiagnostic showNum stringify signals (Some prior) in
  let kind d := fieldOf (fieldOf (Some d) "detail") "blocker_kind" in
  bool_decide (pj_disposition p = Recover) && bool_decide (pj_blockerClass p = ImplementationCi) &&
  bool_decide (kind prior = kind (pi_diagnostic i)).

(** The attempts of the episode of [prior] on this candidate. *)
Definition episodeAttempts (i : ProgressInput) (priorIdentity : string) : list LoopRecoveryAttempt :=
  filter (fun a => att_item_id a = pi_itemId i ∧ att_class a = blocker_class_name ImplementationCi ∧
                   evidence_identity a = Some priorIdentity ∧
                   attemptBelongsToCandidateEpoch (att_candidate_epoch a) (candidate_identity a) (pi_candidateEpoch i) = true)
    (pi_attempts i).

Definition resolves (a : LoopRecoveryAttempt) : bool :=
  bool_decide (outcome a = OutRecovered) && negb (recoveryRecipeOnlyProvesRedispatch (action a)).

(** The loop over the prior diagnostics, nearest first. *)
Fixpoint joinPrior (i : ProgressInput) (priors : list (option jval)) : string :=
  let direct := progressId (pi_blockerClass i) (pi_diagnostic i) in
  match priors with
  | [] => direct
  | None :: _ => direct
  | Some prior :: rest =>
      if isCoarseImplementationAttestation prior then if ofSameKind i prior then joinPrior i rest else direct
      else if negb (ofSameKind i prior) || negb (isNonBlank (fieldOf (fieldOf (Some prior) "detail") "stage")) then direct
      else
        let priorIdentity := progressId ImplementationCi prior in
        let attempts := episodeAttempts i priorIdentity in
        if bool_decide (attempts = []) then direct
        else if existsb resolves attempts then direct else priorIdentity
  end.

Definition recoveryProgressIdentity (i : ProgressInput) : string :=
  if bool_decide (pi_blockerClass i ≠ ImplementationCi) || negb (isCoarseImplementationAttestation (pi_diagnostic i))
  then progressId (pi_blockerClass i) (pi_diagnostic i)
  else joinPrior i (pi_priorDiagnostics i).

End Applicability.

(** ** The head of a candidate identity *)

(** [s.split("|")]. *)
Fixpoint splitBar (cur l : list ascii) : list (list ascii) :=
  match l with
  | [] => [reverse cur]
  | c :: l' => if decide (c = ascii_of_nat 124) then reverse cur :: splitBar [] l' else splitBar (c :: cur) l'
  end.

(** The capture of [(?:^|\|)head=([^|]+)] in one segment, ignoring case. *)
Definition headOfSegment (seg : list ascii) : option string :=
  match strip_prefix "head=" (lowerString (unchars seg)) with
  | Some EmptyString | None => None
  | Some s => Some s
  end.

Definition candidateHeadPresentInRecoveryIdentity (candidateIdentity : string) : bool :=
  match list_find (fun s => is_Some (headOfSegment s)) (splitBar [] (chars candidateIdentity)) with
  | Some (_, seg) => bool_decide (headOfSegment seg ≠ Some "none")
  | None => negb (blank candidateIdentity)
  end.

(** ** Facts *)

Lemma without_oset ks k v fs : k ∈ ks → without ks (oset k v fs) = without ks fs.
Proof.
  intros Hk. unfold without. induction fs as [|[k' v'] fs IH]; simpl.
  - by rewrite filter_cons_False by (simpl; tauto).
  - case_decide; subst; simpl.
    + by rewrite !filter_cons_False by (simpl; tauto).
    + rewrite !filter_cons. by rewrite IH.
Qed.

Section ApplicabilityFacts.
Context (showNum : jsnum → string) (stringify : jval → string) (signals : list string).

#[local] Abbreviation project := (projectStageDiagnostic showNum stringify signals).
#[local] Abbreviation applicability := (recoveryRecipeApplicability showNum stringify signals).

(** A crash of the nested advance process, as the dispatcher records it. *)
Definition ChildCrash (d : jval) : Prop :=
  let detail := fieldOf (Some d) "detail" in
  fieldOf (Some d) "schema" = Some (JStr STAGE_DIAGNOSTIC_SCHEMA) ∧ fieldOf (Some d) "reason_code" = Some (JStr "workflow-engine-defect") ∧
  fieldOf detail "blocker_kind" = Some (JStr "harness-failure") ∧ fieldOf detail "stage" = Some (JStr "loop-dispatch") ∧
  isNestedAdvanceProcessExit signals (fieldOf detail "process_exit") = true.

(** What the diagnostic of an engine defect lets a recipe do. *)
Definition EngineAllows (d : jval) (r : RecoveryRecipe) : Prop :=
  (ChildCrash d → r = RestartWorkflowEngine) ∧
  (¬ ChildCrash d → isTesterEvidenceOrderingDiagnostic (Some d) = true →
     r ∉ [UnlinkEngineScratch; CheckpointOwnedHarnessDirt; PublishUnpublishedStageCommit]) ∧
  (¬ ChildCrash d → isTesterEvidenceOrderingDiagnostic (Some d) = false → r ≠ RebindTesterEvidenceAfterPr).

Lemma engine_filter rs d r :
  r ∈ filterRecipesForWorkflowEngineDiagnostic signals rs (Some d) ↔ r ∈ rs ∧ EngineAllows d r.
Proof.
  unfold filterRecipesForWorkflowEngineDiagnostic, EngineAllows.
  assert (ChildCrash d ↔ hasField (Some d) "schema" STAGE_DIAGNOSTIC_SCHEMA && hasField (Some d) "reason_code" "workflow-engine-defect" &&
     hasField (fieldOf (Some d) "detail") "blocker_kind" "harness-failure" && hasField (fieldOf (Some d) "detail") "stage" "loop-dispatch" &&
     isNestedAdvanceProcessExit signals (fieldOf (fieldOf (Some d) "detail") "process_exit") = true) as Hc.
  { rewrite !andb_true_iff, !hasField_spec. unfold ChildCrash. tauto. }
  rewrite Hc. clear Hc. destruct (_ && _ && _ && _ && _).
  - rewrite list_elem_of_filter. naive_solver.
  - destruct (isTesterEvidenceOrderingDiagnostic (Some d)); unfold filterRecipesForTesterEvidenceOrdering; rewrite list_elem_of_filter; naive_solver.
Qed.

(** The recipe survives the filters. *)
Definition DiagnosticAllows (i : RecoveryApplicabilityInput) : Prop :=
  let d := ra_diagnostic i in let r := ra_action i in
  (fieldOf (Some d) "reason_code" = Some (JStr "harness-background-wait") → r ≠ RepairPipelineItem ∧ r ≠ PublishUnpublishedStageCommit) ∧
  (fieldOf (fieldOf (Some d) "detail") "preflight_failed" = Some (JBool true) →
     r ≠ UnlinkEngineScratch ∧ r ≠ CheckpointOwnedHarnessDirt ∧ r ≠ PublishUnpublishedStageCommit) ∧
  (ra_blockerClass i = WorkflowEngineDefect → EngineAllows d r).

Lemma eligible_spec i : ra_action i ∈ eligibleRecipes signals i ↔ DiagnosticAllows i.
Proof.
  unfold eligibleRecipes, DiagnosticAllows. cbv zeta. set (d := ra_diagnostic i). set (r := ra_action i).
  set (e2 := if hasField _ _ _ then _ else _). set (e3 := if bool_decide _ then _ else _).
  assert (r ∈ e2 ↔ (fieldOf (Some d) "reason_code" = Some (JStr "harness-background-wait") →
                    r ≠ RepairPipelineItem ∧ r ≠ PublishUnpublishedStageCommit)) as H2.
  { subst e2. unfold hasField, filterRecipesForHarnessBackgroundWait, HARNESS_BACKGROUND_WAIT_FORBIDDEN_RECIPES.
    case_bool_decide; [rewrite list_elem_of_filter|]; rewrite list_elem_of_singleton; set_solver. }
  assert (r ∈ e3 ↔ r ∈ e2 ∧ (fieldOf (fieldOf (Some d) "detail") "preflight_failed" = Some (JBool true) →
     r ≠ UnlinkEngineScratch ∧ r ≠ CheckpointOwnedHarnessDirt ∧ r ≠ PublishUnpublishedStageCommit)) as H3.
  { subst e3. unfold filterRecipesForNeverStartedPreflight, NEVER_STARTED_PREFLIGHT_FORBIDDEN_RECIPES.
    case_bool_decide; [rewrite list_elem_of_filter|]; set_solver. }
  rewrite <- H2, (assoc (∧)), <- H3. case_decide; [rewrite engine_filter|]; tauto.
Qed.

(** The shared contract of selector and executor: a recipe applies exactly when
    the diagnostic projects to recovery of the item's own class, after a background
    wait it neither re-invokes the adapter nor publishes, after a refused
    preflight it touches no worktree, on an engine defect it answers a child crash
    by a restart only and rebinds Tester evidence only on typed evidence ordering,
    and the recipes that need the candidate have its head. *)
Theorem applicability_exact i :
  let d := ra_diagnostic i in let r := ra_action i in let detail := fieldOf (Some d) "detail" in
  applicability i = Applicable ↔
  pj_disposition (project (Some d)) = Recover ∧ pj_blockerClass (project (Some d)) = ra_blockerClass i ∧
  (fieldOf (Some d) "reason_code" = Some (JStr "harness-background-wait") → r ≠ RepairPipelineItem ∧ r ≠ PublishUnpublishedStageCommit) ∧
  (fieldOf detail "preflight_failed" = Some (JBool true) →
     r ≠ UnlinkEngineScratch ∧ r ≠ CheckpointOwnedHarnessDirt ∧ r ≠ PublishUnpublishedStageCommit) ∧
  (ra_blockerClass i = WorkflowEngineDefect → EngineAllows d r) ∧
  (r = VerifyHeadGoal ∨ r = RepairPipelineItem → ra_candidateHeadPresent i = true) ∧
  (r = VerifyHeadGoal → fieldOf detail "blocker_kind" = Some (JStr "no-commits")).
Proof.
  intros d r detail. pose proof (eligible_spec i) as He. unfold DiagnosticAllows in He. fold d r detail in He.
  unfold recoveryRecipeApplicability. fold d r detail. unfold includes, hasField.
  destruct (bool_decide_reflect (pj_disposition (project (Some d)) ≠ Recover)) as [H1|H1]; [split; [done|tauto]|].
  destruct (bool_decide_reflect (pj_blockerClass (project (Some d)) ≠ ra_blockerClass i)) as [H2|H2]; [split; [done|tauto]|].
  apply dec_stable in H1, H2. cbn [orb].
  destruct (bool_decide_reflect (r ∈ eligibleRecipes signals i)) as [H3|H3]; cbn [negb]; [|split; [done|tauto]]. 
  apply He in H3 as (HA & HB & HC). clear He.
  destruct (bool_decide_reflect (r = VerifyHeadGoal)) as [H4|H4], (bool_decide_reflect (r = RepairPipelineItem)) as [H5|H5],
    (ra_candidateHeadPresent i), (bool_decide_reflect (fieldOf detail "blocker_kind" = Some (JStr "no-commits"))) as [H6|H6]; cbn [orb andb negb];
    (split; [intros H|]; [try discriminate H; refine (conj H1 (conj H2 (conj HA (conj HB (conj HC (conj _ _)))))); intros; tauto || congruence|]);
    first [done | intros (_ & _ & _ & _ & _ & G1 & G2); exfalso; tauto || (specialize (G1 ltac:(tauto)); congruence)].
Qed.

(** ** Progress *)

(** The progress of an implementation blocker does not depend on the reason text
    of its diagnostic, nor on its evidence key. *)
Lemma progress_ignores_prose fs ds r1 r2 k1 k2 :
  progressDocument ImplementationCi (JObj (oset "evidence_key" k1 (oset "detail" (JObj (oset "reason" r1 ds)) fs))) =
  progressDocument ImplementationCi (JObj (oset "evidence_key" k2 (oset "detail" (JObj (oset "reason" r2 ds)) fs))).
Proof.
  unfold progressDocument. rewrite !decide_True by done. cbn [fieldOf].
  rewrite !(oget_oset_ne "evidence_key") by done. rewrite !oget_oset_eq. rewrite !(oget_oset_ne "detail") by done.
  cbn [objectOf]. by rewrite !(without_oset _ "reason") by set_solver.
Qed.

Context (sha256hex : string → string).

#[local] Abbreviation sameKind := (ofSameKind showNum stringify signals).
#[local] Abbreviation pid := (progressId stringify sha256hex).

(** A coarse attestation continues the episode of [prior]: between them there are
    only coarse attestations of the same kind, [prior] is an authoritative
    diagnostic of that kind which names its stage, and its episode has attempts on
    this candidate, none of which resolved it. *)
Record Inherits (i : ProgressInput) (prior : jval) : Prop := {
  inh_class : pi_blockerClass i = ImplementationCi;
  inh_coarse : isCoarseImplementationAttestation (pi_diagnostic i) = true;
  inh_nearest : ∃ between rest, pi_priorDiagnostics i = (Some <$> between) ++ Some prior :: rest ∧
    ∀ c, c ∈ between → isCoarseImplementationAttestation c = true ∧ sameKind i c = true;
  inh_staged : isCoarseImplementationAttestation prior = false ∧ sameKind i prior = true ∧
    ∃ s, fieldOf (fieldOf (Some prior) "detail") "stage" = Some (JStr s) ∧ blank s = false;
  inh_attempted : episodeAttempts i (pid ImplementationCi prior) ≠ [];
  inh_unresolved : ∀ a, a ∈ episodeAttempts i (pid ImplementationCi prior) → outcome a = OutRecovered →
    recoveryRecipeOnlyProvesRedispatch (action a) = true;
}.

Lemma unresolved_spec l :
  existsb resolves l = false ↔ ∀ a, a ∈ l → outcome a = OutRecovered → recoveryRecipeOnlyProvesRedispatch (action a) = true.
Proof.
  rewrite <- not_true_iff_false, existsb_exists. unfold resolves. split.
  - intros H a Ha Ho. destruct (recoveryRecipeOnlyProvesRedispatch _) eqn:E; [done|]. destruct H. exists a.
    rewrite bool_decide_eq_true_2, E by done. split; [by apply list_elem_of_In|done].
  - intros H (a & Ha & Hr). apply list_elem_of_In in Ha. apply andb_true_iff in Hr as [Ho Hr]. apply bool_decide_eq_true in Ho.
    rewrite (H a Ha Ho) in Hr. done.
Qed.

(** The loop inherits an identity exactly from the nearest staged diagnostic. *)
Lemma joinPrior_spec i priors :
  let direct := pid (pi_blockerClass i) (pi_diagnostic i) in
  joinPrior showNum stringify signals sha256hex i priors = direct ∧
    (∀ between prior rest, priors = (Some <$> between) ++ Some prior :: rest →
       (∀ c, c ∈ between → isCoarseImplementationAttestation c = true ∧ sameKind i c = true) →
       isCoarseImplementationAttestation prior = false → sameKind i prior = true →
       isNonBlank (fieldOf (fieldOf (Some prior) "detail") "stage") = true →
       episodeAttempts i (pid ImplementationCi prior) = [] ∨ existsb resolves (episodeAttempts i (pid ImplementationCi prior)) = true) ∨
  ∃ between prior rest, priors = (Some <$> between) ++ Some prior :: rest ∧
    (∀ c, c ∈ between → isCoarseImplementationAttestation c = true ∧ sameKind i c = true) ∧
    isCoarseImplementationAttestation prior = false ∧ sameKind i prior = true ∧
    isNonBlank (fieldOf (fieldOf (Some prior) "detail") "stage") = true ∧
    episodeAttempts i (pid ImplementationCi prior) ≠ [] ∧ existsb resolves (episodeAttempts i (pid ImplementationCi prior)) = false ∧
    joinPrior showNum stringify signals sha256hex i priors = pid ImplementationCi prior.
Proof.
  intros direct. induction priors as [|[p|] priors IH]; simpl.
  - left. split; [done|]. intros [|b between] prior rest H; discriminate H.
  - destruct (isCoarseImplementationAttestation p) eqn:Ec.
    + destruct (sameKind i p) eqn:Ek.
      * destruct IH as [[-> IH]|(between & prior & rest & -> & Hb & IH)].
        -- left. split; [done|]. intros [|b between] prior rest H Hb; simplify_eq/=; [congruence|].
           apply (IH between prior rest); [done|]. intros c Hc. apply Hb. by right.
        -- right. exists (p :: between), prior, rest. split; [done|]. split; [|done]. intros c Hc. apply elem_of_cons in Hc as [->|Hc]; [done|by apply Hb].
      * left. split; [done|]. intros [|b between] prior rest H Hb; simplify_eq/=; [congruence|]. destruct (Hb b); [by left|congruence].
    + destruct (negb (sameKind i p) || _) eqn:En.
      * left. split; [done|]. intros [|b between] prior rest H Hb; simplify_eq/=; [|destruct (Hb b); [by left|congruence]].
        intros _ Hk Hs. rewrite Hk, Hs in En. done.
      * apply orb_false_iff in En as [Hk%negb_false_iff Hs%negb_false_iff].
        case_bool_decide as Ha; [|destruct (existsb _ _) eqn:Ex].
        -- left. split; [done|]. intros [|b between] prior rest H Hb; simplify_eq/=; [auto|destruct (Hb b); [by left|congruence]].
        -- left. split; [done|]. intros [|b between] prior rest H Hb; simplify_eq/=; [auto|destruct (Hb b); [by left|congruence]].
        -- right. exists [], p, priors. split; [done|]. split; [set_solver|done].
  - left. split; [done|]. intros [|b between] prior rest H; discriminate H.
Qed.

(** Which recovery episode a blocked item continues: a coarse implementation
    attestation inherits the identity of the nearest authoritative diagnostic of
    its kind, exactly when that diagnostic's episode on this candidate has
    attempts and none of them resolved it; in every other case the identity is the
    diagnostic's own. *)
Theorem progress_identity_exact i :
  let identity := recoveryProgressIdentity showNum stringify signals sha256hex i in
  (∀ prior, Inherits i prior → identity = pid ImplementationCi prior) ∧
  ((∀ prior, ¬ Inherits i prior) → identity = pid (pi_blockerClass i) (pi_diagnostic i)).
Proof.
  unfold recoveryProgressIdentity. pose proof (joinPrior_spec i (pi_priorDiagnostics i)) as Hj. cbv zeta in *.
  case_bool_decide as Hc; [split; [intros prior [? _ _ _ _ _]; done|done]|]. cbn [orb].
  destruct (isCoarseImplementationAttestation (pi_diagnostic i)) eqn:Eq; cbn [negb]; [|split; [intros prior [_ ? _ _ _ _]; congruence|done]].
  split.
  - intros prior [_ _ (bs & rs & Ep & Hb) (Hn & Hk & s & Hs & Hbl) Ha Hu].
    assert (isNonBlank (fieldOf (fieldOf (Some prior) "detail") "stage") = true) as Hst by (apply nonBlank_spec; by exists s).
    destruct Hj as [[_ Hj]|(bs' & p' & rs' & Ep' & Hb' & Hn' & _ & _ & _ & _ & ->)].
    + destruct (Hj _ _ _ Ep Hb Hn Hk Hst) as [?|Hr]; [done|]. by rewrite (proj2 (unresolved_spec _) Hu) in Hr.
    + assert (∀ (l1 l2 : list jval) x y r1 r2, (Some <$> l1) ++ Some x :: r1 = (Some <$> l2) ++ Some y :: r2 →
        (∀ c, c ∈ l1 → isCoarseImplementationAttestation c = true) → (∀ c, c ∈ l2 → isCoarseImplementationAttestation c = true) →
        isCoarseImplementationAttestation x = false → isCoarseImplementationAttestation y = false → x = y) as Hsame.
      { clear. induction l1 as [|a l1 IH]; intros [|b l2] x y r1 r2 H H1 H2 Hx Hy; simplify_eq/=; [done| | |].
        - rewrite (H2 b) in Hx; [done|by left].
        - rewrite (H1 y) in Hy; [done|by left].
        - eapply IH; [done| | |done|done]; intros c ?; [apply H1|apply H2]; by right. }
      rewrite Ep in Ep'. f_equal. symmetry. eapply Hsame; [exact Ep'|by intros c ?; apply Hb|by intros c ?; apply Hb'|done|done].
  - intros Hno. destruct Hj as [[-> _]|(bs & p & rs & Ep & Hb & Hn & Hk & Hst & Ha & Hu & _)]; [done|].
    destruct (Hno p). apply nonBlank_spec in Hst as (s & Hs & Hbl). constructor; [done|done|by exists bs, rs|by eauto|done|by apply unresolved_spec].
Qed.
End ApplicabilityFacts.

(** ** Siblings of a stopped item *)

Section Siblings.
Context (showNum : jsnum → string) (stringify : jval → string) (signals : list string) (sha256hex : string → string)
  (JSON_parse : string → option jval)
  (** [contract.repo]. *)
  (repoName baseBranch : string).

#[local] Abbreviation project := (projectStageDiagnostic showNum stringify signals).

Record PersistedEvidence := mkPersisted {
  pe_diagnostic : jval;
  pe_prNumber : option jval;
}.

(** A history line read back; anything unusable is [null]. *)
Definition readEvidence (text : string) : option PersistedEvidence :=
  parsed ← JSON_parse text;
  d ← fieldOf (Some parsed) "diagnostic";
  if decide (pj_disposition (project (Some d)) = ProtocolFailure) then None
  else Some (mkPersisted d (fieldOf (fieldOf (Some parsed) "transport") "pr_number")).

Definition persistedEvidence (e : LoopItemLedgerEntry) : list (option PersistedEvidence) :=
  omap (fun h => if decide (h_to h = Blocked) then readEvidence <$> truthy (h_evidence h) else None) (history e).

Definition candidateText (e : LoopItemLedgerEntry) (persisted : option PersistedEvidence) : string :=
  let pr := match last_verified_identity e ≫= pr_number with
            | Some n => pretty n
            | None => match persisted ≫= pe_prNumber with
                      | None | Some JNull => "none"
                      | v => js_StringOf showNum v
                      end
            end in
  join "|" ["repo=" +:+ repoName; "base=" +:+ baseBranch; "pr=" +:+ pr;
            "head=" +:+ default "none" (truthy (js_trim ∘ head_sha <$> last_verified_identity e))].

(** The recorded episode of the item's block, and the diagnostic that applies. *)
Definition blockedEpisode (l : LoopLedger) (e : LoopItemLedgerEntry) (cls : DurableBlockerClass)
    : option jval * option RecoveryEpisodeRecord :=
  let evidence := persistedEvidence e in
  let persisted : option PersistedEvidence := mjoin (last evidence) in
  let epoch := recoveryEpisodeCandidateEpoch (last_verified_identity e) (candidateText e persisted) in
  match persisted with
  | None => (None, None)
  | Some p =>
      let priors : list (option jval) := fmap (M:=option) pe_diagnostic <$> reverse (take (length evidence - 1) evidence) in
      let identity := recoveryProgressIdentity showNum stringify signals sha256hex
                        (mkProgressInput (id e) cls (pe_diagnostic p) priors (default [] (recovery_attempts l)) epoch) in
      (Some (pe_diagnostic p),
       match truthy (Some identity) with
       | None => None
       | Some ev =>
         resumeEpisodeFromAttempts sha256hex (default [] (recovery_attempts l)) (mkKey "loop_recovery" (blocker_class_name cls) epoch ev)
       end)
  end.

Definition recipeApplies (e : LoopItemLedgerEntry) (cls : DurableBlockerClass) (d : option jval) (r : RecoveryRecipe) : bool :=
  match d with
  | None => true
  | Some d =>
      match recoveryRecipeApplicability showNum stringify signals
              (mkApplicability r cls d (bool_decide (is_Some (truthy (js_trim ∘ head_sha <$> last_verified_identity e))))) with
      | Applicable => true
      | NotApplicable _ => false
      end
  end.

Definition selectFor (l : LoopLedger) (e : LoopItemLedgerEntry) (cls : DurableBlockerClass) (policy : RecoveryPolicyEntry)
    : SelectStrategyResult :=
  let '(d, ep) := blockedEpisode l e cls in
  selectEligibleRecoveryStrategy (recipes policy) (default [] (ep_counts <$> ep)) (fun _ => perStrategyBound policy)
    (recipeApplies e cls d) (default 0%Z (ep_cursor <$> ep)) (default 0%Z (repeated_evidence_count e)) (repeated_evidence_limit policy).

(** The filter on one contract item, on upgraded documents. *)
Definition recoverableItem (p : RecoveryPolicy) (c : LoopContract) (l : LoopLedger) (it : LoopContractItem) : bool :=
  match oget (items l) (ci_id it) with
  | None => false
  | Some e =>
      match truthy (blocked_theme e) ≫= asDurableBlockerClass with
      | None => false
      | Some cls =>
          bool_decide (state e = Blocked) && negb (compatibilityStopRefusesItem (stop l) (ci_id it)) &&
          lifecycleAllowsRecoveryRecipe (lifecycle l) (Some e) &&
          match policyFor p cls with
          | None => false
          | Some policy =>
              if decide (terminal_outcome policy = HumanAuthorityOutcome) then false
              else match selectFor l e cls policy with
              | StrategiesExhausted _ => false
              | Claim _ _ _ => negb (existsb (fun d => includes d (blockedIds l)) (contractDeps c (ci_id it)))
              end
          end
      end
  end.

Definition independentlyRecoverableBlockedItems (c : LoopContract) (l : LoopLedger) : result LoopError (list string) :=
  try c' := upgradeContractForRecovery c in
  try p := compileRecoveryPolicy (recovery_policy c') in
  let l' := upgradeLedgerForRecovery sha256hex l in
  if hardStopped l' then Ok []
  else Ok (ci_id <$> filter (fun it => recoverableItem p c' l' it = true) (c_items c')).

Definition hasContinuableIndependentSibling (c : LoopContract) (l : LoopLedger) (ext : gmap string ExternalDependencyStatus)
    : result LoopError bool :=
  let l' := upgradeLedgerForRecovery sha256hex l in
  if existsb (fun e => bool_decide (state e = InProgress) && negb (compatibilityStopRefusesItem (stop l') (id e))) (ovalues (items l'))
  then Ok true
  else
    try eligible := eligibleIndependentItems sha256hex c l ext in
    if bool_decide (eligible ≠ []) then Ok true
    else
      try recoverable := independentlyRecoverableBlockedItems c l in
      Ok (bool_decide (recoverable ≠ [])).
End Siblings.

(** ** What the queries answer *)

Section Select.
Context (rs : list RecoveryRecipe) (counts : obj Z) (bound : RecoveryRecipe → jsnum) (app : RecoveryRecipe → bool).

(** The strategy at [k] can be claimed: it is at the cursor or after it, below its
    bound, applicable, and not the one that keeps producing the same evidence. *)
Definition claimable (cursor count : Z) (limit : jsnum) (k : nat) (r : RecoveryRecipe) : Prop :=
  rs !! k = Some r ∧ Z.to_nat cursor ≤ k ∧ app r = true ∧ reaches (spent counts (recipe_name r)) (bound r) = false ∧
  ¬ (k = Z.to_nat cursor ∧ reaches count limit = true ∧ (0 < spent counts (recipe_name r))%Z).

Lemma selectNext_finds cursor :
  (∃ r c sk, selectNextApplicableStrategy rs counts bound app cursor = Claim r c sk) ↔
  ∃ k r, rs !! k = Some r ∧ Z.to_nat cursor ≤ k ∧ app r = true ∧ used_up counts bound r = false.
Proof.
  split.
  - intros (r & c & sk & H). apply select_claim in H as (Hc & Hr & Ha & Hu & _). exists (Z.to_nat c), r. repeat split; [done|lia|done|done].
  - intros (k & r & Hr & Hk & Ha & Hu). destruct (selectNextApplicableStrategy _ _ _ _ _) as [r' c sk|sk] eqn:E; [by eauto|].
    pose proof (select_exhausted _ _ _ _ _ _ E k r ltac:(lia) Hr) as Hp. unfold passed_over in Hp. destruct Hp; congruence.
Qed.

Lemma selectEligible_finds cursor count limit :
  (∃ r c sk, selectEligibleRecoveryStrategy rs counts bound app cursor count limit = Claim r c sk) ↔
  ∃ k r, claimable cursor count limit k r.
Proof.
  unfold selectEligibleRecoveryStrategy, claimable. replace (Z.to_nat (Z.max 0 cursor)) with (Z.to_nat cursor) by lia.
  destruct (rs !! Z.to_nat cursor) as [cur|] eqn:Ec.
  - destruct (_ && _) eqn:E; rewrite selectNext_finds; unfold used_up.
    + apply andb_true_iff in E as [E1 E2%Z.ltb_lt]. split.
      * intros (k & r & Hr & Hk & Ha & Hu). exists k, r. repeat split; [done|lia|done|done|lia].
      * intros (k & r & Hr & Hk & Ha & Hu & Hn). exists k, r. repeat split; try done.
        destruct (decide (k = Z.to_nat cursor)) as [->|]; [|lia]. simplify_eq. by destruct Hn.
    + split.
      * intros (k & r & Hr & Hk & Ha & Hu). exists k, r. repeat split; [done|lia|done|done|].
        intros (-> & E1 & E2%Z.ltb_lt). simplify_eq. by rewrite E1, E2 in E.
      * intros (k & r & Hr & Hk & Ha & Hu & _). exists k, r. repeat split; [done|lia|done|done].
  - rewrite selectNext_finds. unfold used_up. split.
    + intros (k & r & Hr & Hk & Ha & Hu). exists k, r. repeat split; [done|lia|done|done|]. intros [-> _]. congruence.
    + intros (k & r & Hr & Hk & Ha & Hu & _). exists k, r. repeat split; [done|lia|done|done].
Qed.
End Select.

Section SiblingFacts.
Context (showNum : jsnum → string) (stringify : jval → string) (signals : list string) (sha256hex : string → string)
  (JSON_parse : string → option jval) (repoName baseBranch : string).

#[local] Abbreviation episodeOf := (blockedEpisode showNum stringify signals sha256hex JSON_parse repoName baseBranch).
#[local] Abbreviation applies := (recipeApplies showNum stringify signals).
#[local] Abbreviation recoverable := (recoverableItem showNum stringify signals sha256hex JSON_parse repoName baseBranch).
#[local] Abbreviation siblings := (independentlyRecoverableBlockedItems showNum stringify signals sha256hex JSON_parse repoName baseBranch).

(** Item [i] can be recovered on its own. *)
Definition Recoverable (p : RecoveryPolicy) (c : LoopContract) (l : LoopLedger) (i : string) : Prop :=
  ∃ e cls policy,
    oget (items l) i = Some e ∧ state e = Blocked ∧ blocked_theme e = Some (blocker_class_name cls) ∧
    compatibilityStopRefusesItem (stop l) i = false ∧ lifecycleAllowsRecoveryRecipe (lifecycle l) (Some e) = true ∧
    policyFor p cls = Some policy ∧ terminal_outcome policy ≠ HumanAuthorityOutcome ∧
    (∀ d, d ∈ contractDeps c i → d ∉ blockedIds l) ∧
    let ep := (episodeOf l e cls).2 in
    ∃ k r, claimable (recipes policy) (default [] (ep_counts <$> ep)) (fun _ => perStrategyBound policy)
      (applies e cls (episodeOf l e cls).1) (default 0%Z (ep_cursor <$> ep)) (default 0%Z (repeated_evidence_count e))
      (repeated_evidence_limit policy) k r.

Lemma theme_spec o cls : truthy o ≫= asDurableBlockerClass = Some cls ↔ o = Some (blocker_class_name cls).
Proof.
  split.
  - destruct (truthy o) as [s|] eqn:E; [|done]. apply truthy_Some in E as [-> _]. simpl. intros H. by apply asDurableBlockerClass_spec in H as <-.
  - intros ->. by destruct cls.
Qed.

Lemma recoverableItem_spec p c l it : recoverable p c l it = true ↔ Recoverable p c l (ci_id it).
Proof.
  unfold recoverableItem, Recoverable. destruct (oget (items l) (ci_id it)) as [e|] eqn:Ee; [|split; [done|by intros (? & ? & ? & ? & _)]].
  destruct (truthy (blocked_theme e) ≫= asDurableBlockerClass) as [cls|] eqn:Et.
  2: { split; [done|]. intros (e' & cls & ? & H & _ & Hb & _). simplify_eq. apply theme_spec in Hb. congruence. }
  rewrite !andb_true_iff, negb_true_iff, bool_decide_eq_true. unfold selectFor. destruct (episodeOf l e cls) as [d ep] eqn:Ep.
  split.
  - intros [[[Hs Hr] Hl] H]. destruct (policyFor p cls) as [policy|] eqn:Epol; [|done]. case_decide as Hh; [done|].
    destruct (selectEligibleRecoveryStrategy _ _ _ _ _ _ _) as [r k sk|sk] eqn:Esel; [|done].
    exists e, cls, policy. do 2 (split; [done|]). split; [by apply theme_spec|]. do 4 (split; [done|]). rewrite Ep. split.
    + intros x Hx Hb. apply negb_true_iff, not_true_iff_false in H. apply H, existsb_exists. exists x.
      split; [by apply list_elem_of_In|by apply bool_decide_eq_true].
    + apply selectEligible_finds. by eauto.
  - intros (e' & cls' & policy & He & Hs & Hb & Hr & Hl & Hp & Hh & Hd & Hk). simplify_eq. apply theme_spec in Hb. simplify_eq.
    rewrite Ep in Hk. cbn [fst snd] in Hk. apply selectEligible_finds in Hk as (r & k & sk & Hk).
    split; [done|]. rewrite Hp, decide_False by done. rewrite Hk. apply negb_true_iff, not_true_iff_false. intros H.
    apply existsb_exists in H as (x & Hx & Hi). apply list_elem_of_In in Hx. apply bool_decide_eq_true in Hi. by apply (Hd x).
Qed.

#[local] Abbreviation continuable := (hasContinuableIndependentSibling showNum stringify signals sha256hex JSON_parse repoName baseBranch).

Lemma siblings_spec c c' p l :
  upgradeContractForRecovery c = Ok c' → compileRecoveryPolicy (recovery_policy c') = Ok p →
  ∃ ids, siblings c l = Ok ids ∧
    ∀ x, x ∈ ids ↔ hardStopped l = false ∧ ∃ it, it ∈ c_items c ∧ ci_id it = x ∧ Recoverable p c' (upgradeLedgerForRecovery sha256hex l) x.
Proof.
  intros Hc Hp. unfold independentlyRecoverableBlockedItems. rewrite Hc. cbn [rbind]. rewrite Hp. cbn [rbind].
  destruct (upgradeContract_keeps _ _ Hc) as (Hi & _). assert (hardStopped (upgradeLedgerForRecovery sha256hex l) = hardStopped l) as -> by done.
  destruct (hardStopped l); (eexists; split; [done|]); intros x; [set_solver|]. rewrite list_elem_of_fmap. rewrite Hi. split.
  - intros (it & -> & H). apply list_elem_of_filter in H as [H Hin]. apply recoverableItem_spec in H. split; [done|]. by exists it.
  - intros (_ & it & Hin & <- & H). exists it. split; [done|]. apply list_elem_of_filter. split; [by apply recoverableItem_spec|done].
Qed.

Lemma running_spec l : LedgerWF l →
  existsb (fun e => bool_decide (state e = InProgress) && negb (compatibilityStopRefusesItem (stop l) (id e)))
    (ovalues (items (upgradeLedgerForRecovery sha256hex l))) = true ↔
  ∃ i e, oget (items l) i = Some e ∧ state e = InProgress ∧ compatibilityStopRefusesItem (stop l) i = false.
Proof.
  intros Hwf. pose proof (upgradeLedger_wf sha256hex l Hwf) as Hwf'. rewrite existsb_elem.
  setoid_rewrite andb_true_iff. setoid_rewrite negb_true_iff. setoid_rewrite bool_decide_eq_true. split.
  - intros (e & He & Hs & Hr). unfold ovalues in He. apply list_elem_of_fmap in He as ([k e'] & -> & He).
    apply (elem_oget _ _ _ (wf_keys _ Hwf')) in He. cbn [snd] in *. rewrite (wf_ids _ Hwf' _ _ He) in Hr.
    rewrite upgradeLedger_get in He. apply fmap_Some in He as (e0 & He & ->). exists k, e0. split; [done|].
    by rewrite (proj1 (proj2 (upgradeEntry_keeps e0))) in Hs.
  - intros (i & e & He & Hs & Hr). exists (upgradeEntry e). destruct (upgradeEntry_keeps e) as (Hid & Hst & _).
    rewrite Hid, Hst, (wf_ids _ Hwf _ _ He). split; [|done]. unfold ovalues. apply list_elem_of_fmap. exists (i, upgradeEntry e).
    split; [done|]. apply oget_Some_elem. by rewrite upgradeLedger_get, He.
Qed.

(** A mechanical stop lets its siblings go on exactly when there is one: on
    documents that upgrade, the query answers, and it answers yes if and only if
    some item is running that the stop does not refuse, some item is eligible, or
    (no hard stop being in force) some blocked item of the contract that the stop
    does not name can be recovered on its own: its class is not a human's, none of
    its dependencies is blocked, and its policy has an applicable strategy at or
    after the recorded cursor below its bound. *)
Theorem continuable_exact c c' p l ext :
  upgradeContractForRecovery c = Ok c' → compileRecoveryPolicy (recovery_policy c') = Ok p → LedgerWF l → NoDup (item_ids c) →
  ∃ b, continuable c l ext = Ok b ∧
    (b = true ↔
       (∃ i e, oget (items l) i = Some e ∧ state e = InProgress ∧ compatibilityStopRefusesItem (stop l) i = false) ∨
       (∃ it, Eligible c l ext it) ∨
       (hardStopped l = false ∧ ∃ it, it ∈ c_items c ∧ Recoverable p c' (upgradeLedgerForRecovery sha256hex l) (ci_id it))).
Proof.
  intros Hc Hp Hwf Hnd. unfold hasContinuableIndependentSibling. cbv zeta.
  pose proof (running_spec l Hwf) as Hrun. change (stop (upgradeLedgerForRecovery sha256hex l)) with (stop l).
  destruct (existsb _ _); [exists true; split; [done|]; by split; [left; apply Hrun|]|].
  assert (eligibleIndependentItems sha256hex c l ext = Ok (frontier c l ext)) as He.
  { destruct (eligibleIndependentItems sha256hex c l ext) as [fr|err] eqn:E; [by f_equal; apply (eligible_frontier sha256hex) in E|].
    unfold eligibleIndependentItems in E. by rewrite Hc in E. }
  rewrite He. cbn [rbind]. pose proof (fun x => frontier_elem c l ext x Hnd Hwf) as Hf.
  destruct (siblings_spec c c' p l Hc Hp) as (ids & Hids & Hspec). rewrite Hids. cbn [rbind].
  case_bool_decide as Hfr.
  - exists true. split; [done|]. split; [|done]. intros _. right; left.
    destruct (frontier c l ext) as [|x fr]; [done|]. destruct (proj1 (Hf x)) as (it & _ & H); [by left|]. by exists it.
  - eexists. split; [done|]. rewrite bool_decide_eq_true. split.
    + intros Hne. right; right. destruct ids as [|x ids]; [done|]. destruct (proj1 (Hspec x)) as (Hh & it & Hin & <- & Hr); [by left|].
      split; [done|]. by exists it.
    + intros [Hr|[[it Hit]|[Hh (it & Hin & Hr)]]].
      * by apply Hrun in Hr.
      * exfalso. apply (not_elem_of_nil (ci_id it)). rewrite <- Hfr. apply Hf. by exists it.
      * intros ->. apply (not_elem_of_nil (ci_id it)). apply Hspec. split; [done|]. by exists it.
Qed.
End SiblingFacts.

(** ** Runs of the queries *)

Module ApplicabilitySample.
Import DiagnosticSample.

Example incidental_text :
  normalizedEvidence "Failed at 2024-01-02T03:04:05.678Z  with x-request-id: AbC-9 on 0123abcdef (550e8400-e29b-41d4-a716-446655440000) HTTP 503" =
  "failed at <ts> with <reqid> on <hash> (<id>) http 503".
Proof. vm_compute. reflexivity. Qed.

(** An error code of seven or more hexadecimal digits reads as a hash. *)
Example error_code_erased :
  normalizedEvidence "error 80070005" = normalizedEvidence "error 80070057" ∧
  normalizedEvidence "error 80070005" = "error <hash>".
Proof. vm_compute. done. Qed.

Example heads :
  candidateHeadPresentInRecoveryIdentity <$> ["repo=x|HEAD=none|a"; "head=abc"; "head=|head=none"; "xhead=none"; " "] =
  [false; true; false; true; false].
Proof. vm_compute. reflexivity. Qed.

Definition crash : jval :=
  JObj [("schema", JStr STAGE_DIAGNOSTIC_SCHEMA); ("reason_code", JStr "workflow-engine-defect"); ("evidence_key", JStr "k");
        ("detail", JObj [("blocker_kind", JStr "harness-failure"); ("reason", JStr "exit"); ("stage", JStr "loop-dispatch");
                         ("process_exit", JObj [("kind", JStr "nested_advance_child"); ("store_initialized", JBool true);
                                                ("code", JNum (num 137)); ("signal", JNull)])])].

(** A crashed child is only ever answered by a restart. *)
Example crash_restarts :
  filter (fun r => recoveryRecipeApplicability show shown [] (mkApplicability r WorkflowEngineDefect crash true) = Applicable) RECOVERY_RECIPES =
  [RestartWorkflowEngine].
Proof. vm_compute. reflexivity. Qed.

Definition same (s : string) : string := s.

(** A coarse attestation after a staged diagnostic whose episode is open. *)
Definition staged : jval :=
  JObj [("schema", JStr STAGE_DIAGNOSTIC_SCHEMA); ("reason_code", JStr "implementation-ci"); ("evidence_key", JStr "k1");
        ("detail", JObj [("blocker_kind", JStr "build-failed"); ("reason", JStr "tsc"); ("stage", JStr "implementing")])].
Definition attested : jval :=
  JObj [("schema", JStr STAGE_DIAGNOSTIC_SCHEMA); ("reason_code", JStr "implementation-ci"); ("evidence_key", JStr "k2");
        ("detail", JObj [("blocker_kind", JStr "build-failed"); ("reason", JStr "label")])].
(** JSON text that tells the two documents apart. *)
Definition printed (v : jval) : string :=
  match fieldOf (fieldOf (Some v) "detail") "stage" with Some (JStr s) => s | _ => "none" end.
Definition attempt : LoopRecoveryAttempt :=
  mkAttempt (Some "a") 1 "t" "7" "implementation-ci" (Some "head=abc") (Some "rerun_ci") ["rerun_ci"] "f" OutRecovered None None None
    (Some "abc") (Some "implementing") None None None None None None None None None None None.
Definition progress (attempts : list LoopRecoveryAttempt) : ProgressInput :=
  mkProgressInput "7" ImplementationCi attested [Some attested; Some staged; None] attempts "abc".

Lemma progress_identity_exact_witness :
  recoveryProgressIdentity show printed [] same (progress [attempt]) = "implementing" ∧
  recoveryProgressIdentity show printed [] same (progress []) = "none".
Proof.
  split.
  - rewrite (proj1 (progress_identity_exact show printed [] same (progress [attempt])) staged); [by vm_compute|].
    constructor; [by vm_compute|by vm_compute| | |by vm_compute|].
    + exists [attested], [None]. split; [by vm_compute|]. intros c Hc. apply list_elem_of_singleton in Hc as ->. by vm_compute.
    + split; [by vm_compute|]. split; [by vm_compute|]. exists "implementing". by vm_compute.
    + intros a Ha. change (a ∈ [attempt]) in Ha. apply list_elem_of_singleton in Ha as ->. by vm_compute.
  - by vm_compute.
Defined.

(** Item 1 exhausted its recovery; item 2 waits for an external issue. *)
Definition stopped (es : obj LoopItemLedgerEntry) : LoopLedger :=
  mkLedger "run" es None (Some (mkStop RecoveryExhausted "t" (Some "1") None None [])) None None None None None None 0%Z None.
Definition contract : LoopContract :=
  mkContract "run" None Claude None [FrontierSample.item "1" [] []; FrontierSample.item "2" [] ["77"]] None [].
Definition waiting : LoopLedger :=
  stopped [FrontierSample.entry "1" Blocked (Some "implementation-ci"); FrontierSample.entry "2" Pending None].
Definition blocked2 : LoopLedger :=
  stopped [FrontierSample.entry "1" Blocked (Some "implementation-ci"); FrontierSample.entry "2" Blocked (Some "implementation-ci")].

#[local] Abbreviation continuable := (hasContinuableIndependentSibling show shown [] same (fun _ => None) "repo" "main").

(** An eligible item is only seen with the statuses of its external dependencies. *)
Example sibling_needs_statuses :
  continuable contract waiting (<["77" := Satisfied]> ∅) = Ok true ∧ continuable contract waiting ∅ = Ok false.
Proof. split; by vm_compute. Qed.

Lemma blocked2_wf : LedgerWF blocked2.
Proof. apply LedgerWF_check; [by apply (bool_decide_unpack _); vm_compute|by vm_compute]. Defined.
Lemma stopped_ids : NoDup (item_ids contract).
Proof. by apply (bool_decide_unpack _); vm_compute. Defined.

Lemma continuable_exact_witness :
  continuable contract blocked2 ∅ = Ok true ∧
  ∃ c' p, hardStopped blocked2 = false ∧
    ∃ it, it ∈ c_items contract ∧ Recoverable show shown [] same (fun _ => None) "repo" "main" p c' (upgradeLedgerForRecovery same blocked2) (ci_id it).
Proof.
  assert (continuable contract blocked2 ∅ = Ok true) as E by by vm_compute. split; [exact E|].
  destruct (upgradeContractForRecovery contract) as [c'|e] eqn:Hc; [|by vm_compute in Hc].
  destruct (compileRecoveryPolicy (recovery_policy c')) as [p|e] eqn:Hp; [|vm_compute in Hc; injection Hc as <-; by vm_compute in Hp].
  exists c', p.
  destruct (continuable_exact show shown [] same (fun _ => None) "repo" "main" contract c' p blocked2 ∅ Hc Hp blocked2_wf stopped_ids)
    as (b & Eb & Hb).
  rewrite E in Eb. injection Eb as <-. destruct (proj1 Hb eq_refl) as [(i & e & He & Hs & _)|[(it & Hit)|H]]; [exfalso|exfalso|exact H].
  - simpl in He. repeat case_decide; simplify_eq; done.
  - assert (ci_id it ∈ frontier contract blocked2 ∅) as Hf by (apply frontier_elem; [exact stopped_ids|exact blocked2_wf|by exists it]).
    by vm_compute in Hf; inv Hf.
Defined.
End ApplicabilitySample.
