(* ===== verification/Observe.v ===== *)
(** * Live observation

    The observation half of [core/scripts/loop/reconcile.ts]: the engine-owned
    seam through which GitHub, git and checks are read, and the verified
    identity built from it alone; with the check aggregation and linked-PR
    normalization of [core/scripts/gh.ts] and the commit classification of
    [core/scripts/pipeline-commits.ts]. *)

From Stdlib Require Import ZArith QArith Qcanon Qround Ascii.
From stdpp Require Import numbers base gmap strings list.
From S2P Require Import Prelude LoopTypes Lifecycle Observation Precondition RecoveryHandlers Frontier.
Local Open Scope result_scope.
Local Open Scope nat_scope.

(** ** Pipeline-internal commits *)

Definition OPENSPEC_ARCHIVE_PREFIX : string := "chore: archive OpenSpec change(s) for #".
Definition VISUAL_PUBLISH_COMMIT_PREFIX : string := "chore: publish visual-gate evidence for #".
Definition DOCS_REGENERATE_PREFIX : string := "docs: regenerate generated docs (#".

Definition isDigit (c : ascii) : bool := let n := nat_of_ascii c in (48 <=? n) && (n <=? 57).

(** [/^\d+$/]. *)
Definition allDigits (l : list ascii) : bool := bool_decide (l ≠ []) && forallb isDigit l.

Definition isPipelineInternalCommit (headline : string) : bool :=
  startsWith headline OPENSPEC_ARCHIVE_PREFIX ||
  from_option (fun rest => allDigits (chars rest)) false (strip_prefix VISUAL_PUBLISH_COMMIT_PREFIX headline) ||
  from_option (fun rest =>
      match reverse (chars rest) with
      | c :: digits => bool_decide (c = ")"%char) && allDigits digits
      | [] => false
      end) false (strip_prefix DOCS_REGENERATE_PREFIX headline).

(** ** Checks *)

Record CheckRun := mkCheck {
  check_name : option string;
  check_bucket : option string;
}.

Record ChecksAggregate := mkAggregate {
  ag_passed : bool;
  ag_pending : bool;
  ag_failed : list (string * string);
}.

Definition bucketOf (c : CheckRun) : string := lowerString (default "" (check_bucket c)).

(** The loop's [passed], [pending] and [failed]. *)
Definition aggregateStep (g : ChecksAggregate) (c : CheckRun) : ChecksAggregate :=
  let bucket := bucketOf c in
  if includes bucket ["pass"; "skipping"] then g
  else if includes bucket ["fail"; "cancel"]
  then mkAggregate false (ag_pending g) (ag_failed g ++ [(default "unknown" (check_name c), bucket)])
  else mkAggregate (ag_passed g) true (ag_failed g).

Definition parseChecksAggregate (checks : list CheckRun) : ChecksAggregate :=
  let g := foldl aggregateStep (mkAggregate true false []) checks in
  mkAggregate (ag_passed g && negb (ag_pending g)) (ag_pending g) (ag_failed g).

Definition deriveChecksConclusion (checks : list CheckRun) : ChecksConclusion :=
  match checks with
  | [] => ChecksNone
  | _ =>
      let g := parseChecksAggregate checks in
      if bool_decide (ag_failed g ≠ []) then ChecksFailure
      else if ag_pending g then ChecksPending
      else if ag_passed g then ChecksSuccess else ChecksPending
  end.

(** ** The seam *)

(** Either form [listLinkedPrs] may answer in. *)
Inductive ListedPrs :=
| BareNumbers (ns : list Z)
| LinkedPrs (ns : list Z) (truncated : bool).

Definition normalizeLinkedIssuePrs (p : ListedPrs) : list Z * bool :=
  match p with
  | BareNumbers ns => (ns, false)
  | LinkedPrs ns t => (ns, t)
  end.

Record PrDetail := mkPrDetail {
  pd_state : PrState;
  pd_head_ref : string;
  pd_head_sha : string;
  pd_merge_commit_sha : option string;
  pd_body : option string;
}.

Record ArtifactBinding := mkBinding {
  bi_role : ArtifactRole;
  bi_artifactIdentity : option string;
  bi_candidateSha : option string;
  bi_candidateEpoch : option string;
  bi_logicalOperationId : option string;
}.

Record LocalHead := mkLocal {
  lh_branch : string;
  lh_sha : string;
  lh_rebase_in_progress : bool;
  lh_product_dirt : bool;
}.

Record PrCommit := mkCommit {
  oid : string;
  messageHeadline : string;
}.

(** The calls of [ReconcileObserveDeps] an observation makes, as they answer
    during one pass; a rejected promise is an [Err].  [None] stands for an
    optional method the seam does not provide. *)
Record ObserveDeps := mkObserve {
  ob_getIssueStateAndLabels : Z → result LoopError (option (bool * list string));
  ob_findPrForIssue : Z → result LoopError (option Z);
  ob_listLinkedPrs : option (Z → result LoopError ListedPrs);
  ob_getPrDetail : Z → result LoopError (option PrDetail);
  ob_getPrChecks : Z → result LoopError (list CheckRun);
  ob_getPrCommits : option (Z → result LoopError (list PrCommit));
  ob_getPrArtifactBinding : option (Z → PrDetail → result LoopError ArtifactBinding);
  ob_getLocalHead : Z → result LoopError (option LocalHead);
  ob_baseBranchContainsSha : string → result LoopError (option bool);
  (** [deps.now().toISOString()]. *)
  ob_now : string;
}.

Definition READY_LABEL : string := LABEL_PREFIX +:+ "ready-to-deploy".

Section Observe.
(** [Number(s)]. *)
Context (toNumber : string → jsnum).

Definition parseItemIssueNumber (itemId : string) : result LoopError Z :=
  let n := toNumber itemId in
  let z := match n with Fin q => Qfloor q | NonFinite => 0%Z end in
  if negb (isInteger n) || (z <=? 0)%Z
  then throw FValidation ("item id " +:+ quoted itemId +:+
         " is not a valid issue number — reconciliation cannot observe it")
  else Ok z.

(** What the loop over the linked pull requests has gathered. *)
Record Gathered := mkGathered {
  ga_details : gmap Z (option PrDetail);
  ga_facts : list LinkedPrIntegrationFact;
  ga_incomplete : bool;
}.

Definition unboundArtifact : ArtifactBinding := mkBinding RoleUnknown None None None None.

Definition gatherLinked (d : ObserveDeps) (g : Gathered) (n : Z) : result LoopError Gathered :=
  try detail := ob_getPrDetail d n in
  let details := <[n := detail]> (ga_details g) in
  match detail with
  | None => Ok (mkGathered details (ga_facts g) true)
  | Some p =>
      try contained := match pd_state p, truthy (pd_merge_commit_sha p) with
                       | PrStateMerged, Some sha => ob_baseBranchContainsSha d sha
                       | _, _ => Ok None
                       end in
      try artifact := match ob_getPrArtifactBinding d with
                      | Some f => f n p
                      | None => Ok unboundArtifact
                      end in
      Ok (mkGathered details
            (ga_facts g ++ [mkLinked n (pd_state p) (pd_merge_commit_sha p) contained (Some (bi_role artifact))
                              (bi_artifactIdentity artifact) (bi_candidateSha artifact) (bi_candidateEpoch artifact)
                              (bi_logicalOperationId artifact)])
            (ga_incomplete g))
  end.

(** The last commit up to the head that the pipeline did not make itself, the
    head when there is none, nothing when the head is not among them. *)
Definition logicalCandidateEpoch (commits : list PrCommit) (head_sha : string) : option string :=
  let norm s := lowerString (js_trim s) in
  match list_find (fun c => norm (oid c) = norm head_sha) commits with
  | Some (i, _) =>
      Some (from_option (fun c => norm (oid c)) (norm head_sha)
              (js_find (fun c => negb (isPipelineInternalCommit (messageHeadline c))) (reverse (take (S i) commits))))
  | None => None
  end.

(** What is read of the pull request chosen as the item's identity. *)
Record ChosenPr := mkChosen {
  ch_number : option Z;
  ch_state : option PrState;
  ch_head_branch : string;
  ch_head_sha : string;
  ch_merge_commit_sha : option string;
  ch_checks : ChecksConclusion;
  ch_epoch : option string;
}.

Definition noChosenPr : ChosenPr := mkChosen None None "" "" None ChecksNone None.

Definition readChosen (d : ObserveDeps) (details : gmap Z (option PrDetail)) (chosen : option Z) : result LoopError ChosenPr :=
  match chosen with
  | None => Ok noChosenPr
  | Some n =>
      try detail := match details !! n with
                    | Some (Some p) => Ok (Some p)
                    | _ => ob_getPrDetail d n
                    end in
      match detail with
      | None => Ok noChosenPr
      | Some p =>
          try checks := ob_getPrChecks d n in
          let epoch := match ob_getPrCommits d with
                       | Some f => match f n with
                                   | Ok commits => logicalCandidateEpoch commits (pd_head_sha p)
                                   | Err _ => None
                                   end
                       | None => None
                       end in
          Ok (mkChosen (Some n) (Some (pd_state p)) (pd_head_ref p) (pd_head_sha p) (pd_merge_commit_sha p)
                (deriveChecksConclusion checks) epoch)
      end
  end.

Definition observeExternalIdentity (d : ObserveDeps) (itemId : string) (expectedOperation : option string)
    : result LoopError LoopExternalIdentity :=
  try issueNumber := parseItemIssueNumber itemId in
  try issue := ob_getIssueStateAndLabels d issueNumber in
  let labels := from_option snd [] issue in
  try found := ob_findPrForIssue d issueNumber in
  try listedRaw := match ob_listLinkedPrs d with
                   | Some f => try l := f issueNumber in Ok (Some l)
                   | None => Ok None
                   end in
  let consultAllLinked := bool_decide (listedRaw ≠ None) in
  let listed := from_option normalizeLinkedIssuePrs ([], false) listedRaw in
  let numbers := if consultAllLinked then listed.1 else option_list found in
  try g := rfold (gatherLinked d) (mkGathered ∅ [] false) numbers in
  let currentPrDetail := found ≫= fun n => mjoin (ga_details g !! n) in
  try local := match currentPrDetail with
               | Some _ => match ob_getLocalHead d issueNumber with Ok l => Ok l | Err _ => Ok None end
               | None => ob_getLocalHead d issueNumber
               end in
  let currentCandidateSha := match local with Some l => Some (lh_sha l) | None => pd_head_sha <$> currentPrDetail end in
  let exactBinding := mkExpected currentCandidateSha expectedOperation in
  let certainty := integrationSideEffectCertainty (ga_facts g) (consultAllLinked && listed.2) (ga_incomplete g) exactBinding in
  let authoritative := if consultAllLinked then selectAuthoritativeLinkedPr (ga_facts g) exactBinding else head (ga_facts g) in
  let authorityNumber := lp_number <$> authoritative in
  let chosen := if decide (certainty = KnownComplete)
                then match authorityNumber with Some n => Some n | None => found end
                else match found with Some n => Some n | None => authorityNumber end in
  let projected := match js_find (fun f => bool_decide (Some (lp_number f) = chosen)) (ga_facts g) with
                   | Some f => Some f
                   | None => authoritative
                   end in
  try pr := readChosen d (ga_details g) chosen in
  let useLocal := bool_decide (ch_head_branch pr = "") in
  Ok (mkIdentity issueNumber (from_option fst false issue) (includes READY_LABEL labels) (isBlockedInLabels labels)
        (ch_number pr) (ch_state pr)
        (match local with Some l => if useLocal then lh_branch l else ch_head_branch pr | None => ch_head_branch pr end)
        (match local with Some l => if useLocal then lh_sha l else ch_head_sha pr | None => ch_head_sha pr end)
        (ch_merge_commit_sha pr) (ch_checks pr) (pipelineStageFromLabels labels) (ob_now d)
        (lh_sha <$> local) (Some (from_option lh_rebase_in_progress false local))
        (Some (from_option lh_product_dirt false local)) (Some certainty) (ch_epoch pr)
        (Some (default RoleUnknown (projected ≫= lp_artifact_role))) (projected ≫= lp_artifact_identity)
        (projected ≫= lp_candidate_epoch) (projected ≫= lp_logical_operation_id) expectedOperation (Some numbers)).

(** ** Facts *)

Definition isPassing (c : CheckRun) : Prop := bucketOf c ∈ ["pass"; "skipping"].
Definition isFailing (c : CheckRun) : Prop := bucketOf c ∈ ["fail"; "cancel"].

Lemma passing_not_failing c : isPassing c → ¬ isFailing c.
Proof.
  unfold isPassing, isFailing. rewrite !elem_of_cons, elem_of_nil. intros [->|[->|[]]] [H|[H|[]]]; discriminate H.
Qed.

(** Line by line: what has failed, what is pending. *)
Lemma aggregate_spec checks :
  let g := foldl aggregateStep (mkAggregate true false []) checks in
  (ag_failed g ≠ [] ↔ ∃ c, c ∈ checks ∧ isFailing c) ∧
  (ag_pending g = true ↔ ∃ c, c ∈ checks ∧ ¬ isPassing c ∧ ¬ isFailing c) ∧
  (ag_passed g = true ↔ ag_failed g = []).
Proof.
  induction checks as [|c checks (IHf & IHp & IHo)] using rev_ind; simpl.
  { split; [|split]; [split; [done|intros (? & H & _); inversion H]|split; [done|intros (? & H & _); inversion H]|done]. }
  rewrite foldl_app. simpl. set (g := foldl aggregateStep _ checks) in *. unfold aggregateStep.
  setoid_rewrite elem_of_app. setoid_rewrite list_elem_of_singleton.
  destruct (includes (bucketOf c) ["pass"; "skipping"]) eqn:Ep;
    [apply includes_true in Ep|apply includes_false in Ep; destruct (includes (bucketOf c) ["fail"; "cancel"]) eqn:Ef;
      [apply includes_true in Ef|apply includes_false in Ef]]; simpl.
  - pose proof (passing_not_failing c Ep) as Hnf. rewrite IHf, IHp. split; [|split]; [|naive_solver|done].
    split; [naive_solver|]. intros (x & [Hx| ->] & Hf); [eauto|done].
  - split; [|split].
    + split; [intros _; eauto|]. intros _ H. by apply app_nil in H as [_ ?].
    + rewrite IHp. split; [naive_solver|]. intros (x & [Hx| ->] & Hn); [eauto|]. by destruct Hn as [_ []].
    + split; [done|]. intros H. by apply app_nil in H as [_ ?].
  - split; [|split]; [|split; [intros _; eauto|done]|done].
    rewrite IHf. split; [naive_solver|]. intros (x & [Hx| ->] & Hf); [eauto|done].
Qed.

(** The aggregate conclusion, exactly. *)
Lemma checks_exact checks :
  match deriveChecksConclusion checks with
  | ChecksNone => checks = []
  | ChecksFailure => ∃ c, c ∈ checks ∧ isFailing c
  | ChecksSuccess => checks ≠ [] ∧ ∀ c, c ∈ checks → isPassing c
  | ChecksPending => (∀ c, c ∈ checks → ¬ isFailing c) ∧ ∃ c, c ∈ checks ∧ ¬ isPassing c
  end.
Proof.
  unfold deriveChecksConclusion. destruct checks as [|c0 cs] eqn:Ec; [done|]. rewrite <-Ec.
  assert (checks ≠ []) as Hne by by rewrite Ec. clear cs Ec c0.
  unfold parseChecksAggregate. cbv zeta. pose proof (aggregate_spec checks) as Ha. cbv zeta in Ha.
  set (g := foldl aggregateStep (mkAggregate true false []) checks) in *. destruct Ha as (Hf & Hp & Ho). simpl.
  case_bool_decide as Hb; [by apply Hf|]. rewrite (proj2 Ho Hb).
  assert (∀ c, c ∈ checks → ¬ isFailing c) as Hnf by (intros c Hc Hx; apply (proj2 Hf); eauto).
  destruct (ag_pending g); simpl.
  - split; [done|]. destruct (proj1 Hp eq_refl) as (c & Hc & Hn & _). eauto.
  - split; [done|]. intros c Hc. apply dec_stable. intros Hn. by discriminate (proj2 Hp (ex_intro _ c (conj Hc (conj Hn (Hnf c Hc))))).
Qed.

(** What was read of one linked pull request. *)
Definition readLinked (d : ObserveDeps) (f : LinkedPrIntegrationFact) : Prop :=
  ∃ p, ob_getPrDetail d (lp_number f) = Ok (Some p) ∧ lp_state f = pd_state p ∧
    (lp_contained f = Some true → ∃ sha, pd_merge_commit_sha p = Some sha ∧ ob_baseBranchContainsSha d sha = Ok (Some true)) ∧
    (lp_artifact_role f = Some RoleImplementation →
       ∃ bind b, ob_getPrArtifactBinding d = Some bind ∧ bind (lp_number f) p = Ok b ∧ bi_role b = RoleImplementation).

Lemma gather_step d g n g' :
  gatherLinked d g n = Ok g' →
  (∃ f, ga_facts g' = ga_facts g ++ [f] ∧ ga_incomplete g' = ga_incomplete g ∧ lp_number f = n ∧ readLinked d f) ∨
  (ga_facts g' = ga_facts g ∧ ga_incomplete g' = true).
Proof.
  unfold gatherLinked. intros H. inv_bind H. destruct x as [p|]; [|right; by injection H as <-]. left.
  destruct (match pd_state p with PrStateMerged => _ | _ => _ end) as [c|] eqn:Ec; cbn [rbind] in H; [|done].
  destruct (match ob_getPrArtifactBinding d with Some f => _ | None => _ end) as [a|] eqn:Ea; cbn [rbind] in H; [|done].
  injection H as <-. eexists. do 2 (split; [done|]). split; [done|]. exists p. split; [done|]. split; [done|]. split; simpl.
  - intros ->. destruct (pd_state p), (truthy (pd_merge_commit_sha p)) as [sha|] eqn:Es; simplify_eq.
    exists sha. split; [|done]. by apply Frontier.truthy_Some in Es as [? _].
  - intros Hr. injection Hr as Hr. destruct (ob_getPrArtifactBinding d) as [bind|]; [by eauto|]. by injection Ea as <-.
Qed.

Lemma gather_all d ns g0 g :
  rfold (gatherLinked d) g0 ns = Ok g →
  (∀ f, f ∈ ga_facts g → f ∈ ga_facts g0 ∨ (lp_number f ∈ ns ∧ readLinked d f)) ∧
  (ga_incomplete g = false → ga_incomplete g0 = false ∧ ∀ n, n ∈ ns → ∃ f, f ∈ ga_facts g ∧ lp_number f = n) ∧
  (∀ f, f ∈ ga_facts g0 → f ∈ ga_facts g).
Proof.
  revert g0. induction ns as [|n ns IH]; intros g0; simpl.
  { intros [= <-]. split; [auto|]. split; [|auto]. intros Hi. split; [done|]. intros n Hn. inversion Hn. }
  intros H. inv_bind H. destruct (IH _ H) as (H1 & H2 & H3).
  destruct (gather_step _ _ _ _ E) as [(f & Hf & Hi & Hn & Hr)|[Hf Hi]].
  - assert (f ∈ ga_facts g) as Hin by (apply H3; rewrite Hf; apply elem_of_app; right; left). split; [|split].
    + intros f' Hf'. destruct (H1 _ Hf') as [Hx|[Hx ?]]; [|right; split; [by right|done]]. rewrite Hf in Hx.
      apply elem_of_app in Hx as [?| ->%list_elem_of_singleton]; [by left|right]. split; [rewrite Hn; left|done].
    + intros Hg. destruct (H2 Hg) as [Hx Hall]. split; [congruence|]. intros m [->|Hm]%elem_of_cons; [by exists f|by apply Hall].
    + intros f' Hf'. apply H3. rewrite Hf. apply elem_of_app. by left.
  - split; [|split].
    + intros f' Hf'. destruct (H1 _ Hf') as [Hx|[Hx ?]]; [left; congruence|right; split; [by right|done]].
    + intros Hg. destruct (H2 Hg) as [Hx _]. congruence.
    + intros f' Hf'. apply H3. congruence.
Qed.

(** The certainty an observation records is the one its linked facts prove. *)
Lemma observe_certainty d k op i :
  observeExternalIdentity d k op = Ok i →
  ∃ g truncated expected, rfold (gatherLinked d) (mkGathered ∅ [] false) (default [] (linked_pr_numbers i)) = Ok g ∧
    integration_certainty i = Some (integrationSideEffectCertainty (ga_facts g) truncated (ga_incomplete g) expected) ∧
    observed_at i = ob_now d ∧ expected_logical_operation_id i = op.
Proof.
  unfold observeExternalIdentity. intros H. do 4 inv_bind H.
  destruct (rfold (gatherLinked d) _ _) as [g|] eqn:Eg; cbn [rbind] in H; [|done].
  destruct (match _ with Some _ => _ | None => ob_getLocalHead d _ end) as [local|] eqn:El; cbn [rbind] in H; [|done].
  destruct (readChosen d _ _) as [pr|] eqn:Er; cbn [rbind] in H; [|done]. injection H as <-. simpl.
  eexists g, _, _. done.
Qed.

(** What a complete integration was read from. *)
Definition integrationRead (d : ObserveDeps) (numbers : list Z) : Prop :=
  ∃ n p sha bind b, n ∈ numbers ∧ ob_getPrDetail d n = Ok (Some p) ∧ pd_state p = PrStateMerged ∧
    pd_merge_commit_sha p = Some sha ∧ ob_baseBranchContainsSha d sha = Ok (Some true) ∧
    ob_getPrArtifactBinding d = Some bind ∧ bind n p = Ok b ∧ bi_role b = RoleImplementation.

Lemma complete_was_read d k op i :
  observeExternalIdentity d k op = Ok i → integration_certainty i = Some KnownComplete →
  integrationRead d (default [] (linked_pr_numbers i)).
Proof.
  intros H. apply observe_certainty in H as (g & t & e & Hg & Hc & _). rewrite Hc. intros Hk. injection Hk as Hk.
  destruct (gather_all _ _ _ _ Hg) as (H1 & _ & _). apply certainty_complete in Hk as (f & Hf & Hm & Hcon & Hex).
  destruct (H1 f Hf) as [Hf0|[Hn (p & Hp & Hs & Hb & Hr)]]; [inversion Hf0|].
  destruct (Hb Hcon) as (sha & Hsha & Hbase). destruct Hr as (bind & b & Hbd & Hbn & Hrole).
  { unfold isExactLinkedImplementation in Hex. rewrite !andb_true_iff in Hex. destruct Hex as [[[[[Hex _] _] _] _] _].
    by apply bool_decide_eq_true in Hex. }
  exists (lp_number f), p, sha, bind, b. split; [done|]. split; [done|]. split; [congruence|]. done.
Qed.

(** ** Properties *)

(** What an observation certifies was read through the seam: an integration
    recorded as complete rests on a linked pull request read as merged whose
    merge commit the base branch was found to contain and whose artifact is an
    implementation; one recorded as absent means every linked pull request was
    read and none is merged. *)
Theorem observed_certainty_proven d k op i :
  observeExternalIdentity d k op = Ok i →
  (integration_certainty i = Some KnownComplete →
     integrationRead d (default [] (linked_pr_numbers i))) ∧
  (integration_certainty i = Some KnownAbsent →
     ∀ n, n ∈ default [] (linked_pr_numbers i) → ∃ p, ob_getPrDetail d n = Ok (Some p) ∧ pd_state p ≠ PrStateMerged).
Proof.
  intros H. split; [by apply (complete_was_read d k op)|].
  apply observe_certainty in H as (g & t & e & Hg & Hc & _). rewrite Hc. intros Hk. injection Hk as Hk.
  destruct (gather_all _ _ _ _ Hg) as (H1 & H2 & _).
  apply certainty_absent in Hk as (_ & Hi & Hno). intros n Hn. destruct (H2 Hi) as [_ Hall].
  destruct (Hall n Hn) as (f & Hf & <-). destruct (H1 f Hf) as [Hf0|[_ (p & Hp & Hs & _)]]; [inversion Hf0|].
  exists p. split; [done|]. rewrite <-Hs. by apply Hno.
Qed.
End Observe.

(** ** Witnesses *)

Module ObserveSample.
(** [Number] on the ids the sample uses. *)
Definition toNumber (s : string) : jsnum := if decide (s = "7") then num 7 else NonFinite.
Definition head : string := "abc123".
Definition bound : ArtifactBinding := mkBinding RoleImplementation (Some "impl-7") (Some head) (Some head) (Some "lop-1").

(** Issue 7 with one linked pull request, 11. *)
Definition deps (labels : list string) (p : PrState) (merge : option string) (b : option ArtifactBinding) : ObserveDeps :=
  mkObserve (fun _ => Ok (Some (true, labels))) (fun _ => Ok (Some 11%Z)) (Some (fun _ => Ok (LinkedPrs [11%Z] false)))
    (fun n => Ok (if decide (n = 11%Z) then Some (mkPrDetail p "issue-7" head merge None) else None))
    (fun _ => Ok [mkCheck (Some "ci") (Some "pass")]) None
    ((fun b => fun _ _ => Ok b) <$> b) (fun _ => Ok None)
    (fun sha => Ok (Some (bool_decide (sha = "fff")))) "now".
Definition merged : ObserveDeps := deps ["pipeline:review-1"] PrStateMerged (Some "fff") (Some bound).
End ObserveSample.

Lemma observed_certainty_proven_witness : integrationRead ObserveSample.merged [11%Z].
Proof.
  destruct (observeExternalIdentity ObserveSample.toNumber ObserveSample.merged "7" (Some "lop-1")) as [i|e] eqn:E.
  - destruct (observed_certainty_proven _ _ _ _ _ E) as [H _]. vm_compute in E. injection E as <-. by apply H.
  - exfalso. vm_compute in E. discriminate E.
Defined.
