(* ===== verification/Reconcile.v ===== *)
(** * Verified reconciliation

    The deciding and writing half of [core/scripts/loop/reconcile.ts]: drift
    classification against a verified identity, forward-only repair and local
    reconstruction, the next action, the reconciliation pass, the terminal
    catch-up, and the guarded transition into a remote-proving state. *)

From Stdlib Require Import ZArith QArith Qcanon.
From stdpp Require Import numbers base gmap strings list pretty relations.
From S2P Require Import Prelude LoopTypes Ownership Lifecycle RecoveryPolicy Frontier Precondition Observation TypedRequests RecoveryEpisodes RecoveryHandlers Store Holds Observe.
Local Open Scope result_scope.
Local Open Scope nat_scope.

Definition isRemoteProving (s : LoopItemState) : bool :=
  match s with PrOpened | Ready | Merged | Released | Deployed => true | _ => false end.

(** ** Drift *)

Definition checksRegressed (bound : option LoopExternalIdentity) (i : LoopExternalIdentity) : bool :=
  match bound with
  | Some b => bool_decide (checks_conclusion b = ChecksSuccess) &&
              bool_decide (checks_conclusion i = ChecksFailure ∨ checks_conclusion i = ChecksPending)
  | None => false
  end.

Definition localRemoteIdentityDrift (i : LoopExternalIdentity) (bound : option LoopExternalIdentity) : bool :=
  if bool_decide (rebase_in_progress i = Some true) then true
  else
    let local := normSha (local_head_sha i) in
    let claimed := normSha (head_sha <$> bound) in
    if bool_decide (local ≠ "") && bool_decide (claimed ≠ "") && bool_decide (local ≠ claimed) &&
       bool_decide (pr_state i ≠ Some PrStateMerged) then true
    else if bool_decide (product_dirt i = Some true) && bool_decide (rebase_in_progress i = Some true) then true
    else false.

(** The artifact projected on the identity is the implementation at its head,
    for the expected operation. *)
Definition exactImplementation (i : LoopExternalIdentity) : bool :=
  let expectedOperation := js_trim (default "" (expected_logical_operation_id i)) in
  let artifactOperation := js_trim (default "" (logical_operation_id i)) in
  bool_decide (artifact_role i = Some RoleImplementation) && present (artifact_identity i) &&
  bool_decide (js_trim (head_sha i) ≠ "") &&
  bool_decide ((fun e => lowerString (js_trim e)) <$> candidate_epoch i = Some (lowerString (js_trim (head_sha i)))) &&
  (bool_decide (expectedOperation = "") || bool_decide (artifactOperation = expectedOperation)).

Definition verifiedForwardTarget (i : LoopExternalIdentity) : option LoopItemState :=
  if bool_decide (pr_state i = Some PrStateMerged) && bool_decide (integration_certainty i = Some KnownComplete) &&
     exactImplementation i then Some Merged
  else if bool_decide (pr_number i ≠ None) && bool_decide (pr_state i = Some PrStateOpen) then
    if negb (exactImplementation i) then None
    else if ready_label_present i then Some Ready
    else if isAdvanceStillNeeded i then None
    else Some PrOpened
  else None.

Definition reconstructedLocalState (i : LoopExternalIdentity) (current : LoopItemState) : LoopItemState :=
  match current with
  | Waiting | Paused | Blocked => current
  | _ =>
      match verifiedForwardTarget i with
      | Some target => target
      | None =>
          if bool_decide (pr_number i ≠ None) && bool_decide (pr_state i = Some PrStateOpen) && isAdvanceStillNeeded i
          then InProgress
          else if isRemoteProving current then Implemented
          else current
      end
  end.

Definition isPastMerge (s : LoopItemState) : bool := match s with Merged | Released | Deployed => true | _ => false end.

(** The head moved under a state that is bound to a head. *)
Definition headMoved (s : LoopItemState) (i : LoopExternalIdentity) (bound : option LoopExternalIdentity) : bool :=
  match bound with
  | Some b => bool_decide (head_sha b ≠ "") && bool_decide (head_sha i ≠ "") && bool_decide (head_sha b ≠ head_sha i) &&
              negb (isPastMerge s)
  | None => false
  end.

Definition prRebound (i : LoopExternalIdentity) (bound : option LoopExternalIdentity) : bool :=
  match bound with
  | Some b => bool_decide (pr_number b ≠ None) && bool_decide (pr_number b ≠ pr_number i)
  | None => false
  end.

Definition classifyDrift (s : LoopItemState) (i : LoopExternalIdentity) (bound : option LoopExternalIdentity)
    : option LoopDriftClass :=
  if negb (isRemoteProving s) then
    match verifiedForwardTarget i with
    | Some target =>
        if bool_decide (s = Blocked ∧ target = PrOpened) then
          if localRemoteIdentityDrift i bound then Some IdentityMismatch
          else if checksRegressed bound i then Some ChecksRegressed else None
        else Some LedgerBehind
    | None =>
        if localRemoteIdentityDrift i bound then Some IdentityMismatch
        else if checksRegressed bound i then Some ChecksRegressed else None
    end
  else if negb (isPastMerge s) && bool_decide (verifiedForwardTarget i = Some Merged) then Some LedgerBehind
  else if bool_decide (s = PrOpened) && bool_decide (pr_state i = Some PrStateOpen) && ready_label_present i
  then Some LedgerBehind
  else if bool_decide (pr_number i = None) then Some ExternalAbsent
  else if prRebound i bound then Some IdentityMismatch
  else if localRemoteIdentityDrift i bound then Some IdentityMismatch
  else if headMoved s i bound then Some IdentityMismatch
  else match s with
  | PrOpened =>
      if bool_decide (pr_state i ≠ Some PrStateOpen) then Some LedgerAhead
      else if checksRegressed bound i then Some ChecksRegressed else None
  | Ready =>
      if bool_decide (pr_state i ≠ Some PrStateOpen) || negb (ready_label_present i) then Some LedgerAhead
      else if checksRegressed bound i then Some ChecksRegressed else None
  | Merged | Released | Deployed =>
      if bool_decide (verifiedForwardTarget i ≠ Some Merged) then Some LedgerAhead else None
  | _ => None
  end.

Definition pr_state_name (s : PrState) : string :=
  match s with PrStateOpen => "open" | PrStateClosed => "closed" | PrStateMerged => "merged" end.
Definition checks_name (c : ChecksConclusion) : string :=
  match c with ChecksSuccess => "success" | ChecksFailure => "failure" | ChecksPending => "pending" | ChecksNone => "none" end.

Definition describeObservedState (i : LoopExternalIdentity) : string :=
  "pr:" +:+ from_option pretty "none" (pr_number i) +:+ "/" +:+ from_option pr_state_name "none" (pr_state i) +:+
  " checks:" +:+ checks_name (checks_conclusion i).

(** ** Next action *)

Definition isReviewPipelineStage (stage : option string) : bool :=
  bool_decide (stage = Some "review-1" ∨ stage = Some "review-2").

Definition computeNextAction (s : LoopItemState) (i : LoopExternalIdentity) (drift : option LoopDriftClass)
    (mergeBarrierSetForThisItem currentHumanAuthority : bool) : LoopNextAction :=
  if bool_decide (drift = Some LedgerBehind) then ActRepairForward
  else if currentHumanAuthority then ActHoldForHuman
  else if bool_decide (drift = Some LedgerAhead ∨ drift = Some ExternalAbsent ∨ drift = Some IdentityMismatch)
  then ActReconstruct
  else
    let reviewStage := isReviewPipelineStage (pipeline_stage i) in
    if bool_decide (drift = Some ChecksRegressed) then
      if reviewStage then ActAdvance
      else if bool_decide (checks_conclusion i = ChecksPending) then ActAwaitChecks else ActNoop
    else if blocked_label_present i then ActNoop
    else match s with
    | PrOpened =>
        if reviewStage then ActAdvance
        else match checks_conclusion i with
        | ChecksPending => ActAwaitChecks
        | ChecksSuccess => ActAdvance
        | _ => ActNoop
        end
    | InProgress | Pending => if reviewStage then ActAdvance else ActNoop
    | Merged => if mergeBarrierSetForThisItem then ActClearMergeBarrier else ActNoop
    | _ => ActNoop
    end.

(** ** The reconciliation pass *)

(** [{ ...entry, state, last_verified_identity, history: [..., h] }], without
    [blocked_theme] when the item became ready. *)
Definition moved (e : LoopItemLedgerEntry) (s : LoopItemState) (i : LoopExternalIdentity) (h : LoopHistoryEntry)
    (dropTheme : bool) : LoopItemLedgerEntry :=
  mkEntry (id e) s (history e ++ [h]) (if dropTheme then None else blocked_theme e) (recovery_budgets_remaining e)
    (evidence_fingerprint e) (blocker_candidate_epoch e) (blocker_candidate_head e) (repeated_evidence_count e)
    (hold_request e) (Some i) (current_stage e) (advance_run_id e).

Definition verified (e : LoopItemLedgerEntry) (i : LoopExternalIdentity) : LoopItemLedgerEntry :=
  mkEntry (id e) (state e) (history e) (blocked_theme e) (recovery_budgets_remaining e) (evidence_fingerprint e)
    (blocker_candidate_epoch e) (blocker_candidate_head e) (repeated_evidence_count e) (hold_request e) (Some i)
    (current_stage e) (advance_run_id e).

(** One turn of the loop over the items. *)
Record ItemTurn := mkTurn {
  tu_entry : LoopItemLedgerEntry;
  tu_drift : option LoopDrift;
  tu_changed : bool;
  tu_proved : bool;
}.

Definition reconcileEntry (engine : LoopEngineName) (time itemId : string) (e : LoopItemLedgerEntry)
    (i : LoopExternalIdentity) : result LoopError ItemTurn :=
  let driftClass := classifyDrift (state e) i (last_verified_identity e) in
  let drift := (fun c => mkDrift itemId (state e) (describeObservedState i) c) <$> driftClass in
  let move to note dropTheme := moved e to i (mkHistory time (state e) to engine None None (Some note)) dropTheme in
  match driftClass with
  | Some LedgerBehind =>
      match verifiedForwardTarget i with
      | None => throw FValidation ("classifyDrift reported " +:+ quoted "ledger-behind" +:+ " for item " +:+ quoted itemId +:+
                  " but verifiedForwardTarget found no verified target — these must agree")
      | Some target =>
          Ok (mkTurn (move target "reconciliation repaired forward on verified external identity" (bool_decide (target = Ready)))
                drift true (isObserverSuccessState target))
      end
  | Some LedgerAhead | Some ExternalAbsent | Some IdentityMismatch =>
      Ok (mkTurn (move (reconstructedLocalState i (state e)) "reconciliation reconstructed local state from owning-system observer" false)
            drift true false)
  | Some ChecksRegressed | None =>
      if bool_decide (state e = PrOpened ∨ state e = Implemented) && isAdvanceStillNeeded i then
        Ok (mkTurn (move InProgress "reconciliation restored advance-still-needed item to in_progress for re-dispatch" false) drift true false)
      else if bool_decide (driftClass = None) && (isRemoteProving (state e) || bool_decide (pr_number i ≠ None))
      then Ok (mkTurn (verified e i) drift false false)
      else Ok (mkTurn e drift false false)
  end.

Section Reconcile.
Context (sha256hex : string → string) {dates : IsoDates} (mint : string) (toNumber : string → jsnum) (Date_parse : string → option Z).

Definition resolveTransitionLogicalOperationId (l : LoopLedger) (contractOperation inputOperation : option string) : string :=
  resolveLogicalOperationId (lr_logical_operation_id <$> lifecycle l)
    (match inputOperation with Some x => Some x | None => contractOperation end) None None mint.

Definition bindLifecycleForItemTransition (l : LoopLedger) (op updatedAt : string) (observerProved : bool) : LoopLedger :=
  bindLifecycleRecord l op
    (lifecycleOwnershipAfterItemTransition Date_parse (items l) (bool_decide (is_Some (cooling l)))
       (stop_reason_name ∘ stop_reason <$> stop l) observerProved true (Date_parse updatedAt)
       (Some NATIVE_GOAL_FRESHNESS_WINDOW_SECONDS)) updatedAt.

(** An item with what was observed of it and the loop's turn on it. *)
Record Observed := mkObserved {
  od_id : string;
  od_identity : LoopExternalIdentity;
  od_turn : ItemTurn;
}.

Definition observeItem (d : ObserveDeps) (engine : LoopEngineName) (time : string → string) (op : option string)
    (done : list Observed) (p : string * LoopItemLedgerEntry) : result LoopError (list Observed) :=
  try i := observeExternalIdentity toNumber d p.1 op in
  try turn := reconcileEntry engine (time p.1) p.1 p.2 i in
  Ok (done ++ [mkObserved p.1 i turn]).

(** A hold proven by authority evidence bound to the observed head. *)
Definition currentHumanAuthority (e : LoopItemLedgerEntry) (i : LoopExternalIdentity) : bool :=
  isHeld (state e) &&
  match hold_request e with
  | Some h => bool_decide (is_Some (truthy (authority_evidence_key h))) &&
              bool_decide (lowerString <$> authority_candidate_head h = Some (lowerString (head_sha i)))
  | None => false
  end.

Definition nextActionFor (l : LoopLedger) (barrier : option LoopMergeBarrier) (o : Observed) : string * LoopNextAction :=
  let e := tu_entry (od_turn o) in
  (od_id o, computeNextAction (state e) (od_identity o) (drift_class <$> tu_drift (od_turn o))
              (bool_decide (mb_item_id <$> merge_barrier l = Some (od_id o)) && bool_decide (barrier ≠ None))
              (currentHumanAuthority e (od_identity o))).

Definition with_reconciliation (l : LoopLedger) (its : obj LoopItemLedgerEntry) (barrier : option LoopMergeBarrier)
    (r : LoopReconciliation) : LoopLedger :=
  mkLedger (l_run_id l) its barrier (stop l) (cooling l) (item_cooling l) (lifecycle l) (Some r) (recovery_attempts l)
    (last_native_goal_check l) (rec_sequence r) (authority_amendments l).

Definition requireNotHardStopped (l : LoopLedger) (runId : string) : result LoopError unit :=
  match stop l with
  | Some st =>
      if isMechanicalCompatibilityStopReason (Some (stop_reason_name (stop_reason st))) then Ok tt
      else throw FStop ("loop run " +:+ quoted runId +:+ " is already stopped: " +:+ stop_reason_name (stop_reason st))
  | None => Ok tt
  end.

(** [time] gives the clock read of each item's history line, [recorded] the one
    of the reconciliation record. *)
Definition reconcile (d : ObserveDeps) (s : RunStore) (runId : string) (engine : LoopEngineName)
    (time : string → string) (recorded logTime : string) : result LoopError (list StoreWrite * LoopLedger) :=
  let l := readLedger sha256hex s in
  try _ := requireNotHardStopped l runId in
  try turns := rfold (observeItem d engine time (lr_logical_operation_id <$> lifecycle l)) [] (items l) in
  let its := (fun o => (od_id o, tu_entry (od_turn o))) <$> turns in
  try barrier := match merge_barrier l with
                 | None => Ok None
                 | Some b =>
                     try contains := ob_baseBranchContainsSha d (merged_sha b) in
                     Ok (if decide (contains = Some true) then None else Some b)
                 end in
  let drift := omap (fun o => tu_drift (od_turn o)) turns in
  let next_actions := nextActionFor l barrier <$> turns in
  let sequence := (reconciliation_sequence l + 1)%Z in
  let r := mkReconciliation sequence recorded ((fun o => (od_id o, od_identity o)) <$> turns) drift next_actions in
  let l1 := with_reconciliation l its barrier r in
  let l2 := if existsb (fun o => tu_changed (od_turn o)) turns
            then bindLifecycleForItemTransition l1 (resolveTransitionLogicalOperationId l None None) recorded
                   (existsb (fun o => tu_proved (od_turn o)) turns)
            else l1 in
  Ok ([WLedger l2; WEvent logTime (EvReconciled sequence drift next_actions)] ++
      match merge_barrier l, barrier with
      | Some b, None => [WEvent logTime (EvMergeBarrierCleared (mb_item_id b) (merged_sha b))]
      | _, _ => []
      end, l2).

(** ** Terminal catch-up of an exhausted or cooling run *)

Definition catchUpItem (d : ObserveDeps) (engine : LoopEngineName) (time : string → string) (op : option string)
    (done : obj LoopItemLedgerEntry * list (string * LoopItemState * LoopItemState)) (p : string * LoopItemLedgerEntry)
    : result LoopError (obj LoopItemLedgerEntry * list (string * LoopItemState * LoopItemState)) :=
  let keep := Ok (done.1 ++ [p], done.2) in
  try i := observeExternalIdentity toNumber d p.1 op in
  match verifiedForwardTarget i with
  | Some target =>
      if bool_decide (target ≠ Ready ∧ target ≠ Merged) then keep
      else if bool_decide (state p.2 = target) then keep
      else if bool_decide (classifyDrift (state p.2) i (last_verified_identity p.2) ≠ Some LedgerBehind) then keep
      else
        Ok (done.1 ++ [(p.1, moved p.2 target i
                         (mkHistory (time p.1) (state p.2) target engine None None
                            (Some "resume terminal catch-up repaired forward on verified external identity"))
                         (bool_decide (target = Ready)))],
            done.2 ++ [(p.1, state p.2, target)])
  | None => keep
  end.

Definition resumeRecoveryExhaustedTerminalCatchUp (d : ObserveDeps) (s : RunStore) (engine : LoopEngineName)
    (time : string → string) (recorded logTime : string) : result LoopError (list StoreWrite) :=
  let l := readLedger sha256hex s in
  if bool_decide (stop_reason <$> stop l ≠ Some RecoveryExhausted) && bool_decide (cooling l = None) then Ok []
  else
    try done := rfold (catchUpItem d engine time (lr_logical_operation_id <$> lifecycle l)) ([], []) (items l) in
    match done.2 with
    | [] => Ok []
    | repaired =>
        let l' := bindLifecycleForItemTransition (with_items l done.1) (resolveTransitionLogicalOperationId l None None) recorded
                    (existsb (fun r => isObserverSuccessState r.2) repaired) in
        Ok (WLedger l' :: ((fun r => WEvent logTime (EvItemTransitioned r.1.1 r.1.2 r.2)) <$> repaired))
    end.

(** ** Transitions *)

Definition STATE_TO_GATE (s : LoopItemState) : option LoopAuthorityGate :=
  match s with
  | PrOpened => Some PushPr
  | Merged => Some MergeGate
  | Released => Some ReleaseGate
  | Deployed => Some DeployGate
  | _ => None
  end.

Definition identitySupportsState (s : LoopItemState) (i : LoopExternalIdentity) : bool :=
  match s with
  | PrOpened => bool_decide (pr_number i ≠ None) && bool_decide (pr_state i = Some PrStateOpen)
  | Ready => bool_decide (pr_number i ≠ None) && bool_decide (pr_state i = Some PrStateOpen) && ready_label_present i
  | Merged => bool_decide (pr_state i = Some PrStateMerged)
  | Released | Deployed => false
  | _ => true
  end.

(** The items with their fresh identities, when every one is freshly proven. *)
Fixpoint freshProofs (d : ObserveDeps) (op : option string) (liveItemId : string) (liveIdentity : option LoopExternalIdentity)
    (nowMs : Z) (its : obj LoopItemLedgerEntry) : option (obj LoopItemLedgerEntry) :=
  match its with
  | [] => Some []
  | (k, e) :: its' =>
      let identity := match liveIdentity with
                      | Some i => if decide (k = liveItemId) then Ok i else observeExternalIdentity toNumber d k op
                      | None => observeExternalIdentity toNumber d k op
                      end in
      match identity with
      | Err _ => None
      | Ok i =>
          if negb (fresh Date_parse i nowMs NATIVE_GOAL_FRESHNESS_WINDOW_SECONDS) || negb (identitySupportsState (state e) i) then None
          else
            rest ← freshProofs d op liveItemId liveIdentity nowMs its';
            Some ((k, if decide (k = liveItemId) then e else verified e i) :: rest)
      end
  end.

Definition everySuccessItemHasFreshLiveProof (d : ObserveDeps) (l : LoopLedger) (liveItemId : string)
    (liveIdentity : option LoopExternalIdentity) (nowMs : Z) : option LoopLedger :=
  if bool_decide (items l = []) then None
  else if negb (forallb (fun p => isObserverSuccessState (state p.2)) (items l)) then None
  else with_items l <$> freshProofs d (lr_logical_operation_id <$> lifecycle l) liveItemId liveIdentity nowMs (items l).

Definition describeIdentityEvidence (i : LoopExternalIdentity) : string :=
  "verified " +:+ describeObservedState i +:+ " at " +:+ observed_at i.

Record TransitionItemInput := mkTransition {
  tr_itemId : string;
  tr_engine : LoopEngineName;
  tr_to : LoopItemState;
  tr_note : option string;
  tr_logicalOperationId : option string;
  (** [observerProof?.provedPostcondition]. *)
  tr_observerProof : option bool;
}.

(** A hard stop refuses every item; a mechanical one only the stopped item, and
    not its observed catch-up. *)
Definition transitionStopped (l : LoopLedger) (i : TransitionItemInput) : option LoopStopRecord :=
  match stop l with
  | Some st =>
      let mechanical := isMechanicalCompatibilityStopReason (Some (stop_reason_name (stop_reason st))) in
      let sibling := bool_decide (stop_item_id st ≠ Some (tr_itemId i)) in
      if negb mechanical || (negb sibling && negb (isRemoteProving (tr_to i))) then Some st else None
  | None => None
  end.

(** The live identity a remote-proving target must rest on. *)
Definition proveTransition (d : ObserveDeps) (c : LoopContract) (l : LoopLedger) (i : TransitionItemInput) (nowMs : Z)
    : result LoopError (option LoopExternalIdentity) :=
  if negb (isRemoteProving (tr_to i)) then Ok None
  else
    try identity := observeExternalIdentity toNumber d (tr_itemId i) (lr_logical_operation_id <$> lifecycle l) in
    if negb (fresh Date_parse identity nowMs NATIVE_GOAL_FRESHNESS_WINDOW_SECONDS)
    then throw FValidation ("transition into " +:+ quoted (item_state_name (tr_to i)) +:+ " for item " +:+
           quoted (tr_itemId i) +:+ " requires a verified identity within the " +:+
           pretty NATIVE_GOAL_FRESHNESS_WINDOW_SECONDS +:+
           "s freshness window — the engine's live observation was taken at " +:+ observed_at identity)
    else if negb (identitySupportsState (tr_to i) identity)
    then throw FValidation ("transition into " +:+ quoted (item_state_name (tr_to i)) +:+ " for item " +:+
           quoted (tr_itemId i) +:+ " is not supported by the engine's verified external identity — caller-supplied state never proves a remote transition")
    else
      try _ := match STATE_TO_GATE (tr_to i) with
               | Some g => authorizeGatedTransition (authority_grants c) l g (tr_itemId i) (Some (describeIdentityEvidence identity))
               | None => Ok tt
               end in
      Ok (Some identity).

(** [nowMs] is the clock of the freshness check, [proofMs] the one of the
    siblings' proofs. *)
Definition transitionItem (d : ObserveDeps) (c : LoopContract) (s : RunStore) (runId : string) (i : TransitionItemInput)
    (nowMs proofMs : Z) (time logTime : string) : result LoopError (list StoreWrite * LoopLedger) :=
  let l := readLedger sha256hex s in
  match transitionStopped l i with
  | Some st => throw FStop ("loop run " +:+ quoted runId +:+ " is already stopped: " +:+ stop_reason_name (stop_reason st))
  | None =>
      match oget (items l) (tr_itemId i) with
      | None => notFound runId (tr_itemId i)
      | Some item =>
          if decide (tr_to i = Skipped)
          then throw FValidation ("item " +:+ quoted (tr_itemId i) +:+ " cannot transition to " +:+ quoted "skipped" +:+
                 " via transitionItem — skipped is entered only by dependency propagation (capability durable-run-dependency-integrity), never a caller-requested transition")
          else if decide (state item = Skipped)
          then throw FValidation ("item " +:+ quoted (tr_itemId i) +:+ " cannot transition from " +:+ quoted "skipped" +:+
                 " — skipped is terminal")
          else
            try observed := proveTransition d c l i nowMs in
            let h := mkHistory time (state item) (tr_to i) (tr_engine i) None None (tr_note i) in
            let updated := match observed with
                           | Some identity => moved item (tr_to i) identity h (bool_decide (tr_to i = Ready))
                           | None => entry_step item (tr_to i) h
                           end in
            let l1 := with_items l (oset (tr_itemId i) updated (items l)) in
            let proofs := if bool_decide (observed ≠ None) && isObserverSuccessState (tr_to i) && default true (tr_observerProof i)
                          then everySuccessItemHasFreshLiveProof d l1 (tr_itemId i) observed proofMs
                          else None in
            let l2 := default l1 proofs in
            let bound := bindLifecycleForItemTransition l2
                           (resolveTransitionLogicalOperationId l2 (c_logical_operation_id c) (tr_logicalOperationId i)) time
                           (bool_decide (proofs ≠ None)) in
            Ok ([WLedger bound; WEvent logTime (EvItemTransitioned (tr_itemId i) (state item) (tr_to i))], bound)
      end
  end.
End Reconcile.

(** ** Facts *)

(** What a remote-proving item rests on. *)
Definition ProvenEntry (e : LoopItemLedgerEntry) : Prop :=
  isRemoteProving (state e) = true →
  ∃ i, last_verified_identity e = Some i ∧ identitySupportsState (state e) i = true.

Lemma target_supported i t :
  verifiedForwardTarget i = Some t → identitySupportsState t i = true ∧ (t = Merged ∨ t = Ready ∨ t = PrOpened).
Proof.
  unfold verifiedForwardTarget. destruct (bool_decide (pr_state i = Some PrStateMerged) && _ && _) eqn:Em.
  { intros [= <-]. apply andb_true_iff in Em as [[Em _]%andb_true_iff _]. simpl. auto. }
  destruct (bool_decide (pr_number i ≠ None) && _) eqn:Eo; [|done]. destruct (exactImplementation i); simpl; [|done].
  destruct (ready_label_present i) eqn:Er; [|destruct (isAdvanceStillNeeded i); [done|]]; intros [= <-]; simpl;
    rewrite ?Eo, ?Er; auto.
Qed.

Lemma advance_open i : isAdvanceStillNeeded i = true →
  pr_number i ≠ None ∧ pr_state i = Some PrStateOpen ∧ ready_label_present i = false ∧ pipeline_stage i ≠ Some "needs-human".
Proof.
  unfold isAdvanceStillNeeded. destruct (_ || _) eqn:E; [done|]. apply orb_false_iff in E as [E1 E2].
  apply bool_decide_eq_false in E1, E2. apply dec_stable in E2. destruct (ready_label_present i); [done|]. by case_decide.
Qed.

Lemma advance_no_target i : isAdvanceStillNeeded i = true → verifiedForwardTarget i = None.
Proof.
  intros H. destruct (advance_open i H) as (Hn & Ho & Hr & _). unfold verifiedForwardTarget.
  rewrite Ho, Hr, H. case_bool_decide as Hm; [congruence|]. cbn [andb].
  destruct (bool_decide (pr_number i ≠ None) && _); [|done]. by destruct (negb _).
Qed.

(** With no drift the identity supports the state it was compared with. *)
Lemma aligned_supported s i b : isRemoteProving s = true → s ≠ Released → s ≠ Deployed → classifyDrift s i b = None → identitySupportsState s i = true.
Proof.
  intros Hr Hn1 Hn2. unfold classifyDrift. rewrite Hr. simpl.
  destruct (negb (isPastMerge s) && _); [done|]. destruct (bool_decide (s = PrOpened) && _ && _); [done|].
  destruct (bool_decide (pr_number i = None)) eqn:Hp; [done|]. apply bool_decide_eq_false in Hp.
  destruct (prRebound i b); [done|]. destruct (localRemoteIdentityDrift i b); [done|]. destruct (headMoved s i b); [done|].
  destruct s; try done; simpl.
  - destruct (bool_decide (pr_state i ≠ Some PrStateOpen)) eqn:Ho; [done|]. apply bool_decide_eq_false, dec_stable in Ho.
    intros _. by rewrite !bool_decide_true.
  - destruct (bool_decide (pr_state i ≠ Some PrStateOpen)) eqn:Ho; simpl; [done|]. apply bool_decide_eq_false, dec_stable in Ho.
    destruct (ready_label_present i); simpl; [|done]. intros _. by rewrite !bool_decide_true.
  - destruct (bool_decide (verifiedForwardTarget i ≠ Some Merged)) eqn:Ho; [done|].
    apply bool_decide_eq_false, dec_stable in Ho. intros _. by apply target_supported in Ho as [? _].
Qed.

Lemma reconstructed_supported i s : isRemoteProving (reconstructedLocalState i s) = true →
  identitySupportsState (reconstructedLocalState i s) i = true.
Proof.
  unfold reconstructedLocalState. destruct s; simpl; try done; destruct (verifiedForwardTarget i) eqn:E; try (by intros _; apply target_supported in E as [? _]);
    by destruct (_ && isAdvanceStillNeeded i).
Qed.

(** One turn keeps remote-proving states proven. *)
Lemma turn_proven engine time k e i t : reconcileEntry engine time k e i = Ok t → ProvenEntry e → ProvenEntry (tu_entry t).
Proof.
  intros H He Hr. unfold reconcileEntry in H. cbv zeta in H.
  destruct (classifyDrift (state e) i (last_verified_identity e)) as [[]|] eqn:Ec.
  { destruct (verifiedForwardTarget i) as [t'|] eqn:Et; [|done]. injection H as <-. simpl in *. exists i.
    split; [done|]. by apply target_supported in Et as [? _]. }
  1-3: injection H as <-; simpl in *; exists i; (split; [done|]); by apply reconstructed_supported.
  all: destruct (bool_decide (state e = PrOpened ∨ state e = Implemented) && _); [injection H as <-; by simpl in Hr|].
  - rewrite bool_decide_false in H by done. simpl in H. injection H as <-. by apply He.
  - rewrite bool_decide_true in H by done. simpl in H.
    destruct (isRemoteProving (state e) || bool_decide (pr_number i ≠ None)); injection H as <-; simpl in *; [|by apply He].
    exists i. split; [done|]. destruct (He Hr) as (i0 & _ & Hs).
    apply (aligned_supported _ _ (last_verified_identity e)); [done|by intros Hn; rewrite Hn in Hs..|done].
Qed.

Lemma mk_turn_id engine time k e i t : reconcileEntry engine time k e i = Ok t → id (tu_entry t) = id e.
Proof.
  unfold reconcileEntry. cbv zeta. intros H. repeat case_match; try done; by injection H as <-.
Qed.

(** A state a turn moved into is the one the observation proves, when it is
    remote-proving. *)
Lemma turn_moves_proven engine time k e i t :
  reconcileEntry engine time k e i = Ok t → state (tu_entry t) ≠ state e → isRemoteProving (state (tu_entry t)) = true →
  last_verified_identity (tu_entry t) = Some i ∧ verifiedForwardTarget i = Some (state (tu_entry t)).
Proof.
  unfold reconcileEntry. cbv zeta. intros H Hne Hr.
  destruct (classifyDrift (state e) i (last_verified_identity e)) as [[]|] eqn:Ed.
  { destruct (verifiedForwardTarget i) as [t'|] eqn:Et; [|done]. by injection H as <-. }
  1-3: injection H as <-; (split; [done|]); simpl in *; unfold reconstructedLocalState in *; destruct (state e); simpl in *; try done;
    (destruct (verifiedForwardTarget i); [done|]); destruct (_ && isAdvanceStillNeeded i); done.
  all: destruct (bool_decide (state e = PrOpened ∨ state e = Implemented) && isAdvanceStillNeeded i); [by injection H as <-|];
    destruct (bool_decide _ && (_ || _)); by injection H as <-.
Qed.

(** A complete forward target rests on the exact implementation. *)
Lemma target_exact i t : verifiedForwardTarget i = Some t →
  exactImplementation i = true ∧ (t = Merged → integration_certainty i = Some KnownComplete).
Proof.
  unfold verifiedForwardTarget. destruct (bool_decide (pr_state i = Some PrStateMerged) && _ && _) eqn:Em.
  { intros [= <-]. apply andb_true_iff in Em as [[_ Em]%andb_true_iff Hx]. split; [done|]. by apply bool_decide_eq_true in Em. }
  destruct (bool_decide (pr_number i ≠ None) && _); [|done]. destruct (exactImplementation i); simpl; [|done].
  repeat case_match; by intros [= <-].
Qed.

(** Where a turn that wrote leaves an item. *)
Lemma turn_lands engine time k e i t :
  reconcileEntry engine time k e i = Ok t → history (tu_entry t) ≠ history e →
  (state (tu_entry t) = Skipped → state e = Skipped) ∧ state (tu_entry t) ≠ Released ∧ state (tu_entry t) ≠ Deployed.
Proof.
  unfold reconcileEntry. cbv zeta. intros H Hne.
  destruct (classifyDrift (state e) i (last_verified_identity e)) as [[]|] eqn:Ed.
  { destruct (verifiedForwardTarget i) as [t'|] eqn:Et; [|done]. injection H as <-. simpl.
    apply target_supported in Et as [_ Ht]. naive_solver. }
  1-3: injection H as <-; simpl; unfold reconstructedLocalState; destruct (verifiedForwardTarget i) as [t'|] eqn:Et;
    [apply target_supported in Et as [_ Ht]; destruct (state e); naive_solver|];
    destruct (_ && isAdvanceStillNeeded i), (state e); naive_solver.
  all: destruct (bool_decide (state e = PrOpened ∨ state e = Implemented) && isAdvanceStillNeeded i); [by injection H as <-|];
    destruct (bool_decide _ && (_ || _)); by injection H as <-.
Qed.

(** Remote work that still needs advancing never stays parked. *)
Lemma turn_heals engine time k e i t :
  reconcileEntry engine time k e i = Ok t → isAdvanceStillNeeded i = true →
  isRemoteProving (state e) = true ∨ state e = Implemented →
  state (tu_entry t) = InProgress ∧ last_verified_identity (tu_entry t) = Some i.
Proof.
  unfold reconcileEntry. cbv zeta. intros H Ha Hs. pose proof (advance_no_target i Ha) as Ht.
  destruct (advance_open i Ha) as (Hn & Ho & Hrl & _).
  assert (reconstructedLocalState i (state e) = InProgress) as Hr.
  { unfold reconstructedLocalState. rewrite Ht, Ha, !bool_decide_true by done. destruct (state e); naive_solver. }
  destruct (classifyDrift (state e) i (last_verified_identity e)) as [[]|] eqn:Ed.
  { by rewrite Ht in H. }
  1-3: injection H as <-; simpl; by rewrite Hr.
  all: rewrite Ha, andb_true_r in H; case_bool_decide as Hc; [by injection H as <-|].
  all: exfalso; destruct Hs as [Hs|Hs]; [|naive_solver]; unfold classifyDrift in Ed; rewrite Hs, Ht, Ho, Hrl in Ed; simpl in Ed.
  all: destruct (state e); simpl in *; try done; try naive_solver; repeat case_match; done.
Qed.

(** *** Repeated passes over one observation *)

(** An item bound to [i] whose state another pass over [i] keeps. *)
Definition stable (s : LoopItemState) (i : LoopExternalIdentity) : Prop :=
  ∀ engine time k e, state e = s → last_verified_identity e = Some i →
  ∃ t, reconcileEntry engine time k e i = Ok t ∧ state (tu_entry t) = s.

Lemma regress_self i : checksRegressed (Some i) i = false.
Proof. unfold checksRegressed. destruct (checks_conclusion i); simpl; by rewrite ?bool_decide_false by naive_solver. Qed.

(** A state is stable when no forward repair applies, a reconstruction yields it
    again and the restore does not apply. *)
Lemma stable_intro s i :
  (classifyDrift s i (Some i) = Some LedgerBehind → False) →
  (isRemoteProving (reconstructedLocalState i s) = isRemoteProving s ∧ reconstructedLocalState i s = s) →
  (s = PrOpened ∨ s = Implemented → isAdvanceStillNeeded i = false) → stable s i.
Proof.
  intros Hb [_ Hr] Ha engine time k e <- Hl. unfold reconcileEntry. cbv zeta. rewrite Hl.
  assert (bool_decide (state e = PrOpened ∨ state e = Implemented) && isAdvanceStillNeeded i = false) as ->.
  { case_bool_decide as Hs; [by rewrite Ha|done]. }
  destruct (classifyDrift (state e) i (Some i)) as [[]|]; [done|..]; try (eexists; split; [done|exact Hr]);
    destruct (bool_decide _ && _); by eexists.
Qed.

Lemma target_stable i t : verifiedForwardTarget i = Some t → stable t i.
Proof.
  intros Ht. pose proof (target_supported i t Ht) as [Hs Hc].
  assert (reconstructedLocalState i t = t) as Hr by (destruct Hc as [->|[->| ->]]; unfold reconstructedLocalState; by rewrite Ht).
  apply stable_intro; [|by rewrite Hr|].
  - unfold classifyDrift. assert (isRemoteProving t = true) as -> by by destruct Hc as [->|[->| ->]]. simpl. rewrite Ht.
    destruct Hc as [->|[->| ->]]; simpl; intros H; repeat case_match; try done.
    match goal with H : _ && ready_label_present i = true |- _ => apply andb_true_iff in H as [Ho Hl] end.
    unfold verifiedForwardTarget in Ht. rewrite Hl in Ht. repeat case_match; simplify_eq.
  - intros _. destruct (isAdvanceStillNeeded i) eqn:E; [|done]. apply advance_no_target in E. congruence.
Qed.

(** No forward repair applies to a local state. *)
Definition noForward (s : LoopItemState) (i : LoopExternalIdentity) : Prop :=
  verifiedForwardTarget i = None ∨ (s = Blocked ∧ verifiedForwardTarget i = Some PrOpened).

Lemma noForward_drift s i b : isRemoteProving s = false → noForward s i ↔ classifyDrift s i b ≠ Some LedgerBehind.
Proof.
  intros Hr. unfold classifyDrift, noForward. rewrite Hr. simpl.
  destruct (verifiedForwardTarget i) as [t|]; [|split; [|by left]; intros _; by repeat case_match].
  case_bool_decide as Hb.
  - split; [intros _; by repeat case_match|]. intros _. right. destruct Hb as [? ->]. done.
  - split; [intros [?|[? [= ->]]]; [done|]; by destruct Hb|]. by intros [].
Qed.

Lemma local_stable s i :
  isRemoteProving s = false → noForward s i →
  (s = Waiting ∨ s = Paused ∨ s = Blocked ∨ s = InProgress ∨ isAdvanceStillNeeded i = false) → stable s i.
Proof.
  intros Hr Hf Hs. apply stable_intro.
  - intros H. by apply (noForward_drift s i (Some i)) in Hf.
  - assert (reconstructedLocalState i s = s) as ->; [|done]. unfold reconstructedLocalState.
    destruct Hf as [Ht|[-> _]]; [|done]. rewrite Ht, Hr. destruct Hs as [->|[->|[->|[->|Ha]]]]; [done..| |].
    + by destruct (_ && isAdvanceStillNeeded i).
    + rewrite Ha, andb_false_r. by destruct s.
  - intros Hc. destruct Hs as [->|[->|[->|[->|Ha]]]]; [by destruct Hc..|done].
Qed.

(** The reconstruction of a contradicted state is stable. *)
Lemma reconstructed_stable s i b :
  classifyDrift s i b = Some LedgerAhead ∨ classifyDrift s i b = Some ExternalAbsent ∨ classifyDrift s i b = Some IdentityMismatch →
  stable (reconstructedLocalState i s) i.
Proof.
  intros Hd. assert (classifyDrift s i b ≠ Some LedgerBehind) as Hnb by (destruct Hd as [->|[->| ->]]; done).
  destruct (decide (s = Waiting ∨ s = Paused ∨ s = Blocked)) as [Hh|Hh].
  { assert (reconstructedLocalState i s = s) as -> by by destruct Hh as [->|[->| ->]].
    assert (isRemoteProving s = false) as Hr by by destruct Hh as [->|[->| ->]].
    apply local_stable; [done|by apply (noForward_drift s i b)|tauto]. }
  destruct (verifiedForwardTarget i) as [t|] eqn:Et.
  { assert (reconstructedLocalState i s = t) as ->; [|by apply target_stable].
    unfold reconstructedLocalState. rewrite Et. destruct s; naive_solver. }
  destruct (isAdvanceStillNeeded i) eqn:Ea.
  - destruct (advance_open i Ea) as (Hn & Ho & _).
    assert (reconstructedLocalState i s = InProgress) as ->; [|apply local_stable; [done|by left|tauto]].
    unfold reconstructedLocalState. rewrite Et, Ea, (bool_decide_true (pr_number i ≠ None)), bool_decide_true by done.
    destruct s; naive_solver.
  - assert (reconstructedLocalState i s = if isRemoteProving s then Implemented else s) as ->.
    { unfold reconstructedLocalState. rewrite Et, Ea, andb_false_r. destruct s; naive_solver. }
    apply local_stable; [by destruct s|by left|tauto].
Qed.

(** A pass that moved an item left it stable. *)
Lemma changed_stable engine time k e i t :
  reconcileEntry engine time k e i = Ok t → tu_changed t = true →
  last_verified_identity (tu_entry t) = Some i ∧ stable (state (tu_entry t)) i.
Proof.
  unfold reconcileEntry. cbv zeta. intros H Hc.
  destruct (classifyDrift (state e) i (last_verified_identity e)) as [[]|] eqn:Ed.
  { destruct (verifiedForwardTarget i) as [t'|] eqn:Et; [|done]. injection H as <-. split; [done|]. by apply target_stable. }
  1-3: injection H as <-; (split; [done|]); apply (reconstructed_stable _ _ (last_verified_identity e)); rewrite Ed; tauto.
  all: destruct (bool_decide (state e = PrOpened ∨ state e = Implemented) && isAdvanceStillNeeded i) eqn:Ea;
    [|destruct (bool_decide _ && (_ || _)); by injection H as <-].
  all: injection H as <-; (split; [done|]); apply andb_true_iff in Ea as [_ Ea];
    apply local_stable; [done|left; by apply advance_no_target|tauto].
Qed.

(** A pass that moved nothing over the identity it is bound to repeats itself. *)
Lemma unchanged_stable engine time k e i t :
  reconcileEntry engine time k e i = Ok t → tu_changed t = false → last_verified_identity e = Some i → stable (state e) i.
Proof.
  unfold reconcileEntry. cbv zeta. intros H Hc Hl engine' time' k' e' He Hl'. unfold reconcileEntry. cbv zeta.
  rewrite He, Hl'. rewrite Hl in H.
  destruct (classifyDrift (state e) i (Some i)) as [[]|];
    [destruct (verifiedForwardTarget i); [by injection H as <-|done]|by injection H as <-..| |].
  all: destruct (bool_decide (state e = PrOpened ∨ state e = Implemented) && isAdvanceStillNeeded i); [by injection H as <-|];
    destruct (bool_decide _ && (_ || _)); by eexists.
Qed.

(** *** The pass *)

Section PassFacts.
Context (sha256hex : string → string) {dates : IsoDates} (mint : string) (toNumber : string → jsnum) (Date_parse : string → option Z).

(** The turn an item was given. *)
Definition turned (d : ObserveDeps) (engine : LoopEngineName) (time : string → string) (op : option string)
    (p : string * LoopItemLedgerEntry) (o : Observed) : Prop :=
  od_id o = p.1 ∧ observeExternalIdentity toNumber d p.1 op = Ok (od_identity o) ∧
  reconcileEntry engine (time p.1) p.1 p.2 (od_identity o) = Ok (od_turn o).

Lemma observe_all d engine time op done its out :
  rfold (observeItem toNumber d engine time op) done its = Ok out →
  ∃ turns, out = done ++ turns ∧ Forall2 (turned d engine time op) its turns.
Proof.
  revert done. induction its as [|p its IH]; intros done; simpl.
  { intros [= <-]. exists []. by rewrite app_nil_r. }
  intros H. inv_bind H. unfold observeItem in E. inv_bind E. inv_bind E. injection E as <-.
  destruct (IH _ H) as (turns & -> & Ht). eexists. rewrite <-app_assoc. split; [done|]. by constructor.
Qed.

Lemma drift_behind_bound s i b b' : classifyDrift s i b = Some LedgerBehind → classifyDrift s i b' = Some LedgerBehind.
Proof.
  destruct (isRemoteProving s) eqn:Er.
  2: { intros H. apply dec_stable. intros Hn. apply noForward_drift in Hn; [|done].
       by apply (noForward_drift s i b Er) in Hn. }
  unfold classifyDrift. rewrite Er. cbn [negb].
  - destruct (negb (isPastMerge s) && _); [done|]. destruct (bool_decide (s = PrOpened) && _ && _); [done|].
    intros H. exfalso. destruct s; repeat case_match; done.
Qed.

Lemma turn_exists engine time k e i t engine' time' e' :
  reconcileEntry engine time k e i = Ok t → state e' = state e → ∃ t', reconcileEntry engine' time' k e' i = Ok t'.
Proof.
  unfold reconcileEntry. cbv zeta. intros H Hs. rewrite Hs.
  destruct (classifyDrift (state e) i (last_verified_identity e')) as [[]|] eqn:Ed; try (by eexists);
    [|clear H; repeat case_match_goal; by eexists..].
  rewrite (drift_behind_bound _ _ _ (last_verified_identity e) Ed) in H.
  destruct (verifiedForwardTarget i); [by eexists|done].
Qed.

Lemma unchanged_entry engine time k e i t :
  reconcileEntry engine time k e i = Ok t → tu_changed t = false → tu_entry t = e ∨ tu_entry t = verified e i.
Proof.
  unfold reconcileEntry. cbv zeta. intros H Hc.
  destruct (classifyDrift (state e) i (last_verified_identity e)) as [[]|];
    [destruct (verifiedForwardTarget i); [by injection H as <-|done]|by injection H as <-..| |];
    (destruct (bool_decide _ && isAdvanceStillNeeded i); [by injection H as <-|]);
    destruct (bool_decide _ && (_ || _)); injection H as <-; auto.
Qed.

(** A turn reads the state and the bound identity only. *)
Lemma turn_same engine time k e i t engine' time' e' t' :
  reconcileEntry engine time k e i = Ok t → reconcileEntry engine' time' k e' i = Ok t' →
  state e' = state e → last_verified_identity e' = last_verified_identity e →
  state (tu_entry t') = state (tu_entry t) ∧ last_verified_identity (tu_entry t') = last_verified_identity (tu_entry t).
Proof.
  unfold reconcileEntry. cbv zeta. intros H H' Hs Hl. rewrite Hs, Hl in H'.
  destruct (classifyDrift (state e) i (last_verified_identity e)) as [[]|];
    [destruct (verifiedForwardTarget i); [|done]|..]; repeat case_match; injection H as <-; injection H' as <-; simpl;
    by rewrite ?Hs, ?Hl.
Qed.

(** What a pass writes, item by item. *)
Lemma reconcile_Ok d s runId engine time recorded tl ws next :
  reconcile sha256hex mint toNumber Date_parse d s runId engine time recorded tl = Ok (ws, next) →
  ∃ turns barrier,
    let l := readLedger sha256hex s in
    Forall2 (turned d engine time (lr_logical_operation_id <$> lifecycle l)) (items l) turns ∧
    items next = (fun o => (od_id o, tu_entry (od_turn o))) <$> turns ∧
    merge_barrier next = barrier ∧ stop next = stop l ∧ recovery_attempts next = recovery_attempts l ∧
    reconciliation_sequence next = (reconciliation_sequence l + 1)%Z ∧
    last_reconciliation next = Some (mkReconciliation (reconciliation_sequence l + 1) recorded
      ((fun o => (od_id o, od_identity o)) <$> turns) (omap (fun o => tu_drift (od_turn o)) turns)
      (nextActionFor l barrier <$> turns)) ∧
    (∀ b, merge_barrier l = Some b →
       barrier = Some b ∧ ob_baseBranchContainsSha d (merged_sha b) ≠ Ok (Some true) ∨
       barrier = None ∧ ob_baseBranchContainsSha d (merged_sha b) = Ok (Some true)) ∧
    (merge_barrier l = None → barrier = None).
Proof.
  unfold reconcile. cbv zeta. set (l := readLedger sha256hex s). intros H. inv_bind H. inv_bind H. inv_bind H.
  apply observe_all in E0 as (turns & -> & Ht). simpl in *. exists turns, x1. split; [done|]. injection H as _ <-.
  assert (∀ b, merge_barrier l = Some b →
     x1 = Some b ∧ ob_baseBranchContainsSha d (merged_sha b) ≠ Ok (Some true) ∨
     x1 = None ∧ ob_baseBranchContainsSha d (merged_sha b) = Ok (Some true)) as Hb.
  { intros b Hb. rewrite Hb in E1. destruct (ob_baseBranchContainsSha d (merged_sha b)) as [c|]; simpl in E1; [|done].
    injection E1 as <-. case_decide; [right|left]; split; congruence. }
  assert (merge_barrier l = None → x1 = None) as Hn by (intros Hn; rewrite Hn in E1; congruence).
  destruct (existsb _ turns); simpl; by repeat split.
Qed.

(** Fresh proofs only refresh identities that support their state. *)
Lemma freshProofs_spec d op live li now its out :
  freshProofs toNumber Date_parse d op live li now its = Some out →
  Forall2 (fun p q => q.1 = p.1 ∧
    (p.1 = live ∧ q.2 = p.2 ∨ p.1 ≠ live ∧ ∃ i, q.2 = verified p.2 i ∧ identitySupportsState (state p.2) i = true)) its out.
Proof.
  revert out. induction its as [|[k e] its IH]; intros out; simpl; [by intros [= <-]|].
  destruct (match li with Some i => _ | None => _ end) as [i|] eqn:Ei; [|done]. destruct (_ || _) eqn:Eo; [done|].
  apply orb_false_iff in Eo as [_ Hs]. apply negb_false_iff in Hs.
  destruct (freshProofs _ _ _ _ _ _ _ its) as [rest|]; simpl; [|done]. intros [= <-]. constructor; [|by apply IH].
  split; [done|]. simpl. destruct (decide (k = live)); eauto.
Qed.

Lemma Forall2_oget {A B} (R : string * A → string * B → Prop) (l : obj A) (m : obj B) k :
  (∀ p q, R p q → q.1 = p.1) → Forall2 R l m →
  match oget l k with
  | Some a => ∃ b, oget m k = Some b ∧ R (k, a) (k, b)
  | None => oget m k = None
  end.
Proof.
  intros Hk H. induction H as [|[k1 a] [k2 b] l m Hr _ IH]; simpl; [done|].
  pose proof (Hk _ _ Hr) as Heq. simpl in Heq. subst k2. destruct (decide (k = k1)) as [->|]; [eauto|done].
Qed.

Lemma Forall2_pick {A B} (R : A → B → Prop) l m x : Forall2 R l m → x ∈ l → ∃ y, y ∈ m ∧ R x y.
Proof.
  intros H Hx. apply list_elem_of_lookup in Hx as [n Hn].
  destruct (Forall2_lookup_l _ _ _ _ _ H Hn) as (y & Hy & Hr). exists y. split; [|done]. by apply list_elem_of_lookup_2 in Hy.
Qed.

Lemma Forall2_keys {A B} (R : string * A → string * B → Prop) (l : obj A) (m : obj B) :
  (∀ p q, R p q → q.1 = p.1) → Forall2 R l m → okeys m = okeys l.
Proof.
  intros Hk H. unfold okeys. induction H as [|[k1 a] [k2 b] l m Hr _ IH]; simpl; [done|].
  pose proof (Hk _ _ Hr) as Heq. simpl in Heq. by f_equal.
Qed.
(** The turn an item of the ledger was given, wherever it is recorded. *)
Lemma turned_lookup d engine time op its turns k e :
  Forall2 (turned d engine time op) its turns → oget its k = Some e →
  ∃ o, turned d engine time op (k, e) o ∧ o ∈ turns ∧
       ∀ B (f : Observed → B), oget ((fun o => (od_id o, f o)) <$> turns) k = Some (f o).
Proof.
  intros H Hk. induction H as [|[k1 e1] o its turns Ho Hr IH]; [done|]. simpl in *. pose proof (proj1 Ho) as Hid. simpl in Hid.
  destruct (decide (k = k1)) as [->|Hne].
  - injection Hk as <-. exists o. split; [done|]. split; [left|]. intros B f. by rewrite Hid, decide_True.
  - destruct (IH Hk) as (o' & Ho' & Hin & Hf). exists o'. split; [done|]. split; [by right|]. intros B f.
    rewrite Hid, decide_False by done. apply Hf.
Qed.

Lemma turned_keys d engine time op its turns {B} (f : Observed → B) :
  Forall2 (turned d engine time op) its turns → okeys ((fun o => (od_id o, f o)) <$> turns) = okeys its.
Proof. intros H. unfold okeys. induction H as [|p o its turns Ho Hr IH]; [done|]. simpl. f_equal; [apply Ho|exact IH]. Qed.

(** One turn, read from the ledgers before and after the pass. *)
Lemma pass_item d s runId engine time recorded tl ws next k e :
  reconcile sha256hex mint toNumber Date_parse d s runId engine time recorded tl = Ok (ws, next) →
  oget (items (readLedger sha256hex s)) k = Some e →
  ∃ i t, observeExternalIdentity toNumber d k (lr_logical_operation_id <$> lifecycle (readLedger sha256hex s)) = Ok i ∧
    reconcileEntry engine (time k) k e i = Ok t ∧ oget (items next) k = Some (tu_entry t) ∧
    (∀ r, last_reconciliation next = Some r → oget (rec_observed r) k = Some i).
Proof.
  intros H Hk. destruct (reconcile_Ok _ _ _ _ _ _ _ _ _ H) as (turns & b & Ht & Hit & _ & _ & _ & _ & Hr & _).
  destruct (turned_lookup _ _ _ _ _ _ _ _ Ht Hk) as (o & (Hid & Hob & Hre) & _ & Hf). exists (od_identity o), (od_turn o).
  split; [done|]. split; [done|]. rewrite Hit. split; [apply (Hf _ (fun o => tu_entry (od_turn o)))|].
  intros r Hr'. rewrite Hr in Hr'. injection Hr' as <-. apply (Hf _ od_identity).
Qed.

Lemma turn_drift engine time k e i t : reconcileEntry engine time k e i = Ok t →
  tu_drift t = (fun c => mkDrift k (state e) (describeObservedState i) c) <$> classifyDrift (state e) i (last_verified_identity e).
Proof. unfold reconcileEntry. cbv zeta. intros H. repeat case_match; try done; by injection H as <-. Qed.

(** A turn keeps an entry, refreshes its identity or moves it with one line. *)
Lemma turn_history engine time k e i t : reconcileEntry engine time k e i = Ok t →
  state (tu_entry t) = state e ∧ history (tu_entry t) = history e ∨
  last_verified_identity (tu_entry t) = Some i ∧
  ∃ h, history (tu_entry t) = history e ++ [h] ∧ h_from h = state e ∧ h_to h = state (tu_entry t) ∧ h_engine h = engine.
Proof.
  unfold reconcileEntry. cbv zeta. intros H. repeat case_match; try done; injection H as <-;
    first [by left|right; (split; [done|]); by eexists].
Qed.

(** The drift a pass records is each item's own. *)
Lemma turns_drift d engine time op its turns dr :
  Forall2 (turned d engine time op) its turns →
  dr ∈ omap (fun o => tu_drift (od_turn o)) turns ↔
  ∃ p o, p ∈ its ∧ o ∈ turns ∧ turned d engine time op p o ∧
    (fun c => mkDrift p.1 (state p.2) (describeObservedState (od_identity o)) c) <$>
      classifyDrift (state p.2) (od_identity o) (last_verified_identity p.2) = Some dr.
Proof.
  intros H. rewrite list_elem_of_omap. split.
  - intros (o & Ho & Hd). destruct (Forall2_pick _ _ _ _ (proj2 (Forall2_flip _ _ _) H) Ho) as (p & Hp & Ht). exists p, o.
    split; [done|]. split; [done|]. split; [done|]. by rewrite <-(turn_drift _ _ _ _ _ _ (proj2 (proj2 Ht))).
  - intros (p & o & _ & Ho & Ht & Hd). exists o. split; [done|]. by rewrite (turn_drift _ _ _ _ _ _ (proj2 (proj2 Ht))).
Qed.
End PassFacts.

(** ** Properties *)


Section PassProperties.
Context (sha256hex : string → string) {dates : IsoDates} (mint : string) (toNumber : string → jsnum) (Date_parse : string → option Z).

(** C35. The effect of a reconciliation pass on the whole run: no item appears or
    disappears, every item keeps its state and history or moves with exactly one
    history line and is bound to the identity this pass observed of it, the drift
    recorded is exactly each item's own disagreement, the sequence number grows
    by one, and the merge barrier falls only when the base branch was found to
    contain the merged commit. *)
Theorem reconcile_effect d s runId engine time recorded tl ws next :
  reconcile sha256hex mint toNumber Date_parse d s runId engine time recorded tl = Ok (ws, next) →
  let l := readLedger sha256hex s in
  let observed k := observeExternalIdentity toNumber d k (lr_logical_operation_id <$> lifecycle l) in
  okeys (items next) = okeys (items l) ∧
  (∀ k e, oget (items l) k = Some e → ∃ i e', observed k = Ok i ∧ oget (items next) k = Some e' ∧
     (state e' = state e ∧ history e' = history e ∨
      last_verified_identity e' = Some i ∧
      ∃ h, history e' = history e ++ [h] ∧ h_from h = state e ∧ h_to h = state e' ∧ h_engine h = engine)) ∧
  reconciliation_sequence next = (reconciliation_sequence l + 1)%Z ∧
  (∃ r, last_reconciliation next = Some r ∧ rec_sequence r = reconciliation_sequence next ∧
     okeys (rec_next_actions r) = okeys (items l) ∧
     ∀ dr, dr ∈ rec_drift r ↔ ∃ k e i, (k, e) ∈ items l ∧ observed k = Ok i ∧ drift_item_id dr = k ∧
       drift_ledger_state dr = state e ∧ drift_observed_state dr = describeObservedState i ∧
       classifyDrift (state e) i (last_verified_identity e) = Some (drift_class dr)) ∧
  (merge_barrier next = None ↔
     merge_barrier l = None ∨ ∃ b, merge_barrier l = Some b ∧ ob_baseBranchContainsSha d (merged_sha b) = Ok (Some true)) ∧
  stop next = stop l ∧ recovery_attempts next = recovery_attempts l.
Proof.
  cbv zeta. intros H.
  destruct (reconcile_Ok _ _ _ _ _ _ _ _ _ _ _ _ _ H) as (turns & b & Ht & Hit & Hb & Hst & Hra & Hsq & Hr & Hb1 & Hb2).
  cbv zeta in Ht, Hit, Hb1, Hb2, Hst, Hra, Hsq, Hr.
  split; [rewrite Hit; by apply (turned_keys toNumber d engine time (lr_logical_operation_id <$> lifecycle (readLedger sha256hex s)))|].
  split.
  { intros k e Hk. destruct (pass_item _ _ _ _ _ _ _ _ _ _ _ _ _ _ _ H Hk) as (i & t & Hi & Hre & Hg & _).
    exists i, (tu_entry t). split; [done|]. split; [done|]. by apply (turn_history _ _ _ _ _ _ Hre). }
  split; [done|]. split.
  { eexists. split; [exact Hr|]. simpl. split; [done|]. split.
    { unfold nextActionFor. by apply (turned_keys toNumber d engine time (lr_logical_operation_id <$> lifecycle (readLedger sha256hex s))). }
    intros dr. rewrite (turns_drift _ _ _ _ _ _ _ _ Ht). split.
    - intros ([k e] & o & Hp & _ & (_ & Ho & _) & Hd). simpl in *. apply fmap_Some in Hd as (c & Hc & ->). exists k, e, (od_identity o). done.
    - intros (k & e & i & Hin & Ho & <- & Hs & Hob & Hc). destruct (Forall2_pick _ _ _ _ Ht Hin) as (o & Hoin & Hto).
      exists (drift_item_id dr, e), o. split; [done|]. split; [done|]. split; [done|]. destruct Hto as (_ & Ho' & _). simpl in *.
      rewrite Ho in Ho'. injection Ho' as <-. rewrite Hc. simpl. f_equal. destruct dr. simpl in *. congruence. }
  split; [|done]. rewrite Hb. destruct (merge_barrier (readLedger sha256hex s)) as [mb|].
  - destruct (Hb1 mb eq_refl) as [[-> Hn]|[-> Hy]]; [|naive_solver]. split; [done|]. intros [?|(? & [= <-] & ?)]; done.
  - rewrite (Hb2 eq_refl). naive_solver.
Qed.
(** C17. A pass never invents remote progress: an item it moves into
    [pr_opened], [ready] or [merged] is bound to the identity observed in this
    pass, whose artifact is the implementation at the observed head for this
    operation; [merged] further rests on a linked pull request read as merged
    with its merge commit found in the base branch, and [released] and
    [deployed] are never entered. *)
Theorem forward_repair_proven d s runId engine time recorded tl ws next k e e' :
  reconcile sha256hex mint toNumber Date_parse d s runId engine time recorded tl = Ok (ws, next) →
  oget (items (readLedger sha256hex s)) k = Some e → oget (items next) k = Some e' →
  state e' ≠ state e → isRemoteProving (state e') = true →
  (state e' = PrOpened ∨ state e' = Ready ∨ state e' = Merged) ∧
  ∃ i, last_verified_identity e' = Some i ∧
    observeExternalIdentity toNumber d k (lr_logical_operation_id <$> lifecycle (readLedger sha256hex s)) = Ok i ∧
    identitySupportsState (state e') i = true ∧ exactImplementation i = true ∧
    (state e' = Merged → integrationRead d (default [] (linked_pr_numbers i))).
Proof.
  intros H Hk Hk' Hne Hr. destruct (pass_item _ _ _ _ _ _ _ _ _ _ _ _ _ _ _ H Hk) as (i & t & Hi & Hre & Hg & _).
  rewrite Hk' in Hg. injection Hg as ->. destruct (turn_moves_proven _ _ _ _ _ _ Hre Hne Hr) as [Hl Ht].
  destruct (target_supported _ _ Ht) as [Hs Hc]. destruct (target_exact _ _ Ht) as [Hx Hm]. split; [tauto|].
  exists i. do 4 (split; [done|]). intros Hs'. apply (complete_was_read toNumber d k _ i Hi). by apply Hm.
Qed.

(** Work whose pull request is open and still has to advance is never left
    parked: whatever the ledger claimed remotely, and whatever drift the pass
    met, the item is [in_progress] afterwards and bound to what was observed. *)
Theorem stranded_work_redriven d s runId engine time recorded tl ws next k e i :
  reconcile sha256hex mint toNumber Date_parse d s runId engine time recorded tl = Ok (ws, next) →
  oget (items (readLedger sha256hex s)) k = Some e →
  observeExternalIdentity toNumber d k (lr_logical_operation_id <$> lifecycle (readLedger sha256hex s)) = Ok i →
  isAdvanceStillNeeded i = true → isRemoteProving (state e) = true ∨ state e = Implemented →
  ∃ e', oget (items next) k = Some e' ∧ state e' = InProgress ∧ last_verified_identity e' = Some i.
Proof.
  intros H Hk Hi Ha Hs. destruct (pass_item _ _ _ _ _ _ _ _ _ _ _ _ _ _ _ H Hk) as (i' & t & Hi' & Hre & Hg & _).
  rewrite Hi in Hi'. injection Hi' as <-. exists (tu_entry t). split; [done|]. by apply (turn_heals _ _ _ _ _ _ Hre).
Qed.

(** The items but the one moved keep everything but a fresher identity. *)
Definition refreshedOnly (e e' : LoopItemLedgerEntry) : Prop :=
  e' = e ∨ ∃ i, e' = verified e i ∧ identitySupportsState (state e) i = true.

Lemma proofs_spec d l live li now l' :
  everySuccessItemHasFreshLiveProof toNumber Date_parse d l live li now = Some l' →
  ∃ its, l' = with_items l its ∧ okeys its = okeys (items l) ∧
    (∀ e, oget (items l) live = Some e → oget its live = Some e) ∧
    ∀ k e, oget (items l) k = Some e → ∃ e', oget its k = Some e' ∧ refreshedOnly e e'.
Proof.
  unfold everySuccessItemHasFreshLiveProof. case_bool_decide; [done|]. destruct (negb _); [done|]. intros H1.
  apply fmap_Some in H1 as (its & Hf & ->). exists its. apply freshProofs_spec in Hf.
  set (R := fun p q : string * LoopItemLedgerEntry => q.1 = p.1 ∧
    (p.1 = live ∧ q.2 = p.2 ∨ p.1 ≠ live ∧ ∃ i, q.2 = verified p.2 i ∧ identitySupportsState (state p.2) i = true)) in Hf.
  assert (∀ p q, R p q → q.1 = p.1) as HR by by intros p q [? _]. split; [done|]. split; [by apply (Forall2_keys R)|].
  assert (∀ k e, oget (items l) k = Some e → ∃ e', oget its k = Some e' ∧ R (k, e) (k, e')) as Hg.
  { intros k e Hk. pose proof (Forall2_oget R _ _ k HR Hf) as Hx. by rewrite Hk in Hx. }
  split.
  - intros e He. destruct (Hg _ _ He) as (e' & -> & _ & [[_ Heq]|[? _]]); simpl in *; [congruence|done].
  - intros k e He. destruct (Hg _ _ He) as (e' & Hk & _ & [[_ Heq]|[_ Hx]]); simpl in *; exists e'; (split; [done|]).
    + left. congruence.
    + right. destruct Hx as (i & Hx & Hs). eauto.
Qed.

(** What a transition rests on. *)
Lemma proveTransition_spec d c l i now o :
  proveTransition toNumber Date_parse d c l i now = Ok o →
  if isRemoteProving (tr_to i) then
    (tr_to i = PrOpened ∨ tr_to i = Ready ∨ tr_to i = Merged) ∧
    ∃ identity, o = Some identity ∧
      observeExternalIdentity toNumber d (tr_itemId i) (lr_logical_operation_id <$> lifecycle l) = Ok identity ∧
      fresh Date_parse identity now NATIVE_GOAL_FRESHNESS_WINDOW_SECONDS = true ∧ identitySupportsState (tr_to i) identity = true ∧
      ∀ g, STATE_TO_GATE (tr_to i) = Some g → gateGranted (authority_grants c) l g (tr_itemId i) = true
  else o = None.
Proof.
  unfold proveTransition. destruct (isRemoteProving (tr_to i)) eqn:Hr; simpl; [|by intros [= <-]]. intros H. inv_bind H.
  rename x into identity. destruct (fresh _ _ _ _) eqn:Hf; simpl in H; [|done].
  destruct (identitySupportsState (tr_to i) identity) eqn:Hs; simpl in H; [|done]. split.
  { destruct (tr_to i); try done; auto. }
  exists identity. destruct (STATE_TO_GATE (tr_to i)) as [g|] eqn:Hg; simpl in H.
  - unfold authorizeGatedTransition in H. destruct (gateGranted _ _ _ _) eqn:Hgr; simpl in H; [|done].
    destruct (blank _); simpl in H; [done|]. injection H as <-. do 4 (split; [done|]). by intros g' [= <-].
  - injection H as <-. do 4 (split; [done|]). done.
Qed.

(** The effect of an accepted transition. *)
Lemma transition_Ok d c s runId i now proofNow time tl ws next :
  transitionItem sha256hex mint toNumber Date_parse d c s runId i now proofNow time tl = Ok (ws, next) →
  let l := readLedger sha256hex s in
  (∃ e e', oget (items l) (tr_itemId i) = Some e ∧ oget (items next) (tr_itemId i) = Some e' ∧
     id e' = id e ∧ state e ≠ Skipped ∧ tr_to i ≠ Skipped ∧ state e' = tr_to i ∧
     history e' = history e ++ [mkHistory time (state e) (tr_to i) (tr_engine i) None None (tr_note i)] ∧
     if isRemoteProving (tr_to i) then
       (tr_to i = PrOpened ∨ tr_to i = Ready ∨ tr_to i = Merged) ∧
       ∃ identity, last_verified_identity e' = Some identity ∧
         observeExternalIdentity toNumber d (tr_itemId i) (lr_logical_operation_id <$> lifecycle l) = Ok identity ∧
         fresh Date_parse identity now NATIVE_GOAL_FRESHNESS_WINDOW_SECONDS = true ∧
         identitySupportsState (tr_to i) identity = true ∧
         ∀ g, STATE_TO_GATE (tr_to i) = Some g → gateGranted (authority_grants c) l g (tr_itemId i) = true
     else last_verified_identity e' = last_verified_identity e) ∧
  (∀ k e, k ≠ tr_itemId i → oget (items l) k = Some e → ∃ e', oget (items next) k = Some e' ∧ refreshedOnly e e') ∧
  okeys (items next) = okeys (items l) ∧ stop next = stop l ∧ recovery_attempts next = recovery_attempts l.
Proof.
  cbv zeta. unfold transitionItem. cbv zeta. set (l := readLedger sha256hex s). intros H.
  destruct (transitionStopped l i); [done|]. destruct (oget (items l) (tr_itemId i)) as [e|] eqn:He; [|done].
  case_decide as Hto; [done|]. case_decide as Hfrom; [done|]. inv_bind H. apply proveTransition_spec in E.
  set (h := mkHistory _ _ _ _ _ _ _) in *.
  set (updated := match x with Some _ => _ | None => _ end) in *.
  set (its1 := oset (tr_itemId i) updated (items l)) in *.
  assert (okeys its1 = okeys (items l)) as Hkeys by (apply okeys_oset, oget_is_Some; rewrite He; by eexists).
  assert (∃ its, items next = its ∧ okeys its = okeys its1 ∧ oget its (tr_itemId i) = Some updated ∧
    (∀ k e0, oget its1 k = Some e0 → ∃ e', oget its k = Some e' ∧ refreshedOnly e0 e') ∧
    stop next = stop l ∧ recovery_attempts next = recovery_attempts l) as (its & Hits & Hk & Hu & Hsib & Hst & Hra).
  { injection H as _ <-. destruct (bool_decide (x ≠ None) && _ && _); simpl.
    - destruct (everySuccessItemHasFreshLiveProof _ _ _ _ _ _ _) as [l2|] eqn:Ep; simpl.
      + apply proofs_spec in Ep as (its & -> & Hk & Hlive & Hg). exists its. do 2 (split; [done|]).
        split; [apply Hlive; simpl; apply oget_oset_eq|]. done.
      + exists its1. do 2 (split; [done|]). split; [apply oget_oset_eq|]. split; [|done]. intros k e0 He0. exists e0. by split; [|left].
    - exists its1. do 2 (split; [done|]). split; [apply oget_oset_eq|]. split; [|done]. intros k e0 He0. exists e0. by split; [|left]. }
  rewrite Hits. split; [|split; [|split; [congruence|done]]].
  - exists e, updated. do 2 (split; [done|]). split; [by unfold updated; destruct x|]. do 2 (split; [done|]). unfold updated. destruct (isRemoteProving (tr_to i)).
    + destruct E as (Hc & identity & -> & Ho & Hf & Hs & Hg). do 2 (split; [done|]). split; [done|]. by exists identity.
    + by rewrite E.
  - intros k e0 Hne Hk0. apply Hsib. unfold its1. by rewrite oget_oset_ne.
Qed.

(** C18. A caller never talks an item into a remote state: a transition that is
    accepted moves exactly the named item with one history line, never into or
    out of [skipped]; into [pr_opened], [ready] or [merged] (and never into
    [released] or [deployed]) it rests on an identity the engine observed
    itself, fresh at that moment, which supports the state and is stored with
    it, and on a granted gate where the state has one ([pr_opened] and [merged];
    [ready] has none); siblings keep their entries up to a fresher identity that
    supports their state. *)
Theorem transition_needs_proof d c s runId i now proofNow time tl ws next :
  transitionItem sha256hex mint toNumber Date_parse d c s runId i now proofNow time tl = Ok (ws, next) →
  let l := readLedger sha256hex s in
  (∃ e e', oget (items l) (tr_itemId i) = Some e ∧ oget (items next) (tr_itemId i) = Some e' ∧
     state e ≠ Skipped ∧ tr_to i ≠ Skipped ∧ state e' = tr_to i ∧
     history e' = history e ++ [mkHistory time (state e) (tr_to i) (tr_engine i) None None (tr_note i)] ∧
     if isRemoteProving (tr_to i) then
       (tr_to i = PrOpened ∨ tr_to i = Ready ∨ tr_to i = Merged) ∧
       ∃ identity, last_verified_identity e' = Some identity ∧
         observeExternalIdentity toNumber d (tr_itemId i) (lr_logical_operation_id <$> lifecycle l) = Ok identity ∧
         fresh Date_parse identity now NATIVE_GOAL_FRESHNESS_WINDOW_SECONDS = true ∧
         identitySupportsState (tr_to i) identity = true ∧
         ∀ g, STATE_TO_GATE (tr_to i) = Some g → gateGranted (authority_grants c) l g (tr_itemId i) = true
     else last_verified_identity e' = last_verified_identity e) ∧
  (∀ k e, k ≠ tr_itemId i → oget (items l) k = Some e → ∃ e', oget (items next) k = Some e' ∧ refreshedOnly e e') ∧
  okeys (items next) = okeys (items l) ∧ stop next = stop l ∧ recovery_attempts next = recovery_attempts l.
Proof.
  cbv zeta. intros H. destruct (transition_Ok _ _ _ _ _ _ _ _ _ _ _ H) as ((e & e' & He & He' & _ & Hr) & Hrest).
  split; [by exists e, e'|exact Hrest].
Qed.
End PassProperties.

(** ** Witnesses *)

Module ReconcileSample.
Import ObserveSample.
Definition entry (s : LoopItemState) : LoopItemLedgerEntry := snd (FrontierSample.entry "7" s None).
Definition store (s : LoopItemState) : RunStore := HoldSample.store (FrontierSample.ledger [("7", entry s)]).
Definition pass (d : ObserveDeps) (s : LoopItemState) : result LoopError (list StoreWrite * LoopLedger) :=
  reconcile (fun s => s) "lop-9" toNumber HoldSample.parse d (store s) "run" Claude (fun _ => "t1") "t2" "t3".
Definition open (labels : list string) : ObserveDeps := deps labels PrStateOpen None (Some bound).
(** The same pull request read without an artifact binding. *)
Definition unbound (labels : list string) : ObserveDeps := deps labels PrStateOpen None None.
Definition grants : LoopContract := mkContract "run" None Claude None [] None [PushPr].
Definition move (d : ObserveDeps) (s to : LoopItemState) : result LoopError (list StoreWrite * LoopLedger) :=
  transitionItem (fun s => s) "lop-9" toNumber HoldSample.parse d grants (store s) "run"
    (mkTransition "7" Claude to None None None) 1000000 1000000 "t1" "t2".
Definition stateAfter (r : result LoopError (list StoreWrite * LoopLedger)) : option LoopItemState :=
  match r with Ok p => state <$> oget (items p.2) "7" | Err _ => None end.

Definition underReview : LoopExternalIdentity :=
  mkIdentity 7 true false false (Some 11%Z) (Some PrStateOpen) "issue-7" "abc" None ChecksSuccess (Some "review-1") "now"
    None None None None None None None None None None None.

(** A state kept, a repair, a reconstruction and a restore. *)
Example passes :
  stateAfter (pass (open ["pipeline:ready-to-deploy"]) InProgress) = Some Ready ∧
  stateAfter (pass merged InProgress) = Some Merged ∧
  stateAfter (pass (open ["pipeline:review-1"]) Merged) = Some InProgress ∧
  stateAfter (pass (open ["pipeline:review-1"]) InProgress) = Some InProgress ∧
  stateAfter (pass (deps [] PrStateClosed None (Some bound)) Ready) = Some Implemented.
Proof. by vm_compute. Qed.
End ReconcileSample.


Lemma reconcile_effect_witness : ∃ ws next,
  ReconcileSample.pass ObserveSample.merged InProgress = Ok (ws, next) ∧ okeys (items next) = ["7"] ∧ reconciliation_sequence next = 1%Z.
Proof.
  destruct (ReconcileSample.pass ObserveSample.merged InProgress) as [[ws next]|] eqn:E; [|by vm_compute in E].
  exists ws, next. split; [done|]. apply reconcile_effect in E as (Hk & _ & Hs & _). split; [exact Hk|exact Hs].
Defined.

Lemma forward_repair_proven_witness : ∃ ws next i,
  ReconcileSample.pass ObserveSample.merged InProgress = Ok (ws, next) ∧
  integrationRead ObserveSample.merged (default [] (linked_pr_numbers i)).
Proof.
  destruct (ReconcileSample.pass ObserveSample.merged InProgress) as [[ws next]|] eqn:E; [|by vm_compute in E].
  destruct (oget (items next) "7") as [e'|] eqn:Ek.
  - edestruct (forward_repair_proven _ _ _ _ _ _ _ _ _ _ _ _ _ "7" (ReconcileSample.entry InProgress) e' E)
      as (_ & i & _ & _ & _ & _ & Hm); [done|done|..].
    1-2: vm_compute in E; injection E as _ <-; vm_compute in Ek; by injection Ek as <-.
    exists ws, next, i. split; [done|]. apply Hm. vm_compute in E; injection E as _ <-; vm_compute in Ek; by injection Ek as <-.
  - exfalso. vm_compute in E. injection E as _ <-. by vm_compute in Ek.
Defined.

Lemma stranded_work_redriven_witness : ∃ ws next e',
  ReconcileSample.pass (ReconcileSample.open ["pipeline:review-1"]) Merged = Ok (ws, next) ∧
  oget (items next) "7" = Some e' ∧ state e' = InProgress.
Proof.
  destruct (ReconcileSample.pass (ReconcileSample.open ["pipeline:review-1"]) Merged) as [[ws next]|] eqn:E; [|by vm_compute in E].
  destruct (observeExternalIdentity ObserveSample.toNumber (ReconcileSample.open ["pipeline:review-1"]) "7" None) as [i|] eqn:Ei;
    [|by vm_compute in Ei].
  destruct (stranded_work_redriven _ _ _ _ _ _ _ _ _ _ _ _ _ "7" (ReconcileSample.entry Merged) i E) as (e' & Hk & Hs & _);
    [done|exact Ei|vm_compute in Ei; by injection Ei as <-|by left|by exists ws, next, e'].
Defined.

Lemma transition_needs_proof_witness : ∃ ws next,
  ReconcileSample.move (ReconcileSample.unbound []) Implemented PrOpened = Ok (ws, next) ∧
  gateGranted [PushPr] (run_ledger (ReconcileSample.store Implemented)) PushPr "7" = true.
Proof.
  destruct (ReconcileSample.move (ReconcileSample.unbound []) Implemented PrOpened) as [[ws next]|] eqn:E; [|by vm_compute in E].
  exists ws, next. split; [done|]. destruct (transition_needs_proof _ _ _ _ _ _ _ _ _ _ _ _ _ _ _ E) as [(e & e' & _ & _ & _ & _ & _ & _ & H) _].
  destruct H as (_ & i & _ & _ & _ & _ & Hg). by apply (Hg PushPr).
Defined.

(** ** What the code does beyond its documentation *)

(** One item whose open pull request carries the ready label but no exact
    artifact binding makes the whole pass throw, for every item of the run. *)
Theorem unbound_ready_label_stops_the_pass : ∃ m,
  ReconcileSample.stateAfter (ReconcileSample.move (ReconcileSample.unbound []) Implemented PrOpened) = Some PrOpened ∧
  ReconcileSample.pass (ReconcileSample.unbound ["pipeline:ready-to-deploy"]) PrOpened = Err (mkLoopError FValidation m).
Proof. eexists. split; vm_compute; reflexivity. Qed.

(** Edges the documented graph does not have are accepted, out of a terminal
    state too. *)
Theorem terminal_states_are_left :
  ReconcileSample.stateAfter (ReconcileSample.move (ReconcileSample.open []) Abandoned InProgress) = Some InProgress ∧
  ReconcileSample.stateAfter (ReconcileSample.move (ReconcileSample.open []) Deployed Pending) = Some Pending ∧
  ReconcileSample.stateAfter (ReconcileSample.pass (ReconcileSample.open ["pipeline:ready-to-deploy"]) Skipped) = Some Ready ∧
  ReconcileSample.stateAfter (ReconcileSample.pass (ReconcileSample.open ["pipeline:ready-to-deploy"]) Abandoned) = Some Ready.
Proof. by vm_compute. Qed.
