(* ===== verification/Supervisor.v ===== *)
(** * The supervisor's own writes

    [core/scripts/loop/supervisor.ts] moves items where no other module does:
    starting a pending item, returning a dispatched one to [pending], taking over
    the item of a dead holder, re-admitting holds that an observation cleared,
    retiring recovery claims, recording a dependency deadlock; and
    [core/scripts/loop/run-fatal-resume.ts], the operator's resume of a run that
    ended in [run_fatal].  Each operation returns the durable writes it performs,
    in order, or the error it throws before any of them. *)

From Stdlib Require Import ZArith QArith Qcanon.
From stdpp Require Import numbers base gmap strings list sorting pretty.
From S2P Require Import Prelude LoopTypes Ownership Lifecycle RecoveryPolicy Frontier Dependencies Precondition Observation TypedRequests RecoveryEpisodes RecoveryHandlers Store Holds Observe.
Local Open Scope result_scope.
Local Open Scope nat_scope.

(** ** Moving one item *)

(** [`${item?.state}`]. *)
Definition stateText (item : option LoopItemLedgerEntry) : string :=
  from_option (item_state_name ∘ state) "undefined" item.

Section ItemOps.
Context (sha256hex : string → string) {dates : IsoDates}.

(** The shape the four operations share: the item must be in state [from]. *)
Definition shiftItem (s : RunStore) (itemId : string) (from to : LoopItemState) (verb rule : string)
    (h : LoopHistoryEntry) (event : StoreEvent) (logTime : string) : result LoopError (list StoreWrite * LoopLedger) :=
  let l := readLedger sha256hex s in
  let refuse item := throw FValidation ("item " +:+ quoted itemId +:+ " cannot " +:+ verb +:+ " from state " +:+
                       quoted (stateText item) +:+ " — only " +:+ rule) in
  match oget (items l) itemId with
  | Some item =>
      if decide (state item = from) then
        let next := with_items l (oset itemId (entry_step item to h) (items l)) in
        Ok ([WLedger next; WEvent logTime event], next)
      else refuse (Some item)
  | None => refuse None
  end.

Definition startItem (s : RunStore) (itemId : string) (engine : LoopEngineName) (time logTime : string) :=
  shiftItem s itemId Pending InProgress "start" "a pending item may start"
    (mkHistory time Pending InProgress engine None None None) (EvItemStarted itemId) logTime.

Definition abandonInProgressItem (s : RunStore) (itemId : string) (engine : LoopEngineName) (time logTime : string) :=
  shiftItem s itemId InProgress Abandoned "abandon" "an in_progress item may be abandoned this way"
    (mkHistory time InProgress Abandoned engine None None (Some "pipeline/loop-execution@1 reported abandoned"))
    (EvItemAbandoned itemId InProgress) logTime.

Definition excludeInProgressItem (s : RunStore) (itemId : string) (engine : LoopEngineName)
    (exclusion : LoopPreconditionExclusion) (time logTime : string) :=
  shiftItem s itemId InProgress Pending "be precondition-excluded" "an in_progress item may revert this way"
    (mkHistory time InProgress Pending engine None None
       (Some ("precondition exclusion: required " +:+ pe_required_stage exclusion +:+ ", observed " +:+ pe_observed_stage exclusion)))
    (EvPreconditionExcluded (pe_item_id exclusion) (pe_required_stage exclusion) (pe_observed_stage exclusion)) logTime.

Definition revertInProgressToPending (s : RunStore) (itemId : string) (engine : LoopEngineName) (note : string)
    (event : StoreEvent) (time logTime : string) :=
  shiftItem s itemId InProgress Pending "revert" "an in_progress item may revert this way"
    (mkHistory time InProgress Pending engine None None (Some note)) event logTime.

Definition revertCapacityWaitItem (s : RunStore) (itemId : string) (engine : LoopEngineName) (time logTime : string) :=
  revertInProgressToPending s itemId engine
    "worktree capacity admission wait — reverted to pending (no product needs-human hold)"
    (EvCapacityWait itemId) time logTime.

(** ** Dead holders *)

Context (JSON_stringify : jval → string) (JSON_parse : string → option jval).

Definition DEAD_HOLDER_TAKEOVER_KIND : string := "dead-holder-interrupt".

Definition takeoverEvidence (holderRunId crashFingerprint : string) : jval :=
  JObj [("kind", JStr DEAD_HOLDER_TAKEOVER_KIND); ("holder_run_id", JStr holderRunId);
        ("crash_fingerprint", JStr crashFingerprint)].

Definition encodeDeadHolderTakeoverEvidence (holderRunId crashFingerprint : string) : string :=
  JSON_stringify (takeoverEvidence holderRunId crashFingerprint).

(** A field of a parsed value: no field on a primitive; reading one of [null]
    throws, and the [catch] returns [null] as well. *)
Definition parseDeadHolderTakeoverEvidence (evidence : option string) : option (string * string) :=
  text ← truthy evidence;
  parsed ← JSON_parse text;
  if decide (fieldOf (Some parsed) "kind" ≠ Some (JStr DEAD_HOLDER_TAKEOVER_KIND)) then None
  else
    holder ← truthy (fieldOf (Some parsed) "holder_run_id" ≫= asString);
    fingerprint ← truthy (fieldOf (Some parsed) "crash_fingerprint" ≫= asString);
    Some (holder, fingerprint).

Definition sameDeadHolderInterruptAlreadyTakenOver (history : list LoopHistoryEntry)
    (holderRunId crashFingerprint : string) : bool :=
  if bool_decide (holderRunId = "") || bool_decide (crashFingerprint = "") then false
  else existsb (fun h => bool_decide (parseDeadHolderTakeoverEvidence (h_evidence h) = Some (holderRunId, crashFingerprint))) history.

Definition currentDeadHolderIdentity (startLinkageRunId responseRunId itemAdvanceRunId preDispatchRunId : option string) : string :=
  match truthy startLinkageRunId with
  | Some r => r
  | None =>
      match truthy responseRunId with
      | Some r => r
      | None => match truthy itemAdvanceRunId with Some r => r | None => default "" preDispatchRunId end
      end
  end.

Definition alreadyTypedNonDefectBlock (item : option LoopItemLedgerEntry) : bool :=
  match item with
  | Some e => bool_decide (state e = Blocked) &&
              match blocked_theme e with Some t => negb (bool_decide (t = "workflow-engine-defect")) | None => false end
  | None => false
  end.

(** [{ ...item, state: "pending", blocked_theme: undefined, history }]. *)
Definition takenOver (e : LoopItemLedgerEntry) (h : LoopHistoryEntry) : LoopItemLedgerEntry :=
  mkEntry (id e) Pending (history e ++ [h]) None (recovery_budgets_remaining e) (evidence_fingerprint e)
    (blocker_candidate_epoch e) (blocker_candidate_head e) (repeated_evidence_count e) (hold_request e)
    (last_verified_identity e) (current_stage e) (advance_run_id e).

Definition takeoverDeadHolderItem (s : RunStore) (itemId : string) (engine : LoopEngineName)
    (holderRunId crashFingerprint time logTime : string) : list StoreWrite * LoopLedger :=
  let l := readLedger sha256hex s in
  match oget (items l) itemId with
  | None => ([], l)
  | Some item =>
      if decide (state item ≠ InProgress ∧ state item ≠ Blocked) then ([], l)
      else
        let updated := takenOver item (mkHistory time (state item) Pending engine None
              (Some (encodeDeadHolderTakeoverEvidence holderRunId crashFingerprint))
              (Some "dead-holder interrupt — takeover of the same item (no coexistence wait, no restart_workflow_engine)")) in
        let next := with_items l (oset itemId updated (items l)) in
        ([WLedger next; WEvent logTime (EvDeadHolderTakeover itemId holderRunId crashFingerprint)], next)
  end.
End ItemOps.

(** ** Retiring recovery claims *)

Section Claims.
Context (sha256hex : string → string) {dates : IsoDates}.

(** [{ ...attempt, outcome: "superseded", completed_at: time }]; the terminal
    outcome keeps its value. *)
Definition supersededAttempt (a : LoopRecoveryAttempt) (time : string) : LoopRecoveryAttempt :=
  mkAttempt (attempt_id a) (seq a) (att_time a) (att_item_id a) (att_class a) (candidate_identity a) (action a)
    (actions a) (att_evidence_fingerprint a) OutSuperseded (budget_remaining a) (att_operation a) (invariant a)
    (att_candidate_epoch a) (evidence_identity a) (episode_id a) (attempts_per_strategy a) (strategy_cursor a)
    (skipped_strategies a) (att_next_eligible_at a) (not_before a) (Some time) (att_error a) (att_terminal a)
    (fence_token a) (side_effect_certainty a).

(** The attempts an item still has open, as [select] picks them. *)
Definition openClaim (itemId : string) (select : LoopRecoveryAttempt → bool) (a : LoopRecoveryAttempt) : bool :=
  bool_decide (att_item_id a = itemId) && bool_decide (outcome a = OutStarted) && select a.

(** The row is rewritten by the id of a selected one. *)
Definition supersedeRow (ids : list (option string)) (time : string) (a : LoopRecoveryAttempt) : LoopRecoveryAttempt :=
  if includes (attempt_id a) ids then supersededAttempt a time else a.

Definition supersedeEvents (rows : list LoopRecoveryAttempt) (ids : list (option string)) (reason logTime : string)
    : list StoreWrite :=
  omap (fun i => (fun p => WEvent logTime (EvAttemptSuperseded p.2 reason)) <$> list_find (fun a => attempt_id a = i) rows) ids.

Definition supersedeStartedRecoveryAttempts (s : RunStore) (itemId reason : string)
    (select : LoopRecoveryAttempt → bool) (time logTime : string) : list StoreWrite * LoopLedger :=
  let l := upgradeLedgerForRecovery sha256hex (readLedger sha256hex s) in
  let superseded := attempt_id <$> filter (fun a => openClaim itemId select a = true) (attemptsOf l) in
  match superseded with
  | [] => ([], l)
  | _ =>
      let rows := supersedeRow superseded time <$> attemptsOf l in
      let next := with_attempts l rows in
      (WLedger next :: supersedeEvents rows superseded reason logTime, next)
  end.
End Claims.

(** ** Holds an observation clears *)

Section HoldClearing.
Context (toNumber : string → jsnum).

(** [Number(item.id)] as the observation seam takes it. *)
Definition issueOf (itemId : string) : Z :=
  match toNumber itemId with Fin q => Qround.Qfloor q | NonFinite => 0%Z end.

Definition labelHeld (e : LoopItemLedgerEntry) : bool :=
  isHeld (state e) && bool_decide ((hold_request e ≫= hold_source) = Some "pipeline_blocked_label").

(** The labels a candidate was positively observed to have: a rejected read and
    a [null] read both leave the hold in place. *)
Definition observedLabels (d : ObserveDeps) (itemId : string) : option (list string) :=
  match ob_getIssueStateAndLabels d (issueOf itemId) with
  | Ok (Some issue) => Some issue.2
  | _ => None
  end.

Definition reopenNote : string :=
  "pipeline:blocked label cleared — hold re-admitted to the executable frontier (capability loop-blocked-item-hold-continuation)".

(** The lifecycle record, where one exists, is consulted with the item gone from
    its hold. *)
Definition rebindAfterReopen (l next : LoopLedger) (time : string) : LoopLedger :=
  match lifecycle l with
  | None => next
  | Some r =>
      bindLifecycleRecord next (lr_logical_operation_id r)
        (consultLifecycleRecord (Some r)
           (mkDerivation [] (typed_request_name <$> typedRequestFromOwnedItems (items next))
              (stop_reason_name ∘ stop_reason <$> stop l) (bool_decide (is_Some (cooling l))) None false None false false
              true false None)) time
  end.

(** One candidate, with the times the clock gives for it.  [live] is the probe
    for a host-local advance. *)
Definition reopenStep (d : ObserveDeps) (live : string → bool) (engine : LoopEngineName) (time logTime : string → string)
    (acc : list StoreWrite * LoopLedger) (itemId : string) : list StoreWrite * LoopLedger :=
  let (ws, l) := acc in
  match observedLabels d itemId with
  | None => acc
  | Some labels =>
      if isBlockedInLabels labels then acc
      else match oget (items l) itemId with
      | None => acc
      | Some current =>
          if negb (isHeld (state current)) then acc
          else if live itemId then (ws ++ [WEvent (logTime itemId) (EvCoexistenceDeferred itemId)], l)
          else
            let updated := hold_entry current Pending None
                             (mkHistory (time itemId) (state current) Pending engine None None (Some reopenNote)) in
            let next := rebindAfterReopen l (with_items l (oset itemId updated (items l))) (time itemId) in
            (ws ++ [WLedger next; WEvent (logTime itemId) (EvHoldCleared itemId)], next)
      end
  end.

Definition reopenClearedBlockedHolds (d : ObserveDeps) (live : string → bool) (engine : LoopEngineName)
    (time logTime : string → string) (l : LoopLedger) : list StoreWrite * LoopLedger :=
  foldl (reopenStep d live engine time logTime) ([], l) (id <$> filter (fun e => labelHeld e = true) (ovalues (items l))).

(** The head a reconciliation observed, when it observed one. *)
Definition observedHead (l : LoopLedger) (itemId : string) : option string :=
  oget (observedIdentities l) itemId ≫= fun i => truthy (Some (js_trim (head_sha i))).

Definition authorityMoved (l : LoopLedger) (e : LoopItemLedgerEntry) : bool :=
  isHeld (state e) &&
  match truthy (hold_request e ≫= authority_candidate_head), observedHead l (id e) with
  | Some authorityHead, Some currentHead => negb (bool_decide (lowerString currentHead = lowerString authorityHead))
  | _, _ => false
  end.

Definition invalidateStep (observed : string → option string) (engine : LoopEngineName) (time logTime : string → string)
    (acc : list StoreWrite * LoopLedger) (itemId : string) : list StoreWrite * LoopLedger :=
  let (ws, l) := acc in
  match oget (items l) itemId with
  | None => acc
  | Some current =>
      if negb (isHeld (state current)) then acc
      else
        let updated := hold_entry current Pending None
              (mkHistory (time itemId) (state current) Pending engine None None
                 (Some "candidate-bound human authority expired after fresh HEAD reconciliation")) in
        let next := with_items l (oset itemId updated (items l)) in
        (ws ++ [WLedger next; WEvent (logTime itemId) (EvAuthorityHoldInvalidated (id current)
                  (hold_request current ≫= authority_evidence_key)
                  (default "" (hold_request current ≫= authority_candidate_head)) (observed (id current)))], next)
  end.

Definition invalidateStaleAuthorityHolds (engine : LoopEngineName) (time logTime : string → string) (l : LoopLedger)
    : list StoreWrite * LoopLedger :=
  foldl (invalidateStep (observedHead l) engine time logTime) ([], l)
    (id <$> filter (fun e => authorityMoved l e = true) (ovalues (items l))).
End HoldClearing.

(** ** Stops, Cooling and the lifecycle record *)

Section Stops.
Context (mint : string).

Definition logicalOperationIdFor (c : LoopContract) (l : LoopLedger) : string :=
  resolveLogicalOperationId (lr_logical_operation_id <$> lifecycle l) (c_logical_operation_id c) None None mint.

Definition bindLifecycle (c : LoopContract) (l : LoopLedger) (o : LifecycleOwnership) (updatedAt : string) : LoopLedger :=
  bindLifecycleRecord l (logicalOperationIdFor c l) o updatedAt.

(** The ledger object is returned unchanged exactly when the record is. *)
Definition admitOrRefreshLifecycle (c : LoopContract) (l : LoopLedger) (observerProved : bool) (time : string)
    : list StoreWrite * LoopLedger :=
  let facts := mkDerivation [] (typed_request_name <$> typedRequestFromOwnedItems (items l))
                 (stop_reason_name ∘ stop_reason <$> stop l) (bool_decide (is_Some (cooling l))) None observerProved
                 None false false true false None in
  let ownership := match lifecycle l with
                   | Some r => consultLifecycleRecord (Some r) facts
                   | None => deriveLifecycleState facts
                   end in
  let next := bindLifecycle c l ownership time in
  if decide (lifecycle next = lifecycle l) then ([], l) else ([WLedger next], next).

Definition persistCoolingFromCompatibilityStop (c : LoopContract) (l : LoopLedger) (st : LoopStopRecord) (logTime : string)
    : list StoreWrite * LoopLedger * LoopCoolingRecord :=
  let record := default (coolingRecordFromCompatibilityStop st) (cooling l) in
  let cooled := match cooling l with Some _ => l | None => with_cooling l record (item_cooling l) end in
  let next := bindLifecycle c cooled
        (deriveLifecycleState (mkDerivation [] None (Some (stop_reason_name (stop_reason st))) true None false None
                                 false false false false None)) (cool_time record) in
  match cooling l with
  | Some _ => if decide (lifecycle next = lifecycle l) then ([], l, record) else ([WLedger next], next, record)
  | None => ([WLedger next; WEvent logTime (EvItemCooling (cool_item_id record) (cool_theme record)
               (default (stop_reason_name (stop_reason st)) (cool_historical_evidence record)))], next, record)
  end.

(** A Cooling record whose time is up is dropped at the start of a cycle. *)
Definition expireCooling (Date_parse : string → option Z) (l : LoopLedger) (nowIso : string) : list StoreWrite * LoopLedger :=
  match cooling l with
  | None => ([], l)
  | Some _ =>
      if coolingIsActive Date_parse (cooling l) nowIso then ([], l)
      else
        let next := mkLedger (l_run_id l) (items l) (merge_barrier l) (stop l) None (item_cooling l) (lifecycle l)
          (last_reconciliation l) (recovery_attempts l) (last_native_goal_check l) (reconciliation_sequence l)
          (authority_amendments l) in
        ([WLedger next], next)
  end.

(** The deadlock branch of a cycle: [chain] is what [detectDependencyDeadlock]
    found. *)
Definition deadlockStop (l : LoopLedger) (chain : list LoopDeadlockChainEntry) (time : string) : LoopStopRecord :=
  mkStop DependencyDeadlock time None None (Some chain) (outstandingReadyItemIds l).

Definition stopOnDeadlock (l : LoopLedger) (chain : list LoopDeadlockChainEntry) (time logTime : string)
    : list StoreWrite * LoopLedger :=
  let st := deadlockStop l chain time in
  let next := with_stop l (Some st) in
  ([WLedger next; WEvent logTime (EvStopRecorded st)], next).
End Stops.

(** ** What a cycle reports *)

Definition isDoneOrAbandoned (s : LoopItemState) : bool :=
  match s with Ready | Merged | Released | Deployed | Abandoned | Skipped => true | _ => false end.

Definition heldItemIdsFromLedger (l : LoopLedger) : list string :=
  js_sort (id <$> filter (fun e => isHeld (state e) = true) (ovalues (items l))).

Definition hasSchedulableWorkRemaining (schedulable : LoopContract) (l : LoopLedger) : bool :=
  existsb (fun it => bool_decide (state_of (items l) (ci_id it) = Some Pending)) (c_items schedulable).

Definition formatExclusionReason (e : LoopPreconditionExclusion) : string :=
  "precondition:required=" +:+ pe_required_stage e +:+ ",observed=" +:+ pe_observed_stage e.

(** [counts]: the reasons in first-occurrence order. *)
Definition countReason (counts : obj nat) (reason : string) : obj nat :=
  oset reason (S (default 0 (oget counts reason))) counts.

(** [best] and [bestCount]; [-1] is the start. *)
Definition bestStep (counts : obj nat) (b : option string * Z) (reason : string) : option string * Z :=
  let count := Z.of_nat (default 0 (oget counts reason)) in
  if (b.2 <? count)%Z then (Some reason, count) else b.

Definition dominantExclusionReason (exclusions : list LoopPreconditionExclusion) : option string :=
  match exclusions with
  | [] => None
  | _ =>
      let counts := foldl countReason [] (formatExclusionReason <$> exclusions) in
      (foldl (bestStep counts) (None, (-1)%Z) (js_sort (okeys counts))).1
  end.

(** ** Resuming a run that ended in [run_fatal] *)

Inductive OutstandingInvalidReason :=
| NotOnContract
| OutDone
| OutAbandoned
| OutSkippedItem
| HumanAuthorityHold
| PreconditionExcluded
| UnusableIdentity.

Inductive OutstandingClassification := Admitted_ | Invalid (reason : OutstandingInvalidReason).

#[export] Instance invalid_reason_eq_dec : EqDecision OutstandingInvalidReason.
Proof. solve_decision. Defined.
#[export] Instance outstanding_eq_dec : EqDecision OutstandingClassification.
Proof. solve_decision. Defined.

Definition isCurrentHumanAuthorityHold (e : LoopItemLedgerEntry) : bool :=
  match state e with
  | Paused | Waiting => negb (bool_decide ((hold_request e ≫= hold_source) = Some "pipeline_blocked_label"))
  | Blocked => match truthy (blocked_theme e) with
               | Some t => includes t (blocker_class_name <$> HUMAN_AUTHORITY_CLASSES)
               | None => false
               end
  | _ => false
  end.

Definition classifyOutstandingItem (itemId : string) (c : LoopContract) (l : LoopLedger)
    (identity : option LoopExternalIdentity) : OutstandingClassification :=
  if negb (existsb (fun it => bool_decide (ci_id it = itemId)) (c_items c)) then Invalid NotOnContract
  else match oget (items l) itemId with
  | None => Invalid NotOnContract
  | Some entry =>
      if decide (state entry = Abandoned) then Invalid OutAbandoned
      else if decide (state entry = Skipped) then Invalid OutSkippedItem
      else if isDoneOrAbandoned (state entry) then Invalid OutDone
      else if isCurrentHumanAuthorityHold entry then Invalid HumanAuthorityHold
      else match identity with
      | None => Invalid UnusableIdentity
      | Some i => if isPrePipelineStage (pipeline_stage i) then Invalid PreconditionExcluded else Admitted_
      end
  end.

(** [eligible] is that the list is not empty. *)
Definition classifyRunFatalResumeEligibility (c : LoopContract) (l : LoopLedger) (identities : obj LoopExternalIdentity)
    : list string :=
  filter (fun i => classifyOutstandingItem i c l (oget identities i) = Admitted_) (ci_id <$> c_items c).

Inductive RunFatalResumeDecision :=
| ResumeEligible (validOutstandingItemIds : list string) (st : LoopStopRecord)
| ResumeIneligible (st : LoopStopRecord) (observeError : option string).

Section RunFatal.
Context (sha256hex : string → string) {dates : IsoDates} (toNumber : string → jsnum).

Definition noRunFatalStop {A} (runId verb : string) (st : option LoopStopRecord) : result LoopError A :=
  throw FValidation ("loop run " +:+ quoted runId +:+ " has no run_fatal stop to " +:+ verb +:+
    from_option (fun r => " (stop.reason=" +:+ stop_reason_name (stop_reason r) +:+ ")") "" st).

Definition runFatalStop (l : LoopLedger) : option LoopStopRecord :=
  st ← stop l; if decide (stop_reason st = RunFatal) then Some st else None.

Definition observeAll (d : ObserveDeps) (ids : list string) : result LoopError (obj LoopExternalIdentity) :=
  rfold (fun acc i => try identity := observeExternalIdentity toNumber d i None in Ok (oset i identity acc)) [] ids.

Definition evaluateRunFatalResumeEligibility (d : ObserveDeps) (s : RunStore) (runId : string)
    : result LoopError RunFatalResumeDecision :=
  let c := run_contract s in
  let l := readLedger sha256hex s in
  match runFatalStop l with
  | None => noRunFatalStop runId "evaluate" (stop l)
  | Some st =>
      match observeAll d (ci_id <$> c_items c) with
      | Err e => Ok (ResumeIneligible st (Some (message e)))
      | Ok identities =>
          match classifyRunFatalResumeEligibility c l identities with
          | [] => Ok (ResumeIneligible st None)
          | ids => Ok (ResumeEligible ids st)
          end
      end
  end.

Definition supersedeRunFatalStop (s : RunStore) (runId logTime : string)
    : result LoopError (list StoreWrite * LoopStopRecord) :=
  let l := readLedger sha256hex s in
  match runFatalStop l with
  | None => noRunFatalStop runId "supersede" (stop l)
  | Some prior => Ok ([WLedger (with_stop l None); WEvent logTime (EvRunFatalSuperseded prior)], prior)
  end.
End RunFatal.

(** ** Facts *)

Lemma shift_Ok sha s i from to verb rule h ev t ws next :
  shiftItem sha s i from to verb rule h ev t = Ok (ws, next) ↔
  ∃ item, oget (items (readLedger sha s)) i = Some item ∧ state item = from ∧
    next = with_items (readLedger sha s) (oset i (entry_step item to h) (items (readLedger sha s))) ∧
    ws = [WLedger next; WEvent t ev].
Proof.
  unfold shiftItem. destruct (oget _ i) as [item|]; [|split; [done|by intros (? & ? & _)]].
  case_decide as Hs; split.
  - intros [= <- <-]. by exists item.
  - by intros (? & [= <-] & _ & -> & ->).
  - done.
  - by intros (? & [= <-] & ? & _).
Qed.

(** A sweep over distinct keys, each step touching its own key only, where the
    entry at the key is as [Q] says. *)
Lemma sweep_get_if {A V} (proj : A → obj V) (Q : string → V → Prop) (step : A → string → A) (g : string → V → V) ids a k :
  (∀ a i e, oget (proj a) i = Some e → Q i e → proj (step a i) = oset i (g i e) (proj a)) →
  NoDup ids → (∀ i, i ∈ ids → ∃ e, oget (proj a) i = Some e ∧ Q i e) →
  oget (proj (foldl step a ids)) k = (if decide (k ∈ ids) then g k else fun v => v) <$> oget (proj a) k.
Proof.
  intros Hstep. revert a. induction ids as [|i ids IH]; intros a Hnd Hin; cbn [foldl].
  { destruct (decide (k ∈ [])) as [Hk|_]; [by apply elem_of_nil in Hk|]. by destruct (oget (proj a) k). }
  apply NoDup_cons in Hnd as [Hi Hnd]. destruct (Hin i) as (e & He & Hq); [by left|].
  specialize (Hstep a i e He Hq). rewrite IH; [|done|].
  - rewrite Hstep. destruct (decide (i = k)) as [<-|Hne].
    + rewrite oget_oset_eq, He. destruct (decide (i ∈ ids)) as [|_]; [done|].
      destruct (decide (i ∈ i :: ids)) as [|Hn]; [done|]. destruct Hn. by left.
    + rewrite oget_oset_ne by done. destruct (decide (k ∈ ids)) as [Hk|Hk], (decide (k ∈ i :: ids)) as [Hc|Hc]; try done.
      * destruct Hc. by right.
      * apply elem_of_cons in Hc as [?|?]; congruence.
  - intros j Hj. rewrite Hstep. rewrite oget_oset_ne by (intros ->; done). apply Hin. by right.
Qed.

Lemma sweep_get {A V} (proj : A → obj V) (step : A → string → A) (g : string → V → V) ids a k :
  (∀ a i e, oget (proj a) i = Some e → proj (step a i) = oset i (g i e) (proj a)) →
  NoDup ids → (∀ i, i ∈ ids → is_Some (oget (proj a) i)) →
  oget (proj (foldl step a ids)) k = (if decide (k ∈ ids) then g k else fun v => v) <$> oget (proj a) k.
Proof.
  intros Hstep Hnd Hin. apply (sweep_get_if proj (fun _ _ => True)); [by intros a' i e He _; apply Hstep|done|].
  intros i Hi. destruct (Hin i Hi) as [e He]. by exists e.
Qed.

(** The ids a filter over the entries of a well-keyed ledger lists. *)
Lemma filtered_ids l (p : LoopItemLedgerEntry → bool) :
  LedgerWF l →
  let ids := id <$> filter (fun e => p e = true) (ovalues (items l)) in
  NoDup ids ∧ ∀ k, k ∈ ids ↔ ∃ e, oget (items l) k = Some e ∧ p e = true.
Proof.
  intros [Hnd Hid]. cbv zeta. assert (∀ k e, (k, e) ∈ items l → id e = k) as Hkey.
  { intros k e Hin. apply Hid. by apply elem_oget. }
  split.
  - assert (id <$> ovalues (items l) = okeys (items l)) as Heq.
    { unfold ovalues, okeys. rewrite <-list_fmap_compose. apply list_fmap_ext. intros n [k e] Hn. simpl.
      apply (Hkey k e). by eapply list_elem_of_lookup_2. }
    rewrite <-Heq in Hnd. eapply sublist_NoDup; [exact Hnd|]. apply fmap_sublist, sublist_filter.
  - intros k. rewrite list_elem_of_fmap. split.
    + intros (e & -> & [Hp Hin]%list_elem_of_filter). apply elem_ovalues in Hin as [k Hk].
      exists e. split; [|done]. rewrite (Hkey k e Hk). by apply elem_oget.
    + intros (e & Hk & Hp). exists e. split; [symmetry; by apply Hid|]. apply list_elem_of_filter. split; [done|].
      apply elem_ovalues. exists k. by apply oget_Some_elem.
Qed.

(** ** Holds are cleared exactly where the evidence is *)

Definition expiredEntry (engine : LoopEngineName) (time : string) (e : LoopItemLedgerEntry) : LoopItemLedgerEntry :=
  hold_entry e Pending None (mkHistory time (state e) Pending engine None None
    (Some "candidate-bound human authority expired after fresh HEAD reconciliation")).

Definition reopenedEntry (engine : LoopEngineName) (time : string) (e : LoopItemLedgerEntry) : LoopItemLedgerEntry :=
  hold_entry e Pending None (mkHistory time (state e) Pending engine None None (Some reopenNote)).

(** The candidate was seen without the blocked label, and no advance is live. *)
Definition clearedFor (toNumber : string → jsnum) (d : ObserveDeps) (live : string → bool) (k : string) : bool :=
  match observedLabels toNumber d k with
  | Some labels => negb (isBlockedInLabels labels) && negb (live k)
  | None => false
  end.

Lemma invalidateStep_items observed engine time logTime a i e :
  oget (items a.2) i = Some e →
  items (invalidateStep observed engine time logTime a i).2 =
  oset i (if isHeld (state e) then expiredEntry engine (time i) e else e) (items a.2).
Proof.
  destruct a as [ws l]. simpl. intros He. rewrite He. destruct (isHeld (state e)); simpl; [done|]. by rewrite oset_id.
Qed.

Lemma reopenStep_items toNumber d live engine time logTime a i e :
  oget (items a.2) i = Some e →
  items (reopenStep toNumber d live engine time logTime a i).2 =
  oset i (if clearedFor toNumber d live i && isHeld (state e) then reopenedEntry engine (time i) e else e) (items a.2).
Proof.
  destruct a as [ws l]. simpl. intros He. unfold clearedFor.
  destruct (observedLabels toNumber d i) as [labels|]; simpl; [|by rewrite oset_id].
  destruct (isBlockedInLabels labels); simpl; [by rewrite oset_id|]. rewrite He.
  destruct (isHeld (state e)); simpl; [|by rewrite andb_false_r, oset_id].
  destruct (live i); simpl; [by rewrite oset_id|]. unfold rebindAfterReopen. by destruct (lifecycle l).
Qed.

(** The item is held on the authority of a candidate, and the last reconciliation
    saw another one. *)
Definition AuthorityMoved (l : LoopLedger) (e : LoopItemLedgerEntry) : Prop :=
  (state e = Paused ∨ state e = Waiting) ∧
  ∃ r authority i, hold_request e = Some r ∧ authority_candidate_head r = Some authority ∧ authority ≠ "" ∧
    oget (observedIdentities l) (id e) = Some i ∧ js_trim (head_sha i) ≠ "" ∧
    lowerString (js_trim (head_sha i)) ≠ lowerString authority.

Lemma authorityMoved_spec l e : authorityMoved l e = true ↔ AuthorityMoved l e.
Proof.
  unfold authorityMoved, AuthorityMoved. rewrite andb_true_iff.
  assert (isHeld (state e) = true ↔ state e = Paused ∨ state e = Waiting) as -> by (destruct (state e); naive_solver).
  apply and_iff_compat_l. split.
  - destruct (truthy (hold_request e ≫= authority_candidate_head)) as [h|] eqn:Eh; [|done]. apply truthy_Some in Eh as [Eh Hh].
    destruct (observedHead l (id e)) as [c|] eqn:Ec; [|done]. unfold observedHead in Ec.
    destruct (oget (observedIdentities l) (id e)) as [i|]; [|done]. simpl in Ec. apply (truthy_Some (Some _)) in Ec as [[= <-] Hc].
    destruct (hold_request e) as [r|]; [|done]. simpl in Eh. rewrite negb_true_iff, bool_decide_eq_false. intros Hne.
    by exists r, h, i.
  - intros (r & h & i & -> & Hr & Hh & Hi & Ht & Hne). simpl. rewrite Hr. unfold observedHead. rewrite Hi.
    cbn [mbind option_bind]. rewrite (proj2 (truthy_Some (Some h) h)), (proj2 (truthy_Some (Some (js_trim (head_sha i))) _)) by done.
    by rewrite bool_decide_false.
Qed.

(** Candidate-bound authority expires exactly when the candidate moved: a
    held item is returned to [pending], its request dropped and one line added,
    if and only if its request names a candidate head and the last
    reconciliation saw another, non-empty one (compared without case); every
    other item is untouched, an unobservable head included. *)
Theorem authority_expiry_exact engine time logTime l k :
  LedgerWF l →
  match oget (items l) k, oget (items (invalidateStaleAuthorityHolds engine time logTime l).2) k with
  | Some e, Some e' => AuthorityMoved l e ∧ e' = expiredEntry engine (time k) e ∨ ¬ AuthorityMoved l e ∧ e' = e
  | None, None => True
  | _, _ => False
  end.
Proof.
  intros Hwf. destruct (filtered_ids l (authorityMoved l) Hwf) as [Hnd Hids]. unfold invalidateStaleAuthorityHolds.
  rewrite (sweep_get (fun a => items a.2) _ _ _ _ _ (invalidateStep_items _ _ _ _) Hnd).
  2: { intros i (e & He & _)%Hids. by exists e. }
  simpl. destruct (oget (items l) k) as [e|] eqn:He; [|done]. simpl. rewrite <-authorityMoved_spec.
  destruct (decide _) as [Hin|Hni].
  - apply Hids in Hin as (e0 & He0 & Hm). simplify_eq. left. split; [done|].
    unfold authorityMoved in Hm. by destruct (isHeld (state e)).
  - right. split; [|done]. intros Hm. destruct Hni. apply Hids. eauto.
Qed.

(** A hold entered for the blocked label is re-admitted exactly when a
    positive observation shows the label gone and no advance of the item is
    live: a failed or empty observation, a live advance, and every hold with
    another source leave the item as it is. *)
Theorem reopen_exact toNumber d live engine time logTime l k :
  LedgerWF l →
  oget (items (reopenClearedBlockedHolds toNumber d live engine time logTime l).2) k =
  (fun e => if labelHeld e && clearedFor toNumber d live k then reopenedEntry engine (time k) e else e) <$> oget (items l) k.
Proof.
  intros Hwf. destruct (filtered_ids l labelHeld Hwf) as [Hnd Hids]. unfold reopenClearedBlockedHolds.
  rewrite (sweep_get (fun a => items a.2) _ _ _ _ _ (reopenStep_items _ _ _ _ _ _) Hnd).
  2: { intros i (e & He & _)%Hids. by exists e. }
  simpl. destruct (oget (items l) k) as [e|] eqn:He; [|done]. simpl. f_equal.
  destruct (decide _) as [Hin|Hni].
  - apply Hids in Hin as (e0 & He0 & Hm). simplify_eq. rewrite Hm. simpl. unfold labelHeld in Hm.
    destruct (isHeld (state e)); [|done]. by rewrite andb_true_r.
  - destruct (labelHeld e) eqn:Hm; [|done]. destruct Hni. apply Hids. eauto.
Qed.

(** ** The dominant exclusion reason *)

Definition timesOf (r : string) (rs : list string) : nat := length (filter (fun x => x = r) rs).

Lemma count_fold rs counts r :
  default 0 (oget (foldl countReason counts rs) r) = default 0 (oget counts r) + timesOf r rs ∧
  (r ∈ okeys (foldl countReason counts rs) ↔ r ∈ okeys counts ∨ r ∈ rs).
Proof.
  revert counts. induction rs as [|x rs IH]; intros counts; cbn [foldl].
  { split; [by unfold timesOf; simpl; lia|]. rewrite elem_of_nil. tauto. }
  destruct (IH (countReason counts x)) as [-> ->]. unfold countReason. split.
  - unfold timesOf. rewrite filter_cons. destruct (decide (x = r)) as [->|Hne].
    + rewrite oget_oset_eq. simpl. lia.
    + by rewrite oget_oset_ne.
  - rewrite elem_okeys_oset, elem_of_cons. tauto.
Qed.

Lemma best_fold counts ks b :
  StronglySorted String.le ks →
  let c k := Z.of_nat (default 0 (oget counts k)) in
  (foldl (bestStep counts) b ks = b ∧ ∀ k, k ∈ ks → (c k ≤ b.2)%Z) ∨
  (∃ r, r ∈ ks ∧ foldl (bestStep counts) b ks = (Some r, c r) ∧ (b.2 < c r)%Z ∧
     ∀ k, k ∈ ks → (c k ≤ c r)%Z ∧ (c k = c r → String.le r k)).
Proof.
  intros Hs c. revert b. induction Hs as [|x ks Hs IH Hx]; intros b; cbn [foldl].
  { left. split; [done|]. by intros k ?%elem_of_nil. }
  rewrite Forall_forall in Hx.
  replace (bestStep counts b x) with (if (b.2 <? c x)%Z then (Some x, c x) else b) by done. destruct (Z.ltb_spec b.2 (c x)) as [Hlt|Hge].
  - right. destruct (IH (Some x, c x)) as [[-> Hle]|(r & Hr & -> & Hgt & Hmax)]; simpl in *.
    + exists x. split; [left|]. do 2 (split; [done|]). intros k [->|Hk]%elem_of_cons; [by split|].
      split; [by apply Hle|]. intros _. by apply Hx.
    + exists r. split; [by right|]. split; [done|]. split; [lia|]. intros k [->|Hk]%elem_of_cons; [|by apply Hmax].
      split; lia.
  - destruct (IH b) as [[-> Hle]|(r & Hr & -> & Hgt & Hmax)].
    + left. split; [done|]. intros k [->|Hk]%elem_of_cons; auto.
    + right. exists r. split; [by right|]. do 2 (split; [done|]). intros k [->|Hk]%elem_of_cons; [|by apply Hmax].
      split; lia.
Qed.

(** The reason a terminal summary shows is the most frequent one of the
    exclusions, the lexicographically least of them on a tie: a function of the
    exclusions alone, whatever their order. *)
Theorem dominant_reason_exact xs r :
  let rs := formatExclusionReason <$> xs in
  dominantExclusionReason xs = Some r ↔
  r ∈ rs ∧ ∀ r', r' ∈ rs → timesOf r' rs ≤ timesOf r rs ∧ (timesOf r' rs = timesOf r rs → String.le r r').
Proof.
  intros rs. set (counts := foldl countReason [] rs).
  assert (∀ k, default 0 (oget counts k) = timesOf k rs) as Hc by (intros k; apply (count_fold rs [] k)).
  assert (∀ k, k ∈ js_sort (okeys counts) ↔ k ∈ rs) as Hk.
  { intros k. rewrite js_sort_elem. destruct (count_fold rs [] k) as [_ H]. etrans; [exact H|]. simpl. rewrite elem_of_nil. tauto. }
  assert (dominantExclusionReason xs = (foldl (bestStep counts) (None, (-1)%Z) (js_sort (okeys counts))).1) as ->.
  { unfold dominantExclusionReason. destruct xs; [|done]. by vm_compute. }
  destruct (best_fold counts (js_sort (okeys counts)) (None, (-1)%Z) (js_sort_sorted _)) as [[-> Hle]|(q & Hq & -> & _ & Hmax)];
    cbn [fst snd] in *.
  - split; [done|]. intros [Hr _]. apply Hk, Hle in Hr. lia.
  - apply Hk in Hq. assert (∀ r', r' ∈ rs → timesOf r' rs ≤ timesOf q rs ∧ (timesOf r' rs = timesOf q rs → String.le q r')) as Hm.
    { intros r' [H1 H2]%Hk%Hmax. rewrite !Hc in H1, H2. split; [lia|]. intros Heq. apply H2. lia. }
    split; [by intros [= <-]|]. intros [Hr Hall]. f_equal. destruct (Hm r Hr) as [H1 H2], (Hall q Hq) as [H3 H4].
    apply (anti_symm String.le); [apply H2|apply H4]; lia.
Qed.

(** ** Resuming after [run_fatal] *)

Lemma filter_iff_in {A} (P Q : A → Prop) `{∀ x, Decision (P x), ∀ x, Decision (Q x)} (xs : list A) :
  (∀ x, x ∈ xs → P x ↔ Q x) → filter P xs = filter Q xs.
Proof.
  induction xs as [|x xs IH]; intros H1; [done|]. rewrite !filter_cons, IH by (intros y Hy; apply H1; by right).
  pose proof (H1 x ltac:(by left)) as Hx. destruct (decide (P x)), (decide (Q x)); tauto.
Qed.

Section RunFatalFacts.
Context (sha256hex : string → string) {dates : IsoDates} (toNumber : string → jsnum).

Lemma observeAll_from d ids acc :
  match rfold (fun acc i => try identity := observeExternalIdentity toNumber d i None in Ok (oset i identity acc)) acc ids with
  | Ok m => ∀ k, match observeExternalIdentity toNumber d k None with
                 | Ok i => k ∈ ids → oget m k = Some i
                 | Err _ => k ∉ ids
                 end ∧ (k ∉ ids → oget m k = oget acc k)
  | Err _ => ∃ k e, k ∈ ids ∧ observeExternalIdentity toNumber d k None = Err e
  end.
Proof.
  revert acc. induction ids as [|x ids IH]; intros acc; simpl.
  { intros k. split; [|done]. by destruct (observeExternalIdentity toNumber d k None); intros ?%elem_of_nil. }
  destruct (observeExternalIdentity toNumber d x None) as [ix|ex] eqn:Ex; simpl; [|exists x, ex; by split; [left|]].
  specialize (IH (oset x ix acc)). destruct (rfold _ _ _) as [m|e].
  - intros k. destruct (IH k) as [H1 H2]. destruct (decide (k = x)) as [->|Hne].
    + rewrite Ex in *. split; [|by intros []; left]. intros _. destruct (decide (x ∈ ids)) as [Hi|Hn]; [by apply H1|].
      by rewrite H2, oget_oset_eq.
    + split; [destruct (observeExternalIdentity toNumber d k None); rewrite elem_of_cons; tauto|].
      rewrite elem_of_cons. intros Hn. rewrite H2 by tauto. by rewrite oget_oset_ne.
  - destruct IH as (k & e' & Hk & He). exists k, e'. split; [by right|done].
Qed.

Definition isOutstanding (s : LoopItemState) : bool :=
  match s with Pending | InProgress | Blocked | Implemented | PrOpened | Paused | Waiting => true | _ => false end.

(** What makes an item worth driving again: outstanding, under no human's hold,
    and observed inside the pipeline. *)
Definition redrivable (d : ObserveDeps) (l : LoopLedger) (k : string) : bool :=
  match oget (items l) k, observeExternalIdentity toNumber d k None with
  | Some e, Ok i => isOutstanding (state e) && negb (isCurrentHumanAuthorityHold e) && negb (isPrePipelineStage (pipeline_stage i))
  | _, _ => false
  end.

Lemma classify_admitted k c l i :
  k ∈ ci_id <$> c_items c →
  classifyOutstandingItem k c l (Some i) = Admitted_ ↔
  ∃ e, oget (items l) k = Some e ∧ isOutstanding (state e) = true ∧ isCurrentHumanAuthorityHold e = false ∧
       isPrePipelineStage (pipeline_stage i) = false.
Proof.
  intros (it & -> & Hin)%list_elem_of_fmap. unfold classifyOutstandingItem.
  assert (existsb (fun it0 => bool_decide (ci_id it0 = ci_id it)) (c_items c) = true) as ->.
  { apply existsb_elem. exists it. by rewrite bool_decide_true. }
  simpl. destruct (oget (items l) (ci_id it)) as [e|]; [|split; [done|by intros (? & ? & _)]].
  assert ((∃ e0, Some e = Some e0 ∧ isOutstanding (state e0) = true ∧ isCurrentHumanAuthorityHold e0 = false ∧
                 isPrePipelineStage (pipeline_stage i) = false) ↔
          isOutstanding (state e) = true ∧ isCurrentHumanAuthorityHold e = false ∧
          isPrePipelineStage (pipeline_stage i) = false) as ->.
  { split; [by intros (? & [= <-] & ?)|]. intros ?. by exists e. }
  destruct (isCurrentHumanAuthorityHold e), (isPrePipelineStage (pipeline_stage i)), (state e); simpl;
    (split; [intros Hx; discriminate Hx || done|intros (? & ? & ?); discriminate || done]).
Qed.

(** A run that ended in [run_fatal] is driven again exactly when that stop is
    still the recorded one, every item of the contract could be observed, and
    some item is outstanding, under no current human-authority hold and past the
    pipeline's entry; the items reported are exactly those, in contract order.
    One failed observation refuses the whole resume. *)
Theorem run_fatal_resume_exact d s runId ids st :
  evaluateRunFatalResumeEligibility sha256hex toNumber d s runId = Ok (ResumeEligible ids st) ↔
  stop (run_ledger s) = Some st ∧ stop_reason st = RunFatal ∧
  (∀ k, k ∈ ci_id <$> c_items (run_contract s) → ∃ i, observeExternalIdentity toNumber d k None = Ok i) ∧
  ids = filter (fun k => redrivable d (run_ledger s) k = true) (ci_id <$> c_items (run_contract s)) ∧ ids ≠ [].
Proof.
  assert (items (readLedger sha256hex s) = items (run_ledger s) ∧ stop (readLedger sha256hex s) = stop (run_ledger s)) as [Hi Hs].
  { by pose proof (normalize_frame sha256hex (recovery_policy (run_contract s)) (run_ledger s)) as (? & ? & _). }
  unfold evaluateRunFatalResumeEligibility, runFatalStop. rewrite Hs.
  destruct (stop (run_ledger s)) as [st0|]; simpl; [|split; [done|by intros [? _]]].
  destruct (decide (stop_reason st0 = RunFatal)) as [Hf|Hn]; [|split; [done|intros ([= ->] & ? & _); done]].
  set (ks := ci_id <$> c_items (run_contract s)). pose proof (observeAll_from d ks []) as Ho. unfold observeAll.
  destruct (rfold _ _ _) as [m|e].
  2: { split; [done|]. destruct Ho as (k & e' & Hk & He). intros (_ & _ & Hall & _). destruct (Hall k Hk) as [? ?]. congruence. }
  assert (classifyRunFatalResumeEligibility (run_contract s) (readLedger sha256hex s) m =
          filter (fun k => redrivable d (run_ledger s) k = true) ks) as ->.
  { unfold classifyRunFatalResumeEligibility. fold ks. apply filter_iff_in. intros k Hk. destruct (Ho k) as [Hok _].
    unfold redrivable. destruct (observeExternalIdentity toNumber d k None) as [i|] eqn:Ei; [|done].
    rewrite (Hok Hk), (classify_admitted k _ _ i Hk), Hi. destruct (oget (items (run_ledger s)) k) as [e|]; [|by split; [intros (? & ? & _)|]].
    rewrite !andb_true_iff, !negb_true_iff. split; [intros (? & [= <-] & ?); tauto|]. intros [[? ?] ?]. by exists e. }
  assert (∀ k, k ∈ ks → ∃ i, observeExternalIdentity toNumber d k None = Ok i) as Hall.
  { intros k Hk. destruct (Ho k) as [Hok _]. destruct (observeExternalIdentity toNumber d k None) as [i|]; [by exists i|done]. }
  destruct (filter _ ks) as [|x xs] eqn:Ef; split.
  - done.
  - intros (_ & _ & _ & ? & ?). done.
  - intros [= <- <-]. done.
  - intros ([= ->] & _ & _ & -> & _). done.
Qed.
End RunFatalFacts.

(** ** Taking over a dead holder's item *)

Section TakeoverFacts.
Context (sha256hex : string → string) {dates : IsoDates} (stringify : jval → string) (parse : string → option jval).

Lemma parse_takeover holder fp text :
  text ≠ "" → parse text = Some (takeoverEvidence holder fp) →
  holder ≠ "" → fp ≠ "" → parseDeadHolderTakeoverEvidence parse (Some text) = Some (holder, fp).
Proof.
  intros Ht Hp Hh Hf. unfold parseDeadHolderTakeoverEvidence. simpl. rewrite decide_False by done. simpl.
  rewrite Hp. simpl. case_decide as Hn; [by destruct Hn|].
  rewrite !decide_False by done. done.
Qed.

(** A takeover returns an item of a dead holder to [pending] with its block
    cleared, and is remembered exactly: afterwards an interrupt counts as
    already taken over if and only if it did before or it is this very one, the
    same holder and the same crash fingerprint.  [JSON.parse] is only assumed to
    read back the evidence that was written. *)
Theorem takeover_exact s itemId engine holder fp time logTime e :
  let text := stringify (takeoverEvidence holder fp) in
  text ≠ "" → parse text = Some (takeoverEvidence holder fp) → holder ≠ "" → fp ≠ "" →
  oget (items (run_ledger s)) itemId = Some e → state e = InProgress ∨ state e = Blocked →
  let next := (takeoverDeadHolderItem sha256hex stringify s itemId engine holder fp time logTime).2 in
  ∃ e', oget (items next) itemId = Some e' ∧ state e' = Pending ∧ blocked_theme e' = None ∧
    (∀ k, k ≠ itemId → oget (items next) k = oget (items (run_ledger s)) k) ∧
    ∀ holder' fp', sameDeadHolderInterruptAlreadyTakenOver parse (history e') holder' fp' =
      sameDeadHolderInterruptAlreadyTakenOver parse (history e) holder' fp' || bool_decide (holder' = holder ∧ fp' = fp).
Proof.
  intros text Ht Hp Hh Hf He Hs next. subst next. unfold takeoverDeadHolderItem.
  assert (items (readLedger sha256hex s) = items (run_ledger s)) as -> by apply normalize_frame. rewrite He.
  destruct (decide _) as [[? ?]|_]; [by destruct Hs|]. eexists. split; [apply oget_oset_eq|]. do 2 (split; [done|]).
  split; [by intros k Hk; apply oget_oset_ne|]. intros h' f'. unfold sameDeadHolderInterruptAlreadyTakenOver.
  destruct (bool_decide (h' = "") || bool_decide (f' = "")) eqn:Eb.
  { symmetry. apply bool_decide_eq_false. intros [-> ->]. rewrite !bool_decide_false in Eb by done. done. }
  cbn [history takenOver]. rewrite existsb_app. f_equal. cbn [existsb h_evidence]. rewrite orb_false_r.
  unfold encodeDeadHolderTakeoverEvidence. fold text. rewrite (parse_takeover holder fp text) by done.
  apply bool_decide_ext. naive_solver.
Qed.
End TakeoverFacts.

(** ** Retired claims *)

Section SupersedeFacts.
Context (sha256hex : string → string) {dates : IsoDates}.

(** A retired claim is rewritten in place: nothing but its outcome and its
    completion time. *)
Lemma supersede_rows s itemId reason select time logTime :
  let l := upgradeLedgerForRecovery sha256hex (readLedger sha256hex s) in
  let ids := attempt_id <$> filter (fun a => openClaim itemId select a = true) (attemptsOf l) in
  let r := supersedeStartedRecoveryAttempts sha256hex s itemId reason select time logTime in
  attemptsOf r.2 = supersedeRow ids time <$> attemptsOf l ∧ items r.2 = items l ∧ stop r.2 = stop l ∧
  (∀ l', WLedger l' ∈ r.1 → l' = r.2).
Proof.
  intros l ids r. subst r. unfold supersedeStartedRecoveryAttempts. fold l ids.
  assert (ids = [] → supersedeRow ids time <$> attemptsOf l = attemptsOf l) as Hnil.
  { intros ->. rewrite <-(list_fmap_id (attemptsOf l)) at 2. apply list_fmap_ext. intros i a _. unfold supersedeRow.
    assert (includes (attempt_id a) [] = false) as -> by (apply includes_false, not_elem_of_nil). done. }
  destruct ids as [|i ids']; [split; [by rewrite Hnil|split; [done|split; [done|by intros ? ?%elem_of_nil]]]|].
  split; [done|]. split; [done|]. split; [done|]. cbn [fst snd]. intros l' [Hw|Hw]%elem_of_cons; [by injection Hw|].
  unfold supersedeEvents in Hw. apply list_elem_of_omap in Hw as (j & _ & Hj). by destruct (list_find _ _).
Qed.
End SupersedeFacts.

(** ** Witnesses *)

Module SupervisorSample.
Definition request (source head : option string) : LoopHumanInputRequest :=
  mkHold "req-1" "7" "merge?" None Claude "t0" None source "decision" None None None (Some "key") head.
Definition held (e : LoopItemLedgerEntry) (r : LoopHumanInputRequest) : LoopItemLedgerEntry :=
  hold_entry e Waiting (Some r) (mkHistory "t0" (state e) Waiting Claude None None None).
Definition base : LoopItemLedgerEntry := snd (FrontierSample.entry "7" InProgress None).
Definition identity (sha : string) : LoopExternalIdentity :=
  mkIdentity 7 true false false (Some 11%Z) (Some PrStateOpen) "issue-7" sha None ChecksSuccess (Some "review-1") "now"
    None None None None None None None None None None None.
Definition ledger (e : LoopItemLedgerEntry) (sha : string) : LoopLedger :=
  let l := FrontierSample.ledger [("7", e)] in
  mkLedger (l_run_id l) (items l) (merge_barrier l) (stop l) (cooling l) (item_cooling l) (lifecycle l)
    (Some (mkReconciliation 1 "t1" [("7", identity sha)] [] [])) (recovery_attempts l) (last_native_goal_check l)
    (reconciliation_sequence l) (authority_amendments l).
Definition bound (sha : string) : LoopLedger := ledger (held base (request None (Some "abc"))) sha.
Definition labelled : LoopLedger := ledger (held base (request (Some "pipeline_blocked_label") None)) "abc".
Definition stateOf (l : LoopLedger) : option LoopItemState := state_of (items l) "7".
Definition at_ (t : string) (_ : string) : string := t.

Lemma wf e sha : id e = "7" → LedgerWF (ledger e sha).
Proof.
  intros He. split; simpl; [by apply NoDup_singleton|]. intros k e0. case_decide as Hk; [|done]. intros [= <-]. congruence.
Defined.

(** The candidate moved, stayed, or was not observed. *)
Example authority_cases :
  stateOf (invalidateStaleAuthorityHolds Claude (at_ "t") (at_ "t") (bound "def")).2 = Some Pending ∧
  stateOf (invalidateStaleAuthorityHolds Claude (at_ "t") (at_ "t") (bound "ABC")).2 = Some Waiting ∧
  stateOf (invalidateStaleAuthorityHolds Claude (at_ "t") (at_ "t") (bound "  ")).2 = Some Waiting.
Proof. by vm_compute. Qed.

Definition reopen (labels : list string) (live : bool) : option LoopItemState :=
  stateOf (reopenClearedBlockedHolds ObserveSample.toNumber (ObserveSample.deps labels PrStateOpen None None)
             (fun _ => live) Claude (at_ "t") (at_ "t") labelled).2.

Example reopen_cases :
  reopen ["pipeline:review-1"] false = Some Pending ∧ reopen ["blocked"] false = Some Waiting ∧
  reopen ["pipeline:review-1"] true = Some Waiting.
Proof. by vm_compute. Qed.

(** The documented label is [pipeline:blocked]; the test looks for [blocked]. *)
Theorem prefixed_label_reopens : reopen ["pipeline:blocked"] false = Some Pending.
Proof. by vm_compute. Qed.

Definition store (e : LoopItemLedgerEntry) : RunStore := HoldSample.store (ledger e "abc").
Definition stringify (v : jval) : string :=
  match v with JObj [_; (_, JStr h); (_, JStr f)] => h +:+ "|" +:+ f | _ => "" end.
Definition parse (s : string) : option jval := if decide (s = "run-1|fp") then Some (takeoverEvidence "run-1" "fp") else None.
End SupervisorSample.

Lemma authority_expiry_exact_witness :
  AuthorityMoved (SupervisorSample.bound "def")
    (SupervisorSample.held SupervisorSample.base (SupervisorSample.request None (Some "abc"))).
Proof.
  pose proof (authority_expiry_exact Claude (SupervisorSample.at_ "t") (SupervisorSample.at_ "t") (SupervisorSample.bound "def") "7")
    as H. destruct H as [[H _]|[_ H]]; [by apply SupervisorSample.wf|exact H|]. vm_compute in H. discriminate H.
Defined.

Lemma reopen_exact_witness :
  oget (items (reopenClearedBlockedHolds ObserveSample.toNumber
                 (ObserveSample.deps ["pipeline:review-1"] PrStateOpen None None) (fun _ => false) Claude
                 (SupervisorSample.at_ "t") (SupervisorSample.at_ "t") SupervisorSample.labelled).2) "7" =
  Some (reopenedEntry Claude "t"
          (SupervisorSample.held SupervisorSample.base (SupervisorSample.request (Some "pipeline_blocked_label") None))).
Proof.
  rewrite (reopen_exact ObserveSample.toNumber (ObserveSample.deps ["pipeline:review-1"] PrStateOpen None None) (fun _ => false) Claude
    (SupervisorSample.at_ "t") (SupervisorSample.at_ "t") SupervisorSample.labelled "7"); [by vm_compute|by apply SupervisorSample.wf].
Defined.

Lemma takeover_exact_witness :
  ∃ e', oget (items (takeoverDeadHolderItem (fun s => s) SupervisorSample.stringify (SupervisorSample.store SupervisorSample.base) "7"
                       Claude "run-1" "fp" "t" "t").2) "7" = Some e' ∧ state e' = Pending ∧
    sameDeadHolderInterruptAlreadyTakenOver SupervisorSample.parse (history e') "run-1" "fp" = true ∧
    sameDeadHolderInterruptAlreadyTakenOver SupervisorSample.parse (history e') "run-2" "fp" = false.
Proof.
  destruct (takeover_exact (fun s => s) SupervisorSample.stringify SupervisorSample.parse
    (SupervisorSample.store SupervisorSample.base) "7" Claude "run-1" "fp" "t" "t" SupervisorSample.base)
    as (e' & He & Hs & _ & _ & Hsame); [done|by vm_compute|done|done|by vm_compute|by left|].
  exists e'. split; [exact He|]. split; [exact Hs|]. rewrite !Hsame. by vm_compute.
Defined.
