(* ===== verification/LoopSteps.v ===== *)
(** * The run as a state machine

    The operations of the engine on one run, composed: the recovery handlers
    ([recovery.ts]), the holds, amendments and handoff ([pause.ts]), the
    reconciliation pass, the terminal catch-up and the guarded transition
    ([reconcile.ts]), dependency propagation ([dependencies.ts]), the supervisor's
    own item moves and stops ([supervisor.ts]), the operator's resume of a
    [run_fatal] stop ([run-fatal-resume.ts]) and the lock operations ([store.ts]), in any order, by any process, and cut off after any
    of their durable writes. *)

From Stdlib Require Import ZArith QArith Qcanon.
From stdpp Require Import numbers base gmap strings list pretty relations.
From S2P Require Import Prelude LoopTypes Ownership Lifecycle RecoveryPolicy Frontier Dependencies Precondition Observation TypedRequests RecoveryEpisodes RecoveryHandlers Store Holds Observe Reconcile Supervisor.
Local Open Scope result_scope.
Local Open Scope nat_scope.

(** ** What any operation may do to an item *)

(** [skipped] is only entered by propagation, the two states no observation
    proves not at all. *)
Definition soundLine (h : LoopHistoryEntry) : Prop :=
  (h_to h = Skipped → h_from h = Skipped ∨ isSkippable (h_from h) = true) ∧ h_to h ≠ Released ∧ h_to h ≠ Deployed.

Record evolves (e e' : LoopItemLedgerEntry) : Prop := {
  ev_id : id e' = id e;
  ev_history : ∃ hs, history e' = history e ++ hs ∧ histPath (state e) hs (state e') ∧ Forall soundLine hs;
  ev_proven : ProvenEntry e → ProvenEntry e';
}.

#[export] Instance evolves_preorder : PreOrder evolves.
Proof.
  split.
  - intros e. split; [done| |done]. exists []. by rewrite app_nil_r.
  - intros a b c [H1 (hs & H2 & Hp & Hf) H3] [K1 (hs' & K2 & Kp & Kf) K3]. split; [congruence| |auto].
    exists (hs ++ hs'). rewrite K2, H2, <-app_assoc. split; [done|]. split; [by eapply histPath_app|by apply Forall_app].
Qed.

(** An operation that appends one line. *)
Lemma evolves_line (e e' : LoopItemLedgerEntry) h :
  id e' = id e → history e' = history e ++ [h] → h_from h = state e → h_to h = state e' → soundLine h →
  (ProvenEntry e → ProvenEntry e') → evolves e e'.
Proof.
  intros H1 H2 H3 H4 Hs Hp. split; [done| |done]. exists [h]. split; [done|]. split; [by rewrite <-H3|by constructor].
Qed.

Lemma unproving e : isRemoteProving (state e) = false → ProvenEntry e.
Proof. intros H Hr. congruence. Qed.

Lemma moves_evolve e e' : entry_moves e e' → evolves e e'.
Proof.
  intros [H1 H2 (hs & H3 & Hp & Hf) H4]. split; [done| |].
  - exists hs. split; [done|]. split; [done|]. eapply Forall_impl; [exact Hf|]. intros h [_ Ha].
    unfold soundLine. by destruct (h_to h).
  - intros He Hr. destruct H2 as [H2|[_ H2]]; [|by destruct (state e')]. rewrite H2, H4 in *. by apply He.
Qed.

(** A turn of reconciliation leads to no state an observation cannot prove. *)
Lemma turn_evolves engine time k e i t : reconcileEntry engine time k e i = Ok t → evolves e (tu_entry t).
Proof.
  intros H. pose proof (turn_proven _ _ _ _ _ _ H) as Hp. pose proof (mk_turn_id _ _ _ _ _ _ H) as Hid.
  destruct (turn_history _ _ _ _ _ _ H) as [[Hs Hh]|(Hl & h & Hh & Hf & Ht & _)].
  { split; [done| |done]. exists []. by rewrite Hh, app_nil_r, Hs. }
  apply (evolves_line _ _ h); try done. destruct (turn_lands _ _ _ _ _ _ H) as (Hsk & Hr & Hd).
  { intros Heq. rewrite Heq in Hh. by apply (f_equal length) in Hh; rewrite length_app in Hh; simpl in Hh; lia. }
  unfold soundLine. rewrite Ht, Hf. split; [|done]. intros Hx. left. auto.
Qed.

(** ** What any operation may do to a run *)

(** A stop that is not mechanical is final.  A mechanical one may give way to
    the deadlock that the siblings it let through ended in, and a [run_fatal] one
    to an operator's resume. *)
Definition stopMoves (o o' : option LoopStopRecord) : Prop :=
  ∀ st, o = Some st → o' = Some st ∨ stop_reason st = RunFatal ∨
    (isMechanicalCompatibilityStopReason (Some (stop_reason_name (stop_reason st))) = true ∧
     ∃ st', o' = Some st' ∧ stop_reason st' = DependencyDeadlock).

#[export] Instance stopMoves_preorder : PreOrder stopMoves.
Proof.
  split; [by intros o st ->; left|]. intros a b c H K st Ha.
  destruct (H st Ha) as [Hb|[Hb|(Hm & st' & Hb & Hd)]]; [by apply K|by right; left|].
  destruct (K st' Hb) as [Hc|[Hr|(Hm' & _)]].
  - right. right. split; [done|]. by exists st'.
  - congruence.
  - by rewrite Hd in Hm'.
Qed.

(** A recovery claim keeps its identity, and once it has left [started] it is at
    most retired. *)
Record claim_moves (a a' : LoopRecoveryAttempt) : Prop := {
  cm_id : ∀ i, attempt_id a = Some i → attempt_id a' = Some i;
  cm_item : att_item_id a' = att_item_id a;
  cm_action : ∀ r, action a = Some r → action a' = Some r;
  cm_outcome : outcome a' = outcome a ∨ outcome a' = OutSuperseded ∨
               (outcome a = OutStarted ∧ (outcome a' = OutRecovered ∨ outcome a' = OutFailed));
}.

#[export] Instance claim_moves_preorder : PreOrder claim_moves.
Proof.
  split; [by intros a; split; auto|]. intros a b c [H1 H2 H3 H4] [K1 K2 K3 K4]. split; auto; [congruence|].
  destruct K4 as [K4|[K4|[K4 K4']]]; [rewrite K4; done|by right; left|].
  destruct H4 as [H4|[H4|[_ [H4|H4]]]]; [|congruence..]. right. right. split; [congruence|done].
Qed.

Definition claimsKept (L L' : list LoopRecoveryAttempt) : Prop :=
  ∀ n a, L !! n = Some a → ∃ a', L' !! n = Some a' ∧ claim_moves a a'.

#[export] Instance claimsKept_preorder : PreOrder claimsKept.
Proof.
  split; [by intros L n a Ha; exists a|]. intros L1 L2 L3 H K n a Ha. destruct (H n a Ha) as (b & Hb & Hab).
  destruct (K n b Hb) as (c & Hc & Hbc). exists c. split; [done|]. by etrans.
Qed.

Lemma grows_kept L L' : grows L L' → claimsKept L L'.
Proof.
  intros H n a Ha. destruct (H n a Ha) as (a' & Ha' & [H1 H2 H3 H4]). exists a'. split; [done|]. split; auto.
  destruct H4; auto.
Qed.

Record LedgerEvolves (l l' : LoopLedger) : Prop := {
  le_keys : okeys (items l') = okeys (items l);
  le_items : ∀ k e, oget (items l) k = Some e → ∃ e', oget (items l') k = Some e' ∧ evolves e e';
  le_stop : stopMoves (stop l) (stop l');
  le_attempts : claimsKept (attemptsOf l) (attemptsOf l');
}.

#[export] Instance LedgerEvolves_preorder : PreOrder LedgerEvolves.
Proof.
  split.
  - intros l. split; try done. intros k e He. exists e. by split.
  - intros a b c [H1 H2 H3 H4] [K1 K2 K3 K4]. split; [congruence| |by etrans..].
    intros k e He. destruct (H2 k e He) as (e1 & He1 & Hm1). destruct (K2 k e1 He1) as (e2 & He2 & Hm2).
    exists e2. split; [done|]. by etrans.
Qed.

Lemma evolves_wf l l' : LedgerEvolves l l' → LedgerWF l → LedgerWF l'.
Proof.
  intros [Hk Hi _ _] [Hnd Hid]. split; [by rewrite Hk|]. intros k e' He'.
  assert (k ∈ okeys (items l)) as Hin by (rewrite <-Hk; apply oget_is_Some; eauto).
  apply oget_is_Some in Hin as [e He]. destruct (Hi k e He) as (e1 & He1 & [Hid1 _ _]).
  rewrite He' in He1. injection He1 as <-. rewrite Hid1. by apply Hid.
Qed.

Lemma keeps_evolves l l' : Keeps l l' → LedgerEvolves l l'.
Proof.
  intros [H1 H2 H3 _ H5]. split; [done| |by left; auto|by apply grows_kept]. intros k e He. destruct (H2 k e He) as (e' & He' & Hm).
  exists e'. split; [done|]. by apply moves_evolve.
Qed.

(** Only the items changed. *)
Lemma items_evolve l l' :
  okeys (items l') = okeys (items l) → stop l' = stop l → recovery_attempts l' = recovery_attempts l →
  (∀ k e, oget (items l) k = Some e → ∃ e', oget (items l') k = Some e' ∧ evolves e e') → LedgerEvolves l l'.
Proof. intros H1 H2 H3 H4. split; [done|done|by rewrite H2|]. unfold attemptsOf. by rewrite H3. Qed.

(** One item changed. *)
Lemma entry_evolves l l' k e e' :
  items l' = oset k e' (items l) → stop l' = stop l → recovery_attempts l' = recovery_attempts l →
  oget (items l) k = Some e → evolves e e' → LedgerEvolves l l'.
Proof.
  intros H1 H2 H3 He Hev. apply items_evolve; rewrite ?H1; try done.
  - apply okeys_oset, oget_is_Some. eauto.
  - intros k0 e0 He0. destruct (decide (k = k0)) as [<-|Hne].
    + exists e'. rewrite oget_oset_eq. simplify_eq. done.
    + exists e0. rewrite oget_oset_ne by done. by split.
Qed.

Record RunEvolves (s s' : RunStore) : Prop := {
  re_contract : run_contract s' = run_contract s;
  re_ledger : LedgerEvolves (run_ledger s) (run_ledger s');
  re_events : lines (run_events s) `prefix_of` lines (run_events s');
  re_decisions : lines (run_decisions s) `prefix_of` lines (run_decisions s');
  (** A generation the store's check rejected was lawful too. *)
  re_rejected : ∃ gs, run_rejected s' = run_rejected s ++ gs ∧ Forall (LedgerEvolves (run_ledger s)) gs;
}.

#[export] Instance RunEvolves_preorder : PreOrder RunEvolves.
Proof.
  split; [intros s; split; try done; exists []; by rewrite app_nil_r|].
  intros a b c [H1 H2 H3 H4 (gs & H5 & H6)] [K1 K2 K3 K4 (gs' & K5 & K6)]. split; [congruence|by etrans..|].
  exists (gs ++ gs'). rewrite K5, H5, app_assoc. split; [done|]. apply Forall_app. split; [done|].
  eapply Forall_impl; [exact K6|]. intros g Hg. by etrans.
Qed.

(** Neither the contract nor a ledger was touched. *)
Lemma quiet_evolves s s' :
  run_contract s' = run_contract s → run_ledger s' = run_ledger s → run_rejected s' = run_rejected s →
  lines (run_events s) `prefix_of` lines (run_events s') → lines (run_decisions s) `prefix_of` lines (run_decisions s') → RunEvolves s s'.
Proof. intros H1 H2 H3 H4 H5. split; [done|by rewrite H2|done|done|]. exists []. by rewrite app_nil_r. Qed.

Section Evolution.
Context (sha256hex : string → string) {dates : IsoDates}.

Lemma normalize_evolves policy l : LedgerEvolves l (normalizeRecoveryLedgerCompatibility sha256hex policy l).
Proof.
  pose proof (normalize_frame sha256hex policy l) as Hf. cbv zeta in Hf. destruct Hf as (Hi & Hs & _).
  split; rewrite ?Hi, ?Hs; [done| |done|].
  - intros k e He. exists e. by split.
  - unfold normalizeRecoveryLedgerCompatibility, attemptsOf. destruct (recovery_attempts l) as [xs|] eqn:E; simpl; [|by rewrite E].
    apply grows_kept, grows_fmap. intros a. unfold normalizeAttempt. etrans; [apply normalizeStarted_same|].
    destruct (rebaseCursor_cases (rebasesLegacyCursor policy) (normalizeStartedRecoveryEpisodeIdentity sha256hex a)) as [-> | ->]; [done|].
    by split; auto.
Qed.

Lemma read_evolves s : LedgerEvolves (run_ledger s) (readLedger sha256hex s).
Proof. apply normalize_evolves. Qed.

(** One write, whether the check accepts it or not. *)
Lemma perform_evolves r t s0 s w s' :
  RunEvolves s0 s → perform sha256hex r t s w = Ok s' → (∀ l, w = WLedger l → LedgerEvolves (run_ledger s0) l) → RunEvolves s0 s'.
Proof.
  intros [H1 H2 H3 H4 (gs & H5 & H6)] H Hw. apply perform_frame in H as (_ & Hc & Hd & He & _ & H). destruct w as [l| | |].
  - pose proof (Hw l eq_refl) as Hl. cbv zeta in H. destruct (passes _ _ _); destruct H as [Ha Hb]; (split; [congruence| |by etrans..|]).
    + rewrite Ha. etrans; [exact Hl|apply normalize_evolves].
    + exists gs. by rewrite Hb.
    + rewrite Ha. etrans; [exact H2|apply read_evolves].
    + eexists. rewrite Hb, H5, <-app_assoc. split; [done|]. apply Forall_app. split; [done|]. constructor; [|done].
      etrans; [exact Hl|apply normalize_evolves].
  - destruct H as [Ha Hb]. split; [congruence|by rewrite Ha|by etrans..|exists gs; by rewrite Hb].
  - destruct H as [Ha Hb]. split; [congruence|by rewrite Ha|by etrans..|exists gs; by rewrite Hb].
  - destruct H as [Ha Hb]. split; [congruence|by rewrite Ha|by etrans..|exists gs; by rewrite Hb].
Qed.

(** A handler cut off anywhere: it is enough that every ledger it meant to write
    evolved from the one it read. *)
Lemma execute_evolves r t s ws n s' :
  (∀ l, WLedger l ∈ ws → LedgerEvolves (run_ledger s) l) →
  execute sha256hex r t s (take n ws) = Ok s' → RunEvolves s s'.
Proof.
  intros Hws H. assert (∀ l, WLedger l ∈ take n ws → LedgerEvolves (run_ledger s) l) as Hn.
  { intros l Hl. apply Hws. eapply elem_of_take in Hl as (i & Hi & _). by apply list_elem_of_lookup_2 in Hi. }
  revert H Hn. generalize (take n ws) as vs. intros vs H Hn.
  assert (∀ s0, RunEvolves s s0 → execute sha256hex r t s0 vs = Ok s' → RunEvolves s s') as Hgen; [|by apply (Hgen s)].
  clear H. unfold execute. induction vs as [|w vs IH]; intros s0 Hs0; simpl; [by intros [= <-]|].
  destruct (perform sha256hex r t s0 w) as [s1|] eqn:E; simpl; [|done]. apply IH.
  { intros l Hl. apply Hn. by right. }
  eapply perform_evolves; [exact Hs0|exact E|]. intros l ->. apply Hn. by left.
Qed.
End Evolution.

(** ** Each operation *)

Section Operations.
Context (sha256hex : string → string) {dates : IsoDates} (mint : string) (toNumber : string → jsnum) (Date_parse : string → option Z).

(** Entering or leaving a hold, which no observation has to prove. *)
Lemma hold_evolves e s req h :
  isRemoteProving s = false → s ≠ Skipped → h_from h = state e → h_to h = s → evolves e (hold_entry e s req h).
Proof.
  intros Hr Hs Hf Ht. apply (evolves_line _ _ h); try done; [|by intros _; apply unproving].
  unfold soundLine. rewrite Ht. split; [done|]. by destruct s.
Qed.

Lemma held_run_evolves s k e e' l' :
  oget (items (run_ledger s)) k = Some e → items l' = oset k e' (items (run_ledger s)) →
  stop l' = stop (opened sha256hex s) → recovery_attempts l' = recovery_attempts (opened sha256hex s) → evolves e e' →
  LedgerEvolves (run_ledger s) l'.
Proof.
  intros He Hi Hs Ha Hev. etrans; [apply (read_evolves sha256hex)|].
  assert (items (readLedger sha256hex s) = items (run_ledger s)) as Hr by apply normalize_frame.
  destruct (pause_upgrade_frame (readLedger sha256hex s)) as (_ & Hst & _ & _ & Hat & _).
  apply (entry_evolves _ _ k e e'); rewrite ?Hr; try done; unfold opened in *; congruence.
Qed.

Lemma invalidate_evolves s runId token i t tl ws next l :
  invalidateIncompleteHoldForReclassify sha256hex mint s runId token i t tl = Ok (ws, next) → WLedger l ∈ ws →
  LedgerEvolves (run_ledger s) l.
Proof.
  intros (e & h & He & _ & _ & Hn & ->)%invalidate_Ok. cbv zeta in Hn.
  rewrite !elem_of_cons, elem_of_nil. intros [?|[[= ->]|[?|[]]]]; [done| |done]. rewrite Hn.
  eapply held_run_evolves; [exact He|done..|]. by apply hold_evolves.
Qed.

Lemma skips_evolve c ext now engine l l' sk : propagateSkips c ext now engine l = Some (l', sk) → LedgerEvolves l l'.
Proof.
  intros H. apply propagate_inv in H as (st & -> & _ & Hinv & _). apply items_evolve; try done; [apply Hinv|].
  intros k e He. destruct (decide (k ∈ skippedItemIds st)) as [Hin|Hni].
  - destruct (si_skipped _ _ _ _ _ Hinv k Hin) as (Hdoom & e0 & e' & He0 & He' & Hr). simplify_eq. exists e'. split; [done|].
    destruct Hr as (it & cause & time & _ & _ & -> & _). eapply evolves_line; try done.
    split; [|done]. intros _. right. simpl.
    assert (Skippable l k) as (st' & Hst' & Hsk) by by destruct Hdoom. unfold state_of in Hst'. rewrite He in Hst'. by injection Hst' as ->.
  - exists e. split; [by rewrite <-He; apply Hinv|done].
Qed.

Lemma pass_evolves d s runId engine time recorded tl ws next :
  reconcile sha256hex mint toNumber Date_parse d s runId engine time recorded tl = Ok (ws, next) →
  LedgerEvolves (run_ledger s) next ∧ ∀ l, WLedger l ∈ ws → l = next.
Proof.
  intros H. split.
  - etrans; [apply (read_evolves sha256hex)|].
    destruct (reconcile_Ok _ _ _ _ _ _ _ _ _ _ _ _ _ H) as (turns & b & Ht & Hit & _ & Hst & Hra & _). cbv zeta in *.
    apply items_evolve; try done; [rewrite Hit; by eapply turned_keys|].
    intros k e He. destruct (pass_item _ _ _ _ _ _ _ _ _ _ _ _ _ _ _ H He) as (i & t & _ & Hre & Hg & _).
    exists (tu_entry t). split; [done|]. by eapply turn_evolves.
  - unfold reconcile in H. cbv zeta in H. inv_bind H. inv_bind H. inv_bind H. injection H as <- <-. intros l Hl.
    rewrite !elem_of_cons in Hl. destruct Hl as [[= ->]|[?|Hl]]; [done|done|]. repeat case_match; set_solver.
Qed.

(** One item of the catch-up. *)
Lemma catchUp_all d engine time op its done out :
  rfold (catchUpItem toNumber d engine time op) done its = Ok out →
  ∃ its', out.1 = done.1 ++ its' ∧ Forall2 (fun p q => q.1 = p.1 ∧ evolves p.2 q.2) its its'.
Proof.
  revert done. induction its as [|p its IH]; intros done; simpl.
  { intros [= <-]. exists []. by rewrite app_nil_r. }
  intros H. inv_bind H. assert (∃ e', x.1 = done.1 ++ [(p.1, e')] ∧ evolves p.2 e') as (e' & Hx & Hev).
  { unfold catchUpItem in E. inv_bind E. destruct (verifiedForwardTarget x0) as [target|] eqn:Et.
    2: { injection E as <-. exists p.2. by destruct p. }
    case_bool_decide; [injection E as <-; exists p.2; by destruct p|].
    case_bool_decide; [injection E as <-; exists p.2; by destruct p|].
    destruct (bool_decide (classifyDrift _ _ _ ≠ _)); [injection E as <-; exists p.2; by destruct p|].
    injection E as <-. eexists. split; [done|]. destruct (target_supported _ _ Et) as [Hs Ht].
    eapply evolves_line; try done.
    - unfold soundLine. simpl. naive_solver.
    - intros _ _. simpl. eauto. }
  destruct (IH _ H) as (its' & Ho & Hf). exists ((p.1, e') :: its'). rewrite Ho, Hx, <-app_assoc. split; [done|].
  by constructor.
Qed.

Lemma catchUp_evolves d s engine time recorded tl ws l :
  resumeRecoveryExhaustedTerminalCatchUp sha256hex mint toNumber Date_parse d s engine time recorded tl = Ok ws →
  WLedger l ∈ ws → LedgerEvolves (run_ledger s) l.
Proof.
  unfold resumeRecoveryExhaustedTerminalCatchUp. cbv zeta. destruct (_ && _); [intros [= <-] H; inversion H|].
  intros H Hl. inv_bind H. apply catchUp_all in E as (its' & Hx & Hf). simpl in Hx.
  assert (l = bindLifecycleForItemTransition Date_parse (with_items (readLedger sha256hex s) x.1)
    (resolveTransitionLogicalOperationId mint (readLedger sha256hex s) None None) recorded
    (existsb (fun r => isObserverSuccessState r.2) x.2)) as ->.
  { destruct x.2 as [|r rs]; injection H as <-; [inversion Hl|]. rewrite elem_of_cons, elem_of_cons in Hl.
    destruct Hl as [[= ->]|[?|Hl]]; [done|done|]. apply list_elem_of_fmap in Hl as (? & ? & _). done. }
  etrans; [apply (read_evolves sha256hex)|]. apply items_evolve; try done; simpl; rewrite Hx.
  - apply (Forall2_keys (fun p q => q.1 = p.1 ∧ evolves p.2 q.2)); [by intros p q [? _]|done].
  - intros k e He. pose proof (Forall2_oget (fun p q => q.1 = p.1 ∧ evolves p.2 q.2) _ _ k ltac:(by intros p q [? _]) Hf) as Hg.
    rewrite He in Hg. destruct Hg as (e' & He' & _ & Hev). eauto.
Qed.

Lemma transition_evolves d c s runId i now proofNow time tl ws next :
  transitionItem sha256hex mint toNumber Date_parse d c s runId i now proofNow time tl = Ok (ws, next) →
  LedgerEvolves (run_ledger s) next ∧ ∀ l, WLedger l ∈ ws → l = next.
Proof.
  intros H. split.
  - destruct (transition_Ok _ _ _ _ _ _ _ _ _ _ _ _ _ _ _ H) as
      ((e & e' & He & He' & Hid & Hfrom & Hto & Hs & Hh & Hp) & Hsib & Hk & Hst & Hra).
    etrans; [apply (read_evolves sha256hex)|]. apply items_evolve; try done. intros k e0 He0.
    destruct (decide (k = tr_itemId i)) as [->|Hne].
    + simplify_eq. exists e'. split; [done|]. eapply evolves_line; try done.
      * unfold soundLine. simpl. split; [done|]. destruct (tr_to i); try done; by destruct Hp as [[|[|]] _].
      * intros _ Hr. rewrite Hs in Hr. rewrite Hr in Hp. destruct Hp as (_ & identity & ? & _ & _ & ? & _). exists identity.
        by rewrite Hs.
    + destruct (Hsib k e0 Hne He0) as (e1 & He1 & Hr). exists e1. split; [done|].
      destruct Hr as [-> |(j & -> & Hj)]; [done|]. split; [done| |by intros _ _; exists j].
      exists []. by rewrite app_nil_r.
  - unfold transitionItem in H. cbv zeta in H. destruct (transitionStopped _ _); [done|].
    destruct (oget _ _); [|done]. case_decide; [done|]. case_decide; [done|]. inv_bind H. injection H as <- <-.
    intros l0 Hl. rewrite !elem_of_cons, elem_of_nil in Hl. destruct Hl as [[= ->]|[?|[]]]; done.
Qed.

(** *** The supervisor's own operations *)

(** Where the supervisor moves an item, no observation has to prove. *)
Definition ownState (s : LoopItemState) : bool := match s with Pending | InProgress | Abandoned => true | _ => false end.

Lemma own_evolves e e' h :
  id e' = id e → history e' = history e ++ [h] → h_from h = state e → h_to h = state e' → ownState (state e') = true →
  evolves e e'.
Proof.
  intros H1 H2 H3 H4 Ho. apply (evolves_line _ _ h); try done.
  - unfold soundLine. rewrite H4. by destruct (state e').
  - intros _. apply unproving. by destruct (state e').
Qed.

Lemma shift_evolves s i from to verb rule h ev t ws next :
  shiftItem sha256hex s i from to verb rule h ev t = Ok (ws, next) → h_from h = from → h_to h = to → ownState to = true →
  ∀ l, WLedger l ∈ ws → LedgerEvolves (run_ledger s) l.
Proof.
  intros (e & He & Hs & Hn & ->)%shift_Ok Hf Ht Ho l. rewrite !elem_of_cons, elem_of_nil. intros [[= ->]|[?|[]]]; [|done].
  etrans; [apply (read_evolves sha256hex)|]. rewrite Hn. eapply entry_evolves; [done..|exact He|].
  apply (own_evolves _ _ h); try done. congruence.
Qed.

Lemma takeover_evolves stringify s i engine holder fp t tl l :
  WLedger l ∈ (takeoverDeadHolderItem sha256hex stringify s i engine holder fp t tl).1 → LedgerEvolves (run_ledger s) l.
Proof.
  unfold takeoverDeadHolderItem. destruct (oget _ i) as [e|] eqn:He; [|by intros ?%elem_of_nil].
  case_decide; [by intros ?%elem_of_nil|]. cbn [fst]. rewrite !elem_of_cons, elem_of_nil. intros [[= ->]|[?|[]]]; [|done].
  etrans; [apply (read_evolves sha256hex)|]. eapply entry_evolves; [done..|exact He|]. by eapply own_evolves.
Qed.

Lemma upgraded_evolves s : LedgerEvolves (run_ledger s) (upgradeLedgerForRecovery sha256hex (readLedger sha256hex s)).
Proof. etrans; [apply (read_evolves sha256hex)|]. apply keeps_evolves, Keeps_upgrade. Qed.

Lemma supersede_advances s i reason select t tl :
  LedgerEvolves (upgradeLedgerForRecovery sha256hex (readLedger sha256hex s))
    (supersedeStartedRecoveryAttempts sha256hex s i reason select t tl).2.
Proof.
  destruct (supersede_rows sha256hex s i reason select t tl) as (Ha & Hi & Hs & _). cbv zeta in *.
  split; rewrite ?Hi, ?Hs; [done| |done|].
  - intros k e He. by exists e.
  - rewrite Ha. intros n a Hn. eexists. rewrite list_lookup_fmap, Hn. split; [done|]. unfold supersedeRow.
    destruct (includes _ _); [|done]. by split; auto.
Qed.

Lemma supersede_evolves s i reason select t tl l :
  WLedger l ∈ (supersedeStartedRecoveryAttempts sha256hex s i reason select t tl).1 → LedgerEvolves (run_ledger s) l.
Proof.
  destruct (supersede_rows sha256hex s i reason select t tl) as (_ & _ & _ & Hw). cbv zeta in *. intros ->%Hw.
  etrans; [apply upgraded_evolves|apply supersede_advances].
Qed.

(** A sweep over items: each ledger it writes evolved from the first. *)
Lemma sweep_evolves (step : list StoreWrite * LoopLedger → string → list StoreWrite * LoopLedger) l0 l ids :
  (∀ ws l i, LedgerEvolves l (step (ws, l) i).2 ∧
     ∀ l', WLedger l' ∈ (step (ws, l) i).1 → WLedger l' ∈ ws ∨ l' = (step (ws, l) i).2) →
  LedgerEvolves l0 l → ∀ l', WLedger l' ∈ (foldl step ([], l) ids).1 → LedgerEvolves l0 l'.
Proof.
  intros Hstep Hl. assert (∀ ws, (∀ l', WLedger l' ∈ ws → LedgerEvolves l0 l') →
    ∀ l', WLedger l' ∈ (foldl step (ws, l) ids).1 → LedgerEvolves l0 l') as Hgen; [|by apply Hgen; intros ? ?%elem_of_nil].
  revert l Hl. induction ids as [|i ids IH]; intros l Hl ws Hws; [done|]. cbn [foldl].
  destruct (Hstep ws l i) as [He Hw]. destruct (step (ws, l) i) as [ws1 l1]. cbn [fst snd] in *.
  apply IH; [by etrans|]. intros l' [?| ->]%Hw; [by apply Hws|by etrans].
Qed.

Lemma expiry_evolves engine t tl l0 l l' :
  LedgerEvolves l0 l → WLedger l' ∈ (invalidateStaleAuthorityHolds engine t tl l).1 → LedgerEvolves l0 l'.
Proof.
  intros Hl. revert l'. unfold invalidateStaleAuthorityHolds. apply sweep_evolves; [|done]. intros ws l1 i. unfold invalidateStep. destruct (oget (items l1) i) as [e|] eqn:He; [|by split; [|left]].
  destruct (negb _); [by split; [|left]|]. cbn [fst snd]. split.
  - eapply entry_evolves; [done..|exact He|]. by eapply own_evolves.
  - intros l2. rewrite elem_of_app, !elem_of_cons, elem_of_nil. intros [?|[[= ->]|[?|[]]]]; auto. done.
Qed.

Lemma reopen_evolves d live engine t tl l0 l l' :
  LedgerEvolves l0 l → WLedger l' ∈ (reopenClearedBlockedHolds toNumber d live engine t tl l).1 → LedgerEvolves l0 l'.
Proof.
  intros Hl. revert l'. unfold reopenClearedBlockedHolds. apply sweep_evolves; [|done]. intros ws l1 i. unfold reopenStep. destruct (observedLabels _ _ _); [|by split; [|left]].
  destruct (isBlockedInLabels _); [by split; [|left]|]. destruct (oget (items l1) i) as [e|] eqn:He; [|by split; [|left]].
  destruct (negb _); [by split; [|left]|]. destruct (live i); cbn [fst snd].
  { split; [done|]. intros x. rewrite elem_of_app, list_elem_of_singleton. by intros [?|?]; [left|]. }
  split.
  - unfold rebindAfterReopen. destruct (lifecycle l1); (eapply entry_evolves; [done..|exact He|]; by eapply own_evolves).
  - intros x. rewrite elem_of_app, !elem_of_cons, elem_of_nil. intros [?|[[= ->]|[?|[]]]]; auto. done.
Qed.

(** Only parts of the ledger no item and no claim depends on changed. *)
Lemma framed_evolves l l' : items l' = items l → stop l' = stop l → recovery_attempts l' = recovery_attempts l → LedgerEvolves l l'.
Proof. intros Hi Hs Ha. apply items_evolve; rewrite ?Hi; try done. intros k e He. by exists e. Qed.

Lemma refresh_evolves c l proved t l' :
  WLedger l' ∈ (admitOrRefreshLifecycle mint c l proved t).1 → LedgerEvolves l l'.
Proof.
  unfold admitOrRefreshLifecycle. case_decide; [by intros ?%elem_of_nil|]. cbn [fst]. rewrite list_elem_of_singleton.
  intros [= ->]. by apply framed_evolves.
Qed.

Lemma cooled_evolves c l st tl l' :
  WLedger l' ∈ (persistCoolingFromCompatibilityStop mint c l st tl).1.1 → LedgerEvolves l l'.
Proof.
  unfold persistCoolingFromCompatibilityStop. destruct (cooling l); cbv zeta; [case_decide; [by intros ?%elem_of_nil|]|];
    cbn [fst]; rewrite ?elem_of_cons, ?elem_of_nil.
  - intros [[= ->]|[]]. by apply framed_evolves.
  - intros [[= ->]|[?|[]]]; [|done]. by apply framed_evolves.
Qed.

Lemma expired_evolves parse l now l' : WLedger l' ∈ (expireCooling parse l now).1 → LedgerEvolves l l'.
Proof.
  unfold expireCooling. destruct (cooling l); [|by intros ?%elem_of_nil]. destruct (coolingIsActive _ _ _); [by intros ?%elem_of_nil|].
  cbn [fst]. rewrite list_elem_of_singleton. intros [= ->]. by apply framed_evolves.
Qed.

(** A stop record replaced under the rules of [stopMoves]. *)
Lemma restop_evolves l o : stopMoves (stop l) o → LedgerEvolves l (with_stop l o).
Proof. intros H. split; try done. intros k e He. by exists e. Qed.

Lemma deadlock_evolves l chain t tl l' :
  hardStopped l = false → WLedger l' ∈ (stopOnDeadlock l chain t tl).1 → LedgerEvolves l l'.
Proof.
  intros Hh. cbn. rewrite !elem_of_cons, elem_of_nil. intros [[= ->]|[?|[]]]; [|done]. apply restop_evolves.
  intros st Hst. right. right. unfold hardStopped in Hh. rewrite Hst in Hh. apply negb_false_iff in Hh. split; [done|]. by eexists.
Qed.

Lemma superseded_stop_evolves s runId tl ws prior l :
  supersedeRunFatalStop sha256hex s runId tl = Ok (ws, prior) → WLedger l ∈ ws → LedgerEvolves (run_ledger s) l.
Proof.
  unfold supersedeRunFatalStop, runFatalStop. intros H. destruct (stop (readLedger sha256hex s)) as [st|] eqn:Hs; [|done]. simpl in H.
  case_decide as Hf; [|done]. injection H as <- <-. rewrite !elem_of_cons, elem_of_nil. intros [[= ->]|[?|[]]]; [|done].
  etrans; [apply (read_evolves sha256hex)|]. apply restop_evolves. rewrite Hs. intros st' [= ->]. by right; left.
Qed.
End Operations.

(** ** The run as a step relation *)

Section Steps.
Context (sha256hex fingerprintEvidence : string → string) {dates : IsoDates} (mint : string) (isoAfter : string → jsnum → string)
  (showNum : jsnum → string) (toNumber : string → jsnum) (Date_parse : string → option Z).

(** The ledger a cycle works on: as it was read, or read and upgraded. *)
Definition currentView (s : RunStore) (l : LoopLedger) : Prop :=
  l = readLedger sha256hex s ∨ l = upgradeLedgerForRecovery sha256hex (readLedger sha256hex s).

Lemma view_evolves s l : currentView s l → LedgerEvolves (run_ledger s) l.
Proof. intros [-> | ->]; [apply read_evolves|apply upgraded_evolves]. Qed.

(** The durable writes an operation of the engine sets out to perform. *)
Inductive issues (s : RunStore) (runId token : string) : list StoreWrite → Prop :=
| by_pause i t tl ws next :
    pauseItem sha256hex mint s runId token i t tl = Ok (ws, next) → issues s runId token ws
| by_wait i req uuid t0 t tl ws next :
    waitItem sha256hex mint showNum s runId token i req uuid t0 t tl = Ok (ws, next) → issues s runId token ws
| by_invalidate i t tl ws next :
    invalidateIncompleteHoldForReclassify sha256hex mint s runId token i t tl = Ok (ws, next) → issues s runId token ws
| by_abandon i t tl ws next :
    abandonHold sha256hex s runId token i t tl = Ok (ws, next) → issues s runId token ws
| by_resume i now t tl ws next :
    resumeHold sha256hex mint showNum Date_parse s runId token i now t tl = Ok (ws, next) → issues s runId token ws
| by_amendment i t tl ws r :
    recordAuthorityAmendment sha256hex showNum s i t tl = Ok (ws, r) → issues s runId token ws
| by_handoff i t tl ws :
    handoffRun sha256hex s runId token i t tl = Ok ws → issues s runId token ws
| by_reconcile d engine time recorded tl ws next :
    reconcile sha256hex mint toNumber Date_parse d s runId engine time recorded tl = Ok (ws, next) → issues s runId token ws
| by_catch_up d engine time recorded tl ws :
    resumeRecoveryExhaustedTerminalCatchUp sha256hex mint toNumber Date_parse d s engine time recorded tl = Ok ws →
    issues s runId token ws
| by_transition d c i now proofNow time tl ws next :
    transitionItem sha256hex mint toNumber Date_parse d c s runId i now proofNow time tl = Ok (ws, next) →
    issues s runId token ws
| by_recovery c l' es :
    handler_step sha256hex fingerprintEvidence mint isoAfter showNum c (readLedger sha256hex s) l' →
    issues s runId token (WLedger l' :: ((fun p => WEvent p.1 (EvRecovery p.2)) <$> es))
| by_propagation c ext now engine l' sk :
    propagateSkips c ext now engine (readLedger sha256hex s) = Some (l', sk) → issues s runId token [WLedger l']
| by_start i engine t tl ws next :
    startItem sha256hex s i engine t tl = Ok (ws, next) → issues s runId token ws
| by_abandon_dispatched i engine t tl ws next :
    abandonInProgressItem sha256hex s i engine t tl = Ok (ws, next) → issues s runId token ws
| by_exclude i engine x t tl ws next :
    excludeInProgressItem sha256hex s i engine x t tl = Ok (ws, next) → issues s runId token ws
| by_revert i engine note ev t tl ws next :
    revertInProgressToPending sha256hex s i engine note ev t tl = Ok (ws, next) → issues s runId token ws
| by_takeover stringify i engine holder fp t tl :
    issues s runId token (takeoverDeadHolderItem sha256hex stringify s i engine holder fp t tl).1
| by_supersede i reason select t tl :
    issues s runId token (supersedeStartedRecoveryAttempts sha256hex s i reason select t tl).1
| by_expiry engine t tl l :
    currentView s l → issues s runId token (invalidateStaleAuthorityHolds engine t tl l).1
| by_reopen d live engine t tl l :
    currentView s l → issues s runId token (reopenClearedBlockedHolds toNumber d live engine t tl l).1
| by_refresh c proved t l :
    currentView s l → issues s runId token (admitOrRefreshLifecycle mint c l proved t).1
| by_stop_cooling c st tl l :
    currentView s l → stop l = Some st → issues s runId token (persistCoolingFromCompatibilityStop mint c l st tl).1.1
| by_cooling_expiry now l :
    currentView s l → issues s runId token (expireCooling Date_parse l now).1
| by_deadlock c ext chain t tl l :
    currentView s l → hardStopped l = false → detectDependencyDeadlock sha256hex c l ext = Ok (Some chain) →
    issues s runId token (stopOnDeadlock l chain t tl).1
| by_run_fatal_resume tl ws prior :
    supersedeRunFatalStop sha256hex s runId tl = Ok (ws, prior) → issues s runId token ws.

(** One step of a run: an operation cut off after [n] of its writes, or the lock
    changing hands. *)
Inductive loop_step (s : RunStore) : RunStore → Prop :=
| step_writes runId token ws n s' :
    issues s runId token ws → execute sha256hex runId token s (take n ws) = Ok s' → loop_step s s'
| step_acquire runId record s' : acquireLock s runId record = Ok s' → loop_step s s'
| step_release runId token s' : releaseLock s runId token = Ok s' → loop_step s s'
| step_recover_lock hostname alive runId reason force time s' :
    recoverLock hostname alive s runId reason force time = Ok s' → loop_step s s'.

Lemma issues_evolve s runId token ws l :
  issues s runId token ws → WLedger l ∈ ws → LedgerEvolves (run_ledger s) l.
Proof.
  intros H. destruct H as [i t tl ws next H|i req uuid t0 t tl ws next H|i t tl ws next H|i t tl ws next H
    |i now t tl ws next H|i t tl ws r H|i t tl ws H|d engine time recorded tl ws next H|d engine time recorded tl ws H
    |d c i now pn time tl ws next H|c l' es H|c ext now engine l' sk H|i engine t tl ws next H|i engine t tl ws next H
    |i engine x t tl ws next H|i engine note ev t tl ws next H|str i engine holder fp t tl|i reason select t tl
    |engine t tl v Hv|d live engine t tl v Hv|c proved t v Hv|c st tl v Hv Hst|now v Hv|c ext chain t tl v Hv Hh _|tl ws prior H].
  - apply enter_Ok in H as (e & k & _ & _ & _ & He & Hs & Hn & ->). cbv zeta in Hn.
    rewrite !elem_of_cons, elem_of_nil. intros [[= ->]|[?|[]]]; [|done]. rewrite Hn.
    eapply held_run_evolves; [exact He|done..|]. by apply hold_evolves.
  - unfold waitItem in H. inv_bind H. apply enter_Ok in H as (e & k & _ & _ & _ & He & Hs & Hn & ->). cbv zeta in Hn.
    rewrite !elem_of_cons, elem_of_nil. intros [[= ->]|[?|[]]]; [|done]. rewrite Hn.
    eapply held_run_evolves; [exact He|done..|]. by apply hold_evolves.
  - intros Hl. by eapply invalidate_evolves.
  - apply abandon_Ok in H as (e & k & _ & _ & _ & He & Hs & Hn & ->). cbv zeta in Hn.
    rewrite !elem_of_cons, elem_of_nil. intros [[= ->]|[?|[]]]; [|done]. rewrite Hn.
    eapply held_run_evolves; [exact He|done..|]. by apply hold_evolves.
  - apply resume_Ok in H as (e & r & k & _ & _ & _ & _ & He & _ & _ & [(_ & _ & g & _ & Hn & ->)|(q & _ & H)]).
    + rewrite !elem_of_cons, elem_of_nil. intros [?|[[= ->]|[?|[]]]]; [done| |done]. cbv zeta in Hn. rewrite Hn.
      eapply held_run_evolves; [exact He|done..|]. by apply hold_evolves.
    + intros Hl. by eapply invalidate_evolves.
  - unfold recordAuthorityAmendment in H. inv_bind H. destruct (nonBlank _); [|done]. injection H as <- <-.
    rewrite !elem_of_cons, elem_of_nil. intros [?|[[= ->]|[]]]; [done|]. etrans; [apply (read_evolves sha256hex)|].
    destruct (pause_upgrade_frame (readLedger sha256hex s)) as (Hi & Hst & _ & _ & Hat & _).
    apply items_evolve; simpl; rewrite ?Hi; [done..|]. intros k e He. by exists e.
  - unfold handoffRun in H. destruct (existsb _ _); [done|]. inv_bind H. case_decide; [done|]. injection H as <-.
    rewrite !elem_of_cons, elem_of_nil. intros [?|[?|[]]]; done.
  - apply pass_evolves in H as [He Hw]. intros Hl. by rewrite (Hw _ Hl).
  - intros Hl. by eapply catchUp_evolves.
  - apply transition_evolves in H as [He Hw]. intros Hl. by rewrite (Hw _ Hl).
  - rewrite elem_of_cons. intros [[= ->]|Hl]; [|by apply list_elem_of_fmap in Hl as (? & ? & _)].
    etrans; [apply (read_evolves sha256hex)|]. apply keeps_evolves. by eapply step_keeps.
  - rewrite list_elem_of_singleton. intros [= ->]. etrans; [apply (read_evolves sha256hex)|]. by eapply skips_evolve.
  - by apply (shift_evolves _ _ _ _ _ _ _ _ _ _ _ _ H).
  - by apply (shift_evolves _ _ _ _ _ _ _ _ _ _ _ _ H).
  - by apply (shift_evolves _ _ _ _ _ _ _ _ _ _ _ _ H).
  - by apply (shift_evolves _ _ _ _ _ _ _ _ _ _ _ _ H).
  - apply takeover_evolves.
  - apply supersede_evolves.
  - by apply expiry_evolves, view_evolves.
  - by apply reopen_evolves, view_evolves.
  - intros Hl. etrans; [by apply view_evolves|]. by eapply refresh_evolves.
  - intros Hl. etrans; [by apply view_evolves|]. by eapply cooled_evolves.
  - intros Hl. etrans; [by apply view_evolves|]. by eapply expired_evolves.
  - intros Hl. etrans; [by apply view_evolves|]. by eapply deadlock_evolves.
  - by eapply superseded_stop_evolves.
Qed.

Lemma step_evolves s s' : loop_step s s' → RunEvolves s s'.
Proof.
  intros [runId token ws n s1 Hi He|runId rec s1 H|runId token s1 H|host alive runId reason force time s1 H].
  - eapply execute_evolves; [|exact He]. intros l. by apply (issues_evolve _ _ _ _ _ Hi).
  - unfold acquireLock in H. destruct (run_lock s); [done|]. injection H as <-. by apply quiet_evolves.
  - unfold releaseLock in H. inv_bind H. injection H as <-. by apply quiet_evolves.
  - unfold recoverLock in H. destruct (run_lock s); [|by injection H as <-]. destruct (_ && _); [done|].
    injection H as <-. apply quiet_evolves; try done. simpl. by apply prefix_app_r.
Qed.

(** What a read gives goes on to pass the store's check. *)
Lemma step_passes s s' :
  loop_step s s' → passes sha256hex (run_contract s) (readLedger sha256hex s) = true →
  passes sha256hex (run_contract s') (readLedger sha256hex s') = true.
Proof.
  intros [runId token ws n s1 Hi He|runId rec s1 H|runId token s1 H|host alive runId reason force time s1 H].
  - by eapply execute_passes.
  - unfold acquireLock in H. destruct (run_lock s); [done|]. by injection H as <-.
  - unfold releaseLock in H. inv_bind H. by injection H as <-.
  - unfold recoverLock in H. destruct (run_lock s); [|by injection H as <-]. destruct (_ && _); [done|]. by injection H as <-.
Qed.

Lemma steps_pass s s' :
  rtc loop_step s s' → passes sha256hex (run_contract s) (readLedger sha256hex s) = true →
  passes sha256hex (run_contract s') (readLedger sha256hex s') = true.
Proof. induction 1 as [s|s1 s2 s3 H _ IH]; [done|]. intros Hp. by eapply IH, step_passes. Qed.

Lemma steps_evolve s s' : rtc loop_step s s' → RunEvolves s s'.
Proof.
  induction 1 as [s|s1 s2 s3 H _ IH]; [done|]. apply step_evolves in H. by etrans.
Qed.
End Steps.

(** A path that ends in a state entered it, or never left its start. *)
Lemma path_enters s hs s' : histPath s hs s' → s' = s ∨ ∃ h, h ∈ hs ∧ h_to h = s' ∧ h_from h ≠ s'.
Proof.
  revert s. induction hs as [|h hs IH]; intros s; simpl; [by left|]. intros [<- H].
  destruct (IH _ H) as [->|(h' & Hin & Ht & Hf)].
  - destruct (decide (h_from h = h_to h)) as [<-|Hne]; [by left|]. right. exists h. split; [left|]. done.
  - right. exists h'. split; [by right|done].
Qed.

(** ** Properties *)

Definition AllProven (l : LoopLedger) : Prop := ∀ k e, oget (items l) k = Some e → ProvenEntry e.

(** A run as it is created. *)
Definition freshRun (s : RunStore) : Prop :=
  ∀ k e, oget (items (run_ledger s)) k = Some e → state e = Pending ∧ history e = [].


(** C2. What the ledger of a run that started fresh says at any later moment:
    an item's history leads from [pending] to its state; it is never [released]
    or [deployed]; it is [skipped] only if dependency propagation took it there
    from [pending] or [blocked]; and a remote state rests on a stored identity
    that supports it. *)
Theorem fresh_run_sound sha fp {dates : IsoDates} mint iso show toNumber parse s s' k e :
  freshRun s → rtc (loop_step sha fp mint iso show toNumber parse) s s' → oget (items (run_ledger s')) k = Some e →
  histPath Pending (history e) (state e) ∧ state e ≠ Released ∧ state e ≠ Deployed ∧
  (state e = Skipped → ∃ h, h ∈ history e ∧ h_to h = Skipped ∧ isSkippable (h_from h) = true) ∧
  (isRemoteProving (state e) = true → ∃ i, last_verified_identity e = Some i ∧ identitySupportsState (state e) i = true).
Proof.
  intros Hf H Hk. apply steps_evolve in H as [_ [Hkeys Hi _ _] _ _ _].
  assert (is_Some (oget (items (run_ledger s)) k)) as [e0 Hk0].
  { apply oget_is_Some. rewrite <-Hkeys. apply oget_is_Some. eauto. }
  destruct (Hi k e0 Hk0) as (e1 & He1 & [_ (hs & Hh & Hp & Hs) Hpr]). simplify_eq. destruct (Hf k e0 Hk0) as [Hs0 Hh0].
  rewrite Hh0, Hs0 in *. simpl in Hh. rewrite Hh. rewrite Forall_forall in Hs. split; [done|].
  pose proof (path_enters _ _ _ Hp) as Hen. split; [|split; [|split]].
  - intros Hx. rewrite Hx in *. destruct Hen as [?|(h & Hin & Ht & _)]; [done|].
    by destruct (Hs h Hin) as (_ & ? & _).
  - intros Hx. rewrite Hx in *. destruct Hen as [?|(h & Hin & Ht & _)]; [done|].
    by destruct (Hs h Hin) as (_ & _ & ?).
  - intros Hx. rewrite Hx in *. destruct Hen as [?|(h & Hin & Ht & Hne)]; [done|]. exists h. split; [done|]. split; [done|].
    by destruct (proj1 (Hs h Hin) Ht).
  - apply Hpr, unproving. by rewrite Hs0.
Qed.

(** ** Witnesses *)

#[local] Existing Instance StoreSample.dates.

Module StepSample.
Definition run0 : RunStore := ReconcileSample.store Pending.
Definition writesOf {A} (r : result LoopError (list StoreWrite * A)) : list StoreWrite :=
  match r with Ok p => p.1 | Err _ => [] end.
Definition ledgerOf (r : result LoopError (list StoreWrite * LoopLedger)) : LoopLedger :=
  match r with Ok p => p.2 | Err _ => run_ledger run0 end.
Definition after (s : RunStore) (ws : list StoreWrite) : RunStore :=
  match execute (fun s => s) "run" "tok" s ws with Ok s' => s' | Err _ => s end.
Definition step : RunStore → RunStore → Prop :=
  loop_step (fun s => s) (fun s => s) "lop-9" (fun t _ => t) (fun _ => "n") ObserveSample.toNumber HoldSample.parse.

(** The item is dispatched, then found merged; the second operation is cut off
    after its ledger write. *)
Definition dispatch : result LoopError (list StoreWrite * LoopLedger) :=
  transitionItem (fun s => s) "lop-9" ObserveSample.toNumber HoldSample.parse ObserveSample.merged ReconcileSample.grants run0 "run"
    (mkTransition "7" Claude InProgress None (Some "lop-1") None) 1000000 1000000 "t1" "t2".
Definition run1 : RunStore := after run0 (writesOf dispatch).
Definition pass : result LoopError (list StoreWrite * LoopLedger) :=
  reconcile (fun s => s) "lop-9" ObserveSample.toNumber HoldSample.parse ObserveSample.merged run1 "run" Claude (fun _ => "t3") "t4" "t5".
Definition run2 : RunStore := after run1 (take 1 (writesOf pass)).

Lemma runs : rtc step run0 run2.
Proof.
  apply rtc_l with run1; [|apply rtc_once].
  - apply step_writes with "run" "tok" (writesOf dispatch) 2; [|by vm_compute].
    apply (by_transition _ _ _ _ _ _ _ _ _ _ ObserveSample.merged ReconcileSample.grants
             (mkTransition "7" Claude InProgress None (Some "lop-1") None) 1000000 1000000 "t1" "t2" _ (ledgerOf dispatch)). by vm_compute.
  - apply step_writes with "run" "tok" (writesOf pass) 1; [|by vm_compute].
    apply (by_reconcile _ _ _ _ _ _ _ _ _ _ ObserveSample.merged Claude (fun _ => "t3") "t4" "t5" _ (ledgerOf pass)). by vm_compute.
Defined.

Definition finished : LoopItemLedgerEntry := default (ReconcileSample.entry Pending) (oget (items (run_ledger run2)) "7").

Lemma start_fresh : freshRun run0.
Proof. intros k e. simpl. case_decide; [by intros [= <-]|done]. Defined.
Lemma run0_wf : LedgerWF (run_ledger run0).
Proof. apply LedgerWF_check; [by apply (bool_decide_unpack _); vm_compute|by vm_compute]. Defined.
End StepSample.


Lemma fresh_run_sound_witness :
  state StepSample.finished = Merged ∧
  ∃ i, last_verified_identity StepSample.finished = Some i ∧ identitySupportsState Merged i = true.
Proof.
  edestruct (fresh_run_sound _ _ _ _ _ _ _ _ _ "7" StepSample.finished StepSample.start_fresh StepSample.runs) as (_ & _ & _ & _ & H);
    [by vm_compute|]. split; [by vm_compute|]. apply H. by vm_compute.
Defined.
