(* ===== verification/Drive.v ===== *)
(** * Driving a run

    [attachSupervisor] and [driveSupervisor] of [core/scripts/loop/supervisor.ts]:
    taking the run lock, the steps a resume takes before the first cycle, the
    cycle loop with its no-progress watchdog and its safety cap, the terminal
    report, and the release of the lock.

    A cycle is any function from the store to the store it leaves and its result
    or error, numbered by the cycle it is: the theorems hold for whatever a cycle
    does to the run, [LoopSteps] says what that can be.  The supervisor's process
    record and the handoff file are written beside the run and read by none of
    this; whether writing them fails is in [ResumeDeps], as is whether the
    documents of the run could be read. *)

From Stdlib Require Import ZArith QArith Qcanon.
From stdpp Require Import numbers base gmap strings list sorting pretty.
From S2P Require Import Prelude LoopTypes Ownership Lifecycle RecoveryPolicy Frontier Dependencies Schedule Precondition Observation TypedRequests RecoveryEpisodes RecoveryHandlers Store Holds Observe Reconcile Supervisor LoopSteps.
Local Open Scope result_scope.
Local Open Scope nat_scope.

(** ** A phase of writes *)

(** The writes in order up to the first that is refused: the store this leaves,
    and the error. *)
Fixpoint performAll (sha256hex : string → string) {dates : IsoDates} (runId token : string) (s : RunStore) (ws : list StoreWrite)
    : RunStore * result LoopError unit :=
  match ws with
  | [] => (s, Ok tt)
  | w :: ws' =>
      match perform sha256hex runId token s w with
      | Ok s' => performAll sha256hex runId token s' ws'
      | Err e => (s, Err e)
      end
  end.

Definition andThen {A B} (m : RunStore * result LoopError A) (k : RunStore → A → RunStore * result LoopError B)
    : RunStore * result LoopError B :=
  match m with
  | (s, Ok a) => k s a
  | (s, Err e) => (s, Err e)
  end.

(** ** Attaching *)

Definition staleness_name (x : LockStaleness) : string :=
  match x with
  | NotStale => "not_stale"
  | StaleSameHostDeadPid => "stale_same_host_dead_pid"
  | UnverifiableCrossHost => "unverifiable_cross_host"
  end.

(** The lock part; [record] is what [acquireLock] writes. *)
Definition takeLock (hostname : string) (isPidAlive : Z → bool) (s : RunStore) (runId : string) (resume : bool)
    (record : LoopLockRecord) (time : string) : result LoopError (RunStore * bool) :=
  match run_lock s with
  | None => try s' := acquireLock s runId record in Ok (s', resume)
  | Some k =>
      if negb resume then
        throw FLock ("loop run " +:+ quoted runId +:+ " is already locked by " +:+ lockHolder k +:+
                     " — use --resume to take over a provably-dead holder")
      else
        let staleness := classifyStaleness hostname isPidAlive k in
        if decide (staleness ≠ StaleSameHostDeadPid) then
          throw FLock ("loop run " +:+ quoted runId +:+ " lock is held by " +:+ lockHolder k +:+
                       " and is not verifiably dead (" +:+ staleness_name staleness +:+ ") — refusing takeover")
        else
          try s1 := recoverLock hostname isPidAlive s runId "supervisor resume: prior holder provably dead" false time in
          try s2 := acquireLock s1 runId record in
          Ok (s2, true)
  end.

(** How the contract and the ledger were read, their schema checked: at once, not
    at all, or only after the lock was taken, since a quarantined generation takes
    the token. *)
Inductive DocumentsRead :=
| ReadAtOnce
| NotRead (e : LoopError)
| ReadUnderLock (again : result LoopError unit).

(** [writeSupervisorProcess]; [io] is how the write ends. *)
Definition writeSupervisorProcess (s : RunStore) (runId token : string) (io : result LoopError unit) : result LoopError unit :=
  try _ := requireToken s runId token in io.

(** [announce] is how the start time of the process was found and its record
    written: past the lock, and not inside a [try]. *)
Definition attachSupervisor (hostname : string) (isPidAlive : Z → bool) (docs : DocumentsRead) (announce : result LoopError unit)
    (s : RunStore) (runId : string) (resume : bool) (record : LoopLockRecord) (time : string) : RunStore * result LoopError bool :=
  let token := lk_token record in
  match docs with
  | NotRead e => (s, Err e)
  | _ =>
      match takeLock hostname isPidAlive s runId resume record time with
      | Err e => (s, Err e)
      | Ok (s1, resumed) =>
          match docs with
          | ReadUnderLock (Err e) => (match releaseLock s1 runId token with Ok s2 => s2 | Err _ => s1 end, Err e)
          | _ =>
              match writeSupervisorProcess s1 runId token announce with
              | Err e => (s1, Err e)
              | Ok _ => (s1, Ok resumed)
              end
          end
      end
  end.

(** ** The cycle loop *)

Record SupervisorCycleResult := mkCycle {
  cr_progress : bool;
  cr_retryAfterMs : option Z;
  cr_stop : option LoopStopRecord;
  cr_cooling : option LoopCoolingRecord;
  cr_holdOutstanding : bool;
  cr_allDone : bool;
  cr_heldItemIds : list string;
}.

(** How the loop was left; the cap is what is left when nothing else was. *)
Inductive DriveEnd :=
| EndStop (st : LoopStopRecord)
| EndCooling (c : LoopCoolingRecord)
| EndHold (heldItemIds : list string)
| EndResolved
| EndPaused
| EndNoProgress (consecutive : nat)
| EndCap.

Definition DEFAULT_CONSECUTIVE_NO_PROGRESS_LIMIT : nat := 5.
Definition MAX_CYCLES_SAFETY : nat := Z.to_nat 10000.

(** An unfinished item whose last reconciliation still advertises an advance. *)
Definition hasAdvanceStillNeeded (c : LoopContract) (l : LoopLedger) : bool :=
  existsb (fun it =>
    match oget (items l) (ci_id it) with
    | None => false
    | Some entry =>
        if isDoneOrAbandoned (state entry) then false
        else if decide ((last_reconciliation l ≫= fun r => oget (rec_next_actions r) (ci_id it)) ≠ Some ActAdvance) then false
        else match oget (observedIdentities l) (ci_id it) with
             | None => true
             | Some identity => isAdvanceStillNeeded identity
             end
    end) (c_items c).

(** The chunks a backoff is slept in: at most a minute, five seconds at a time. *)
Fixpoint sleepChunks (fuel : nat) (remainingMs : Z) : list Z :=
  match fuel with
  | O => []
  | S fuel' =>
      if (remainingMs <=? 0)%Z then []
      else let chunk := Z.min remainingMs 5000 in chunk :: sleepChunks fuel' (remainingMs - chunk)
  end.

Definition recoverySleep (retryAfterMs : Z) : list Z := sleepChunks 12 (Z.min retryAfterMs 60000).

(** What one result makes of the drive: an end, or the new no-progress count. *)
Definition afterCycle (maxCycles : option nat) (cycles consecutive : nat) (r : SupervisorCycleResult) : DriveEnd + nat :=
  let consecutive' := if cr_progress r then 0 else S consecutive in
  match cr_stop r, cr_cooling r with
  | Some st, _ => inl (EndStop st)
  | None, Some c => inl (EndCooling c)
  | None, None =>
      if cr_holdOutstanding r then inl (EndHold (cr_heldItemIds r))
      else if cr_allDone r then inl EndResolved
      else match maxCycles with
      | Some m => if m <=? cycles then inl EndPaused else inr consecutive'
      | None => inr consecutive'
      end
  end.

Section Drive.
Context (sha256hex : string → string) {dates : IsoDates} (mint : string) (isoAfter : string → jsnum → string).
(** [String.prototype.localeCompare] as an order. *)
Context (localeLe : string → string → bool).
Context (cycle : nat → RunStore → RunStore * result LoopError SupervisorCycleResult).

(** [fuel] is [cyclesSafetyCap - cycles]. *)
Fixpoint driveLoop (limit : nat) (maxCycles : option nat) (fuel cycles consecutive : nat) (s : RunStore)
    : RunStore * result LoopError (nat * DriveEnd) :=
  match fuel with
  | O => (s, Ok (cycles, EndCap))
  | S fuel' =>
      let cycles' := S cycles in
      let (s', res) := cycle cycles' s in
      match res with
      | Err e => (s', Err e)
      | Ok r =>
          match afterCycle maxCycles cycles' consecutive r with
          | inl e => (s', Ok (cycles', e))
          | inr consecutive' =>
              if (limit <=? consecutive') && negb (hasAdvanceStillNeeded (run_contract s') (readLedger sha256hex s'))
              then (s', Ok (cycles', EndNoProgress consecutive'))
              else driveLoop limit maxCycles fuel' cycles' consecutive' s'
          end
      end
  end.

(** ** Ending a drive *)

Definition coolingDeadline (time : string) (initial multiplier maximum : Z) (generation : nat) : string :=
  isoAfter time (num (Z.min maximum (initial * multiplier ^ Z.of_nat generation))).

Definition mechanicalCooling (time : string) (initial : Z) (generation : nat) (evidence : string) : LoopCoolingRecord :=
  buildCoolingRecord MechanicalExhaustion time (coolingDeadline time initial 2 900 generation) None None None (Some evidence) None.

(** The owned Cooling that the watchdog or the cap leaves, with its writes. *)
Definition endCooling (e : DriveEnd) (cycles cap : nat) (time : string) : option (LoopCoolingRecord * string) :=
  match e with
  | EndNoProgress n => Some (mechanicalCooling time 30 n "supervisor_no_progress", "supervisor_no_progress")
  | EndCap => Some (mechanicalCooling time 60 cycles "supervisor_cycle_cap", "supervisor_cycle_cap")
  | EndPaused => if cap <=? cycles then Some (mechanicalCooling time 60 cycles "supervisor_cycle_cap", "supervisor_cycle_cap") else None
  | _ => None
  end.

Definition coolingWrites (c : LoopContract) (l : LoopLedger) (record : LoopCoolingRecord) (reason time logTime : string)
    : list StoreWrite :=
  let persisted := persistOwnedCooling sha256hex l record in
  let bound := bindLifecycle mint c (eff_ledger persisted)
        (deriveLifecycleState (mkDerivation [] None (Some reason) true None false None false false false false None)) time in
  WLedger (eff_ledger persisted) :: ((fun e => WEvent logTime (EvRecovery e)) <$> eff_events persisted) ++ [WLedger bound].

Inductive LoopCompletion := AllDoneCompletion | PartialExcluded | NoneDispatchable.

#[export] Instance completion_eq_dec : EqDecision LoopCompletion.
Proof. solve_decision. Defined.

Record DriveSupervisorResult := mkDriveResult {
  dr_cycles : nat;
  dr_stop : option LoopStopRecord;
  dr_cooling : option LoopCoolingRecord;
  dr_holdOutstanding : bool;
  dr_allDone : bool;
  dr_resumed : bool;
  dr_heldItemIds : list string;
  dr_dispatched : nat;
  dr_excludedItemIds : list string;
  dr_exclusionReason : option string;
  dr_completion : option LoopCompletion;
}.

Definition finishedItems (c : LoopContract) (l : LoopLedger) : list LoopContractItem :=
  filter (fun it => from_option isDoneOrAbandoned false (state_of (items l) (ci_id it)) = true) (c_items c).

Definition completionOf (ended : bool) (excluded : list string) (dispatched : nat) : option LoopCompletion :=
  if ended then None
  else match excluded with
  | [] => Some AllDoneCompletion
  | _ => if decide (dispatched = 0) then Some NoneDispatchable else Some PartialExcluded
  end.

Definition driveReport (c : LoopContract) (l : LoopLedger) (e : DriveEnd) (cycles : nat) (resumed : bool)
    (cooled : option LoopCoolingRecord) : DriveSupervisorResult :=
  let exclusions := classifyPreconditionExclusions c l in
  let excluded := js_sort (pe_item_id <$> exclusions) in
  let dispatched := length (finishedItems c l) in
  let stopped := match e with EndStop st => Some st | _ => None end in
  let cooling := match e with EndCooling r => Some r | _ => cooled end in
  let held := match e with EndHold ids => Some ids | _ => None end in
  let completion := completionOf (bool_decide (is_Some stopped ∨ is_Some held ∨ is_Some cooling)) excluded dispatched in
  mkDriveResult cycles stopped cooling (bool_decide (is_Some held)) (bool_decide (completion = Some AllDoneCompletion)) resumed
    (default [] held) dispatched excluded (dominantExclusionReason exclusions) completion.

(** *** The terminal summary *)

Definition byLocale (a b : string * LoopItemState * option string) : Prop := localeLe a.1.1 b.1.1 = true.
#[local] Instance byLocale_dec a b : Decision (byLocale a b).
Proof. unfold byLocale. apply _. Defined.

Definition terminalRevision (l : LoopLedger) (r : DriveSupervisorResult) : TerminalRevision :=
  mkRevision
    (merge_sort byLocale ((fun e => (id e, state e, request_id <$> hold_request e)) <$> ovalues (items l)))
    (dr_heldItemIds r) (dr_excludedItemIds r) (cool_reason <$> dr_cooling r).

Definition completion_name (c : LoopCompletion) : string :=
  match c with
  | AllDoneCompletion => "all_done"
  | PartialExcluded => "partial_excluded"
  | NoneDispatchable => "none_dispatchable"
  end.

Definition isRecorded (revision : TerminalRevision) (event : StoreEvent) : bool :=
  match event with
  | EvRunComplete _ v _ _ _ _ => bool_decide (v = revision)
  | _ => false
  end.

(** Hold, resolution and Cooling leave one summary per terminal state; a stop was
    recorded when it was persisted. *)
Definition summaryWrites (driveId : string) (s : RunStore) (e : DriveEnd) (r : DriveSupervisorResult) (logTime : string)
    : list StoreWrite :=
  let resolved := match e with EndResolved => true | _ => false end in
  if dr_holdOutstanding r || resolved || bool_decide (is_Some (dr_cooling r)) then
    let revision := terminalRevision (readLedger sha256hex s) r in
    if existsb (fun x => isRecorded revision (log_data x)) (lines (run_events s)) then []
    else
      let outcome := match dr_cooling r with
                     | Some _ => "cooling_recovery"
                     | None => if dr_holdOutstanding r then "hold_outstanding" else from_option completion_name "null" (dr_completion r)
                     end in
      [WEvent logTime (EvRunComplete driveId revision outcome (dr_heldItemIds r) (dr_dispatched r) (dr_excludedItemIds r))]
  else [].

(** The Cooling the end of the loop leaves. *)
Definition coolPhase (runId token : string) (cap : nat) (time logTime : string) (s : RunStore) (looped : nat * DriveEnd)
    : RunStore * result LoopError (option LoopCoolingRecord) :=
  match endCooling looped.2 looped.1 cap time with
  | None => (s, Ok None)
  | Some (record, reason) =>
      andThen (performAll sha256hex runId token s (coolingWrites (run_contract s) (readLedger sha256hex s) record reason time logTime))
        (fun s' _ => (s', Ok (Some record)))
  end.

(** From the end of the loop to the report. *)
Definition finishDrive (runId token driveId : string) (cap : nat) (resumed : bool) (time logTime : string) (s1 : RunStore)
    (looped : nat * DriveEnd) : RunStore * result LoopError DriveSupervisorResult :=
  andThen (coolPhase runId token cap time logTime s1 looped) (fun s2 cooled =>
    let r := driveReport (run_contract s2) (readLedger sha256hex s2) looped.2 looped.1 resumed cooled in
    andThen (performAll sha256hex runId token s2 (summaryWrites driveId s2 looped.2 r logTime)) (fun s3 _ => (s3, Ok r))).

(** The body of the [try] from the loop on. *)
Definition driveBody (runId token driveId : string) (limit cap : nat) (maxCycles : option nat) (resumed : bool) (time logTime : string)
    (s : RunStore) : RunStore * result LoopError DriveSupervisorResult :=
  andThen (driveLoop limit maxCycles cap 0 0 s) (finishDrive runId token driveId cap resumed time logTime).

(** [finally { await releaseLock(...) }]. *)
Definition finallyRelease {A} (runId token : string) (out : RunStore * result LoopError A) : RunStore * result LoopError A :=
  match releaseLock out.1 runId token with
  | Ok s' => (s', out.2)
  | Err e => (out.1, Err e)
  end.
End Drive.

(** ** Resuming *)

Record ResumeDeps := mkResumeDeps {
  rd_observe : ObserveDeps;
  (** [observeRecoverySideEffect], [uncertain] where it is not given. *)
  rd_sideEffect : LoopRecoveryAttempt → SideEffectCertainty;
  rd_engine : LoopEngineName;
  (** [record.boot_id]. *)
  rd_driveId : string;
  rd_time : string → string;
  rd_recorded : string;
  rd_logTime : string;
  (** How the documents were read on attaching, and how the contract was read
      after it: its [consecutive_no_progress_limit]. *)
  rd_documents : DocumentsRead;
  rd_contract : result LoopError (option nat);
  (** How the process record is written: on attaching and after each cycle. *)
  rd_announce : result LoopError unit;
  rd_beat : nat → result LoopError unit;
  (** How the handoff file is written and [onRunReady] ends. *)
  rd_handoff : result LoopError unit;
}.

Definition effectWrites {A} (eff : Effect A) (logTime : string) : list StoreWrite :=
  if eff_written eff then WLedger (eff_ledger eff) :: ((fun e => WEvent logTime (EvRecovery e)) <$> eff_events eff) else [].

Section Resume.
Context (sha256hex : string → string) {dates : IsoDates} (mint : string) (isoAfter : string → jsnum → string) (showNum : jsnum → string)
  (toNumber : string → jsnum) (Date_parse : string → option Z) (localeLe : string → string → bool).

Definition isUncertainStarted (a : LoopRecoveryAttempt) : bool :=
  bool_decide (outcome a = OutStarted) && bool_decide (default Uncertain (side_effect_certainty a) = Uncertain).

(** [true]: evidence has to be waited for. *)
Fixpoint settleClaims (d : ResumeDeps) (c : LoopContract) (runId token : string) (started : list LoopRecoveryAttempt) (s : RunStore)
    : RunStore * result LoopError bool :=
  match started with
  | [] => (s, Ok false)
  | a :: rest =>
      match reconcileUncertainClaim (rd_sideEffect d a) with
      | WaitForEvidence => (s, Ok true)
      | Replay => settleClaims d c runId token rest s
      | ReconcileForward =>
          match completeRecoveryAttempt sha256hex mint showNum c (readLedger sha256hex s)
                  (mkComplete runId (att_item_id a) (rd_engine d) (default "undefined" (attempt_id a)) true None) (rd_time d (att_item_id a)) with
          | Err e => (s, Err e)
          | Ok eff =>
              andThen (performAll sha256hex runId token s (effectWrites eff (rd_logTime d)))
                (fun s' _ => settleClaims d c runId token rest s')
          end
      end
  end.

Definition reconcileUncertainStartedClaims (d : ResumeDeps) (runId token : string) (s : RunStore) : RunStore * result LoopError bool :=
  match upgradeContractForRecovery (run_contract s) with
  | Err e => (s, Err e)
  | Ok c =>
      settleClaims d c runId token
        (filter (fun a => isUncertainStarted a = true) (attemptsOf (upgradeLedgerForRecovery sha256hex (readLedger sha256hex s)))) s
  end.

Definition formatRunFatalResumeRefusal (runId : string) (st : LoopStopRecord) (observeError : option string) : string :=
  let details := omap (fun x => x) [(fun t => "theme=" +:+ t) <$> truthy (stop_theme st);
                                    (fun i => "item_id=" +:+ i) <$> truthy (stop_item_id st)] in
  let detailSuffix := match details with [] => "" | _ => " (" +:+ join ", " details +:+ ")" end in
  let why := match truthy observeError with
             | Some e => "live observation failed (" +:+ e +:+ "); refusing to re-drive"
             | None => "no valid outstanding item remains"
             end in
  "loop run " +:+ quoted runId +:+ " is stopped with run_fatal at " +:+ stop_time st +:+ detailSuffix +:+ "; " +:+ why +:+ ". " +:+
  "Inspect with `pipeline loop --resume " +:+ runId +:+ " --audit`. " +:+
  "Start a replacement with `pipeline loop --new-run` for the same selector.".

(** The wait for evidence of an uncertain claim is owned Cooling. *)
Definition uncertainWait (time : string) : LoopCoolingRecord :=
  buildCoolingRecord MechanicalExhaustion time (coolingDeadline isoAfter time 15 2 300 0) None None None None None.

Definition settlePhase (d : ResumeDeps) (runId token : string) (s : RunStore) : RunStore * result LoopError unit :=
  andThen (reconcileUncertainStartedClaims d runId token s) (fun s' wait =>
    if wait : bool then
      performAll sha256hex runId token s'
        (effectWrites (persistOwnedCooling sha256hex (readLedger sha256hex s') (uncertainWait (rd_recorded d))) (rd_logTime d))
    else (s', Ok tt)).

(** What [--resume] makes of the recorded stop. *)
Definition stopPhase (d : ResumeDeps) (runId token : string) (s : RunStore) : RunStore * result LoopError unit :=
  let l := readLedger sha256hex s in
  if decide (stop_reason <$> stop l = Some RunFatal) then
    match evaluateRunFatalResumeEligibility sha256hex toNumber (rd_observe d) s runId with
    | Err e => (s, Err e)
    | Ok (ResumeIneligible st why) => (s, throw FStop (formatRunFatalResumeRefusal runId st why))
    | Ok (ResumeEligible _ _) =>
        match supersedeRunFatalStop sha256hex s runId (rd_logTime d) with
        | Err e => (s, Err e)
        | Ok (ws, _) => performAll sha256hex runId token s ws
        end
    end
  else if bool_decide (stop_reason <$> stop l = Some RecoveryExhausted) || bool_decide (is_Some (cooling l)) then
    match resumeRecoveryExhaustedTerminalCatchUp sha256hex mint toNumber Date_parse (rd_observe d) s (rd_engine d) (rd_time d)
            (rd_recorded d) (rd_logTime d) with
    | Err e => (s, Err e)
    | Ok ws => performAll sha256hex runId token s ws
    end
  else (s, Ok tt).

(** The pass before the first cycle; a stop it throws is left to the cycles. *)
Definition resumeReconcile (d : ResumeDeps) (runId token : string) (s : RunStore) : RunStore * result LoopError unit :=
  match reconcile sha256hex mint toNumber Date_parse (rd_observe d) s runId (rd_engine d) (rd_time d) (rd_recorded d) (rd_logTime d) with
  | Err e => (s, if decide (loopFailureClass e = FStop) then Ok tt else Err e)
  | Ok (ws, _) =>
      match performAll sha256hex runId token s ws with
      | (s', Err e) => (s', if decide (loopFailureClass e = FStop) then Ok tt else Err e)
      | out => out
      end
  end.

(** The resume marker in the action log takes the token. *)
Definition resumePhase (d : ResumeDeps) (runId token : string) (s : RunStore) : RunStore * result LoopError unit :=
  andThen (resumeReconcile d runId token s) (fun s' _ => (s', try _ := requireToken s' runId token in Ok tt)).

Definition skip (s : RunStore) : RunStore * result LoopError unit := (s, Ok tt).

Record DriveSupervisorInput := mkDriveInput {
  di_runId : string;
  di_resume : bool;
  di_limit : option nat;
  di_maxCyclesSafety : option nat;
  di_maxCycles : option nat;
}.

(** A cycle of the loop, with the process record written after it. *)
Definition beating (cycle : nat → RunStore → RunStore * result LoopError SupervisorCycleResult) (runId token : string)
    (beat : nat → result LoopError unit) (n : nat) (s : RunStore) : RunStore * result LoopError SupervisorCycleResult :=
  andThen (cycle n s) (fun s' r => (s', try _ := writeSupervisorProcess s' runId token (beat n) in Ok r)).

(** The body of the [try]. *)
Definition driveAttached (cycle : nat → RunStore → RunStore * result LoopError SupervisorCycleResult) (d : ResumeDeps) (runId token : string)
    (i : DriveSupervisorInput) (limit : nat) (resumed : bool) (s0 : RunStore) : RunStore * result LoopError DriveSupervisorResult :=
  let cap := default MAX_CYCLES_SAFETY (di_maxCyclesSafety i) in
  andThen (if resumed then settlePhase d runId token s0 else skip s0) (fun s1 _ =>
  andThen (if di_resume i then stopPhase d runId token s1 else skip s1) (fun s2 _ =>
  andThen (performAll sha256hex runId token s2 [WEvent (rd_logTime d) (EvDriveStarted (rd_driveId d) (rd_engine d) resumed)]) (fun s3 _ =>
  andThen (s3, try _ := requireToken s3 runId token in rd_handoff d) (fun s4 _ =>
  andThen (if resumed then resumePhase d runId token s4 else skip s4) (fun s5 _ =>
  driveBody sha256hex mint isoAfter localeLe (beating cycle runId token (rd_beat d)) runId token (rd_driveId d) limit cap (di_maxCycles i) resumed
    (rd_recorded d) (rd_logTime d) s5))))).

Definition driveSupervisor (cycle : nat → RunStore → RunStore * result LoopError SupervisorCycleResult) (hostname : string)
    (isPidAlive : Z → bool) (d : ResumeDeps) (record : LoopLockRecord) (i : DriveSupervisorInput) (s : RunStore)
    : RunStore * result LoopError DriveSupervisorResult :=
  let runId := di_runId i in
  let token := lk_token record in
  match attachSupervisor hostname isPidAlive (rd_documents d) (rd_announce d) s runId (di_resume i) record (rd_logTime d) with
  | (s0, Err e) => (s0, Err e)
  | (s0, Ok resumed) =>
      match rd_contract d with
      | Err e => (s0, Err e)
      | Ok fromContract =>
          let limit := default DEFAULT_CONSECUTIVE_NO_PROGRESS_LIMIT (match di_limit i with Some n => Some n | None => fromContract end) in
          finallyRelease runId token (driveAttached cycle d runId token i limit resumed s0)
      end
  end.
End Resume.

(** ** The trace of a drive *)

Section Trace.
Context (sha256hex : string → string) {dates : IsoDates} (cycle : nat → RunStore → RunStore * result LoopError SupervisorCycleResult).
Context (limit : nat) (maxCycles : option nat).

(** The store after [n] cycles, and what cycle [S n] returned. *)
Fixpoint storeAt (s : RunStore) (n : nat) : RunStore :=
  match n with
  | O => s
  | S n' => (cycle n (storeAt s n')).1
  end.
Definition resultAt (s : RunStore) (n : nat) : result LoopError SupervisorCycleResult := (cycle (S n) (storeAt s n)).2.

(** How many cycles in a row, up to the [n]th, made no progress. *)
Fixpoint quietFor (s : RunStore) (n : nat) : nat :=
  match n with
  | O => 0
  | S n' => match resultAt s n' with
            | Ok r => if cr_progress r then 0 else S (quietFor s n')
            | Err _ => 0
            end
  end.

(** What the [S n]th cycle ended the drive with, if it did. *)
Definition verdict (s : RunStore) (n : nat) : option (result LoopError DriveEnd) :=
  match resultAt s n with
  | Err e => Some (Err e)
  | Ok r =>
      match afterCycle maxCycles (S n) (quietFor s n) r with
      | inl e => Some (Ok e)
      | inr q =>
          if (limit <=? q) && negb (hasAdvanceStillNeeded (run_contract (storeAt s (S n))) (readLedger sha256hex (storeAt s (S n))))
          then Some (Ok (EndNoProgress q)) else None
      end
  end.

Definition ended (v : result LoopError DriveEnd) (n : nat) : result LoopError (nat * DriveEnd) :=
  match v with Ok e => Ok (n, e) | Err e => Err e end.

Lemma afterCycle_quiet s n r q :
  resultAt s n = Ok r → afterCycle maxCycles (S n) (quietFor s n) r = inr q → q = quietFor s (S n).
Proof.
  intros Hr. unfold afterCycle. simpl. rewrite Hr. intros H. repeat case_match; simplify_eq; done.
Qed.

Lemma loop_step_trace fuel n s :
  driveLoop sha256hex cycle limit maxCycles (S fuel) n (quietFor s n) (storeAt s n) =
  match verdict s n with
  | Some v => (storeAt s (S n), ended v (S n))
  | None => driveLoop sha256hex cycle limit maxCycles fuel (S n) (quietFor s (S n)) (storeAt s (S n))
  end.
Proof.
  cbn [driveLoop]. unfold verdict, resultAt. change (storeAt s (S n)) with (cycle (S n) (storeAt s n)).1.
  destruct (cycle (S n) (storeAt s n)) as [s' res] eqn:E. cbn [fst snd]. destruct res as [r|e]; [|done].
  destruct (afterCycle maxCycles (S n) (quietFor s n) r) as [e|q] eqn:Ea; [done|].
  assert (resultAt s n = Ok r) as Hr by (unfold resultAt; by rewrite E).
  rewrite <-(afterCycle_quiet s n r q Hr Ea). by destruct (_ && _).
Qed.

Lemma loop_from fuel n s :
  (∃ k v, n ≤ k < n + fuel ∧ verdict s k = Some v ∧ (∀ j, n ≤ j < k → verdict s j = None) ∧
     driveLoop sha256hex cycle limit maxCycles fuel n (quietFor s n) (storeAt s n) = (storeAt s (S k), ended v (S k))) ∨
  ((∀ j, n ≤ j < n + fuel → verdict s j = None) ∧
     driveLoop sha256hex cycle limit maxCycles fuel n (quietFor s n) (storeAt s n) = (storeAt s (n + fuel), Ok (n + fuel, EndCap))).
Proof.
  revert n. induction fuel as [|fuel IH]; intros n.
  { right. split; [lia|]. by rewrite Nat.add_0_r. }
  rewrite loop_step_trace. destruct (verdict s n) as [v|] eqn:Ev.
  { left. exists n, v. split; [lia|]. split; [done|]. split; [lia|done]. }
  destruct (IH (S n)) as [(k & v & Hk & Hv & Hj & ->)|[Hj ->]].
  - left. exists k, v. split; [lia|]. split; [done|]. split; [|done]. intros j Hl.
    destruct (decide (j = n)) as [->|]; [done|]. apply Hj. lia.
  - right. split; [|by rewrite Nat.add_succ_comm]. intros j Hl. destruct (decide (j = n)) as [->|]; [done|]. apply Hj. lia.
Qed.
End Trace.

(** *** What ends a drive *)

(** Some unfinished item was told to advance, and nothing observed since says
    that it need not. *)
Definition AdvanceWaits (c : LoopContract) (l : LoopLedger) : Prop :=
  ∃ it e r, it ∈ c_items c ∧ oget (items l) (ci_id it) = Some e ∧ isDoneOrAbandoned (state e) = false ∧
    last_reconciliation l = Some r ∧ oget (rec_next_actions r) (ci_id it) = Some ActAdvance ∧
    ∀ i, oget (rec_observed r) (ci_id it) = Some i → isAdvanceStillNeeded i = true.

Lemma advance_waits c l : hasAdvanceStillNeeded c l = true ↔ AdvanceWaits c l.
Proof.
  unfold hasAdvanceStillNeeded, AdvanceWaits, observedIdentities. rewrite existsb_elem. split.
  - intros (it & Hin & H). destruct (oget (items l) (ci_id it)) as [e|] eqn:He; [|done]. destruct (isDoneOrAbandoned (state e)) eqn:Hd; [done|].
    case_decide as Hn; [done|]. destruct (last_reconciliation l) as [r|] eqn:Hr; [|done]. exists it, e, r.
    cbn in *. do 5 (split; [done|]). intros i Hi. by rewrite Hi in H.
  - intros (it & e & r & Hin & He & Hd & Hr & Hn & Ho). exists it. split; [done|]. rewrite He, Hd, Hr. cbn. rewrite Hn, decide_False by (intros H; by apply H).
    destruct (oget (rec_observed r) (ci_id it)) as [i|] eqn:Hi; [by apply Ho|done].
Qed.

Section Ends.
Context (cycle : nat → RunStore → RunStore * result LoopError SupervisorCycleResult) (sha256hex : string → string) (limit : nat)
  (maxCycles : option nat).

(** The cycle said nothing final. *)
Definition GoesOn (r : SupervisorCycleResult) : Prop :=
  cr_stop r = None ∧ cr_cooling r = None ∧ cr_holdOutstanding r = false ∧ cr_allDone r = false.

(** What cycle [S n] ends the drive with, in the order of precedence. *)
Inductive EndsAt (s : RunStore) (n : nat) : result LoopError DriveEnd → Prop :=
| ends_error e : resultAt cycle s n = Err e → EndsAt s n (Err e)
| ends_stop r st : resultAt cycle s n = Ok r → cr_stop r = Some st → EndsAt s n (Ok (EndStop st))
| ends_cooling r c : resultAt cycle s n = Ok r → cr_stop r = None → cr_cooling r = Some c → EndsAt s n (Ok (EndCooling c))
| ends_hold r :
    resultAt cycle s n = Ok r → cr_stop r = None → cr_cooling r = None → cr_holdOutstanding r = true →
    EndsAt s n (Ok (EndHold (cr_heldItemIds r)))
| ends_resolved r :
    resultAt cycle s n = Ok r → cr_stop r = None → cr_cooling r = None → cr_holdOutstanding r = false → cr_allDone r = true →
    EndsAt s n (Ok EndResolved)
| ends_paused r m : resultAt cycle s n = Ok r → GoesOn r → maxCycles = Some m → m ≤ n + 1 → EndsAt s n (Ok EndPaused)
| ends_stalled r q :
    resultAt cycle s n = Ok r → GoesOn r → (∀ m, maxCycles = Some m → n + 1 < m) →
    q = quietFor cycle s (n + 1) → limit ≤ q →
    ¬ AdvanceWaits (run_contract (storeAt cycle s (n + 1))) (readLedger sha256hex (storeAt cycle s (n + 1))) →
    EndsAt s n (Ok (EndNoProgress q)).

Lemma verdict_ends s n v : verdict sha256hex cycle limit maxCycles s n = Some v ↔ EndsAt s n v.
Proof.
  unfold verdict. assert (S n = n + 1) as En by lia. destruct (resultAt cycle s n) as [r|e] eqn:Er.
  2: { split; [intros [= <-]; by constructor|]. destruct 1; congruence. }
  unfold afterCycle. split.
  - intros H. destruct (cr_stop r) as [st|] eqn:Es; [injection H as <-; by eapply ends_stop|].
    destruct (cr_cooling r) as [c|] eqn:Ec; [injection H as <-; by eapply ends_cooling|].
    destruct (cr_holdOutstanding r) eqn:Eh; [injection H as <-; by eapply ends_hold|].
    destruct (cr_allDone r) eqn:Ea; [injection H as <-; by eapply ends_resolved|].
    assert (quietFor cycle s (n + 1) = if cr_progress r then 0 else S (quietFor cycle s n)) as Hq by (rewrite <- En; cbn [quietFor]; by rewrite Er).
    assert (∀ m, maxCycles = Some m → m <=? S n = false → n + 1 < m) as Hm by (intros m _ ?%Nat.leb_gt; lia).
    assert (∀ q, (∀ m, maxCycles = Some m → n + 1 < m) → q = quietFor cycle s (n + 1) →
      (if (limit <=? q) && negb (hasAdvanceStillNeeded (run_contract (storeAt cycle s (S n))) (readLedger sha256hex (storeAt cycle s (S n))))
       then Some (Ok (EndNoProgress q)) else None) = Some v → EndsAt s n v) as Hst.
    { intros q Hp Hq' Hv. destruct (limit <=? q) eqn:El; [|done]. destruct (hasAdvanceStillNeeded _ _) eqn:Ead; [done|]. injection Hv as <-.
      eapply ends_stalled; [done|by repeat split|done|done|by apply Nat.leb_le|]. rewrite <- advance_waits, <- En. congruence. }
    destruct maxCycles as [m|] eqn:Emx; [destruct (m <=? S n) eqn:Em|].
    + injection H as <-. eapply ends_paused; [done|by repeat split|done|]. apply Nat.leb_le in Em. lia.
    + refine (Hst _ _ (eq_sym Hq) H). intros m' [= <-]. by apply Hm.
    + by refine (Hst _ _ (eq_sym Hq) H).
  - intros H. destruct H as [e H|r' st H Hs|r' c H Hs Hc|r' H Hs Hc Hh|r' H Hs Hc Hh Ha|r' m H (Hs & Hc & Hh & Ha) Hm Hle|r' q H (Hs & Hc & Hh & Ha) Hm Hq Hl Hadv];
      rewrite Er in H; injection H as <- || done; rewrite ?Hs, ?Hc, ?Hh, ?Ha; try done.
    + rewrite Hm. assert (m <=? S n = true) as -> by (apply Nat.leb_le; lia). done.
    + rewrite <- En in Hq, Hadv. rewrite <- advance_waits, not_true_iff_false in Hadv. cbn [quietFor] in Hq. rewrite Er in Hq. rewrite Hadv.
      assert ((limit <=? q) = true) as Hlq by by apply Nat.leb_le.
      destruct maxCycles as [m|] eqn:Emx; [assert (m <=? S n = false) as -> by (apply Nat.leb_gt; specialize (Hm m eq_refl); lia)|];
        rewrite <- Hq, Hlq; done.
Qed.
End Ends.

(** C15. A drive ends, and at the first cycle that gives it an end: after at most
    the safety cap of cycles the loop returns, with the error the cycle threw, or
    in this order its stop, its Cooling, its hold, its completion, the caller's
    pause once that many cycles were driven, or the watchdog's verdict once the
    limit of cycles in a row made no progress and no item was left to advance; and
    with the cap only when none of the [cap] cycles ended it. *)
Theorem drive_ends_exactly sha cycle limit maxCycles cap s :
  (∃ k v, k < cap ∧ EndsAt cycle sha limit maxCycles s k v ∧
     (∀ j v', j < k → ¬ EndsAt cycle sha limit maxCycles s j v') ∧
     driveLoop sha cycle limit maxCycles cap 0 0 s = (storeAt cycle s (S k), ended v (S k))) ∨
  ((∀ j v, j < cap → ¬ EndsAt cycle sha limit maxCycles s j v) ∧
     driveLoop sha cycle limit maxCycles cap 0 0 s = (storeAt cycle s cap, Ok (cap, EndCap))).
Proof.
  destruct (loop_from sha cycle limit maxCycles cap 0 s) as [(k & v & Hk & Hv & Hj & Hd)|[Hj Hd]]; [left|right].
  - exists k, v. split; [lia|]. split; [by apply verdict_ends|]. split; [|exact Hd]. intros j v' Hl Hv'%verdict_ends. rewrite Hj in Hv' by lia. done.
  - split; [|exact Hd]. intros j v Hl Hv%verdict_ends. rewrite Hj in Hv by lia. done.
Qed.

(** A cycle that neither progressed nor ended anything. *)
Definition idleResult (r : SupervisorCycleResult) : Prop :=
  cr_progress r = false ∧ cr_stop r = None ∧ cr_cooling r = None ∧ cr_holdOutstanding r = false ∧ cr_allDone r = false.

Lemma idle_quiet cycle s k n :
  (∀ j, k ≤ j < k + n → ∃ r, resultAt cycle s j = Ok r ∧ idleResult r) → n ≤ quietFor cycle s (k + n).
Proof.
  induction n as [|n IH]; intros H; [lia|]. rewrite Nat.add_succ_r. cbn [quietFor].
  destruct (H (k + n)) as (r & -> & [-> _]); [lia|]. apply le_n_S, IH. intros j Hj. apply H. lia.
Qed.

(** C16. The watchdog bounds every stall: once [limit] cycles in a row were idle
    and nothing in the last reconciliation still asks for an advance, the drive
    is over, whatever came before. *)
Theorem stall_bounded sha cycle limit cap s k :
  0 < limit → k + limit ≤ cap →
  (∀ j, k ≤ j < k + limit → ∃ r, resultAt cycle s j = Ok r ∧ idleResult r) →
  hasAdvanceStillNeeded (run_contract (storeAt cycle s (k + limit))) (readLedger sha (storeAt cycle s (k + limit))) = false →
  ∃ n out, n ≤ k + limit ∧ driveLoop sha cycle limit None cap 0 0 s = (storeAt cycle s n, out) ∧ out ≠ Ok (cap, EndCap).
Proof.
  intros Hl Hc Hidle Hadv. destruct limit as [|limit']; [lia|]. set (j := k + limit').
  assert (is_Some (verdict sha cycle (S limit') None s j)) as [v Hv].
  { destruct (Hidle j) as (r & Hr & Hp & Hs & Hco & Hh & Ha); [lia|]. unfold verdict. rewrite Hr. unfold afterCycle.
    rewrite Hs, Hco, Hh, Ha, Hp. assert (S j = k + S limit') as -> by lia. rewrite Hadv.
    assert (limit' ≤ quietFor cycle s j) as Hq by (apply idle_quiet; intros i Hi; apply Hidle; lia).
    assert ((S limit' <=? S (quietFor cycle s j)) = true) as -> by (apply Nat.leb_le; lia). by eexists. }
  destruct (loop_from sha cycle (S limit') None cap 0 s) as [(i & w & Hi & Hw & Hn & Hd)|[Hn _]].
  - exists (S i), (ended w (S i)). split; [|split; [exact Hd|]].
    + destruct (decide (j < i)) as [Hlt|]; [|lia]. rewrite Hn in Hv by lia. done.
    + unfold verdict in Hw. destruct (resultAt cycle s i) as [r|]; [|by simplify_eq]. unfold afterCycle in Hw.
      repeat case_match; simplify_eq; done.
  - rewrite Hn in Hv by lia. done.
Qed.

(** ** What a drive does to the run *)

(** What the drive relies on of a cycle: a well-formed run is changed as the
    engine's operations do. *)
Class CycleLaw (cycle : nat → RunStore → RunStore * result LoopError SupervisorCycleResult) : Prop :=
  cycle_evolves : ∀ n s, LedgerWF (run_ledger s) → RunEvolves s (cycle n s).1.

(** Any cycle made of steps of the run is lawful. *)
Lemma run_steps_lawful sha fp {dates : IsoDates} mint iso show toNumber parse cycle :
  (∀ n s, rtc (loop_step sha fp mint iso show toNumber parse) s (cycle n s).1) → CycleLaw cycle.
Proof. intros H n s _. by eapply steps_evolve. Qed.

Lemma evolved_wf s s' : RunEvolves s s' → LedgerWF (run_ledger s) → LedgerWF (run_ledger s').
Proof. intros H. eapply evolves_wf, H. Qed.

Section DriveFacts.
Context (sha256hex : string → string) {dates : IsoDates} (mint : string) (isoAfter : string → jsnum → string) (showNum : jsnum → string)
  (toNumber : string → jsnum) (Date_parse : string → option Z).

Lemma performAll_prefix r t s ws : ∃ n, execute sha256hex r t s (take n ws) = Ok (performAll sha256hex r t s ws).1.
Proof.
  revert s. induction ws as [|w ws IH]; intros s; [by exists 0|]. simpl.
  destruct (perform sha256hex r t s w) as [s'|e] eqn:E; [|by exists 0]. destruct (IH s') as [n Hn]. exists (S n).
  unfold execute in *. simpl. by rewrite E.
Qed.

Lemma performAll_evolves r t s ws :
  (∀ l, WLedger l ∈ ws → LedgerEvolves (run_ledger s) l) → RunEvolves s (performAll sha256hex r t s ws).1.
Proof. intros H. destruct (performAll_prefix r t s ws) as [n Hn]. by eapply execute_evolves. Qed.

Lemma andThen_evolves {A B} s (m : RunStore * result LoopError A) (k : RunStore → A → RunStore * result LoopError B) :
  RunEvolves s m.1 → (∀ s' a, RunEvolves s s' → RunEvolves s (k s' a).1) → RunEvolves s (andThen m k).1.
Proof. destruct m as [s' [a|e]]; simpl; auto. Qed.

Lemma effect_evolves {A} s (eff : Effect A) tl l :
  Keeps (readLedger sha256hex s) (eff_ledger eff) → WLedger l ∈ effectWrites eff tl → LedgerEvolves (run_ledger s) l.
Proof.
  intros Hk. unfold effectWrites. destruct (eff_written eff); [|by intros ?%elem_of_nil].
  intros [Hw|Hw]%elem_of_cons; [|by apply list_elem_of_fmap in Hw as (? & ? & _)]. injection Hw as ->.
  etrans; [apply (read_evolves sha256hex)|]. by apply keeps_evolves.
Qed.

Lemma settleClaims_evolves d c r t started s :
  RunEvolves s (settleClaims sha256hex mint showNum d c r t started s).1.
Proof.
  revert s. induction started as [|a rest IH]; intros s; [done|]. simpl.
  destruct (reconcileUncertainClaim (rd_sideEffect d a)); [|by apply IH|done].
  destruct (completeRecoveryAttempt _ _ _ _ _ _ _) as [eff|e] eqn:E; [|done].
  apply andThen_evolves.
  - apply performAll_evolves. intros l. apply effect_evolves.
    eapply (step_keeps sha256hex (fun x => x) mint isoAfter showNum), step_complete, E.
  - intros s' _ Hs. etrans; [exact Hs|apply IH].
Qed.

Lemma settlePhase_evolves d r t s : RunEvolves s (settlePhase sha256hex mint isoAfter showNum d r t s).1.
Proof.
  apply andThen_evolves.
  - unfold reconcileUncertainStartedClaims. destruct (upgradeContractForRecovery _); [|done]. apply settleClaims_evolves.
  - intros s' [] Hs; [|done]. etrans; [exact Hs|]. apply performAll_evolves. intros l. apply effect_evolves, cooling_keeps.
Qed.

Lemma stopPhase_evolves d r t s : RunEvolves s (stopPhase sha256hex mint toNumber Date_parse d r t s).1.
Proof.
  unfold stopPhase. case_decide.
  - destruct (evaluateRunFatalResumeEligibility _ _ _ _ _) as [[ids st|st why]|e]; [|done..].
    destruct (supersedeRunFatalStop _ _ _ _) as [[ws prior]|e] eqn:E; [|done]. apply performAll_evolves. intros l.
    by eapply superseded_stop_evolves.
  - destruct (_ || _); [|done]. destruct (resumeRecoveryExhaustedTerminalCatchUp _ _ _ _ _ _ _ _ _ _) as [ws|e] eqn:E; [|done].
    apply performAll_evolves. intros l. by eapply catchUp_evolves.
Qed.

Lemma resumeReconcile_evolves d r t s : RunEvolves s (resumeReconcile sha256hex mint toNumber Date_parse d r t s).1.
Proof.
  unfold resumeReconcile. destruct (reconcile _ _ _ _ _ _ _ _ _ _ _) as [[ws next]|e] eqn:E; [|done].
  assert (RunEvolves s (performAll sha256hex r t s ws).1) as H.
  { apply performAll_evolves. intros l Hl. apply pass_evolves in E as [He Hw]. by rewrite (Hw l Hl). }
  by destruct (performAll _ _ _ _ _) as [s' [[]|x]].
Qed.

Context (cycle : nat → RunStore → RunStore * result LoopError SupervisorCycleResult) `{!CycleLaw cycle}.

Lemma loop_evolves limit m fuel n q s : LedgerWF (run_ledger s) → RunEvolves s (driveLoop sha256hex cycle limit m fuel n q s).1.
Proof.
  revert n q s. induction fuel as [|fuel IH]; intros n q s Hwf; [done|]. cbn [driveLoop].
  pose proof (cycle_evolves (S n) s Hwf) as Hc. destruct (cycle (S n) s) as [s' [r|e]]; [|done]. simpl in Hc.
  destruct (afterCycle _ _ _ _); [done|]. destruct (_ && _); [done|]. etrans; [exact Hc|]. apply IH. by eapply evolved_wf.
Qed.

Lemma coolingWrites_evolve c s record reason t tl l :
  WLedger l ∈ coolingWrites sha256hex mint c (readLedger sha256hex s) record reason t tl → LedgerEvolves (run_ledger s) l.
Proof.
  assert (LedgerEvolves (run_ledger s) (eff_ledger (persistOwnedCooling sha256hex (readLedger sha256hex s) record))) as Hp.
  { etrans; [apply (read_evolves sha256hex)|]. apply keeps_evolves, cooling_keeps. }
  unfold coolingWrites. cbv zeta. rewrite elem_of_cons, elem_of_app. intros [Hw|[Hw|Hw]].
  - injection Hw as ->. done.
  - by apply list_elem_of_fmap in Hw as (? & ? & _).
  - apply list_elem_of_singleton in Hw. injection Hw as ->. etrans; [exact Hp|]. by apply framed_evolves.
Qed.

Lemma summary_no_ledger localeLe driveId s e r tl l : WLedger l ∉ summaryWrites sha256hex localeLe driveId s e r tl.
Proof.
  unfold summaryWrites. destruct (_ || _); [|by intros ?%elem_of_nil]. destruct (existsb _ _); [by intros ?%elem_of_nil|].
  by intros ?%list_elem_of_singleton.
Qed.

Lemma body_evolves localeLe r t driveId limit cap m resumed time tl s :
  LedgerWF (run_ledger s) →
  RunEvolves s (driveBody sha256hex mint isoAfter localeLe cycle r t driveId limit cap m resumed time tl s).1.
Proof.
  intros Hwf. apply andThen_evolves; [by apply loop_evolves|]. intros s1 looped Hs. apply andThen_evolves.
  - unfold coolPhase. destruct (endCooling _ _ _ _ _) as [[record reason]|]; [|done]. etrans; [exact Hs|].
    apply andThen_evolves; [|done]. apply performAll_evolves. intros l. apply coolingWrites_evolve.
  - intros s2 cooled H2. apply andThen_evolves; [|done]. etrans; [exact H2|]. apply performAll_evolves. by intros l ?%summary_no_ledger.
Qed.
End DriveFacts.

(** The lock record after a takeover or an acquisition, everything else kept. *)
Definition attachedTo (s : RunStore) (record : LoopLockRecord) (s' : RunStore) : Prop :=
  run_lock s' = Some record ∧ run_contract s' = run_contract s ∧ run_ledger s' = run_ledger s ∧
  run_rejected s' = run_rejected s ∧ run_decisions s' = run_decisions s ∧ lines (run_events s) `prefix_of` lines (run_events s').

Lemma takeLock_exact hostname alive s runId resume record time :
  ((∃ s' resumed, takeLock hostname alive s runId resume record time = Ok (s', resumed)) ↔
   ∀ k, run_lock s = Some k → resume = true ∧ lk_hostname k = hostname ∧ alive (lk_pid k) = false) ∧
  ∀ s' resumed, takeLock hostname alive s runId resume record time = Ok (s', resumed) →
    resumed = resume ∧ attachedTo s record s'.
Proof.
  unfold takeLock, acquireLock, recoverLock. destruct (run_lock s) as [k|] eqn:Hk; simpl.
  - destruct resume; simpl; [|split; [split; [by intros (? & ? & ?)|by intros H; destruct (H k eq_refl)]|done]].
    unfold classifyStaleness. destruct (decide (lk_hostname k ≠ hostname)) as [Hh|Hh]; simpl.
    { split; [split; [by intros (? & ? & ?)|]|done]. intros H. by destruct (H k eq_refl) as (_ & ? & _). }
    apply dec_stable in Hh. destruct (alive (lk_pid k)) eqn:Ha; simpl.
    { split; [split; [by intros (? & ? & ?)|]|done]. intros H. destruct (H k eq_refl) as (_ & _ & ?). congruence. }
    split.
    + split; [by intros _ k' [= <-]|]. intros _. by do 2 eexists.
    + intros s' resumed [= <- <-]. split; [done|]. repeat split. simpl. by apply prefix_app_r.
  - split; [split; [done|intros _; by do 2 eexists]|]. intros s' resumed [= <- <-]. done.
Qed.

Lemma attached_evolves s record s' : attachedTo s record s' → RunEvolves s s'.
Proof. intros (_ & Hc & Hl & Hr & Hd & He). apply quiet_evolves; try done. by rewrite Hd. Qed.

(** The documents could be read, before or under the lock. *)
Definition readable (docs : DocumentsRead) : Prop := match docs with ReadAtOnce => True | NotRead _ => False | ReadUnderLock r => r = Ok tt end.

(** A supervisor attaches exactly when the documents can be read, its process
    record written, and the lock is free or, on a resume, held by a process of this
    host that is dead; a live holder, a holder on another host, and any holder
    without [--resume] refuse it.  Attaching changes the lock and appends the
    recovery event, nothing else. *)
Theorem attach_exact hostname alive docs announce s runId resume record time :
  ((∃ s' resumed, attachSupervisor hostname alive docs announce s runId resume record time = (s', Ok resumed)) ↔
   readable docs ∧ announce = Ok tt ∧ ∀ k, run_lock s = Some k → resume = true ∧ lk_hostname k = hostname ∧ alive (lk_pid k) = false) ∧
  ∀ s' resumed, attachSupervisor hostname alive docs announce s runId resume record time = (s', Ok resumed) →
    resumed = resume ∧ attachedTo s record s'.
Proof.
  destruct (takeLock_exact hostname alive s runId resume record time) as [Hiff Hat]. unfold attachSupervisor.
  destruct (takeLock _ _ _ _ _ _ _) as [[s1 resumed]|e].
  2: { split; [|by destruct docs as [| |[]]]. split; [by intros (? & ? & H); destruct docs as [| |[]]|].
       intros (_ & _ & H). by apply Hiff in H as (? & ? & ?). }
  destruct (Hat s1 resumed eq_refl) as [-> Ha]. assert (∀ k, run_lock s = Some k → _) as Hl by exact (proj1 Hiff ltac:(by do 2 eexists)).
  assert (requireToken s1 runId (lk_token record) = Ok record) as Ht by (apply requireToken_Ok; by destruct Ha).
  unfold writeSupervisorProcess. rewrite Ht. cbn [rbind].
  assert ((∃ s' x, match announce with Ok _ => (s1, Ok resume) | Err e => (s1, Err e) end = (s', Ok x :> result LoopError bool)) ↔ announce = Ok tt) as Hw.
  { destruct announce as [[]|]; split; [done|by do 2 eexists|by intros (? & ? & ?)|done]. }
  destruct docs as [| |[[]|]]; cbn [readable]; rewrite ?Hw.
  all: try (split; [tauto|destruct announce; [|done]; by intros s' x [= <- <-]]).
  - split; [naive_solver|done].
  - split; [split; [by intros (? & ? & ?)|naive_solver]|done].
Qed.


Lemma released_evolves {A} r t s (out : RunStore * result LoopError A) :
  RunEvolves s out.1 → RunEvolves s (finallyRelease r t out).1.
Proof.
  intros H. unfold finallyRelease. destruct (releaseLock out.1 r t) as [s'|e] eqn:E; [|done]. simpl. etrans; [exact H|].
  unfold releaseLock in E. destruct (requireToken out.1 r t); [|done]. simpl in E. injection E as <-. by apply quiet_evolves.
Qed.

Lemma released_lock {A} r t (out : RunStore * result LoopError A) k :
  run_lock (finallyRelease r t out).1 = Some k → lk_token k ≠ t.
Proof.
  unfold finallyRelease, releaseLock. destruct (requireToken out.1 r t) as [k'|e] eqn:E; simpl; [done|].
  intros Hk Ht. assert (requireToken out.1 r t = Ok k) by by apply requireToken_Ok. congruence.
Qed.

Lemma attach_evolves hostname alive docs announce s runId resume record time :
  RunEvolves s (attachSupervisor hostname alive docs announce s runId resume record time).1.
Proof.
  unfold attachSupervisor. destruct docs as [|e|again]; [|done|]; (destruct (takeLock _ _ _ _ _ _ _) as [[s1 resumed]|e] eqn:E; [|done]);
    (destruct (takeLock_exact hostname alive s runId resume record time) as [_ Hat]; destruct (Hat s1 resumed E) as [_ H%attached_evolves]).
  - by destruct (writeSupervisorProcess _ _ _ _).
  - destruct again; [by destruct (writeSupervisorProcess _ _ _ _)|]. cbn [fst]. destruct (releaseLock s1 runId (lk_token record)) as [s2|] eqn:Er; [|done].
    etrans; [exact H|]. unfold releaseLock in Er. destruct (requireToken s1 runId (lk_token record)); [|done]. injection Er as <-. by apply quiet_evolves.
Qed.

#[export] Instance beating_lawful cycle runId token beat : CycleLaw cycle → CycleLaw (beating cycle runId token beat).
Proof.
  intros Hc n s Hwf. unfold beating. pose proof (cycle_evolves n s Hwf) as H. by destruct (cycle n s) as [s' [r|e]].
Qed.

(** Whatever lawful cycles do and wherever the drive fails, the run it leaves
    evolved lawfully from the run it found. *)
Theorem drive_evolves sha {dates : IsoDates} mint iso show toNumber parse localeLe cycle `{!CycleLaw cycle} hostname alive d record i s :
  LedgerWF (run_ledger s) →
  RunEvolves s (driveSupervisor sha mint iso show toNumber parse localeLe cycle hostname alive d record i s).1.
Proof.
  intros Hwf. unfold driveSupervisor.
  pose proof (attach_evolves hostname alive (rd_documents d) (rd_announce d) s (di_runId i) (di_resume i) record (rd_logTime d)) as H0.
  destruct (attachSupervisor _ _ _ _ _ _ _ _ _) as [s0 [resumed|e]]; [|done]. cbn [fst] in H0. destruct (rd_contract d); [|done].
  apply released_evolves. unfold driveAttached.
  apply andThen_evolves; [destruct resumed; [|done]; etrans; [exact H0|apply settlePhase_evolves]|].
  intros s1 _ H1. apply andThen_evolves; [destruct (di_resume i); [|done]; etrans; [exact H1|apply stopPhase_evolves]|].
  intros s2 _ H2. apply andThen_evolves.
  { etrans; [exact H2|]. apply performAll_evolves. by intros l ?%list_elem_of_singleton. }
  intros s3 _ H3. apply andThen_evolves; [done|]. intros s4 _ H4.
  apply andThen_evolves; [destruct resumed; [|done]; unfold resumePhase; apply andThen_evolves; [etrans; [exact H4|apply resumeReconcile_evolves]|done]|].
  intros s5 _ H5. etrans; [exact H5|]. apply body_evolves; [apply _|]. by eapply evolved_wf.
Qed.

(** ** What a drive reports *)

Definition isFinished (l : LoopLedger) (k : string) : bool := from_option isDoneOrAbandoned false (state_of (items l) k).

(** The second law of a cycle: what its [allDone] means. *)
Class AllDoneLaw (sha256hex : string → string)
    (cycle : nat → RunStore → RunStore * result LoopError SupervisorCycleResult) : Prop :=
  all_done_law : ∀ n s s' r it, cycle n s = (s', Ok r) → cr_allDone r = true → it ∈ c_items (run_contract s') →
    isFinished (readLedger sha256hex s') (ci_id it) = true ∨
    ci_id it ∈ pe_item_id <$> classifyPreconditionExclusions (run_contract s') (readLedger sha256hex s').

Lemma completion_None b ex n : completionOf b ex n = None ↔ b = true.
Proof. unfold completionOf. destruct b; [done|]. destruct ex; [done|]. by case_decide. Qed.

Lemma completion_all_done b ex n : completionOf b ex n = Some AllDoneCompletion ↔ b = false ∧ ex = [].
Proof. unfold completionOf. destruct b; [naive_solver|]. destruct ex; [naive_solver|]. case_decide; naive_solver. Qed.

(** The ends that leave owned Cooling behind. *)
Definition cools (e : DriveEnd) : Prop := match e with EndNoProgress _ | EndCap | EndPaused => True | _ => False end.

Lemma performAll_Ok sha {dates : IsoDates} r t s ws s' : performAll sha r t s ws = (s', Ok tt) → execute sha r t s ws = Ok s'.
Proof.
  revert s. induction ws as [|w ws IH]; intros s; simpl; [by intros [= ->]|]. unfold execute. simpl.
  destruct (perform sha r t s w) as [s1|]; [|done]. apply IH.
Qed.

(** The summary leaves contract and ledger alone. *)
Lemma summary_frame sha {dates : IsoDates} r t localeLe driveId s e res tl s' :
  performAll sha r t s (summaryWrites sha localeLe driveId s e res tl) = (s', Ok tt) →
  run_contract s' = run_contract s ∧ run_ledger s' = run_ledger s.
Proof.
  intros H%performAll_Ok. split; [by apply execute_frame in H as (? & _)|]. eapply execute_no_ledger; [|exact H].
  intros [l| | |]; try done. by intros ?%summary_no_ledger.
Qed.

(** A terminal state is summarized once: a later drive that ends in the same one
    records nothing more. *)
Theorem summary_recorded_once sha {dates : IsoDates} r t localeLe driveId driveId' s e res tl tl' s' :
  performAll sha r t s (summaryWrites sha localeLe driveId s e res tl) = (s', Ok tt) →
  summaryWrites sha localeLe driveId' s' e res tl' = [].
Proof.
  intros H. pose proof (summary_frame _ _ _ _ _ _ _ _ _ _ H) as [Hc Hl].
  assert (readLedger sha s' = readLedger sha s) as Hr by (unfold readLedger; by rewrite Hc, Hl).
  unfold summaryWrites in *. destruct (dr_holdOutstanding res || _ || _); [|done]. rewrite Hr.
  destruct (existsb _ (lines (run_events s))) eqn:Ex; [by simpl in H; injection H as <-; rewrite Ex|].
  simpl in H. unfold appendEvent in H. destruct (requireToken s r t); [|done]. simpl in H. injection H as <-. simpl.
  rewrite existsb_app. simpl. rewrite bool_decide_true by done. by rewrite orb_true_r.
Qed.

Lemma finish_Ok sha {dates : IsoDates} mint iso localeLe r t driveId cap resumed time tl s1 n e s' res :
  finishDrive sha mint iso localeLe r t driveId cap resumed time tl s1 (n, e) = (s', Ok res) →
  ∃ s2 cooled, res = driveReport (run_contract s2) (readLedger sha s2) e n resumed cooled ∧
    run_contract s' = run_contract s2 ∧ readLedger sha s' = readLedger sha s2 ∧
    (cooled = None → s2 = s1 ∧ e ≠ EndCap ∧ ∀ q, e ≠ EndNoProgress q) ∧ (is_Some cooled → cools e).
Proof.
  unfold finishDrive. destruct (coolPhase _ _ _ _ _ _ _ _ _ _) as [s2 [cooled|x]] eqn:Ec; cbn [andThen fst snd]; [|done].
  destruct (performAll _ _ _ _ _) as [s3 [[]|x]] eqn:Ep; cbn [andThen]; [|done]. intros [= <- <-].
  apply summary_frame in Ep as [Hc Hl]. exists s2, cooled. split; [done|]. split; [done|].
  split; [unfold readLedger; by rewrite Hc, Hl|]. unfold coolPhase in Ec. cbn [fst snd] in Ec.
  destruct (endCooling iso e n cap time) as [[record reason]|] eqn:Ee.
  - destruct (performAll _ _ _ _ _) as [s4 [[]|x]]; cbn [andThen] in Ec; [|done]. injection Ec as <- <-. split; [done|]. intros _. by destruct e.
  - injection Ec as <- <-. split; [|by intros [? ?]]. intros _. split; [done|]. by destruct e.
Qed.

(** The last cycle of a drive that reports without owned Cooling. *)
Lemma body_end sha {dates : IsoDates} mint iso localeLe cycle r t driveId limit cap m resumed time tl s s' res :
  driveBody sha mint iso localeLe cycle r t driveId limit cap m resumed time tl s = (s', Ok res) →
  ∃ n e s2 cooled, n ≤ cap ∧ res = driveReport (run_contract s2) (readLedger sha s2) e n resumed cooled ∧
    run_contract s' = run_contract s2 ∧ readLedger sha s' = readLedger sha s2 ∧
    (cooled = None → ∃ k r', n = S k ∧ s2 = storeAt cycle s n ∧ resultAt cycle s k = Ok r' ∧
                             afterCycle m n (quietFor cycle s k) r' = inl e) ∧
    (is_Some cooled → cools e).
Proof.
  unfold driveBody. destruct (loop_from sha cycle limit m cap 0 s) as [(k & v & Hk & Hv & _ & Hd)|[_ Hd]];
    cbn [quietFor storeAt] in Hd; rewrite Hd.
  - destruct v as [e|x]; cbn [ended andThen]; [|done]. intros (s2 & cooled & Hr & Hc & Hl & Hn & Hcool)%finish_Ok.
    exists (S k), e, s2, cooled. split; [lia|]. do 3 (split; [done|]). split; [|done]. intros Hnone.
    destruct (Hn Hnone) as (-> & _ & Hq). unfold verdict in Hv. destruct (resultAt cycle s k) as [r'|] eqn:Er; [|done].
    exists k, r'. do 3 (split; [done|]). destruct (afterCycle m (S k) (quietFor cycle s k) r') as [e'|q]; [by injection Hv as ->|].
    destruct (_ && _); [|done]. injection Hv as <-. by destruct (Hq q).
  - cbn [andThen]. intros (s2 & cooled & Hr & Hc & Hl & Hn & Hcool)%finish_Ok. exists (0 + cap), EndCap, s2, cooled.
    split; [done|]. do 3 (split; [done|]). split; [|done]. intros Hnone. by destruct (Hn Hnone) as (_ & ? & _).
Qed.

Lemma report_shape sha {dates : IsoDates} mint iso localeLe cycle r t driveId limit cap m resumed time tl s s' res :
  driveBody sha mint iso localeLe cycle r t driveId limit cap m resumed time tl s = (s', Ok res) →
  dr_cycles res ≤ cap ∧ dr_resumed res = resumed ∧
  (is_Some (dr_stop res) → dr_cooling res = None ∧ dr_holdOutstanding res = false) ∧
  (dr_holdOutstanding res = true → dr_stop res = None ∧ dr_cooling res = None) ∧
  (dr_completion res = None ↔ is_Some (dr_stop res) ∨ dr_holdOutstanding res = true ∨ is_Some (dr_cooling res)).
Proof.
  intros (n & e & s2 & cooled & Hn & -> & _ & _ & _ & Hcool)%body_end. split; [done|]. split; [done|].
  assert (cooled = None ∨ cools e) as Hc by (destruct cooled; [right; apply Hcool; by eexists|by left]).
  split; [|split].
  - destruct e; simpl; intros [? Hs]; try done. by destruct Hc as [->|[]].
  - destruct e; simpl; intros Hs; try done. by destruct Hc as [->|[]].
  - cbn [driveReport dr_completion dr_stop dr_holdOutstanding dr_cooling]. rewrite completion_None, !bool_decide_eq_true. tauto.
Qed.

(** [allDone], unless the caller paused the drive, is only reported when every
    item of the contract is finished in the ledger the drive leaves. *)
Theorem report_honest sha {dates : IsoDates} mint iso localeLe cycle `{!AllDoneLaw sha cycle} r t driveId limit cap resumed time tl s s' res :
  driveBody sha mint iso localeLe cycle r t driveId limit cap None resumed time tl s = (s', Ok res) →
  dr_allDone res = true → ∀ it, it ∈ c_items (run_contract s') → isFinished (readLedger sha s') (ci_id it) = true.
Proof.
  intros (n & e & s2 & cooled & Hn & -> & -> & -> & Hnone & Hcool)%body_end.
  cbn [driveReport dr_allDone]. rewrite bool_decide_eq_true, completion_all_done, bool_decide_eq_false.
    intros [Hnot Hex] it Hin. assert (cooled = None) as ->.
    { destruct cooled as [c|]; [|done]. destruct Hnot. right. right. by destruct e; eexists. }
    destruct (Hnone eq_refl) as (k & r' & -> & -> & Hr & Ha). unfold resultAt in Hr.
    destruct (cycle (S k) (storeAt cycle s k)) as [s3 out] eqn:Ec. simpl in Hr. subst out.
    assert (storeAt cycle s (S k) = s3) as Hs3 by (simpl; by rewrite Ec). rewrite Hs3 in *.
    assert (cr_allDone r' = true) as Hall.
    { unfold afterCycle in Ha. destruct (cr_stop r') as [st|]; [injection Ha as <-; destruct Hnot; left; by eexists|].
      destruct (cr_cooling r') as [c|]; [injection Ha as <-; destruct Hnot; right; right; by eexists|].
      destruct (cr_holdOutstanding r'); [injection Ha as <-; destruct Hnot; right; left; by eexists|]. by destruct (cr_allDone r'). }
    destruct (all_done_law _ _ _ _ it Ec Hall Hin) as [|Hx]; [done|]. exfalso.
    apply js_sort_elem in Hx. rewrite Hex in Hx. by apply elem_of_nil in Hx.
Qed.

(** The drive reached the body of its [try]. *)
Lemma attached_body sha {dates : IsoDates} mint iso show toNumber parse localeLe cycle d runId token i limit resumed s s' res :
  driveAttached sha mint iso show toNumber parse localeLe cycle d runId token i limit resumed s = (s', Ok res) →
  ∃ s5, driveBody sha mint iso localeLe (beating cycle runId token (rd_beat d)) runId token (rd_driveId d) limit
          (default MAX_CYCLES_SAFETY (di_maxCyclesSafety i)) (di_maxCycles i) resumed (rd_recorded d) (rd_logTime d) s5 = (s', Ok res).
Proof.
  unfold driveAttached. destruct (if resumed then _ else _) as [s1 [[]|]]; [|done]. cbn [andThen].
  destruct (if di_resume i then _ else _) as [s2 [[]|]]; [|done]. cbn [andThen]. destruct (performAll _ _ _ _ _) as [s3 [[]|]]; [|done]. cbn [andThen].
  destruct (rbind _ _) as [[]|]; [|done]. cbn [andThen]. destruct (if resumed then _ else _) as [s5 [[]|]]; [|done]. cbn [andThen]. by exists s5.
Qed.

(** C8. Once a drive has attached and read its contract, it never leaves the lock
    it took behind, whatever its cycles do to the run and wherever it fails: on
    every error no lock with its token is left, and a result is only returned with
    the lock free.  The result counts at most the cap of cycles, says whether the
    drive was a resume, reports at most one of a stop, owned Cooling and a hold,
    and a completion exactly when it reports none of them. *)
Theorem drive_releases sha {dates : IsoDates} mint iso show toNumber parse localeLe cycle hostname alive d record i s s0 resumed fromContract :
  attachSupervisor hostname alive (rd_documents d) (rd_announce d) s (di_runId i) (di_resume i) record (rd_logTime d) = (s0, Ok resumed) →
  rd_contract d = Ok fromContract →
  let out := driveSupervisor sha mint iso show toNumber parse localeLe cycle hostname alive d record i s in
  (∀ k, run_lock out.1 = Some k → lk_token k ≠ lk_token record) ∧
  ∀ res, out.2 = Ok res →
    run_lock out.1 = None ∧ dr_cycles res ≤ default MAX_CYCLES_SAFETY (di_maxCyclesSafety i) ∧ dr_resumed res = di_resume i ∧
    (is_Some (dr_stop res) → dr_cooling res = None ∧ dr_holdOutstanding res = false) ∧
    (dr_holdOutstanding res = true → dr_stop res = None ∧ dr_cooling res = None) ∧
    (dr_completion res = None ↔ is_Some (dr_stop res) ∨ dr_holdOutstanding res = true ∨ is_Some (dr_cooling res)).
Proof.
  intros Ha Hc out. subst out. unfold driveSupervisor. rewrite Ha, Hc.
  destruct (attach_exact hostname alive (rd_documents d) (rd_announce d) s (di_runId i) (di_resume i) record (rd_logTime d)) as [_ Hat].
  destruct (Hat s0 resumed Ha) as [-> _]. split; [intros k; apply released_lock|]. intros res Hout. unfold finallyRelease in *.
  destruct (releaseLock _ _ _) as [s2|] eqn:Er; [|done]. cbn [fst snd] in *. split.
  { unfold releaseLock in Er. destruct (requireToken _ _ _); [|done]. by injection Er as <-. }
  destruct (driveAttached _ _ _ _ _ _ _ _ _ _ _ _ _ _ _) as [s' r] eqn:Ed. cbn [snd] in Hout. subst r.
  apply attached_body in Ed as [s5 H]. by apply report_shape in H.
Qed.

(** ** Witnesses *)

#[local] Existing Instance StoreSample.dates.

Module DriveSample.
Definition contract : LoopContract := mkContract "run" None Claude None [FrontierSample.item "7" [] []] None [].
Definition store (st : LoopItemState) (lock : option LoopLockRecord) : RunStore :=
  mkRun contract (FrontierSample.ledger [FrontierSample.entry "7" st None]) lock (mkLogFile [] None) (mkLogFile [] None) [].
Definition sha (s : string) : string := s.
Definition iso (t : string) (_ : jsnum) : string := t.

(** A cycle that does nothing, and one that reports what it sees. *)
Definition idle (n : nat) (s : RunStore) : RunStore * result LoopError SupervisorCycleResult :=
  (s, Ok (mkCycle false None None None false false [])).
Definition look (n : nat) (s : RunStore) : RunStore * result LoopError SupervisorCycleResult :=
  (s, Ok (mkCycle false None None None false
            (forallb (fun it => isFinished (readLedger sha s) (ci_id it)) (c_items (run_contract s))) [])).

#[global] Instance look_law : AllDoneLaw sha look.
Proof. intros n s s' r it [= <- <-] Hd Hin. left. simpl in Hd. rewrite forallb_elem in Hd. by apply Hd. Defined.
#[global] Instance idle_lawful : CycleLaw idle.
Proof. intros n s _. done. Defined.

Definition depsWith (announce : result LoopError unit) : ResumeDeps :=
  mkResumeDeps ObserveSample.merged (fun _ => Uncertain) Claude "boot" (fun _ => "t") "t" "t" ReadAtOnce (Ok None) announce (fun _ => Ok tt) (Ok tt).
Definition deps : ResumeDeps := depsWith (Ok tt).
Definition locale (a b : string) : bool := bool_decide (String.le a b).
Definition record : LoopLockRecord := mkLock Claude 42 "host" "t" "mine" "run" None.
Definition dead : LoopLockRecord := mkLock Claude 41 "host" "t0" "tok" "run" None.
Definition input (resume : bool) : DriveSupervisorInput := mkDriveInput "run" resume (Some 3) (Some 9) None.
Definition drive (lock : option LoopLockRecord) (resume : bool) (pid : Z) : RunStore * result LoopError DriveSupervisorResult :=
  driveSupervisor sha "lop-9" iso (fun _ => "n") ObserveSample.toNumber HoldSample.parse locale idle "host" (fun p => bool_decide (p = pid))
    deps record (input resume) (store Pending lock).
Definition cyclesOf (out : RunStore * result LoopError DriveSupervisorResult) : option nat :=
  match out.2 with Ok r => Some (dr_cycles r) | Err _ => None end.

(** Free, held by a dead process, held by a live one. *)
Example drives :
  cyclesOf (drive None false 0) = Some 3 ∧ cyclesOf (drive (Some dead) true 0) = Some 3 ∧
  cyclesOf (drive (Some dead) true 41) = None ∧ cyclesOf (drive (Some dead) false 0) = None.
Proof. by vm_compute. Qed.

(** A process record that cannot be written leaves the lock behind. *)
Theorem failed_announcement_keeps_the_lock :
  let out := driveSupervisor sha "lop-9" iso (fun _ => "n") ObserveSample.toNumber HoldSample.parse locale idle "host" (fun _ => false)
    (depsWith (throw FValidation "disk full")) record (input false) (store Pending None) in
  run_lock out.1 = Some record ∧ out.2 = throw FValidation "disk full".
Proof. by vm_compute. Qed.

(** A drive the caller pauses reports [all_done] while its item is pending. *)
Theorem paused_drive_reports_all_done :
  match driveBody sha "lop-9" iso locale idle "run" "mine" "boot" 5 10 (Some 1) false "t" "t" (store Pending (Some record)) with
  | (s', Ok r) => dr_allDone r = true ∧ dr_completion r = Some AllDoneCompletion ∧
                  state_of (items (run_ledger s')) "7" = Some Pending
  | _ => False
  end.
Proof. by vm_compute. Qed.
End DriveSample.

Lemma stall_bounded_witness :
  ∃ n out, n ≤ 2 + 3 ∧
    driveLoop DriveSample.sha DriveSample.idle 3 None 9 0 0 (DriveSample.store Pending None) =
      (storeAt DriveSample.idle (DriveSample.store Pending None) n, out) ∧ out ≠ Ok (9, EndCap).
Proof.
  apply (stall_bounded DriveSample.sha DriveSample.idle 3 9 (DriveSample.store Pending None) 2); [lia|lia| |by vm_compute].
  intros j Hj. by eexists.
Defined.

Lemma drive_releases_witness : run_lock (DriveSample.drive (Some DriveSample.dead) true 0).1 ≠ Some DriveSample.record.
Proof.
  set (s := DriveSample.store Pending (Some DriveSample.dead)).
  set (s0 := (attachSupervisor "host" (fun p => bool_decide (p = 0%Z)) ReadAtOnce (Ok tt) s "run" true DriveSample.record "t").1).
  assert (attachSupervisor "host" (fun p => bool_decide (p = 0%Z)) ReadAtOnce (Ok tt) s "run" true DriveSample.record "t" = (s0, Ok true)) as E
    by (vm_compute; reflexivity).
  destruct (drive_releases DriveSample.sha "lop-9" DriveSample.iso (fun _ => "n") ObserveSample.toNumber HoldSample.parse DriveSample.locale DriveSample.idle
    "host" (fun p => bool_decide (p = 0%Z)) DriveSample.deps DriveSample.record (DriveSample.input true) s s0 true None E eq_refl) as [H _].
  intros Hk. exact (H DriveSample.record Hk eq_refl).
Defined.

Lemma report_honest_witness : ∃ s' r,
  driveBody DriveSample.sha "lop-9" DriveSample.iso DriveSample.locale DriveSample.look "run" "mine" "boot" 5 10 None false "t" "t"
    (DriveSample.store Merged (Some DriveSample.record)) = (s', Ok r) ∧ dr_allDone r = true ∧
  isFinished (readLedger DriveSample.sha s') "7" = true.
Proof.
  destruct (driveBody DriveSample.sha "lop-9" DriveSample.iso DriveSample.locale DriveSample.look "run" "mine" "boot" 5 10 None false "t" "t"
    (DriveSample.store Merged (Some DriveSample.record))) as [s' [r|e]] eqn:E.
  - exists s', r. split; [done|]. pose proof (report_honest _ _ _ _ _ _ _ _ _ _ _ _ _ _ _ _ E) as H.
    assert (dr_allDone r = true ∧ c_items (run_contract s') = [FrontierSample.item "7" [] []]) as [Hd Hc].
    { vm_compute in E. injection E as <- <-. done. }
    split; [exact Hd|]. apply (H Hd (FrontierSample.item "7" [] [])). rewrite Hc. by left.
  - exfalso. vm_compute in E. discriminate E.
Defined.
