(* ===== verification/Cycle.v ===== *)
(** * One supervisor cycle

    [runSupervisorCycle] of [core/scripts/loop/supervisor.ts] up to the dispatch
    of its items, composed from the operations of the other files in the order
    the code calls them: admission of the lifecycle, the compatibility stop,
    Cooling, reconciliation, retired claims, dependencies, preconditions, holds,
    recovery, completion, scheduling, the idle verdicts and the guard against a
    live advance.  The execution of one recovery and the dispatch to child
    processes are arguments; [CycleDeps] also holds what the cycle observes and
    the readings of the clock. *)

From Stdlib Require Import ZArith QArith Qcanon.
From stdpp Require Import numbers base gmap strings list pretty.
From S2P Require Import Prelude Regex LoopTypes Ownership Lifecycle RecoveryPolicy Frontier Dependencies Schedule Precondition Observation TypedRequests RecoveryEpisodes Settlement RecoveryHandlers Store Holds StageDiagnostic Applicability Observe Reconcile Supervisor LoopSteps Drive.
Local Open Scope result_scope.
Local Open Scope nat_scope.

(** ** The effects of a cycle *)

Inductive LoopSupervisorAction :=
| ActionReconcile | ActionStartItem | ActionDispatchItem | ActionBlockItem | ActionAbandonItem | ActionResume | ActionStop | ActionNoop
| ActionExcludeItem.

(** [LoopActionEvidence] without its number and time. *)
Record LoopActionEvidence := mkAction {
  ac_item_id : option string;
  ac_action : LoopSupervisorAction;
  ac_outcome : string;
  ac_next_action : option LoopNextAction;
  ac_progress : bool;
}.

(** The run and its action log. *)
Definition World : Type := RunStore * list LoopActionEvidence.

(** A statement of a function that returns an [R] goes on, returns, or throws. *)
Inductive Out (R A : Type) :=
| Next (a : A)
| Return (r : R)
| Throw (e : LoopError).
Arguments Next {R A}.
Arguments Return {R A}.
Arguments Throw {R A}.

Definition Eff (R A : Type) : Type := World → World * Out R A.
Abbreviation Cyc := (Eff SupervisorCycleResult).

Definition next {R A} (a : A) : Eff R A := fun w => (w, Next a).
Definition ends {R A} (r : R) : Eff R A := fun w => (w, Return r).
Definition seqC {R A B} (m : Eff R A) (k : A → Eff R B) : Eff R B :=
  fun w => match m w with
           | (w', Next a) => k a w'
           | (w', Return r) => (w', Return r)
           | (w', Throw e) => (w', Throw e)
           end.

Declare Scope cycle_scope.
Notation "'run' x ':=' m ';' k" := (seqC m (fun x => k)) (at level 200, x name, m at level 100, k at level 200) : cycle_scope.
Notation "'run' ' p ':=' m ';' k" := (seqC m (fun x => match x with p => k end)) (at level 200, p pattern, m at level 100, k at level 200) : cycle_scope.
Notation "m ;; k" := (seqC m (fun _ => k)) : cycle_scope.
Open Scope cycle_scope.

(** A fallible computation, and a statement that may throw. *)
Definition lift {R A} (r : result LoopError A) : Eff R A := fun w => (w, match r with Ok a => Next a | Err e => Throw e end).
Definition theStore {R} : Eff R RunStore := fun w => (w, Next w.1).

(** [for (const x of xs) { acc = f(acc, x) }]. *)
Fixpoint forEach {R A X} (f : A → X → Eff R A) (xs : list X) (acc : A) : Eff R A :=
  match xs with
  | [] => next acc
  | x :: xs' => run a := f acc x; forEach f xs' a
  end.

Record RecoveryExecutionResult := mkRecoveryResult {
  rr_ledger : LoopLedger;
  rr_attempted : bool;
  rr_deferredUntil : option string;
}.

(** What is known when items are dispatched. *)
Record DispatchFrame := mkDispatchFrame {
  df_contract : LoopContract;
  df_ledger : LoopLedger;
  df_progress : bool;
  df_held : list string;
}.

Record CycleDeps := mkCycleDeps {
  cd_observe : ObserveDeps;
  cd_external : ReconcileObserveDeps LoopError;
  cd_engine : LoopEngineName;
  (** The probe for a live advance, before a hold is cleared, before a recovery
      and before a dispatch. *)
  cd_liveAtReopen : string → bool;
  cd_liveAtRecovery : string → bool;
  cd_liveAtDispatch : string → bool;
  (** The advance lock of the item could be taken. *)
  cd_advanceLock : string → bool;
  (** [typedRequestFacts], [new Date(ms).toISOString()] and [new Date()]. *)
  cd_facts : string → string;
  cd_isoOfMs : Z → string;
  cd_clockMs : Z;
  cd_recover : LoopContract → string → World → World * result LoopError RecoveryExecutionResult;
  cd_dispatch : DispatchFrame → list string → World → World * result LoopError SupervisorCycleResult;
  cd_admittedAt : string;
  cd_nowIso : string;
  cd_recorded : string;
  cd_time : string → string;
  cd_skipTime : nat → string;
  cd_logTime : string;
  cd_idleTime : string;
  (** [deps.store.now().getTime()] of the idle branch. *)
  cd_idleMs : Z;
  cd_refreshedAt : string;
  (** [new Date(Math.max(Date.parse(t), now)).toISOString()]. *)
  cd_notBefore : string → string;
}.

Section Cycle.
Context (sha256hex : string → string) {dates : IsoDates} (mint : string) (isoAfter : string → jsnum → string) (showNum : jsnum → string)
  (toNumber : string → jsnum) (Date_parse : string → option Z) (stringify : jval → string) (signals : list string)
  (JSON_parse : string → option jval) (repoName baseBranch : string).
Context (runId token : string) (d : CycleDeps).

Definition writes {R} (ws : list StoreWrite) : Eff R unit :=
  fun w => match performAll sha256hex runId token w.1 ws with
           | (s', Ok _) => ((s', w.2), Next tt)
           | (s', Err e) => ((s', w.2), Throw e)
           end.

Definition event (e : StoreEvent) : Cyc unit := writes [WEvent (cd_logTime d) e].

(** [.catch(() => {})]. *)
Definition quietly {R} (m : Eff R unit) : Eff R unit :=
  fun w => match m w with (w', Throw _) => (w', Next tt) | out => out end.

Definition appendActionEvidence (e : LoopActionEvidence) : Cyc unit :=
  fun w => match requireToken w.1 runId token with
           | Ok _ => ((w.1, w.2 ++ [e]), Next tt)
           | Err x => (w, Throw x)
           end.

Definition noted (item : option string) (a : LoopSupervisorAction) (outcome : string) (next : option LoopNextAction) (progress : bool) : Cyc unit :=
  appendActionEvidence (mkAction item a outcome next progress).

(** ** Stops *)

(** A result without a deadline. *)
Definition cycleReport (progress : bool) (st : option LoopStopRecord) (cool : option LoopCoolingRecord) (hold allDone : bool) (held : list string)
    : SupervisorCycleResult := mkCycle progress None st cool hold allDone held.

Definition cycleResultForCompatibilityStop (c : LoopContract) (l : LoopLedger) (progress : bool) : Cyc unit :=
  match stop l with
  | None => next tt
  | Some st =>
      run sibling := lift (hasContinuableIndependentSibling showNum stringify signals sha256hex JSON_parse repoName baseBranch c l ∅);
      let disposition := supervisorCycleDispositionForStop (Some st) sibling in
      if continueSiblings disposition then next tt
      else if bool_decide (is_Some (disp_cooling disposition)) then
        let '(ws, cooled, record) := persistCoolingFromCompatibilityStop mint c l st (cd_logTime d) in
        writes ws;;
        noted (cool_item_id record) ActionNoop "cooling_recovery" None false;;
        ends (cycleReport progress None (Some record) false false (heldItemIdsFromLedger cooled))
      else
        noted None ActionStop (stop_reason_name (stop_reason st)) None false;;
        ends (cycleReport progress (Some st) None false false (heldItemIdsFromLedger l))
  end.

(** ** Admission *)

Definition admittedState (l : LoopLedger) : RecoveryLifecycleState :=
  lo_state (consultLifecycleRecord (lifecycle l)
    (mkDerivation [] (typed_request_name <$> typedRequestFromOwnedItems (items l)) (stop_reason_name ∘ stop_reason <$> stop l)
       (bool_decide (is_Some (cooling l))) None false None false false false false None)).

Definition admitRun : Cyc (LoopContract * LoopLedger) :=
  run s := theStore;
  run c := lift (upgradeContractForRecovery (run_contract s));
  let (ws, l) := admitOrRefreshLifecycle mint c (readLedger sha256hex s) false (cd_admittedAt d) in
  writes ws;;
  match admittedState l with
  | LSucceeded => ends (cycleReport false None (cooling l) false true (heldItemIdsFromLedger l))
  | LCancelled => ends (cycleReport false (stop l) (cooling l) false false (heldItemIdsFromLedger l))
  | _ =>
      cycleResultForCompatibilityStop c l false;;
      let (ws, l) := expireCooling Date_parse l (cd_nowIso d) in
      writes ws;;
      next (c, l)
  end.

(** ** Reconciliation *)

(** A pass that threw a stop. *)
Definition stoppedPass (c : LoopContract) : Cyc bool :=
  run s := theStore;
  let l := readLedger sha256hex s in
  cycleResultForCompatibilityStop c l false;;
  noted None ActionStop (default "stop" (stop_reason_name ∘ stop_reason <$> stop l)) None false;;
  ends (cycleReport false (stop l) None false false (heldItemIdsFromLedger l)).

Definition catchStop {R} (handler m : Eff R bool) : Eff R bool :=
  fun w => match m w with
           | (w', Throw e) => if decide (loopFailureClass e = FStop) then handler w' else (w', Throw e)
           | out => out
           end.

(** Whether the pass found drift. *)
Definition reconcilePhase (c : LoopContract) : Cyc bool :=
  catchStop (stoppedPass c)
    (run s := theStore;
     run '(ws, l) := lift (reconcile sha256hex mint toNumber Date_parse (cd_observe d) s runId (cd_engine d) (cd_time d) (cd_recorded d) (cd_logTime d));
     writes ws;;
     next (bool_decide (default [] (rec_drift <$> last_reconciliation l) ≠ []))).

(** A claim left open on an item that reconciliation finished. *)
Definition retireStep (l : LoopLedger) (e : LoopItemLedgerEntry) : Cyc LoopLedger :=
  if negb (isDoneOrAbandoned (state e)) then next l
  else if negb (existsb (fun a => bool_decide (att_item_id a = id e) && bool_decide (outcome a = OutStarted)) (attemptsOf l)) then next l
  else
    run s := theStore;
    let (ws, l') := supersedeStartedRecoveryAttempts sha256hex s (id e)
      ("fresh reconciliation superseded recovery with terminal state " +:+ item_state_name (state e)) (fun _ => true)
      (cd_time d (id e)) (cd_logTime d) in
    writes ws;;
    event (EvRecoverySuperseded (id e) (Some (state e)) (last_verified_identity e ≫= pr_number) (truthy (head_sha <$> last_verified_identity e)));;
    next l'.

Definition settlePass (c : LoopContract) : Cyc (bool * LoopLedger) :=
  run drifted := reconcilePhase c;
  run s := theStore;
  let l := upgradeLedgerForRecovery sha256hex (readLedger sha256hex s) in
  cycleResultForCompatibilityStop c l true;;
  run l' := forEach retireStep (ovalues (items l)) l;
  next (drifted, l').

(** ** Dependencies and preconditions *)

Definition dependencyPhase (c : LoopContract) (l : LoopLedger) : Cyc (gmap string ExternalDependencyStatus * bool * LoopLedger) :=
  run ext := lift (computeExternalDependencyStatuses (cd_external d) c);
  match propagateSkips c ext (cd_skipTime d) (cd_engine d) l with
  | Some (l', (_ :: _) as skipped) =>
      writes (WLedger l' :: ((fun i => WEvent (cd_logTime d) (EvItemSkipped i)) <$> skipped));;
      next (ext, true, l')
  | _ => next (ext, false, l)
  end.

Definition excludeStep (l : LoopLedger) (_ : unit) (x : LoopPreconditionExclusion) : Cyc unit :=
  event (EvPreconditionExcluded (pe_item_id x) (pe_required_stage x) (pe_observed_stage x));;
  noted (Some (pe_item_id x)) ActionExcludeItem (formatExclusionReason x)
    (last_reconciliation l ≫= fun r => oget (rec_next_actions r) (pe_item_id x)) false.

(** The excluded items, and the contract without them. *)
Definition preconditionPhase (c : LoopContract) (l : LoopLedger) : Cyc (gset string * LoopContract) :=
  let exclusions := classifyPreconditionExclusions c l in
  let excluded : gset string := list_to_set (pe_item_id <$> exclusions) in
  forEach (excludeStep l) exclusions tt;;
  next (excluded, excludeContractItems c excluded).

(** ** Holds *)

Definition settleNote : string := "in-flight specification-decision hold auto-settled without a human answer".

(** The hold as the request it would be resolved as. *)
Definition holdInput (facts : string) (sha : option string) (request : LoopHumanInputRequest) : ResolveTypedRequestInput :=
  let category := if decide (hold_kind request = "authority-grant") then AuthorityAsk else ProductDecisionAsk in
  mkResolve (match category with AuthorityAsk => "merge-release" | ProductDecisionAsk => "interface-contract" end) (hold_prompt request)
    (Some facts) None (Some category) (Some FromDiagnostic) false None None false sha None None None None None.

Definition reclassifyStep (observed : string → option string) (acc : list StoreWrite * LoopLedger) (itemId : string)
    : list StoreWrite * LoopLedger :=
  let (ws, l) := acc in
  match oget (items l) itemId with
  | None => acc
  | Some current =>
      match hold_request current with
      | None => acc
      | Some request =>
          let sha := match observed (id current) with Some h => Some h | None => authority_candidate_head request end in
          if negb (shouldReleaseAutoSettleableHold (cd_isoOfMs d) (cd_clockMs d) (holdInput (cd_facts d (id current)) sha request)) then acc
          else
            let updated := hold_entry current Pending None
                  (mkHistory (cd_time d (id current)) (state current) Pending (cd_engine d) None None (Some settleNote)) in
            let next := with_items l (oset (id current) updated (items l)) in
            (ws ++ [WLedger next; WEvent (cd_logTime d) (EvHoldAutoSettled (id current))], next)
      end
  end.

Definition inFlightHold (e : LoopItemLedgerEntry) : bool := isHeld (state e) && bool_decide (is_Some (hold_request e)).

Definition reclassifyInFlightHumanHolds (l : LoopLedger) : list StoreWrite * LoopLedger :=
  foldl (reclassifyStep (fun i => head_sha <$> oget (observedIdentities l) i)) ([], l)
    (id <$> filter (fun e => inFlightHold e = true) (ovalues (items l))).

Definition holdPhase (l : LoopLedger) : Cyc LoopLedger :=
  let log (_ : string) := cd_logTime d in
  let (ws1, l1) := invalidateStaleAuthorityHolds (cd_engine d) (cd_time d) log l in
  writes ws1;;
  let (ws2, l2) := reclassifyInFlightHumanHolds l1 in
  writes ws2;;
  let (ws3, l3) := reopenClearedBlockedHolds toNumber (cd_observe d) (cd_liveAtReopen d) (cd_engine d) (cd_time d) log l2 in
  writes ws3;;
  next l3.

(** ** Recovery *)

Record RecoveryPass := mkRecoveryPass {
  rp_ledger : LoopLedger;
  rp_progress : bool;
  rp_deferredUntil : option string;
}.

(** [!a || Date.parse(b) < Date.parse(a)]. *)
Definition earlier (a : option string) (b : string) : bool :=
  match truthy a with
  | None => true
  | Some x => match Date_parse b, Date_parse x with Some tb, Some tx => (tb <? tx)%Z | _, _ => false end
  end.

Definition liftW {R A} (m : World → World * result LoopError A) : Eff R A :=
  fun w => match m w with (w', Ok a) => (w', Next a) | (w', Err e) => (w', Throw e) end.

Definition recoverStep (c : LoopContract) (acc : RecoveryPass) (e : LoopItemLedgerEntry) : Cyc RecoveryPass :=
  if decide (state e ≠ Blocked) then next acc
  else if cd_liveAtRecovery d (id e) || negb (cd_advanceLock d (id e)) then
    quietly (event (EvCoexistenceDeferred (id e)));; next acc
  else
    run r := liftW (cd_recover d c (id e));
    let deferred := match truthy (rr_deferredUntil r) with
                    | Some t => if earlier (rp_deferredUntil acc) t then Some t else rp_deferredUntil acc
                    | None => rp_deferredUntil acc
                    end in
    cycleResultForCompatibilityStop c (rr_ledger r) (rr_attempted r);;
    next (mkRecoveryPass (rr_ledger r) (rp_progress acc || rr_attempted r) deferred).

Definition recoveryPhase (c : LoopContract) (l : LoopLedger) : Cyc RecoveryPass :=
  forEach (recoverStep c) (ovalues (items l)) (mkRecoveryPass l false None).

(** ** Completion *)

Definition isSucceeded (s : LoopItemState) : bool := match s with Ready | Merged | Released | Deployed => true | _ => false end.

Definition stateIs (p : LoopItemState → bool) (l : LoopLedger) (i : string) : bool := from_option p false (state_of (items l) i).

Definition allResolved (c : LoopContract) (l : LoopLedger) (excluded : gset string) : bool :=
  forallb (fun it => stateIs isDoneOrAbandoned l (ci_id it) || bool_decide (ci_id it ∈ excluded)) (c_items c).

Definition completionPhase (c : LoopContract) (l : LoopLedger) (excluded : gset string) (progress : bool) (held : list string) : Cyc unit :=
  if allResolved c l excluded then
    let ws := if forallb (fun it => stateIs isSucceeded l (ci_id it)) (c_items c)
              then (admitOrRefreshLifecycle mint c l true (cd_refreshedAt d)).1 else [] in
    writes ws;;
    noted None ActionNoop (if decide (excluded = ∅) then "all_items_done" else "all_items_done_or_excluded") None progress;;
    ends (cycleReport progress None None false true held)
  else next tt.

(** ** Scheduling *)

Definition startStep (l : LoopLedger) (i : string) : Cyc LoopLedger :=
  run s := theStore;
  run '(ws, l') := lift (startItem sha256hex s i (cd_engine d) (cd_time d i) (cd_logTime d));
  writes ws;; next l'.

Definition schedulePhase (schedulable : LoopContract) (l : LoopLedger) (ext : gmap string ExternalDependencyStatus)
    : Cyc (list string * LoopLedger) :=
  match id <$> filter (fun e => state e = InProgress) (ovalues (items l)) with
  | (_ :: _) as active => next (active, l)
  | [] =>
      run decision := lift (selectSchedulableSet sha256hex schedulable l ext);
      (if decide (rationale decision = []) then next tt else event (EvScheduleEvaluated decision));;
      run l' := forEach startStep (selected decision) l;
      next (selected decision, l')
  end.

(** ** Exhausted strategies *)

(** [parsePersistedRecoveryEvidence]: the diagnostic and the transport pointer. *)
Definition parsePersistedRecoveryEvidence (evidence : option string) : option (jval * jval) :=
  text ← truthy evidence;
  parsed ← JSON_parse text;
  diag ← fieldOf (Some parsed) "diagnostic";
  transport ← fieldOf (Some parsed) "transport";
  if hasField (Some parsed) "schema" "pipeline/loop-recovery-evidence@1" &&
     bool_decide (pj_disposition (projectStageDiagnostic showNum stringify signals (Some diag)) ≠ ProtocolFailure) &&
     isObjectValue (Some transport) &&
     match fieldOf (Some transport) "pipeline_run_id" with Some (JStr _) => true | _ => false end
  then Some (diag, transport) else None.

Definition blockedLines (e : LoopItemLedgerEntry) : list LoopHistoryEntry :=
  filter (fun h => h_to h = Blocked ∧ is_Some (truthy (h_evidence h))) (history e).

Definition persistedRecoveryEvidence (e : LoopItemLedgerEntry) : option (jval * jval) :=
  parsePersistedRecoveryEvidence (last (blockedLines e) ≫= h_evidence).

Definition candidateEpochFromIdentity (identity : option LoopExternalIdentity) : string :=
  match identity with
  | None => ""
  | Some i => default (js_trim (head_sha i)) (truthy (js_trim <$> logical_candidate_epoch i))
  end.

Definition observedCandidateEpoch (e : option LoopItemLedgerEntry) : string := candidateEpochFromIdentity (e ≫= last_verified_identity).

Definition recoveryProgressIdentityForBlockedItem (e : LoopItemLedgerEntry) (cls : DurableBlockerClass)
    (attempts : list LoopRecoveryAttempt) (diag : jval) (epoch : string) : string :=
  let lines := blockedLines e in
  let prior := reverse (take (length lines - 1) lines) in
  recoveryProgressIdentity showNum stringify signals sha256hex
    (mkProgressInput (id e) cls diag ((fun h => fst <$> parsePersistedRecoveryEvidence (h_evidence h)) <$> prior) attempts epoch).

Definition itemCandidateIdentity (e : LoopItemLedgerEntry) (transport : jval) (ordinal : nat) : string :=
  let pr := match last_verified_identity e ≫= pr_number with
            | Some n => pretty n
            | None => match fieldOf (Some transport) "pr_number" with
                      | None | Some JNull => "none"
                      | v => js_StringOf showNum v
                      end
            end in
  join "|" ["repo=" +:+ repoName; "base=" +:+ baseBranch; "pr=" +:+ pr;
            "head=" +:+ default "none" (truthy (js_trim ∘ head_sha <$> last_verified_identity e));
            "advance=" +:+ js_StringOf showNum (fieldOf (Some transport) "pipeline_run_id"); "attempt=" +:+ pretty ordinal].

(** [/\|advance=.*$/i]. *)
Definition ci (s : string) : regex := cat ((fun c => Char (fun x => bool_decide (lower x = c))) <$> chars s).
Definition lineTerminator (c : Ascii.ascii) : bool := let n := Ascii.nat_of_ascii c in (n =? 10) || (n =? 13).
Definition advanceRe : regex := cat [ci "|advance="; Many 0 None (Char (fun c => negb (lineTerminator c))); AtEnd].

Definition episodeKeyFor (e : LoopItemLedgerEntry) (cls : DurableBlockerClass) (attempts : list LoopRecoveryAttempt)
    (evidence : jval * jval) : RecoveryEpisodeKey :=
  mkKey "loop_recovery" (blocker_class_name cls)
    (recoveryEpisodeCandidateEpoch (last_verified_identity e) (replaceAll advanceRe "" (itemCandidateIdentity e evidence.2 0)))
    (recoveryProgressIdentityForBlockedItem e cls attempts evidence.1 (observedCandidateEpoch (Some e))).

(** [x <= 0]. *)
Definition notPositive (x : jsnum) : bool := match x with Fin q => Qle_bool q 0 | NonFinite => false end.

Definition isExhausted (p : RecoveryPolicy) (l : LoopLedger) (e : LoopItemLedgerEntry) : bool :=
  bool_decide (state e = Blocked) &&
  match truthy (blocked_theme e) ≫= asDurableBlockerClass with
  | None => false
  | Some cls =>
      match policyFor p cls with
      | None => false
      | Some policy =>
          if decide (terminal_outcome policy = HumanAuthorityOutcome) then false
          else match persistedRecoveryEvidence e with
          | None => notPositive (default (retry_budget policy) (oget (recovery_budgets_remaining e) (blocker_class_name cls)))
          | Some evidence =>
              let key := episodeKeyFor e cls (attemptsOf l) evidence in
              let episode := default (emptyEpisode sha256hex key (cd_idleTime d)) (resumeEpisodeFromAttempts sha256hex (attemptsOf l) key) in
              if existsb (fun a => bool_decide (att_item_id a = id e) && bool_decide (outcome a = OutStarted) &&
                                   bool_decide (episode_id a = Some (ep_id episode))) (attemptsOf l) then false
              else match selectEligibleRecoveryStrategy (recipes policy) (ep_counts episode) (fun _ => perStrategyBound policy)
                           (recipeApplies showNum stringify signals e cls (Some evidence.1)) (ep_cursor episode)
                           (default 0%Z (repeated_evidence_count e)) (repeated_evidence_limit policy) with
              | StrategiesExhausted _ => true
              | Claim _ _ _ => false
              end
          end
      end
  end.

(** ** Nothing to dispatch *)

(** [deriveLifecycleState({ cooling: true, stopReason: "recovery_exhausted", faultClass: "retry-exhaustion" })]. *)
Definition exhaustedOwnership : LifecycleOwnership :=
  deriveLifecycleState (mkDerivation [] None (Some "recovery_exhausted") true None false None false false false false (Some RetryExhaustion)).

(** [Math.max(1, Date.parse(t) - now)]; not a number sleeps as long as zero. *)
Definition retryAfter (t : string) : Z :=
  match Date_parse t with Some ms => Z.max 1 (ms - cd_idleMs d) | None => 0%Z end.

(** Cooling that still binds the candidate it was recorded for. *)
Definition coolingBinds (l : LoopLedger) (cool : LoopCoolingRecord) : bool :=
  let item := truthy (cool_item_id cool) ≫= oget (items l) in
  let epoch := observedCandidateEpoch item in
  negb (coolingIsStaleForNewCandidateEpoch Date_parse (Some cool) (attemptsOf l) (cool_item_id cool) epoch
          (default epoch (head_sha <$> (item ≫= last_verified_identity)))).

Definition coolingIdle (c : LoopContract) (l : LoopLedger) (recovered : bool) : Cyc unit :=
  match cooling l with
  | None => next tt
  | Some cool =>
      if negb (coolingBinds l cool) then next tt
      else
        let bound := match cool_reason cool with
                     | StrategyCursorExhausted => bindLifecycle mint c l exhaustedOwnership (cd_notBefore d (cool_time cool))
                     | MechanicalExhaustion => l
                     end in
        writes (match cool_reason cool with StrategyCursorExhausted => [WLedger bound] | MechanicalExhaustion => [] end);;
        noted (cool_item_id cool) ActionNoop "cooling_recovery" None recovered;;
        ends (cycleReport recovered None (Some cool) false false (heldItemIdsFromLedger bound))
  end.

Definition exhaustionCooling (p : RecoveryPolicy) (e : LoopItemLedgerEntry) (theme time : string) : LoopCoolingRecord :=
  let backoff_ := match asDurableBlockerClass theme ≫= policyFor p with
                  | Some entry => backoff entry
                  | None => mkBackoff (num 30) (num 2) (num 300)
                  end in
  buildCoolingRecord StrategyCursorExhausted time (isoAfter time (backoffSeconds backoff_ 1)) (Some (id e)) (Some theme)
    (Some (match truthy (Some (observedCandidateEpoch (Some e))) with
           | Some x => x
           | None => default (id e) (truthy (evidence_fingerprint e))
           end)) (Some "recovery_exhausted") None.

Definition exhaustedIdle (c : LoopContract) (l : LoopLedger) (recovered : bool) : Cyc unit :=
  run p := lift (compileRecoveryPolicy (recovery_policy c));
  match list_find (fun e => isExhausted p l e = true) (ovalues (items l)) with
  | None => next tt
  | Some (_, e) =>
      match truthy (blocked_theme e) with
      | None => next tt
      | Some theme =>
          let cool := exhaustionCooling p e theme (cd_idleTime d) in
          run s := theStore;
          let eff := persistOwnedCooling sha256hex (readLedger sha256hex s) cool in
          writes (effectWrites eff (cd_logTime d));;
          let bound := bindLifecycle mint c (eff_ledger eff) exhaustedOwnership (cd_idleTime d) in
          writes [WLedger bound];;
          ends (cycleReport recovered None (Some cool) false false (heldItemIdsFromLedger bound))
      end
  end.

Definition deadlockIdle (schedulable : LoopContract) (l : LoopLedger) (ext : gmap string ExternalDependencyStatus) (held : list string)
    : Cyc unit :=
  run chain := lift (detectDependencyDeadlock sha256hex schedulable l ext);
  match chain with
  | None => next tt
  | Some chain =>
      writes (stopOnDeadlock l chain (cd_idleTime d) (cd_logTime d)).1;;
      noted None ActionStop "dependency_deadlock" None true;;
      ends (cycleReport true (Some (deadlockStop l chain (cd_idleTime d))) None false false held)
  end.

Definition idlePhase {A} (c schedulable : LoopContract) (l : LoopLedger) (ext : gmap string ExternalDependencyStatus)
    (pass : RecoveryPass) (progress : bool) (held : list string) : Cyc A :=
  match truthy (rp_deferredUntil pass) with
  | Some t =>
      noted None ActionNoop "recovery_backoff" None true;;
      ends (mkCycle true (Some (retryAfter t)) None None false false held)
  | None =>
      coolingIdle c l (rp_progress pass);;
      exhaustedIdle c l (rp_progress pass);;
      deadlockIdle schedulable l ext held;;
      match held with
      | _ :: _ =>
          noted None ActionNoop ("hold_outstanding:" +:+ join "," held) (Some ActHoldForHuman) false;;
          ends (cycleReport progress None None true false held)
      | [] =>
          noted None ActionNoop "no_eligible_item" None progress;;
          ends (cycleReport progress None None false false held)
      end
  end.

(** ** Before the dispatch *)

(** An item whose advance is live elsewhere goes back to [pending]. *)
Definition keepStep (acc : list string * LoopLedger) (i : string) : Cyc (list string * LoopLedger) :=
  if cd_liveAtDispatch d i then
    run s := theStore;
    run '(ws, l) := lift (revertCapacityWaitItem sha256hex s i (cd_engine d) (cd_time d i) (cd_logTime d));
    writes ws;;
    quietly (event (EvCoexistenceWait i));;
    noted (Some i) ActionDispatchItem "coexistence_wait" (Some ActNoop) false;;
    next (acc.1, l)
  else next (acc.1 ++ [i], acc.2).

Definition dispatchPhase (c : LoopContract) (active : list string) (l : LoopLedger) (progress : bool) (held : list string)
    : Cyc SupervisorCycleResult :=
  run '(kept, l') := forEach keepStep active ([], l);
  match kept with
  | [] => next (cycleReport progress None None (bool_decide (held ≠ [])) false held)
  | _ => liftW (cd_dispatch d (mkDispatchFrame c l' progress held) kept)
  end.

(** ** The cycle *)

(** Up to the items to dispatch: the contract, the items, the ledger, whether
    there was progress and the items on hold. *)
Definition cyclePlan : Cyc (LoopContract * list string * LoopLedger * bool * list string) :=
  run '(c, _) := admitRun;
  run '(drifted, l1) := settlePass c;
  run '(ext, propagated, l2) := dependencyPhase c l1;
  run '(excluded, schedulable) := preconditionPhase c l2;
  run l3 := holdPhase l2;
  let held := heldItemIdsFromLedger l3 in
  run pass := recoveryPhase c l3;
  let progress := drifted || propagated || rp_progress pass in
  completionPhase c (rp_ledger pass) excluded progress held;;
  run '(active, l5) := schedulePhase schedulable (rp_ledger pass) ext;
  match active with
  | [] => idlePhase c schedulable l5 ext pass progress held
  | _ => next (c, active, l5, progress, held)
  end.

Definition cycleBody : Cyc SupervisorCycleResult :=
  run '(c, active, l, progress, held) := cyclePlan;
  dispatchPhase c active l progress held.

Definition runSupervisorCycle (w : World) : World * result LoopError SupervisorCycleResult :=
  match cycleBody w with
  | (w', Next r) | (w', Return r) => (w', Ok r)
  | (w', Throw e) => (w', Err e)
  end.
End Cycle.
