(* ===== verification/CycleFacts.v ===== *)
(** * What a supervisor cycle guarantees

    A small program logic for the effects of [Cycle] (an invariant of every
    outcome, a condition on results and a condition on the value that is passed
    on), a rule for every phase, and the theorems about the cycle: up to the
    dispatch it changes the run only as the engine's operations do and what it
    reports is on record, and items are dispatched only under the guard. *)

From Stdlib Require Import ZArith QArith Qcanon.
From stdpp Require Import numbers base gmap strings list pretty.
From S2P Require Import Prelude Regex LoopTypes Ownership Lifecycle RecoveryPolicy Frontier Dependencies Schedule Precondition Observation TypedRequests RecoveryEpisodes Settlement RecoveryHandlers Store Holds StageDiagnostic Applicability Observe Reconcile Supervisor LoopSteps Drive Cycle.
Local Open Scope result_scope.
Local Open Scope nat_scope.

(** ** Outcomes *)

Section Logic.
Context {Res : Type} (I : World → Prop) (R : World → Res → Prop).

Definition ensures {A} (m : Eff Res A) (w : World) (N : World → A → Prop) : Prop :=
  match m w with
  | (w', Next a) => I w' ∧ N w' a
  | (w', Return r) => I w' ∧ R w' r
  | (w', Throw _) => I w'
  end.

Lemma ensures_next {A} (a : A) w (N : World → A → Prop) : I w → N w a → ensures (next a) w N.
Proof. done. Qed.

Lemma ensures_ends {A} r w (N : World → A → Prop) : I w → R w r → ensures (ends r) w N.
Proof. done. Qed.

Lemma ensures_seq {A B} (m : Eff Res A) (k : A → Eff Res B) w N M :
  ensures m w N → (∀ w' a, I w' → N w' a → ensures (k a) w' M) → ensures (seqC m k) w M.
Proof. unfold ensures, seqC. destruct (m w) as [w' [a|r|e]]; [|done..]. intros [Hi Hn] Hk. by apply Hk. Qed.

Lemma ensures_weaken {A} (m : Eff Res A) w (N M : World → A → Prop) :
  ensures m w N → (∀ w' a, N w' a → M w' a) → ensures m w M.
Proof. unfold ensures. destruct (m w) as [w' [a|r|e]]; [|done..]. intros [Ha Hb] Hw. auto. Qed.

Lemma ensures_and {A} (m : Eff Res A) w (N M : World → A → Prop) :
  ensures m w N → ensures m w M → ensures m w (fun w' a => N w' a ∧ M w' a).
Proof. unfold ensures. destruct (m w) as [w' [a|r|e]]; [|done..]. intros [Ha Hb] [_ Hc]. done. Qed.

Lemma ensures_lift {A} (r : result LoopError A) w (N : World → A → Prop) :
  I w → (∀ a, r = Ok a → N w a) → ensures (lift r) w N.
Proof. unfold ensures, lift. destruct r; auto. Qed.

Lemma ensures_store w (N : World → RunStore → Prop) : I w → N w w.1 → ensures theStore w N.
Proof. done. Qed.

(** A loop, with a condition on the elements done so far. *)
Lemma ensures_prefix {A X} (f : A → X → Eff Res A) (N : list X → World → A → Prop) xs :
  (∀ pre x w a, x ∈ xs → I w → N pre w a → ensures (f a x) w (N (pre ++ [x]))) →
  ∀ pre w a, I w → N pre w a → ensures (forEach f xs a) w (N (pre ++ xs)).
Proof.
  induction xs as [|x xs IH]; intros Hf pre w a Hi Hn; [by rewrite app_nil_r|]. cbn [forEach].
  eapply ensures_seq; [apply (Hf pre); [by left|done|done]|]. intros w' a' Hi' Hn'.
  change (x :: xs) with ([x] ++ xs). rewrite (assoc_L (++)). apply IH; [|done|done]. intros pre1 x1 w1 a1 Hx. apply Hf. by right.
Qed.

Lemma ensures_forEach {A X} (f : A → X → Eff Res A) (N : World → A → Prop) xs :
  (∀ w a x, x ∈ xs → I w → N w a → ensures (f a x) w N) → ∀ w a, I w → N w a → ensures (forEach f xs a) w N.
Proof. intros Hf w a. apply (ensures_prefix f (fun _ => N) xs) with (pre := []). intros _ x w1 a1. apply Hf. Qed.

Lemma ensures_quietly (m : Eff Res unit) w (N : World → unit → Prop) :
  ensures m w N → (∀ w' u, I w' → N w' u) → ensures (quietly m) w N.
Proof. unfold ensures, quietly. destruct (m w) as [w' [a|r|e]]; [done|done|]. auto. Qed.

Lemma ensures_catchStop h (m : Eff Res bool) w (N : World → bool → Prop) :
  ensures m w N → (∀ w', I w' → ensures h w' N) → ensures (catchStop h m) w N.
Proof. unfold ensures, catchStop. destruct (m w) as [w' [a|r|e]]; [done|done|]. intros Hi Hh. case_decide; [by apply Hh|done]. Qed.
End Logic.

Lemma ensures_results {Res A} I (R Q : World → Res → Prop) (m : Eff Res A) w N :
  ensures I R m w N → (∀ w' r, R w' r → Q w' r) → ensures I Q m w N.
Proof. unfold ensures. destruct (m w) as [w' [a|r|e]]; [done| |done]. intros [Hi Hr] Hw. auto. Qed.

(** *** Effects only append to the event log *)

Definition appends {Res A} (m : Eff Res A) : Prop := ∀ w, lines (run_events w.1) `prefix_of` lines (run_events (m w).1.1).

Lemma appends_seq {Res A B} (m : Eff Res A) (k : A → Eff Res B) : appends m → (∀ a, appends (k a)) → appends (seqC m k).
Proof. intros Hm Hk w. unfold seqC. specialize (Hm w). destruct (m w) as [w' [a|r|e]]; [|done..]. etrans; [exact Hm|apply Hk]. Qed.

Lemma appends_forEach {Res A X} (f : A → X → Eff Res A) xs a : (∀ a x, appends (f a x)) → appends (forEach f xs a).
Proof. intros Hf. revert a. induction xs as [|x xs IH]; intros a; [by intros w|]. apply appends_seq; [apply Hf|exact IH]. Qed.

Lemma appends_quietly {Res} (m : Eff Res unit) : appends m → appends (quietly m).
Proof. intros Hm w. unfold quietly. specialize (Hm w). by destruct (m w) as [w' [a|r|e]]. Qed.

Lemma appends_next {Res A} (a : A) : appends (next a : Eff Res A).
Proof. by intros w. Qed.

Lemma appends_ends {Res A} (r : Res) : appends (ends r : Eff Res A).
Proof. by intros w. Qed.

Lemma appends_lift {Res A} (r : result LoopError A) : appends (lift r : Eff Res A).
Proof. by intros w. Qed.

Lemma appends_noted runId token i a o n p : appends (noted runId token i a o n p).
Proof. intros w. unfold noted, appendActionEvidence. by destruct (requireToken _ _ _). Qed.

Lemma appends_writes {Res} sha {dates : IsoDates} runId token ws : appends (writes sha runId token ws : Eff Res unit).
Proof.
  intros w. unfold writes. destruct (performAll_prefix sha runId token w.1 ws) as [n Hn]. apply execute_frame in Hn as (_ & _ & He).
  by destruct (performAll _ _ _ _ _) as [s' [u|e]].
Qed.

Create HintDb appends.
#[export] Hint Resolve appends_seq appends_forEach appends_quietly appends_next appends_ends appends_lift appends_noted appends_writes : appends.

(** Where a result is known and the effect only appends, both. *)
Lemma ensures_appends {Res A} I (R : World → Res → Prop) (m : Eff Res A) w N :
  appends m → ensures I R m w N →
  ensures I (fun w' r => R w' r ∧ lines (run_events w.1) `prefix_of` lines (run_events w'.1)) m w
    (fun w' a => N w' a ∧ lines (run_events w.1) `prefix_of` lines (run_events w'.1)).
Proof. intros Ha. unfold ensures. specialize (Ha w). destruct (m w) as [w' [a|r|e]]; cbn [fst] in Ha; tauto. Qed.

(** ** Writes and the ledger a cycle works on *)

Section Agreement.
Context (sha256hex : string → string).

(** The id of a claim; one without is given it when the ledger is read. *)
Definition recordedId (a : LoopRecoveryAttempt) : option string :=
  match attempt_id a with
  | Some x => Some x
  | None => recoveryAttemptId sha256hex (att_item_id a) (default ("legacy:" +:+ pretty (seq a)) (candidate_identity a)) (att_evidence_fingerprint a)
              <$> truthy (attemptAction a)
  end.

(** What tells a claim apart that no reading of the ledger changes. *)
Definition rowKey (a : LoopRecoveryAttempt) : Z * string * string * RecoveryAttemptOutcome * option string :=
  (seq a, att_item_id a, att_class a, outcome a, recordedId a).

(** The two ledgers agree on the stop, the Cooling, the lifecycle, the states and
    the claims. *)
Record Synced (l m : LoopLedger) : Prop := {
  sy_stop : stop l = stop m;
  sy_cooling : cooling l = cooling m;
  sy_lifecycle : lifecycle l = lifecycle m;
  sy_state : ∀ k, state_of (items l) k = state_of (items m) k;
  sy_claims : rowKey <$> attemptsOf l = rowKey <$> attemptsOf m;
}.

#[global] Instance Synced_equiv : Equivalence Synced.
Proof.
  split; [by split|intros l m [? ? ? ? ?]; by split|]. intros l m n [? ? ? H ?] [? ? ? K ?]. split; [congruence..| |congruence].
  intros k. by rewrite H.
Qed.

Definition lastLedger (ws : list StoreWrite) : option LoopLedger :=
  last (omap (fun w => match w with WLedger l => Some l | _ => None end) ws).

(** After the writes the ledger in hand is [l']. *)
Definition Lands (l : LoopLedger) (ws : list StoreWrite) (l' : LoopLedger) : Prop :=
  Synced l' (default l (lastLedger ws)).

Lemma lands_nil l l' : Synced l' l → Lands l [] l'.
Proof. done. Qed.

Lemma lands_app l ws1 l1 ws2 l2 : Lands l ws1 l1 → Lands l1 ws2 l2 → Lands l (ws1 ++ ws2) l2.
Proof.
  unfold Lands, lastLedger. rewrite omap_app, last_app. intros H1 H2. destruct (last (omap _ ws2)); [done|]. simpl in H2. by etrans.
Qed.

(** Events do not count. *)
Lemma lands_events l ws l' : (∀ x, WLedger x ∉ ws) → Synced l' l → Lands l ws l'.
Proof.
  intros Hn Hs. unfold Lands, lastLedger. assert (omap (fun w => match w with WLedger l => Some l | _ => None end) ws = []) as ->; [|done].
  induction ws as [|w ws IH]; [done|]. cbn. destruct w as [x| | |]; [by destruct (Hn x); left|..]; (apply IH; intros x Hx; apply (Hn x); by right).
Qed.

Lemma lands_write l l' ws : (∀ x, WLedger x ∉ ws) → Lands l (WLedger l' :: ws) l'.
Proof.
  intros Hn. change (WLedger l' :: ws) with ([WLedger l'] ++ ws). eapply lands_app; [|by apply lands_events]. by unfold Lands, lastLedger.
Qed.

(** Writes that move the ledger in hand lawfully and leave the stop alone. *)
Record Carries (l : LoopLedger) (ws : list StoreWrite) (l' : LoopLedger) : Prop := {
  ca_lands : Lands l ws l';
  ca_evolves : LedgerEvolves l l';
  ca_stop : stop l' = stop l;
  ca_each : ∀ x, WLedger x ∈ ws → LedgerEvolves l x ∧ stop x = stop l;
}.

Lemma carries_events l ws : (∀ x, WLedger x ∉ ws) → Carries l ws l.
Proof. intros Hn. split; [by apply lands_events|done|done|]. by intros x ?%Hn. Qed.

Lemma carries_nil l : Carries l [] l.
Proof. apply carries_events. by intros x ?%elem_of_nil. Qed.

Lemma carries_write l l' ws : LedgerEvolves l l' → stop l' = stop l → (∀ x, WLedger x ∉ ws) → Carries l (WLedger l' :: ws) l'.
Proof.
  intros He Hs Hn. split; [by apply lands_write|done|done|]. intros x [Hx|Hx]%elem_of_cons; [injection Hx as ->; by split|by destruct (Hn x)].
Qed.

Lemma carries_app l ws1 l1 ws2 l2 : Carries l ws1 l1 → Carries l1 ws2 l2 → Carries l (ws1 ++ ws2) l2.
Proof.
  intros [H1 H2 H3 H4] [K1 K2 K3 K4]. split; [by eapply lands_app|by etrans|congruence|].
  intros x [Hx|Hx]%elem_of_app; [by apply H4|]. destruct (K4 x Hx) as [Ke Ks]. split; [by etrans|congruence].
Qed.

(** One item rewritten, with its event. *)
Lemma carries_entry l l' k e e' t ev :
  items l' = oset k e' (items l) → stop l' = stop l → recovery_attempts l' = recovery_attempts l →
  oget (items l) k = Some e → evolves e e' → Carries l [WLedger l'; WEvent t ev] l'.
Proof.
  intros Hi Hs Ha He Hev. apply carries_write; [|done|by intros x ?%list_elem_of_singleton]. by eapply entry_evolves.
Qed.

(** A sweep over items, in a well-formed ledger. *)
Lemma carries_sweep (f : list StoreWrite * LoopLedger → string → list StoreWrite * LoopLedger) :
  (∀ ws l i, LedgerWF l → ∃ ws', (f (ws, l) i).1 = ws ++ ws' ∧ Carries l ws' (f (ws, l) i).2) →
  ∀ ids l, LedgerWF l → Carries l (foldl f ([], l) ids).1 (foldl f ([], l) ids).2.
Proof.
  intros Hf ids l Hwf.
  assert (∀ ids ws l0, Carries l ws l0 → Carries l (foldl f (ws, l0) ids).1 (foldl f (ws, l0) ids).2) as H; [|by apply H, carries_nil].
  clear ids. induction ids as [|i ids IH]; intros ws l0 H; [done|]. cbn [foldl].
  destruct (Hf ws l0 i) as (ws' & E & Hl); [eapply evolves_wf; [apply H|done]|].
  destruct (f (ws, l0) i) as [ws1 l1]. simpl in *. subst ws1. apply IH. by eapply carries_app.
Qed.

Lemma synced_same l m :
  stop l = stop m → cooling l = cooling m → lifecycle l = lifecycle m → items l = items m → rowKey <$> attemptsOf l = rowKey <$> attemptsOf m →
  Synced l m.
Proof. intros H1 H2 H3 H4 H5. split; [done..| |done]. intros k. by rewrite H4. Qed.

Lemma fmap_keys (f : LoopRecoveryAttempt → LoopRecoveryAttempt) (rows : list LoopRecoveryAttempt) :
  (∀ a, rowKey (f a) = rowKey a) → rowKey <$> (f <$> rows) = rowKey <$> rows.
Proof. intros H. rewrite <- list_fmap_compose. apply list_fmap_ext. intros ? a _. apply H. Qed.

(** *** The generations of a run *)

(** What a read gives, and what was written and rejected since [s0]. *)
Definition Rejected (s0 s : RunStore) (g : LoopLedger) : Prop := g ∈ drop (length (run_rejected s0)) (run_rejected s).
Definition Generation (s0 s : RunStore) (g : LoopLedger) : Prop := g = run_ledger s ∨ Rejected s0 s g.

Definition Tracks (s0 s : RunStore) (l : LoopLedger) : Prop := ∃ g, Generation s0 s g ∧ Synced l g.

Definition SameLedgers (s s' : RunStore) : Prop := run_ledger s' = run_ledger s ∧ run_rejected s' = run_rejected s.

Lemma generation_same s0 s s' g : SameLedgers s s' → Generation s0 s g → Generation s0 s' g.
Proof. unfold Generation, Rejected. by intros [-> ->]. Qed.

Lemma tracks_same s0 s s' l : SameLedgers s s' → Tracks s0 s l → Tracks s0 s' l.
Proof. intros Hs (g & Hg & Hl). exists g. split; [by eapply generation_same|done]. Qed.

Lemma tracks_synced s0 s l l' : Tracks s0 s l → Synced l' l → Tracks s0 s l'.
Proof. intros (g & Hg & Hl) Hs. exists g. split; [done|]. by etrans. Qed.
End Agreement.
#[global] Arguments sy_stop {_ _ _} _.
#[global] Arguments sy_cooling {_ _ _} _.
#[global] Arguments sy_lifecycle {_ _ _} _.
#[global] Arguments sy_state {_ _ _} _ _.
#[global] Arguments sy_claims {_ _ _} _.

Lemma rejected_evolves s0 s s' g : RunEvolves s0 s → RunEvolves s s' → Rejected s0 s g → Rejected s0 s' g.
Proof.
  intros [_ _ _ _ (gs & Hg & _)] [_ _ _ _ (gs' & Hg' & _)]. unfold Rejected. rewrite Hg', Hg, <- app_assoc, !drop_app_length, elem_of_app. by left.
Qed.

(** A stop of [b] is the one of [x], or gave way to a deadlock. *)
Definition StopUnder (b x : LoopLedger) : Prop :=
  ∀ st, stop b = Some st → stop x = Some st ∨ ∃ st', stop x = Some st' ∧ stop_reason st' = DependencyDeadlock.

#[export] Instance StopUnder_preorder : PreOrder StopUnder.
Proof.
  split; [by left|]. intros a b c H K st Ha. destruct (H st Ha) as [Hb|(st' & Hb & Hd)]; [by apply K|].
  destruct (K st' Hb) as [Hc|Hc]; [|by right]. right. by exists st'.
Qed.

Lemma stopUnder_same b x : stop b = stop x → StopUnder b x.
Proof. intros H st Hb. left. congruence. Qed.

Lemma stopUnder_stop b b' x x' : stop b' = stop b → stop x' = stop x → StopUnder b x → StopUnder b' x'.
Proof. intros H1 H2 H st. rewrite H1, H2. apply H. Qed.

Lemma stopUnder_hard b x : StopUnder b x → hardStopped x = false → hardStopped b = false.
Proof.
  unfold hardStopped. intros H Hx. destruct (stop b) as [st|] eqn:Hb; [|done]. destruct (H st Hb) as [Hs|(st' & Hs & Hd)]; rewrite Hs in Hx; [done|].
  by rewrite Hd in Hx.
Qed.

Section Writes.
Context (sha256hex : string → string) {dates : IsoDates}.
#[local] Abbreviation Synced := (Synced sha256hex).
#[local] Abbreviation rowKey := (rowKey sha256hex).
#[local] Abbreviation Tracks := (Tracks sha256hex).
#[local] Abbreviation Lands := (Lands sha256hex).

Lemma started_key a : rowKey (normalizeStartedRecoveryEpisodeIdentity sha256hex a) = rowKey a.
Proof. unfold normalizeStartedRecoveryEpisodeIdentity. repeat case_match; done. Qed.

Lemma upgraded_key a : rowKey (upgradeAttempt sha256hex a) = rowKey a.
Proof.
  unfold upgradeAttempt. destruct (hasCoreFields a); [apply started_key|]. destruct (truthy (attemptAction a)) as [act|] eqn:E; [|done].
  rewrite started_key. unfold CycleFacts.rowKey, recordedId. rewrite E. simpl. by destruct (attempt_id a).
Qed.

Lemma normalized_key b a : rowKey (normalizeAttempt sha256hex b a) = rowKey a.
Proof. unfold normalizeAttempt. destruct (rebaseCursor_cases b (normalizeStartedRecoveryEpisodeIdentity sha256hex a)) as [-> | ->]; apply started_key. Qed.

Lemma normalized_synced policy l : Synced (normalizeRecoveryLedgerCompatibility sha256hex policy l) l.
Proof.
  destruct (normalize_frame sha256hex policy l) as (? & ? & ? & ? & _). apply synced_same; [done..|].
  unfold normalizeRecoveryLedgerCompatibility, attemptsOf. destruct (recovery_attempts l) eqn:E; [|by rewrite E].
  cbn. apply fmap_keys, normalized_key.
Qed.

Lemma read_synced s : Synced (readLedger sha256hex s) (run_ledger s).
Proof. apply normalized_synced. Qed.

Lemma upgrade_synced l : Synced (upgradeLedgerForRecovery sha256hex l) l.
Proof. split; [done..| |]. - intros k. apply upgradeLedger_state. - apply fmap_keys, upgraded_key. Qed.

(** *** Performing writes *)

Lemma performed_generation r t s0 s w s' :
  RunEvolves s0 s → perform sha256hex r t s w = Ok s' →
  (∀ g, Rejected s0 s g → Rejected s0 s' g) ∧
  match w with
  | WLedger x => ∃ n, Synced n x ∧ Generation s0 s' n ∧ (run_ledger s' = n ∨ run_ledger s' = readLedger sha256hex s)
  | _ => SameLedgers s s'
  end.
Proof.
  intros [_ _ _ _ (gs & Hg & _)] H. apply perform_frame in H as (_ & _ & _ & _ & _ & H). unfold Generation, Rejected, SameLedgers. destruct w as [x| | |].
  - cbv zeta in H. set (n := normalizeRecoveryLedgerCompatibility _ _ x) in *.
    assert (Synced n x) as Hn by apply normalized_synced. destruct (passes _ _ n); destruct H as [Ha Hb]; rewrite Hb, Ha.
    + split; [done|]. exists n. split; [done|]. split; [by left|by left].
    + rewrite Hg, <- app_assoc, !drop_app_length. split; [intros g ?; apply elem_of_app; by left|]. exists n. split; [done|].
      split; [right; apply elem_of_app; right; by left|by right].
  - by destruct H as [-> ->].
  - by destruct H as [-> ->].
  - by destruct H as [-> ->].
Qed.

(** Writes of ledgers that evolved from the first store keep the run on course,
    wherever they are cut off, and complete ones leave the ledger in hand. *)
Lemma performAll_tracks r t s0 ws s l l' :
  RunEvolves s0 s → Tracks s0 s l → StopUnder (run_ledger s) l → StopUnder l l' →
  (∀ x, WLedger x ∈ ws → LedgerEvolves (run_ledger s0) x ∧ stop x = stop l') → Lands l ws l' →
  match performAll sha256hex r t s ws with
  | (s', Ok _) => RunEvolves s0 s' ∧ Tracks s0 s' l' ∧ StopUnder (run_ledger s') l'
  | (s', Err _) => RunEvolves s0 s'
  end.
Proof.
  revert s l. induction ws as [|w ws IH]; intros s l Hs Hl Hu Hu' Hx Hla; simpl.
  { split; [done|]. split; [by eapply tracks_synced|by etrans]. }
  destruct (perform sha256hex r t s w) as [s1|e] eqn:E; [|done].
  assert (RunEvolves s0 s1) as H1 by (eapply perform_evolves; [exact Hs|exact E|]; intros y ->; apply Hx; by left).
  pose proof (performed_generation _ _ _ _ _ _ Hs E) as [_ Hw].
  destruct w as [x|t1 e1|t1 d1|].
  - destruct Hw as (n & Hn & Hg & Hr). destruct (Hx x ltac:(by left)) as [_ Hst].
    assert (StopUnder (run_ledger s1) x) as Hux.
    { destruct Hr as [-> | ->]; [apply stopUnder_same; apply (sy_stop Hn)|].
      eapply stopUnder_stop; [|exact Hst|etrans; [exact Hu|exact Hu']]. by apply (sy_stop (read_synced s)). }
    apply (IH s1 x); [done|exists n; split; [done|by symmetry]|done|by apply stopUnder_same|by intros y Hy; apply Hx; right|].
    unfold Lands, lastLedger in *. simpl in Hla. rewrite last_cons in Hla. by destruct (last _).
  - destruct Hw as [Hw1 Hw2]. apply (IH s1 l); [done|by eapply tracks_same|by rewrite Hw1|done|by intros y Hy; apply Hx; right|done].
  - destruct Hw as [Hw1 Hw2]. apply (IH s1 l); [done|by eapply tracks_same|by rewrite Hw1|done|by intros y Hy; apply Hx; right|done].
  - destruct Hw as [Hw1 Hw2]. apply (IH s1 l); [done|by eapply tracks_same|by rewrite Hw1|done|by intros y Hy; apply Hx; right|done].
Qed.

(** The stop and the states, which a step may leave alone. *)
Definition SameStates (m l : LoopLedger) : Prop := stop l = stop m ∧ ∀ k, state_of (items l) k = state_of (items m) k.

Lemma sameStates_synced m l l' : Synced l l' → SameStates m l → SameStates m l'.
Proof. intros Hs [H1 H2]. split; [by rewrite <- (sy_stop Hs)|]. intros k. by rewrite <- (sy_state Hs). Qed.

Lemma upgraded_states s : SameStates (run_ledger s) (upgradeLedgerForRecovery sha256hex (readLedger sha256hex s)).
Proof. apply (sameStates_synced _ (run_ledger s)); [|done]. symmetry. etrans; [apply upgrade_synced|apply read_synced]. Qed.

(** What the stored ledger and every ledger that is written have, the stored one
    keeps, whether the check accepts or rejects. *)
Lemma performAll_stored (P : LoopLedger → Prop) r t ws s :
  (∀ l m, Synced l m → P l → P m) → P (run_ledger s) → (∀ x, WLedger x ∈ ws → P x) → P (run_ledger (performAll sha256hex r t s ws).1).
Proof.
  intros HP. revert s. induction ws as [|w ws IH]; intros s Hs Hx; [done|]. simpl.
  destruct (perform sha256hex r t s w) as [s1|e] eqn:E; [|done]. apply IH; [|intros x Hin; apply Hx; by right].
  pose proof (performed_generation r t s s w s1 ltac:(done) E) as [_ Hw]. destruct w as [x| | |]; [|by destruct Hw as [-> _]..].
  destruct Hw as (n & Hn & _ & [-> | ->]); eapply HP; [symmetry; exact Hn|apply Hx; by left|symmetry; apply read_synced|done].
Qed.

Lemma writes_stored {Ret} {I} {Q : World → Ret → Prop} (P : LoopLedger → Prop) r t ws w N :
  (∀ l m, Synced l m → P l → P m) → P (run_ledger w.1) → (∀ x, WLedger x ∈ ws → P x) →
  ensures I Q (writes sha256hex r t ws) w N → ensures I Q (writes sha256hex r t ws) w (fun w' a => N w' a ∧ P (run_ledger w'.1)).
Proof.
  intros HP Hs Hx H. pose proof (performAll_stored P r t ws w.1 HP Hs Hx) as Hp. unfold ensures, writes in *.
  destruct (performAll _ _ _ _ _) as [s' [u|e]]; [|done]. destruct H as [H1 H2]. done.
Qed.
End Writes.

(** ** What a result says *)

(** The item is in state [st] in a generation of the run. *)
Definition InState (s0 : RunStore) (st : LoopItemState) (k : string) (w : World) : Prop :=
  ∃ g, Generation s0 w.1 g ∧ state_of (items g) k = Some st.

(** When the dispatch may be entered: the stored ledger has no stop that is not
    mechanical, and the items are in progress in it, or in a ledger of this cycle
    that the store's check rejected, and have no live advance elsewhere. *)
Definition DispatchGuard (s0 : RunStore) (d : CycleDeps) (ks : list string) (w : World) : Prop :=
  ks ≠ [] ∧ hardStopped (run_ledger w.1) = false ∧ ∀ k, k ∈ ks → InState s0 InProgress k w ∧ cd_liveAtDispatch d k = false.

Definition isLifecycle (st : RecoveryLifecycleState) (l : LoopLedger) : Prop :=
  ∃ r, lifecycle l = Some r ∧ lo_state (lr_ownership r) = st.

(** A reported stop or Cooling is on record, and completion means a succeeded
    lifecycle or that every item of the contract is finished or in [excluded]. *)
Record Recorded (s0 : RunStore) (excluded : gset string) (w : World) (r : SupervisorCycleResult) : Prop := {
  rc_stop : ∀ st, cr_stop r = Some st → ∃ g, Generation s0 w.1 g ∧ stop g = Some st;
  rc_cooling : ∀ c, cr_cooling r = Some c → ∃ g, Generation s0 w.1 g ∧ cooling g = Some c;
  rc_done : cr_allDone r = true →
    ∃ g, Generation s0 w.1 g ∧
      (isLifecycle LSucceeded g ∨
       ∀ it, it ∈ c_items (run_contract s0) → isFinished g (ci_id it) = true ∨ ci_id it ∈ excluded);
}.

(** The precondition gate excluded the item since [s0], on the log. *)
Definition ExcludedNow (s0 : RunStore) (k : string) (w : World) : Prop :=
  ∃ i rec req obs, length (lines (run_events s0)) ≤ i ∧ lines (run_events w.1) !! i = Some rec ∧ log_data rec = EvPreconditionExcluded k req obs.

(** The ledger of a result is in hand. *)
Definition InHand (sha256hex : string → string) (s0 : RunStore) (w : World) (l : LoopLedger) : Prop :=
  LedgerEvolves (run_ledger s0) l ∧ Tracks sha256hex s0 w.1 l ∧ StopUnder (run_ledger w.1) l.

(** What the cycle relies on of the execution of a recovery, and of the dispatch. *)
Class RecoveryLaw (sha256hex : string → string) (d : CycleDeps) : Prop :=
  recovery_law : ∀ c i s0 w w' out, cd_recover d c i w = (w', out) → RunEvolves s0 w.1 →
    RunEvolves w.1 w'.1 ∧ ∀ r, out = Ok r → InHand sha256hex s0 w' (rr_ledger r).

Class DispatchLaw (d : CycleDeps) : Prop :=
  dispatch_law : ∀ f ks w w' out, cd_dispatch d f ks w = (w', out) → RunEvolves w.1 w'.1.

Section Phases.
Context (sha256hex : string → string) {dates : IsoDates} (mint : string) (isoAfter : string → jsnum → string) (showNum : jsnum → string)
  (toNumber : string → jsnum) (Date_parse : string → option Z) (stringify : jval → string) (signals : list string)
  (JSON_parse : string → option jval) (repoName baseBranch : string).
Context (runId token : string) (d : CycleDeps) (s0 : RunStore) (wf : LedgerWF (run_ledger s0)).
#[local] Abbreviation Synced := (Synced sha256hex).
#[local] Abbreviation Tracks := (Tracks sha256hex).
#[local] Abbreviation Lands := (Lands sha256hex).
#[local] Abbreviation Carries := (Carries sha256hex).
#[local] Abbreviation InHand := (InHand sha256hex).

Definition Inv (w : World) : Prop := RunEvolves s0 w.1.

(** The ledger in hand. *)
Definition Holding (w : World) (l : LoopLedger) : Prop := InHand s0 w l.

Context (excluded : gset string).
#[local] Abbreviation ok := (ensures Inv (Recorded s0 excluded)).
#[local] Abbreviation write := (writes sha256hex runId token).

Lemma writes_ok {Ret} {Q : World → Ret → Prop} ws w l l' :
  Inv w → Holding w l → (∀ x, WLedger x ∈ ws → LedgerEvolves l x ∧ stop x = stop l') → LedgerEvolves l l' → StopUnder l l' → Lands l ws l' →
  ensures Inv Q (write ws) w (fun w' _ => Holding w' l').
Proof.
  intros Hi (Hv & Hs & Hu) Hx He Hu' Hl. unfold ensures, writes.
  pose proof (performAll_tracks sha256hex runId token s0 ws w.1 l l' Hi Hs Hu Hu'
    ltac:(intros x Hx'; destruct (Hx x Hx'); split; [by etrans|done]) Hl) as H.
  destruct (performAll _ _ _ _ _) as [s' [u|e]]; [|done]. destruct H as (H1 & H2 & H3). split; [done|]. split; [by etrans|done].
Qed.

(** In a run that goes on. *)
Definition Held (w : World) (l : LoopLedger) : Prop := Holding w l ∧ hardStopped l = false.

Lemma held_stop w l w' l' : Held w l → Holding w' l' → stop l' = stop l → Held w' l'.
Proof. intros [_ Hh] Hl' Hs. split; [done|]. unfold hardStopped in *. by rewrite Hs. Qed.

Lemma holding_carries {Ret} {Q : World → Ret → Prop} ws w l l' :
  Inv w → Holding w l → Carries l ws l' → ensures Inv Q (write ws) w (fun w' _ => Holding w' l').
Proof.
  intros Hi Hh [H1 H2 H3 H4]. apply (writes_ok ws w l l'); try done; [|by apply stopUnder_same].
  intros x Hx. destruct (H4 x Hx) as [He Hs]. split; [done|congruence].
Qed.

Lemma held_carries ws w l l' : Inv w → Held w l → Carries l ws l' → ok (write ws) w (fun w' _ => Held w' l').
Proof.
  intros Hi Hh Hc. eapply ensures_weaken; [apply (holding_carries ws w l l'); [done|apply Hh|done]|].
  intros w' [] Hl. eapply held_stop; [done|done|apply Hc].
Qed.

(** Holding a ledger survives events and action evidence. *)
Lemma event_ok e w l : Inv w → Holding w l → ok (event sha256hex runId token d e) w (fun w' _ => Holding w' l).
Proof. intros Hi Hh. apply (holding_carries _ _ l l); [done|done|]. apply carries_events. by intros x ?%list_elem_of_singleton. Qed.

(** They leave the ledgers alone. *)
Lemma events_same r t s ws : (∀ x, WLedger x ∉ ws) → SameLedgers s (performAll sha256hex r t s ws).1.
Proof.
  revert s. induction ws as [|e ws IH]; intros s Hn; [done|]. simpl. destruct (perform sha256hex r t s e) as [s1|] eqn:E; [|done].
  apply perform_frame in E as (_ & _ & _ & _ & _ & E). destruct (IH s1) as [H1 H2]; [intros x Hx; apply (Hn x); by right|].
  unfold SameLedgers. rewrite H1, H2. destruct e as [x| | |]; [destruct (Hn x); by left|done..].
Qed.

Lemma event_same e w : Inv w → ok (event sha256hex runId token d e) w (fun w' _ => SameLedgers w.1 w'.1).
Proof.
  intros Hi. unfold ensures, event, writes. pose proof (events_same runId token w.1 [WEvent (cd_logTime d) e] ltac:(by intros x ?%list_elem_of_singleton)) as H.
  pose proof (performAll_evolves sha256hex runId token w.1 [WEvent (cd_logTime d) e] ltac:(by intros x ?%list_elem_of_singleton)) as He.
  destruct (performAll _ _ _ _ _) as [s' [u|x]]; cbn [fst snd] in *; unfold Inv in *; [split; [|done]|]; cbn [fst]; by etrans.
Qed.

Lemma noted_same i a o n p w : Inv w → ok (noted runId token i a o n p) w (fun w' _ => SameLedgers w.1 w'.1).
Proof. intros Hi. unfold ensures, noted, appendActionEvidence. by destruct (requireToken _ _ _). Qed.

Lemma quiet_same e w : Inv w → ok (quietly (event sha256hex runId token d e)) w (fun w' _ => SameLedgers w.1 w'.1).
Proof.
  intros Hi. unfold ensures, quietly, event, writes.
  pose proof (events_same runId token w.1 [WEvent (cd_logTime d) e] ltac:(by intros x ?%list_elem_of_singleton)) as H.
  pose proof (performAll_evolves sha256hex runId token w.1 [WEvent (cd_logTime d) e] ltac:(by intros x ?%list_elem_of_singleton)) as He.
  destruct (performAll _ _ _ _ _) as [s' [u|x]]; cbn [fst snd] in *; unfold Inv in *; (split; [|done]); cbn [fst]; by etrans.
Qed.

Lemma noted_ok i a o n p w l : Inv w → Holding w l → ok (noted runId token i a o n p) w (fun w' _ => Holding w' l).
Proof. intros Hi Hh. unfold ensures, noted, appendActionEvidence. by destruct (requireToken _ _ _). Qed.

Lemma quiet_ok e w l : Inv w → Holding w l → ok (quietly (event sha256hex runId token d e)) w (fun w' _ => Holding w' l).
Proof.
  intros Hi Hh. pose proof (event_ok e w l Hi Hh) as H. unfold ensures, quietly in *.
  destruct (event sha256hex runId token d e w) as [w' [u|r|x]] eqn:E; [done|done|].
  unfold event, writes in E. simpl in E. destruct (appendEvent _ _ _ _ _); [done|]. injection E as <- _. by destruct w.
Qed.

(** What was just read. *)
Lemma read_held w : Inv w → Holding w (readLedger sha256hex w.1).
Proof.
  intros Hi. split; [etrans; [apply Hi|apply read_evolves]|]. split; [exists (run_ledger w.1); split; [by left|apply read_synced]|].
  apply stopUnder_same. symmetry. apply (sy_stop (read_synced _ _)).
Qed.

Lemma upgraded_held w : Inv w → Holding w (upgradeLedgerForRecovery sha256hex (readLedger sha256hex w.1)).
Proof.
  intros Hi. assert (Synced (upgradeLedgerForRecovery sha256hex (readLedger sha256hex w.1)) (run_ledger w.1)) as Hs
    by (etrans; [apply upgrade_synced|apply read_synced]).
  split; [etrans; [apply Hi|apply upgraded_evolves]|]. split; [exists (run_ledger w.1); split; [by left|done]|].
  apply stopUnder_same. symmetry. apply (sy_stop Hs).
Qed.

Lemma held_read w l : Inv w → Held w l → Held w (readLedger sha256hex w.1).
Proof.
  intros Hi [(_ & _ & Hu) Hh]. split; [by apply read_held|]. pose proof (stopUnder_hard _ _ Hu Hh) as H. unfold hardStopped in *.
  by rewrite (sy_stop (read_synced _ _)).
Qed.

Lemma held_upgraded w l : Inv w → Held w l → Held w (upgradeLedgerForRecovery sha256hex (readLedger sha256hex w.1)).
Proof. intros Hi Hh. pose proof (held_read w l Hi Hh) as Hr. eapply held_stop; [exact Hr|by apply upgraded_held|done]. Qed.

Lemma held_event e w l : Inv w → Held w l → ok (event sha256hex runId token d e) w (fun w' _ => Held w' l).
Proof. intros Hi [Hh ?]. eapply ensures_weaken; [by apply event_ok|]. by intros w' [] ?. Qed.

Lemma held_quiet e w l : Inv w → Held w l → ok (quietly (event sha256hex runId token d e)) w (fun w' _ => Held w' l).
Proof. intros Hi [Hh ?]. eapply ensures_weaken; [by apply quiet_ok|]. by intros w' [] ?. Qed.

Lemma held_noted i a o n p w l : Inv w → Held w l → ok (noted runId token i a o n p) w (fun w' _ => Held w' l).
Proof. intros Hi [Hh ?]. eapply ensures_weaken; [by apply noted_ok|]. by intros w' [] ?. Qed.

(** ** Stops *)

#[local] Abbreviation stopGate := (cycleResultForCompatibilityStop sha256hex mint showNum stringify signals JSON_parse repoName baseBranch runId token d).

Lemma persisted_carries c l st tl :
  let r := persistCoolingFromCompatibilityStop mint c l st tl in Carries l r.1.1 r.1.2 ∧ cooling r.1.2 = Some r.2.
Proof.
  unfold persistCoolingFromCompatibilityStop. destruct (cooling l) as [cl|] eqn:Ec; cbv zeta; [case_decide|]; cbn [fst snd]; (split; [|done]).
  - apply carries_nil.
  - apply carries_write; [by apply framed_evolves|done|by intros ? ?%elem_of_nil].
  - apply carries_write; [by apply framed_evolves|done|by intros ? ?%list_elem_of_singleton].
Qed.

(** The gate goes on only without a stop or with a mechanical one. *)
Lemma stopGate_ok c l p w :
  Inv w → Holding w l → ok (stopGate c l p) w (fun w' _ => Holding w' l ∧ hardStopped l = false).
Proof.
  intros Hi Hh. unfold cycleResultForCompatibilityStop, hardStopped. destruct (stop l) as [st|] eqn:Est; [|by apply ensures_next].
  eapply ensures_seq; [apply (ensures_lift _ _ _ _ (fun w' _ => Holding w' l)); [done|done]|]. intros w1 sib Hi1 Hh1. cbv zeta.
  unfold supervisorCycleDispositionForStop. destruct (isMechanicalCompatibilityStopReason _) eqn:Em; cbn [negb].
  - destruct sib; cbn [continueSiblings disp_cooling]; [by apply ensures_next|]. rewrite bool_decide_true by by eexists.
    pose proof (persisted_carries c l st (cd_logTime d)) as [Hl Hc]. cbv zeta in *.
    destruct (persistCoolingFromCompatibilityStop mint c l st (cd_logTime d)) as [[ws cooled] record]. cbn [fst snd] in *.
    eapply ensures_seq; [by apply (holding_carries ws w1 l cooled)|]. intros w2 [] Hi2 Hh2.
    eapply ensures_seq; [by apply (noted_ok _ _ _ _ _ w2 cooled)|]. intros w3 [] Hi3 (_ & (g & Hg & Hs3) & _). apply ensures_ends; [done|].
    split; try done. simpl. intros cl [= <-]. exists g. by rewrite <- (sy_cooling Hs3).
  - cbn [continueSiblings disp_cooling]. rewrite bool_decide_false by by intros [? ?].
    eapply ensures_seq; [by apply (noted_ok _ _ _ _ _ w1 l)|]. intros w3 [] Hi3 (_ & (g & Hg & Hs3) & _). apply ensures_ends; [done|].
    split; try done. simpl. intros st' [= <-]. exists g. by rewrite <- (sy_stop Hs3).
Qed.

(** ** Admission *)

Lemma refresh_carries c l proved t : let r := admitOrRefreshLifecycle mint c l proved t in Carries l r.1 r.2 ∧ items r.2 = items l.
Proof.
  unfold admitOrRefreshLifecycle. cbv zeta. case_decide; cbn [fst snd]; [split; [apply carries_nil|done]|].
  split; [|done]. apply carries_write; [by apply framed_evolves|done|by intros x ?%elem_of_nil].
Qed.

Lemma expire_carries l now : let r := expireCooling Date_parse l now in Carries l r.1 r.2.
Proof.
  unfold expireCooling. destruct (cooling l); [|apply carries_nil]. destruct (coolingIsActive _ _ _); [apply carries_nil|].
  apply carries_write; [by apply framed_evolves|done|by intros x ?%elem_of_nil].
Qed.

(** Without observer proof, [succeeded] is what the record already says. *)
Lemma admitted_succeeded l : admittedState l = LSucceeded → isLifecycle LSucceeded l.
Proof.
  unfold admittedState, consultLifecycleRecord, isLifecycle. cbn [cancelledByAuthenticatedCaller cancelledByOriginalAuthorizedCaller orb observerProvedPostcondition typedRequest].
  destruct (asPublicTypedRequest _); [done|].
  assert (∀ i, cancelledByAuthenticatedCaller i = false → cancelledByOriginalAuthorizedCaller i = false → observerProvedPostcondition i = false →
               lo_state (deriveLifecycleState i) ≠ LSucceeded) as Hd.
  { intros i H1 H2 H3. unfold deriveLifecycleState. rewrite H1, H2, H3. cbn [orb]. repeat case_match; done. }
  destruct (lifecycle l) as [rec|]; [|by intros ?%Hd]. case_decide; [by intros ?%Hd|]. intros Hrec. by exists rec.
Qed.

Definition forRun (c : LoopContract) : Prop := c_items c = c_items (run_contract s0).

Lemma admit_ok w :
  Inv w → ok (admitRun sha256hex mint showNum Date_parse stringify signals JSON_parse repoName baseBranch runId token d) w
             (fun w' x => forRun x.1 ∧ Held w' x.2).
Proof.
  intros Hi. unfold admitRun. eapply ensures_seq; [apply (ensures_store _ _ _ (fun w' s => w' = w ∧ s = w.1)); done|].
  intros w1 s Hi1 [-> ->]. eapply ensures_seq; [apply (ensures_lift _ _ _ _ (fun w' c => w' = w ∧ forRun c)); [done|]|].
  { intros c Hc. split; [done|]. unfold forRun. destruct (upgradeContract_keeps _ _ Hc) as [-> _]. by rewrite (re_contract _ _ Hi). }
  intros w1 c Hi2 [-> Hc]. pose proof (refresh_carries c (readLedger sha256hex w.1) false (cd_admittedAt d)) as [Hl _]. cbv zeta in *.
  destruct (admitOrRefreshLifecycle mint c _ false _) as [ws l]. cbn [fst snd] in *.
  eapply ensures_seq; [by apply (holding_carries ws w (readLedger sha256hex w.1) l); [|apply read_held|]|]. intros w2 [] Hi3 Hh.
  destruct (admittedState l) eqn:Ea.
  5: { apply ensures_ends; [done|]. destruct Hh as (_ & (g & Hg & Hs) & _). split; try done; simpl.
       - intros cl Hcl. exists g. by rewrite <- (sy_cooling Hs).
       - intros _. exists g. split; [done|]. left. destruct (admitted_succeeded _ Ea) as (r & Hr & Hst). exists r. by rewrite <- (sy_lifecycle Hs). }
  5: { apply ensures_ends; [done|]. destruct Hh as (_ & (g & Hg & Hs) & _). split; try done; simpl.
       - intros st Hst. exists g. by rewrite <- (sy_stop Hs).
       - intros cl Hcl. exists g. by rewrite <- (sy_cooling Hs). }
  all: eapply ensures_seq; [by apply stopGate_ok|]; intros w3 [] Hi4 [Hh3 Hhard];
    pose proof (expire_carries l (cd_nowIso d)) as Hl'; cbv zeta in *; destruct (expireCooling Date_parse l (cd_nowIso d)) as [ws' l']; cbn [fst snd] in *;
    (eapply ensures_seq; [by apply (held_carries ws' w3 l l')|]); intros w4 [] Hi5 Hh4; by apply ensures_next.
Qed.

(** ** Reconciliation *)

Lemma reconcile_ok c w :
  Inv w → ok (reconcilePhase sha256hex mint showNum toNumber Date_parse stringify signals JSON_parse repoName baseBranch runId token d c) w (fun _ _ => True).
Proof.
  intros Hi. unfold reconcilePhase. apply ensures_catchStop.
  - eapply ensures_seq; [apply (ensures_store _ _ _ (fun w' s => w' = w ∧ s = w.1)); done|]. intros w1 s Hi1 [-> ->].
    eapply ensures_seq; [apply (ensures_lift _ _ _ _ (fun w' x => w' = w ∧ LedgerEvolves (run_ledger w.1) x.2 ∧ ∀ l, WLedger l ∈ x.1 → l = x.2)); [done|]|].
    { intros [ws l] E. split; [done|]. by apply pass_evolves in E. }
    intros w1 [ws l] Hi2 [-> [He Hw]]. cbn [fst snd] in *.
    eapply (ensures_seq _ _ _ _ _ (fun _ _ => True)); [|intros w2 [] Hi3 _; by apply ensures_next].
    unfold ensures, writes. destruct (performAll_prefix sha256hex runId token w.1 ws) as [n Hn].
    assert (RunEvolves s0 (performAll sha256hex runId token w.1 ws).1) as Hp.
    { etrans; [exact Hi|]. eapply execute_evolves; [|exact Hn]. intros x Hx. by rewrite (Hw x Hx). }
    revert Hp. destruct (performAll _ _ _ _ _) as [s' [u|e]]; cbn [fst]; unfold Inv; cbn [fst]; [intros Hp; by split|done].
  - intros w' Hi'. unfold stoppedPass. eapply ensures_seq; [apply (ensures_store _ _ _ (fun w1 s => w1 = w' ∧ s = w'.1)); done|].
    intros w1 s Hi1 [-> ->]. cbv zeta. eapply ensures_seq; [by apply stopGate_ok; [|apply read_held]|]. intros w2 [] Hi2 [Hh2 _].
    eapply ensures_seq; [by apply (noted_ok _ _ _ _ _ w2 (readLedger sha256hex w'.1))|]. intros w3 [] Hi3 (_ & (g & Hg & Hs3) & _). apply ensures_ends; [done|].
    split; try done. simpl. intros st Hst. exists g. by rewrite <- (sy_stop Hs3).
Qed.

Lemma supersede_carries s i reason select t tl :
  let r := supersedeStartedRecoveryAttempts sha256hex s i reason select t tl in
  Carries (upgradeLedgerForRecovery sha256hex (readLedger sha256hex s)) r.1 r.2.
Proof.
  pose proof (supersede_advances sha256hex s i reason select t tl) as He. cbv zeta. unfold supersedeStartedRecoveryAttempts in *. cbv zeta in *.
  destruct (attempt_id <$> _) as [|x xs]; cbn [fst snd] in *; [apply carries_nil|]. apply carries_write; [done|done|].
  intros y Hy. unfold supersedeEvents in Hy. apply list_elem_of_omap in Hy as (j & _ & Hj). by destruct (list_find _ _).
Qed.

Lemma retire_ok l e w : Inv w → Held w l → ok (retireStep sha256hex runId token d l e) w Held.
Proof.
  intros Hi Hh. unfold retireStep. destruct (negb _); [by apply ensures_next|]. destruct (negb _); [by apply ensures_next|].
  eapply ensures_seq; [apply (ensures_store _ _ _ (fun w' s => w' = w ∧ s = w.1)); done|]. intros w1 s Hi1 [-> ->].
  match goal with |- context [supersedeStartedRecoveryAttempts ?sha ?s ?i ?r ?sel ?t ?tl] => pose proof (supersede_carries s i r sel t tl) as Hc end.
  cbv zeta in Hc. destruct (supersedeStartedRecoveryAttempts _ _ _ _ _ _ _) as [ws l']. cbn [fst snd] in Hc.
  eapply ensures_seq; [eapply held_carries; [done|by eapply held_upgraded|exact Hc]|]. intros w2 [] Hi2 Hh2.
  eapply ensures_seq; [by apply held_event|]. intros w3 [] Hi3 Hh3. by apply ensures_next.
Qed.

Lemma settle_ok c w :
  Inv w → ok (settlePass sha256hex mint showNum toNumber Date_parse stringify signals JSON_parse repoName baseBranch runId token d c) w
             (fun w' x => Held w' x.2).
Proof.
  intros Hi. unfold settlePass. eapply ensures_seq; [by apply reconcile_ok|]. intros w1 drifted Hi1 _.
  eapply ensures_seq; [apply (ensures_store _ _ _ (fun w' s => w' = w1 ∧ s = w1.1)); done|]. intros w2 s Hi2 [-> ->]. cbv zeta.
  eapply ensures_seq; [by apply stopGate_ok; [|apply upgraded_held]|]. intros w3 [] Hi3 Hh3.
  eapply ensures_seq; [apply (ensures_forEach _ _ _ Held); [intros w4 a e _ Ha Hb; by apply retire_ok|done|done]|].
  intros w4 l Hi4 Hh4. by apply ensures_next.
Qed.

(** ** Dependencies, preconditions and holds *)

Lemma dependency_ok c l w : Inv w → Held w l → ok (dependencyPhase sha256hex runId token d c l) w (fun w' x => Held w' x.2).
Proof.
  intros Hi Hh. unfold dependencyPhase. eapply ensures_seq; [apply (ensures_lift _ _ _ _ (fun w' _ => w' = w)); done|]. intros w1 ext Hi1 ->.
  destruct (propagateSkips _ _ _ _ _) as [[l' [|i rest]]|] eqn:E; [by apply ensures_next| |by apply ensures_next].
  eapply ensures_seq; [apply (held_carries _ w l l'); [done|done|]|intros w2 [] Hi2 Hh2; by apply ensures_next].
  apply carries_write; [by eapply skips_evolve|by apply propagate_inv in E as (st & -> & _)|].
  intros x. by intros (? & ? & _)%list_elem_of_fmap.
Qed.

Lemma excluded_later k w w' :
  lines (run_events w.1) `prefix_of` lines (run_events w'.1) → ExcludedNow s0 k w → ExcludedNow s0 k w'.
Proof.
  intros Hp (i & rec & req & obs & Hi & Hr & Hd). exists i, rec, req, obs. split; [done|]. split; [|done]. by eapply prefix_lookup_Some.
Qed.

Lemma exclusion_event x w :
  Inv w → ok (event sha256hex runId token d (EvPreconditionExcluded (pe_item_id x) (pe_required_stage x) (pe_observed_stage x))) w
    (fun w' _ => ExcludedNow s0 (pe_item_id x) w' ∧ lines (run_events w.1) `prefix_of` lines (run_events w'.1)).
Proof.
  intros Hi. unfold ensures, event, writes. cbn [performAll perform]. unfold appendEvent. destruct (requireToken _ _ _) eqn:Et; cbn [rbind]; [|done].
  unfold Inv in *. cbn [fst]. split; [etrans; [exact Hi|]; apply quiet_evolves; try done; by apply prefix_app_r|]. split; [|by apply prefix_app_r].
  exists (length (lines (run_events w.1))), (mkLogRecord (nextSeq (run_events w.1)) (cd_logTime d)
    (EvPreconditionExcluded (pe_item_id x) (pe_required_stage x) (pe_observed_stage x))). do 2 eexists.
  split; [apply prefix_length, Hi|]. split; [|done]. cbn. by rewrite lookup_app_r, Nat.sub_diag.
Qed.

Lemma noted_events i a o n p w : Inv w → ok (noted runId token i a o n p) w (fun w' _ => run_events w'.1 = run_events w.1).
Proof. intros Hi. unfold ensures, noted, appendActionEvidence. by destruct (requireToken _ _ _). Qed.

Lemma precondition_ok c l w :
  Inv w → Held w l → ok (preconditionPhase sha256hex runId token d c l) w
    (fun w' x => Held w' l ∧ ∀ k, k ∈ x.1 → ExcludedNow s0 k w').
Proof.
  intros Hi Hh. unfold preconditionPhase. cbv zeta.
  eapply ensures_seq; [apply (ensures_prefix _ _ _ (fun pre w' _ => Held w' l ∧ ∀ x, x ∈ pre → ExcludedNow s0 (pe_item_id x) w')) with (pre := []); [|done|]|].
  - intros pre x w1 [] _ Hi1 [Hh1 Hp]. unfold excludeStep.
    eapply ensures_seq; [apply ensures_and; [by apply held_event|by apply exclusion_event]|]. intros w2 [] Hi2 (Hh2 & Hx & Hpre).
    eapply ensures_weaken; [apply ensures_and; [by apply held_noted|by apply noted_events]|]. intros w3 [] [Hh3 Hev]. split; [done|].
    intros y Hy. apply (excluded_later _ w2 w3); [by rewrite Hev|]. apply elem_of_app in Hy as [Hy|Hy%list_elem_of_singleton]; [|by subst y].
    eapply excluded_later; [exact Hpre|]. by apply Hp.
  - split; [done|]. by intros x ?%elem_of_nil.
  - intros w1 [] Hi1 [Hh1 Hx]. apply ensures_next; [done|]. split; [done|]. cbn [fst]. intros k. rewrite elem_of_list_to_set, list_elem_of_fmap.
    intros (x & -> & Hin). by apply Hx.
Qed.

(** Leaving a hold for [pending]. *)
Lemma release_evolves e time engine note :
  evolves e (hold_entry e Pending None (mkHistory time (state e) Pending engine None None (Some note))).
Proof. by apply hold_evolves. Qed.

Lemma held_wf w l : Held w l → LedgerWF l.
Proof. intros [[He _] _]. by eapply evolves_wf. Qed.

Lemma expiry_carries t tl l :
  LedgerWF l → let r := invalidateStaleAuthorityHolds (cd_engine d) t tl l in Carries l r.1 r.2.
Proof.
  cbv zeta. apply carries_sweep. intros ws l1 i _. unfold invalidateStep.
  assert (∃ ws', ws = ws ++ ws' ∧ Carries l1 ws' l1) as Hsame by (exists []; rewrite app_nil_r; split; [done|apply carries_nil]).
  destruct (oget (items l1) i) as [e|] eqn:He; [|done]. destruct (negb _); [done|]. cbn [fst snd]. eexists. split; [done|].
  eapply carries_entry; [done..|exact He|apply release_evolves].
Qed.

Lemma reclassify_carries l : LedgerWF l → let r := reclassifyInFlightHumanHolds d l in Carries l r.1 r.2.
Proof.
  cbv zeta. apply carries_sweep. intros ws l1 i Hwf. unfold reclassifyStep.
  assert (∃ ws', ws = ws ++ ws' ∧ Carries l1 ws' l1) as Hsame by (exists []; rewrite app_nil_r; split; [done|apply carries_nil]).
  destruct (oget (items l1) i) as [e|] eqn:He; [|done]. destruct (hold_request e) as [q|]; [|done]. cbv zeta.
  destruct (negb _); [done|]. cbn [fst snd]. eexists. split; [done|]. rewrite (wf_ids _ Hwf _ _ He).
  eapply carries_entry; [done..|exact He|apply release_evolves].
Qed.

Lemma reopen_carries t tl l :
  LedgerWF l → let r := reopenClearedBlockedHolds toNumber (cd_observe d) (cd_liveAtReopen d) (cd_engine d) t tl l in Carries l r.1 r.2.
Proof.
  cbv zeta. apply carries_sweep. intros ws l1 i _. unfold reopenStep.
  assert (∃ ws', ws = ws ++ ws' ∧ Carries l1 ws' l1) as Hsame by (exists []; rewrite app_nil_r; split; [done|apply carries_nil]).
  destruct (observedLabels _ _ _); [|done]. destruct (isBlockedInLabels _); [done|]. destruct (oget (items l1) i) as [e|] eqn:He; [|done].
  destruct (negb _); [done|]. destruct (cd_liveAtReopen d i); cbn [fst snd]; eexists; (split; [done|]).
  - apply carries_events. by intros x ?%list_elem_of_singleton.
  - unfold rebindAfterReopen. destruct (lifecycle l1); (eapply carries_entry; [done..|exact He|apply release_evolves]).
Qed.

Lemma hold_ok l w : Inv w → Held w l → ok (holdPhase sha256hex toNumber runId token d l) w Held.
Proof.
  intros Hi Hh. unfold holdPhase. cbv zeta.
  pose proof (expiry_carries (cd_time d) (fun _ => cd_logTime d) l (held_wf _ _ Hh)) as H1. cbv zeta in H1.
  destruct (invalidateStaleAuthorityHolds _ _ _ _) as [ws1 l1]. cbn [fst snd] in H1.
  eapply ensures_seq; [by eapply held_carries|]. intros w1 [] Hi1 Hh1.
  pose proof (reclassify_carries l1 (held_wf _ _ Hh1)) as H2. cbv zeta in H2.
  destruct (reclassifyInFlightHumanHolds _ _) as [ws2 l2]. cbn [fst snd] in H2.
  eapply ensures_seq; [by eapply held_carries|]. intros w2 [] Hi2 Hh2.
  pose proof (reopen_carries (cd_time d) (fun _ => cd_logTime d) l2 (held_wf _ _ Hh2)) as H3. cbv zeta in H3.
  destruct (reopenClearedBlockedHolds _ _ _ _ _ _ _) as [ws3 l3]. cbn [fst snd] in H3.
  eapply ensures_seq; [by eapply held_carries|]. intros w3 [] Hi3 Hh3. by apply ensures_next.
Qed.

(** ** Recovery *)

Context `{!RecoveryLaw sha256hex d, !DispatchLaw d}.

#[local] Abbreviation gated := (recoverStep sha256hex mint showNum Date_parse stringify signals JSON_parse repoName baseBranch runId token d).

Lemma recover_ok c acc e w : Inv w → Held w (rp_ledger acc) → ok (gated c acc e) w (fun w' a => Held w' (rp_ledger a)).
Proof.
  intros Hi Hh. unfold recoverStep. case_decide; [by apply ensures_next|]. destruct (_ || _).
  { eapply ensures_seq; [by apply held_quiet|]. intros w1 [] Hi1 Hh1. by apply ensures_next. }
  eapply (ensures_seq _ _ _ _ _ (fun w' r => Holding w' (rr_ledger r))).
  - unfold ensures, liftW. destruct (cd_recover d c (id e) w) as [w' out] eqn:E. apply (recovery_law _ _ s0) in E as [Hev Hr]; [|exact Hi].
    assert (Inv w') as Hi' by (unfold Inv in *; by etrans). destruct out as [r|]; [|done]. split; [done|]. by apply Hr.
  - intros w1 r Hi1 Hr. cbv zeta. eapply ensures_seq; [by apply stopGate_ok|]. intros w2 [] Hi2 Hh2. by apply ensures_next.
Qed.

Lemma recovery_ok c l w :
  Inv w → Held w l →
  ok (recoveryPhase sha256hex mint showNum Date_parse stringify signals JSON_parse repoName baseBranch runId token d c l) w
    (fun w' a => Held w' (rp_ledger a)).
Proof.
  intros Hi Hh. unfold recoveryPhase. apply (ensures_forEach _ _ _ (fun w' a => Held w' (rp_ledger a))); [|done|done].
  intros w1 a e _ Hi1 Hh1. by apply recover_ok.
Qed.

(** ** Completion *)

Lemma completion_ok c l progress held w :
  Inv w → Held w l → forRun c → ok (completionPhase sha256hex mint runId token d c l excluded progress held) w (fun w' _ => Held w' l).
Proof.
  intros Hi Hh Hc. unfold completionPhase. destruct (allResolved _ _ _) eqn:Ea; [|by apply ensures_next]. cbv zeta.
  assert (∃ l', Carries l (if forallb (fun it => stateIs isSucceeded l (ci_id it)) (c_items c)
    then (admitOrRefreshLifecycle mint c l true (cd_refreshedAt d)).1 else []) l' ∧ items l' = items l) as (l' & Hl & Hit).
  { destruct (forallb _ _); [|exists l; split; [apply carries_nil|done]]. eexists. apply refresh_carries. }
  eapply ensures_seq; [by eapply held_carries|]. intros w1 [] Hi1 Hh1.
  eapply ensures_seq; [by apply held_noted|]. intros w2 [] Hi2 [(_ & (g & Hg & Hs) & _) _]. apply ensures_ends; [done|]. split; try done.
  intros _. exists g. split; [done|]. right. intros it Hin. unfold allResolved in Ea. rewrite forallb_elem in Ea.
  rewrite <- Hc in Hin. specialize (Ea it Hin). apply orb_prop in Ea as [Hf|Hx]; [left|right; by apply bool_decide_eq_true in Hx].
  unfold isFinished. rewrite <- (sy_state Hs). by rewrite Hit.
Qed.

(** ** Scheduling *)

(** Events and notes between. *)
Lemma inState_same st k w w' : SameLedgers w.1 w'.1 → InState s0 st k w → InState s0 st k w'.
Proof. intros Hs (g & Hg & Hk). exists g. split; [by eapply generation_same|done]. Qed.

(** A move of the supervisor's own, on the store as it is: the item is in its new
    state, and what was known of the others still is. *)
Lemma shift_ok i from to verb rule h ev t ws l' w l :
  shiftItem sha256hex w.1 i from to verb rule h ev t = Ok (ws, l') → h_from h = from → h_to h = to → ownState to = true →
  Inv w → Held w l →
  ok (write ws) w (fun w' _ => Held w' l' ∧ InState s0 to i w' ∧ ∀ st k, k ≠ i → InState s0 st k w → InState s0 st k w').
Proof.
  intros (e & He & Hst & -> & ->)%shift_Ok Hf Ht Ho Hi Hh. apply ensures_and.
  { eapply held_carries; [done|by eapply held_read|eapply carries_entry; [done..|exact He|]]. eapply own_evolves; [done|done|congruence|done|done]. }
  set (x := with_items _ _). unfold ensures, writes. cbn [performAll].
  assert (LedgerEvolves (run_ledger w.1) x) as Hx.
  { etrans; [apply (read_evolves sha256hex)|]. eapply entry_evolves; [done..|exact He|]. eapply own_evolves; [done|done|congruence|done|done]. }
  destruct (perform sha256hex runId token w.1 (WLedger x)) as [s1|e1] eqn:E1; [|done].
  assert (RunEvolves s0 s1) as Hi1 by (eapply perform_evolves; [exact Hi|exact E1|intros y [= <-]; etrans; [apply Hi|exact Hx]]).
  destruct (performed_generation _ _ _ _ _ _ _ Hi E1) as [Hrej (n & Hn & Hg & Hr)].
  destruct (perform sha256hex runId token s1 (WEvent t ev)) as [s2|e2] eqn:E2; [|done].
  destruct (performed_generation _ _ _ _ _ _ _ Hi1 E2) as [_ Hs2]. unfold Inv. cbn [fst].
  split; [eapply perform_evolves; [exact Hi1|exact E2|done]|].
  assert (∀ k, k ≠ i → state_of (items (run_ledger s1)) k = state_of (items (run_ledger w.1)) k) as Hsame.
  { intros k Hk. rewrite <- (sy_state (read_synced sha256hex w.1)). destruct Hr as [-> | ->]; [|done].
    rewrite (sy_state Hn). unfold state_of. cbn. by rewrite oget_oset_ne. }
  split.
  - exists n. split; [by eapply generation_same|]. rewrite (sy_state Hn). unfold state_of. cbn. by rewrite oget_oset_eq.
  - intros st k Hk (g & Hgg & Hgs). destruct Hgg as [-> |Hgg].
    + exists (run_ledger s2). split; [by left|]. destruct Hs2 as [-> _]. by rewrite Hsame.
    + exists g. split; [|done]. eapply generation_same; [exact Hs2|]. right. by apply Hrej.
Qed.

Lemma start_ok l i w :
  Inv w → Held w l → ok (startStep sha256hex runId token d l i) w
    (fun w' l' => Held w' l' ∧ InState s0 InProgress i w' ∧ ∀ st k, k ≠ i → InState s0 st k w → InState s0 st k w').
Proof.
  intros Hi Hh. unfold startStep. eapply ensures_seq; [apply (ensures_store _ _ _ (fun w' s => w' = w ∧ s = w.1)); done|]. intros w1 s Hi1 [-> ->].
  eapply ensures_seq; [apply (ensures_lift _ _ _ _ (fun w' x => w' = w ∧ startItem sha256hex w.1 i (cd_engine d) (cd_time d i) (cd_logTime d) = Ok x)); done|].
  intros w1 [ws l'] Hi2 [-> E]. eapply ensures_seq; [by eapply shift_ok|]. intros w2 [] Hi3 Hn. by apply ensures_next.
Qed.

Definition Started (w : World) (x : list string * LoopLedger) : Prop :=
  Held w x.2 ∧ ∀ k, k ∈ x.1 → InState s0 InProgress k w.

Lemma schedule_ok c l ext w : Inv w → Held w l → ok (schedulePhase sha256hex runId token d c l ext) w Started.
Proof.
  intros Hi Hh. unfold schedulePhase. destruct (id <$> filter _ _) as [|k ks] eqn:E.
  - eapply ensures_seq; [apply (ensures_lift _ _ _ _ (fun w' _ => w' = w)); done|]. intros w1 dec Hi1 ->.
    eapply ensures_seq; [case_decide; [by apply (ensures_next _ _ _ _ (fun w' _ => Held w' l))|by apply held_event]|]. intros w1 [] Hi2 Hh1.
    eapply ensures_seq; [apply (ensures_prefix _ _ _ (fun pre w' l' => Started w' (pre, l')) _) with (pre := []); [|done|by split; [|intros ? ?%elem_of_nil]]|].
    + intros pre x w2 l2 _ Hi3 [H2 Hp]. eapply ensures_weaken; [by apply start_ok|]. intros w3 l3 (H3 & Hs & Ho). split; [done|]. cbn [fst snd] in *.
      intros y [Hy|Hy%list_elem_of_singleton]%elem_of_app; [|by subst y]. destruct (decide (y = x)) as [-> |Hne]; [done|]. apply Ho; [done|]. by apply Hp.
    + intros w2 l2 Hi3 Hst. by apply ensures_next.
  - apply ensures_next; [done|]. split; [done|]. cbn [fst snd]. intros y Hy. rewrite <- E in Hy.
    apply list_elem_of_fmap in Hy as (e & -> & Hy). apply list_elem_of_filter in Hy as [Hst Hy]. apply elem_ovalues in Hy as [k0 Hy].
    pose proof (held_wf _ _ Hh) as [Hnd Hid]. apply elem_oget in Hy; [|done]. destruct Hh as [(_ & (g & Hg & Hs) & _) _].
    exists g. split; [done|]. rewrite <- (sy_state Hs). unfold state_of. by rewrite (Hid _ _ Hy), Hy, <- Hst.
Qed.

(** ** Nothing to dispatch *)

Lemma bind_carries c l o t : Carries l [WLedger (bindLifecycle mint c l o t)] (bindLifecycle mint c l o t).
Proof. apply carries_write; [by apply framed_evolves|done|by intros x ?%elem_of_nil]. Qed.

Lemma cooling_ok c l recovered w : Inv w → Held w l → ok (coolingIdle sha256hex mint Date_parse runId token d c l recovered) w (fun w' _ => Held w' l).
Proof.
  intros Hi Hh. unfold coolingIdle. destruct (cooling l) as [cl|] eqn:Ec; [|by apply ensures_next]. destruct (negb _); [by apply ensures_next|].
  cbv zeta. set (bound := match cool_reason cl with StrategyCursorExhausted => _ | MechanicalExhaustion => l end).
  assert (cooling bound = Some cl) as Hb by (subst bound; by destruct (cool_reason cl)).
  eapply (ensures_seq _ _ _ _ _ (fun w' _ => Held w' bound)).
  - eapply held_carries; [done|exact Hh|]. subst bound. destruct (cool_reason cl); [apply bind_carries|apply carries_nil].
  - intros w1 [] Hi1 Hh1. eapply ensures_seq; [by apply held_noted|]. intros w2 [] Hi2 [(_ & (g & Hg & Hs) & _) _]. apply ensures_ends; [done|].
    split; try done. simpl. intros c0 [= <-]. exists g. by rewrite <- (sy_cooling Hs).
Qed.

Lemma owned_carries l cl tl :
  let eff := persistOwnedCooling sha256hex l cl in Carries l (effectWrites eff tl) (eff_ledger eff) ∧ cooling (eff_ledger eff) = Some cl.
Proof.
  cbv zeta. split; [|done]. unfold effectWrites. cbn [eff_written persistOwnedCooling].
  apply carries_write; [apply keeps_evolves, cooling_keeps|done|]. by intros x (? & ? & _)%list_elem_of_fmap.
Qed.

Lemma exhausted_ok c l recovered w :
  Inv w → Held w l →
  ok (exhaustedIdle sha256hex mint isoAfter showNum stringify signals JSON_parse repoName baseBranch runId token d c l recovered) w
    (fun w' _ => Held w' l).
Proof.
  intros Hi Hh. unfold exhaustedIdle. eapply ensures_seq; [apply (ensures_lift _ _ _ _ (fun w' _ => w' = w)); done|]. intros w1 p Hi1 ->.
  destruct (list_find _ _) as [[n e]|]; [|by apply ensures_next]. destruct (truthy _) as [theme|]; [|by apply ensures_next]. cbv zeta.
  eapply ensures_seq; [apply (ensures_store _ _ _ (fun w' s => w' = w ∧ s = w.1)); done|]. intros w1 s Hi2 [-> ->].
  set (cl := exhaustionCooling isoAfter p e theme (cd_idleTime d)).
  pose proof (owned_carries (readLedger sha256hex w.1) cl (cd_logTime d)) as [Ho Hcl]. cbv zeta in *.
  set (eff := persistOwnedCooling sha256hex (readLedger sha256hex w.1) cl) in *. clearbody eff cl.
  eapply ensures_seq; [eapply held_carries; [done|by eapply held_read|exact Ho]|]. intros w2 [] Hi3 Hh2.
  eapply ensures_seq; [eapply held_carries; [done|exact Hh2|apply bind_carries]|]. intros w3 [] Hi4 [(_ & (g & Hg & Hs) & _) _]. apply ensures_ends; [done|].
  split; try done. simpl. intros c0 [= <-]. exists g. by rewrite <- (sy_cooling Hs).
Qed.

Lemma deadlock_ok c l ext held w :
  Inv w → Held w l → ok (deadlockIdle sha256hex runId token d c l ext held) w (fun w' _ => Held w' l).
Proof.
  intros Hi [Hl Hh]. unfold deadlockIdle. eapply ensures_seq; [apply (ensures_lift _ _ _ _ (fun w' _ => w' = w)); done|]. intros w1 chain Hi1 ->.
  destruct chain as [chain|]; [|by apply ensures_next].
  pose proof (fun x => deadlock_evolves l chain (cd_idleTime d) (cd_logTime d) x Hh) as Hx.
  eapply ensures_seq; [apply (writes_ok _ w l (with_stop l (Some (deadlockStop l chain (cd_idleTime d)))))|].
  - done.
  - done.
  - intros x Hin. split; [by apply Hx|]. cbn in Hin. rewrite !elem_of_cons, elem_of_nil in Hin. by destruct Hin as [[= ->]|[?|[]]].
  - apply Hx. by left.
  - intros st _. right. by eexists.
  - apply lands_write. by intros x ?%list_elem_of_singleton.
  - intros w1 [] Hi2 Hh2. eapply ensures_seq; [by eapply noted_ok|]. intros w2 [] Hi3 (_ & (g & Hg & Hs) & _). apply ensures_ends; [done|].
    split; try done. simpl. intros st [= <-]. exists g. by rewrite <- (sy_stop Hs).
Qed.

(** The last note of a cycle, and its plain result. *)
Lemma noted_ends {A} i a o n p r w l (N : World → A → Prop) :
  Inv w → Held w l → (∀ w', Recorded s0 excluded w' r) → ok (seqC (noted runId token i a o n p) (fun _ => ends r)) w N.
Proof. intros Hi Hh Hr. eapply ensures_seq; [by apply (held_noted _ _ _ _ _ _ l)|]. intros w1 [] Hi1 _. by apply ensures_ends. Qed.

Lemma idle_ok {A} c sch l ext pass progress held w (N : World → A → Prop) :
  Inv w → Held w l →
  ok (idlePhase sha256hex mint isoAfter showNum Date_parse stringify signals JSON_parse repoName baseBranch runId token d c sch l ext pass progress held) w N.
Proof.
  intros Hi Hh. unfold idlePhase. destruct (truthy _) as [t|]; [by eapply noted_ends|].
  eapply ensures_seq; [by apply cooling_ok|]. intros w1 [] Hi1 Hh1. eapply ensures_seq; [by apply exhausted_ok|]. intros w2 [] Hi2 Hh2.
  eapply ensures_seq; [by apply deadlock_ok|]. intros w3 [] Hi3 Hh3. by destruct held; eapply noted_ends.
Qed.

(** ** Dispatching *)

(** The kept items can be dispatched, and so can those not looked at yet. *)
Definition Keeping (active : list string) (w : World) (x : list string * LoopLedger) : Prop :=
  Held w x.2 ∧ (∀ k, k ∈ active → cd_liveAtDispatch d k = false → InState s0 InProgress k w) ∧
  ∀ k, k ∈ x.1 → k ∈ active ∧ cd_liveAtDispatch d k = false.

Lemma keep_ok active acc i w :
  i ∈ active → Inv w → Keeping active w acc → ok (keepStep sha256hex runId token d acc i) w (Keeping active).
Proof.
  intros Hin Hi (Hh & Hs & Hk). unfold keepStep. destruct (cd_liveAtDispatch d i) eqn:El.
  - eapply ensures_seq; [apply (ensures_store _ _ _ (fun w' s => w' = w ∧ s = w.1)); done|]. intros w1 s Hi1 [-> ->].
    eapply ensures_seq; [apply (ensures_lift _ _ _ _ (fun w' x => w' = w ∧
      revertCapacityWaitItem sha256hex w.1 i (cd_engine d) (cd_time d i) (cd_logTime d) = Ok x)); done|].
    intros w1 [ws l'] Hi2 [-> E]. eapply ensures_seq; [by eapply shift_ok|]. intros w2 [] Hi3 (Hh2 & _ & Ho).
    eapply ensures_seq; [apply ensures_and; [by eapply held_quiet|by apply quiet_same]|]. intros w3 [] Hi4 [Hh3 Hs3].
    eapply ensures_seq; [apply ensures_and; [by eapply held_noted|by apply noted_same]|]. intros w4 [] Hi5 [Hh4 Hs4].
    apply ensures_next; [done|]. split; [done|]. split; [|done]. intros k Ha Hl.
    eapply inState_same; [exact Hs4|]. eapply inState_same; [exact Hs3|]. apply Ho; [congruence|by apply Hs].
  - apply ensures_next; [done|]. split; [done|]. split; [done|]. cbn [fst]. intros k [?|Hk0%list_elem_of_singleton]%elem_of_app; [by apply Hk|by subst k].
Qed.

(** Before the dispatch. *)
Lemma kept_ok active l w :
  Inv w → Started w (active, l) → ok (forEach (keepStep sha256hex runId token d) active ([], l)) w (Keeping active).
Proof.
  intros Hi [Hh Hs]. apply ensures_forEach; [|done|split; [done|split; [by intros k ? _; apply Hs|by intros k ?%elem_of_nil]]].
  intros w1 a i Hin Hi1 Hk. by apply keep_ok.
Qed.

Lemma keeping_guard active w kept l : Keeping active w (kept, l) → kept ≠ [] → DispatchGuard s0 d kept w.
Proof.
  intros (((_ & _ & Hu) & Hh) & Ha & Hk) Hne. split; [done|]. split; [by eapply stopUnder_hard|].
  intros k [Hin Hl]%Hk. split; [|done]. by apply Ha.
Qed.

End Phases.

(** ** The cycle *)

(** What a cycle that returns before the dispatch reports. *)
Record Reported (s0 : RunStore) (w : World) (r : SupervisorCycleResult) : Prop := {
  rp_stop : ∀ st, cr_stop r = Some st → ∃ g, Generation s0 w.1 g ∧ stop g = Some st;
  rp_cooling : ∀ c, cr_cooling r = Some c → ∃ g, Generation s0 w.1 g ∧ cooling g = Some c;
  rp_done : cr_allDone r = true →
    ∃ g, Generation s0 w.1 g ∧
      (isLifecycle LSucceeded g ∨
       ∀ it, it ∈ c_items (run_contract s0) → isFinished g (ci_id it) = true ∨ ExcludedNow s0 (ci_id it) w);
}.

Lemma recorded_reported s0 X w r : Recorded s0 X w r → (∀ k, k ∈ X → ExcludedNow s0 k w) → Reported s0 w r.
Proof.
  intros [H1 H2 H3] HX. split; [done|done|]. intros Ha. destruct (H3 Ha) as (g & Hg & [Hl|Hf]); exists g; (split; [done|]); [by left|right].
  intros it Hin. destruct (Hf it Hin) as [?|Hx]; [by left|]. right. by apply HX.
Qed.

Section Plan.
Context (sha256hex : string → string) {dates : IsoDates} (mint : string) (isoAfter : string → jsnum → string) (showNum : jsnum → string)
  (toNumber : string → jsnum) (Date_parse : string → option Z) (stringify : jval → string) (signals : list string)
  (JSON_parse : string → option jval) (repoName baseBranch : string).
Context (runId token : string) (d : CycleDeps) (s0 : RunStore) (wf : LedgerWF (run_ledger s0)) `{!RecoveryLaw sha256hex d}.

#[local] Abbreviation ok := (ensures (Inv s0) (Reported s0)).

Lemma appends_hold l : appends (holdPhase sha256hex toNumber runId token d l).
Proof.
  unfold holdPhase. cbv zeta. destruct (invalidateStaleAuthorityHolds _ _ _ _). apply appends_seq; [apply appends_writes|]. intros _.
  destruct (reclassifyInFlightHumanHolds _ _). apply appends_seq; [apply appends_writes|]. intros _.
  destruct (reopenClearedBlockedHolds _ _ _ _ _ _ _). apply appends_seq; [apply appends_writes|]. intros _. apply appends_next.
Qed.

Lemma appends_gate c l p : appends (cycleResultForCompatibilityStop sha256hex mint showNum stringify signals JSON_parse repoName baseBranch runId token d c l p).
Proof.
  unfold cycleResultForCompatibilityStop. destruct (stop l); [|apply appends_next]. apply appends_seq; [apply appends_lift|]. intros sib. cbv zeta.
  destruct (continueSiblings _); [apply appends_next|]. destruct (bool_decide _).
  - destruct (persistCoolingFromCompatibilityStop _ _ _ _ _) as [[ws cooled] record]. eauto 10 with appends.
  - eauto 10 with appends.
Qed.

Lemma appends_recover c acc e :
  appends (recoverStep sha256hex mint showNum Date_parse stringify signals JSON_parse repoName baseBranch runId token d c acc e).
Proof.
  unfold recoverStep. case_decide; [apply appends_next|]. destruct (_ || _).
  { apply appends_seq; [apply appends_quietly, appends_writes|]. intros _. apply appends_next. }
  apply appends_seq.
  - intros w. unfold liftW. destruct (cd_recover d c (id e) w) as [w' [r|x]] eqn:E; apply (recovery_law _ _ w.1) in E as [[_ _ He _ _] _]; done.
  - intros r. cbv zeta. apply appends_seq; [apply appends_gate|]. intros _. apply appends_next.
Qed.

Lemma appends_completion c l X p held : appends (completionPhase sha256hex mint runId token d c l X p held).
Proof. unfold completionPhase. destruct (allResolved _ _ _); [|apply appends_next]. cbv zeta. eauto 10 with appends. Qed.

#[local] Abbreviation plan d :=
  (cyclePlan sha256hex mint isoAfter showNum toNumber Date_parse stringify signals JSON_parse repoName baseBranch runId token d).

Lemma plain_ok {A} (m : Cyc A) w N : ensures (Inv s0) (Recorded s0 ∅) m w N → ok m w N.
Proof. intros H. eapply ensures_results; [exact H|]. intros w' r Hr. eapply recorded_reported; [exact Hr|set_solver]. Qed.

(** With the event log as it was, and more. *)
Lemma grown_ok {A} (m : Cyc A) w N :
  appends m → ensures (Inv s0) (Recorded s0 ∅) m w N →
  ok m w (fun w' a => N w' a ∧ lines (run_events w.1) `prefix_of` lines (run_events w'.1)).
Proof. intros Ha H. eapply ensures_results; [by apply ensures_appends, plain_ok|]. by intros w' r [? _]. Qed.

Lemma completed_ok c l X progress held w :
  Inv s0 w → Held sha256hex s0 w l → forRun s0 c → (∀ k, k ∈ X → ExcludedNow s0 k w) →
  ok (completionPhase sha256hex mint runId token d c l X progress held) w (fun w' _ => Held sha256hex s0 w' l).
Proof.
  intros Hi Hh Hc Hx.
  pose proof (ensures_appends _ _ _ _ _ (appends_completion c l X progress held) (completion_ok sha256hex mint runId token d s0 X c l progress held w Hi Hh Hc)) as H.
  eapply ensures_results; [eapply ensures_weaken; [exact H|by intros w' u [? _]]|].
  intros w' r [Hr Hp]. eapply recorded_reported; [exact Hr|]. intros k Hk. eapply excluded_later; [exact Hp|by apply Hx].
Qed.

Lemma plan_ok w : Inv s0 w → ok (plan d) w (fun w' '(_, active, l, _, _) => active ≠ [] ∧ Started sha256hex s0 w' (active, l)).
Proof.
  intros Hi. unfold cyclePlan. eapply ensures_seq; [by apply plain_ok, admit_ok|]. intros w1 [c l0] Hi1 [Hc _]. cbn [fst] in Hc.
  eapply ensures_seq; [by apply plain_ok, settle_ok|]. intros w2 [drifted l1] Hi2 H2.
  eapply ensures_seq; [by apply plain_ok, dependency_ok|]. intros w3 [[ext propagated] l2] Hi3 H3.
  eapply ensures_seq; [by apply plain_ok, precondition_ok|]. intros w4 [excluded schedulable] Hi4 [H4 Hex]. cbn [fst snd] in *.
  eapply ensures_seq; [by apply grown_ok, hold_ok; [apply appends_hold|..]|]. intros w5 l3 Hi5 [H5 P5]. cbv zeta.
  eapply ensures_seq; [by apply grown_ok, recovery_ok; [apply appends_forEach, appends_recover|..]|]. intros w6 pass Hi6 [H6 P6].
  eapply ensures_seq; [apply completed_ok; [done|done|done|]|].
  { intros k Hk. eapply excluded_later; [exact P6|]. eapply excluded_later; [exact P5|by apply Hex]. }
  intros w7 [] Hi7 H7. eapply ensures_seq; [by apply plain_ok, schedule_ok|]. intros w8 [active l5] Hi8 H8.
  destruct active; [apply plain_ok, idle_ok; [done..|apply H8]|by apply ensures_next].
Qed.
(** The whole cycle, with a dispatch that keeps the run on course. *)
Lemma body_ok `{!DispatchLaw d} w :
  Inv s0 w →
  ensures (Inv s0) (fun _ _ => True) (cycleBody sha256hex mint isoAfter showNum toNumber Date_parse stringify signals JSON_parse repoName baseBranch runId token d) w
    (fun _ _ => True).
Proof.
  intros Hi. unfold cycleBody. eapply ensures_seq; [eapply ensures_results; [by apply plan_ok|done]|].
  intros w1 [[[[c active] l] progress] held] Hi1 [_ Hs]. unfold dispatchPhase.
  eapply ensures_seq; [eapply ensures_results; [by apply (kept_ok sha256hex runId token d s0 ∅)|done]|].
  intros w2 [[|k ks] l'] Hi2 _; [by apply ensures_next|]. unfold ensures, liftW.
  destruct (cd_dispatch d _ _ w2) as [w' [r|e]] eqn:E; apply dispatch_law in E; unfold Inv in *; [split; [|done]|]; by etrans.
Qed.
End Plan.

Section Theorems.
Context (sha256hex : string → string) {dates : IsoDates} (mint : string) (isoAfter : string → jsnum → string) (showNum : jsnum → string)
  (toNumber : string → jsnum) (Date_parse : string → option Z) (stringify : jval → string) (signals : list string)
  (JSON_parse : string → option jval) (repoName baseBranch : string) (runId token : string).

#[local] Abbreviation cycle := (runSupervisorCycle sha256hex mint isoAfter showNum toNumber Date_parse stringify signals JSON_parse repoName baseBranch runId token).
#[local] Abbreviation plan := (cyclePlan sha256hex mint isoAfter showNum toNumber Date_parse stringify signals JSON_parse repoName baseBranch runId token).

(** C9. Everything a supervisor cycle does before the dispatch, on a well-formed
    run: wherever it ends, returning, throwing or going on, it has changed the run
    only as the engine's operations do. What it returns is on record: a stop or
    Cooling it reports is the one of a ledger generation this cycle leaves (the
    one a read gives, or one the store's check rejected), and [allDone] means
    that such a generation has a lifecycle recorded as succeeded or has every
    item of the contract finished, except those whose exclusion by the
    precondition gate this cycle appended to the event log. And where it goes
    on, it passes on at least one item, every one in progress in such a
    generation, with no stop in the stored ledger but a mechanical one. *)
Theorem plan_sound d `{!RecoveryLaw sha256hex d} w :
  LedgerWF (run_ledger w.1) →
  match plan d w with
  | (w', Return r) => RunEvolves w.1 w'.1 ∧ Reported w.1 w' r
  | (w', Throw _) => RunEvolves w.1 w'.1
  | (w', Next (_, active, _, _, _)) =>
      RunEvolves w.1 w'.1 ∧ active ≠ [] ∧ hardStopped (run_ledger w'.1) = false ∧ ∀ k, k ∈ active → InState w.1 InProgress k w'
  end.
Proof.
  intros Hwf. assert (Inv w.1 w) as Hi by by unfold Inv.
  pose proof (plan_ok sha256hex mint isoAfter showNum toNumber Date_parse stringify signals JSON_parse repoName baseBranch runId token d w.1 Hwf w Hi) as H.
  unfold ensures in H. destruct (plan d w) as [w' [[[[[c active] l] progress] held]|r|e]]; [|exact H..].
  destruct H as (H1 & H2 & [[(_ & _ & Hu) Hh] H4]). split; [exact H1|]. split; [done|]. split; [by eapply stopUnder_hard|exact H4].
Qed.

(** The same dependencies with another dispatch. *)
Definition withDispatch (d : CycleDeps) (f : DispatchFrame → list string → World → World * result LoopError SupervisorCycleResult) : CycleDeps :=
  mkCycleDeps (cd_observe d) (cd_external d) (cd_engine d) (cd_liveAtReopen d) (cd_liveAtRecovery d) (cd_liveAtDispatch d) (cd_advanceLock d)
    (cd_facts d) (cd_isoOfMs d) (cd_clockMs d) (cd_recover d) f (cd_admittedAt d) (cd_nowIso d) (cd_recorded d) (cd_time d) (cd_skipTime d) (cd_logTime d)
    (cd_idleTime d) (cd_idleMs d) (cd_refreshedAt d) (cd_notBefore d).

(** C10. Items are dispatched only under the guard: two dispatchers that agree
    whenever the run they are called on has no stop but a mechanical one in its
    stored ledger, and every item they are given has no live advance elsewhere
    and is in progress in that ledger (or in one this cycle wrote and the store's
    check rejected; nothing else, where no write was rejected), give the same
    cycle. *)
Theorem dispatch_guarded d `{!RecoveryLaw sha256hex d} dispatch w :
  LedgerWF (run_ledger w.1) →
  (∀ f ks w', RunEvolves w.1 w'.1 → DispatchGuard w.1 d ks w' → dispatch f ks w' = cd_dispatch d f ks w') →
  cycle (withDispatch d dispatch) w = cycle d w.
Proof.
  intros Hwf Hd. assert (Inv w.1 w) as Hi by by unfold Inv. unfold runSupervisorCycle, cycleBody.
  change (cyclePlan sha256hex mint isoAfter showNum toNumber Date_parse stringify signals JSON_parse repoName baseBranch runId token (withDispatch d dispatch))
    with (cyclePlan sha256hex mint isoAfter showNum toNumber Date_parse stringify signals JSON_parse repoName baseBranch runId token d).
  pose proof (plan_ok sha256hex mint isoAfter showNum toNumber Date_parse stringify signals JSON_parse repoName baseBranch runId token d w.1 Hwf w Hi) as Hp.
  unfold ensures in Hp. unfold seqC at 1 2.
  destruct (cyclePlan _ _ _ _ _ _ _ _ _ _ _ _ _ _ w) as [w1 [[[[[c active] l] progress] held]|r|e]]; [|done..]. destruct Hp as (Hi1 & _ & Hs).
  unfold dispatchPhase. change (keepStep sha256hex runId token (withDispatch d dispatch)) with (keepStep sha256hex runId token d).
  pose proof (kept_ok sha256hex runId token d w.1 ∅ active l w1 Hi1 Hs) as Hk. unfold ensures in Hk. unfold seqC.
  destruct (forEach _ _ _ w1) as [w2 [[kept l']|r|e]]; [|done..]. destruct Hk as [Hi2 Hk]. destruct kept as [|k ks]; [done|].
  unfold liftW. cbn [cd_dispatch withDispatch]. rewrite Hd; [done|exact Hi2|]. by eapply keeping_guard.
Qed.

(** The cycles of a drive, one after the other. *)
Definition cyclesWith (d : nat → CycleDeps) (n : nat) (s : RunStore) : RunStore * result LoopError SupervisorCycleResult :=
  let (w, out) := cycle (d n) (s, []) in (w.1, out).

#[export] Instance cycles_lawful d `{!∀ n, RecoveryLaw sha256hex (d n), !∀ n, DispatchLaw (d n)} : CycleLaw (cyclesWith d).
Proof.
  intros n s Hwf. unfold cyclesWith, runSupervisorCycle.
  pose proof (body_ok sha256hex mint isoAfter showNum toNumber Date_parse stringify signals JSON_parse repoName baseBranch runId token (d n) s Hwf (s, []) ltac:(by unfold Inv)) as Hok.
  unfold ensures in Hok. destruct (cycleBody _ _ _ _ _ _ _ _ _ _ _ _ _ _ _) as [w' [r|r|e]]; cbn [fst]; [apply Hok..|exact Hok].
Qed.
End Theorems.

(** ** In-flight holds *)

Definition settledEntry (d : CycleDeps) (e : LoopItemLedgerEntry) : LoopItemLedgerEntry :=
  hold_entry e Pending None (mkHistory (cd_time d (id e)) (state e) Pending (cd_engine d) None None (Some settleNote)).

(** The item is held for a decision that says nothing protected and that the
    gathered facts already make. *)
Definition Decided (d : CycleDeps) (e : LoopItemLedgerEntry) : Prop :=
  (state e = Paused ∨ state e = Waiting) ∧
  ∃ q, hold_request e = Some q ∧ hold_kind q ≠ "authority-grant" ∧
    ¬ Protected (tokenizeRecommendation (js_trim (hold_prompt q))) ∧ Covered (hold_prompt q) (cd_facts d (id e)).

Lemma holdInput_settles d facts sha q :
  shouldReleaseAutoSettleableHold (cd_isoOfMs d) (cd_clockMs d) (holdInput facts sha q) = true ↔
  hold_kind q ≠ "authority-grant" ∧ ¬ Protected (tokenizeRecommendation (js_trim (hold_prompt q))) ∧ Covered (hold_prompt q) facts.
Proof.
  rewrite settles_exact. unfold holdInput. case_decide as Hk.
  - split; [|by intros [? _]]. intros [_ _ H _ _ _ _]. by destruct H.
  - split; [by intros [_ _ _ _ _ H1 H2]|]. intros (_ & H1 & H2). split; simpl; try done; unfold settleable; rewrite !elem_of_cons, ?elem_of_nil.
    + by intros [?|[?|[?|?]]].
    + tauto.
Qed.

Definition autoSettles (d : CycleDeps) (observed : string → option string) (e : LoopItemLedgerEntry) : bool :=
  match hold_request e with
  | None => false
  | Some q =>
      shouldReleaseAutoSettleableHold (cd_isoOfMs d) (cd_clockMs d)
        (holdInput (cd_facts d (id e)) (match observed (id e) with Some h => Some h | None => authority_candidate_head q end) q)
  end.

Lemma reclassifyStep_items d observed a i e :
  oget (items a.2) i = Some e → id e = i →
  items (reclassifyStep d observed a i).2 = oset i (if autoSettles d observed e then settledEntry d e else e) (items a.2).
Proof.
  destruct a as [ws l]. simpl. intros He Hi. unfold reclassifyStep, autoSettles. rewrite He.
  destruct (hold_request e) as [q|]; [|by rewrite oset_id]. cbv zeta. destruct (shouldReleaseAutoSettleableHold _ _ _); simpl; [by unfold settledEntry; rewrite Hi|].
  by rewrite oset_id.
Qed.


(** ** Witnesses *)

#[local] Existing Instance StoreSample.dates.

Module CycleSample.
#[local] Existing Instance StoreSample.dates.
Definition external : ReconcileObserveDeps LoopError :=
  mkObserveDeps LoopError (fun _ => Ok None) (fun _ => Ok None) (fun _ => Ok None).

(** A recovery that waits, and a dispatch that reports progress. *)
Definition recover (_ : LoopContract) (_ : string) (w : World) : World * result LoopError RecoveryExecutionResult :=
  (w, Ok (mkRecoveryResult (readLedger DriveSample.sha w.1) false None)).
Definition dispatch (f : DispatchFrame) (_ : list string) (w : World) : World * result LoopError SupervisorCycleResult :=
  (w, Ok (cycleReport true None None false false (df_held f))).

Definition depsWith (facts : string) (observe : ObserveDeps) (live : bool) : CycleDeps :=
  mkCycleDeps observe external Claude (fun _ => false) (fun _ => false) (fun _ => live) (fun _ => true) (fun _ => facts) (fun _ => "t") 0
    recover dispatch "t" "t" "t" (fun _ => "t") (fun _ => "t") "t" "t" 0 "t" (fun t => t).

Definition deps : ObserveDeps → bool → CycleDeps := depsWith "".

#[global] Instance recover_law observe live : RecoveryLaw DriveSample.sha (deps observe live).
Proof. intros c i s0 w w' out [= <- <-] Hi. split; [done|]. intros r [= <-]. by apply read_held. Defined.
#[global] Instance dispatch_law observe live : DispatchLaw (deps observe live).
Proof. by intros f ks w w' out [= <- _]. Defined.

Definition sample (observe : ObserveDeps) (live : bool) (st : LoopItemState) : World * result LoopError SupervisorCycleResult :=
  runSupervisorCycle DriveSample.sha "lop-1" DriveSample.iso (fun _ => "n") ObserveSample.toNumber HoldSample.parse (fun _ => "") []
    (fun _ => None) "repo" "main" "run" "mine" (deps observe live) (DriveSample.store st (Some DriveSample.record), []).

(** Up to the dispatch. *)
Definition planned (observe : ObserveDeps) (live : bool) (st : LoopItemState) :=
  cyclePlan DriveSample.sha "lop-1" DriveSample.iso (fun _ => "n") ObserveSample.toNumber HoldSample.parse (fun _ => "") []
    (fun _ => None) "repo" "main" "run" "mine" (deps observe live) (DriveSample.store st (Some DriveSample.record), []).
Definition completes {A} (out : World * Out SupervisorCycleResult A) : bool := match out.2 with Return r => cr_allDone r | _ => false end.

Definition inReview : ObserveDeps := ObserveSample.deps ["pipeline:review-1"] PrStateOpen None (Some ObserveSample.bound).
Definition stateAfter (out : World * result LoopError SupervisorCycleResult) : option LoopItemState :=
  state_of (items (run_ledger out.1.1)) "7".

Lemma store_wf st lock : LedgerWF (run_ledger (DriveSample.store st lock)).
Proof. apply LedgerWF_check; [by apply (bool_decide_unpack _); vm_compute|by destruct st; vm_compute]. Defined.

(** Started and dispatched; back to [pending] where another process advances it;
    and done, once its pull request is seen merged. *)
Definition reported (out : World * result LoopError SupervisorCycleResult) : option (bool * bool) :=
  match out.2 with Ok r => Some (cr_progress r, cr_allDone r) | Err _ => None end.

Example cycles :
  let out := sample inReview false Pending in stateAfter out = Some InProgress ∧ reported out = Some (true, false) ∧
  let out := sample inReview true Pending in stateAfter out = Some Pending ∧ reported out = Some (false, false) ∧
  let out := sample ObserveSample.merged false InProgress in stateAfter out = Some Merged ∧ reported out = Some (true, true).
Proof. by vm_compute. Qed.

(** A hold for a decision the facts make, and for authority they do not give. *)
Definition asks (kind prompt : string) : LoopItemLedgerEntry :=
  SupervisorSample.held SupervisorSample.base (mkHold "req-1" "7" prompt None Claude "t0" None None kind None None None None None).
Definition informed : CycleDeps := depsWith "CONTEXT.md: the public API uses REST" inReview false.
Definition after (kind prompt : string) : option LoopItemState :=
  SupervisorSample.stateOf (reclassifyInFlightHumanHolds informed (SupervisorSample.ledger (asks kind prompt) "abc")).2.

Example reclassified :
  after "decision" "use REST for the public API" = Some Pending ∧ after "decision" "use GraphQL for the public API" = Some Waiting ∧
  after "authority-grant" "use REST for the public API" = Some Waiting ∧ after "decision" "merge the public API" = Some Waiting.
Proof. by vm_compute. Qed.

(** A cycle can append no action evidence at all: here the one after success. *)
Theorem silent_cycle :
  let w := (sample ObserveSample.merged false InProgress).1 in
  let out := runSupervisorCycle DriveSample.sha "lop-1" DriveSample.iso (fun _ => "n") ObserveSample.toNumber HoldSample.parse (fun _ => "") []
    (fun _ => None) "repo" "main" "run" "mine" (deps ObserveSample.merged false) w in
  reported out = Some (false, true) ∧ out.1.2 = w.2.
Proof. by vm_compute. Qed.
End CycleSample.

Lemma plan_sound_witness :
  ∃ w' r, CycleSample.planned ObserveSample.merged false InProgress = (w', Return r) ∧ cr_allDone r = true ∧
  RunEvolves (DriveSample.store InProgress (Some DriveSample.record)) w'.1 ∧ Reported (DriveSample.store InProgress (Some DriveSample.record)) w' r.
Proof.
  pose proof (plan_sound DriveSample.sha "lop-1" DriveSample.iso (fun _ => "n") ObserveSample.toNumber HoldSample.parse (fun _ => "") []
    (fun _ => None) "repo" "main" "run" "mine" (CycleSample.deps ObserveSample.merged false)
    (DriveSample.store InProgress (Some DriveSample.record), []) (CycleSample.store_wf _ _)) as H.
  change (match CycleSample.planned ObserveSample.merged false InProgress with
    | (w', Return r) => RunEvolves (DriveSample.store InProgress (Some DriveSample.record)) w'.1 ∧
        Reported (DriveSample.store InProgress (Some DriveSample.record)) w' r
    | (w', Throw _) => RunEvolves (DriveSample.store InProgress (Some DriveSample.record)) w'.1
    | (w', Next (_, active, _, _, _)) => RunEvolves (DriveSample.store InProgress (Some DriveSample.record)) w'.1 ∧ active ≠ [] ∧
        hardStopped (run_ledger w'.1) = false ∧ ∀ k, k ∈ active → InState (DriveSample.store InProgress (Some DriveSample.record)) InProgress k w'
    end) in H.
  assert (CycleSample.completes (CycleSample.planned ObserveSample.merged false InProgress) = true) as E by (vm_compute; reflexivity).
  revert E H. generalize (CycleSample.planned ObserveSample.merged false InProgress). intros [w' [x|r|e]] E H; [discriminate E| |discriminate E].
  exists w', r. split; [reflexivity|]. split; [exact E|exact H].
Defined.

(** A dispatcher that refuses whatever the guard excludes is never refused. *)
Definition guarded (s0 : RunStore) (d : CycleDeps) (f : DispatchFrame) (ks : list string) (w : World) : World * result LoopError SupervisorCycleResult :=
  if negb (hardStopped (run_ledger w.1)) &&
     forallb (fun k => existsb (fun g => bool_decide (state_of (items g) k = Some InProgress))
                         (run_ledger w.1 :: drop (length (run_rejected s0)) (run_rejected w.1)) && negb (cd_liveAtDispatch d k)) ks
  then cd_dispatch d f ks w else (w, throw FValidation "not in progress").

Lemma guarded_calls s0 d f ks w : DispatchGuard s0 d ks w → guarded s0 d f ks w = cd_dispatch d f ks w.
Proof.
  intros (_ & Hh & Hk). unfold guarded. rewrite Hh. cbn [negb andb].
  rewrite (proj2 (forallb_elem _ _)); [done|]. intros k Hin. destruct (Hk k Hin) as [(g & Hg & Hs) ->]. rewrite andb_true_r. apply existsb_exists. exists g.
  split; [apply list_elem_of_In, elem_of_cons; exact Hg|]. by apply bool_decide_eq_true.
Qed.

Lemma dispatch_guarded_witness :
  let d := CycleSample.deps CycleSample.inReview false in
  let s := DriveSample.store Pending (Some DriveSample.record) in
  runSupervisorCycle DriveSample.sha "lop-1" DriveSample.iso (fun _ => "n") ObserveSample.toNumber HoldSample.parse (fun _ => "") []
    (fun _ => None) "repo" "main" "run" "mine" (withDispatch d (guarded s d)) (s, []) =
  CycleSample.sample CycleSample.inReview false Pending.
Proof. apply dispatch_guarded; [apply _|apply CycleSample.store_wf|]. intros f ks w' _ Hg. by apply guarded_calls. Defined.

