(* ===== verification/LinkedAdvance.v ===== *)
(** * Evidence of the linked advance

    [refineRecoveryEvidenceFromLinkedAdvance] of
    [core/scripts/loop/supervisor.ts]: when the events of the advance a block
    came from are exactly those of the run, the item and the candidate, and
    nothing after their last blocker says otherwise, the diagnostic of that
    blocker takes the place of the recorded one.  With the time stamps of
    [loop/advance-event-envelope.ts] and the event roles of [run-store.ts]. *)

From Stdlib Require Import ZArith QArith Qcanon.
From stdpp Require Import numbers base gmap strings list pretty.
From S2P Require Import Prelude Regex LoopTypes Ownership Lifecycle RecoveryPolicy Frontier Dependencies Schedule Precondition Observation TypedRequests RecoveryEpisodes Settlement RecoveryHandlers Store Holds StageDiagnostic Applicability Observe Reconcile Supervisor LoopSteps Drive Cycle.
Local Open Scope nat_scope.

(** ** Values *)

Definition isStringField (v : option jval) : option string := match v with Some (JStr s) => Some s | _ => None end.

(** [Boolean(v)]; a number that is not finite came from JSON and is not [NaN]. *)
Definition jsTruthy (v : option jval) : bool :=
  match v with
  | None | Some JNull | Some (JBool false) => false
  | Some (JStr s) => bool_decide (s ≠ "")
  | Some (JNum n) => bool_decide (n ≠ num 0)
  | Some _ => true
  end.

(** [Number.isInteger(v) && v >= least]. *)
Definition integerFrom (least : Z) (v : option jval) : bool :=
  match v with Some (JNum n) => isInteger n && num_geb n least | _ => false end.

(** [/^[0-9a-f]{40}$/i.test(v.trim()) && v.trim().toLowerCase() === expected]. *)
Definition isHeadOf (expected : string) (v : option jval) : bool :=
  match isStringField v with
  | Some s => isSha40 (js_trim s) && bool_decide (lowerString (js_trim s) = expected)
  | None => false
  end.

(** The same where the field is given. *)
Definition headIfGiven (expected : string) (v : option jval) : bool := match v with None => true | _ => isHeadOf expected v end.

Definition eventType (e : jval) : option string := isStringField (fieldOf (Some e) "type").
Definition hasType (t : string) (e : jval) : bool := bool_decide (eventType e = Some t).

(** ** Time stamps *)

Definition eventTimeRe : regex :=
  cat [exact 4 digit; lit "-"; exact 2 digit; lit "-"; exact 2 digit; lit "T"; exact 2 digit; lit ":"; exact 2 digit; lit ":"; exact 2 digit;
       Many 0 (Some 1) (cat [lit "."; exact 3 digit]); lit "Z"; AtEnd].

(** [s.replace(p, r)] for a string [p]. *)
Fixpoint replaceFirst (p r : list Ascii.ascii) (s : list Ascii.ascii) : list Ascii.ascii :=
  if bool_decide (take (length p) s = p) then r ++ drop (length p) s
  else match s with [] => [] | c :: s' => c :: replaceFirst p r s' end.

Section Linked.
Context (Date_parse : string → option Z) (isoOfMs : Z → string) (showNum : jsnum → string) (stringify : jval → string) (signals : list string)
  (sha256hex : string → string).

Definition isCanonicalUtcEventTimestamp (v : option jval) : bool :=
  match isStringField v with
  | None => false
  | Some s =>
      if bool_decide (exec eventTimeRe (None, chars s) = []) then false
      else match Date_parse s with
      | None => false
      | Some t =>
          if string_includes s "." then bool_decide (isoOfMs t = s)
          else bool_decide (unchars (replaceFirst (chars ".000Z") (chars "Z") (chars (isoOfMs t))) = s)
      end
  end.

(** ** Roles *)

(** [RUN_EVENT_RECOVERY_AUTHORITY_ROLE]: the events that bear on the state. *)
Definition stateEvents : list string :=
  ["run_start"; "run_complete"; "stage_start"; "stage_complete"; "pr_created"; "pr_updated"; "review_verdict"; "gate_result"; "tester_evidence";
   "tester_targeted_check"; "blocker_set"; "blocker_cleared"; "harness_timeout"; "fix_harness_retry"; "harness_mutation_ownership"; "delta_round";
   "delta_round_ceiling"; "candidate_epoch_restarted"; "worktree_created"; "worktree_removed"; "human_intervention"; "correction_event"; "product_fault"].

Definition bearsOnState (e : jval) : bool := match eventType e with Some t => includes t stateEvents | None => false end.

Definition RECOVERY_ATTEMPT_OUTCOMES : list string :=
  ["started"; "recovered"; "superseded"; "exhausted"; "skipped"; "repeated_no_progress"; "needs_human"; "human_authority"; "failed"].
Definition LEGACY_RECOVERY_RESULT_OUTCOMES : list string :=
  ["success"; "recovered"; "ok"; "exhaustion"; "exhausted"; "failed"; "resume"; "resumed"; "started"].

Definition outcomeIn (names : list string) (e : jval) : bool :=
  match isStringField (fieldOf (Some e) "outcome") with Some o => includes o names | None => false end.

(** ** The tail after the last blocker *)

(** What the tail is checked against. *)
Record TailContext := mkTail {
  tc_itemId : string;
  tc_pr : option jval;
  tc_head : string;
  tc_epoch : string;
}.

Definition finiteNonNegative (v : option jval) : bool := match v with Some (JNum n) => isFinite n && num_geb n 0 | _ => false end.

(** [x > 0] for a finite number. *)
Definition finitePositive (v : option jval) : bool := match v with Some (JNum n) => isFinite n && num_positive n | _ => false end.

Definition validMetrics (e : jval) : bool :=
  let f k := fieldOf (Some e) k in
  finiteNonNegative (f "call_count") && finiteNonNegative (f "total_ms") && finiteNonNegative (f "p50_ms") && finiteNonNegative (f "p95_ms") &&
  match f "slowest_calls" with
  | Some (JArr calls) => forallb (fun c => bool_decide (is_Some (isStringField (fieldOf (Some c) "category"))) && finiteNonNegative (fieldOf (Some c) "elapsed_ms")) calls
  | _ => false
  end &&
  match f "by_wrapper" with Some (JObj fs) => forallb (fun p => finiteNonNegative (Some p.2)) fs | _ => false end.

(** The common fields of an event, and the version this reader knows. *)
Definition validEnvelope (e : jval) : bool :=
  integerFrom 1 (fieldOf (Some e) "schema_version") &&
  match eventType e with Some t => negb (blank t) | None => false end &&
  isCanonicalUtcEventTimestamp (fieldOf (Some e) "at") &&
  (negb (bearsOnState e || hasType "loop_recovery_attempt" e || hasType "recovery_result" e) ||
   bool_decide (fieldOf (Some e) "schema_version" = Some (JNum (num 1)))).

(** The fields of each kind of event. *)
Definition validFields (c : TailContext) (e : jval) : bool :=
  let f k := fieldOf (Some e) k in
  let nonBlank k := isNonBlank (f k) in
  if hasType "run_start" e || hasType "blocker_set" e then false
  else if hasType "blocker_cleared" e then true
  else if hasType "stage_start" e then nonBlank "stage"
  else if hasType "stage_complete" e then nonBlank "stage" && nonBlank "outcome"
  else if hasType "pr_created" e || hasType "pr_updated" e then
    integerFrom 1 (f "pr") && (bool_decide (tc_pr c = Some JNull) || bool_decide (f "pr" = tc_pr c)) &&
    headIfGiven (tc_head c) (f "head_sha") && headIfGiven (tc_head c) (f "candidate_sha") && headIfGiven (tc_epoch c) (f "candidate_epoch")
  else if hasType "candidate_epoch_restarted" e then
    match isStringField (f "from_sha") with Some s => isSha40 (js_trim s) | None => false end && isHeadOf (tc_head c) (f "to_sha")
  else if hasType "review_verdict" e then integerFrom 1 (f "round") && isHeadOf (tc_head c) (f "sha") && nonBlank "verdict"
  else if hasType "gate_result" e then
    nonBlank "gate" && match isStringField (f "result") with Some r => includes r ["pass"; "fail"; "partial"; "skipped"] | None => false end
  else if hasType "tester_evidence" e || hasType "tester_targeted_check" e then isHeadOf (tc_head c) (f "candidate_sha")
  else if hasType "harness_timeout" e then nonBlank "stage" && finitePositive (f "timeout_sec")
  else if hasType "fix_harness_retry" e then
    nonBlank "stage" && integerFrom 2 (f "attempt") &&
    match f "attempt", f "limit" with Some (JNum (Fin a)), Some (JNum (Fin m)) => isInteger (Fin m) && Qle_bool a m | _, _ => false end && nonBlank "reason"
  else if hasType "harness_mutation_ownership" e then
    match f "issue" with Some (JNum n) => isInteger n && bool_decide (showNum n = tc_itemId c) | _ => false end && nonBlank "attempt_id"
  else if hasType "delta_round" e then integerFrom 1 (f "round") && integerFrom 1 (f "cap")
  else if hasType "delta_round_ceiling" e then
    integerFrom 0 (f "observed") && integerFrom 1 (f "cap") &&
    match isStringField (f "ceiling_action") with Some a => includes a ["park"; "demote_and_advance"] | None => false end
  else if hasType "loop_recovery_attempt" e then outcomeIn RECOVERY_ATTEMPT_OUTCOMES e
  else if hasType "recovery_result" e then outcomeIn LEGACY_RECOVERY_RESULT_OUTCOMES e
  else if hasType "run_complete" e then nonBlank "final_state"
  else if hasType "gh_metrics_summary" e && bool_decide (f "schema_version" = Some (JNum (num 1))) then validMetrics e
  else negb (bearsOnState e).

Definition validTailEvent (c : TailContext) (e : jval) : bool := isObjectValue (Some e) && validEnvelope e && validFields c e.

(** An event that says the blocker did not last. *)
Definition recovers (e : jval) : bool :=
  bearsOnState e && negb (hasType "run_complete" e) ||
  (hasType "loop_recovery_attempt" e || hasType "recovery_result" e) && outcomeIn ["success"; "recovered"] e ||
  hasType "run_complete" e && hasField (Some e) "final_state" "ready-to-deploy".

(** The blocker is the last word of a completed run. *)
Definition tailStands (c : TailContext) (tail : list jval) : bool :=
  forallb (validTailEvent c) tail && existsb (hasType "run_complete") tail && negb (existsb recovers tail).

(** ** The linked run *)

(** [path.join] of an absolute directory: empty and [.] segments are dropped,
    [..] removes the one before. *)
Definition splitSlash (s : string) : list string :=
  unchars <$> foldr (fun c acc => if decide (c = Ascii.ascii_of_nat 47) then [] :: acc else match acc with [] => [[c]] | x :: xs => (c :: x) :: xs end) [[]] (chars s).
Definition joinStep (acc : list string) (seg : string) : list string :=
  if bool_decide (seg = "") || bool_decide (seg = ".") then acc
  else if bool_decide (seg = "..") then take (length acc - 1) acc else acc ++ [seg].
Definition pathJoin (dir : string) (rest : list string) : string := "/" +:+ join "/" (foldl joinStep [] (splitSlash dir ++ rest)).

Definition isAbsolute (p : string) : bool := startsWith p "/".

(** [path.join(runDirPath(dir, id), "events.jsonl")]. *)
Definition eventsPathOf (dir runId : string) : string := pathJoin dir [".agent-pipeline"; "runs"; runId; "events.jsonl"].

Definition safeRunId (r : string) : bool :=
  negb (includes r [""; "."; ".."]) && negb (string_includes r "/") && negb (string_includes r (String (Ascii.ascii_of_nat 92) EmptyString)).

Record LinkedDeps := mkLinked {
  ld_runStoreRepoDir : string;
  (** [readAdvanceEvents]: the parsed lines, or nothing where the read fails. *)
  ld_readAdvanceEvents : option (string → option (list jval));
}.

(** The events are read only from the place the linked run writes them to. *)
Definition linkedEvents (d : LinkedDeps) (e : LoopItemLedgerEntry) (persisted : jval * jval) : option (list jval) :=
  let linked := default "" (js_trim <$> advance_run_id e) in
  let path := default "" (js_trim <$> isStringField (fieldOf (Some persisted.2) "events_path")) in
  read ← ld_readAdvanceEvents d;
  if safeRunId linked && isAbsolute (ld_runStoreRepoDir d) && isAbsolute path &&
     bool_decide (path = eventsPathOf (ld_runStoreRepoDir d) linked) && hasField (Some persisted.2) "pipeline_run_id" linked &&
     negb (jsTruthy (fieldOf (fieldOf (Some persisted.1) "detail") "evidence_ordering"))
  then read path else None.

(** The last blocker and what follows it. *)
Fixpoint splitLastBlocker (events : list jval) : option (list jval * jval * list jval) :=
  match events with
  | [] => None
  | e :: rest =>
      match splitLastBlocker rest with
      | Some (pre, b, tail) => Some (e :: pre, b, tail)
      | None => if hasType "blocker_set" e then Some ([], e, rest) else None
      end
  end.

(** [typeof v === "number" && Number.isInteger(v) && String(v) === id]. *)
Definition isItemNumber (itemId : string) (v : option jval) : bool :=
  match v with Some (JNum n) => isInteger n && bool_decide (showNum n = itemId) | _ => false end.

Definition ifGiven (test : option jval → bool) (v : option jval) : bool := match v with None => true | _ => test v end.
Definition isText (s : string) (v : option jval) : bool := bool_decide (v = Some (JStr s)).

(** An event names this run and this item where it names any. *)
Definition namesRun (linked itemId : string) (e : jval) : bool :=
  ifGiven (isText linked) (fieldOf (Some e) "run_id") && ifGiven (isText linked) (fieldOf (Some e) "pipeline_run_id") &&
  ifGiven (isItemNumber itemId) (fieldOf (Some e) "issue") && ifGiven (isItemNumber itemId) (fieldOf (Some e) "item_id").

Definition currentVersion (e : jval) : bool :=
  bool_decide (fieldOf (Some e) "schema_version" = Some (JNum (num 1))) && isCanonicalUtcEventTimestamp (fieldOf (Some e) "at").

Definition startsRun (linked itemId repo : string) (e : jval) : bool :=
  currentVersion e && isText linked (fieldOf (Some e) "run_id") && isItemNumber itemId (fieldOf (Some e) "issue") && isText repo (fieldOf (Some e) "repo").

(** The blocker is this run's, item's and candidate's. *)
Definition blockerBelongs (linked repo : string) (c : TailContext) (b : jval) : bool :=
  currentVersion b && ifGiven (isText repo) (fieldOf (Some b) "repo") && namesRun linked (tc_itemId c) b &&
  headIfGiven (tc_epoch c) (fieldOf (Some b) "candidate_epoch") && headIfGiven (tc_head c) (fieldOf (Some b) "candidate_sha").

(** The events are of one run of the item, and their last blocker stands. *)
Definition eventsStand (linked repo : string) (c : TailContext) (events : list jval) : bool :=
  match splitLastBlocker events with
  | None => false
  | Some (pre, b, tail) =>
      match filter (fun e => hasType "run_start" e = true) events with
      | [start] =>
          existsb (hasType "run_start") pre && startsRun linked (tc_itemId c) repo start && namesRun linked (tc_itemId c) start &&
          blockerBelongs linked repo c b && tailStands c tail
      | _ => false
      end
  end.

(** ** The refinement *)

(** [/^[0-9a-f]{40}$/]. *)
Definition isLowerSha (s : string) : bool := isSha40 s && bool_decide (lowerString s = s).

(** A tester result that has to be bound again after the pull request moved. *)
Definition rebindOrdering (head epoch : string) (precise : jval) : bool :=
  let ordering := fieldOf (fieldOf (Some precise) "detail") "evidence_ordering" in
  let prHead := fieldOf ordering "pr_head" in
  let diagnosticHead := default "" (lowerString ∘ js_trim <$> isStringField prHead) in
  hasField ordering "kind" "tester_rebind_after_pr" && hasField ordering "required_role" "implementation" && hasField ordering "observed_role" "missing" &&
  match prHead with None | Some JNull | Some (JStr _) => true | _ => false end &&
  isLowerSha head && isLowerSha epoch &&
  if decide (diagnosticHead = "")
  then hasField ordering "blocker_code" "tester_rebind_pr_head_unobservable" || bool_decide (fieldOf ordering "subject_omitted_because_unobservable" = Some (JBool true))
  else isLowerSha diagnosticHead && bool_decide (head = diagnosticHead).

Definition preciseDiagnostic (e : LoopItemLedgerEntry) (head : string) (events : list jval) : option jval :=
  match lastStageDiagnosticFromEvents showNum stringify signals sha256hex (Some <$> events) None with
  | Err _ => None
  | Ok r =>
      precise ← rs_diagnostic r;
      let p := projectStageDiagnostic showNum stringify signals (Some precise) in
      if rebindOrdering head (observedCandidateEpoch (Some e)) precise && bool_decide (pj_disposition p = Recover) &&
         bool_decide (Some (blocker_class_name (pj_blockerClass p)) = blocked_theme e)
      then Some precise else None
  end.

Definition tailContext (e : LoopItemLedgerEntry) (persisted : jval * jval) : TailContext :=
  mkTail (id e) (fieldOf (Some persisted.2) "pr_number") (default "" (lowerString ∘ js_trim ∘ head_sha <$> last_verified_identity e))
    (lowerString (observedCandidateEpoch (Some e))).

Definition refineRecoveryEvidenceFromLinkedAdvance (d : LinkedDeps) (repo : string) (e : LoopItemLedgerEntry) (persisted : jval * jval) : jval * jval :=
  match linkedEvents d e persisted with
  | None => persisted
  | Some events =>
      let c := tailContext e persisted in
      if eventsStand (default "" (js_trim <$> advance_run_id e)) repo c events then
        match preciseDiagnostic e (tc_head c) events with
        | Some precise => (precise, persisted.2)
        | None => persisted
        end
      else persisted
  end.
End Linked.

(** ** Facts *)

#[local] Arguments stateEvents : simpl never.

Lemma hasType_true t e : hasType t e = true ↔ eventType e = Some t.
Proof. apply bool_decide_eq_true. Qed.

(** An event that does not bear on the state has none of those types. *)
Lemma passive_type t e : bearsOnState e = false → includes t stateEvents = true → hasType t e = false.
Proof.
  intros Hb Ht. apply not_true_is_false. intros H%hasType_true. unfold bearsOnState in Hb. by rewrite H, Ht in Hb.
Qed.

Lemma outcome_split A B e : outcomeIn A e && negb (outcomeIn B e) = outcomeIn (filter (fun o => o ∉ B) A) e.
Proof.
  unfold outcomeIn, includes. destruct (isStringField _) as [o|]; [|done].
  apply eq_true_iff_eq. rewrite andb_true_iff, negb_true_iff, bool_decide_eq_false, !bool_decide_eq_true, list_elem_of_filter. tauto.
Qed.

Definition okOf {E A} (r : result E A) : option A := match r with Ok a => Some a | Err _ => None end.

Section LinkedFacts.
Context (Date_parse : string → option Z) (isoOfMs : Z → string) (showNum : jsnum → string) (stringify : jval → string) (signals : list string)
  (sha256hex : string → string).

#[local] Abbreviation validTail := (validTailEvent Date_parse isoOfMs showNum).
#[local] Abbreviation envelope := (validEnvelope Date_parse isoOfMs).

(** What may follow a blocker that stands, without reference to the candidate:
    the end of the run short of success, recoveries without success, and events
    that do not bear on the state. *)
Definition quietEvent (e : jval) : bool :=
  isObjectValue (Some e) && envelope e &&
  if hasType "run_complete" e then isNonBlank (fieldOf (Some e) "final_state") && negb (hasField (Some e) "final_state" "ready-to-deploy")
  else if bearsOnState e then false
  else if hasType "loop_recovery_attempt" e then outcomeIn (filter (fun o => o ∉ ["success"; "recovered"]) RECOVERY_ATTEMPT_OUTCOMES) e
  else if hasType "recovery_result" e then outcomeIn (filter (fun o => o ∉ ["success"; "recovered"]) LEGACY_RECOVERY_RESULT_OUTCOMES) e
  else if hasType "gh_metrics_summary" e && bool_decide (fieldOf (Some e) "schema_version" = Some (JNum (num 1))) then validMetrics e
  else true.

Lemma type_exclusive t t' e : hasType t e = true → t ≠ t' → hasType t' e = false.
Proof. rewrite hasType_true. unfold hasType. intros -> Hne. apply bool_decide_eq_false. congruence. Qed.

Lemma event_quiet c e : validTail c e && negb (recovers e) = quietEvent e.
Proof.
  unfold validTailEvent, quietEvent. rewrite <- !andb_assoc. f_equal. f_equal. destruct (hasType "run_complete" e) eqn:Er.
  - unfold validFields, recovers. cbv zeta. rewrite Er, andb_false_r.
    rewrite !(type_exclusive "run_complete" _ e Er) by done. cbn [orb andb negb]. done.
  - unfold recovers. rewrite Er. cbn [negb andb]. rewrite andb_true_r, orb_false_r. destruct (bearsOnState e) eqn:Eb; [by rewrite andb_false_r|].
    unfold validFields. cbv zeta. rewrite Er, Eb, !(passive_type _ _ Eb) by reflexivity. cbn [orb negb].
    destruct (hasType "loop_recovery_attempt" e) eqn:Ea; [cbn [orb andb]; apply outcome_split|].
    destruct (hasType "recovery_result" e) eqn:Eo; [cbn [orb andb]; apply outcome_split|]. cbn [orb andb]. by rewrite andb_true_r.
Qed.

(** C32. Reading past the last blocker is equivalent to a check that does not
    look at the candidate: whatever the code verifies of later events that bear
    on the state, they are refused, and only the end of the run short of
    success, recoveries without success and passive events may follow. *)
Theorem tail_equivalent c tail :
  tailStands Date_parse isoOfMs showNum c tail = forallb quietEvent tail && existsb (hasType "run_complete") tail.
Proof.
  unfold tailStands. rewrite <- andb_assoc, (andb_comm (existsb _ _)), andb_assoc. f_equal.
  induction tail as [|e tail IH]; [done|]. cbn [forallb existsb]. rewrite negb_orb, <- IH, <- (event_quiet c e).
  destruct (validTail c e), (recovers e), (forallb _ tail), (existsb _ tail); done.
Qed.

Lemma splitLast_spec events :
  match splitLastBlocker events with
  | Some (pre, b, tail) => events = pre ++ b :: tail ∧ hasType "blocker_set" b = true ∧ ∀ e, e ∈ tail → hasType "blocker_set" e = false
  | None => ∀ e, e ∈ events → hasType "blocker_set" e = false
  end.
Proof.
  induction events as [|e events IH]; cbn [splitLastBlocker]; [by intros e ?%elem_of_nil|].
  destruct (splitLastBlocker events) as [[[pre b] tail]|].
  - destruct IH as (-> & Hb & Ht). done.
  - destruct (hasType "blocker_set" e) eqn:Eb; [done|]. intros e' [->|?]%elem_of_cons; auto.
Qed.

Lemma hasField_type t e : hasField (Some e) "type" t = hasType t e.
Proof.
  unfold hasField, hasType, eventType. apply bool_decide_ext. destruct (fieldOf (Some e) "type") as [[]|]; simpl; naive_solver.
Qed.

(** The diagnostic of an event file is that of its last blocker. *)
Lemma lastBlocker_split pre b tail :
  hasType "blocker_set" b = true → (∀ e, e ∈ tail → hasType "blocker_set" e = false) → lastBlockerSet (Some <$> (pre ++ b :: tail)) = Some b.
Proof.
  intros Hb Ht. unfold lastBlockerSet. rewrite fmap_app, omap_app, fmap_cons. cbn [omap list_omap]. rewrite hasField_type, Hb.
  rewrite last_app, last_cons. assert (omap (fun e => if hasField e "type" "blocker_set" then e else None) (Some <$> tail) = []) as ->; [|done].
  induction tail as [|e tail IH]; [done|]. rewrite fmap_cons. cbn [omap list_omap]. rewrite hasField_type, Ht by by left. apply IH. intros x Hx. apply Ht. by right.
Qed.

#[local] Abbreviation refine := (refineRecoveryEvidenceFromLinkedAdvance Date_parse isoOfMs showNum stringify signals sha256hex).
#[local] Abbreviation linkedOf e := (default "" (js_trim <$> advance_run_id e)).

(** Why evidence is replaced. *)
Record Justified (d : LinkedDeps) (repo : string) (e : LoopItemLedgerEntry) (p : jval * jval) (precise : jval) : Prop := {
  ju_events : ∃ pre b tail start, linkedEvents d e p = Some (pre ++ b :: tail) ∧
    filter (fun x => hasType "run_start" x = true) (pre ++ b :: tail) = [start] ∧ start ∈ pre ∧ hasType "blocker_set" b = true ∧
    startsRun Date_parse isoOfMs showNum (linkedOf e) (id e) repo start = true ∧
    blockerBelongs Date_parse isoOfMs showNum (linkedOf e) repo (tailContext e p) b = true ∧
    forallb quietEvent tail = true ∧ existsb (hasType "run_complete") tail = true ∧
    (rs_diagnostic <$> okOf (stageDiagnosticFromBlockerSet showNum stringify signals sha256hex (Some b))) = Some (Some precise);
  ju_class : pj_disposition (projectStageDiagnostic showNum stringify signals (Some precise)) = Recover ∧
    Some (blocker_class_name (pj_blockerClass (projectStageDiagnostic showNum stringify signals (Some precise)))) = blocked_theme e;
}.

(** C14. The evidence of a block is kept, or only its diagnostic is replaced: by
    the one of the last blocker in the events of exactly the linked run, item
    and candidate, which nothing after it overturns, and which is recovered as
    the same class. *)
Theorem refinement_justified d repo e p :
  let p' := refine d repo e p in p' = p ∨ p'.2 = p.2 ∧ Justified d repo e p p'.1.
Proof.
  unfold refineRecoveryEvidenceFromLinkedAdvance. cbv zeta. destruct (linkedEvents d e p) as [events|] eqn:El; [|by left].
  destruct (eventsStand _ _ _ _ _ _ _) eqn:Es; [|by left]. destruct (preciseDiagnostic _ _ _ _ _ _ _) as [precise|] eqn:Ep; [|by left]. right.
  split; [done|]. cbn [fst]. unfold eventsStand in Es. pose proof (splitLast_spec events) as Hsp.
  destruct (splitLastBlocker events) as [[[pre b] tail]|]; [|done]. destruct Hsp as (-> & Hb & Ht).
  destruct (filter _ (pre ++ b :: tail)) as [|start [|]] eqn:Ef; [done| |done].
  rewrite !andb_true_iff in Es. destruct Es as [[[[Hpre Hst] _] Hbl] Hta]. rewrite tail_equivalent, andb_true_iff in Hta.
  unfold preciseDiagnostic, lastStageDiagnosticFromEvents in Ep. rewrite (lastBlocker_split _ _ _ Hb Ht) in Ep.
  destruct (stageDiagnosticFromBlockerSet _ _ _ _ (Some b)) as [r|] eqn:Ed; [|done]. destruct (rs_diagnostic r) as [pr|] eqn:Er; [|done]. simpl in Ep.
  destruct (_ && _) eqn:Ec; [|done]. injection Ep as ->. rewrite !andb_true_iff, !bool_decide_eq_true in Ec. destruct Ec as [[_ Hd] Hc].
  split; [|done]. exists pre, b, tail, start. split; [done|]. split; [done|]. split.
  { apply existsb_exists in Hpre as (y & Hy%list_elem_of_In & Hty).
    assert (y ∈ [start]) as Hin; [|by apply list_elem_of_singleton in Hin as <-]. rewrite <- Ef. apply list_elem_of_filter. split; [done|].
    apply elem_of_app. by left. }
  rewrite Ed. cbn. rewrite Er. destruct Hta. done.
Qed.
End LinkedFacts.

(** ** Samples *)

Module LinkedSample.
Definition at_ : string := "2026-01-01T00:00:01.000Z".
Definition parse (t : string) : option Z := if decide (t = at_) then Some 1%Z else None.
Definition head40 : string := "aaaaaaaaaaaaaaaaaaaaaaaaaaaaaaaaaaaaaaaa".
Definition show (_ : jsnum) : string := "7".
Definition event (type : string) (fs : list (string * jval)) : jval :=
  JObj ([("schema_version", JNum (num 1)); ("type", JStr type); ("at", JStr at_)] ++ fs).
Definition precise : jval :=
  JObj [("schema", JStr STAGE_DIAGNOSTIC_SCHEMA); ("reason_code", JStr "workflow-engine-defect"); ("evidence_key", JStr "k");
        ("detail", JObj [("blocker_kind", JStr "harness-failure"); ("reason", JStr "rebind"); ("stage", JStr "pre-merge");
           ("evidence_ordering", JObj [("kind", JStr "tester_rebind_after_pr"); ("required_role", JStr "implementation");
              ("observed_role", JStr "missing"); ("pr_head", JStr head40)])])].
Definition coarse : jval :=
  JObj [("schema", JStr STAGE_DIAGNOSTIC_SCHEMA); ("reason_code", JStr "workflow-engine-defect"); ("evidence_key", JStr "k0");
        ("detail", JObj [("blocker_kind", JStr "harness-failure"); ("reason", JStr "exit")])].
Definition started : jval := event "run_start" [("run_id", JStr "r1"); ("issue", JNum (num 7)); ("repo", JStr "repo")].
Definition blocker : jval :=
  event "blocker_set" [("blocker_kind", JStr "harness-failure"); ("reason", JStr "rebind"); ("stage", JStr "pre-merge"); ("diagnostic", precise)].
Definition completed (final : string) : jval := event "run_complete" [("final_state", JStr final)].
Definition path : string := "/r/.agent-pipeline/runs/r1/events.jsonl".
Definition transport : jval := JObj [("pipeline_run_id", JStr "r1"); ("events_path", JStr path); ("pr_number", JNull)].
Definition item : LoopItemLedgerEntry :=
  mkEntry "7" Blocked [] (Some "workflow-engine-defect") [] None None None None None
    (Some (mkIdentity 7 true false true (Some 11%Z) (Some PrStateOpen) "issue-7" head40 None ChecksSuccess None at_
             None None None None None None None None None None None)) None (Some "r1").
Definition refined (dir : string) (events : list jval) : jval * jval :=
  refineRecoveryEvidenceFromLinkedAdvance parse (fun _ => at_) show (fun _ => "") [] (fun s => s)
    (mkLinked dir (Some (fun p => if decide (p = path) then Some events else None))) "repo" item (coarse, transport).

(** The last blocker of the linked run; not with another directory, a success, a
    stage that started afterwards, or a second run in the file. *)
Example refinements :
  refined "/x/../r/." [started; blocker; completed "blocked"] = (precise, transport) ∧
  refined "/q" [started; blocker; completed "blocked"] = (coarse, transport) ∧
  refined "/r" [started; blocker; completed "ready-to-deploy"] = (coarse, transport) ∧
  refined "/r" [started; blocker; event "stage_start" [("stage", JStr "fix")]; completed "blocked"] = (coarse, transport) ∧
  refined "/r" [started; started; blocker; completed "blocked"] = (coarse, transport).
Proof. by vm_compute. Qed.
End LinkedSample.
