(* ===== verification/Candidate.v ===== *)
(** * The candidate a block belongs to

    The identity a recovery is bound to, from [core/scripts/loop/supervisor.ts]:
    the generation of the latest block, the heads a recorded candidate names, the
    binding of a block to its candidate, and when an observation proves an exact
    candidate that may be advanced. *)

From Stdlib Require Import ZArith QArith Qcanon.
From stdpp Require Import numbers base gmap strings list pretty.
From S2P Require Import Prelude Regex LoopTypes Ownership Lifecycle RecoveryPolicy Frontier Dependencies Schedule Precondition Observation TypedRequests RecoveryEpisodes Settlement RecoveryHandlers Store Holds StageDiagnostic Applicability Observe Reconcile Supervisor LoopSteps Drive Cycle CycleFacts.
Local Open Scope result_scope.
Local Open Scope nat_scope.

(** ** Heads and pull requests named by a candidate *)

Definition splitText (s : string) : list string := unchars <$> splitBar [] (chars s).

(** [/^head=([0-9a-f]{40})$/i], the capture in lower case. *)
Definition headToken (token : string) : option string :=
  h ← strip_prefix "head=" (lowerString token);
  if isSha40 h then Some h else None.

(** The heads one field names, in order. *)
Definition headsIn (value : string) : list string :=
  let bare := lowerString (js_trim value) in
  (if isSha40 bare then [bare] else []) ++ omap headToken (splitText value).

(** [new Set(xs)], in the order of first insertion. *)
Definition distinct {A} `{EqDecision A} (xs : list A) : list A :=
  foldl (fun acc x => if includes x acc then acc else acc ++ [x]) [] xs.

Definition concreteCandidateHeads (epoch identity : option string) : list string :=
  distinct (headsIn (default "" epoch) ++ headsIn (default "" identity)).

Definition candidateMembershipHeads (epoch : option string) (identity : string) : list string := concreteCandidateHeads epoch (Some identity).

(** [/^pr=(\d+)$/i], as a number. *)
Definition prToken (token : string) : option jsnum :=
  ds ← strip_prefix "pr=" (lowerString token);
  if bool_decide (ds ≠ "") && forallb isDecimal (chars ds) then Some (Number ds) else None.

Definition exactCandidatePrTokens (candidateIdentity : string) : list jsnum := omap prToken (splitText candidateIdentity).

Definition attemptIdentity (a : LoopRecoveryAttempt) : string := default "" (candidate_identity a).

(** On the two fields of an attempt. *)
Definition hasBoundedFields (epoch : option string) (identity : string) : bool :=
  if 1 <? length (exactCandidatePrTokens identity) then false
  else
    let epochHeads := concreteCandidateHeads epoch (Some "") in
    let identityHeads := concreteCandidateHeads (Some "") (Some identity) in
    match truthy (js_trim <$> epoch) with
    | Some _ => (length epochHeads =? 1) && (length identityHeads <=? 1)
    | None => length identityHeads =? 1
    end.

Definition recoveryAttemptHasBoundedCandidateFields (a : LoopRecoveryAttempt) : bool :=
  hasBoundedFields (att_candidate_epoch a) (attemptIdentity a).

Definition shareHead (xs ys : list string) : bool := existsb (fun x => includes x ys) xs.

Definition attemptBelongsToObservedCandidate (a : LoopRecoveryAttempt) (identity : option LoopExternalIdentity) (fallbackEpoch : string) : bool :=
  let rawHead := lowerString (default "" (js_trim ∘ head_sha <$> identity)) in
  let logicalEpoch := lowerString (candidateEpochFromIdentity identity) in
  if isSha40 rawHead && isSha40 logicalEpoch && recoveryAttemptHasBoundedCandidateFields a then
    shareHead (candidateMembershipHeads (att_candidate_epoch a) (attemptIdentity a)) (candidateMembershipHeads (Some logicalEpoch) rawHead)
  else attemptBelongsToCandidateEpoch (att_candidate_epoch a) (candidate_identity a) fallbackEpoch.

Section Candidate.
Context (fingerprintEvidence : string → string) (showNum : jsnum → string) (Date_parse : string → option Z) (isoOfMs : Z → string)
  (stringify : jval → string) (signals : list string) (JSON_parse : string → option jval) (sha256hex : string → string) {dates : IsoDates} (mint runId token : string).

(** ** The latest block *)

Record BlockGeneration := mkGeneration {
  bg_time : string;
  bg_blockerClass : string;
  bg_evidenceFingerprint : string;
}.

Definition latestBlockGeneration (e : LoopItemLedgerEntry) : option BlockGeneration :=
  cls ← truthy (blocked_theme e);
  fp ← truthy (evidence_fingerprint e);
  entry ← last (filter (fun h => h_from h = InProgress ∧ h_to h = Blocked) (history e));
  evidence ← h_evidence entry;
  if bool_decide (h_theme entry = Some cls) && bool_decide (fingerprintEvidence evidence = fp)
  then Some (mkGeneration (h_time entry) cls fp) else None.

(** [/^\d{4}-\d{2}-\d{2}T\d{2}:\d{2}:\d{2}\.\d{3}Z$/]. *)
Definition utcRe : regex :=
  cat [exact 4 digit; lit "-"; exact 2 digit; lit "-"; exact 2 digit; lit "T"; exact 2 digit; lit ":"; exact 2 digit; lit ":"; exact 2 digit;
       lit "."; exact 3 digit; lit "Z"; AtEnd].

Definition canonicalUtcTime (value : string) : option Z :=
  if bool_decide (exec utcRe (None, chars value) = []) then None
  else t ← Date_parse value; if decide (isoOfMs t = value) then Some t else None.

(** An attempt at the block's class and evidence. *)
Definition ofGeneration (itemId : string) (g : BlockGeneration) (a : LoopRecoveryAttempt) : bool :=
  bool_decide (att_item_id a = itemId) && bool_decide (att_class a = bg_blockerClass g) &&
  bool_decide (att_evidence_fingerprint a = bg_evidenceFingerprint g).

Definition attemptBelongsToBlockGeneration (a : LoopRecoveryAttempt) (itemId : string) (g : BlockGeneration) : bool :=
  ofGeneration itemId g a &&
  match canonicalUtcTime (att_time a), canonicalUtcTime (bg_time g) with
  | Some t, Some tg => (tg <? t)%Z
  | _, _ => false
  end.

(** ** The binding *)

Inductive CandidateBinding :=
| BoundTo (epoch : option string) (identity : string) (display : string)
| AmbiguousBinding.

(** [attempt.seq <= plausible[index - 1].seq] for some later one. *)
Fixpoint seqRepeats (as_ : list LoopRecoveryAttempt) : bool :=
  match as_ with
  | a :: (b :: _) as rest => (seq b <=? seq a)%Z || seqRepeats rest
  | _ => false
  end.

Definition unreadableGeneration (itemId : string) (attempts : list LoopRecoveryAttempt) (g : BlockGeneration) : bool :=
  let plausible := filter (fun a => ofGeneration itemId g a = true) attempts in
  match canonicalUtcTime (bg_time g) with
  | None => true
  | Some tg =>
      existsb (fun a => match canonicalUtcTime (att_time a) with None => true | Some t => bool_decide (t = tg) end || (seq a <? 0)%Z) plausible ||
      seqRepeats plausible
  end.

(** The attempts of the generation with the least number. *)
Definition firstOf (eligible : list LoopRecoveryAttempt) : list LoopRecoveryAttempt :=
  filter (fun a => forallb (fun b => (seq a <=? seq b)%Z) eligible = true) eligible.

(** [persistedRecoveryEvidence(item)?.transport.pr_number ?? null]. *)
Definition persistedPr (e : LoopItemLedgerEntry) : option jval :=
  match persistedRecoveryEvidence showNum stringify signals JSON_parse e ≫= fun x => fieldOf (Some x.2) "pr_number" with
  | Some JNull | None => None
  | v => v
  end.

(** The branch of a block that recorded its epoch. *)
Definition bindExplicit (e : LoopItemLedgerEntry) (explicit : string) (first : option LoopRecoveryAttempt) : CandidateBinding :=
  let rawHead := lowerString (default "" (js_trim <$> blocker_candidate_head e)) in
  if negb (isSha40 explicit) then AmbiguousBinding
  else if bool_decide (rawHead ≠ "") && negb (isSha40 rawHead) then AmbiguousBinding
  else
    let legacyFirstIdentity :=
      match first with
      | Some a => if recoveryAttemptHasBoundedCandidateFields a &&
                     bool_decide (concreteCandidateHeads (att_candidate_epoch a) (Some "") = [lowerString explicit])
                  then attemptIdentity a else ""
      | None => ""
      end in
    BoundTo (Some explicit) (default (default explicit (truthy (Some legacyFirstIdentity))) (truthy (Some rawHead))) explicit.

Definition blockerCandidateBinding (e : LoopItemLedgerEntry) (attempts : list LoopRecoveryAttempt) : option CandidateBinding :=
  let explicit := default "" (js_trim <$> blocker_candidate_epoch e) in
  if bool_decide (is_Some (blocker_candidate_epoch e)) && bool_decide (explicit = "") then None
  else
    let generation := latestBlockGeneration e in
    let plausible := match generation with Some g => filter (fun a => ofGeneration (id e) g a = true) attempts | None => [] end in
    if match generation with Some g => unreadableGeneration (id e) attempts g | None => false end then Some AmbiguousBinding
    else
      let eligible := match generation with
                      | Some g => filter (fun a => attemptBelongsToBlockGeneration a (id e) g = true) attempts
                      | None => []
                      end in
      match firstOf eligible with
      | _ :: _ :: _ => Some AmbiguousBinding
      | firsts =>
          let first := head firsts in
          let firstPrTokens := default [] (exactCandidatePrTokens ∘ attemptIdentity <$> first) in
          if (1 <? length firstPrTokens) ||
             match persistedPr e, firstPrTokens with
             | Some pr, [t] => bool_decide (JNum t ≠ pr) && bool_decide ((first ≫= action) ≠ Some "repair_pipeline_item")
             | _, _ => false
             end
          then Some AmbiguousBinding
          else if bool_decide (is_Some (blocker_candidate_epoch e)) then
            Some (bindExplicit e explicit first)
          else match generation with
          | None =>
              if existsb (fun a => bool_decide (att_item_id a = id e) && bool_decide (Some (att_class a) = blocked_theme e) &&
                                   bool_decide (Some (att_evidence_fingerprint a) = evidence_fingerprint e) &&
                                   bool_decide (concreteCandidateHeads (att_candidate_epoch a) (candidate_identity a) ≠ [])) attempts
              then Some AmbiguousBinding else None
          | Some _ =>
              match first with
              | None => if bool_decide (plausible ≠ []) then Some AmbiguousBinding else None
              | Some a =>
                  let display := default (js_trim (attemptIdentity a)) (truthy (js_trim <$> att_candidate_epoch a)) in
                  if bool_decide (display ≠ "") && recoveryAttemptHasBoundedCandidateFields a
                  then Some (BoundTo (att_candidate_epoch a) (attemptIdentity a) display) else Some AmbiguousBinding
              end
          end
      end.

Definition candidateBindingPrNumber (e : LoopItemLedgerEntry) (identity : string) : option jval :=
  match persistedPr e with
  | Some pr => Some pr
  | None => JNum <$> head (exactCandidatePrTokens identity)
  end.

(** ** An exact candidate *)

Definition identityProvesExactAdvanceCandidate (i : LoopExternalIdentity) (e : LoopItemLedgerEntry) (boundIdentity : string) : bool :=
  let head_ := lowerString (js_trim (head_sha i)) in
  let localHead := lowerString (default "" (js_trim <$> local_head_sha i)) in
  let expectedOperation := default "" (js_trim <$> expected_logical_operation_id i) in
  let observedOperation := default "" (js_trim <$> logical_operation_id i) in
  let pr := JNum ∘ num <$> pr_number i in
  let legacyPrBinding := bool_decide (is_Some pr) &&
    (bool_decide (persistedPr e = pr) || bool_decide (persistedPr e = None) && bool_decide (JNum <$> head (exactCandidatePrTokens boundIdentity) = pr)) in
  let operationMatches := if decide (observedOperation = "") then legacyPrBinding
                          else bool_decide (expectedOperation ≠ "") && bool_decide (observedOperation = expectedOperation) in
  issue_open i && negb (blocked_label_present i) && isAdvanceStillNeeded i && isSha40 head_ &&
  (bool_decide (localHead = "") || bool_decide (localHead = head_)) && bool_decide (rebase_in_progress i ≠ Some true) &&
  bool_decide (product_dirt i ≠ Some true) && bool_decide (integration_certainty i = Some KnownAbsent) &&
  bool_decide (artifact_role i = Some RoleImplementation) && bool_decide (is_Some (truthy (js_trim <$> artifact_identity i))) &&
  bool_decide ((lowerString ∘ js_trim <$> candidate_epoch i) = Some head_) && operationMatches.

(** ** Re-admission of a block whose candidate was superseded *)

(** What the observed candidate means for the block. *)
Inductive ReadmitPlan :=
| LeaveBlock
| DeferBlock (reason : string)
| KeepRepair (owner : LoopRecoveryAttempt) (stale : list (option string))
| LiftBlock (blockedEpoch currentEpoch : string) (superseded : list (option string)).

Definition startedOf (as_ : list LoopRecoveryAttempt) : list LoopRecoveryAttempt := filter (fun a => outcome a = OutStarted) as_.

(** The block was raised for another candidate: another pull request, or no
    head in common. *)
Definition candidateMoved (e : LoopItemLedgerEntry) (epoch : option string) (identity : string) (i : LoopExternalIdentity) : bool :=
  let pr := candidateBindingPrNumber e identity in
  let prMoved := bool_decide (is_Some pr) && bool_decide (pr ≠ (JNum ∘ num <$> pr_number i)) in
  let currentEpoch := lowerString (candidateEpochFromIdentity (Some i)) in
  bool_decide (currentEpoch ≠ "") &&
  (prMoved || negb (shareHead (candidateMembershipHeads epoch identity) (candidateMembershipHeads (Some currentEpoch) (lowerString (js_trim (head_sha i)))))).

(** The candidate-changing repairs that belong to the block. *)
Definition blockerOwned (e : LoopItemLedgerEntry) (epoch : option string) (identity : string) (a : LoopRecoveryAttempt) : bool :=
  match candidateBindingPrNumber e identity with
  | None => true
  | Some pr => bool_decide ((JNum <$> head (exactCandidatePrTokens (attemptIdentity a))) = Some pr)
  end && shareHead (candidateMembershipHeads (att_candidate_epoch a) (attemptIdentity a)) (candidateMembershipHeads epoch identity).

Definition planBound (itemId : string) (e : LoopItemLedgerEntry) (attempts : list LoopRecoveryAttempt) (i : LoopExternalIdentity)
    (epoch : option string) (identity display : string) : ReadmitPlan :=
  if negb (candidateMoved e epoch identity i) then LeaveBlock
  else match latestBlockGeneration e with
  | None => DeferBlock "blocker_generation_unreconstructable"
  | Some g =>
      let open := startedOf (filter (fun a => attemptBelongsToBlockGeneration a itemId g = true) attempts) in
      let repairs := filter (fun a => action a = Some "repair_pipeline_item") open in
      if existsb (fun a => negb (recoveryAttemptHasBoundedCandidateFields a)) repairs
      then DeferBlock "candidate_changing_repair_binding_ambiguous"
      else if bool_decide (is_Some (candidateBindingPrNumber e identity)) &&
              existsb (fun a => negb (length (exactCandidatePrTokens (attemptIdentity a)) =? 1)) repairs
      then DeferBlock "candidate_changing_repair_pr_binding_ambiguous"
      else match filter (fun a => blockerOwned e epoch identity a = true) repairs with
      | _ :: _ :: _ => DeferBlock "candidate_changing_repair_owner_ambiguous"
      | [owner] => KeepRepair owner (distinct (attempt_id <$> filter (fun a => attempt_id a ≠ attempt_id owner) open))
      | [] =>
          if negb (identityProvesExactAdvanceCandidate i e identity) then DeferBlock "candidate_moved_without_exact_clean_unblocked_identity"
          else LiftBlock display (lowerString (candidateEpochFromIdentity (Some i))) (distinct (attempt_id <$> open))
      end
  end.

Definition planReadmission (l : LoopLedger) (itemId : string) (i : LoopExternalIdentity) : ReadmitPlan :=
  match oget (items l) itemId with
  | None => LeaveBlock
  | Some e =>
      if bool_decide (state e ≠ Blocked) then LeaveBlock
      else if negb (isSha40 (lowerString (js_trim (head_sha i)))) || bool_decide (pr_number i = None) || bool_decide (pr_state i ≠ Some PrStateOpen)
      then LeaveBlock
      else match blockerCandidateBinding e (attemptsOf l) with
      | Some AmbiguousBinding => DeferBlock "blocker_candidate_epoch_ambiguous"
      | None => DeferBlock "blocker_candidate_epoch_unbound"
      | Some (BoundTo epoch identity display) => planBound itemId e (attemptsOf l) i epoch identity display
      end
  end.

(** [{ ...attempt, outcome, status, terminal_outcome: "superseded", completed_at }]. *)
Definition retireRow (ids : list (option string)) (time : string) (a : LoopRecoveryAttempt) : LoopRecoveryAttempt :=
  if includes (attempt_id a) ids then with_completion a time OutSuperseded TermSuperseded (att_error a) else a.

Definition readmittedEntry (e : LoopItemLedgerEntry) (engine : LoopEngineName) (i : LoopExternalIdentity) (blockedEpoch currentEpoch time : string)
    : LoopItemLedgerEntry :=
  mkEntry (id e) InProgress
    (history e ++ [mkHistory time Blocked InProgress engine None None
       (Some ("candidate " +:+ currentEpoch +:+ " superseded blocker candidate " +:+ blockedEpoch +:+ "; re-admitted for ordinary dispatch"))])
    None (recovery_budgets_remaining e) None None None None (hold_request e) (Some i) (truthy (pipeline_stage i)) None.

Definition with_coolings (l : LoopLedger) (c : option LoopCoolingRecord) (per : option (obj LoopCoolingRecord)) : LoopLedger :=
  mkLedger (l_run_id l) (items l) (merge_barrier l) (stop l) c per (lifecycle l) (last_reconciliation l) (recovery_attempts l)
    (last_native_goal_check l) (reconciliation_sequence l) (authority_amendments l).

Definition readmittedLedger (c : LoopContract) (l : LoopLedger) (itemId : string) (e : LoopItemLedgerEntry) (engine : LoopEngineName) (i : LoopExternalIdentity)
    (blockedEpoch currentEpoch : string) (ids : list (option string)) (time : string) : LoopLedger :=
  let itemCooling := filter (fun p => p.1 ≠ itemId) (default [] (item_cooling l)) in
  let cool := match cooling l with
              | Some r => if decide (cool_item_id r = Some itemId) then None else Some r
              | None => None
              end in
  let l1 := with_attempts (with_items l (oset itemId (readmittedEntry e engine i blockedEpoch currentEpoch time) (items l)))
              (retireRow ids time <$> attemptsOf l) in
  let candidate := with_coolings l1 cool (if decide (itemCooling = []) then None else Some itemCooling) in
  bindLifecycle mint c candidate
    (deriveLifecycleState (mkDerivation [] (typed_request_name <$> typedRequestFromOwnedItems (items candidate)) (stop_reason_name ∘ stop_reason <$> stop candidate)
       (bool_decide (is_Some (cooling candidate)) || bool_decide (itemCooling ≠ [])) None false None false false true false None)) time.

Record Readmission := mkReadmission {
  rm_ledger : LoopLedger;
  rm_readmitted : bool;
  rm_continueRecovery : bool;
}.

Definition readmitCandidateSupersededBlock {R} (c : LoopContract) (engine : LoopEngineName) (itemId : string) (i : LoopExternalIdentity)
    (time logTime : string) : Eff R (option Readmission) :=
  run s := theStore;
  let l := upgradeLedgerForRecovery sha256hex (readLedger sha256hex s) in
  let log e := writes sha256hex runId token [WEvent logTime e] in
  match planReadmission l itemId i, oget (items l) itemId with
  | DeferBlock reason, _ =>
      log (EvPreflightDeferred itemId None reason);;
      next (Some (mkReadmission l false false))
  | KeepRepair owner [], _ => next (Some (mkReadmission l false true))
  | KeepRepair owner stale, _ =>
      let rows := retireRow stale time <$> attemptsOf l in
      let next_ := with_attempts l rows in
      writes sha256hex runId token (WLedger next_ :: supersedeEvents rows stale
        ("candidate-changing repair " +:+ default "undefined" (attempt_id owner) +:+ " retains blocker-candidate ownership") logTime);;
      next (Some (mkReadmission next_ false true))
  | LiftBlock blockedEpoch currentEpoch ids, Some e =>
      let next_ := readmittedLedger c l itemId e engine i blockedEpoch currentEpoch ids time in
      writes sha256hex runId token (WLedger next_ :: supersedeEvents (attemptsOf next_) ids
        ("candidate " +:+ currentEpoch +:+ " superseded blocker candidate " +:+ blockedEpoch) logTime);;
      log (EvCandidateSuperseded itemId blockedEpoch currentEpoch (pr_number i) (head_sha i));;
      next (Some (mkReadmission next_ true false))
  | _, _ => next None
  end.
End Candidate.

(** ** Facts *)

#[local] Arguments isSha40 : simpl never.
#[local] Arguments concreteCandidateHeads : simpl never.
#[local] Arguments lowerString : simpl never.
#[local] Arguments js_trim : simpl never.

Lemma distinct_acc {A} `{EqDecision A} (xs acc : list A) x :
  x ∈ foldl (fun acc x => if includes x acc then acc else acc ++ [x]) acc xs ↔ x ∈ acc ∨ x ∈ xs.
Proof.
  revert acc. induction xs as [|y xs IH]; intros acc; simpl; [set_solver|]. rewrite IH. unfold includes.
  case_bool_decide; set_solver.
Qed.

Lemma elem_of_distinct {A} `{EqDecision A} (xs : list A) x : x ∈ distinct xs ↔ x ∈ xs.
Proof. unfold distinct. rewrite distinct_acc. set_solver. Qed.

Lemma shareHead_true xs ys : shareHead xs ys = true ↔ ∃ x, x ∈ xs ∧ x ∈ ys.
Proof.
  unfold shareHead, includes. rewrite existsb_exists. setoid_rewrite <- list_elem_of_In.
  split; intros (x & Hx & Hy); exists x; (split; [done|]); [by apply bool_decide_eq_true in Hy|by apply bool_decide_eq_true].
Qed.

(** The heads a candidate names. *)
Definition namesHead (value h : string) : Prop :=
  lowerString (js_trim value) = h ∨ ∃ token, token ∈ splitText value ∧ strip_prefix "head=" (lowerString token) = Some h.

Lemma headsIn_exact value h : h ∈ headsIn value ↔ isSha40 h = true ∧ namesHead value h.
Proof.
  unfold headsIn, namesHead. cbv zeta. rewrite elem_of_app, list_elem_of_omap.
  assert ((∃ y, y ∈ splitText value ∧ headToken y = Some h) ↔
          isSha40 h = true ∧ ∃ token, token ∈ splitText value ∧ strip_prefix "head=" (lowerString token) = Some h) as ->.
  { unfold headToken. split.
    - intros (y & Hy & E). destruct (strip_prefix _ _) as [h'|] eqn:Es; simpl in E; [|done]. destruct (isSha40 h') eqn:E2; [|done]. injection E as ->. eauto.
    - intros (Hs & y & Hy & E). exists y. rewrite E. simpl. by rewrite Hs. }
  destruct (isSha40 (lowerString (js_trim value))) eqn:E; rewrite ?list_elem_of_singleton, ?elem_of_nil; split.
  - intros [->|[? ?]]; auto.
  - intros [? [<-|?]]; auto.
  - intros [[]|[? ?]]; auto.
  - intros [Hs [Hl|?]]; [congruence|auto].
Qed.

Lemma heads_exact epoch identity h :
  h ∈ concreteCandidateHeads epoch identity ↔ isSha40 h = true ∧ (namesHead (default "" epoch) h ∨ namesHead (default "" identity) h).
Proof. unfold concreteCandidateHeads. rewrite elem_of_distinct, elem_of_app, !headsIn_exact. tauto. Qed.

Lemma lower_hexDigit a : isHexDigit (lower a) = isHexDigit a.
Proof. by destruct a as [[] [] [] [] [] [] [] []]. Qed.

Lemma sha40_lower s : isSha40 (lowerString s) = isSha40 s.
Proof.
  unfold isSha40, lowerString. rewrite String.list_ascii_of_string_of_list_ascii, length_fmap. f_equal.
  induction (chars s) as [|a l IH]; [done|]. rewrite fmap_cons. cbn [forallb]. by rewrite lower_hexDigit, IH.
Qed.

Lemma lower_empty s : lowerString s = "" ↔ s = "".
Proof. by destruct s. Qed.

(** A head that is given in full names itself. *)
Lemma names_itself s : isSha40 (js_trim s) = true → lowerString (js_trim s) ∈ headsIn s.
Proof. intros H. apply headsIn_exact. rewrite sha40_lower. split; [done|by left]. Qed.

Lemma bounded_names a : recoveryAttemptHasBoundedCandidateFields a = true →
  candidateMembershipHeads (att_candidate_epoch a) (attemptIdentity a) ≠ [].
Proof.
  unfold recoveryAttemptHasBoundedCandidateFields, hasBoundedFields, candidateMembershipHeads. case_match; [done|]. intros Hb.
  assert (∃ h, h ∈ concreteCandidateHeads (att_candidate_epoch a) (Some "") ∨ h ∈ concreteCandidateHeads (Some "") (Some (attemptIdentity a))) as [h Hh].
  { destruct (truthy _).
    - apply andb_true_iff in Hb as [Hb%Nat.eqb_eq _]. destruct (concreteCandidateHeads (att_candidate_epoch a) (Some "")) as [|h ?]; [done|]. exists h. left. by left.
    - apply Nat.eqb_eq in Hb. destruct (concreteCandidateHeads (Some "") (Some (attemptIdentity a))) as [|h ?]; [done|]. exists h. right. by left. }
  assert (¬ namesHead "" h ∨ isSha40 h = false) as Hn.
  { destruct (isSha40 h) eqn:E; [left|by right]. intros [Hl|(token & Ht & E2)]; [by rewrite <- Hl in E|].
    apply list_elem_of_singleton in Ht. by subst token. }
  intros He. assert (h ∈ concreteCandidateHeads (att_candidate_epoch a) (Some (attemptIdentity a))) as Hin; [|by rewrite He in Hin; inversion Hin].
  apply heads_exact. rewrite !heads_exact in Hh. cbn [default from_option] in *. destruct Hn as [Hn|Hn]; [tauto|]. rewrite Hn in Hh. by destruct Hh as [[? _]|[? _]].
Qed.

Section CandidateFacts.
Context (fingerprintEvidence : string → string) (showNum : jsnum → string) (Date_parse : string → option Z) (isoOfMs : Z → string)
  (stringify : jval → string) (signals : list string) (JSON_parse : string → option jval) (sha256hex : string → string) {dates : IsoDates} (mint runId token : string).

#[local] Abbreviation generationOf := (latestBlockGeneration fingerprintEvidence).
#[local] Abbreviation ofBlock := (attemptBelongsToBlockGeneration Date_parse isoOfMs).
#[local] Abbreviation binding := (blockerCandidateBinding fingerprintEvidence showNum Date_parse isoOfMs stringify signals JSON_parse).

(** The latest entry into [blocked] is what the block says of itself. *)
Lemma generation_exact e g :
  generationOf e = Some g →
  blocked_theme e = Some (bg_blockerClass g) ∧ evidence_fingerprint e = Some (bg_evidenceFingerprint g) ∧
  ∃ h ev, last (filter (fun h => h_from h = InProgress ∧ h_to h = Blocked) (history e)) = Some h ∧
    h_time h = bg_time g ∧ h_theme h = blocked_theme e ∧ h_evidence h = Some ev ∧ Some (fingerprintEvidence ev) = evidence_fingerprint e.
Proof.
  unfold latestBlockGeneration, truthy. destruct (blocked_theme e) as [cls|]; [|done]. case_decide; [done|].
  destruct (evidence_fingerprint e) as [fp|]; [|done]. simpl. case_decide; [done|]. simpl.
  destruct (last _) as [h|]; simpl; [|done]. destruct (h_evidence h) as [ev|] eqn:Ee; simpl; [|done].
  destruct (_ && _) eqn:Eb; [|done]. apply andb_true_iff in Eb as [H1%bool_decide_eq_true H2%bool_decide_eq_true].
  intros [= <-]. simpl. do 2 (split; [done|]). exists h, ev. by rewrite H2.
Qed.

Lemma firstOf_least as_ a : firstOf as_ = [a] → a ∈ as_ ∧ ∀ b, b ∈ as_ → b = a ∨ (seq a < seq b)%Z.
Proof.
  intros H. assert (a ∈ firstOf as_) as Ha by (rewrite H; by left). unfold firstOf in *.
  apply list_elem_of_filter in Ha as [Hf Ha]. split; [done|]. intros b Hb.
  rewrite forallb_forall in Hf. pose proof (Hf b (proj1 (list_elem_of_In _ _) Hb)) as Hle. apply Z.leb_le in Hle.
  destruct (decide (seq a < seq b)%Z) as [|Hn]; [by right|]. left.
  assert (b ∈ [a]) as Hin; [|by apply list_elem_of_singleton in Hin]. rewrite <- H. apply list_elem_of_filter. split; [|done].
  apply forallb_forall. intros c Hc. apply Hf, Z.leb_le in Hc. apply Z.leb_le. lia.
Qed.
Lemma explicit_exact e x first epoch identity display :
  bindExplicit e (js_trim x) first = BoundTo epoch identity display →
  candidateMembershipHeads epoch identity ≠ [] ∧ epoch = Some (js_trim x) ∧ isSha40 (js_trim x) = true ∧
  ∀ h, blocker_candidate_head e = Some h → js_trim h ≠ "" → isSha40 (js_trim h) = true ∧ identity = lowerString (js_trim h).
Proof.
  unfold bindExplicit. destruct (isSha40 (js_trim x)) eqn:Ex; [|done]. cbn [negb]. cbv zeta.
  set (raw := lowerString _). destruct (bool_decide _ && negb _) eqn:Er; [done|]. set (ident := default (default _ _) _).
  assert (∀ a b c a' b' c', BoundTo a b c = BoundTo a' b' c' → a = a' ∧ b = b') as Hinj by (intros; by simplify_eq).
  intros [<- <-]%Hinj. subst ident.
  split; [|split; [done|split; [done|]]].
  - intros Hn. pose proof (names_itself (js_trim x)) as H. rewrite js_trim_idem in H. specialize (H Ex).
    assert (∀ identity, lowerString (js_trim x) ∈ candidateMembershipHeads (Some (js_trim x)) identity) as Hin.
    { intros identity. unfold candidateMembershipHeads, concreteCandidateHeads. rewrite elem_of_distinct, elem_of_app. by left. }
    eapply not_elem_of_nil. rewrite <- Hn. apply Hin.
  - intros h Hh Hne. subst raw. rewrite Hh in *. cbn [default from_option fmap option_fmap option_map] in *. unfold truthy.
    assert (lowerString (js_trim h) ≠ "") as Hl by by rewrite lower_empty.
    rewrite bool_decide_true in Er by done. simpl in Er. apply negb_false_iff in Er. rewrite sha40_lower in Er.
    split; [done|]. by rewrite (decide_False (P:=lowerString (js_trim h) = "")) by done.
Qed.

(** The attempt a block is traced back to: the first of its generation. *)
Definition FirstOfBlock (e : LoopItemLedgerEntry) (attempts : list LoopRecoveryAttempt) (a : LoopRecoveryAttempt) : Prop :=
  ∃ g, generationOf e = Some g ∧ a ∈ attempts ∧ ofBlock a (id e) g = true ∧
    ∀ b, b ∈ attempts → ofBlock b (id e) g = true → b = a ∨ (seq a < seq b)%Z.

(** C28. A block is bound to one candidate, with a head it names: the epoch
    recorded with the block where it is a full head, and otherwise the candidate
    of the first attempt of the block's own generation, whatever later attempts
    were bound to. *)
Theorem binding_exact e attempts epoch identity display :
  binding e attempts = Some (BoundTo epoch identity display) →
  candidateMembershipHeads epoch identity ≠ [] ∧
  match blocker_candidate_epoch e with
  | Some x => epoch = Some (js_trim x) ∧ isSha40 (js_trim x) = true ∧
      ∀ h, blocker_candidate_head e = Some h → js_trim h ≠ "" → isSha40 (js_trim h) = true ∧ identity = lowerString (js_trim h)
  | None => ∃ a, FirstOfBlock e attempts a ∧ recoveryAttemptHasBoundedCandidateFields a = true ∧
      epoch = att_candidate_epoch a ∧ identity = attemptIdentity a
  end.
Proof.
  unfold blockerCandidateBinding. cbv zeta. destruct (_ && _); [done|].
  destruct (match generationOf e with Some _ => _ | None => false end); [done|].
  set (eligible := match generationOf e with Some _ => _ | None => _ end). set (firsts := firstOf eligible).
  destruct firsts as [|a [|b rest]] eqn:Ef; [| |done].
  all: destruct (_ || _); [done|].
  all: destruct (blocker_candidate_epoch e) as [x|] eqn:Ex; [rewrite bool_decide_true by by eexists|rewrite bool_decide_false by by intros [? ?]].
  - intros H. injection H as H. exact (explicit_exact _ _ _ _ _ _ H).
  - destruct (generationOf e); repeat case_match; done.
  - intros H. injection H as H. exact (explicit_exact _ _ _ _ _ _ H).
  - destruct (generationOf e) as [g|] eqn:Eg; [|repeat case_match; done]. cbn [head]. subst eligible.
    destruct (_ && _) eqn:Eb; [|done]. apply andb_true_iff in Eb as [_ Eb]. intros [= <- <- _]. split; [by apply bounded_names|]. exists a.
    split; [|done]. apply firstOf_least in Ef as [Ha Hl]. exists g. apply list_elem_of_filter in Ha as [Hb Ha].
    do 3 (split; [done|]). intros b Hin Hob. apply Hl. by apply list_elem_of_filter.
Qed.
#[local] Abbreviation persisted := (persistedPr showNum stringify signals JSON_parse).
#[local] Abbreviation boundPr := (candidateBindingPrNumber showNum stringify signals JSON_parse).
#[local] Abbreviation plan := (planReadmission fingerprintEvidence showNum Date_parse isoOfMs stringify signals JSON_parse).
#[local] Abbreviation exactCandidate := (identityProvesExactAdvanceCandidate showNum stringify signals JSON_parse).
#[local] Abbreviation owns := (blockerOwned showNum stringify signals JSON_parse).

(** The observed candidate is another one: another pull request, or no head in
    common with the block's. *)
Definition Moved (e : LoopItemLedgerEntry) (epoch : option string) (identity : string) (i : LoopExternalIdentity) : Prop :=
  (∃ pr, boundPr e identity = Some pr ∧ (JNum ∘ num <$> pr_number i) ≠ Some pr) ∨
  ∀ h, h ∈ candidateMembershipHeads epoch identity →
       h ∉ candidateMembershipHeads (Some (lowerString (candidateEpochFromIdentity (Some i)))) (lowerString (js_trim (head_sha i))).

Lemma moved_true e epoch identity i :
  candidateMoved showNum stringify signals JSON_parse e epoch identity i = true → Moved e epoch identity i.
Proof.
  unfold candidateMoved, Moved. cbv zeta. intros [_ [[Hp Hn]%andb_true_iff|Hs]%orb_true_iff]%andb_true_iff.
  - left. apply bool_decide_eq_true in Hp as [pr Hp]. apply bool_decide_eq_true in Hn. exists pr. split; [done|]. congruence.
  - right. intros h H1 H2. apply negb_true_iff in Hs. assert (shareHead (candidateMembershipHeads epoch identity) (candidateMembershipHeads
      (Some (lowerString (candidateEpochFromIdentity (Some i)))) (lowerString (js_trim (head_sha i)))) = true); [|congruence].
    apply shareHead_true. eauto.
Qed.

(** What lets a block go. *)
Record Lifted (l : LoopLedger) (k : string) (i : LoopExternalIdentity) (ids : list (option string)) (e : LoopItemLedgerEntry) : Prop := {
  li_item : oget (items l) k = Some e;
  li_blocked : state e = Blocked;
  li_open : pr_state i = Some PrStateOpen ∧ is_Some (pr_number i);
  li_candidate : ∃ epoch identity display, binding e (attemptsOf l) = Some (BoundTo epoch identity display) ∧
    Moved e epoch identity i ∧ exactCandidate i e identity = true ∧
    ∃ g, generationOf e = Some g ∧
      ∀ a, a ∈ attemptsOf l → ofBlock a k g = true → outcome a = OutStarted →
        attempt_id a ∈ ids ∧ (action a = Some "repair_pipeline_item" → owns e epoch identity a = false);
}.

Lemma plan_lifts l k i b cur ids : plan l k i = LiftBlock b cur ids → ∃ e, Lifted l k i ids e.
Proof.
  unfold planReadmission. destruct (oget (items l) k) as [e|] eqn:Ee; [|done]. case_bool_decide as Hb; [done|].
  destruct (_ || _) eqn:Eo; [done|]. apply orb_false_iff in Eo as [[_ Hp]%orb_false_iff Hs].
  apply bool_decide_eq_false in Hp, Hs. apply dec_stable in Hs.
  destruct (binding e (attemptsOf l)) as [[epoch identity display|]|] eqn:Eb; [|done..]. unfold planBound. cbv zeta.
  destruct (candidateMoved _ _ _ _ _ _ _ _) eqn:Em; [|done]. cbn [negb]. destruct (generationOf e) as [g|] eqn:Eg; [|done].
  set (open := startedOf _). set (repairs := filter _ open). destruct (existsb _ repairs); [done|]. destruct (_ && _); [done|].
  destruct (filter _ repairs) as [|o [|]] eqn:Er; [|done|done]. destruct (exactCandidate i e identity) eqn:Ex; [|done]. cbn [negb].
  intros [= _ _ <-]. exists e. split; [done|done|split; [done|by destruct (pr_number i); [eexists|]]|].
  exists epoch, identity, display. split; [done|]. split; [by apply moved_true|]. split; [done|]. exists g. split; [done|]. intros a Ha Hg Hst.
  assert (a ∈ open) as Ho by (unfold open, startedOf; rewrite !list_elem_of_filter; done).
  split; [by apply elem_of_distinct, list_elem_of_fmap_2|]. intros Hact. destruct (owns e epoch identity a) eqn:Ew; [|done].
  assert (a ∈ filter (fun a => owns e epoch identity a = true) repairs) as Hin by (unfold repairs; rewrite !list_elem_of_filter; done).
  rewrite Er in Hin. by apply elem_of_nil in Hin.
Qed.
(** *** The ledger that is left *)

Lemma retire_claims ids t rows : claimsKept rows (retireRow ids t <$> rows).
Proof.
  intros n a Hn. exists (retireRow ids t a). rewrite list_lookup_fmap, Hn. split; [done|]. unfold retireRow.
  destruct (includes _ _); [|done]. by split; auto.
Qed.

(** A retired row is closed, the others are as they were. *)
Lemma retired_row ids t a : let a' := retireRow ids t a in
  (attempt_id a ∈ ids → outcome a' = OutSuperseded) ∧ (outcome a' = OutStarted → a' = a ∧ attempt_id a ∉ ids).
Proof.
  cbv zeta. unfold retireRow, includes. case_bool_decide; [|done]. by split.
Qed.

Lemma readmitted_evolves c l k e engine i b cur ids t :
  oget (items l) k = Some e → state e = Blocked → LedgerEvolves l (readmittedLedger mint c l k e engine i b cur ids t).
Proof.
  intros He Hs. split; cbn [items stop readmittedLedger].
  - apply okeys_oset, oget_is_Some. eauto.
  - intros k0 e0 He0. destruct (decide (k = k0)) as [<-|Hne].
    + eexists. unfold readmittedLedger. cbn. rewrite oget_oset_eq. split; [done|]. simplify_eq. by eapply own_evolves.
    + exists e0. unfold readmittedLedger. cbn. rewrite oget_oset_ne by done. by split.
  - done.
  - apply retire_claims.
Qed.

Lemma supersedeEvents_ledger rows ids reason tl x : WLedger x ∉ supersedeEvents rows ids reason tl.
Proof. unfold supersedeEvents. intros (j & _ & Hj)%list_elem_of_omap. by destruct (list_find _ _). Qed.

#[local] Abbreviation readmit := (readmitCandidateSupersededBlock fingerprintEvidence showNum Date_parse isoOfMs stringify signals JSON_parse sha256hex mint runId token).
#[local] Abbreviation current w := (upgradeLedgerForRecovery sha256hex (readLedger sha256hex w.1)).

(** What the re-admission leaves, by what it says. *)
Definition Readmitted (w0 : World) (k : string) (i : LoopExternalIdentity) (l' : LoopLedger) : Prop :=
  ∃ ids e e', Lifted (current w0) k i ids e ∧ items l' = oset k e' (items (current w0)) ∧
    state e' = InProgress ∧ blocked_theme e' = None ∧ last_verified_identity e' = Some i ∧
    ∀ g a, generationOf e = Some g → a ∈ attemptsOf l' → ofBlock a k g = true → outcome a ≠ OutStarted.

Lemma readmitted_lifted c w k i b cur ids e engine t :
  Lifted (current w) k i ids e → Readmitted w k i (readmittedLedger mint c (current w) k e engine i b cur ids t).
Proof.
  intros Hl. exists ids, e, (readmittedEntry e engine i b cur t). do 5 (split; [done|]).
  intros g a Hg Ha Ho Hst. destruct Hl as [_ _ _ (epoch & identity & display & _ & _ & _ & g' & Hg' & Hall)].
  unfold readmittedLedger in Ha. cbn in Ha. apply list_elem_of_fmap in Ha as (a0 & -> & Ha0).
  pose proof (retired_row ids t a0) as [_ Hr]. destruct (Hr Hst) as [E Hn]. rewrite E in *. rewrite Hg' in Hg. injection Hg as ->.
  destruct (Hall a0 Ha0 Ho Hst) as [Hin _]. by apply Hn.
Qed.

Lemma readmit_ok {Ret} {Q : World → Ret → Prop} s0 c engine k i t tl w :
  Inv s0 w → ensures (Inv s0) Q (readmit c engine k i t tl) w
    (fun w' o => match o with
                 | None => w' = w
                 | Some r => Holding sha256hex s0 w' (rm_ledger r) ∧
                     if rm_readmitted r then Readmitted w k i (rm_ledger r) ∧ rm_continueRecovery r = false
                     else items (rm_ledger r) = items (current w) ∧ stop (rm_ledger r) = stop (current w) ∧ SameStates (run_ledger w.1) (run_ledger w'.1)
                 end).
Proof.
  intros Hi. unfold readmitCandidateSupersededBlock.
  eapply ensures_seq; [apply (ensures_store _ _ _ (fun w' s => w' = w ∧ s = w.1)); done|]. intros w1 s Hi1 [-> ->]. cbv zeta.
  pose proof (upgraded_held sha256hex s0 w Hi) as Hh. destruct (plan _ _ _) as [|reason|owner stale|b cur ids] eqn:Ep.
  - by apply ensures_next.
  - eapply ensures_seq.
    { apply (writes_stored sha256hex (SameStates (run_ledger w.1))); [apply sameStates_synced|done|by intros x ?%list_elem_of_singleton|].
      apply (holding_carries sha256hex runId token s0 _ w (current w) (current w)), carries_events; try done. by intros x ?%list_elem_of_singleton. }
    intros w2 [] Hi2 [Hh2 Hs2]. by apply ensures_next.
  - destruct stale as [|x xs]; [by apply ensures_next|].
    eapply ensures_seq.
    { apply (writes_stored sha256hex (SameStates (run_ledger w.1))); [apply sameStates_synced|done| |].
      { intros y [Hy|Hy]%elem_of_cons; [injection Hy as ->|by apply supersedeEvents_ledger in Hy].
        exact (upgraded_states sha256hex w.1). }
      apply (holding_carries sha256hex runId token s0 _ w (current w) (with_attempts (current w) (retireRow (x :: xs) t <$> attemptsOf (current w)))); [done|done|].
      apply carries_write; [|done|intros y; apply supersedeEvents_ledger]. split; [done|by intros k0 e0 ?; exists e0|done|apply retire_claims]. }
    intros w2 [] Hi2 [Hh2 Hs2]. by apply ensures_next.
  - apply plan_lifts in Ep as [e Hl]. rewrite (li_item _ _ _ _ _ Hl). eapply ensures_seq.
    { apply (holding_carries sha256hex runId token s0 _ w (current w) (readmittedLedger mint c (current w) k e engine i b cur ids t)); [done|done|].
      apply carries_write; [|done|intros y; apply supersedeEvents_ledger]. eapply readmitted_evolves; apply Hl. }
    intros w2 [] Hi2 Hh2. eapply ensures_seq.
    { eapply (holding_carries sha256hex runId token s0 _ w2); [done|exact Hh2|]. apply carries_events. by intros y ?%list_elem_of_singleton. }
    intros w3 [] Hi3 Hh3. apply ensures_next; [done|]. split; [done|]. split; [by apply readmitted_lifted|done].
Qed.
(** C29. A block is lifted only for another candidate: when the re-admission
    reports success the item was blocked, the observed open pull request is
    another one or shares no head with the candidate the block is bound to, its
    exact clean and unblocked identity is proven and no open candidate-changing
    repair belongs to the block; the item is then in progress without a theme
    and no claim of the block's generation is left open.  Otherwise no item
    changed.  The ledger it returns agrees with the stored one, or with one this
    call wrote and the store's check rejected: with the stored one wherever no
    write was rejected. *)
Theorem readmission_exact c engine k i t tl w w' r :
  readmit c engine k i t tl w = (w', Next (Some r) : Out RecoveryExecutionResult (option Readmission)) →
  (if rm_readmitted r then Readmitted w k i (rm_ledger r) else items (rm_ledger r) = items (current w)) ∧
  Tracks sha256hex w.1 w'.1 (rm_ledger r).
Proof.
  intros E. pose proof (readmit_ok (Q:=fun (_ : World) (_ : RecoveryExecutionResult) => True) w.1 c engine k i t tl w ltac:(by unfold Inv)) as H.
  unfold ensures in H. rewrite E in H. destruct H as [_ [(_ & Hs & _) Hr]]. split; [|done]. destruct (rm_readmitted r); apply Hr.
Qed.
End CandidateFacts.

(** ** Samples *)

#[local] Existing Instance StoreSample.dates.

Module CandidateSample.
#[local] Existing Instance StoreSample.dates.
Definition headA : string := "aaaaaaaaaaaaaaaaaaaaaaaaaaaaaaaaaaaaaaaa".
Definition headB : string := "bbbbbbbbbbbbbbbbbbbbbbbbbbbbbbbbbbbbbbbb".
Definition t1 : string := "2026-01-01T00:00:00.000Z".
Definition t2 : string := "2026-01-01T00:00:01.000Z".
Definition parse (t : string) : option Z := if decide (t = t1) then Some 1%Z else if decide (t = t2) then Some 2%Z else None.
Definition iso (ms : Z) : string := if decide (ms = 1%Z) then t1 else t2.
Definition entry : LoopItemLedgerEntry :=
  mkEntry "7" Blocked [mkHistory t1 InProgress Blocked Claude (Some "review-findings") (Some "ev") None] (Some "review-findings") [] (Some "ev")
    None None None None None None None.
Definition claim (n : nat) (act head : string) (out : RecoveryAttemptOutcome) : LoopRecoveryAttempt :=
  mkAttempt (Some ("a" +:+ pretty n)) (Z.of_nat n) t2 "7" "review-findings" (Some ("repo=r|base=main|pr=11|head=" +:+ head +:+ "|attempt=0"))
    (Some act) [act] "ev" out None None None None None None None None None None None None None None None None.
Definition binds (as_ : list LoopRecoveryAttempt) : option CandidateBinding :=
  blockerCandidateBinding DriveSample.sha (fun _ => "n") parse iso (fun _ => "") [] (fun _ => None) entry as_.
Definition first : LoopRecoveryAttempt := claim 0 "rerun_ci" headA OutStarted.
Definition rebound : LoopRecoveryAttempt := claim 1 "rerun_ci" headB OutStarted.

(** The first attempt decides; none at all, or one at the time of the block, does not. *)
Example bindings :
  binds [first; rebound] = Some (BoundTo None (attemptIdentity first) (attemptIdentity first)) ∧ binds [] = None ∧
  binds [rebound; first] = Some AmbiguousBinding.
Proof. by vm_compute. Qed.

Definition observed (head : string) (blocked : bool) : LoopExternalIdentity :=
  mkIdentity 7 true false blocked (Some 11%Z) (Some PrStateOpen) "issue-7" head None ChecksSuccess (Some "review-1") "now"
    None None None (Some KnownAbsent) None (Some RoleImplementation) (Some "art") (Some head) None None None.
Definition store (as_ : list LoopRecoveryAttempt) : RunStore :=
  mkRun DriveSample.contract (with_attempts (FrontierSample.ledger [("7", entry)]) as_) (Some DriveSample.record) (mkLogFile [] None) (mkLogFile [] None) [].
Definition readmit (as_ : list LoopRecoveryAttempt) (i : LoopExternalIdentity) : World * Out RecoveryExecutionResult (option Readmission) :=
  readmitCandidateSupersededBlock DriveSample.sha (fun _ => "n") parse iso (fun _ => "") [] (fun _ => None) DriveSample.sha "lop-1" "run" "mine"
    DriveSample.contract Claude "7" i "t" "t" (store as_, []).
Definition verdict (out : World * Out RecoveryExecutionResult (option Readmission)) : option (option (bool * bool) * option LoopItemState) :=
  match out with
  | (w, Next r) => Some ((fun x => (rm_readmitted x, rm_continueRecovery x)) <$> r, state_of (items (run_ledger w.1)) "7")
  | _ => None
  end.

(** The same candidate, another one, another one that is blocked itself, and a
    repair that moved the candidate. *)
Example readmissions :
  verdict (readmit [first] (observed headA false)) = Some (None, Some Blocked) ∧
  verdict (readmit [first] (observed headB false)) = Some (Some (true, false), Some InProgress) ∧
  verdict (readmit [first] (observed headB true)) = Some (Some (false, false), Some Blocked) ∧
  verdict (readmit [claim 0 "repair_pipeline_item" headA OutStarted; rebound] (observed headB false)) = Some (Some (false, true), Some Blocked).
Proof. by vm_compute. Qed.
End CandidateSample.

Lemma binding_exact_witness :
  candidateMembershipHeads None (attemptIdentity CandidateSample.first) ≠ [] ∧
  ∃ a, FirstOfBlock DriveSample.sha CandidateSample.parse CandidateSample.iso CandidateSample.entry [CandidateSample.first; CandidateSample.rebound] a ∧
    recoveryAttemptHasBoundedCandidateFields a = true ∧ None = att_candidate_epoch a ∧
    attemptIdentity CandidateSample.first = attemptIdentity a.
Proof.
  apply (binding_exact DriveSample.sha (fun _ => "n") CandidateSample.parse CandidateSample.iso (fun _ => "") [] (fun _ => None)
    CandidateSample.entry [CandidateSample.first; CandidateSample.rebound] _ _ (attemptIdentity CandidateSample.first)). by vm_compute.
Defined.

Lemma readmission_exact_witness : ∃ w' r, CandidateSample.readmit [CandidateSample.first] (CandidateSample.observed CandidateSample.headB false) = (w', Next (Some r)) ∧
  rm_readmitted r = true ∧ Tracks DriveSample.sha (CandidateSample.store [CandidateSample.first]) w'.1 (rm_ledger r).
Proof.
  assert (match CandidateSample.readmit [CandidateSample.first] (CandidateSample.observed CandidateSample.headB false) with
          | (_, Next (Some r)) => rm_readmitted r
          | _ => false
          end = true) as Hr by (vm_compute; reflexivity).
  unfold CandidateSample.readmit in *. destruct (readmitCandidateSupersededBlock _ _ _ _ _ _ _ _ _ _ _ _ _ _ _ _ _ _) as [w' [[r|]|r|e]] eqn:E;
    [|discriminate Hr..].
  exists w', r. split; [reflexivity|]. split; [exact Hr|].
  apply readmission_exact in E. exact (proj2 E).
Defined.
