(* ===== verification/Execute.v ===== *)
(** * The execution of one blocked recovery

    [executeBlockedRecovery] of [core/scripts/loop/supervisor.ts]: the guards,
    the observation that binds the recovery to a live candidate, the
    re-admission of a superseded block, the durable claim, the call of the
    executor under that claim, the postcondition and the completion.  The
    executor, what is observed and the readings of the clock are in
    [ExecDeps], one for every nested call. *)

From Stdlib Require Import ZArith QArith Qcanon.
From stdpp Require Import numbers base gmap strings list pretty.
From S2P Require Import Prelude Regex LoopTypes Ownership Lifecycle RecoveryPolicy Frontier Dependencies Schedule Precondition Observation TypedRequests RecoveryEpisodes Settlement RecoveryHandlers Store Holds StageDiagnostic Applicability Observe Reconcile Supervisor LoopSteps Drive Cycle CycleFacts LinkedAdvance Candidate.
Local Open Scope result_scope.
Local Open Scope nat_scope.

(** ** The executor and its surroundings *)

Record RecoveryExecution := mkExecution {
  ex_succeeded : bool;
  ex_evidence : string;
  ex_error : option string;
  ex_candidateHead : option string;
}.

Record ExecuteRecoveryInput := mkExecuteInput {
  xi_itemId : string;
  xi_blockerClass : string;
  xi_attemptId : option string;
  xi_candidateIdentity : option string;
  xi_action : option string;
  xi_diagnostic : jval;
  xi_evidence : jval;
  xi_logicalOperationId : option string;
}.

(** The places that read the clock. *)
Inductive Reading :=
| AtPreflightStop | AtReconcile | AtSupersede | AtTransition | AtReadmission | AtStale | AtCoolingCheck | AtEpisode | AtExhaustion
| AtSkip (r : RecoveryRecipe) | AtSkipRefresh (r : RecoveryRecipe) | AtClaim | AtClaimRefresh | AtStaleCompletion | AtExcluded | AtCompletion | AtBlock | AtLog.

Record ExecDeps := mkExecDeps {
  xd_engine : LoopEngineName;
  xd_before : ObserveDeps;
  xd_reconcile : ObserveDeps;
  xd_fresh : ObserveDeps;
  xd_transition : ObserveDeps;
  xd_after : ObserveDeps;
  xd_reread : nat → ObserveDeps;
  (** The events of the linked advance. *)
  xd_linked : LinkedDeps;
  (** [executeRecovery], which is called on the run as it is then. *)
  xd_execute : option (ExecuteRecoveryInput → World → result string RecoveryExecution);
  (** [env.PIPELINE_EXACT_FRG_NO_ENGINE_REPAIR === "1"]. *)
  xd_noEngineRepair : bool;
  (** [recoverySleep] is given. *)
  xd_sleeps : bool;
  xd_at : Reading → string;
  xd_transitionMs : Z * Z;
  xd_nowMs : Z;
}.

Abbreviation Rec := (Eff RecoveryExecutionResult).

Definition quit {A} (l : LoopLedger) (attempted : bool) : Rec A := ends (mkRecoveryResult l attempted None).

(** [try { m } catch (err) { h }]. *)
Definition catching {R A} (m : Eff R A) (h : LoopError → Eff R A) : Eff R A :=
  fun w => match m w with (w', Throw e) => h e w' | out => out end.

(** ** Heads *)

(** [/(?:^|\|)head=([^|]+)(?:\||$)/i], ["none"] without a match. *)
Definition claimedIdentityHead (candidateIdentity : string) : string :=
  default "none" (head (omap headOfSegment (splitBar [] (chars candidateIdentity)))).

(** [/(?:^|\|)head=([0-9a-f]{6,64})(?:\||$)/i], empty without a match. *)
Definition hexHead (seg : list Ascii.ascii) : option string :=
  h ← headOfSegment seg;
  let n := length (chars h) in
  if (6 <=? n) && (n <=? 64) && forallb isHexDigit (chars h) then Some h else None.
Definition claimedHexHead (candidateIdentity : string) : string := default "" (head (omap hexHead (splitBar [] (chars candidateIdentity)))).

Definition isReviewFindingsPrepFallthrough (evidence : string) (error : option string) : bool :=
  let text := lowerString (evidence +:+ String (Ascii.ascii_of_nat 10) "" +:+ default "" error) in
  string_includes text "prep-complete for review-findings" || string_includes text "prep not-applicable for review-findings" ||
  string_includes text "unlink_engine_scratch" && string_includes text "trying next recipe" &&
    (string_includes text "no engine-scratch" || string_includes text "no current engine-scratch").

(** ** The postcondition *)

Definition REPAIR_HEAD_REREAD_LIMIT : nat := 3.

Definition failedExecution (evidence error : string) : RecoveryExecution := mkExecution false evidence (Some error) None.

Definition sameHead (a b : string) : bool := bool_decide (lowerString a = lowerString b).

Section Execute.
Context (sha256hex : string → string) {dates : IsoDates} (mint : string) (isoAfter : string → jsnum → string) (showNum : jsnum → string)
  (toNumber : string → jsnum) (Date_parse : string → option Z) (isoOfMs : Z → string) (stringify : jval → string) (signals : list string)
  (JSON_parse : string → option jval) (repoName baseBranch : string) (fingerprintEvidence : string → string).
Context (runId token : string).

(** The observed head, re-read while it lags the one the repair pushed; a read
    that fails keeps the last one. *)
Fixpoint rereadHead (x : ExecDeps) (k h : string) (left n : nat) (i : LoopExternalIdentity) : LoopExternalIdentity :=
  match left with
  | O => i
  | S left' =>
      if sameHead (head_sha i) h then i
      else match observeExternalIdentity toNumber (xd_reread x n) k None with
      | Err _ => i
      | Ok i' => rereadHead x k h left' (S n) i'
      end
  end.

(** What the execution counts as, with the identity it is judged by. *)
Definition judgeExecution (x : ExecDeps) (k : string) (a : LoopRecoveryAttempt) (ex : RecoveryExecution) (post : LoopExternalIdentity)
    : RecoveryExecution * LoopExternalIdentity :=
  let claimed := claimedHexHead (attemptIdentity a) in
  if negb (ex_succeeded ex) then (ex, post)
  else if decide (action a = Some "repair_pipeline_item") then
    match truthy (ex_candidateHead ex) with
    | Some h =>
        if sameHead h claimed then
          (failedExecution "repair executor did not prove a remote candidate-changing commit" "repair executor did not prove a remote candidate-changing commit", post)
        else
          let post' := rereadHead x k h REPAIR_HEAD_REREAD_LIMIT 0 post in
          if sameHead (head_sha post') h then (ex, post')
          else (failedExecution ("remote candidate is " +:+ default "unobserved" (truthy (Some (head_sha post'))) +:+ " while recovery produced " +:+ h)
                  "recovery candidate head was not verified remotely", post')
    | None => (failedExecution "repair executor did not prove a remote candidate-changing commit" "repair executor did not prove a remote candidate-changing commit", post)
    end
  else if blocked_label_present post || bool_decide (claimed ≠ "") && negb (sameHead (head_sha post) claimed)
  then (failedExecution "narrow recovery postcondition did not preserve the claimed head and clear the block" "narrow recovery postcondition verification failed", post)
  else (ex, post).

(** The call of the executor. *)
Definition callExecutor (x : ExecDeps) (i : ExecuteRecoveryInput) (w : World) : RecoveryExecution :=
  match xd_execute x with
  | None => failedExecution "SupervisorDeps.executeRecovery is not configured" "SupervisorDeps.executeRecovery is not configured"
  | Some f =>
      match f i w with
      | Err m => failedExecution m m
      | Ok ex =>
          if blank (ex_evidence ex)
          then failedExecution "recovery executor returned no evidence" (default "recovery executor returned no evidence" (ex_error ex))
          else ex
      end
  end.

Definition logged {R} (x : ExecDeps) (e : StoreEvent) : Eff R unit := writes sha256hex runId token [WEvent (xd_at x AtLog) e].
Definition effect {R A} (x : ExecDeps) (eff : Effect A) : Eff R unit := writes sha256hex runId token (effectWrites eff (xd_at x AtLog)).
Definition readUpgraded {R} : Eff R LoopLedger :=
  run s := theStore; next (upgradeLedgerForRecovery sha256hex (readLedger sha256hex s)).

(** ** Guards *)

(** Cooling in place of a recovery that may not start. *)
Definition stopForRecoveryPreflight {R} (x : ExecDeps) (c : LoopContract) (k detail : string) : Eff R LoopLedger :=
  run s := theStore;
  let l := readLedger sha256hex s in
  match stop l with
  | Some _ => next l
  | None =>
      let time := xd_at x AtPreflightStop in
      run p := lift (compileRecoveryPolicy (recovery_policy c));
      let b := match policyFor p WorkflowEngineDefect with Some entry => backoff entry | None => mkBackoff (num 30) (num 2) (num 300) end in
      let cool := buildCoolingRecord MechanicalExhaustion time (isoAfter time (backoffSeconds b 0)) (Some k) (Some "workflow-engine-defect") None
                    (Some "run_fatal") None in
      let eff := persistOwnedCooling sha256hex l cool in
      effect x eff;;
      logged x (EvPreflightCooling k detail);;
      next (eff_ledger eff)
  end.

(** The blocked item, its class and the evidence of its block. *)
Definition recoverableBlock (x : ExecDeps) (c : LoopContract) (k : string) : Rec (LoopLedger * LoopItemLedgerEntry * DurableBlockerClass * (jval * jval)) :=
  run l := readUpgraded;
  if bool_decide (is_Some (stop l)) && compatibilityStopRefusesItem (stop l) k then quit l false
  else if negb (lifecycleAllowsRecoveryRecipe (lifecycle l) (oget (items l) k)) then quit l false
  else match oget (items l) k with
  | None => quit l false
  | Some e =>
      match truthy (blocked_theme e), persistedRecoveryEvidence showNum stringify signals JSON_parse e with
      | Some theme, Some persisted =>
          if bool_decide (state e ≠ Blocked) then quit l false
          else
            let p := projectStageDiagnostic showNum stringify signals (Some persisted.1) in
            if bool_decide (pj_disposition p ≠ Recover) || bool_decide (blocker_class_name (pj_blockerClass p) ≠ theme) then
              run l' := stopForRecoveryPreflight x c k ("persisted recovery diagnostic does not match blocked class " +:+ quoted theme);
              quit l' false
            else next (l, e, pj_blockerClass p, persisted)
      | _, _ => quit l false
      end
  end.

(** [{ ...item, last_verified_identity: identity }]. *)
Definition with_identity (e : LoopItemLedgerEntry) (i : LoopExternalIdentity) : LoopItemLedgerEntry :=
  mkEntry (id e) (state e) (history e) (blocked_theme e) (recovery_budgets_remaining e) (evidence_fingerprint e) (blocker_candidate_epoch e)
    (blocker_candidate_head e) (repeated_evidence_count e) (hold_request e) (Some i) (current_stage e) (advance_run_id e).

Definition deferWith {A} (x : ExecDeps) (k : string) (l : LoopLedger) (e : LoopError) : Rec A :=
  logged x (EvPreflightDeferred k None (message e));; quit l false.

(** The live identity, recorded with the item. *)
Definition observePhase (x : ExecDeps) (c : LoopContract) (k : string) (l : LoopLedger) : Rec (LoopExternalIdentity * LoopLedger * LoopItemLedgerEntry) :=
  let operation := match lifecycle l with Some r => Some (lr_logical_operation_id r) | None => c_logical_operation_id c end in
  run i := catching (lift (observeExternalIdentity toNumber (xd_before x) k operation)) (deferWith x k l);
  run cur := readUpgraded;
  match oget (items cur) k with
  | None => quit cur false
  | Some e =>
      if bool_decide (state e ≠ Blocked) then quit cur false
      else
        let l' := with_items cur (oset k (with_identity e i) (items cur)) in
        catching
          (writes sha256hex runId token [WLedger l'; WEvent (xd_at x AtLog)
             (EvCandidateReconciled k None (pr_number i) (truthy (Some (head_sha i))) (pipeline_stage i))])
          (deferWith x k l');;
        next (i, l', with_identity e i)
  end.

Definition supersede {R} (x : ExecDeps) (k reason : string) (select : LoopRecoveryAttempt → bool) (at_ : Reading) : Eff R LoopLedger :=
  run s := theStore;
  let (ws, l) := supersedeStartedRecoveryAttempts sha256hex s k reason select (xd_at x at_) (xd_at x AtLog) in
  writes sha256hex runId token ws;; next l.

(** A pull request that is merged, or ready, needs no recovery. *)
Definition forwardPhase (x : ExecDeps) (k : string) (i : LoopExternalIdentity) : Rec unit :=
  let merged := bool_decide (pr_state i = Some PrStateMerged) in
  if merged || bool_decide (pr_state i = Some PrStateOpen) && ready_label_present i then
    run s := theStore;
    run '(ws, _) := lift (reconcile sha256hex mint toNumber Date_parse (xd_reconcile x) s runId (xd_engine x) (fun _ => xd_at x AtReconcile)
                            (xd_at x AtReconcile) (xd_at x AtLog));
    writes sha256hex runId token ws;;
    run l := supersede x k ("fresh external identity already proves " +:+ if merged then "merged" else "ready") (fun _ => true) AtSupersede;
    logged x (EvRecoverySuperseded k (state_of (items l) k) (pr_number i) (truthy (Some (head_sha i))));;
    quit l false
  else next tt.

(** An issue that is seen closed twice abandons the item; one that cannot be
    read defers. *)
Definition closedPhase (x : ExecDeps) (c : LoopContract) (k : string) (l : LoopLedger) (i : LoopExternalIdentity) : Rec unit :=
  if issue_open i then next tt
  else match ob_getIssueStateAndLabels (xd_fresh x) (issueOf toNumber k) with
  | Ok (Some (true, _)) => next tt
  | Ok (Some (false, _)) =>
      run s := theStore;
      run '(ws, _) := lift (transitionItem sha256hex mint toNumber Date_parse (xd_transition x) c s runId
        (mkTransition k (xd_engine x) Abandoned (Some "fresh external identity closed the issue before recovery execution") None None)
        (xd_transitionMs x).1 (xd_transitionMs x).2 (xd_at x AtTransition) (xd_at x AtLog));
      writes sha256hex runId token ws;;
      run l' := supersede x k "fresh external identity proves the issue is closed without a merged candidate" (fun _ => true) AtSupersede;
      logged x (EvRecoverySuperseded k (Some Abandoned) (pr_number i) (truthy (Some (head_sha i))));;
      quit l' false
  | _ =>
      logged x (EvPreflightDeferred k None "issue state unobservable — recovery deferred this cycle instead of abandoning");;
      quit l false
  end.

Definition readmitPhase (x : ExecDeps) (c : LoopContract) (k : string) (i : LoopExternalIdentity) (l : LoopLedger) (e : LoopItemLedgerEntry)
    : Rec (LoopLedger * LoopItemLedgerEntry) :=
  run r := readmitCandidateSupersededBlock fingerprintEvidence showNum Date_parse isoOfMs stringify signals JSON_parse sha256hex mint runId token
             c (xd_engine x) k i (xd_at x AtReadmission) (xd_at x AtLog);
  match r with
  | None => next (l, e)
  | Some r => if rm_continueRecovery r then next (rm_ledger r, default e (oget (items (rm_ledger r)) k)) else quit (rm_ledger r) (rm_readmitted r)
  end.

(** ** The claim *)

(** What a recovery works with once its candidate is known. *)
Record RecoveryFrame := mkFrame {
  fr_contract : LoopContract;
  fr_item : LoopItemLedgerEntry;
  fr_class : DurableBlockerClass;
  (** The evidence, and the identity of the progress it stands for. *)
  fr_persisted : jval * jval;
  fr_progress : string;
}.

Definition fr_epoch (f : RecoveryFrame) : string := observedCandidateEpoch (Some (fr_item f)).

Definition matchesEpisode (k : string) (f : RecoveryFrame) (a : LoopRecoveryAttempt) : bool :=
  bool_decide (att_item_id a = k) && bool_decide (Some (att_class a) = blocked_theme (fr_item f)) &&
  (bool_decide (evidence_identity a = Some (fr_progress f)) && attemptBelongsToCandidateEpoch (att_candidate_epoch a) (candidate_identity a) (fr_epoch f) ||
   bool_decide (Some (att_evidence_fingerprint a) = evidence_fingerprint (fr_item f))).

Definition matching (k : string) (f : RecoveryFrame) (l : LoopLedger) : list LoopRecoveryAttempt :=
  filter (fun a => matchesEpisode k f a = true) (attemptsOf l).

Definition observedHeadOf (f : RecoveryFrame) : option string := lowerString ∘ js_trim ∘ head_sha <$> last_verified_identity (fr_item f).

(** An open claim on an earlier candidate, a candidate-changing repair aside. *)
Definition staleClaim (f : RecoveryFrame) (a : LoopRecoveryAttempt) : bool :=
  bool_decide (outcome a = OutStarted) && bool_decide (action a ≠ Some "repair_pipeline_item") && bool_decide (fr_epoch f ≠ "") &&
  negb (attemptBelongsToObservedCandidate a (last_verified_identity (fr_item f)) (fr_epoch f)).

Definition staleStep (x : ExecDeps) (k : string) (f : RecoveryFrame) (_ : unit) (a : LoopRecoveryAttempt) : Rec unit :=
  logged x (EvAttemptStale (attempt_id a) k (claimedIdentityHead (attemptIdentity a)) (default (fr_epoch f) (truthy (observedHeadOf f)))).

Definition stalePhase (x : ExecDeps) (k : string) (f : RecoveryFrame) (l : LoopLedger) : Rec LoopLedger :=
  match filter (fun a => staleClaim f a = true) (matching k f l) with
  | [] => next l
  | stale =>
      forEach (staleStep x k f) stale tt;;
      supersede x k ("fresh candidate epoch " +:+ fr_epoch f +:+ " supersedes recovery claimed for an earlier candidate")
        (fun a => includes (attempt_id a) (attempt_id <$> stale)) AtStale
  end.

Definition strategyApplies (x : ExecDeps) (f : RecoveryFrame) (r : RecoveryRecipe) : bool :=
  if bool_decide (r = RepairPipelineItem) && xd_noEngineRepair x then false
  else recipeApplies showNum stringify signals (fr_item f) (fr_class f) (Some (fr_persisted f).1) r.

(** The strategy that is tried next, with the ones it passes over. *)
Definition chooseStrategy (x : ExecDeps) (f : RecoveryFrame) (force : option RecoveryRecipe) (policy : RecoveryPolicyEntry)
    (ep : RecoveryEpisodeRecord) (ms : list LoopRecoveryAttempt) : SelectStrategyResult :=
  let hasHead := bool_decide (is_Some (truthy (js_trim ∘ head_sha <$> last_verified_identity (fr_item f)))) in
  let preferRepair := bool_decide (blocked_theme (fr_item f) = Some "review-findings") &&
        bool_decide ((last ms ≫= action) = Some "unlink_engine_scratch") && hasHead && includes RepairPipelineItem (recipes policy) &&
        strategyApplies x f RepairPipelineItem in
  let forced := match force with
                | Some r => if strategyApplies x f r then Some r else if preferRepair then Some RepairPipelineItem else None
                | None => if preferRepair then Some RepairPipelineItem else None
                end in
  match forced with
  | Some r => Claim r (Z.max (ep_cursor ep) (Z.of_nat (recipeIndex (recipes policy) r))) []
  | None => selectEligibleRecoveryStrategy (recipes policy) (ep_counts ep) (fun _ => perStrategyBound policy) (strategyApplies x f) (ep_cursor ep)
              (default 0%Z (repeated_evidence_count (fr_item f))) (repeated_evidence_limit policy)
  end.

Definition startInput (k : string) (f : RecoveryFrame) (epoch : string) (r : RecoveryRecipe) (candidate : string) (skip : bool) : StartRecoveryAttemptInput :=
  mkStart runId token k r (Some candidate) None (Some (blocker_class_name (fr_class f))) (Some epoch) (Some (fr_progress f)) skip.

Definition startClaim {R} (x : ExecDeps) (f : RecoveryFrame) (i : StartRecoveryAttemptInput) (t t' : Reading) : Eff R (LoopLedger * LoopRecoveryAttempt) :=
  run s := theStore;
  run eff := lift (startRecoveryAttempt sha256hex mint isoAfter (fr_contract f) (readLedger sha256hex s) i (xd_at x t) (xd_at x t'));
  effect x eff;;
  next (eff_ledger eff, eff_value eff).

Definition skipStep (x : ExecDeps) (k : string) (f : RecoveryFrame) (epoch candidate : string) (l : LoopLedger) (r : RecoveryRecipe) : Rec LoopLedger :=
  run '(l', _) := startClaim x f (startInput k f epoch r candidate true) (AtSkip r) (AtSkipRefresh r);
  next l'.

(** No strategy is left. *)
Definition exhaustedPhase {A} (x : ExecDeps) (k : string) (f : RecoveryFrame) (l : LoopLedger) (policy : RecoveryPolicyEntry) : Rec A :=
  let noneApplies := forallb (fun r => negb (strategyApplies x f r)) (recipes policy) in
  let hasHead := bool_decide (is_Some (truthy (js_trim ∘ head_sha <$> last_verified_identity (fr_item f)))) in
  if bool_decide (fieldOf (fieldOf (Some (fr_persisted f).1) "detail") "preflight_failed" = Some (JBool true)) && noneApplies then
    quietly (logged x (EvPreflightDeferred k None "inapplicable_recipes"));; quit l false
  else if negb hasHead && noneApplies then
    run l' := stopForRecoveryPreflight x (fr_contract f) k
      ("recovery policy for " +:+ quoted (blocker_class_name (fr_class f)) +:+ " has no action that is safe without a current candidate head");
    quit l' false
  else
    let time := xd_at x AtExhaustion in
    let cool := buildCoolingRecord StrategyCursorExhausted time (isoAfter time (backoffSeconds (backoff policy) 1)) (Some k)
                  (Some (blocker_class_name (fr_class f))) (Some (fr_epoch f)) (Some "recovery_exhausted") None in
    run s := theStore;
    let eff := persistOwnedCooling sha256hex (readLedger sha256hex s) cool in
    effect x eff;;
    quit (eff_ledger eff) false.

(** The open claim to replay, or a new one and whether it is open. *)
Definition claimPhase (x : ExecDeps) (k : string) (force : option RecoveryRecipe) (f : RecoveryFrame) (l : LoopLedger)
    : Rec (LoopLedger * LoopRecoveryAttempt * bool) :=
  let ms := matching k f l in
  match last (filter (fun a => outcome a = OutStarted) ms) with
  | Some a => next (l, a, false)
  | None =>
      run policy := lift (entryFor (fr_contract f) (fr_class f));
      let cool := coolingRecordForItem l k in
      if coolingIsActive Date_parse cool (xd_at x AtCoolingCheck) &&
         negb (coolingIsStaleForNewCandidateEpoch Date_parse cool (attemptsOf l) (Some k) (fr_epoch f)
                 (default (fr_epoch f) (head_sha <$> last_verified_identity (fr_item f))))
      then quietly (logged x (EvPreflightDeferred k None "cooling_next_eligible_at"));; quit l false
      else
        let identityAt n := itemCandidateIdentity showNum repoName baseBranch (fr_item f) (fr_persisted f).2 n in
        let candidate := identityAt (length ms) in
        let epoch := recoveryEpisodeCandidateEpoch (last_verified_identity (fr_item f)) (replaceAll advanceRe "" candidate) in
        let key := mkKey "loop_recovery" (blocker_class_name (fr_class f)) epoch (fr_progress f) in
        let ep := default (emptyEpisode sha256hex key (xd_at x AtEpisode)) (resumeEpisodeFromAttempts sha256hex (attemptsOf l) key) in
        match chooseStrategy x f force policy ep ms with
        | StrategiesExhausted skipped =>
            run l' := forEach (skipStep x k f epoch candidate) skipped l;
            exhaustedPhase x k f l' policy
        | Claim r _ skipped =>
            forEach (skipStep x k f epoch candidate) skipped l;;
            run '(l', a) := startClaim x f (startInput k f epoch r (identityAt (length ms + length skipped)) false) AtClaim AtClaimRefresh;
            if bool_decide (outcome a ≠ OutStarted) then quit l' false else next (l', a, true)
        end
  end.

(** ** Under the claim *)

(** A claim whose binding to the observed open pull request is not exact waits. *)
Definition bindingGate (x : ExecDeps) (k : string) (f : RecoveryFrame) (l : LoopLedger) (a : LoopRecoveryAttempt) : Rec unit :=
  match last_verified_identity (fr_item f) with
  | Some i =>
      if bool_decide (is_Some (pr_number i)) && bool_decide (pr_state i = Some PrStateOpen) && isSha40 (js_trim (head_sha i)) &&
         (negb (recoveryAttemptHasBoundedCandidateFields a) ||
          bool_decide (exactCandidatePrTokens (attemptIdentity a) ≠ option_list (num <$> pr_number i)))
      then logged x (EvPreflightDeferred k (attempt_id a) "started_recovery_candidate_binding_ambiguous");; quit l false
      else next tt
  | None => next tt
  end.

Definition completeClaim {R} (x : ExecDeps) (c : LoopContract) (k : string) (a : LoopRecoveryAttempt) (succeeded : bool) (error : option string) (t : Reading)
    : Eff R LoopLedger :=
  run s := theStore;
  run eff := lift (completeRecoveryAttempt sha256hex mint showNum c (readLedger sha256hex s)
    (mkComplete runId k (xd_engine x) (default "undefined" (attempt_id a)) succeeded error) (xd_at x t));
  effect x eff;;
  next (eff_ledger eff).

(** A claim on a head that has moved fails, a candidate-changing repair aside. *)
Definition headGate (x : ExecDeps) (k : string) (f : RecoveryFrame) (a : LoopRecoveryAttempt) : Rec unit :=
  let claimed := claimedIdentityHead (attemptIdentity a) in
  let observed := default "none" (truthy (observedHeadOf f)) in
  if bool_decide (observed ≠ "none") && bool_decide (claimed ≠ observed) &&
     negb (shareHead (candidateMembershipHeads (att_candidate_epoch a) (attemptIdentity a)) (candidateMembershipHeads (Some (fr_epoch f)) observed)) &&
     bool_decide (action a ≠ Some "repair_pipeline_item")
  then
    logged x (EvAttemptStale (attempt_id a) k claimed observed);;
    run l := completeClaim x (fr_contract f) k a false
      (Some ("recovery claim " +:+ default "undefined" (attempt_id a) +:+ " is stale: claimed head " +:+ claimed +:+ ", current head " +:+ observed)) AtStaleCompletion;
    quit l true
  else next tt.

(** How long until the claim may run. *)
Definition remainingDelay (x : ExecDeps) (a : LoopRecoveryAttempt) : Z :=
  match truthy (not_before a) ≫= Date_parse with Some ms => Z.max 0 (ms - xd_nowMs x) | None => 0%Z end.

Definition backoffGate (x : ExecDeps) (k : string) (a : LoopRecoveryAttempt) (claimedNow : bool) : Rec unit :=
  if xd_sleeps x && (0 <? remainingDelay x a)%Z then
    logged x (EvBackoffDeferred (attempt_id a) k (remainingDelay x a) (not_before a));;
    run l := readUpgraded;
    ends (mkRecoveryResult l claimedNow (not_before a))
  else next tt.

Definition executeInput (k : string) (f : RecoveryFrame) (l : LoopLedger) (a : LoopRecoveryAttempt) : ExecuteRecoveryInput :=
  mkExecuteInput k (att_class a) (attempt_id a) (candidate_identity a) (action a) (fr_persisted f).1 (fr_persisted f).2
    (lr_logical_operation_id <$> lifecycle l).

Definition postcondition (a : LoopRecoveryAttempt) (ex : RecoveryExecution) : string :=
  if ex_succeeded ex then (if recoveryRecipeOnlyProvesRedispatch (action a) then "redispatch_admissible" else "verified") else "failed".

Definition executedEvent (k : string) (a : LoopRecoveryAttempt) (ex : RecoveryExecution) (succeeded : option bool) (post : string) : StoreEvent :=
  EvActionExecuted (attempt_id a) k (action a) succeeded (ex_evidence ex) (ex_error ex) (ex_candidateHead ex) post.

(** The executor runs and what it did is observed. *)
Definition executePhase (x : ExecDeps) (k : string) (f : RecoveryFrame) (l : LoopLedger) (a : LoopRecoveryAttempt)
    : Rec (RecoveryExecution * LoopExternalIdentity) :=
  run ex := fun w => (w, Next (callExecutor x (executeInput k f l a) w));
  match observeExternalIdentity toNumber (xd_after x) k None with
  | Err e =>
      logged x (executedEvent k a ex None "deferred");;
      logged x (EvPostconditionDeferred (attempt_id a) k (message e));;
      run l' := readUpgraded;
      quit l' true
  | Ok post => next (judgeExecution x k a ex post)
  end.

(** The identity the completion is recorded with. *)
Definition recordPost {R} (x : ExecDeps) (k : string) (a : LoopRecoveryAttempt) (post : LoopExternalIdentity) : Eff R unit :=
  run s := theStore;
  let l := readLedger sha256hex s in
  match oget (items l) k with
  | Some e =>
      if bool_decide (state e = Blocked) then
        writes sha256hex runId token [WLedger (with_items l (oset k (with_identity e post) (items l))); WEvent (xd_at x AtLog)
          (EvCandidateReconciled k (attempt_id a) (pr_number post) (truthy (Some (head_sha post))) (pipeline_stage post))]
      else next tt
  | None => next tt
  end.

(** A preparation that ended as it should is followed by the repair. *)
Definition fallsThrough (force : option RecoveryRecipe) (a : LoopRecoveryAttempt) (ex : RecoveryExecution) : bool :=
  negb (ex_succeeded ex) && bool_decide (action a = Some "unlink_engine_scratch") && bool_decide (att_class a = "review-findings") &&
  isReviewFindingsPrepFallthrough (ex_evidence ex) (ex_error ex) && bool_decide (force ≠ Some RepairPipelineItem).

(** ** The whole recovery *)

(** Up to the claim. *)
Definition bindRecovery (x : ExecDeps) (force : option RecoveryRecipe) (c0 : LoopContract) (k : string)
    : Rec (RecoveryFrame * LoopLedger * LoopRecoveryAttempt * bool) :=
  run c := lift (upgradeContractForRecovery c0);
  run '(l0, e0, cls, persisted) := recoverableBlock x c k;
  run '(i, l1, e1) := observePhase x c k l0;
  forwardPhase x k i;;
  closedPhase x c k l1 i;;
  run '(l2, e) := readmitPhase x c k i l1 e1;
  let f := mkFrame c e cls (refineRecoveryEvidenceFromLinkedAdvance Date_parse isoOfMs showNum stringify signals sha256hex (xd_linked x) repoName e persisted)
             (recoveryProgressIdentityForBlockedItem sha256hex showNum stringify signals JSON_parse e cls (attemptsOf l2) persisted.1 (observedCandidateEpoch (Some e))) in
  run l3 := stalePhase x k f l2;
  run '(l4, a, claimedNow) := claimPhase x k force f l3;
  next (f, l4, a, claimedNow).

Section Body.
(** The recursive call, on the upgraded contract. *)
Context (again : option RecoveryRecipe → LoopContract → World → World * result LoopError RecoveryExecutionResult).

Definition underClaim (x : ExecDeps) (force : option RecoveryRecipe) (k : string) (f : RecoveryFrame) (l : LoopLedger) (a : LoopRecoveryAttempt)
    (claimedNow : bool) : Rec RecoveryExecutionResult :=
  bindingGate x k f l a;;
  headGate x k f a;;
  if bool_decide (action a = Some "repair_pipeline_item") && xd_noEngineRepair x then
    completeClaim x (fr_contract f) k a false (Some "repair_pipeline_item is inapplicable during exact-candidate FRG") AtExcluded;;
    liftW (again None (fr_contract f))
  else
    backoffGate x k a claimedNow;;
    run '(ex, post) := executePhase x k f l a;
    logged x (executedEvent k a ex (Some (ex_succeeded ex)) (postcondition a ex));;
    recordPost x k a post;;
    run l' := completeClaim x (fr_contract f) k a (ex_succeeded ex) (ex_error ex) AtCompletion;
    if fallsThrough force a ex then
      run continued := liftW (again (Some RepairPipelineItem) (fr_contract f));
      next (mkRecoveryResult (rr_ledger continued) true None)
    else next (mkRecoveryResult l' true None).

Definition recoveryBody (x : ExecDeps) (force : option RecoveryRecipe) (c0 : LoopContract) (k : string) : Rec RecoveryExecutionResult :=
  run '(f, l, a, claimedNow) := bindRecovery x force c0 k;
  underClaim x force k f l a claimedNow.
End Body.

Definition returns {A} (m : Eff A A) (w : World) : World * result LoopError A :=
  match m w with
  | (w', Next r) | (w', Return r) => (w', Ok r)
  | (w', Throw e) => (w', Err e)
  end.

(** Calls nested more than [fuel] deep are cut off with an error. *)
Definition tooDeep : LoopError := mkLoopError FValidation "nested recovery calls exceed the bound of the model".

(** [x n] is what the call at depth [n] sees. *)
Fixpoint executeBlockedRecovery (fuel depth : nat) (x : nat → ExecDeps) (k : string) (force : option RecoveryRecipe) (c0 : LoopContract) (w : World)
    : World * result LoopError RecoveryExecutionResult :=
  match fuel with
  | O => (w, Err tooDeep)
  | S fuel' => returns (recoveryBody (executeBlockedRecovery fuel' (S depth) x k) (x depth) force c0 k) w
  end.

(** ** Blocking and recovering in one step *)

Record BlockRecoveryInput := mkBlockRecovery {
  br_itemId : string;
  br_blockerClass : DurableBlockerClass;
  br_diagnostic : jval;
  br_evidence : jval;
  br_allowAlreadyStopped : bool;
}.

Definition serializeRecoveryEvidence (diagnostic transport : jval) : string :=
  stringify (JObj [("schema", JStr "pipeline/loop-recovery-evidence@1"); ("diagnostic", diagnostic); ("transport", transport)]).

(** A fresh observation that proves the item finished, or closed, wins. *)
Definition finishedPhase (b : ExecDeps) (c : LoopContract) (k : string) (i : LoopExternalIdentity) : Rec unit :=
  if bool_decide (pr_state i = Some PrStateMerged) || bool_decide (pr_state i = Some PrStateOpen) && ready_label_present i then
    run s := theStore;
    run '(ws, _) := lift (reconcile sha256hex mint toNumber Date_parse (xd_reconcile b) s runId (xd_engine b) (fun _ => xd_at b AtReconcile)
                            (xd_at b AtReconcile) (xd_at b AtLog));
    writes sha256hex runId token ws;;
    run s' := theStore;
    let l := readLedger sha256hex s' in
    logged b (EvRecoverySuperseded k (state_of (items l) k) (pr_number i) (truthy (Some (head_sha i))));;
    quit l false
  else if issue_open i then next tt
  else match ob_getIssueStateAndLabels (xd_fresh b) (issueOf toNumber k) with
  | Ok (Some (false, _)) =>
      run s := theStore;
      run '(ws, l) := lift (transitionItem sha256hex mint toNumber Date_parse (xd_transition b) c s runId
        (mkTransition k (xd_engine b) Abandoned (Some "fresh external identity closed the issue before recovery classification") None None)
        (xd_transitionMs b).1 (xd_transitionMs b).2 (xd_at b AtTransition) (xd_at b AtLog));
      writes sha256hex runId token ws;;
      logged b (EvRecoverySuperseded k (Some Abandoned) (pr_number i) (truthy (Some (head_sha i))));;
      quit l false
  | _ => next tt
  end.

(** [recover] is the execution of the blocked item's recovery. *)
Definition blockAndExecuteRecovery (recover : World → World * result LoopError RecoveryExecutionResult) (b : ExecDeps) (c : LoopContract)
    (i : BlockRecoveryInput) : Rec RecoveryExecutionResult :=
  let k := br_itemId i in
  run s := theStore;
  let l := readLedger sha256hex s in
  if bool_decide (state_of (items l) k = Some Blocked) then liftW recover
  else if stateIs isDoneOrAbandoned l k then quit l false
  else
    let identity := match stop l, observeExternalIdentity toNumber (xd_before b) k None with None, Ok x => Some x | _, _ => None end in
    from_option (finishedPhase b c k) (next tt) identity;;
    run s' := theStore;
    run eff := lift (blockItem sha256hex fingerprintEvidence mint c (readLedger sha256hex s')
      (mkBlock runId k (xd_engine b) (blocker_class_name (br_blockerClass i)) (serializeRecoveryEvidence (br_diagnostic i) (br_evidence i))
         (Some (Some (candidateEpochFromIdentity identity))) (Some (Some (default "" (head_sha <$> identity)))) None (br_allowAlreadyStopped i))
      (xd_at b AtBlock));
    effect b eff;;
    if bool_decide (is_Some (stop (eff_ledger eff))) then quit (eff_ledger eff) false else liftW recover.
End Execute.
