(* ===== verification/ExecuteFacts.v ===== *)
(** * What the execution of a recovery guarantees

    A rule for every phase of [Execute] in the program logic of [CycleFacts],
    and the theorems: it changes the run only as the engine's operations do and
    returns a ledger that agrees with one the store has or rejected
    ([RecoveryLaw]), the executor runs only under an open claim of its item, a
    recovery counts as successful exactly when its postcondition was observed,
    and nested calls are bounded. *)

From Stdlib Require Import ZArith QArith Qcanon.
From stdpp Require Import numbers base gmap strings list pretty.
From S2P Require Import Prelude Regex LoopTypes Ownership Lifecycle RecoveryPolicy Frontier Dependencies Schedule Precondition Observation TypedRequests RecoveryEpisodes Settlement RecoveryHandlers Store Holds StageDiagnostic Applicability Observe Reconcile Supervisor LoopSteps Drive Cycle CycleFacts LinkedAdvance Candidate Execute.
Local Open Scope result_scope.
Local Open Scope nat_scope.

Section Rules.
Context {Res : Type} (I : World → Prop) (R : World → Res → Prop).

Lemma ensures_liftW {A} (m : World → World * result LoopError A) w (N : World → A → Prop) :
  I (m w).1 → (∀ a, (m w).2 = Ok a → N (m w).1 a) → ensures I R (liftW m) w N.
Proof. unfold ensures, liftW. destruct (m w) as [w' [a|e]]; simpl; auto. Qed.

(** A handler starts where the body threw. *)
Lemma ensures_catching {A} (m : Eff Res A) h w (N : World → A → Prop) (T : World → Prop) :
  ensures I R m w N → match m w with (w', Throw _) => T w' | _ => True end → (∀ w' e, I w' → T w' → ensures I R (h e) w' N) →
  ensures I R (catching m h) w N.
Proof. unfold ensures, catching. destruct (m w) as [w' [a|r|e]]; [done|done|]. intros Hi Ht Hh. by apply Hh. Qed.
End Rules.

Section Phases.
Context (sha256hex : string → string) {dates : IsoDates} (mint : string) (isoAfter : string → jsnum → string) (showNum : jsnum → string)
  (toNumber : string → jsnum) (Date_parse : string → option Z) (isoOfMs : Z → string) (stringify : jval → string) (signals : list string)
  (JSON_parse : string → option jval) (repoName baseBranch : string) (fingerprintEvidence : string → string).
Context (runId token : string) (s0 : RunStore).

(** The ledger of a result is in hand. *)
Definition Stored (w : World) (r : RecoveryExecutionResult) : Prop := Holding sha256hex s0 w (rr_ledger r).

#[local] Abbreviation Inv := (Inv s0).
#[local] Abbreviation Holding := (Holding sha256hex s0).
#[local] Abbreviation Synced := (Synced sha256hex).
#[local] Abbreviation Lands := (Lands sha256hex).
#[local] Abbreviation ok := (ensures Inv Stored).
#[local] Abbreviation upgraded w := (upgradeLedgerForRecovery sha256hex (readLedger sha256hex w.1)).

Lemma quit_ok {A} l b w (N : World → A → Prop) : Inv w → Holding w l → ok (quit l b) w N.
Proof. intros Hi Hh. by apply ensures_ends. Qed.

Lemma logged_ok {Ret} {Q : World → Ret → Prop} x e w l :
  Inv w → Holding w l → ensures Inv Q (logged sha256hex runId token x e) w (fun w' _ => Holding w' l).
Proof.
  intros Hi Hh. apply (holding_carries sha256hex runId token s0 _ w l l); [done|done|]. apply carries_events. by intros y ?%list_elem_of_singleton.
Qed.

(** One event, whether it is appended or not. *)
Lemma logged_quietly x e w l : Inv w → Holding w l → ok (quietly (logged sha256hex runId token x e)) w (fun w' _ => Holding w' l).
Proof.
  intros Hi Hh. pose proof (logged_ok (Q:=Stored) x e w l Hi Hh) as H. unfold ensures, quietly in *.
  destruct (logged _ _ _ _ _ w) as [w' [u|r|y]] eqn:E; [done|done|].
  unfold logged, writes in E. simpl in E. destruct (appendEvent _ _ _ _ _); [done|]. injection E as <- _. by destruct w.
Qed.

Lemma readUpgraded_ok {Ret} {Q : World → Ret → Prop} w :
  Inv w → ensures Inv Q (readUpgraded sha256hex) w (fun w' l => w' = w ∧ l = upgraded w).
Proof.
  intros Hi. unfold readUpgraded. eapply ensures_seq; [apply (ensures_store _ _ _ (fun w' s => w' = w ∧ s = w.1)); done|].
  intros w1 s Hi1 [-> ->]. by apply ensures_next.
Qed.

(** Writes of ledgers that evolved from the stored one. *)
Lemma writes_inv {Ret} {Q : World → Ret → Prop} ws w :
  Inv w → (∀ l, WLedger l ∈ ws → LedgerEvolves (run_ledger w.1) l) → ensures Inv Q (writes sha256hex runId token ws) w (fun _ _ => True).
Proof.
  intros Hi Hw. pose proof (performAll_evolves sha256hex runId token w.1 ws Hw) as Hp. unfold ensures, writes.
  destruct (performAll _ _ _ _ _) as [s' [u|e]]; cbn [fst] in Hp; [split; [|done]|]; unfold CycleFacts.Inv in *; cbn [fst]; by etrans.
Qed.

(** *** Effects of the handlers *)

Lemma effect_lands {A} (eff : Effect A) l t : (eff_written eff = false → Synced (eff_ledger eff) l) → Lands l (effectWrites eff t) (eff_ledger eff).
Proof.
  unfold effectWrites. destruct (eff_written eff); intros H; [|by apply lands_nil, H]. apply lands_write. by intros x (? & ? & _)%list_elem_of_fmap.
Qed.

Lemma effect_written {A} (eff : Effect A) t y : WLedger y ∈ effectWrites eff t → y = eff_ledger eff.
Proof.
  unfold effectWrites. destruct (eff_written eff); [|by intros ?%elem_of_nil].
  intros [Hw|Hw]%elem_of_cons; [by injection Hw|by apply list_elem_of_fmap in Hw as (? & ? & _)].
Qed.

Lemma effect_ok {Ret A} {Q : World → Ret → Prop} x (eff : Effect A) w l :
  Inv w → Holding w l → Keeps l (eff_ledger eff) → (eff_written eff = false → Synced (eff_ledger eff) l) →
  ensures Inv Q (effect sha256hex runId token x eff) w (fun w' _ => Holding w' (eff_ledger eff)).
Proof.
  intros Hi Hh Hk Hs. apply (writes_ok sha256hex runId token s0 _ w l); [done|done| |by apply keeps_evolves| |by apply effect_lands].
  - intros y Hy. rewrite (effect_written _ _ _ Hy). split; [by apply keeps_evolves|done].
  - intros st Hst. left. by apply Hk.
Qed.

Lemma admitted_synced c l l0 t :
  Synced l l0 → lifecycle (admitRecoveryLifecycle mint c l t) = lifecycle l → Synced (admitRecoveryLifecycle mint c l t) l0.
Proof. intros Hs Hl. etrans; [|exact Hs]. by apply synced_same. Qed.

Lemma start_lands c l i t t' eff :
  startRecoveryAttempt sha256hex mint isoAfter c l i t t' = Ok eff → eff_written eff = false → Synced (eff_ledger eff) l.
Proof.
  unfold startRecoveryAttempt. destruct (claimGuards sha256hex c l i) as [x|] eqn:E; cbn [rbind]; [|done].
  apply claimGuards_Ok in E as (_ & El & _). destruct (list_find _ _) as [[n existing]|]; intros H.
  - destruct (match truthy _ with Some _ => _ | None => _ end); cbn [rbind] in H; [|done]. injection H as <-. cbn [eff_written eff_ledger].
    intros Hb%bool_decide_eq_false%dec_stable. apply admitted_synced; [|done]. rewrite El. apply upgrade_synced.
  - destruct (recordClaim _ _ _ _ _). injection H as <-. done.
Qed.

Lemma complete_lands c l i t eff :
  completeRecoveryAttempt sha256hex mint showNum c l i t = Ok eff → eff_written eff = false → Synced (eff_ledger eff) l.
Proof.
  unfold completeRecoveryAttempt. destruct (upgradeContractForRecovery c); cbn [rbind]; [|done]. cbv zeta.
  destruct (requireLiveLifecycle _ _); cbn [rbind]; [|done]. destruct (list_find _ _) as [[n row]|]; [|done].
  case_decide; [done|]. case_decide; intros Heff.
  - injection Heff as <-. cbn [eff_written eff_ledger]. intros Hb%bool_decide_eq_false%dec_stable. apply admitted_synced; [apply upgrade_synced|done].
  - destruct (requireNotStopped _ _ _); cbn [rbind] in Heff; [|done]. destruct (oget _ _); [|done]. case_decide; [done|]. by injection Heff as <-.
Qed.

(** *** Guards *)

Lemma preflightStop_ok {Ret} {Q : World → Ret → Prop} x c k detail w :
  Inv w → ensures Inv Q (stopForRecoveryPreflight sha256hex isoAfter runId token x c k detail) w (fun w' l => Holding w' l).
Proof.
  intros Hi. unfold stopForRecoveryPreflight. eapply ensures_seq; [apply (ensures_store _ _ _ (fun w' s => w' = w ∧ s = w.1)); done|].
  intros w1 s Hi1 [-> ->]. cbv zeta. pose proof (read_held sha256hex s0 w Hi) as Hr. destruct (stop _); [by apply ensures_next|].
  eapply ensures_seq; [apply (ensures_lift _ _ _ _ (fun w' _ => w' = w)); done|]. intros w1 p Hi2 ->.
  eapply ensures_seq; [by apply (effect_ok x _ w (readLedger sha256hex w.1)); [| |apply cooling_keeps|]|]. intros w2 [] Hi3 Hh.
  eapply ensures_seq; [by apply logged_ok|]. intros w3 [] Hi4 Hh4. by apply ensures_next.
Qed.

(** An item whose verified identity is replaced. *)
Lemma identity_evolves l k e i :
  oget (items l) k = Some e → state e = Blocked → LedgerEvolves l (with_items l (oset k (with_identity e i) (items l))).
Proof.
  intros He Hs. eapply entry_evolves; [done..|exact He|]. split; [done| |].
  - exists []. by rewrite app_nil_r.
  - intros _. apply unproving. cbn [state with_identity]. by rewrite Hs.
Qed.

Lemma identity_synced l k e i : oget (items l) k = Some e → Synced (with_items l (oset k (with_identity e i) (items l))) l.
Proof.
  intros He. split; [done..| |done]. intros k'. unfold state_of. cbn [items with_items]. destruct (decide (k = k')) as [<-|Hne].
  - by rewrite oget_oset_eq, He.
  - by rewrite oget_oset_ne.
Qed.

(** Recording it keeps the ledger in hand, wherever it is cut off. *)
Lemma record_kept w l l' t ev :
  Inv w → Holding w l → LedgerEvolves l l' → Synced l' l →
  match writes (R:=RecoveryExecutionResult) sha256hex runId token [WLedger l'; WEvent t ev] w with
  | (w', Throw _) => Holding w' l'
  | _ => True
  end.
Proof.
  intros Hi Hh He Hy. assert (stop l' = stop l) as Hst by apply (sy_stop Hy).
  pose proof (holding_carries (Ret:=RecoveryExecutionResult) (Q:=fun _ _ => True) sha256hex runId token s0 [WLedger l'] w l l' Hi Hh
    ltac:(apply carries_write; [done|done|by intros x ?%elem_of_nil])) as H1.
  unfold ensures, writes in *. cbn [performAll] in *.
  destruct (perform sha256hex runId token w.1 (WLedger l')) as [s1|e1] eqn:E1; cbn [andThen] in *.
  - destruct (perform sha256hex runId token s1 (WEvent t ev)) as [s2|e2]; [done|]. apply H1.
  - destruct Hh as (Hv & Ht & Hu). split; [by etrans|]. split; [by eapply tracks_synced|]. etrans; [exact Hu|by apply stopUnder_same].
Qed.

(** The item is blocked in the ledger, and no stop refuses it. *)
Definition Open (k : string) (l : LoopLedger) : Prop :=
  state_of (items l) k = Some Blocked ∧ compatibilityStopRefusesItem (stop l) k = false.

(** It is in the ledger in hand, and in the stored one. *)
Definition Ready (k : string) (w : World) (l : LoopLedger) : Prop := Holding w l ∧ Open k l ∧ Open k (run_ledger w.1).

Lemma open_states k m l : SameStates m l → Open k m → Open k l.
Proof. intros [H1 H2] [Hb Hr]. split; [by rewrite H2|by rewrite H1]. Qed.

Lemma open_synced k l m : Synced l m → Open k l → Open k m.
Proof. intros Hs. apply open_states. split; [by rewrite (sy_stop Hs)|]. intros j. by rewrite (sy_state Hs). Qed.

Lemma ready_upgraded k w l : Inv w → Ready k w l → Ready k w (upgraded w).
Proof. intros Hi (_ & _ & Ho). split; [by apply (upgraded_held sha256hex)|]. split; [|done]. eapply open_states; [apply upgraded_states|done]. Qed.

Lemma ready_carries {Ret} {Q : World → Ret → Prop} k ws w l l' :
  Inv w → Ready k w l → Carries sha256hex l ws l' → Open k l' → (∀ x, WLedger x ∈ ws → Open k x) →
  ensures Inv Q (writes sha256hex runId token ws) w (fun w' _ => Ready k w' l').
Proof.
  intros Hi (Hh & _ & Ho) Hc Ho' Hx. eapply ensures_weaken.
  - apply (writes_stored sha256hex (Open k)); [intros ? ?; apply open_synced|done|done|]. by apply (holding_carries sha256hex runId token s0 ws w l l').
  - intros w' [] [H1 H2]. done.
Qed.

Lemma ready_held k w l : Ready k w l → Holding w l.
Proof. by intros [? _]. Qed.

(** The guards let the item through, or say what they found. *)
Lemma recoverable_ready x c k w :
  Inv w → ok (recoverableBlock sha256hex isoAfter showNum stringify signals JSON_parse runId token x c k) w
    (fun w' r => w' = w ∧ Ready k w r.1.1.1).
Proof.
  intros Hi. unfold recoverableBlock. eapply ensures_seq; [by apply readUpgraded_ok|]. intros w1 l Hi1 [-> ->].
  pose proof (upgraded_held sha256hex s0 w Hi) as Hh. destruct (_ && _) eqn:Est; [by apply quit_ok|]. destruct (negb _); [by apply quit_ok|].
  destruct (oget _ k) as [e|] eqn:Ee; [|by apply quit_ok]. destruct (truthy _) as [theme|]; [|by apply quit_ok].
  destruct (persistedRecoveryEvidence _ _ _ _ e) as [p|]; [|by apply quit_ok]. destruct (bool_decide (state e ≠ Blocked)) eqn:Hb; [by apply quit_ok|]. apply bool_decide_eq_false in Hb. cbv zeta.
  destruct (_ || _).
  - eapply ensures_seq; [by apply preflightStop_ok|]. intros w2 l' Hi2 Hl. by apply quit_ok.
  - apply ensures_next; [done|]. split; [done|]. cbn [fst].
    assert (Open k (upgraded w)) as Ho.
    { split; [unfold state_of; rewrite Ee; simpl; f_equal; by apply dec_stable|].
      destruct (stop (upgraded w)) as [st|]; [|done]. by rewrite bool_decide_true in Est by by eexists. }
    split; [done|]. split; [done|]. eapply open_synced; [|exact Ho]. etrans; [apply upgrade_synced|apply read_synced].
Qed.

Lemma deferred_ok {A} x k l e w (N : World → A → Prop) : Inv w → Holding w l → ok (deferWith sha256hex runId token x k l e) w N.
Proof.
  intros Hi Hh. unfold deferWith. eapply ensures_seq; [by apply logged_ok|]. intros w1 [] Hi1 Hh1. by apply quit_ok.
Qed.

Lemma observe_ok x c k l w :
  Inv w → Ready k w l → ok (observePhase sha256hex toNumber runId token x c k l) w (fun w' r => Ready k w' r.1.2).
Proof.
  intros Hi Hr. unfold observePhase. cbv zeta.
  eapply (ensures_seq _ _ _ _ _ (fun w' _ => w' = w)).
  { apply (ensures_catching _ _ _ _ _ _ (fun w' => w' = w)).
    - by apply ensures_lift.
    - unfold lift. by destruct (observeExternalIdentity _ _ _ _).
    - intros w' e Hi' ->. apply deferred_ok; [done|apply Hr]. }
  intros w1 i Hi1 ->. eapply ensures_seq; [by apply readUpgraded_ok|]. intros w1 cur Hi2 [-> ->].
  pose proof (upgraded_held sha256hex s0 w Hi) as Hh. destruct (oget _ k) as [e|] eqn:Ee; [|by apply quit_ok].
  destruct (bool_decide (state e ≠ Blocked)) eqn:Hb; [by apply quit_ok|]. apply bool_decide_eq_false, dec_stable in Hb.
  pose proof (identity_evolves (upgraded w) k e i Ee Hb) as Hev. pose proof (identity_synced (upgraded w) k e i Ee) as Hsy.
  pose proof (ready_upgraded _ _ _ Hi Hr) as Hr1.
  assert (Open k (with_items (upgraded w) (oset k (with_identity e i) (items (upgraded w))))) as Ho
    by (eapply open_synced; [symmetry; exact Hsy|apply Hr1]).
  eapply (ensures_seq _ _ _ _ _ (fun w' _ => Ready k w' (with_items (upgraded w) (oset k (with_identity e i) (items (upgraded w)))))).
  { apply (ensures_catching _ _ _ _ _ _ (fun w' => Holding w' (with_items (upgraded w) (oset k (with_identity e i) (items (upgraded w)))))).
    - apply (ready_carries k _ w (upgraded w)); [done|done| |done|].
      + apply carries_write; [done|done|by intros y ?%list_elem_of_singleton].
      + intros y [Hy|Hy]%elem_of_cons; [by injection Hy as ->|by apply list_elem_of_singleton in Hy].
    - by apply (record_kept w (upgraded w)).
    - intros w' err Hi' Hh'. by apply deferred_ok. }
  intros w2 [] Hi3 Hh3. by apply ensures_next.
Qed.

(** *** Forward states, closed issues and superseded blocks *)

Lemma supersede_ok {Ret} {Q : World → Ret → Prop} x k reason select at_ w :
  Inv w → ensures Inv Q (supersede sha256hex runId token x k reason select at_) w
    (fun w' l => (Holding w' l ∧ SameStates (run_ledger w.1) (run_ledger w'.1)) ∧ SameStates (run_ledger w.1) l).
Proof.
  intros Hi. unfold supersede. eapply ensures_seq; [apply (ensures_store _ _ _ (fun w' s => w' = w ∧ s = w.1)); done|]. intros w1 s Hi1 [-> ->].
  pose proof (supersede_carries sha256hex w.1 k reason select (xd_at x at_) (xd_at x AtLog)) as Hc.
  destruct (supersede_rows sha256hex w.1 k reason select (xd_at x at_) (xd_at x AtLog)) as (_ & Hit & Hst & Hw). cbv zeta in *.
  destruct (supersedeStartedRecoveryAttempts _ _ _ _ _ _ _) as [ws l]. cbn [fst snd] in *.
  assert (SameStates (run_ledger w.1) l) as Hl.
  { destruct (upgraded_states sha256hex w.1) as [H1 H2]. split; [congruence|]. intros j. by rewrite Hit. }
  eapply ensures_seq.
  { apply (writes_stored sha256hex (SameStates (run_ledger w.1))); [apply sameStates_synced|done|intros y Hy; by rewrite (Hw y Hy)|].
    apply (holding_carries sha256hex runId token s0 _ w (upgraded w) l); [done|by apply (upgraded_held sha256hex)|exact Hc]. }
  intros w2 [] Hi2 Hh. by apply ensures_next.
Qed.

Lemma superseded_ok x k reason select ev w (N : World → unit → Prop) :
  Inv w → ok (run l := supersede sha256hex runId token x k reason select AtSupersede; logged sha256hex runId token x (ev l);; quit l false) w N.
Proof.
  intros Hi. eapply ensures_seq; [by apply supersede_ok|]. intros w1 l Hi1 [[Hl _] _].
  eapply ensures_seq; [by apply logged_ok|]. intros w2 [] Hi2 Hh2. by apply quit_ok.
Qed.

Lemma forward_ok x k i w :
  Inv w → ok (forwardPhase sha256hex mint toNumber Date_parse runId token x k i) w (fun w' _ => w' = w).
Proof.
  intros Hi. unfold forwardPhase. cbv zeta. destruct (_ || _); [|by apply ensures_next].
  eapply ensures_seq; [apply (ensures_store _ _ _ (fun w' s => w' = w ∧ s = w.1)); done|]. intros w1 s Hi1 [-> ->].
  eapply ensures_seq; [apply (ensures_lift _ _ _ _ (fun w' p => w' = w ∧ ∀ l, WLedger l ∈ p.1 → LedgerEvolves (run_ledger w.1) l)); [done|]|].
  { intros [ws l] E. split; [done|]. apply pass_evolves in E as [He Hw]. intros l' Hl'. by rewrite (Hw l' Hl'). }
  intros w1 [ws l] Hi2 [-> Hw]. eapply ensures_seq; [by apply writes_inv|]. intros w2 [] Hi3 _.
  apply (superseded_ok x k _ _ (fun l => EvRecoverySuperseded k (state_of (items l) k) (pr_number i) (truthy (Some (head_sha i))))). done.
Qed.

Lemma closed_ok x c k l i w :
  Inv w → Holding w l → ok (closedPhase sha256hex mint toNumber Date_parse runId token x c k l i) w (fun w' _ => w' = w).
Proof.
  intros Hi Hh. unfold closedPhase. destruct (issue_open i); [by apply ensures_next|].
  assert (∀ N : World → unit → Prop, ok (logged sha256hex runId token x (EvPreflightDeferred k None
    "issue state unobservable — recovery deferred this cycle instead of abandoning");; quit l false) w N) as Hd.
  { intros N. eapply ensures_seq; [by apply logged_ok|]. intros w2 [] Hi2 Hh2. by apply quit_ok. }
  destruct (ob_getIssueStateAndLabels _ _) as [[[[] labels]|]|e]; [by apply ensures_next| |by apply Hd..].
  eapply ensures_seq; [apply (ensures_store _ _ _ (fun w' s => w' = w ∧ s = w.1)); done|]. intros w1 s Hi1 [-> ->].
  eapply ensures_seq; [apply (ensures_lift _ _ _ _ (fun w' p => w' = w ∧ ∀ l, WLedger l ∈ p.1 → LedgerEvolves (run_ledger w.1) l)); [done|]|].
  { intros [ws l'] E. split; [done|]. apply transition_evolves in E as [He Hw]. intros l1 Hl1. by rewrite (Hw l1 Hl1). }
  intros w1 [ws l'] Hi2 [-> Hw]. eapply ensures_seq; [by apply writes_inv|]. intros w2 [] Hi3 _.
  apply (superseded_ok x k _ _ (fun _ => EvRecoverySuperseded k (Some Abandoned) (pr_number i) (truthy (Some (head_sha i))))). done.
Qed.

Lemma readmitPhase_ok x c k i l e w :
  Inv w → Ready k w l →
  ok (readmitPhase sha256hex mint showNum Date_parse isoOfMs stringify signals JSON_parse fingerprintEvidence runId token x c k i l e) w
    (fun w' r => Ready k w' r.1).
Proof.
  intros Hi Hr. unfold readmitPhase. eapply ensures_seq; [by apply readmit_ok|]. intros w1 [r|] Hi1; [|intros ->; by apply ensures_next].
  intros [Hh Hb]. destruct (rm_continueRecovery r) eqn:Ec; [|by apply quit_ok]. apply ensures_next; [done|]. cbn [fst].
  destruct (rm_readmitted r); [by destruct Hb as [_ ?]|]. destruct Hb as (Hit & Hst & Hs). destruct (ready_upgraded _ _ _ Hi Hr) as (_ & Hu & Ho).
  split; [done|]. split; [|by eapply open_states]. eapply open_states; [|exact Hu]. split; [done|]. intros j. by rewrite Hit.
Qed.

(** *** Claims *)

Lemma logged_ready {Ret} {Q : World → Ret → Prop} x e k w l :
  Inv w → Ready k w l → ensures Inv Q (logged sha256hex runId token x e) w (fun w' _ => Ready k w' l).
Proof.
  intros Hi Hr. apply (ready_carries k _ w l); [done|done| |apply Hr|by intros y ?%list_elem_of_singleton].
  apply carries_events. by intros y ?%list_elem_of_singleton.
Qed.

Lemma stale_ok x k f l w :
  Inv w → Ready k w l → ok (stalePhase sha256hex runId token x k f l) w (fun w' l' => Ready k w' l').
Proof.
  intros Hi Hr. unfold stalePhase. destruct (filter _ _) as [|a as_]; [by apply ensures_next|].
  eapply ensures_seq; [apply (ensures_forEach _ _ _ (fun w' _ => Ready k w' l)); [|done|done]|].
  { intros w1 [] b _ Hi1 Hr1. by apply logged_ready. }
  intros w1 [] Hi1 (_ & _ & Ho). eapply ensures_weaken; [by apply supersede_ok|]. intros w2 l2 [[Hh Hs] Hs2].
  split; [done|]. split; by eapply open_states.
Qed.

(** The claim is recorded for the item, or under the id a claim of the item has. *)
Definition Own (k : string) (a : LoopRecoveryAttempt) : Prop :=
  att_item_id a = k ∨ ∃ candidate fingerprint act, attempt_id a = Some (recoveryAttemptId sha256hex k candidate fingerprint act).

(** What a claim that was not refused leaves. *)
Lemma start_ready c l i t t' eff :
  startRecoveryAttempt sha256hex mint isoAfter c l i t t' = Ok eff →
  Open (s_itemId i) (upgradeLedgerForRecovery sha256hex l) ∧ Open (s_itemId i) (eff_ledger eff) ∧
  eff_value eff ∈ attemptsOf (eff_ledger eff) ∧ Own (s_itemId i) (eff_value eff).
Proof.
  intros (x & (_ & Hl & Hi & Hb & _ & _ & _ & _ & _ & Hst)%claimGuards_Ok & [(n & a & Hf & _ & ->)|(l2 & row & _ & Hr & ->)])%start_Ok;
    cbn [eff_ledger eff_value]; rewrite <- Hl.
  all: assert (Open (s_itemId i) (cc_ledger x)) as Ho by (split; [unfold state_of; by rewrite Hi, <- Hb|done]).
  - split; [done|]. split; [done|]. apply list_find_Some in Hf as (Hf & Hid & _). split; [by eapply list_elem_of_lookup_2|].
    right. do 3 eexists. exact Hid.
  - apply recordClaim_spec in Hr as (Ha & Hs & _ & _ & Hit' & _ & _ & Hit & _). split; [done|]. split; [|split; [|by left]].
    + split; cbn [items stop admitRecoveryLifecycle bindLifecycleRecord]; [|by rewrite Hs].
      unfold state_of. rewrite Hit. destruct (_ && _); [by rewrite oget_oset_eq, <- Hb|by rewrite Hi, <- Hb].
    + change (row ∈ attemptsOf l2). rewrite Ha. apply elem_of_app. right. by left.
Qed.

Lemma startClaim_ok {Ret} {Q : World → Ret → Prop} x f i t t' w :
  Inv w → ensures Inv Q (startClaim sha256hex mint isoAfter runId token x f i t t') w
    (fun w' r => Ready (s_itemId i) w' r.1 ∧ r.2 ∈ attemptsOf r.1 ∧ Own (s_itemId i) r.2).
Proof.
  intros Hi. unfold startClaim. eapply ensures_seq; [apply (ensures_store _ _ _ (fun w' s => w' = w ∧ s = w.1)); done|]. intros w1 s Hi1 [-> ->].
  eapply ensures_seq; [apply (ensures_lift _ _ _ _ (fun w' eff => w' = w ∧
    startRecoveryAttempt sha256hex mint isoAfter (fr_contract f) (readLedger sha256hex w.1) i (xd_at x t) (xd_at x t') = Ok eff)); done|].
  intros w1 eff Hi2 [-> E]. destruct (start_ready _ _ _ _ _ _ E) as (Hu & Ho & Hin & Hown).
  eapply ensures_seq.
  { apply (writes_stored sha256hex (Open (s_itemId i))); [intros ? ?; apply open_synced| | |].
    - eapply open_synced; [|exact Hu]. etrans; [apply upgrade_synced|apply read_synced].
    - intros y Hy. by rewrite (effect_written _ _ _ Hy).
    - apply (effect_ok x eff w (readLedger sha256hex w.1)); [done|by apply (read_held sha256hex)| |by eapply start_lands].
      eapply (step_keeps sha256hex (fun y => y) mint isoAfter showNum), step_start, E. }
  intros w2 [] Hi3 [Hh Hs]. by apply ensures_next.
Qed.

Lemma skip_ok x k f epoch candidate l r w :
  Inv w → Holding w l → ok (skipStep sha256hex mint isoAfter runId token x k f epoch candidate l r) w (fun w' l' => Holding w' l').
Proof.
  intros Hi Hh. unfold skipStep. eapply ensures_seq; [by apply startClaim_ok|]. intros w1 [l' a] Hi1 [[Hh1 _] _]. by apply ensures_next.
Qed.

Lemma exhaust_ok {A} x k f l policy w (N : World → A → Prop) :
  Inv w → Holding w l → ok (exhaustedPhase sha256hex isoAfter showNum stringify signals runId token x k f l policy) w N.
Proof.
  intros Hi Hh. unfold exhaustedPhase. cbv zeta. destruct (_ && _).
  { eapply ensures_seq; [by apply logged_quietly|]. intros w1 [] Hi1 Hh1. by apply quit_ok. }
  destruct (_ && _).
  { eapply ensures_seq; [by apply preflightStop_ok|]. intros w1 l' Hi1 Hh1. by apply quit_ok. }
  eapply ensures_seq; [apply (ensures_store _ _ _ (fun w' s => w' = w ∧ s = w.1)); done|]. intros w1 s Hi1 [-> ->].
  eapply ensures_seq.
  { apply (effect_ok x _ w (readLedger sha256hex w.1)); [done|by apply (read_held sha256hex)|apply cooling_keeps|done]. }
  intros w2 [] Hi2 Hh2. by apply quit_ok.
Qed.

(** An open claim in the ledger in hand. *)
Definition Claimed (k : string) (a : LoopRecoveryAttempt) (w : World) (l : LoopLedger) : Prop :=
  Ready k w l ∧ a ∈ attemptsOf l ∧ outcome a = OutStarted ∧ Own k a.

Lemma claim_ok x k force f l w :
  Inv w → Ready k w l →
  ok (claimPhase sha256hex mint isoAfter showNum Date_parse stringify signals repoName baseBranch runId token x k force f l) w
    (fun w' r => Claimed k r.1.2 w' r.1.1).
Proof.
  intros Hi Hr. unfold claimPhase. cbv zeta. destruct (last _) as [a|] eqn:El.
  { apply ensures_next; [done|]. apply last_Some_elem_of, list_elem_of_filter in El as [Ho Ha]. unfold matching in Ha.
    apply list_elem_of_filter in Ha as [Hm Ha]. do 3 (split; [done|]). left. unfold matchesEpisode in Hm.
    apply andb_true_iff in Hm as [[Hm _]%andb_true_iff _]. by apply bool_decide_eq_true in Hm. }
  eapply ensures_seq; [apply (ensures_lift _ _ _ _ (fun w' _ => w' = w)); done|]. intros w1 policy Hi1 ->. destruct (_ && _).
  { eapply ensures_seq; [apply logged_quietly; [done|apply Hr]|]. intros w1 [] Hi2 Hh2. by apply quit_ok. }
  assert (∀ epoch candidate skipped, ok (forEach (skipStep sha256hex mint isoAfter runId token x k f epoch candidate) skipped l) w
            (fun w' l' => Holding w' l')) as Hskip.
  { intros epoch candidate skipped. apply (ensures_forEach _ _ _ (fun w' l' => Holding w' l')); [|done|apply Hr].
    intros w2 l2 r _ Hi2 Hh2. by apply skip_ok. }
  destruct (chooseStrategy _ _ _ _ _ _ _ _ _) as [r cursor skipped|skipped].
  - eapply ensures_seq; [by apply Hskip|]. intros w2 l2 Hi2 Hh2. eapply ensures_seq; [by apply startClaim_ok|].
    intros w3 [l3 a] Hi3 (Hr3 & Ha & Hown). cbn [fst snd] in *. case_bool_decide as Ho; [apply quit_ok; [done|apply Hr3]|].
    apply ensures_next; [done|]. by do 3 (split; [done|]).
  - eapply ensures_seq; [by apply Hskip|]. intros w2 l2 Hi2 Hh2. by apply exhaust_ok.
Qed.

(** *** Under the claim *)

Lemma claimed_held k a w l : Claimed k a w l → Holding w l.
Proof. by intros [[? _] _]. Qed.

Lemma logged_claimed {Ret} {Q : World → Ret → Prop} x e k a w l :
  Inv w → Claimed k a w l → ensures Inv Q (logged sha256hex runId token x e) w (fun w' _ => Claimed k a w' l).
Proof. intros Hi [Hr Ha]. eapply ensures_weaken; [by apply logged_ready|]. by intros w' [] ?. Qed.

Lemma binding_ok x k f l a w :
  Inv w → Claimed k a w l → ok (bindingGate sha256hex runId token x k f l a) w (fun w' _ => Claimed k a w' l).
Proof.
  intros Hi Hc. unfold bindingGate. destruct (last_verified_identity _) as [i|]; [|by apply ensures_next].
  destruct (_ && _); [|by apply ensures_next]. eapply ensures_seq; [by apply logged_claimed|]. intros w1 [] Hi1 Hc1.
  apply quit_ok; [done|by eapply claimed_held].
Qed.

Lemma complete_ok {Ret} {Q : World → Ret → Prop} x c k a b err t w :
  Inv w → ensures Inv Q (completeClaim sha256hex mint showNum runId token x c k a b err t) w (fun w' l => Holding w' l).
Proof.
  intros Hi. unfold completeClaim. eapply ensures_seq; [apply (ensures_store _ _ _ (fun w' s => w' = w ∧ s = w.1)); done|]. intros w1 s Hi1 [-> ->].
  eapply ensures_seq; [apply (ensures_lift _ _ _ _ (fun w' eff => w' = w ∧ completeRecoveryAttempt sha256hex mint showNum c (readLedger sha256hex w.1)
    (mkComplete runId k (xd_engine x) (default "undefined" (attempt_id a)) b err) (xd_at x t) = Ok eff)); done|].
  intros w1 eff Hi2 [-> E]. eapply ensures_seq.
  { apply (effect_ok x eff w (readLedger sha256hex w.1)); [done|by apply (read_held sha256hex)| |by eapply complete_lands].
    eapply (step_keeps sha256hex (fun y => y) mint isoAfter showNum), step_complete, E. }
  intros w2 [] Hi3 Hh. by apply ensures_next.
Qed.

Lemma head_ok x k f l a w :
  Inv w → Claimed k a w l → ok (headGate sha256hex mint showNum runId token x k f a) w (fun w' _ => Claimed k a w' l).
Proof.
  intros Hi Hc. unfold headGate. cbv zeta. destruct (_ && _); [|by apply ensures_next].
  eapply ensures_seq; [by apply logged_claimed|]. intros w1 [] Hi1 Hc1. eapply ensures_seq; [by apply complete_ok|].
  intros w2 l2 Hi2 Hh2. by apply quit_ok.
Qed.

Lemma backoff_ok x k a b l w :
  Inv w → Claimed k a w l → ok (backoffGate sha256hex Date_parse runId token x k a b) w (fun w' _ => Claimed k a w' l).
Proof.
  intros Hi Hc. unfold backoffGate. destruct (_ && _); [|by apply ensures_next].
  eapply ensures_seq; [by apply logged_claimed|]. intros w1 [] Hi1 Hc1. eapply ensures_seq; [by apply readUpgraded_ok|].
  intros w2 l2 Hi2 [-> ->]. apply ensures_ends; [done|]. by apply (upgraded_held sha256hex).
Qed.

Lemma execute_ok x k f l a w :
  Inv w → Holding w l → ok (executePhase sha256hex toNumber runId token x k f l a) w (fun w' _ => Holding w' l).
Proof.
  intros Hi Hh. unfold executePhase. eapply (ensures_seq _ _ _ _ _ (fun w' _ => w' = w)); [done|]. intros w0 ex Hi0 ->. destruct (observeExternalIdentity _ _ _ _) as [post|e]; [by apply ensures_next|].
  eapply ensures_seq; [by apply logged_ok|]. intros w1 [] Hi1 Hh1. eapply ensures_seq; [by apply logged_ok|]. intros w2 [] Hi2 Hh2.
  eapply ensures_seq; [by apply readUpgraded_ok|]. intros w3 l3 Hi3 [-> ->]. apply quit_ok; [done|by apply (upgraded_held sha256hex)].
Qed.

Lemma recordPost_ok {Ret} {Q : World → Ret → Prop} x k a post w :
  Inv w → ensures Inv Q (recordPost sha256hex runId token x k a post) w (fun _ _ => True).
Proof.
  intros Hi. unfold recordPost. eapply ensures_seq; [apply (ensures_store _ _ _ (fun w' s => w' = w ∧ s = w.1)); done|]. intros w1 s Hi1 [-> ->].
  cbv zeta. destruct (oget _ k) as [e|] eqn:Ee; [|by apply ensures_next]. case_bool_decide as Hb; [|by apply ensures_next].
  apply writes_inv; [done|]. intros l [Hl|Hl]%elem_of_cons; [|by apply list_elem_of_singleton in Hl]. injection Hl as ->.
  etrans; [apply (read_evolves sha256hex)|]. by apply identity_evolves.
Qed.

(** *** The whole recovery *)

#[local] Abbreviation bind := (bindRecovery sha256hex mint isoAfter showNum toNumber Date_parse isoOfMs stringify signals JSON_parse repoName baseBranch fingerprintEvidence runId token).
#[local] Abbreviation claimedRun again := (underClaim sha256hex mint showNum toNumber Date_parse runId token again).
#[local] Abbreviation execute := (executeBlockedRecovery sha256hex mint isoAfter showNum toNumber Date_parse isoOfMs stringify signals JSON_parse repoName baseBranch fingerprintEvidence runId token).

Lemma bind_ok x force c k w : Inv w → ok (bind x force c k) w (fun w' r => Claimed k r.1.2 w' r.1.1.2).
Proof.
  intros Hi. unfold bindRecovery. eapply ensures_seq; [apply (ensures_lift _ _ _ _ (fun w' _ => w' = w)); done|]. intros w1 c1 Hi1 ->.
  eapply ensures_seq; [by apply recoverable_ready|]. intros w1 [[[l0 e0] cls] persisted] Hi2 [-> Hr]. cbn [fst] in Hr.
  eapply ensures_seq; [by apply observe_ok|]. intros w2 [[i l1] e1] Hi3 Hr1. cbn [fst snd] in Hr1.
  eapply ensures_seq; [by apply forward_ok|]. intros w3 [] Hi4 ->. eapply ensures_seq; [apply closed_ok; [done|apply Hr1]|]. intros w3 [] Hi5 ->.
  eapply ensures_seq; [by apply readmitPhase_ok|]. intros w3 [l2 e] Hi6 Hr2. cbn [fst] in Hr2. cbv zeta.
  eapply ensures_seq; [by apply stale_ok|]. intros w4 l3 Hi7 Hr3. eapply ensures_seq; [by apply claim_ok|].
  intros w5 [[l4 a] b] Hi8 Hc. by apply ensures_next.
Qed.

Section Recursion.
Context (again : option RecoveryRecipe → LoopContract → World → World * result LoopError RecoveryExecutionResult)
  (lawful : ∀ force c w, Inv w → Inv (again force c w).1 ∧ ∀ r, (again force c w).2 = Ok r → Stored (again force c w).1 r).

Lemma underClaim_ok x force k f l a b w : Inv w → Claimed k a w l → ok (claimedRun again x force k f l a b) w Stored.
Proof.
  intros Hi Hc. unfold underClaim. eapply ensures_seq; [by apply binding_ok|]. intros w1 [] Hi1 Hc1.
  eapply ensures_seq; [by apply (head_ok x k f l)|]. intros w2 [] Hi2 Hc2. destruct (_ && _).
  { eapply ensures_seq; [by apply complete_ok|]. intros w3 l3 Hi3 _. destruct (lawful None (fr_contract f) w3 Hi3) as [Ha Hb].
    apply ensures_liftW; [done|]. intros r Hr. by apply Hb. }
  eapply ensures_seq; [by apply (backoff_ok x k a b l)|]. intros w3 [] Hi3 Hc3.
  eapply ensures_seq; [apply execute_ok; [done|by eapply claimed_held]|]. intros w4 [ex post] Hi4 Hh4.
  eapply ensures_seq; [by apply logged_ok|]. intros w5 [] Hi5 _. eapply ensures_seq; [by apply recordPost_ok|]. intros w6 [] Hi6 _.
  eapply ensures_seq; [by apply complete_ok|]. intros w7 l7 Hi7 Hh7. destruct (fallsThrough _ _ _); [|by apply ensures_next].
  destruct (lawful (Some RepairPipelineItem) (fr_contract f) w7 Hi7) as [Ha Hb].
  eapply ensures_seq; [apply (ensures_liftW _ _ _ _ Stored); [done|exact Hb]|]. intros w8 r Hi8 Hr. by apply ensures_next.
Qed.
End Recursion.

Lemma execute_lawful x k fuel : ∀ depth force c w, Inv w →
  Inv (execute fuel depth x k force c w).1 ∧ ∀ r, (execute fuel depth x k force c w).2 = Ok r → Stored (execute fuel depth x k force c w).1 r.
Proof.
  induction fuel as [|fuel IH]; intros depth force c w Hi; [done|]. cbn [executeBlockedRecovery]. unfold returns, recoveryBody.
  assert (ok (run '(f, l, a, b) := bind (x depth) force c k; claimedRun (execute fuel (S depth) x k) (x depth) force k f l a b) w Stored) as H.
  { eapply ensures_seq; [by apply bind_ok|]. intros w1 [[[f l] a] b] Hi1 Hc. cbn [fst snd] in Hc. apply underClaim_ok; [apply IH|done|done]. }
  unfold ensures in H. destruct (seqC _ _ w) as [w' [r|r|e]]; cbn [fst snd]; [..|by split].
  all: destruct H as [H1 H2]; split; [done|]; by intros r' [= <-].
Qed.

(** *** Blocking and recovering in one step *)

Lemma stored_held w : Inv w → Holding w (run_ledger w.1).
Proof. intros Hi. split; [apply Hi|]. split; [exists (run_ledger w.1); split; [by left|done]|done]. Qed.

Lemma transition_writes d c s i now proofNow time tl ws l :
  transitionItem sha256hex mint toNumber Date_parse d c s runId i now proofNow time tl = Ok (ws, l) →
  stop l = stop (run_ledger s) ∧ ∃ ev, ws = [WLedger l; WEvent tl ev].
Proof.
  intros H. split.
  { destruct (transition_Ok _ _ _ _ _ _ _ _ _ _ _ _ _ _ _ H) as (_ & _ & _ & Hst & _). rewrite Hst. apply (sy_stop (read_synced sha256hex s)). }
  revert H. unfold transitionItem. cbv zeta. destruct (transitionStopped _ _); [done|]. destruct (oget _ _) as [e|]; [|done]. case_decide; [done|].
  case_decide; [done|]. destruct (proveTransition _ _ _ _ _ _ _) as [observed|]; cbn [rbind]; [|done]. intros [= <- <-]. by eexists.
Qed.

Lemma block_written c l i t eff : blockItem sha256hex fingerprintEvidence mint c l i t = Ok eff → eff_written eff = true.
Proof.
  unfold blockItem. destruct (asDurableBlockerClass _); [|done]. destruct (upgradeContractForRecovery _); cbn [rbind]; [|done].
  destruct (requireLiveLifecycle _ _); cbn [rbind]; [|done]. destruct (if b_allowAlreadyStopped i then _ else _); cbn [rbind]; [|done].
  destruct (oget _ _) as [e|]; [|done]. case_decide; [done|]. destruct (entryFor _ _); cbn [rbind]; [|done]. destruct (blockBoundary _ _).
  by intros [= <-].
Qed.

Lemma finished_ok b c k i w :
  Inv w → ok (finishedPhase sha256hex mint toNumber Date_parse runId token b c k i) w (fun w' _ => w' = w).
Proof.
  intros Hi. unfold finishedPhase. destruct (_ || _).
  - eapply ensures_seq; [apply (ensures_store _ _ _ (fun w' s => w' = w ∧ s = w.1)); done|]. intros w1 s Hi1 [-> ->].
    eapply ensures_seq; [apply (ensures_lift _ _ _ _ (fun w' p => w' = w ∧ ∀ l, WLedger l ∈ p.1 → LedgerEvolves (run_ledger w.1) l)); [done|]|].
    { intros [ws l] E. split; [done|]. apply pass_evolves in E as [He Hw]. intros l' Hl'. by rewrite (Hw l' Hl'). }
    intros w1 [ws l] Hi2 [-> Hw]. eapply ensures_seq; [by apply writes_inv|]. intros w2 [] Hi3 _.
    eapply ensures_seq; [apply (ensures_store _ _ _ (fun w' s => w' = w2 ∧ s = w2.1)); done|]. intros w3 s Hi4 [-> ->]. cbv zeta.
    eapply ensures_seq; [apply logged_ok; [done|by apply (read_held sha256hex)]|]. intros w3 [] Hi5 Hh. by apply quit_ok.
  - destruct (issue_open i); [by apply ensures_next|]. destruct (ob_getIssueStateAndLabels _ _) as [[[[] labels]|]|e]; [by apply ensures_next| |by apply ensures_next..].
    eapply ensures_seq; [apply (ensures_store _ _ _ (fun w' s => w' = w ∧ s = w.1)); done|]. intros w1 s Hi1 [-> ->].
    eapply ensures_seq; [apply (ensures_lift _ _ _ _ (fun w' p => w' = w ∧ LedgerEvolves (run_ledger w.1) p.2 ∧ stop p.2 = stop (run_ledger w.1) ∧ ∃ ev, p.1 = [WLedger p.2; WEvent (xd_at b AtLog) ev])); [done|]|].
    { intros [ws l'] E. split; [done|]. split; [by apply transition_evolves in E as [He _]|by eapply transition_writes]. }
    intros w1 [ws l'] Hi2 (-> & He & Hst & ev & Hws). cbn [fst snd] in *. subst ws. eapply ensures_seq.
    { apply (writes_ok sha256hex runId token s0 _ w (run_ledger w.1) l'); [done|by apply stored_held| |done|by apply stopUnder_same|apply lands_write; by intros y ?%list_elem_of_singleton].
      intros y [Hy|Hy]%elem_of_cons; [by injection Hy as ->|by apply list_elem_of_singleton in Hy]. }
    intros w2 [] Hi3 Hh. eapply ensures_seq; [by apply logged_ok|]. intros w3 [] Hi4 Hh4. by apply quit_ok.
Qed.

Lemma blockAndExecute_ok recover b c i w :
  (∀ w1, Inv w1 → Inv (recover w1).1 ∧ ∀ r, (recover w1).2 = Ok r → Stored (recover w1).1 r) →
  Inv w → ok (blockAndExecuteRecovery sha256hex mint toNumber Date_parse stringify fingerprintEvidence runId token recover b c i) w Stored.
Proof.
  intros Hrec Hi. unfold blockAndExecuteRecovery. cbv zeta.
  eapply ensures_seq; [apply (ensures_store _ _ _ (fun w' s => w' = w ∧ s = w.1)); done|]. intros w1 s Hi1 [-> ->].
  destruct (bool_decide (state_of _ _ = _)); [apply ensures_liftW; by apply Hrec|]. destruct (stateIs _ _ _); [apply quit_ok; [done|by apply (read_held sha256hex)]|].
  set (identity := match stop _ with Some _ => _ | None => _ end).
  eapply (ensures_seq _ _ _ _ _ (fun w' _ => w' = w)).
  { destruct identity as [x|]; cbn [from_option]; [by apply finished_ok|by apply ensures_next]. }
  intros w1 [] Hi2 ->. eapply ensures_seq; [apply (ensures_store _ _ _ (fun w' s => w' = w ∧ s = w.1)); done|]. intros w1 s Hi3 [-> ->].
  eapply ensures_seq; [apply (ensures_lift _ _ _ _ (fun w' eff => w' = w ∧ Keeps (readLedger sha256hex w.1) (eff_ledger eff) ∧ eff_written eff = true)); [done|]|].
  { intros eff E. split; [done|]. split; [|by eapply block_written].
    eapply (step_keeps sha256hex fingerprintEvidence mint isoAfter showNum), step_block, E. }
  intros w1 eff Hi4 [-> [Hk Hw]]. eapply ensures_seq.
  { apply (effect_ok b eff w (readLedger sha256hex w.1)); [done|by apply (read_held sha256hex)|done|congruence]. }
  intros w2 [] Hi5 Hh. destruct (bool_decide (is_Some _)); [by apply quit_ok|]. apply ensures_liftW; by apply Hrec.
Qed.
End Phases.

(** ** The theorems *)

Section Theorems.
Context (sha256hex : string → string) {dates : IsoDates} (mint : string) (isoAfter : string → jsnum → string) (showNum : jsnum → string)
  (toNumber : string → jsnum) (Date_parse : string → option Z) (isoOfMs : Z → string) (stringify : jval → string) (signals : list string)
  (JSON_parse : string → option jval) (repoName baseBranch : string) (fingerprintEvidence : string → string).
Context (runId token : string).

#[local] Abbreviation execute := (executeBlockedRecovery sha256hex mint isoAfter showNum toNumber Date_parse isoOfMs stringify signals JSON_parse repoName baseBranch fingerprintEvidence runId token).
#[local] Abbreviation body := (recoveryBody sha256hex mint isoAfter showNum toNumber Date_parse isoOfMs stringify signals JSON_parse repoName baseBranch fingerprintEvidence runId token).
#[local] Abbreviation bind := (bindRecovery sha256hex mint isoAfter showNum toNumber Date_parse isoOfMs stringify signals JSON_parse repoName baseBranch fingerprintEvidence runId token).
#[local] Abbreviation claimedRun := (underClaim sha256hex mint showNum toNumber Date_parse runId token).

#[local] Abbreviation blockAndRecover := (blockAndExecuteRecovery sha256hex mint toNumber Date_parse stringify fingerprintEvidence runId token).

(** The dependencies of a cycle with this recovery. *)
Definition withRecovery (d : CycleDeps) (fuel : nat) (x : string → nat → ExecDeps) : CycleDeps :=
  mkCycleDeps (cd_observe d) (cd_external d) (cd_engine d) (cd_liveAtReopen d) (cd_liveAtRecovery d) (cd_liveAtDispatch d) (cd_advanceLock d)
    (cd_facts d) (cd_isoOfMs d) (cd_clockMs d) (fun c k => execute fuel 0 (x k) k None c) (cd_dispatch d) (cd_admittedAt d) (cd_nowIso d) (cd_recorded d)
    (cd_time d) (cd_skipTime d) (cd_logTime d) (cd_idleTime d) (cd_idleMs d) (cd_refreshedAt d) (cd_notBefore d).

#[export] Instance recovery_discharged d fuel x : RecoveryLaw sha256hex (withRecovery d fuel x).
Proof.
  intros c k s0 w w' out E Hi. cbn [cd_recover withRecovery] in E.
  pose proof (execute_lawful sha256hex mint isoAfter showNum toNumber Date_parse isoOfMs stringify signals JSON_parse repoName baseBranch
    fingerprintEvidence runId token) as H. split.
  - destruct (H w.1 (x k) k fuel 0 None c w ltac:(by unfold Inv)) as [H1 _]. by rewrite E in H1.
  - destruct (H s0 (x k) k fuel 0 None c w Hi) as [_ H2]. by rewrite E in H2.
Qed.

(** C11. However it ends, the execution of a recovery changes the run only as the
    engine's operations do: what a read gives afterwards evolved from what it
    gave before, with every claim it had.  The ledger it returns evolved from it
    too and agrees on the stop, the Cooling, the lifecycle, the states and the
    claims with the stored ledger, or with one this call wrote and the store's
    check rejected (the next read gives the last valid one then), and has any
    stop of the stored ledger, or a deadlock in its place.  The same holds of
    blocking a failed item and recovering it at once. *)
Theorem recovery_sound fuel x k force c b i w :
  let lawful (out : World * result LoopError RecoveryExecutionResult) :=
    RunEvolves w.1 out.1.1 ∧ ∀ r, out.2 = Ok r → LedgerEvolves (run_ledger w.1) (rr_ledger r) ∧ Tracks sha256hex w.1 out.1.1 (rr_ledger r) ∧
                                                StopUnder (run_ledger out.1.1) (rr_ledger r) in
  lawful (execute fuel 0 x k force c w) ∧ lawful (returns (blockAndRecover (execute fuel 0 x (br_itemId i) None c) b c i) w).
Proof.
  assert (∀ k force w1, RunEvolves w.1 w1.1 → _) as H by exact (fun k force w1 => execute_lawful sha256hex mint isoAfter showNum toNumber Date_parse isoOfMs
    stringify signals JSON_parse repoName baseBranch fingerprintEvidence runId token w.1 x k fuel 0 force c w1).
  cbv zeta. split; [by apply H|].
  pose proof (blockAndExecute_ok sha256hex mint isoAfter showNum toNumber Date_parse stringify fingerprintEvidence runId token w.1 _ b c i w
    (H (br_itemId i) None) ltac:(by unfold Inv)) as Hb.
  unfold ensures in Hb. unfold returns. destruct (blockAndRecover _ _ _ _ w) as [w' [r|r|e]]; cbn [fst snd]; [..|by split].
  all: destruct Hb as [H1 H2]; split; [done|]; by intros r' [= <-].
Qed.

(** *** The executor *)

Definition withExecutor (x : ExecDeps) (f : ExecuteRecoveryInput → World → result string RecoveryExecution) : ExecDeps :=
  mkExecDeps (xd_engine x) (xd_before x) (xd_reconcile x) (xd_fresh x) (xd_transition x) (xd_after x) (xd_reread x) (xd_linked x) (Some f)
    (xd_noEngineRepair x) (xd_sleeps x) (xd_at x) (xd_transitionMs x) (xd_nowMs x).

(** The run the executor is called on: its stored ledger has the item blocked and
    no stop that refuses it; and the claim the executor is given is open in that
    ledger, or in one that was written since [s0] and rejected, with its class
    and id, and recorded for this item (or under the id this item's claim has). *)
Definition ExecutorGuard (s0 : RunStore) (k : string) (i : ExecuteRecoveryInput) (w : World) : Prop :=
  xi_itemId i = k ∧ state_of (items (run_ledger w.1)) k = Some Blocked ∧ compatibilityStopRefusesItem (stop (run_ledger w.1)) k = false ∧
  ∃ g a, Generation s0 w.1 g ∧ a ∈ attemptsOf g ∧ outcome a = OutStarted ∧ att_class a = xi_blockerClass i ∧
    (∀ x, xi_attemptId i = Some x → recordedId sha256hex a = Some x) ∧
    (att_item_id a = k ∨ ∃ candidate fingerprint act, xi_attemptId i = Some (recoveryAttemptId sha256hex k candidate fingerprint act)).

Lemma claimed_guard s0 k f l a w : Claimed sha256hex s0 k a w l → ExecutorGuard s0 k (executeInput k f l a) w.
Proof.
  intros (((_ & (g & Hg & Hs) & _) & _ & Hb & Hr) & Ha & Ho & Hown). do 3 (split; [done|]). exists g.
  apply (list_elem_of_fmap_2 (rowKey sha256hex)) in Ha. rewrite (sy_claims Hs) in Ha. apply list_elem_of_fmap in Ha as (b & Hk & Hb').
  exists b. unfold rowKey in Hk. injection Hk as _ Hit Hcl Hou Hid. cbn [xi_blockerClass xi_attemptId executeInput].
  do 2 (split; [done|]). split; [congruence|]. split; [congruence|]. split.
  - intros x Hx. rewrite <- Hid. unfold recordedId. by rewrite Hx.
  - destruct Hown as [<-|Hown]; [by left|by right].
Qed.

(** Two continuations that agree where the first part leads. *)
Lemma ensures_eq {Res A B} I R (m : Eff Res A) (k1 k2 : A → Eff Res B) w N :
  ensures I R m w N → (∀ w' a, I w' → N w' a → k1 a w' = k2 a w') → seqC m k1 w = seqC m k2 w.
Proof. unfold ensures, seqC. destruct (m w) as [w' [a|r|e]]; [|done..]. intros [Hi Hn] Hk. by apply Hk. Qed.

Lemma seqC_head {Res A B} (m1 m2 : Eff Res A) (k : A → Eff Res B) w : m1 w = m2 w → seqC m1 k w = seqC m2 k w.
Proof. unfold seqC. by intros ->. Qed.

(** C12. The executor runs only under a durable claim: two executors, given the
    run as it is at the call, that agree wherever its stored ledger has the item
    blocked and no stop refusing it, and the very claim they are given (its id
    and class, recorded for this item or under the id its claim hashes to) is
    open in that ledger or in one this recovery wrote and the store's check
    rejected, give the same recovery. *)
Theorem executor_guarded fuel x f g k force c w :
  (∀ n i w', RunEvolves w.1 w'.1 → ExecutorGuard w.1 k i w' → f n i w' = g n i w') →
  execute fuel 0 (fun n => withExecutor (x n) (f n)) k force c w = execute fuel 0 (fun n => withExecutor (x n) (g n)) k force c w.
Proof.
  intros Hfg. assert (∀ depth force c w1, RunEvolves w.1 w1.1 →
    execute fuel depth (fun n => withExecutor (x n) (f n)) k force c w1 = execute fuel depth (fun n => withExecutor (x n) (g n)) k force c w1) as H; [|by apply H].
  clear force c. induction fuel as [|fuel IH]; intros depth force c w1 Hi; [done|]. cbn [executeBlockedRecovery]. unfold returns, recoveryBody.
  change (bind (withExecutor (x depth) (g depth)) force c k) with (bind (withExecutor (x depth) (f depth)) force c k).
  erewrite ensures_eq; [reflexivity|by apply (bind_ok _ _ _ _ _ _ _ _ _ _ _ _ _ _ _ w.1)|]. intros w2 [[[fr l] a] b] Hi2 Hc. cbn [fst snd] in Hc.
  unfold underClaim. eapply ensures_eq; [by eapply binding_ok|]. intros w3 [] Hi3 Hc3. eapply ensures_eq; [by eapply head_ok|]. intros w4 [] Hi4 Hc4.
  cbn [xd_noEngineRepair withExecutor]. destruct (_ && _).
  { eapply (ensures_eq (Inv w.1) (fun _ _ => True)); [by eapply complete_ok|]. intros w5 l5 Hi5 _. unfold liftW. by rewrite IH. }
  eapply ensures_eq; [by eapply backoff_ok|]. intros w5 [] Hi5 Hc5.
  assert (executePhase sha256hex toNumber runId token (withExecutor (x depth) (f depth)) k fr l a w5 =
          executePhase sha256hex toNumber runId token (withExecutor (x depth) (g depth)) k fr l a w5) as Hw.
  { unfold executePhase, seqC, callExecutor. cbn [xd_execute withExecutor]. rewrite (Hfg depth _ w5); [done|done|by eapply claimed_guard]. }
  etrans; [exact (seqC_head _ _ _ _ Hw)|]. eapply ensures_eq; [eapply execute_ok; [done|by eapply claimed_held]|]. intros w6 [ex post] Hi6 Hh6.
  eapply (ensures_eq (Inv w.1) (fun _ _ => True)); [by eapply logged_ok|]. intros w7 [] Hi7 _.
  eapply (ensures_eq (Inv w.1) (fun _ _ => True)); [by eapply recordPost_ok|]. intros w8 [] Hi8 _.
  eapply (ensures_eq (Inv w.1) (fun _ _ => True)); [by eapply complete_ok|]. intros w9 l9 Hi9 _. destruct (fallsThrough _ _ _); [|done].
  unfold seqC, liftW. by rewrite IH.
Qed.

(** *** The postcondition *)

(** A repair proved a new head that was read back from the remote; any other
    recipe cleared the block and kept the claimed head. *)
Definition Verified (a : LoopRecoveryAttempt) (ex : RecoveryExecution) (post : LoopExternalIdentity) : Prop :=
  ex_succeeded ex = true ∧
  if decide (action a = Some "repair_pipeline_item")
  then ∃ h, ex_candidateHead ex = Some h ∧ h ≠ "" ∧ lowerString h ≠ lowerString (claimedHexHead (attemptIdentity a)) ∧
            lowerString (head_sha post) = lowerString h
  else blocked_label_present post = false ∧
       (claimedHexHead (attemptIdentity a) = "" ∨ lowerString (head_sha post) = lowerString (claimedHexHead (attemptIdentity a))).

Lemma reread_observed x k h left n i :
  rereadHead toNumber x k h left n i = i ∨
  ∃ m, n ≤ m < n + left ∧ observeExternalIdentity toNumber (xd_reread x m) k None = Ok (rereadHead toNumber x k h left n i).
Proof.
  revert n i. induction left as [|left IH]; intros n i; [by left|]. cbn [rereadHead]. destruct (sameHead _ _); [by left|].
  destruct (observeExternalIdentity _ (xd_reread x n) _ _) as [i'|e] eqn:E; [|by left]. right.
  destruct (IH (S n) i') as [Hr|(m & Hm & Hr)]; [exists n|exists m]; (split; [lia|]); [by rewrite Hr|done].
Qed.

(** C13. A recovery counts as successful exactly when the executor reported
    success and what was then observed proves it; the identity it is judged by is
    the one read after the action, or one of at most three re-reads. *)
Theorem judged_exact x k a ex post :
  let (ex', post') := judgeExecution toNumber x k a ex post in
  (ex_succeeded ex' = true ↔ Verified a ex post') ∧
  (post' = post ∨ ∃ n, n < REPAIR_HEAD_REREAD_LIMIT ∧ observeExternalIdentity toNumber (xd_reread x n) k None = Ok post').
Proof.
  unfold judgeExecution, Verified. cbv zeta. destruct (ex_succeeded ex) eqn:Es; cbn [negb]; [|split; [rewrite Es; split; [done|by intros [? _]]|by left]].
  case_decide as Ha.
  - unfold truthy. destruct (ex_candidateHead ex) as [h|] eqn:Eh.
    2: { split; [|by left]. split; [done|]. by intros [_ (h & ? & _)]. }
    case_decide as Hh; [split; [|by left]; split; [done|]; intros [_ (h' & [= <-] & ? & _)]; done|].
    unfold sameHead at 1. case_bool_decide as Hc; [split; [|by left]; split; [done|]; intros [_ (h' & [= <-] & _ & ? & _)]; done|].
    pose proof (reread_observed x k h REPAIR_HEAD_REREAD_LIMIT 0 post) as Hr. set (post' := rereadHead _ _ _ _ _ _ _) in *. clearbody post'.
    assert (post' = post ∨ ∃ n, n < REPAIR_HEAD_REREAD_LIMIT ∧ observeExternalIdentity toNumber (xd_reread x n) k None = Ok post') as Ho.
    { destruct Hr as [Hr|(m & Hm & Hr)]; [by left|]. right. exists m. split; [lia|done]. }
    unfold sameHead. case_bool_decide as Hp; (split; [|done]).
    + rewrite Es. split; [|done]. intros _. split; [done|]. by exists h.
    + split; [done|]. intros [_ (h' & [= <-] & _ & _ & ?)]. done.
  - destruct (blocked_label_present post) eqn:El; cbn [orb]; [split; [|by left]; split; [done|]; intros [_ [? _]]; congruence|].
    unfold sameHead. destruct (bool_decide (claimedHexHead _ ≠ "")) eqn:Ec; cbn [andb].
    + apply bool_decide_eq_true in Ec. destruct (bool_decide (lowerString _ = _)) eqn:Ep; cbn [negb]; (split; [|by left]).
      * apply bool_decide_eq_true in Ep. rewrite Es. split; [|done]. intros _. split; [done|]. split; [done|by right].
      * apply bool_decide_eq_false in Ep. split; [done|]. intros [_ [_ [?|?]]]; done.
    + apply bool_decide_eq_false, dec_stable in Ec. split; [|by left]. rewrite Es. split; [|done]. intros _. split; [done|]. split; [done|by left].
Qed.

(** *** Nested calls *)

Lemma seqC_ext {Res A B} (m : Eff Res A) (k1 k2 : A → Eff Res B) w : (∀ a w', k1 a w' = k2 a w') → seqC m k1 w = seqC m k2 w.
Proof. intros H. unfold seqC. destruct (m w) as [w' [a|r|e]]; [apply H|done..]. Qed.

Lemma underClaim_ext again1 again2 x force k f l a b w :
  xd_noEngineRepair x = false → force = Some RepairPipelineItem ∨ (∀ c w, again1 (Some RepairPipelineItem) c w = again2 (Some RepairPipelineItem) c w) →
  claimedRun again1 x force k f l a b w = claimedRun again2 x force k f l a b w.
Proof.
  intros Hf Hag. unfold underClaim. rewrite Hf, andb_false_r. apply seqC_ext. intros [] w1. apply seqC_ext. intros [] w2.
  apply seqC_ext. intros [] w3. apply seqC_ext. intros [ex post] w4. apply seqC_ext. intros [] w5. apply seqC_ext. intros [] w6.
  apply seqC_ext. intros l' w7. destruct (fallsThrough force a ex) eqn:Ef; [|done]. destruct Hag as [->|Hag].
  - unfold fallsThrough in Ef. apply andb_true_iff in Ef as [_ Ef]. by apply bool_decide_eq_true in Ef.
  - unfold seqC, liftW. by rewrite Hag.
Qed.

Lemma body_ext again1 again2 x force c k w :
  (∀ f l a b w, claimedRun again1 x force k f l a b w = claimedRun again2 x force k f l a b w) → returns (body again1 x force c k) w = returns (body again2 x force c k) w.
Proof. intros H. unfold returns, recoveryBody. rewrite (seqC_ext _ _ (fun '(f, l, a, b) => claimedRun again2 x force k f l a b)); [done|]. intros [[[f l] a] b] w'. apply H. Qed.

(** C33. Where repairs are not excluded by the environment, a recovery nests at
    most once: with two calls in hand the bound of the model is never reached,
    and the nested call, which the preparation of a repair makes, nests no
    further. *)
Theorem recovery_depth x k c w n :
  (∀ d, xd_noEngineRepair (x d) = false) → execute (2 + n) 0 x k None c w = execute 2 0 x k None c w.
Proof.
  intros Hf. cbn [Nat.add executeBlockedRecovery]. apply body_ext. intros f l a b w1. apply underClaim_ext; [apply Hf|]. right. intros c' w2.
  apply body_ext. intros f' l' a' b' w3. apply underClaim_ext; [apply Hf|by left].
Qed.
End Theorems.

(** ** Samples *)

#[local] Existing Instance StoreSample.dates.

Module ExecuteSample.
#[local] Existing Instance StoreSample.dates.
Import CandidateSample.
Definition diagnostic (reason kind : string) : jval :=
  JObj [("schema", JStr STAGE_DIAGNOSTIC_SCHEMA); ("reason_code", JStr reason); ("evidence_key", JStr "k1");
        ("detail", JObj [("blocker_kind", JStr kind); ("reason", JStr "tsc"); ("stage", JStr "implementing")])].
Definition document (reason kind : string) (text : string) : option jval :=
  if decide (text = "ev") then
    Some (JObj [("schema", JStr "pipeline/loop-recovery-evidence@1"); ("diagnostic", diagnostic reason kind);
                ("transport", JObj [("pipeline_run_id", JStr "r1"); ("pr_number", JNum (num 11))])])
  else None.
Definition blocked (reason : string) : LoopItemLedgerEntry :=
  mkEntry "7" Blocked [mkHistory t1 InProgress Blocked Claude (Some reason) (Some "ev") None] (Some reason) [] (Some "ev")
    (Some headA) (Some headA) None None None None None.
Definition run0 (reason : string) : RunStore :=
  mkRun DriveSample.contract (FrontierSample.ledger [("7", blocked reason)]) (Some DriveSample.record) (mkLogFile [] None) (mkLogFile [] None) [].

(** Issue 7 with pull request 11 at a head, blocked or not. *)
Definition seen (head : string) (labels : list string) : ObserveDeps :=
  mkObserve (fun _ => Ok (Some (true, labels))) (fun _ => Ok (Some 11%Z)) (Some (fun _ => Ok (LinkedPrs [11%Z] false)))
    (fun n => Ok (if decide (n = 11%Z) then Some (mkPrDetail PrStateOpen "issue-7" head None None) else None))
    (fun _ => Ok [mkCheck (Some "ci") (Some "pass")]) None None (fun _ => Ok None) (fun _ => Ok (Some false)) "now".
Definition deps (before after : ObserveDeps) (f : ExecuteRecoveryInput → result string RecoveryExecution) : ExecDeps :=
  mkExecDeps Claude before before before before after (fun _ => after) (mkLinked "" None) (Some (fun i _ => f i)) false false (fun _ => t2) (0%Z, 0%Z) 0.
Definition execute (reason kind : string) (fuel : nat) (x : nat → ExecDeps) : World * result LoopError RecoveryExecutionResult :=
  executeBlockedRecovery DriveSample.sha "lop-1" DriveSample.iso (fun _ => "n") ObserveSample.toNumber parse iso (fun _ => "json") []
    (document reason kind) "repo" "main" DriveSample.sha "run" "mine" fuel 0 x "7" None DriveSample.contract (run0 reason, []).
Definition summary (out : World * result LoopError RecoveryExecutionResult) :=
  (state_of (items (run_ledger out.1.1)) "7", (fun a => (action a, outcome a)) <$> attemptsOf (run_ledger out.1.1),
   match out.2 with Ok r => Some (rr_attempted r) | Err _ => None end).

Definition blockedLabels : list string := ["pipeline:implementing"; "blocked"].
Definition works (_ : ExecuteRecoveryInput) : result string RecoveryExecution := Ok (mkExecution true "ran" None None).
Definition narrow (after : list string) : nat → ExecDeps := fun _ => deps (seen headA blockedLabels) (seen headA after) works.

(** Recovered after the skip of what does not apply; failed while the label stays. *)
Example narrow_recoveries :
  summary (execute "implementation-ci" "build-failed" 2 (narrow ["pipeline:implementing"])) =
    (Some InProgress, [(Some "verify_head_goal", OutSkipped); (Some "rerun_ci", OutRecovered)], Some true) ∧
  summary (execute "implementation-ci" "build-failed" 2 (narrow blockedLabels)) =
    (Some Blocked, [(Some "verify_head_goal", OutSkipped); (Some "rerun_ci", OutFailed)], Some true).
Proof. by vm_compute. Qed.

(** The preparation of a repair, then the repair, in one call. *)
Definition prepares (i : ExecuteRecoveryInput) : result string RecoveryExecution :=
  if decide (xi_action i = Some "unlink_engine_scratch") then Ok (mkExecution false "Prep-complete for review-findings" None None)
  else Ok (mkExecution true "pushed" None (Some headB)).
Definition repairs (after : string) : nat → ExecDeps :=
  fun n => deps (seen headA blockedLabels) (if decide (n = 0) then seen headA blockedLabels else seen after blockedLabels) prepares.

Example findings_repaired :
  summary (execute "review-findings" "review-findings" 2 (repairs headB)) =
    (Some InProgress, [(Some "unlink_engine_scratch", OutFailed); (Some "repair_pipeline_item", OutRecovered)], Some true) ∧
  summary (execute "review-findings" "review-findings" 2 (repairs headA)) =
    (Some Blocked, [(Some "unlink_engine_scratch", OutFailed); (Some "repair_pipeline_item", OutFailed)], Some true).
Proof. by vm_compute. Qed.

(** An executor that looks at the run itself. *)
Definition checked (f : ExecuteRecoveryInput → result string RecoveryExecution) (i : ExecuteRecoveryInput) (w : World) : result string RecoveryExecution :=
  if decide (xi_itemId i = "7") then
    if decide (state_of (items (run_ledger w.1)) "7" = Some Blocked) then f i else Err "not blocked"
  else Err "another item".
End ExecuteSample.

Lemma executor_guarded_witness : let x := ExecuteSample.repairs CandidateSample.headB in
  ExecuteSample.execute "review-findings" "review-findings" 2 (fun n => withExecutor (x n) (fun i _ => ExecuteSample.prepares i)) =
  ExecuteSample.execute "review-findings" "review-findings" 2 (fun n => withExecutor (x n) (ExecuteSample.checked ExecuteSample.prepares)).
Proof.
  apply (executor_guarded _ _ _ _ _ _ _ _ _ _ _ _ _ _ _ 2 (ExecuteSample.repairs CandidateSample.headB) (fun _ i _ => ExecuteSample.prepares i)
    (fun _ => ExecuteSample.checked ExecuteSample.prepares)).
  intros n i w' _ (Hi & Hb & _). unfold ExecuteSample.checked. rewrite Hi, Hb. by rewrite !decide_True.
Defined.

Lemma recovery_depth_witness :
  ExecuteSample.execute "review-findings" "review-findings" 5 (ExecuteSample.repairs CandidateSample.headB) =
  ExecuteSample.execute "review-findings" "review-findings" 2 (ExecuteSample.repairs CandidateSample.headB).
Proof. apply (recovery_depth _ _ _ _ _ _ _ _ _ _ _ _ _ _ _ (ExecuteSample.repairs CandidateSample.headB) "7" _ _ 3). intros d. reflexivity. Defined.
