(* ===== verification/ReviewFindings.v ===== *)
(** * Review findings: identity and re-raise matching

    The part of [core/scripts/review-policy.ts] and
    [core/scripts/review-history.ts] that decides when two findings are the same:
    the stable key and the surface of a finding, the fingerprint of its payload,
    the scopes of operator overrides, the token similarity of titles, and the
    matchers that recognise a finding an earlier round settled. *)

From Stdlib Require Import QArith Qcanon Qround Ascii.
From stdpp Require Import base numbers gmap strings list.
From S2P Require Import Prelude Ownership.

(** ** Numbers of a verdict

    A reviewer's number with all its special values.  Finite values are exact;
    the code's double arithmetic agrees on line numbers up to 2^53. *)

Inductive rnum :=
| Num (q : Qc)
| PosInf
| NegInf
| NaN.

#[export] Instance rnum_eq_dec : EqDecision rnum.
Proof. solve_decision. Defined.

(** [x < y]; the comparisons with [NaN] are false. *)
Definition js_lt (x y : rnum) : bool :=
  match x, y with
  | Num a, Num b => bool_decide (a < b)%Qc
  | NegInf, (Num _ | PosInf) | Num _, PosInf => true
  | _, _ => false
  end.

(** [x >= y]. *)
Definition js_ge (x y : rnum) : bool :=
  match x, y with
  | NaN, _ | _, NaN => false
  | _, _ => negb (js_lt x y)
  end.

Definition rfinite (x : rnum) : bool := match x with Num _ => true | _ => false end.

Definition rz (z : Z) : rnum := Num (Q2Qc (inject_Z z)).

(** ** The finding

    A reviewer's fields may be missing at run time, and the code provides for
    it; absent and null fields are [None]. *)

Record ReviewFinding := mkFinding {
  f_severity : option string;
  f_title : option string;
  f_body : option string;
  f_file : option string;
  f_line_start : option rnum;
  f_line_end : option rnum;
  f_confidence : option rnum;
  f_recommendation : option string;
  f_category : option string;
  f_blocking : option bool;
  f_acknowledgment : option string
}.

#[export] Instance ReviewFinding_eq_dec : EqDecision ReviewFinding.
Proof. solve_decision. Defined.

Definition SEVERITY_ORDER : list string := ["low"; "medium"; "high"; "critical"].

Definition severityRank (sev : option string) : nat :=
  match sev with
  | Some s => match indexOf s SEVERITY_ORDER with Some i => i | None => 1 end
  | None => 1
  end.

(** ** Text normalization *)

Fixpoint dropWhile (p : ascii → bool) (l : list ascii) : list ascii :=
  match l with
  | [] => []
  | c :: l' => if p c then dropWhile p l' else l
  end.

(** [s.replace(/\s+/g, " ")]. *)
Fixpoint collapse (inSpace : bool) (l : list ascii) : list ascii :=
  match l with
  | [] => []
  | c :: l' => if js_space c then (if inSpace then collapse true l' else " "%char :: collapse true l')
               else c :: collapse false l'
  end.

(** The pieces between the characters of a class. *)
Fixpoint splitBy (p : ascii → bool) (l : list ascii) : list (list ascii) :=
  match l with
  | [] => [[]]
  | c :: l' =>
      if p c then [] :: splitBy p l'
      else match splitBy p l' with
           | piece :: rest => (c :: piece) :: rest
           | [] => [[c]]
           end
  end.

Definition isEmphasis (c : ascii) : bool := includes (nat_of_ascii c) [42; 95; 96; 126].

(** [\p{P}] below code unit 256. *)
Definition isPunctuation (c : ascii) : bool :=
  includes (nat_of_ascii c)
    [33; 34; 35; 37; 38; 39; 40; 41; 42; 44; 45; 46; 47; 58; 59; 63; 64; 91; 92; 93; 95; 123; 125;
     161; 167; 171; 182; 183; 187; 191].

Definition stripEmphasis (s : string) : list ascii := filter (fun c => isEmphasis c = false) (chars (lowerString s)).

Definition titleEdge (c : ascii) : bool := js_space c || isPunctuation c.

Definition normalizeTitle (title : option string) : string :=
  let bare := dropWhile titleEdge (stripEmphasis (default "" title)) in
  unchars (trim (collapse false (reverse (dropWhile titleEdge (reverse bare))))).

Definition normalizeFile (file : option string) : string := lowerString (default "" file).

(** The normalization of the payload's body and recommendation. *)
Definition normPayload (s : option string) : string :=
  unchars (trim (collapse false (stripEmphasis (default "" s)))).

(** ** Keys and fingerprints *)

(** [Math.floor((L - 1) / 5) * 5 + 1], and 0 for an absent or falsy line. *)
Definition lineBucket (lineStart : option rnum) : rnum :=
  match lineStart with
  | Some (Num q) =>
      if decide (q < 1)%Qc then rz 0
      else rz (Qfloor ((q - 1) / Q2Qc (inject_Z 5))%Qc * 5 + 1)
  | Some PosInf => PosInf
  | _ => rz 0
  end.

Definition positive (x : rnum) : bool := js_lt (rz 0) x.

Definition slice (n : nat) (s : string) : string := unchars (take n (chars s)).

Section Identity.
Context (sha1hex : string → string) (showNum : rnum → string).

Definition findingKey (f : ReviewFinding) : string :=
  let severity := default "medium" (f_severity f) in
  let file := normalizeFile (f_file f) in
  let bucket := lineBucket (f_line_start f) in
  let basis := if positive bucket
               then severity +:+ "|" +:+ file +:+ "|" +:+ showNum bucket
               else severity +:+ "|" +:+ file +:+ "|" +:+ normalizeTitle (f_title f) in
  slice 8 (sha1hex basis).

Definition surfaceKey (f : ReviewFinding) : option string :=
  let file := normalizeFile (f_file f) in
  if decide (file = "") then None else Some (file +:+ "|" +:+ default "" (f_category f)).

Definition showOpt (x : option rnum) : string := match x with Some n => showNum n | None => "" end.

Definition findingPayloadFingerprint (f : ReviewFinding) : string :=
  let effectiveEnd := match f_line_end f with Some e => Some e | None => f_line_start f end in
  slice 16 (sha1hex (join "␟"
    [normalizeTitle (f_title f); normPayload (f_body f); normPayload (f_recommendation f);
     showOpt (f_line_start f) +:+ "-" +:+ showOpt effectiveEnd])).

Definition codeRegionFromFinding (f : ReviewFinding) : string :=
  slice 16 (sha1hex (normalizeFile (f_file f) +:+ "|" +:+ showNum (lineBucket (f_line_start f)))).
End Identity.

(** ** Scopes of operator overrides *)

Inductive ScopeType := ScopeCategory | ScopeFile.

#[export] Instance ScopeType_eq_dec : EqDecision ScopeType.
Proof. solve_decision. Defined.

Definition scope_type_name (t : ScopeType) : string :=
  match t with ScopeCategory => "category" | ScopeFile => "file" end.

Record ScopedOverride := mkScope {
  sc_type : ScopeType;
  sc_value : string;
  sc_disposition : string;
  sc_reason : string
}.

Definition matchFindingScope (category file : option string) (s : ScopedOverride) : bool :=
  match sc_type s with
  | ScopeCategory =>
      let cat := js_trim (lowerString (default "" category)) in
      bool_decide (cat ≠ "") && bool_decide (cat = sc_value s)
  | ScopeFile =>
      let nf := normalizeFile file in
      bool_decide (nf ≠ "") && (bool_decide (nf = sc_value s) || startsWith nf (sc_value s +:+ "/"))
  end.

(** ** Title similarity *)

Definition TITLE_UNAVAILABLE : string := "(title unavailable)".

Definition isTitleUsable (title : option string) : bool :=
  match title with
  | Some t => negb (blank t) && bool_decide (t ≠ TITLE_UNAVAILABLE)
  | None => false
  end.

Definition TITLE_STOPWORDS : list string :=
  ["a"; "an"; "the"; "is"; "are"; "was"; "were"; "be"; "been"; "being"; "to"; "of"; "in"; "on"; "for";
   "and"; "or"; "but"; "not"; "no"; "now"; "this"; "that"; "these"; "those"; "it"; "its"; "as"; "at";
   "by"; "with"; "from"; "can"; "could"; "should"; "would"; "may"; "might"; "will"; "shall"; "do";
   "does"; "did"; "has"; "have"; "had"; "than"; "then"; "so"; "if"; "into"; "about"; "over"; "under";
   "after"; "before"; "without"; "within"; "since"; "up"; "down"; "out"; "off"].

Definition endsWith (t l : list ascii) : bool := bool_decide (reverse t `prefix_of` reverse l).

Definition stem (token : list ascii) : list ascii :=
  let n := length token in
  if (4 <? n) && endsWith (chars "ing") token then take (n - 3) token
  else if (4 <? n) && endsWith (chars "ed") token then take (n - 2) token
  else if (3 <? n) && endsWith (chars "es") token then take (n - 2) token
  else if (3 <? n) && endsWith (chars "s") token && negb (endsWith (chars "ss") token) then take (n - 1) token
  else token.

(** [split(/\s+/)] without its empty pieces. *)
Definition wordsOf (l : list ascii) : list (list ascii) := filter (.≠ []) (splitBy js_space l).

Definition titleTokens (title : string) : gset string :=
  list_to_set ((fun w => unchars (stem w)) <$>
    filter (fun w => unchars w ∉ TITLE_STOPWORDS) (wordsOf (chars (normalizeTitle (Some title))))).

Definition sharedTokenCount (ta tb : gset string) : nat := size (ta ∩ tb).

(** The Jaccard ratio.  The code divides doubles; for token counts below 2^45
    the comparisons with 0.55 and 0.4 come out as on the exact ratios. *)
Definition titleSimilarityTokens (ta tb : gset string) : Q :=
  if (size ta =? 0) || (size tb =? 0) then 0
  else let shared := sharedTokenCount ta tb in
       Z.of_nat shared # Pos.of_nat (size ta + size tb - shared).

Definition TITLE_SIMILARITY_THRESHOLD : Q := 55 # 100.
Definition MIN_SHARED_TITLE_TOKENS : nat := 4.
Definition REJECTED_ALTERNATIVE_SIMILARITY_THRESHOLD : Q := 4 # 10.

Definition sameDefectTitles (a b : string) : bool :=
  let ta := titleTokens a in
  let tb := titleTokens b in
  Qle_bool TITLE_SIMILARITY_THRESHOLD (titleSimilarityTokens ta tb) &&
  (MIN_SHARED_TITLE_TOKENS <=? sharedTokenCount ta tb).

Definition reinstates (recommendation alternative : string) : bool :=
  let altTokens := titleTokens alternative in
  negb (size altTokens =? 0) &&
  Qle_bool REJECTED_ALTERNATIVE_SIMILARITY_THRESHOLD (titleSimilarityTokens (titleTokens recommendation) altTokens).

(** ** Settled findings *)

Record SettledFinding := mkSettled {
  st_key : string;
  st_surface : option string;
  st_title : string;
  st_round : nat;
  st_rejected : list string
}.

Inductive MatchBasis := ByKey | ByTitle.

#[export] Instance MatchBasis_eq_dec : EqDecision MatchBasis.
Proof. solve_decision. Defined.

Section Matching.
Context (sha1hex : string → string) (showNum : rnum → string).
Notation findingKey := (findingKey sha1hex showNum).

(** One turn of the loop of [matchSettledFinding]. *)
Definition settledBasis (f : ReviewFinding) (entry : SettledFinding) : option MatchBasis :=
  let fKey := findingKey f in
  let admissible := match st_surface entry with
                    | Some s => bool_decide (surfaceKey f = Some s)
                    | None => bool_decide (fKey = st_key entry)
                    end in
  if negb admissible then None
  else if decide (fKey = st_key entry) then Some ByKey
  else if isTitleUsable (f_title f) && isTitleUsable (Some (st_title entry)) &&
          sameDefectTitles (default "" (f_title f)) (st_title entry)
  then Some ByTitle
  else None.

Fixpoint matchSettledFinding (f : ReviewFinding) (settled : list SettledFinding) : option (SettledFinding * MatchBasis) :=
  match settled with
  | [] => None
  | entry :: rest =>
      match settledBasis f entry with
      | Some b => Some (entry, b)
      | None => matchSettledFinding f rest
      end
  end.

Definition settledAlternative (f : ReviewFinding) (entry : SettledFinding) : option string :=
  if bool_decide (st_surface entry = surfaceKey f)
  then find (reinstates (default "" (f_recommendation f))) (st_rejected entry)
  else None.

Fixpoint firstAlternative (f : ReviewFinding) (settled : list SettledFinding) : option (SettledFinding * string) :=
  match settled with
  | [] => None
  | entry :: rest =>
      match settledAlternative f entry with
      | Some alt => Some (entry, alt)
      | None => firstAlternative f rest
      end
  end.

Definition matchSettledAlternative (f : ReviewFinding) (settled : list SettledFinding) : option (SettledFinding * string) :=
  match surfaceKey f with
  | None => None
  | Some _ =>
      if decide (size (titleTokens (default "" (f_recommendation f))) = 0) then None
      else firstAlternative f settled
  end.
End Matching.

(** ** Evidence from the files at the reviewed head *)

Inductive AbsenceReason := NotFound | Unreadable | Rejected.

#[export] Instance AbsenceReason_eq_dec : EqDecision AbsenceReason.
Proof. solve_decision. Defined.

Record HeadFileState := mkHeadFile {
  hf_path : string;
  hf_content : string;
  hf_truncated : bool;
  hf_present : bool;
  hf_absence : option AbsenceReason
}.

Definition HEAD_EVIDENCE_MIN_QUOTE_LENGTH : nat := 15.

Definition normalizeForEvidenceMatch (l : list ascii) : list ascii := lower <$> trim (collapse false l).

(** [s.split("\n")]. *)
Definition linesOf (l : list ascii) : list (list ascii) := splitBy (fun c => nat_of_ascii c =? 10)%nat l.

(** A line of the file that the normalized text quotes. *)
Definition quotes (normalizedText : list ascii) (rawLine : list ascii) : bool :=
  let line := normalizeForEvidenceMatch rawLine in
  (HEAD_EVIDENCE_MIN_QUOTE_LENGTH <=? length line) && contains line normalizedText.

Definition citesHeadFileEvidence (text : string) (headFiles : list HeadFileState) (matchedFile : string) : bool :=
  let normalizedText := normalizeForEvidenceMatch (chars text) in
  let normalizedMatchedFile := normalizeFile (Some matchedFile) in
  if bool_decide (normalizedText = []) then false
  else if bool_decide (normalizedMatchedFile = "") then false
  else existsb (fun file =>
         hf_present file && bool_decide (normalizeFile (Some (hf_path file)) = normalizedMatchedFile) &&
         existsb (quotes normalizedText) (linesOf (chars (hf_content file)))) headFiles.

Definition citesAbsentHeadFile (f : ReviewFinding) (headFiles : list HeadFileState) : bool :=
  let findingFile := normalizeFile (f_file f) in
  if bool_decide (findingFile = "") then false
  else existsb (fun file =>
         negb (hf_present file) && bool_decide (hf_absence file = Some NotFound) &&
         bool_decide (normalizeFile (Some (hf_path file)) = findingFile)) headFiles.

(** The evidence bar of the delta rules. *)
Definition citesEvidence (headFiles : list HeadFileState) (f : ReviewFinding) : bool :=
  citesHeadFileEvidence (default "" (f_body f)) headFiles (default "" (f_file f)) || citesAbsentHeadFile f headFiles.
