(* ===== verification/ReviewPolicy.v ===== *)
(** * The review severity policy

    [core/scripts/review-policy.ts]: the effective policy of a round, the
    partition of a verdict into blocking, advisory and overridden findings, and
    the two evidence rules the delta review applies to what still blocks. *)

From Stdlib Require Import QArith Qcanon Qround Ascii.
From stdpp Require Import base numbers gmap strings list.
From S2P Require Import Prelude Ownership ReviewFindings.

Record ReviewPolicy := mkPolicy {
  block_threshold : string;
  min_confidence : rnum
}.

Inductive Review1Risk := RiskLow | RiskStandard.

#[export] Instance Review1Risk_eq_dec : EqDecision Review1Risk.
Proof. solve_decision. Defined.

Definition effectiveReviewPolicy (policy : ReviewPolicy) (riskProportional : option bool) (round : nat)
    (review1Risk : Review1Risk) : ReviewPolicy :=
  if bool_decide (round ≠ 2) || negb (default false riskProportional) || bool_decide (review1Risk ≠ RiskLow)
  then policy
  else
    let rank := severityRank (Some (block_threshold policy)) `max` severityRank (Some "high") in
    mkPolicy (default "" (SEVERITY_ORDER !! rank)) (min_confidence policy).

(** ** The partition *)

Inductive AdvisoryReason :=
| MarkedNonBlocking
| BelowPolicy (text : string)
| ReversalUnacknowledged (settledKey settledTitle : string) (settledRound : nat) (basis : MatchBasis)
| AlternativeReinstated (settledKey : string) (settledRound : nat) (alternative : string)
| SettledSurfaceUnverified (settledKey : string) (settledRound : nat)
| AdvisoryCarryForward (priorKey : string) (priorRound : nat) (bySurface : bool).

Inductive OverriddenBy :=
| OverriddenKey (key disposition : string)
| OverriddenScope (type : ScopeType) (value disposition reason : string).

(** Where the loop puts one finding. *)
Inductive Placement :=
| Blocks
| Advises (r : AdvisoryReason)
| Overridden (o : OverriddenBy).

#[export] Instance AdvisoryReason_eq_dec : EqDecision AdvisoryReason.
Proof. solve_decision. Defined.
#[export] Instance OverriddenBy_eq_dec : EqDecision OverriddenBy.
Proof. solve_decision. Defined.
#[export] Instance Placement_eq_dec : EqDecision Placement.
Proof. solve_decision. Defined.

Record PartitionResult := mkPartition {
  p_blocking : list ReviewFinding;
  p_advisory : list (ReviewFinding * AdvisoryReason);
  p_overridden : list (ReviewFinding * OverriddenBy)
}.

Definition push (r : PartitionResult) (f : ReviewFinding) (p : Placement) : PartitionResult :=
  match p with
  | Blocks => mkPartition (p_blocking r ++ [f]) (p_advisory r) (p_overridden r)
  | Advises a => mkPartition (p_blocking r) (p_advisory r ++ [(f, a)]) (p_overridden r)
  | Overridden o => mkPartition (p_blocking r) (p_advisory r) (p_overridden r ++ [(f, o)])
  end.

Record NonReproducing := mkNonReproducing { nr_sha : string; nr_fingerprint : string }.

Definition isAboveSeverity (policy : ReviewPolicy) (f : ReviewFinding) : bool :=
  bool_decide (f_blocking f = Some true) ||
  (severityRank (Some (block_threshold policy)) <=? severityRank (f_severity f)).

Definition isAboveConfidence (policy : ReviewPolicy) (f : ReviewFinding) : bool :=
  match f_confidence f with Some c => js_ge c (min_confidence policy) | None => true end.

Definition belowConfidence (policy : ReviewPolicy) (f : ReviewFinding) : bool :=
  match f_confidence f with Some c => js_lt c (min_confidence policy) | None => false end.

Definition isBlockingCandidate (policy : ReviewPolicy) (f : ReviewFinding) : bool :=
  isAboveSeverity policy f && isAboveConfidence policy f.

Definition hasAcknowledgment (f : ReviewFinding) : bool := negb (blank (default "" (f_acknowledgment f))).

Section Partition.
Context (sha1hex : string → string) (showNum : rnum → string).
Notation findingKey := (findingKey sha1hex showNum).
Notation fingerprint := (findingPayloadFingerprint sha1hex showNum).
Notation matchSettledFinding := (matchSettledFinding sha1hex showNum).

(** The first loop: the distinct payloads of the blocking candidates by key. *)
Definition collectFingerprint (policy : ReviewPolicy) (m : gmap string (gset string)) (f : ReviewFinding)
    : gmap string (gset string) :=
  if bool_decide (f_blocking f = Some false) then m
  else if isBlockingCandidate policy f
  then <[findingKey f := default ∅ (m !! findingKey f) ∪ {[fingerprint f]}]> m
  else m.

Definition blockingFingerprintsByKey (policy : ReviewPolicy) (findings : list ReviewFinding) : gmap string (gset string) :=
  foldl (collectFingerprint policy) ∅ findings.

Definition belowPolicyText (policy : ReviewPolicy) (f : ReviewFinding) : string :=
  join "; "
    ((if negb (isAboveSeverity policy f)
      then ["severity " +:+ default "undefined" (f_severity f) +:+ " below threshold " +:+ block_threshold policy] else []) ++
     (if belowConfidence policy f
      then ["confidence " +:+ showOpt showNum (f_confidence f) +:+ " below " +:+ showNum (min_confidence policy)] else [])).

(** The disposition recorded by a fix round for this payload at this commit. *)
Definition nonReproducingAt (nonReproducing : gmap string (list NonReproducing)) (reviewedSha : option string)
    (f : ReviewFinding) : bool :=
  match reviewedSha with
  | None => false
  | Some sha =>
      bool_decide (sha ≠ "") &&
      existsb (fun d => bool_decide (nr_sha d = sha) && bool_decide (nr_fingerprint d = fingerprint f))
        (default [] (nonReproducing !! findingKey f))
  end.

(** Steps 3 to 5 of the second loop: the policy, then the guards against
    silent reversals of settled decisions. *)
Definition placeByPolicy (policy : ReviewPolicy) (settled : list SettledFinding) (f : ReviewFinding) : Placement :=
  if negb (isAboveSeverity policy f) || belowConfidence policy f
  then Advises (BelowPolicy (belowPolicyText policy f))
  else if hasAcknowledgment f then Blocks
  else
    match matchSettledFinding f settled with
    | Some (e, b) => Advises (ReversalUnacknowledged (st_key e) (st_title e) (st_round e) b)
    | None =>
        match matchSettledAlternative f settled with
        | Some (e, alt) => Advises (AlternativeReinstated (st_key e) (st_round e) alt)
        | None => Blocks
        end
    end.

(** [isBlockingCandidate && !isAmbiguous]. *)
Definition clears (policy : ReviewPolicy) (byKey : gmap string (gset string)) (f : ReviewFinding) : bool :=
  isBlockingCandidate policy f && negb (1 <? size (default ∅ (byKey !! findingKey f)))%nat.

(** The body of the second loop. *)
Definition placeFinding (policy : ReviewPolicy) (overrides : gmap string string) (scopes : list ScopedOverride)
    (nonReproducing : gmap string (list NonReproducing)) (reviewedSha : option string) (settled : list SettledFinding)
    (byKey : gmap string (gset string)) (f : ReviewFinding) : Placement :=
  if bool_decide (f_blocking f = Some false) then Advises MarkedNonBlocking
  else
    match find (matchFindingScope (f_category f) (f_file f)) scopes with
    | Some s => Overridden (OverriddenScope (sc_type s) (sc_value s) (sc_disposition s) (sc_reason s))
    | None =>
        let key := findingKey f in
        if clears policy byKey f then
          match overrides !! key with
          | Some disposition => Overridden (OverriddenKey key disposition)
          | None =>
              if nonReproducingAt nonReproducing reviewedSha f
              then Overridden (OverriddenKey key ("declared non-reproducing at " +:+ slice 7 (default "" reviewedSha) +:+
                     " by a prior fix round"))
              else placeByPolicy policy settled f
          end
        else placeByPolicy policy settled f
    end.

Definition partitionFindings (findings : list ReviewFinding) (policy : ReviewPolicy) (overrides : gmap string string)
    (scopes : list ScopedOverride) (nonReproducing : gmap string (list NonReproducing)) (reviewedSha : option string)
    (settled : list SettledFinding) : PartitionResult :=
  let byKey := blockingFingerprintsByKey policy findings in
  foldl (fun r f => push r f (placeFinding policy overrides scopes nonReproducing reviewedSha settled byKey f))
    (mkPartition [] [] []) findings.

(** ** The evidence rules of the delta review *)

Record SettledFindingVerification := mkVerification {
  sv_key : string;
  sv_surface : option string;
  sv_title : string;
  sv_round : nat;
  sv_overridden : bool
}.

Definition asSettled (e : SettledFindingVerification) : SettledFinding :=
  mkSettled (sv_key e) (sv_surface e) (sv_title e) (sv_round e) [].

(** Findings that still block, and the demoted ones with their reason. *)
Abbreviation Demotion := (list ReviewFinding * list (ReviewFinding * AdvisoryReason))%type.

Definition demoteUnverified (headFiles : list HeadFileState) (reason : ReviewFinding → option AdvisoryReason)
    (acc : Demotion) (f : ReviewFinding) : Demotion :=
  match reason f with
  | None => (acc.1 ++ [f], acc.2)
  | Some r => if citesEvidence headFiles f then (acc.1 ++ [f], acc.2) else (acc.1, acc.2 ++ [(f, r)])
  end.

Definition settledReason (settled : list SettledFindingVerification) (f : ReviewFinding) : option AdvisoryReason :=
  (fun p => SettledSurfaceUnverified (st_key p.1) (st_round p.1)) <$> matchSettledFinding f (asSettled <$> settled).

Definition applySettledSurfaceEvidenceRule (blocking : list ReviewFinding) (settled : list SettledFindingVerification)
    (headFiles : list HeadFileState) : Demotion :=
  match settled with
  | [] => (blocking, [])
  | _ => foldl (demoteUnverified headFiles (settledReason settled)) ([], []) blocking
  end.

Record PriorAdvisoryFinding := mkPrior {
  pa_key : string;
  pa_surface : option string;
  pa_title : string;
  pa_round : nat
}.

(** How a prior advisory matches: by surface first, else by key. *)
Definition advisoryBasis (f : ReviewFinding) (prior : PriorAdvisoryFinding) : option bool :=
  if bool_decide (surfaceKey f ≠ None) && bool_decide (pa_surface prior ≠ None) &&
     bool_decide (pa_surface prior = surfaceKey f) then Some true
  else if bool_decide (pa_key prior = findingKey f) then Some false
  else None.

Definition betterAdvisory (f : ReviewFinding) (best : option (PriorAdvisoryFinding * bool)) (prior : PriorAdvisoryFinding)
    : option (PriorAdvisoryFinding * bool) :=
  match advisoryBasis f prior with
  | None => best
  | Some b =>
      match best with
      | Some (p, _) => if decide (pa_round p < pa_round prior)%nat then Some (prior, b) else best
      | None => Some (prior, b)
      end
  end.

Definition matchPriorAdvisory (f : ReviewFinding) (priors : list PriorAdvisoryFinding) : option (PriorAdvisoryFinding * bool) :=
  foldl (betterAdvisory f) None priors.

Definition carryReason (priors : list PriorAdvisoryFinding) (f : ReviewFinding) : option AdvisoryReason :=
  (fun p => AdvisoryCarryForward (pa_key p.1) (pa_round p.1) p.2) <$> matchPriorAdvisory f priors.

Definition applyAdvisoryCarryForwardRule (blocking : list ReviewFinding) (priors : list PriorAdvisoryFinding)
    (headFiles : list HeadFileState) : Demotion :=
  match priors with
  | [] => (blocking, [])
  | _ => foldl (demoteUnverified headFiles (carryReason priors)) ([], []) blocking
  end.
End Partition.

(** ** What the partition computes *)

Lemma set_at_most_one `{Countable A} (X : gset A) x : x ∈ X → (1 <? size X)%nat = false ↔ ∀ y, y ∈ X → y = x.
Proof.
  intros Hx. rewrite Nat.ltb_ge. split.
  - intros Hs y Hy. destruct (decide (y = x)) as [|Hne]; [done|].
    assert (size ({[x; y]} : gset A) ≤ size X) as Hle by (apply subseteq_size; set_solver).
    rewrite size_union, !size_singleton in Hle by set_solver. lia.
  - intros Hall. transitivity (size ({[x]} : gset A)); [apply subseteq_size; set_solver|by rewrite size_singleton].
Qed.

Lemma elem_cons_ex {A} (P : A → Prop) x l : (∃ g, g ∈ x :: l ∧ P g) ↔ P x ∨ ∃ g, g ∈ l ∧ P g.
Proof.
  split.
  - intros (g & [->|Hg]%elem_of_cons & HP); [by left|right; eauto].
  - intros [HP|(g & Hg & HP)]; [exists x|exists g]; (split; [|done]); [left|by right].
Qed.

(** A loop that pushes every finding to the place a function names. *)
Lemma push_all (place : ReviewFinding → Placement) l r :
  let r' := foldl (fun r f => push r f (place f)) r l in
  p_blocking r' = p_blocking r ++ filter (fun f => place f = Blocks) l ∧
  p_advisory r' = p_advisory r ++ omap (fun f => match place f with Advises a => Some (f, a) | _ => None end) l ∧
  p_overridden r' = p_overridden r ++ omap (fun f => match place f with Overridden o => Some (f, o) | _ => None end) l.
Proof.
  revert r. induction l as [|f l IH]; intros r; simpl; [by rewrite !app_nil_r|].
  destruct (IH (push r f (place f))) as (-> & -> & ->).
  rewrite filter_cons. destruct (place f); simpl; rewrite ?decide_True, ?decide_False by done; simpl; rewrite <-?app_assoc; done.
Qed.

(** Nothing is lost and nothing is counted twice. *)
Lemma split_permutation (place : ReviewFinding → Placement) l :
  l ≡ₚ filter (fun f => place f = Blocks) l ++
       (omap (fun f => match place f with Advises a => Some (f, a) | _ => None end) l).*1 ++
       (omap (fun f => match place f with Overridden o => Some (f, o) | _ => None end) l).*1.
Proof.
  induction l as [|f l IH]; simpl; [done|]. rewrite filter_cons.
  destruct (place f); simpl; rewrite ?decide_True, ?decide_False by done; simpl; rewrite IH at 1; [done| |].
  - by rewrite Permutation_middle.
  - rewrite Permutation_middle. apply Permutation_app_head. by rewrite Permutation_middle.
Qed.

Section PartitionSpec.
Context (sha1hex : string → string) (showNum : rnum → string).
Notation findingKey := (findingKey sha1hex showNum).
Notation fingerprint := (findingPayloadFingerprint sha1hex showNum).
Notation settledBasis := (settledBasis sha1hex showNum).
Notation partitionFindings := (partitionFindings sha1hex showNum).
Notation placeFinding := (placeFinding sha1hex showNum).
Notation nonReproducingAt := (nonReproducingAt sha1hex showNum).
Notation byKey := (blockingFingerprintsByKey sha1hex showNum).
Implicit Types (f g : ReviewFinding) (policy : ReviewPolicy).

(** A finding the policy asks a fix for, disposition and history aside. *)
Definition Candidate policy f : Prop := f_blocking f ≠ Some false ∧ isBlockingCandidate policy f = true.

(** No candidate of the verdict shares the key with another payload. *)
Definition Unambiguous policy (findings : list ReviewFinding) f : Prop :=
  ∀ g, g ∈ findings → Candidate policy g → findingKey g = findingKey f → fingerprint g = fingerprint f.

(** A recorded disposition of the key applies. *)
Definition Excused policy (overrides : gmap string string) (nonReproducing : gmap string (list NonReproducing))
    (reviewedSha : option string) findings f : Prop :=
  Candidate policy f ∧ Unambiguous policy findings f ∧
  (is_Some (overrides !! findingKey f) ∨ nonReproducingAt nonReproducing reviewedSha f = true).

(** The finding repeats a settled one, or proposes an alternative one ruled
    out. *)
Definition Reraises (settled : list SettledFinding) f : Prop :=
  ∃ e, e ∈ settled ∧
    (is_Some (settledBasis f e) ∨
     (surfaceKey f ≠ None ∧ st_surface e = surfaceKey f ∧
      ∃ alt, alt ∈ st_rejected e ∧ reinstates (default "" (f_recommendation f)) alt = true)).

Definition Scoped (scopes : list ScopedOverride) f : Prop :=
  ∃ s, s ∈ scopes ∧ matchFindingScope (f_category f) (f_file f) s = true.

Definition MustBlock policy overrides scopes nonReproducing reviewedSha settled findings f : Prop :=
  f_blocking f ≠ Some false ∧ ¬ Scoped scopes f ∧
  isAboveSeverity policy f = true ∧ belowConfidence policy f = false ∧
  ¬ Excused policy overrides nonReproducing reviewedSha findings f ∧
  (hasAcknowledgment f = true ∨ ¬ Reraises settled f).

(** *** The matchers *)

Lemma matchSettled_Some f settled e b :
  matchSettledFinding sha1hex showNum f settled = Some (e, b) → e ∈ settled ∧ settledBasis f e = Some b.
Proof.
  induction settled as [|x settled IH]; simpl; [done|]. destruct (settledBasis f x) eqn:E.
  - intros [= -> ->]. split; [left|done].
  - intros H. destruct (IH H). split; [by right|done].
Qed.

Lemma matchSettled_None f settled :
  matchSettledFinding sha1hex showNum f settled = None ↔ ∀ e, e ∈ settled → settledBasis f e = None.
Proof.
  induction settled as [|x settled IH]; simpl; [split; [intros _ e He; inversion He|done]|].
  destruct (settledBasis f x) eqn:E.
  - split; [done|]. intros H. rewrite (H x) in E; [done|left].
  - rewrite IH. setoid_rewrite elem_of_cons. naive_solver.
Qed.

Lemma reinstates_nonempty rec alt : reinstates rec alt = true → size (titleTokens rec) ≠ 0.
Proof.
  unfold reinstates, titleSimilarityTokens. intros [_ H]%andb_prop Hz. rewrite Hz in H. simpl in H. discriminate H.
Qed.

Lemma firstAlternative_None f settled :
  firstAlternative f settled = None ↔ ∀ e, e ∈ settled → settledAlternative f e = None.
Proof.
  induction settled as [|x settled IH]; simpl; [split; [intros _ e He; inversion He|done]|].
  destruct (settledAlternative f x) eqn:E.
  - split; [done|]. intros H. rewrite (H x) in E; [done|left].
  - rewrite IH. setoid_rewrite elem_of_cons. naive_solver.
Qed.

Lemma settledAlternative_None f e :
  settledAlternative f e = None ↔
  ¬ (st_surface e = surfaceKey f ∧ ∃ alt, alt ∈ st_rejected e ∧ reinstates (default "" (f_recommendation f)) alt = true).
Proof.
  unfold settledAlternative. case_bool_decide as He; [|naive_solver].
  split.
  - intros Hf [_ (alt & Hin & Hr)]. apply list_elem_of_In in Hin. by rewrite (find_none _ _ Hf alt Hin) in Hr.
  - intros Hn. destruct (find _ _) eqn:E; [|done]. apply find_some in E as [Hin Hr]. destruct Hn.
    split; [done|]. eexists. split; [by apply list_elem_of_In|done].
Qed.

Lemma matchAlternative_None f settled :
  matchSettledAlternative f settled = None ↔
  surfaceKey f = None ∨
  ∀ e, e ∈ settled → ¬ (st_surface e = surfaceKey f ∧
    ∃ alt, alt ∈ st_rejected e ∧ reinstates (default "" (f_recommendation f)) alt = true).
Proof.
  unfold matchSettledAlternative. destruct (surfaceKey f) as [x|] eqn:Es; [|naive_solver].
  case_decide as Hz.
  - split; [intros _; right|done]. intros e _ [_ (alt & _ & Hr)]. by destruct (reinstates_nonempty _ _ Hr).
  - rewrite firstAlternative_None. setoid_rewrite settledAlternative_None. rewrite Es. naive_solver.
Qed.

Lemma matchAlternative_Some f settled e alt : matchSettledAlternative f settled = Some (e, alt) → Reraises settled f.
Proof.
  unfold matchSettledAlternative, Reraises. destruct (surfaceKey f) eqn:Es; [|done]. case_decide; [done|]. rewrite <-Es.
  induction settled as [|x settled IH]; simpl; [done|]. destruct (settledAlternative f x) as [a|] eqn:E.
  - intros _. unfold settledAlternative in E. case_bool_decide as Hx; [|done]. apply find_some in E as [Hin Hr].
    exists x. split; [left|]. right. split; [congruence|]. split; [done|]. exists a. by rewrite list_elem_of_In.
  - intros (y & Hy & ?)%IH. exists y. split; [by right|done].
Qed.

Lemma not_reraises f settled :
  matchSettledFinding sha1hex showNum f settled = None ∧ matchSettledAlternative f settled = None ↔ ¬ Reraises settled f.
Proof.
  rewrite matchSettled_None, matchAlternative_None. unfold Reraises. split.
  - intros [Hb Ha] (e & He & [[b Hs]|(Hne & Hs & Hr)]); [by rewrite Hb in Hs|]. destruct Ha as [|Ha]; [done|].
    by apply (Ha e He).
  - intros Hn. split.
    + intros e He. destruct (settledBasis f e) eqn:E; [|done]. destruct Hn. exists e. split; [done|left; eauto].
    + destruct (surfaceKey f) as [x|] eqn:Es; [right|by left]. intros e He [Hs Hr].
      destruct Hn. exists e. split; [done|]. by right.
Qed.

Lemma find_scope_None scopes f :
  find (matchFindingScope (f_category f) (f_file f)) scopes = None ↔ ¬ Scoped scopes f.
Proof.
  unfold Scoped. split.
  - intros H (s & Hs & Hm). apply list_elem_of_In in Hs. by rewrite (find_none _ _ H s Hs) in Hm.
  - intros Hn. destruct (find _ _) eqn:E; [|done]. apply find_some in E as [Hin Hm]. destruct Hn. eexists.
    rewrite list_elem_of_In. eauto.
Qed.

(** *** The ambiguity guard *)

Lemma collected policy l m k x :
  x ∈ default ∅ (foldl (collectFingerprint sha1hex showNum policy) m l !! k) ↔
  x ∈ default ∅ (m !! k) ∨ ∃ g, g ∈ l ∧ Candidate policy g ∧ findingKey g = k ∧ fingerprint g = x.
Proof.
  revert m. induction l as [|f l IH]; intros m; simpl.
  { split; [by left|]. intros [?|(g & Hg & _)]; [done|inversion Hg]. }
  rewrite IH, (elem_cons_ex (fun g => Candidate policy g ∧ findingKey g = k ∧ fingerprint g = x)).
  unfold collectFingerprint, Candidate at 2. case_bool_decide as Hb; [tauto|].
  destruct (isBlockingCandidate policy f) eqn:Hc; [|intuition discriminate].
  destruct (decide (findingKey f = k)) as [<-|Hne].
  - rewrite lookup_insert_eq. simpl. rewrite elem_of_union, elem_of_singleton. intuition congruence.
  - rewrite lookup_insert_ne by done. tauto.
Qed.

Lemma unambiguous_spec policy findings f :
  f ∈ findings → Candidate policy f →
  (1 <? size (default ∅ (byKey policy findings !! findingKey f)))%nat = false ↔ Unambiguous policy findings f.
Proof.
  intros Hin Hc.
  assert (∀ x, x ∈ default ∅ (byKey policy findings !! findingKey f) ↔
    ∃ g, g ∈ findings ∧ Candidate policy g ∧ findingKey g = findingKey f ∧ fingerprint g = x) as Hx.
  { intros x. unfold byKey. rewrite collected, lookup_empty. simpl. split; [intros [H|H]; [by apply not_elem_of_empty in H|done]|by right]. }
  rewrite (set_at_most_one _ (fingerprint f)) by (apply Hx; eauto).
  setoid_rewrite Hx. unfold Unambiguous. naive_solver.
Qed.

Lemma clears_spec policy findings f :
  f ∈ findings → f_blocking f ≠ Some false →
  clears sha1hex showNum policy (byKey policy findings) f = true ↔ Candidate policy f ∧ Unambiguous policy findings f.
Proof.
  intros Hin Hb. unfold clears. rewrite andb_true_iff, negb_true_iff. split.
  - intros [Hc Hu]. assert (Candidate policy f) as Hcand by done. split; [done|]. by apply unambiguous_spec.
  - intros [Hc Hu]. split; [apply Hc|]. by apply unambiguous_spec.
Qed.

(** *** Placements *)

Lemma byPolicy_Blocks policy settled f :
  placeByPolicy sha1hex showNum policy settled f = Blocks ↔
  isAboveSeverity policy f = true ∧ belowConfidence policy f = false ∧ (hasAcknowledgment f = true ∨ ¬ Reraises settled f).
Proof.
  unfold placeByPolicy. rewrite <-not_reraises.
  destruct (isAboveSeverity policy f); [|naive_solver]. destruct (belowConfidence policy f); [naive_solver|].
  destruct (hasAcknowledgment f); [naive_solver|].
  destruct (matchSettledFinding _ _ f settled) as [[e b]|]; [naive_solver|].
  destruct (matchSettledAlternative f settled) as [[e alt]|]; naive_solver.
Qed.

Lemma place_Blocks policy overrides scopes nonRep sha settled findings f :
  f ∈ findings →
  placeFinding policy overrides scopes nonRep sha settled (byKey policy findings) f = Blocks ↔
  MustBlock policy overrides scopes nonRep sha settled findings f.
Proof.
  intros Hin. unfold placeFinding, MustBlock, Excused. case_bool_decide as Hb; [naive_solver|].
  rewrite <-find_scope_None. destruct (find _ scopes) as [s|]; [naive_solver|].
  pose proof (clears_spec policy findings f Hin Hb) as Hcl. pose proof (byPolicy_Blocks policy settled f) as Hp.
  assert (∀ P : Prop, ¬ P → placeByPolicy sha1hex showNum policy settled f = Blocks ↔
    f_blocking f ≠ Some false ∧ (None : option ScopedOverride) = None ∧ isAboveSeverity policy f = true ∧ belowConfidence policy f = false ∧ ¬ P ∧
    (hasAcknowledgment f = true ∨ ¬ Reraises settled f)) as Hfree by (intros P HP; rewrite Hp; tauto).
  destruct (clears _ _ _ _ f).
  - destruct Hcl as [[Hc Hu] _]; [done|]. destruct (overrides !! findingKey f) as [d|].
    { split; [done|]. intros (_ & _ & _ & _ & He & _). destruct He. eauto. }
    destruct (nonReproducingAt nonRep sha f).
    { split; [done|]. intros (_ & _ & _ & _ & He & _). destruct He. eauto. }
    apply Hfree. intros (_ & _ & [[? ?]|?]); done.
  - apply Hfree. intros (Hc & Hu & _). destruct Hcl as [_ Hcl]. discriminate Hcl. by split.
Qed.

(** A finding is overridden by a scope that covers it or by a disposition of
    its key that is not ambiguous. *)
Lemma place_Overridden policy overrides scopes nonRep sha settled findings f o :
  f ∈ findings →
  placeFinding policy overrides scopes nonRep sha settled (byKey policy findings) f = Overridden o →
  match o with
  | OverriddenScope t v d r => mkScope t v d r ∈ scopes ∧ matchFindingScope (f_category f) (f_file f) (mkScope t v d r) = true
  | OverriddenKey k d =>
      k = findingKey f ∧ Candidate policy f ∧ Unambiguous policy findings f ∧
      (overrides !! k = Some d ∨ nonReproducingAt nonRep sha f = true)
  end.
Proof.
  intros Hin. unfold placeFinding. case_bool_decide as Hb; [done|].
  destruct (find _ scopes) as [s|] eqn:Es.
  { intros [= <-]. apply find_some in Es as [? ?]. rewrite list_elem_of_In. by destruct s. }
  assert (∀ o, placeByPolicy sha1hex showNum policy settled f ≠ Overridden o) as Hno.
  { intros o'. unfold placeByPolicy. repeat case_match; done. }
  destruct (clears _ _ _ _ f) eqn:Hcl; [|by intros ?%Hno]. apply clears_spec in Hcl as [Hc Hu]; [|done..].
  destruct (overrides !! findingKey f) as [d|] eqn:Eo; [intros [= <-]; naive_solver|].
  destruct (nonReproducingAt nonRep sha f); [intros [= <-]; naive_solver|by intros ?%Hno].
Qed.

(** A finding at or above the policy becomes advisory only as a re-raise. *)
Lemma place_Advises policy overrides scopes nonRep sha settled m f a :
  f_blocking f ≠ Some false → isAboveSeverity policy f = true → belowConfidence policy f = false →
  placeFinding policy overrides scopes nonRep sha settled m f = Advises a →
  hasAcknowledgment f = false ∧ Reraises settled f.
Proof.
  intros Hb Ha Hc. unfold placeFinding. rewrite bool_decide_false by done.
  destruct (find _ scopes); [done|].
  assert (placeByPolicy sha1hex showNum policy settled f = Advises a → hasAcknowledgment f = false ∧ Reraises settled f) as Hp.
  { unfold placeByPolicy. rewrite Ha, Hc. simpl. destruct (hasAcknowledgment f); [done|].
    destruct (matchSettledFinding _ _ f settled) as [[e b]|] eqn:Em.
    - intros _. split; [done|]. apply matchSettled_Some in Em as [He Hs]. exists e. split; [done|]. left. by rewrite Hs.
    - destruct (matchSettledAlternative f settled) as [[e alt]|] eqn:Ea; [|done]. intros _. split; [done|].
      by apply matchAlternative_Some in Ea. }
  destruct (clears _ _ _ _ f); [|done]. destruct (overrides !! findingKey f); [done|].
  by destruct (nonReproducingAt nonRep sha f).
Qed.

(** *** The theorems *)

Lemma partition_blocking policy overrides scopes nonRep sha settled findings f :
  f ∈ p_blocking (partitionFindings findings policy overrides scopes nonRep sha settled) ↔
  f ∈ findings ∧ MustBlock policy overrides scopes nonRep sha settled findings f.
Proof.
  unfold partitionFindings.
  destruct (push_all (placeFinding policy overrides scopes nonRep sha settled (byKey policy findings)) findings
    (mkPartition [] [] [])) as (-> & _). simpl. rewrite list_elem_of_filter. split.
  - intros [Hp Hin]. split; [done|]. by apply place_Blocks.
  - intros [Hin Hm]. split; [|done]. by apply place_Blocks.
Qed.

Lemma partition_lossless policy overrides scopes nonRep sha settled findings :
  let r := partitionFindings findings policy overrides scopes nonRep sha settled in
  p_blocking r `sublist_of` findings ∧ findings ≡ₚ p_blocking r ++ (p_advisory r).*1 ++ (p_overridden r).*1.
Proof.
  unfold partitionFindings. set (place := placeFinding policy overrides scopes nonRep sha settled (byKey policy findings)).
  destruct (push_all place findings (mkPartition [] [] [])) as (-> & -> & ->). simpl.
  split; [apply sublist_filter|apply split_permutation].
Qed.

Lemma partition_overridden policy overrides scopes nonRep sha settled findings f o :
  (f, o) ∈ p_overridden (partitionFindings findings policy overrides scopes nonRep sha settled) →
  match o with
  | OverriddenScope t v d x => mkScope t v d x ∈ scopes ∧ matchFindingScope (f_category f) (f_file f) (mkScope t v d x) = true
  | OverriddenKey k d =>
      k = findingKey f ∧ Candidate policy f ∧ Unambiguous policy findings f ∧
      (overrides !! k = Some d ∨ nonReproducingAt nonRep sha f = true)
  end.
Proof.
  unfold partitionFindings. set (place := placeFinding policy overrides scopes nonRep sha settled (byKey policy findings)).
  destruct (push_all place findings (mkPartition [] [] [])) as (_ & _ & ->). simpl.
  intros (g & Hg & Hm)%list_elem_of_omap. destruct (place g) eqn:Ep; simplify_eq.
  by apply (place_Overridden policy overrides scopes nonRep sha settled findings).
Qed.

(** The partition of a verdict is exact and loses nothing: the blocking
    findings are, in order, exactly those that must block (not marked
    non-blocking, under no scope, at or above the policy, not excused by an
    unambiguous disposition of their key, and acknowledged or no re-raise of a
    settled decision); every finding lands in exactly one of the three groups;
    an overridden finding is covered by an active scope, or is the only
    blocking payload of a key with a recorded disposition. *)
Theorem partition_exact findings policy overrides scopes nonRep sha settled :
  let r := partitionFindings findings policy overrides scopes nonRep sha settled in
  (∀ f, f ∈ p_blocking r ↔ f ∈ findings ∧ MustBlock policy overrides scopes nonRep sha settled findings f) ∧
  p_blocking r `sublist_of` findings ∧
  findings ≡ₚ p_blocking r ++ (p_advisory r).*1 ++ (p_overridden r).*1 ∧
  (∀ f o, (f, o) ∈ p_overridden r →
    match o with
    | OverriddenScope t v d x => mkScope t v d x ∈ scopes ∧ matchFindingScope (f_category f) (f_file f) (mkScope t v d x) = true
    | OverriddenKey k d =>
        k = findingKey f ∧ Candidate policy f ∧ Unambiguous policy findings f ∧
        (overrides !! k = Some d ∨ nonReproducingAt nonRep sha f = true)
    end).
Proof.
  intros r. split; [intros f; apply partition_blocking|]. split; [apply partition_lossless|]. split; [apply partition_lossless|].
  intros f o. apply partition_overridden.
Qed.

(** *** Risk-proportional thresholds *)

Lemma rank_order n : (n < 4)%nat → severityRank (Some (default "" (SEVERITY_ORDER !! n))) = n.
Proof. intros. destruct n as [|[|[|[|]]]]; [reflexivity..|lia]. Qed.

Lemma rank_lt sev : (severityRank sev < 4)%nat.
Proof.
  unfold severityRank. destruct sev as [s|]; [|lia]. destruct (indexOf s SEVERITY_ORDER) as [n|] eqn:E; [|lia].
  apply indexOf_Some, lookup_lt_Some in E. simpl in E. lia.
Qed.

(** The threshold only rises, never above [max(configured, high)]. *)
Lemma effective_rank policy rp round risk :
  let e := effectiveReviewPolicy policy rp round risk in
  min_confidence e = min_confidence policy ∧
  (severityRank (Some (block_threshold policy)) ≤ severityRank (Some (block_threshold e)) ≤
   severityRank (Some (block_threshold policy)) `max` severityRank (Some "high"))%nat.
Proof.
  unfold effectiveReviewPolicy. case_match; cbn [block_threshold min_confidence]; [split; [done|lia]|].
  rewrite rank_order; [split; [done|lia]|]. pose proof (rank_lt (Some (block_threshold policy))).
  pose proof (rank_lt (Some "high")). lia.
Qed.

Lemma effective_above policy rp round risk f :
  isAboveSeverity (effectiveReviewPolicy policy rp round risk) f = true → isAboveSeverity policy f = true.
Proof.
  unfold isAboveSeverity. destruct (effective_rank policy rp round risk) as (_ & Hle & _).
  rewrite !orb_true_iff, !Nat.leb_le. intros [?|?]; [by left|right; lia].
Qed.

Lemma effective_candidate policy rp round risk f :
  Candidate (effectiveReviewPolicy policy rp round risk) f → Candidate policy f.
Proof.
  unfold Candidate, isBlockingCandidate. rewrite !andb_true_iff. intros (Hb & Hs & Hc).
  split; [done|]. split; [by apply effective_above in Hs|]. revert Hc. unfold isAboveConfidence.
  by destruct (effective_rank policy rp round risk) as (-> & _).
Qed.

Lemma effective_below policy rp round risk f :
  belowConfidence (effectiveReviewPolicy policy rp round risk) f = belowConfidence policy f.
Proof. unfold belowConfidence. by destruct (effective_rank policy rp round risk) as (-> & _). Qed.

(** A finding the raised threshold keeps. *)
Definition keptByRaise f : Prop := f_blocking f = Some true ∨ (severityRank (Some "high") ≤ severityRank (f_severity f))%nat.

Lemma kept_above policy rp round risk f :
  keptByRaise f → isAboveSeverity policy f = true → isAboveSeverity (effectiveReviewPolicy policy rp round risk) f = true.
Proof.
  unfold isAboveSeverity, keptByRaise. destruct (effective_rank policy rp round risk) as (_ & _ & Hle).
  rewrite !orb_true_iff, !Nat.leb_le, bool_decide_eq_true. intros [?|?] [?|?]; [by left|by left|by left|right; lia].
Qed.

(** Risk-proportional review only relaxes, and only below high: whatever
    blocks under the effective policy of a round blocks under the configured
    one, its key overrides and the history being the same; and when the keys of
    the verdict tell severities apart, an explicitly blocking finding and one of
    severity high or above block under both or neither. *)
Theorem effective_policy_relaxes findings policy rp round risk overrides scopes nonRep sha settled f :
  let configured := partitionFindings findings policy overrides scopes nonRep sha settled in
  let effective := partitionFindings findings (effectiveReviewPolicy policy rp round risk) overrides scopes nonRep sha settled in
  (f ∈ p_blocking effective → f ∈ p_blocking configured) ∧
  ((∀ g, g ∈ findings → findingKey g = findingKey f → keptByRaise g ↔ keptByRaise f) →
   keptByRaise f → f ∈ p_blocking effective ↔ f ∈ p_blocking configured).
Proof.
  intros configured effective. subst configured effective. rewrite !partition_blocking. unfold MustBlock. rewrite effective_below.
  assert (∀ g, Candidate (effectiveReviewPolicy policy rp round risk) g → Candidate policy g) as Hce by (intros g; apply effective_candidate).
  assert (isAboveSeverity (effectiveReviewPolicy policy rp round risk) f = true →
    Excused policy overrides nonRep sha findings f → Excused (effectiveReviewPolicy policy rp round risk) overrides nonRep sha findings f) as Hex.
  { intros Hab ([Hb Hc] & Hu & Hd). split; [|split; [|done]].
    - split; [done|]. revert Hc. unfold isBlockingCandidate, isAboveConfidence. rewrite !andb_true_iff.
      destruct (effective_rank policy rp round risk) as (-> & _). naive_solver.
    - intros g Hg Hcg. apply Hu; auto. }
  split.
  - intros (Hin & Hb & Hs & Ha & Hc & He & Hr). split_and!; try done; [by eapply effective_above|]. auto.
  - intros Hsep Hk. split.
    + intros (Hin & Hb & Hs & Ha & Hc & He & Hr). split_and!; try done; [by eapply effective_above|]. auto.
    + intros (Hin & Hb & Hs & Ha & Hc & He & Hr). split_and!; try done; [by apply kept_above|].
      intros (Hcand & Hu & Hd). apply He. split; [auto|]. split; [|done]. intros g Hg Hcg Hkey.
      apply Hu; [done| |done]. destruct Hcg as [Hbg Hcg]. split; [done|]. revert Hcg.
      unfold isBlockingCandidate, isAboveConfidence. rewrite !andb_true_iff.
      destruct (effective_rank policy rp round risk) as (-> & _). intros [Hag ?]. split; [|done].
      apply kept_above; [|done]. by apply Hsep.
Qed.
End PartitionSpec.
