(* ===== verification/EvidenceSubject.v ===== *)
(** * The evidence subject

    [core/scripts/evidence-subject.ts]: the identity an artifact of evidence is
    bound to.  Building it from runtime inputs, reading it back from a document,
    its canonical form, the comparison against the subject under evaluation, and
    the diagnostics of a set of artifacts. *)

From Stdlib Require Import QArith Qcanon Ascii.
From stdpp Require Import base numbers gmap strings list.
From S2P Require Import Prelude.

Record EvidenceSubject := mkSubject {
  es_domain : string;
  es_issue : Qc;
  es_pr : option jsnum;
  es_run_id : string;
  es_candidate_sha : string;
  es_diff_hash : option string;
  es_policy_hash : string;
  es_engine_fingerprint : string;
  es_verifier_fingerprint : string;
  es_required_revision : string
}.

#[export] Instance EvidenceSubject_eq_dec : EqDecision EvidenceSubject.
Proof. solve_decision. Defined.

(** ** Normalization *)

(** [/[0-9a-f]/i]. *)
Definition isHexChar (c : ascii) : bool :=
  let n := nat_of_ascii c in
  ((48 <=? n) && (n <=? 57)) || ((97 <=? n) && (n <=? 102)) || ((65 <=? n) && (n <=? 70)).

Definition allHex (s : string) : bool := forallb isHexChar (chars s).

Definition isFullSha (s : string) : bool := (length (chars s) =? 40)%nat && allHex s.

Definition normalizeSubjectSha (sha : option string) : option string :=
  match sha with
  | None => None
  | Some x => let t := js_trim x in if isFullSha t then Some (lowerString t) else None
  end.

(** [t && HEX_DIGEST_RE.test(t)]. *)
Definition isDigest (t : string) : bool := bool_decide (t ≠ "") && allHex t.

Definition normalizeDigest (value : option string) : option string :=
  match value with
  | None => None
  | Some x => let t := lowerString (js_trim x) in if isDigest t then Some t else None
  end.

#[global] Arguments normalizeSubjectSha : simpl never.
#[global] Arguments normalizeDigest : simpl never.

(** ** Building a subject *)

Record SubjectInput := mkSubjectInput {
  si_domain : string;
  si_issue : jsnum;
  si_pr : option jsnum;
  si_run_id : string;
  si_candidate_sha : string;
  si_diff_hash : option string;
  si_policy_hash : string;
  si_engine_fingerprint : string;
  si_verifier_fingerprint : string;
  si_required_revision : string
}.

(** [o ?? throw new Error(message)]. *)
Definition orThrow {A} (message : string) (o : option A) : result string A :=
  match o with Some a => Ok a | None => Err ("evidence_subject: " +:+ message) end.

Definition nonEmpty (s : string) : option string := if decide (s = "") then None else Some s.

Definition buildEvidenceSubject (i : SubjectInput) : result string EvidenceSubject :=
  (try domain := orThrow "domain is required" (nonEmpty (js_trim (si_domain i))) in
   try issue := orThrow "issue must be a finite number" (match si_issue i with Fin q => Some q | NonFinite => None end) in
   try runId := orThrow "run_id is required" (nonEmpty (js_trim (si_run_id i))) in
   try candidateSha := orThrow "candidate_sha must be a full 40-character hex SHA" (normalizeSubjectSha (Some (si_candidate_sha i))) in
   try policyHash := orThrow "policy_hash must be a non-empty hex digest" (normalizeDigest (Some (si_policy_hash i))) in
   try engineFp := orThrow "engine_fingerprint must be a non-empty hex digest" (normalizeDigest (Some (si_engine_fingerprint i))) in
   try verifierFp := orThrow "verifier_fingerprint must be a non-empty hex digest" (normalizeDigest (Some (si_verifier_fingerprint i))) in
   try reqRev := orThrow "required_evidence_set_revision must be a non-empty hex digest" (normalizeDigest (Some (si_required_revision i))) in
   try diffHash := match si_diff_hash i with
                   | None => Ok None
                   | Some d => try h := orThrow "diff_hash must be hex digest or null when unavailable" (normalizeDigest (Some d)) in Ok (Some h)
                   end in
   try pr := match si_pr i with
             | Some NonFinite => orThrow "pr must be a number or null" None
             | p => Ok p
             end in
   Ok (mkSubject domain issue pr runId candidateSha diffHash policyHash engineFp verifierFp reqRev))%result.

(** ** Reading a subject *)

Inductive SubjectDefect :=
| NotAnObject
| UnsupportedVersion (version : option jval)
| DefectiveField (field : string).

Inductive ParsedSubject :=
| SubjectAbsent
| SubjectMalformed (d : SubjectDefect)
| SubjectOk (s : EvidenceSubject).

Definition stringField (fs : obj jval) (k : string) : option string :=
  match oget fs k with Some (JStr s) => Some s | _ => None end.

(** [typeof v.k !== "string" || !v.k.trim()], and then [v.k.trim()]. *)
Definition requiredText (fs : obj jval) (k : string) : option string :=
  match stringField fs k with Some s => nonEmpty (js_trim s) | None => None end.

(** The nullable digest: its key must be there. *)
Definition nullableDigest (fs : obj jval) (k : string) : option (option string) :=
  match oget fs k with
  | Some JNull => Some None
  | Some (JStr s) => Some <$> normalizeDigest (Some s)
  | _ => None
  end.

Definition orDefect {A} (field : string) (o : option A) : result SubjectDefect A :=
  match o with Some a => Ok a | None => Err (DefectiveField field) end.

Definition parseSubjectFields (fs : obj jval) : result SubjectDefect EvidenceSubject :=
  (try _ := if decide (oget fs "schema_version" = Some (JNum (num 1))) then Ok tt
            else Err (UnsupportedVersion (oget fs "schema_version")) in
   try domain := orDefect "domain" (requiredText fs "domain") in
   try issue := orDefect "issue" (match oget fs "issue" with Some (JNum (Fin q)) => Some q | _ => None end) in
   try pr := orDefect "pr" (match oget fs "pr" with Some JNull => Some None | Some (JNum n) => Some (Some n) | _ => None end) in
   try runId := orDefect "run_id" (requiredText fs "run_id") in
   try candidateSha := orDefect "candidate_sha" (normalizeSubjectSha (stringField fs "candidate_sha")) in
   try diffHash := orDefect "diff_hash" (nullableDigest fs "diff_hash") in
   try policyHash := orDefect "policy_hash" (normalizeDigest (stringField fs "policy_hash")) in
   try engineFp := orDefect "engine_fingerprint" (normalizeDigest (stringField fs "engine_fingerprint")) in
   try verifierFp := orDefect "verifier_fingerprint" (normalizeDigest (stringField fs "verifier_fingerprint")) in
   try reqRev := orDefect "required_evidence_set_revision" (normalizeDigest (stringField fs "required_evidence_set_revision")) in
   Ok (mkSubject domain issue pr runId candidateSha diffHash policyHash engineFp verifierFp reqRev))%result.

Definition parseEvidenceSubjectDetailed (value : option jval) : ParsedSubject :=
  match value with
  | None | Some JNull => SubjectAbsent
  | Some (JObj fs) =>
      match parseSubjectFields fs with
      | Ok s => SubjectOk s
      | Err d => SubjectMalformed d
      end
  | Some _ => SubjectMalformed NotAnObject
  end.

(** ** Canonical form and comparison *)

Definition canonicalizeEvidenceSubject (s : EvidenceSubject) : EvidenceSubject :=
  mkSubject (js_trim (es_domain s)) (es_issue s) (es_pr s) (js_trim (es_run_id s))
    (default (lowerString (es_candidate_sha s)) (normalizeSubjectSha (Some (es_candidate_sha s))))
    ((fun d => lowerString (js_trim d)) <$> es_diff_hash s)
    (lowerString (js_trim (es_policy_hash s))) (lowerString (js_trim (es_engine_fingerprint s)))
    (lowerString (js_trim (es_verifier_fingerprint s))) (lowerString (js_trim (es_required_revision s))).

(** The document of a subject, keys in the fixed order of
    [serializeEvidenceSubjectCanonical]. *)
Definition subjectDocument (s : EvidenceSubject) : jval :=
  JObj [("schema_version", JNum (num 1)); ("domain", JStr (es_domain s)); ("issue", JNum (Fin (es_issue s)));
        ("pr", match es_pr s with Some n => JNum n | None => JNull end); ("run_id", JStr (es_run_id s));
        ("candidate_sha", JStr (es_candidate_sha s));
        ("diff_hash", match es_diff_hash s with Some d => JStr d | None => JNull end);
        ("policy_hash", JStr (es_policy_hash s)); ("engine_fingerprint", JStr (es_engine_fingerprint s));
        ("verifier_fingerprint", JStr (es_verifier_fingerprint s));
        ("required_evidence_set_revision", JStr (es_required_revision s))].

Definition canonicalDocument (s : EvidenceSubject) : jval := subjectDocument (canonicalizeEvidenceSubject s).

Inductive SubjectField :=
| FDomain | FIssue | FPr | FRunId | FCandidateSha | FDiffHash | FPolicyHash | FEngineFingerprint | FVerifierFingerprint
| FRequiredRevision.

#[export] Instance SubjectField_eq_dec : EqDecision SubjectField.
Proof. solve_decision. Defined.

Definition EVIDENCE_SUBJECT_COMPARE_FIELDS : list SubjectField :=
  [FDomain; FIssue; FPr; FRunId; FCandidateSha; FDiffHash; FPolicyHash; FEngineFingerprint; FVerifierFingerprint;
   FRequiredRevision].

(** [s[field]], as the entry of the document. *)
Definition fieldValue (f : SubjectField) (s : EvidenceSubject) : jval :=
  match f with
  | FDomain => JStr (es_domain s)
  | FIssue => JNum (Fin (es_issue s))
  | FPr => match es_pr s with Some n => JNum n | None => JNull end
  | FRunId => JStr (es_run_id s)
  | FCandidateSha => JStr (es_candidate_sha s)
  | FDiffHash => match es_diff_hash s with Some d => JStr d | None => JNull end
  | FPolicyHash => JStr (es_policy_hash s)
  | FEngineFingerprint => JStr (es_engine_fingerprint s)
  | FVerifierFingerprint => JStr (es_verifier_fingerprint s)
  | FRequiredRevision => JStr (es_required_revision s)
  end.

Inductive SubjectOutcome := SubjectMatch | SubjectMismatch | SubjectIsMalformed | SubjectLegacyUnbound.

#[export] Instance SubjectOutcome_eq_dec : EqDecision SubjectOutcome.
Proof. solve_decision. Defined.

Record SubjectComparison := mkComparison {
  cmp_outcome : SubjectOutcome;
  cmp_mismatched : list SubjectField;
  cmp_present : bool
}.

Definition mismatchedFields (a p : EvidenceSubject) : list SubjectField :=
  filter (fun f => fieldValue f a ≠ fieldValue f p) EVIDENCE_SUBJECT_COMPARE_FIELDS.

Definition compareEvidenceSubjects (artifactSubject pinSubject : option jval) : SubjectComparison :=
  match parseEvidenceSubjectDetailed artifactSubject with
  | SubjectAbsent => mkComparison SubjectLegacyUnbound [] false
  | SubjectMalformed _ => mkComparison SubjectIsMalformed [] true
  | SubjectOk artifact =>
      match parseEvidenceSubjectDetailed pinSubject with
      | SubjectAbsent | SubjectMalformed _ => mkComparison SubjectIsMalformed [] true
      | SubjectOk pin =>
          match mismatchedFields (canonicalizeEvidenceSubject artifact) (canonicalizeEvidenceSubject pin) with
          | [] => mkComparison SubjectMatch [] true
          | fs => mkComparison SubjectMismatch fs true
          end
      end
  end.

Definition subjectIsCurrentForFields (c : SubjectComparison) (governing : list SubjectField) : bool :=
  match cmp_outcome c with
  | SubjectMatch => true
  | SubjectMismatch => negb (existsb (fun f => includes f governing) (cmp_mismatched c))
  | _ => false
  end.

(** ** Diagnostics *)

Record SubjectDiagnostic := mkDiagnostic {
  dg_kind : string;
  dg_ref : option string;
  dg_present : bool;
  dg_outcome : SubjectOutcome;
  dg_mismatched : list SubjectField;
  dg_artifact : option EvidenceSubject;
  dg_pin : option EvidenceSubject
}.

Record DiagnosticArtifact := mkArtifact { da_kind : string; da_ref : option string; da_subject : option jval }.

Definition diagnose (pin : option EvidenceSubject) (art : DiagnosticArtifact) : SubjectDiagnostic :=
  match parseEvidenceSubjectDetailed (da_subject art) with
  | SubjectAbsent => mkDiagnostic (da_kind art) (da_ref art) false SubjectLegacyUnbound [] None None
  | SubjectMalformed _ => mkDiagnostic (da_kind art) (da_ref art) true SubjectIsMalformed [] None None
  | SubjectOk s =>
      let cmp := compareEvidenceSubjects (Some (subjectDocument s)) (subjectDocument <$> pin) in
      mkDiagnostic (da_kind art) (da_ref art) true (cmp_outcome cmp) (cmp_mismatched cmp)
        (Some (canonicalizeEvidenceSubject s)) (canonicalizeEvidenceSubject <$> pin)
  end.

Definition buildEvidenceSubjectDiagnostics (pin : option EvidenceSubject) (artifacts : list DiagnosticArtifact)
    : list SubjectDiagnostic := diagnose pin <$> artifacts.

(** The last well-formed subject of a list of artifacts. *)
Fixpoint lastSubject (rev : list DiagnosticArtifact) : option EvidenceSubject :=
  match rev with
  | [] => None
  | art :: rest =>
      match parseEvidenceSubjectDetailed (da_subject art) with
      | SubjectOk s => Some (canonicalizeEvidenceSubject s)
      | _ => lastSubject rest
      end
  end.

Definition selectEvaluationPinSubject (artifacts : list DiagnosticArtifact) : option EvidenceSubject :=
  lastSubject (reverse artifacts).

(** ** Well-formed subjects *)

Lemma lower_idem c : lower (lower c) = lower c.
Proof. destruct c as [[] [] [] [] [] [] [] []]; reflexivity. Qed.

Lemma lower_hex c : isHexChar (lower c) = isHexChar c.
Proof. destruct c as [[] [] [] [] [] [] [] []]; reflexivity. Qed.

Lemma hex_not_space c : isHexChar c = true → js_space c = false.
Proof. destruct c as [[] [] [] [] [] [] [] []]; (reflexivity || discriminate). Qed.

Lemma chars_lower s : chars (lowerString s) = lower <$> chars s.
Proof. apply String.list_ascii_of_string_of_list_ascii. Qed.

Lemma lowerString_idem s : lowerString (lowerString s) = lowerString s.
Proof.
  unfold lowerString at 1. rewrite chars_lower, <-list_fmap_compose. unfold lowerString. f_equal.
  apply list_fmap_ext. intros ? c _. apply lower_idem.
Qed.

Lemma allHex_lower s : allHex (lowerString s) = allHex s.
Proof.
  unfold allHex. rewrite chars_lower. induction (chars s) as [|c l IH]; [done|].
  cbn [fmap list_fmap forallb]. by rewrite lower_hex, IH.
Qed.

Lemma drop_spaces_hex l : forallb isHexChar l = true → drop_spaces l = l.
Proof. destruct l as [|c l]; simpl; [done|]. intros [Hc _]%andb_prop. by rewrite (hex_not_space _ Hc). Qed.

Lemma trim_hex s : allHex s = true → js_trim s = s.
Proof.
  unfold allHex, js_trim, trim. intros H. rewrite (drop_spaces_hex (chars s)) by done.
  rewrite drop_spaces_hex, reverse_involutive; [by rewrite String.string_of_list_ascii_of_string|].
  apply forallb_elem. intros c Hc. rewrite forallb_elem in H. apply H. by apply elem_of_reverse.
Qed.

Lemma normalizeDigest_stable o t : normalizeDigest o = Some t → normalizeDigest (Some t) = Some t ∧ lowerString (js_trim t) = t.
Proof.
  unfold normalizeDigest. destruct o as [x|]; [|done]. destruct (isDigest _) eqn:Hd; [|done]. intros [= <-].
  pose proof Hd as [_ Hh]%andb_prop. rewrite trim_hex, lowerString_idem by done. by rewrite Hd.
Qed.

Lemma normalizeDigest_again o t : normalizeDigest o = Some t → normalizeDigest (Some t) = Some t.
Proof. intros H. by apply normalizeDigest_stable in H as [? _]. Qed.

Lemma normalizeSha_stable o t : normalizeSubjectSha o = Some t → normalizeSubjectSha (Some t) = Some t.
Proof.
  unfold normalizeSubjectSha, isFullSha. destruct o as [x|]; [|done]. destruct (_ && _) eqn:Hd; [|done]. intros [= <-].
  apply andb_prop in Hd as [Hl Hh]. rewrite trim_hex by by rewrite allHex_lower.
  rewrite chars_lower, length_fmap, Hl, allHex_lower, Hh. simpl. by rewrite lowerString_idem.
Qed.

Lemma nonEmpty_Some s t : nonEmpty s = Some t ↔ s = t ∧ t ≠ "".
Proof. unfold nonEmpty. case_decide; naive_solver. Qed.

(** The law of subjects that were built or read. *)
Record WellFormedSubject (s : EvidenceSubject) : Prop := {
  wf_domain : nonEmpty (js_trim (es_domain s)) = Some (es_domain s);
  wf_run_id : nonEmpty (js_trim (es_run_id s)) = Some (es_run_id s);
  wf_sha : normalizeSubjectSha (Some (es_candidate_sha s)) = Some (es_candidate_sha s);
  wf_diff : ∀ d, es_diff_hash s = Some d → normalizeDigest (Some d) = Some d;
  wf_policy : normalizeDigest (Some (es_policy_hash s)) = Some (es_policy_hash s);
  wf_engine : normalizeDigest (Some (es_engine_fingerprint s)) = Some (es_engine_fingerprint s);
  wf_verifier : normalizeDigest (Some (es_verifier_fingerprint s)) = Some (es_verifier_fingerprint s);
  wf_revision : normalizeDigest (Some (es_required_revision s)) = Some (es_required_revision s)
}.

Lemma trimmed_nonEmpty x t : nonEmpty (js_trim x) = Some t → nonEmpty (js_trim t) = Some t.
Proof. rewrite nonEmpty_Some. intros [<- H]. rewrite js_trim_idem. by apply nonEmpty_Some. Qed.

Lemma requiredText_stable fs k t : requiredText fs k = Some t → nonEmpty (js_trim t) = Some t.
Proof. unfold requiredText. destruct (stringField fs k); [apply trimmed_nonEmpty|done]. Qed.

Lemma nullableDigest_stable fs k o d : nullableDigest fs k = Some o → o = Some d → normalizeDigest (Some d) = Some d.
Proof.
  unfold nullableDigest. destruct (oget fs k) as [[]|]; try done; [naive_solver|]. intros (h & Hh & Heq)%fmap_Some ->.
  simplify_eq. by eapply normalizeDigest_again.
Qed.

Lemma orDefect_Ok {A} k (o : option A) a : orDefect k o = Ok a → o = Some a.
Proof. destruct o; simpl; congruence. Qed.

Lemma orThrow_Ok {A} k (o : option A) a : orThrow k o = Ok a → o = Some a.
Proof. destruct o; simpl; congruence. Qed.

Local Ltac stable := eauto using requiredText_stable, trimmed_nonEmpty, normalizeSha_stable, nullableDigest_stable, normalizeDigest_again.

Lemma parseFields_wf fs s : parseSubjectFields fs = Ok s → WellFormedSubject s.
Proof.
  unfold parseSubjectFields. case_decide; [|done]. simpl. intros Hp. repeat inv_bind Hp. injection Hp as <-.
  repeat match goal with E : orDefect _ _ = Ok _ |- _ => apply orDefect_Ok in E end.
  split; simpl; stable.
Qed.

Lemma parse_wf v s : parseEvidenceSubjectDetailed v = SubjectOk s → WellFormedSubject s.
Proof.
  unfold parseEvidenceSubjectDetailed. destruct v as [[]|]; try done. destruct (parseSubjectFields fields) eqn:E; [|done].
  intros [= <-]. by eapply parseFields_wf.
Qed.

Lemma build_wf i s : buildEvidenceSubject i = Ok s → WellFormedSubject s ∧ es_pr s ≠ Some NonFinite.
Proof.
  unfold buildEvidenceSubject. intros H. repeat inv_bind H. injection H as <-.
  repeat match goal with E : orThrow _ _ = Ok _ |- _ => apply orThrow_Ok in E end.
  split; [|simpl; destruct (si_pr i) as [[]|]; naive_solver].
  split; simpl; stable.
  intros d ->. destruct (si_diff_hash i) as [h|]; [|done].
  match goal with E : rbind _ _ = Ok _ |- _ => inv_bind E; injection E as <- end.
  match goal with E : orThrow _ _ = Ok _ |- _ => apply orThrow_Ok in E end. stable.
Qed.

Lemma wf_canonical s : WellFormedSubject s → canonicalizeEvidenceSubject s = s.
Proof.
  intros [Hd Hr Hs Hh Hp He Hv Hq]. destruct s as [dom iss pr run sha dh ph ef vf rr]; simpl in *.
  unfold canonicalizeEvidenceSubject. cbn [es_domain es_issue es_pr es_run_id es_candidate_sha es_diff_hash es_policy_hash
    es_engine_fingerprint es_verifier_fingerprint es_required_revision]. rewrite Hs.
  apply nonEmpty_Some in Hd as [-> _], Hr as [-> _].
  apply normalizeDigest_stable in Hp as [_ ->], He as [_ ->], Hv as [_ ->], Hq as [_ ->].
  f_equal. destruct dh as [d|]; [|done]. destruct (normalizeDigest_stable _ _ (Hh d eq_refl)) as [_ Hx]. simpl. by rewrite Hx.
Qed.

Lemma wf_document s : WellFormedSubject s → parseEvidenceSubjectDetailed (Some (subjectDocument s)) = SubjectOk s.
Proof.
  intros [Hd Hr Hs Hh Hp He Hv Hq]. destruct s as [dom iss pr run sha dh ph ef vf rr].
  cbn [es_domain es_run_id es_candidate_sha es_diff_hash es_policy_hash es_engine_fingerprint es_verifier_fingerprint
    es_required_revision] in *.
  unfold parseEvidenceSubjectDetailed, subjectDocument, parseSubjectFields, requiredText, nullableDigest, stringField.
  cbn [oget decide decide_rel String.eq_dec es_domain es_issue es_pr es_run_id es_candidate_sha es_diff_hash es_policy_hash
    es_engine_fingerprint es_verifier_fingerprint es_required_revision].
  rewrite decide_True by done. simpl. rewrite Hd. simpl.
  destruct pr as [n|]; simpl; rewrite Hr; simpl; rewrite Hs; simpl;
    (destruct dh as [d|]; simpl; [rewrite (Hh d eq_refl)|]; simpl; rewrite Hp; simpl; rewrite He; simpl; rewrite Hv; simpl; by rewrite Hq).
Qed.

Lemma fieldValues_eq s t : (∀ f, fieldValue f s = fieldValue f t) → s = t.
Proof.
  intros H. pose proof (H FDomain) as H0. pose proof (H FIssue) as H1. pose proof (H FPr) as H2. pose proof (H FRunId) as H3.
  pose proof (H FCandidateSha) as H4. pose proof (H FDiffHash) as H5. pose proof (H FPolicyHash) as H6.
  pose proof (H FEngineFingerprint) as H7. pose proof (H FVerifierFingerprint) as H8. pose proof (H FRequiredRevision) as H9.
  clear H. destruct s, t; simpl in *. f_equal; try congruence; repeat case_match; congruence.
Qed.

Lemma mismatched_elem f s t : f ∈ mismatchedFields s t ↔ fieldValue f s ≠ fieldValue f t.
Proof.
  unfold mismatchedFields. rewrite list_elem_of_filter. split; [by intros [? _]|]. intros H. split; [done|].
  apply (bool_decide_unpack (f ∈ EVIDENCE_SUBJECT_COMPARE_FIELDS)). destruct f; vm_compute; exact I.
Qed.

Lemma mismatched_nil s t : mismatchedFields s t = [] ↔ s = t.
Proof.
  split.
  - intros H. apply fieldValues_eq. intros f. destruct (decide (fieldValue f s = fieldValue f t)) as [|Hne]; [done|].
    apply mismatched_elem in Hne. rewrite H in Hne. inversion Hne.
  - intros ->. destruct (mismatchedFields t t) as [|f l] eqn:E; [done|].
    assert (f ∈ mismatchedFields t t) as Hf by (rewrite E; left). by apply mismatched_elem in Hf.
Qed.

(** A subject survives storage: what was built from runtime inputs is read
    back from its document unchanged and is its own canonical form, and a
    subject read from any document is read back the same from its canonical
    document. *)
Theorem subject_roundtrip :
  (∀ i s, buildEvidenceSubject i = Ok s →
    canonicalizeEvidenceSubject s = s ∧ parseEvidenceSubjectDetailed (Some (canonicalDocument s)) = SubjectOk s) ∧
  (∀ v s, parseEvidenceSubjectDetailed v = SubjectOk s → parseEvidenceSubjectDetailed (Some (canonicalDocument s)) = SubjectOk s).
Proof.
  unfold canonicalDocument. split.
  - intros i s [Hs _]%build_wf. rewrite wf_canonical by done. split; [done|by apply wf_document].
  - intros v s Hs%parse_wf. rewrite wf_canonical by done. by apply wf_document.
Qed.

Lemma compare_cases a p :
  compareEvidenceSubjects a p =
  match parseEvidenceSubjectDetailed a, parseEvidenceSubjectDetailed p with
  | SubjectAbsent, _ => mkComparison SubjectLegacyUnbound [] false
  | SubjectOk s, SubjectOk t =>
      if decide (s = t) then mkComparison SubjectMatch [] true
      else mkComparison SubjectMismatch (mismatchedFields s t) true
  | _, _ => mkComparison SubjectIsMalformed [] true
  end.
Proof.
  unfold compareEvidenceSubjects. destruct (parseEvidenceSubjectDetailed a) as [|?|s] eqn:Ea; [done..|].
  destruct (parseEvidenceSubjectDetailed p) as [|?|t] eqn:Ep; [done..|].
  rewrite !wf_canonical by by eapply parse_wf.
  destruct (mismatchedFields s t) as [|f l] eqn:Em.
  - apply mismatched_nil in Em as ->. by rewrite decide_True.
  - rewrite decide_False; [done|]. intros Heq. apply mismatched_nil in Heq. congruence.
Qed.

(** The comparison is exact and fails closed: it reports a match exactly
    when both sides are read as the same subject, a mismatch exactly when both
    are read and differ, with exactly the differing dimensions; an absent or
    malformed side, the pin included, is never current, and currency for some
    fields means that both sides were read and agree on these. *)
Theorem subject_comparison_exact a p fields :
  (cmp_outcome (compareEvidenceSubjects a p) = SubjectMatch ↔
   ∃ s, parseEvidenceSubjectDetailed a = SubjectOk s ∧ parseEvidenceSubjectDetailed p = SubjectOk s) ∧
  (cmp_outcome (compareEvidenceSubjects a p) = SubjectMismatch ↔
   ∃ s t, parseEvidenceSubjectDetailed a = SubjectOk s ∧ parseEvidenceSubjectDetailed p = SubjectOk t ∧ s ≠ t) ∧
  (subjectIsCurrentForFields (compareEvidenceSubjects a p) fields = true ↔
   ∃ s t, parseEvidenceSubjectDetailed a = SubjectOk s ∧ parseEvidenceSubjectDetailed p = SubjectOk t ∧
     ∀ f, f ∈ fields → fieldValue f s = fieldValue f t).
Proof.
  rewrite compare_cases. unfold subjectIsCurrentForFields.
  destruct (parseEvidenceSubjectDetailed a) as [|?|s]; simpl; [naive_solver..|].
  destruct (parseEvidenceSubjectDetailed p) as [|?|t]; simpl; [naive_solver..|].
  case_decide as Heq; simpl; [subst; naive_solver|]. split; [naive_solver|]. split; [naive_solver|].
  rewrite negb_true_iff, existsb_not_elem. setoid_rewrite mismatched_elem. setoid_rewrite includes_false. split.
  - intros H. exists s, t. split; [done|]. split; [done|]. intros f Hf.
    destruct (decide (fieldValue f s = fieldValue f t)) as [|Hne]; [done|]. by destruct (H f Hne).
  - intros (s' & t' & [= <-] & [= <-] & Hf) f Hne Hin. by apply Hne, Hf.
Qed.

Module SubjectSample.
Definition hash (c : string) : string := c +:+ c +:+ c +:+ c.
Definition sha : string := hash "ABCDEF0123".
Definition input : SubjectInput :=
  mkSubjectInput " acme/app " (num 7) (Some (num 12)) "run-1" sha None (hash "AA") (hash "bb") (hash "cc") (hash "dd").
Definition subject : EvidenceSubject :=
  mkSubject "acme/app" (Q2Qc 7) (Some (num 12)) "run-1" (hash "abcdef0123") None (hash "aa") (hash "bb") (hash "cc") (hash "dd").

Example build_normalizes : buildEvidenceSubject input = Ok subject.
Proof. vm_compute. reflexivity. Qed.

Example moved_head_is_named :
  cmp_mismatched (compareEvidenceSubjects (Some (subjectDocument subject))
    (Some (subjectDocument (mkSubject "acme/app" (Q2Qc 7) (Some (num 12)) "run-1" (hash "0000000000") None (hash "aa")
       (hash "bb") (hash "cc") (hash "dd"))))) = [FCandidateSha].
Proof. vm_compute. reflexivity. Qed.

(** The premise of [subject_roundtrip] at the sample. *)
Lemma subject_roundtrip_witness :
  buildEvidenceSubject input = Ok subject ∧ parseEvidenceSubjectDetailed (Some (canonicalDocument subject)) = SubjectOk subject.
Proof. split; [vm_compute; reflexivity|]. apply (proj1 subject_roundtrip input subject). vm_compute. reflexivity. Defined.
End SubjectSample.
