(* ===== verification/OverrideGovernance.v ===== *)
(** * Governed overrides

    [core/scripts/override-governance.ts], with the reading of decisions from
    comments in [core/scripts/review-policy.ts] and the recording command of
    [core/scripts/pipeline.ts]: who may override, with which evidence, for how
    long, and which recorded decisions still count.  A comment is modelled by
    what its marker lines read as. *)

From Stdlib Require Import QArith Qcanon Qround Ascii.
From stdpp Require Import base numbers gmap strings list pretty.
From S2P Require Import Prelude ReviewFindings EvidenceSubject.

(** ** Policy *)

Inductive RenewalMode := RenewLite | RenewHuman | RenewNone.
Inductive HumanTrigger := FingerprintDrift | RegionDrift | SubjectMismatchDrift | PolicyChange.
Inductive SodRole := RoleImplementer | RoleFindingAuthor.

#[export] Instance RenewalMode_eq_dec : EqDecision RenewalMode.
Proof. solve_decision. Defined.
#[export] Instance HumanTrigger_eq_dec : EqDecision HumanTrigger.
Proof. solve_decision. Defined.
#[export] Instance SodRole_eq_dec : EqDecision SodRole.
Proof. solve_decision. Defined.

Inductive ApproverRule :=
| RuleIdentity (identity : string)
| RuleGroup (group : string)
| RuleRole (role : string)
| RuleAllowlist.

Record OverrideClassPolicy := mkClassPolicy {
  cp_max_duration_hours : jsnum;
  cp_required_evidence : list string;
  cp_renewal_mode : RenewalMode;
  cp_require_human_on : list HumanTrigger;
  cp_approvers : list ApproverRule;
  cp_sod_enabled : bool;
  cp_sod_roles : list SodRole
}.

Record OverrideGovernance := mkGovernance {
  gv_classes : obj OverrideClassPolicy;
  gv_default_class : option string;
  gv_implicit : bool
}.

Definition IMPLICIT_LOW_RISK_CLASS : string := "low_risk_deferred".
Definition IMPLICIT_MAX_DURATION_HOURS : Z := 720.

Definition implicitOverrideGovernance : OverrideGovernance :=
  mkGovernance
    [(IMPLICIT_LOW_RISK_CLASS,
      mkClassPolicy (num IMPLICIT_MAX_DURATION_HOURS) [] RenewLite [FingerprintDrift; RegionDrift; SubjectMismatchDrift]
        [RuleAllowlist] false [])]
    (Some IMPLICIT_LOW_RISK_CLASS) true.

Definition getClassPolicy (g : OverrideGovernance) (classId : string) : option OverrideClassPolicy := oget (gv_classes g) classId.

(** A truthyText string that names a class. *)
Definition knownClass (g : OverrideGovernance) (c : option string) : bool :=
  match c with
  | Some c => bool_decide (c ≠ "") && bool_decide (is_Some (getClassPolicy g c))
  | None => false
  end.

Definition resolveClassId (g : OverrideGovernance) (explicitClass : option string) : result string string :=
  let named := default "" explicitClass in
  if bool_decide (named ≠ "") then
    if knownClass g explicitClass then Ok named
    else Err ("Unknown override class " +:+ quoted named +:+ ". Known classes: " +:+
           (let names := join ", " (js_sort (okeys (gv_classes g))) in if decide (names = "") then "(none)" else names) +:+ ".")
  else if knownClass g (gv_default_class g) then Ok (default "" (gv_default_class g))
  else if gv_implicit g && knownClass g (Some IMPLICIT_LOW_RISK_CLASS) then Ok IMPLICIT_LOW_RISK_CLASS
  else Err ("Override class is required when override_governance is configured without default_class. Use " +:+
         quoted "<key>: <class>: <reason>" +:+ " or set default_class in config.").

(** *** The configuration block *)

Record ClassBlock := mkClassBlock {
  cb_max_duration_hours : jsnum;
  cb_required_evidence : option (list string);
  cb_renewal_mode : RenewalMode;
  cb_require_human_on : option (list HumanTrigger);
  cb_approvers : option (list ApproverRule);
  cb_sod_enabled : option bool;
  cb_sod_roles : option (list SodRole)
}.

Record GovernanceBlock := mkGovernanceBlock { gb_classes : obj ClassBlock; gb_default_class : option string }.

(** [/^[a-z][a-z0-9_]*$/]. *)
Definition isClassId (id : string) : bool :=
  let lowercase c := let n := nat_of_ascii c in ((97 <=? n) && (n <=? 122))%nat in
  let digit c := let n := nat_of_ascii c in ((48 <=? n) && (n <=? 57))%nat in
  match chars id with
  | [] => false
  | c :: rest => lowercase c && forallb (fun c => lowercase c || digit c || (nat_of_ascii c =? 95)%nat) rest
  end.

Definition classOfBlock (raw : ClassBlock) : OverrideClassPolicy :=
  mkClassPolicy (cb_max_duration_hours raw) (default [] (cb_required_evidence raw)) (cb_renewal_mode raw)
    (default [] (cb_require_human_on raw)) (default [] (cb_approvers raw)) (default false (cb_sod_enabled raw))
    (default [] (cb_sod_roles raw)).

Definition addClass (classes : obj OverrideClassPolicy) (p : string * ClassBlock) : result string (obj OverrideClassPolicy) :=
  if isClassId p.1 then Ok (oset p.1 (classOfBlock p.2) classes)
  else Err ("override_governance.classes key " +:+ quoted p.1 +:+ " is invalid — use lowercase snake_case class ids").

Definition resolveOverrideGovernanceConfig (block : option GovernanceBlock) : result string OverrideGovernance :=
  match block with
  | None => Ok implicitOverrideGovernance
  | Some b =>
      let named := default "" (gb_default_class b) in
      if decide (gb_classes b = []) then Err "override_governance.classes must define at least one class when the block is present"
      else if bool_decide (named ≠ "") && bool_decide (oget (gb_classes b) named = None)
      then Err ("override_governance.default_class " +:+ quoted named +:+ " is not in classes (known: " +:+
             join ", " (js_sort (okeys (gb_classes b))) +:+ ")")
      else (try classes := rfold addClass [] (gb_classes b) in Ok (mkGovernance classes (gb_default_class b) false))%result
  end.

(** ** Authority and separation of duties *)

Record Authorization := mkAuthorization {
  az_authorized : bool;
  az_matched_rule : option string;
  az_evidence : string;
  az_identity_source : string
}.

(** The identity service; either call may be missing. *)
Record IdentityAdapter := mkAdapter {
  ad_members : option (string → list string);
  ad_has_role : option (string → string → bool)
}.

Inductive Refusal :=
| Unauthenticated | Unauthorized | SodViolation | MissingEvidence | UnknownClass | EmptyExplanation.

#[export] Instance Refusal_eq_dec : EqDecision Refusal.
Proof. solve_decision. Defined.

Definition sameLogin (a b : string) : bool := bool_decide (lowerString a = lowerString b).

(** The roles of [forbid_roles] the actor plays; an unknown party is nobody. *)
Definition playsRole (actor : string) (party : option string) : bool :=
  match party with Some p => bool_decide (p ≠ "") && sameLogin p actor | None => false end.

Definition checkOverrideSeparationOfDuties (enabled : bool) (forbidRoles : list SodRole) (actor : string)
    (implementer findingAuthor : option string) : list SodRole :=
  if negb enabled then []
  else (if includes RoleImplementer forbidRoles && playsRole actor implementer then [RoleImplementer] else []) ++
       (if includes RoleFindingAuthor forbidRoles && playsRole actor findingAuthor then [RoleFindingAuthor] else []).

Definition sod_role_name (r : SodRole) : string :=
  match r with RoleImplementer => "implementer" | RoleFindingAuthor => "finding_author" end.

Definition ruleId (rule : ApproverRule) (index : nat) : string :=
  match rule with
  | RuleIdentity i => "identity:" +:+ i
  | RuleGroup g => "group_ref:" +:+ g
  | RuleRole r => "role:" +:+ r
  | RuleAllowlist => "trusted_override_actors_allowlist"
  end +:+ "#" +:+ pretty index.

(** The evidence text when a rule accepts the actor. *)
Definition ruleAccepts (implicit : bool) (allowlist : list string) (adapter : IdentityAdapter) (actor : string)
    (rule : ApproverRule) : option string :=
  match rule with
  | RuleIdentity i => if sameLogin actor i then Some ("identity match for actor " +:+ actor) else None
  | RuleGroup g =>
      let members := match ad_members adapter with Some f => f g | None => [] end in
      if existsb (sameLogin actor) members then Some ("group_ref " +:+ g +:+ " membership for " +:+ actor) else None
  | RuleRole r =>
      if match ad_has_role adapter with Some f => f actor r | None => false end
      then Some ("role " +:+ r +:+ " for " +:+ actor) else None
  | RuleAllowlist =>
      if implicit then Some ("trusted_override_actors_allowlist (implicit) accepts " +:+ actor)
      else if decide (allowlist = []) then Some ("trusted_override_actors_allowlist empty — authenticated " +:+ actor)
      else if existsb (sameLogin actor) allowlist then Some ("trusted_override_actors allowlist includes " +:+ actor)
      else None
  end.

(** The loop over the rules: the first that accepts, with its index. *)
Fixpoint firstRule (accepts : ApproverRule → option string) (index : nat) (rules : list ApproverRule) : option (string * string) :=
  match rules with
  | [] => None
  | rule :: rest =>
      match accepts rule with
      | Some evidence => Some (ruleId rule index, evidence)
      | None => firstRule accepts (S index) rest
      end
  end.

Record AuthorizeInput := mkAuthorize {
  ai_actor : option string;
  ai_identity_source : string;
  ai_allowlist : list string;
  ai_implicit : bool;
  ai_adapter : IdentityAdapter;
  ai_implementer : option string;
  ai_finding_author : option string
}.

Definition authorizeOverrideActor (i : AuthorizeInput) (policy : OverrideClassPolicy) : result (Refusal * string) Authorization :=
  match ai_actor i with
  | None => Err (Unauthenticated, "actor is null or empty — fail closed")
  | Some raw =>
      if blank raw then Err (Unauthenticated, "actor is null or empty — fail closed")
      else
        let actor := js_trim raw in
        match checkOverrideSeparationOfDuties (cp_sod_enabled policy) (cp_sod_roles policy) actor (ai_implementer i) (ai_finding_author i) with
        | _ :: _ as violated =>
            Err (SodViolation, "separation of duties forbids override by roles: " +:+ join ", " (sod_role_name <$> violated))
        | [] =>
            let rules := cp_approvers policy in
            if decide (rules = []) then
              if ai_implicit i
              then Ok (mkAuthorization true (Some "implicit:any_authenticated")
                     ("implicit governance accepts authenticated actor " +:+ actor) (ai_identity_source i))
              else Err (Unauthorized, "no approver rules configured for class")
            else
              match firstRule (ruleAccepts (ai_implicit i) (ai_allowlist i) (ai_adapter i) actor) 0 rules with
              | Some (id, evidence) => Ok (mkAuthorization true (Some id) evidence (ai_identity_source i))
              | None => Err (Unauthorized, "actor " +:+ actor +:+ " matched no approver rule")
              end
        end
  end.

(** ** Evidence references *)

Definition isWordStart (c : ascii) : bool :=
  let n := nat_of_ascii c in ((65 <=? n) && (n <=? 90)) || ((97 <=? n) && (n <=? 122)) || (n =? 95)%nat.

(** [/\w/]. *)
Definition isWordChar (c : ascii) : bool :=
  let n := nat_of_ascii c in isWordStart c || ((48 <=? n) && (n <=? 57)).

Fixpoint takeWhile (p : ascii → bool) (l : list ascii) : list ascii :=
  match l with
  | [] => []
  | c :: l' => if p c then c :: takeWhile p l' else []
  end.

(** [/\b([a-z_]+)=(\S+)/gi] over a text: the matches and what is between them.
    [inWord] says that the previous character is a word character.  Every turn
    consumes a character, so the length of the text is enough fuel. *)
Fixpoint scanTokens (fuel : nat) (inWord : bool) (l : list ascii) : list (string * string) * list ascii :=
  match fuel, l with
  | S fuel', c :: l' =>
      let name := takeWhile isWordStart l in
      let after := drop (length name) l in
      let value := match after with
                   | e :: rest => if (nat_of_ascii e =? 61)%nat then takeWhile (fun c => negb (js_space c)) rest else []
                   | [] => []
                   end in
      if negb inWord && bool_decide (name ≠ []) && bool_decide (value ≠ [])
      then let (tokens, text) := scanTokens fuel' (match last value with Some c => isWordChar c | None => false end)
                                   (drop (S (length value)) after) in
           ((unchars name, unchars value) :: tokens, text)
      else let (tokens, text) := scanTokens fuel' (isWordChar c) l' in (tokens, c :: text)
  | _, _ => ([], [])
  end.

Definition parseEvidenceRefTokens (text : string) : obj string :=
  foldl (fun refs p => oset (lowerString p.1) p.2 refs) [] (scanTokens (length (chars text)) false (chars text)).1.

Definition stripEvidenceRefTokens (text : string) : string :=
  unchars (trim (collapse false (scanTokens (length (chars text)) false (chars text)).2)).

Definition missingRequiredEvidence (policy : OverrideClassPolicy) (evidenceRefs remediationRefs : obj string) : list string :=
  filter (fun kind =>
    let v := match oget evidenceRefs kind with Some v => Some v | None => oget remediationRefs kind end in
    blank (default "" v) = true) (cp_required_evidence policy).

(** ** Decisions *)

Inductive OverrideTarget :=
| TargetKey (key : string)
| TargetScope (type : ScopeType) (value : string).

#[export] Instance OverrideTarget_eq_dec : EqDecision OverrideTarget.
Proof. solve_decision. Defined.

Definition targetKey (t : OverrideTarget) : string :=
  match t with
  | TargetKey k => "key:" +:+ k
  | TargetScope ty v => "scope:" +:+ scope_type_name ty +:+ ":" +:+ v
  end.

Inductive StoredLifecycle := StoredActive | StoredSuperseded | StoredRenewed | StoredRejected | StoredOther.

#[export] Instance StoredLifecycle_eq_dec : EqDecision StoredLifecycle.
Proof. solve_decision. Defined.

Record OverrideDecision := mkDecision {
  d_id : string;
  d_class : string;
  d_disposition : string;
  d_target : OverrideTarget;
  d_explanation : string;
  d_actor : string;
  d_identity_source : string;
  d_authorization : Authorization;
  d_evidence_refs : obj string;
  d_remediation_refs : obj string;
  d_subject : option jval;
  d_fingerprint : option string;
  d_code_region : option string;
  d_created_at : string;
  d_expires_at : string;
  d_lifecycle : StoredLifecycle;
  d_supersedes : option string;
  d_renewed_from : option string;
  d_renewal_kind : option RenewalMode;
  d_legacy_compat : bool
}.

#[export] Instance Authorization_eq_dec : EqDecision Authorization.
Proof. solve_decision. Defined.
#[export] Instance OverrideDecision_eq_dec : EqDecision OverrideDecision.
Proof. solve_decision. Defined.

Section Governance.
(** [Date.parse], [None] for [NaN], and [new Date(ms).toISOString()] without its
    milliseconds, [None] where it throws. *)
Context (Date_parse : string → option Z) (isoOfMs : Z → option string) (showNum : jsnum → string).

Definition computeExpiresAt (createdAt : string) (maxDurationHours : jsnum) : result string string :=
  match Date_parse createdAt with
  | None => Err ("invalid created_at: " +:+ createdAt)
  | Some created =>
      match maxDurationHours with
      | Fin q =>
          if isInteger maxDurationHours && num_geb maxDurationHours 1 then
            match isoOfMs (created + Qfloor q * 3600000) with
            | Some iso => Ok iso
            | None => Err "Invalid time value"
            end
          else Err ("invalid max_duration_hours: " +:+ showNum maxDurationHours)
      | NonFinite => Err ("invalid max_duration_hours: " +:+ showNum maxDurationHours)
      end
  end.

(** What a new decision carries besides its target and times. *)
Record DecisionInput := mkDecisionInput {
  di_id : string;
  di_class : string;
  di_disposition : string;
  di_target : OverrideTarget;
  di_explanation : string;
  di_actor : string;
  di_identity_source : string;
  di_authorization : Authorization;
  di_evidence_refs : obj string;
  di_remediation_refs : obj string;
  di_subject : option jval;
  di_fingerprint : option string;
  di_code_region : option string;
  di_created_at : string;
  di_max_duration_hours : jsnum;
  di_supersedes : option string;
  di_renewed_from : option string;
  di_renewal_kind : option RenewalMode
}.

Definition buildOverrideDecision (i : DecisionInput) : result string OverrideDecision :=
  (try expires := computeExpiresAt (di_created_at i) (di_max_duration_hours i) in
   Ok (mkDecision (di_id i) (di_class i) (di_disposition i) (di_target i) (di_explanation i) (di_actor i)
     (di_identity_source i) (di_authorization i) (di_evidence_refs i) (di_remediation_refs i) (di_subject i)
     (di_fingerprint i) (di_code_region i) (di_created_at i) expires StoredActive (di_supersedes i) (di_renewed_from i)
     (di_renewal_kind i) false))%result.

(** ** Validity *)

Inductive ValidityStatus :=
| VActive | VExpired | VSuperseded | VRenewed | VRejected | VInvalidated | VUnauthorized | VMalformed | VScopeMismatch.

#[export] Instance ValidityStatus_eq_dec : EqDecision ValidityStatus.
Proof. solve_decision. Defined.

Record LiveContext := mkLive {
  lv_fingerprint : option string;
  lv_code_region : option string;
  lv_scope_matches : option bool
}.

Definition noLive : LiveContext := mkLive None None None.

(** [o] as a condition. *)
Definition truthyText (o : option string) : bool := match o with Some s => bool_decide (s ≠ "") | None => false end.

(** [a && b && a !== b]. *)
Definition drifted (a b : option string) : bool := truthyText a && truthyText b && bool_decide (a ≠ b).

Definition GOVERNED_FIELDS : list SubjectField :=
  [FCandidateSha; FPolicyHash; FVerifierFingerprint; FEngineFingerprint; FDiffHash; FRequiredRevision].

(** The subject of the decision is out of date for the one under evaluation. *)
Definition subjectStale (subject : option jval) (pin : option EvidenceSubject) : bool :=
  match pin with
  | None => false
  | Some p =>
      if falsy subject then false
      else let cmp := compareEvidenceSubjects subject (Some (subjectDocument p)) in
           match cmp_outcome cmp with
           | SubjectIsMalformed => true
           | SubjectMismatch => existsb (fun f => includes f GOVERNED_FIELDS) (cmp_mismatched cmp)
           | _ => false
           end
  end.

(** A decision is not re-authorized here: the callers pass no [reauthorize]. *)
Definition evaluateOverrideValidity (d : OverrideDecision) (pin : option EvidenceSubject) (live : LiveContext)
    (policy : option OverrideClassPolicy) (now : Z) (supersededBy renewedBy : option string) : ValidityStatus :=
  if decide (d_lifecycle d = StoredRejected) then VRejected
  else if truthyText supersededBy || bool_decide (d_lifecycle d = StoredSuperseded) then VSuperseded
  else if truthyText renewedBy || bool_decide (d_lifecycle d = StoredRenewed) then VRenewed
  else if match d_target d with TargetScope _ _ => bool_decide (lv_scope_matches live = Some false) | _ => false end
  then VScopeMismatch
  else if match Date_parse (d_expires_at d) with Some ms => bool_decide (ms ≤ now)%Z | None => false end then VExpired
  else if negb (az_authorized (d_authorization d)) && negb (d_legacy_compat d) then VUnauthorized
  else if subjectStale (d_subject d) pin then VInvalidated
  else if match d_target d with
          | TargetKey _ => drifted (d_fingerprint d) (lv_fingerprint live) || drifted (d_code_region d) (lv_code_region live)
          | TargetScope _ _ => false
          end then VInvalidated
  else match policy with
       | None => if d_legacy_compat d then VActive else VMalformed
       | Some _ => VActive
       end.

(** ** The active projection *)

Record Successor := mkSuccessor { sc_supersedes : option string; sc_renews : option string }.

Abbreviation Successors := (gmap string Successor).

Definition successorAt (m : Successors) (id : string) : Successor := default (mkSuccessor None None) (m !! id).

Definition markSuperseded (by_ id : string) (m : Successors) : Successors :=
  <[id := mkSuccessor (Some by_) (sc_renews (successorAt m id))]> m.

Definition markRenewed (by_ id : string) (m : Successors) : Successors :=
  <[id := mkSuccessor (sc_supersedes (successorAt m id)) (Some by_)]> m.

(** One turn of the inner loop; [earlier] is the previous decision of the same
    target. *)
Definition linkDecision (earlier : option OverrideDecision) (d : OverrideDecision) (m : Successors) : Successors :=
  let m1 := if truthyText (d_supersedes d) then markSuperseded (d_id d) (default "" (d_supersedes d)) m else m in
  let m2 := if truthyText (d_renewed_from d) then markRenewed (d_id d) (default "" (d_renewed_from d)) m1 else m1 in
  match earlier with
  | None => m2
  | Some e =>
      if negb (truthyText (d_supersedes d)) && negb (truthyText (d_renewed_from d)) &&
         negb (truthyText (sc_supersedes (successorAt m2 (d_id e)))) && negb (truthyText (sc_renews (successorAt m2 (d_id e))))
      then markSuperseded (d_id d) (d_id e) m2
      else m2
  end.

Fixpoint linkTarget (earlier : option OverrideDecision) (l : list OverrideDecision) (m : Successors) : Successors :=
  match l with
  | [] => m
  | d :: l' => linkTarget (Some d) l' (linkDecision earlier d m)
  end.

(** The decisions of each target, targets and decisions in order of appearance. *)
Definition groupByTarget (decisions : list OverrideDecision) : obj (list OverrideDecision) :=
  foldl (fun o d => let k := targetKey (d_target d) in oset k (default [] (oget o k) ++ [d]) o) [] decisions.

Definition successorOf (decisions : list OverrideDecision) : Successors :=
  foldl (fun m group => linkTarget None group m) ∅ (ovalues (groupByTarget decisions)).

Definition validityIn (decisions : list OverrideDecision) (g : OverrideGovernance) (pin : option EvidenceSubject) (now : Z)
    (liveByTarget : gmap string LiveContext) (d : OverrideDecision) : ValidityStatus :=
  let succ := successorAt (successorOf decisions) (d_id d) in
  evaluateOverrideValidity d pin (default noLive (liveByTarget !! targetKey (d_target d))) (getClassPolicy g (d_class d)) now
    (sc_supersedes succ) (sc_renews succ).

(** The active view: the last active decision of each target. *)
Definition activeByTarget (decisions : list OverrideDecision) (g : OverrideGovernance) (pin : option EvidenceSubject) (now : Z)
    (liveByTarget : gmap string LiveContext) : obj OverrideDecision :=
  foldl (fun o d => match validityIn decisions g pin now liveByTarget d with
                    | VActive => oset (targetKey (d_target d)) d o
                    | _ => o
                    end) [] decisions.

Definition addInput (acc : gmap string string * list ScopedOverride) (d : OverrideDecision)
    : gmap string string * list ScopedOverride :=
  match d_target d with
  | TargetKey k => (<[k := d_disposition d]> acc.1, acc.2)
  | TargetScope t v => (acc.1, acc.2 ++ [mkScope t v (d_disposition d) (d_explanation d)])
  end.

Definition activeProjectionToPartitionInputs (active : obj OverrideDecision) : gmap string string * list ScopedOverride :=
  foldl addInput (∅, []) (ovalues active).

(** ** Renewal *)

Inductive RenewalRefusal := ModeForbids | AuthRevoked | DriftBlocks (t : HumanTrigger).

(** [subject.policy_hash] of a stored subject. *)
Definition storedField (subject : option jval) (k : string) : option jval :=
  match subject with Some (JObj fs) => oget fs k | _ => None end.

Definition evaluateRenewalLiteEligibility (prior : OverrideDecision) (policy : OverrideClassPolicy) (live : LiveContext)
    (pin : option EvidenceSubject) (priorAuthStillHolds : bool) : result RenewalRefusal unit :=
  let on t := includes t (cp_require_human_on policy) in
  if bool_decide (cp_renewal_mode policy ≠ RenewLite) then Err ModeForbids
  else if negb priorAuthStillHolds then Err AuthRevoked
  else if on FingerprintDrift && drifted (d_fingerprint prior) (lv_fingerprint live) then Err (DriftBlocks FingerprintDrift)
  else if on RegionDrift && drifted (d_code_region prior) (lv_code_region live) then Err (DriftBlocks RegionDrift)
  else
    match pin with
    | None => Ok tt
    | Some p =>
        if falsy (d_subject prior) then Ok tt
        else
          let outcome := cmp_outcome (compareEvidenceSubjects (d_subject prior) (Some (subjectDocument p))) in
          if on SubjectMismatchDrift && (bool_decide (outcome = SubjectMismatch) || bool_decide (outcome = SubjectIsMalformed))
          then Err (DriftBlocks SubjectMismatchDrift)
          else if on PolicyChange && bool_decide (storedField (d_subject prior) "policy_hash" ≠ Some (JStr (es_policy_hash p)))
          then Err (DriftBlocks PolicyChange)
          else Ok tt
    end.

Definition buildLiteRenewalDecision (id : string) (prior : OverrideDecision) (policy : OverrideClassPolicy) (createdAt : string)
    : result string OverrideDecision :=
  buildOverrideDecision (mkDecisionInput id (d_class prior) (d_disposition prior) (d_target prior) (d_explanation prior)
    (d_actor prior) (d_identity_source prior) (d_authorization prior) (d_evidence_refs prior) (d_remediation_refs prior)
    (d_subject prior) (d_fingerprint prior) (d_code_region prior) createdAt (cp_max_duration_hours policy) None
    (Some (d_id prior)) (Some RenewLite)).

Definition buildHumanRenewalDecision (prior : OverrideDecision) (i : DecisionInput) : result string OverrideDecision :=
  buildOverrideDecision (mkDecisionInput (di_id i) (di_class i) (di_disposition i) (di_target i) (di_explanation i) (di_actor i)
    (di_identity_source i) (di_authorization i) (di_evidence_refs i) (di_remediation_refs i) (di_subject i) (di_fingerprint i)
    (di_code_region i) (di_created_at i) (di_max_duration_hours i) None (Some (d_id prior)) (Some RenewHuman)).

(** ** Recording *)

Record ValidateInput := mkValidate {
  vi_class : option string;
  vi_explanation : string;
  vi_evidence_refs : obj string;
  vi_remediation_refs : obj string;
  vi_authorize : AuthorizeInput
}.

Record ValidatedRecord := mkValidated {
  vr_class : string;
  vr_policy : OverrideClassPolicy;
  vr_authorization : Authorization;
  vr_evidence_refs : obj string;
  vr_explanation : string
}.

(** [{ ...base, ...extra }]. *)
Definition spread {V} (base extra : obj V) : obj V := foldl (fun o p => oset p.1 p.2 o) base extra.

Definition refusalMessage (classId : string) (e : Refusal * string) : string :=
  match e.1 with
  | Unauthenticated => "Cannot record override: unauthenticated actor (getGhActor returned null)."
  | SodViolation => e.2
  | _ => "Unauthorized to record override class " +:+ quoted classId +:+ ": " +:+ e.2
  end.

(** The refs the required kinds are looked up in. *)
Definition recordEvidenceRefs (i : ValidateInput) : obj string * obj string :=
  let evidenceRefs := spread (parseEvidenceRefTokens (js_trim (vi_explanation i))) (vi_evidence_refs i) in
  let kind := "remediation_issue_url" in
  let remediationRefs := vi_remediation_refs i in
  (evidenceRefs,
   if truthyText (oget evidenceRefs kind) && negb (truthyText (oget remediationRefs kind))
   then oset kind (default "" (oget evidenceRefs kind)) remediationRefs else remediationRefs).

Definition validateOverrideRecord (g : OverrideGovernance) (i : ValidateInput) : result (Refusal * string) ValidatedRecord :=
  match resolveClassId g (vi_class i) with
  | Err message => Err (UnknownClass, message)
  | Ok classId =>
      match getClassPolicy g classId with
      | None => Err (UnknownClass, "Unknown override class " +:+ quoted classId +:+ ".")
      | Some policy =>
          if blank (vi_explanation i) then Err (EmptyExplanation, "Override reason must not be empty.")
          else
            let (evidenceRefs, remediationRefs) := recordEvidenceRefs i in
            match missingRequiredEvidence policy evidenceRefs remediationRefs with
            | _ :: _ as missing =>
                Err (MissingEvidence, "Class " +:+ quoted classId +:+ " requires evidence refs: " +:+ join ", " missing +:+
                  ". Pass as kind=value tokens in the reason.")
            | [] =>
                match authorizeOverrideActor (vi_authorize i) policy with
                | Err e => Err (e.1, refusalMessage classId e)
                | Ok auth =>
                    let stripped := stripEvidenceRefTokens (js_trim (vi_explanation i)) in
                    Ok (mkValidated classId policy auth evidenceRefs
                      (if decide (stripped = "") then js_trim (vi_explanation i) else stripped))
                end
            end
      end
  end.

(** The command's authorization request: it names neither an adapter nor the
    parties of the finding, and takes the implicit flag of the governance. *)
Definition commandAuthorization (g : OverrideGovernance) (actor : option string) (allowlist : list string) : AuthorizeInput :=
  mkAuthorize actor "gh_actor" allowlist (gv_implicit g) (mkAdapter None None) None None.

(** [runOverride] from the parsed argument to the decision of the posted
    comment. *)
Definition recordCommand (g : OverrideGovernance) (actor : option string) (allowlist : list string) (id : string)
    (classId : option string) (target : OverrideTarget) (disposition reason createdAt : string)
    : result (Refusal * string) (result string OverrideDecision) :=
  (try v := validateOverrideRecord g (mkValidate classId reason [] [] (commandAuthorization g actor allowlist)) in
   Ok (buildOverrideDecision (mkDecisionInput id (vr_class v) disposition target (vr_explanation v) (default "" actor) "gh_actor"
     (vr_authorization v) (vr_evidence_refs v) [] None None None createdAt (cp_max_duration_hours (vr_policy v)) None None None)))%result.

(** ** Decisions in comments *)

Record GovPayload := mkGov {
  gp_id : string;
  gp_class : string;
  gp_disposition : string;
  gp_target : OverrideTarget;
  gp_actor : string;
  gp_identity_source : string;
  gp_matched_rule : option string;
  gp_auth_evidence : string;
  gp_explanation : string;
  gp_evidence_refs : obj string;
  gp_fingerprint : option string;
  gp_code_region : option string;
  gp_created_at : string;
  gp_expires_at : string;
  gp_supersedes : option string;
  gp_renewed_from : option string;
  gp_renewal_kind : option RenewalMode;
  gp_subject : option jval
}.

Definition govPayloadFromDecision (d : OverrideDecision) : GovPayload :=
  mkGov (d_id d) (d_class d) (d_disposition d) (d_target d) (d_actor d) (d_identity_source d)
    (az_matched_rule (d_authorization d)) (az_evidence (d_authorization d)) (d_explanation d) (d_evidence_refs d)
    (d_fingerprint d) (d_code_region d) (d_created_at d) (d_expires_at d) (d_supersedes d) (d_renewed_from d)
    (d_renewal_kind d) (d_subject d).

(** What the last line of a comment reads as, its attestation removed. *)
Inductive Sentinel :=
| KeySentinel (key text : string)
| ScopeSentinel (type : ScopeType) (value captured : string)
| NonReproducingSentinel (key sha fingerprint : string).

Inductive CommentHeading := FindingOverrideHeading | ScopeOverrideHeading | NonReproducingHeading | DeltaHeading | ReviewHeading | OtherHeading.

#[export] Instance CommentHeading_eq_dec : EqDecision CommentHeading.
Proof. solve_decision. Defined.

(** A comment as the extractors see it: heading, governance line, sentinel. *)
Record OverrideComment := mkComment {
  oc_author : option string;
  oc_created_at : option string;
  oc_heading : CommentHeading;
  oc_gov : option GovPayload;
  oc_sentinel : option Sentinel
}.

Definition trustedAuthor (actor : string) (allowlist : list string) (c : OverrideComment) : bool :=
  match oc_author c with Some x => includes x (actor :: allowlist) | None => false end.

Definition buildTrustedOverrideComments (comments : list OverrideComment) (actor : option string) (allowlist : list string)
    : list OverrideComment :=
  match actor with
  | None => []
  | Some a => filter (fun c => trustedAuthor a allowlist c = true) comments
  end.

Definition EPOCH : string := "1970-01-01T00:00:00Z".
Definition FAR_FUTURE : string := "9999-12-31T23:59:59Z".

(** The time of a comment; a parsed time always prints. *)
Definition commentTime (createdAt : option string) : string :=
  match createdAt with
  | Some c => if decide (c = "") then EPOCH
              else match Date_parse c with Some ms => default EPOCH (isoOfMs ms) | None => EPOCH end
  | None => EPOCH
  end.

Fixpoint indexOfSub (t l : list ascii) : option nat :=
  if bool_decide (t `prefix_of` l) then Some 0
  else match l with [] => None | _ :: l' => S <$> indexOfSub t l' end.

(** The [disposition | reason] of a scope sentinel. *)
Definition splitCaptured (captured : string) : string * string :=
  let l := trim (chars captured) in
  match indexOfSub (chars " | ") l with
  | Some n => (js_trim (unchars (take n l)), js_trim (unchars (drop (n + 3) l)))
  | None => (unchars l, unchars l)
  end.

Definition legacyAuthorization (evidence : string) : Authorization := mkAuthorization true (Some "legacy_compat") evidence "legacy_sentinel".

Definition legacyDecision (id disposition explanation : string) (target : OverrideTarget) (evidence created : string) : OverrideDecision :=
  mkDecision id IMPLICIT_LOW_RISK_CLASS disposition target explanation "legacy" "legacy_sentinel" (legacyAuthorization evidence)
    [] [] None None None created FAR_FUTURE StoredActive None None None true.

Definition decisionOfGov (g : GovPayload) : OverrideDecision :=
  mkDecision (gp_id g) (gp_class g) (gp_disposition g) (gp_target g) (gp_explanation g) (gp_actor g) (gp_identity_source g)
    (mkAuthorization true (gp_matched_rule g) (gp_auth_evidence g) (gp_identity_source g)) (gp_evidence_refs g) []
    (gp_subject g) (gp_fingerprint g) (gp_code_region g) (gp_created_at g) (gp_expires_at g) StoredActive (gp_supersedes g)
    (gp_renewed_from g) (gp_renewal_kind g) false.

Definition decisionOfComment (c : OverrideComment) : option OverrideDecision :=
  if negb (includes (oc_heading c) [FindingOverrideHeading; ScopeOverrideHeading]) then None
  else
    match oc_gov c, oc_sentinel c with
    | Some g, _ => Some (decisionOfGov g)
    | None, Some (KeySentinel k text) =>
        let created := commentTime (oc_created_at c) in
        Some (legacyDecision ("legacy-key-" +:+ k +:+ "-" +:+ created) (js_trim text) (js_trim text) (TargetKey k)
          "pre-governance sentinel under low_risk_deferred" created)
    | None, Some (ScopeSentinel t v captured) =>
        let created := commentTime (oc_created_at c) in
        let (disposition, reason) := splitCaptured captured in
        Some (legacyDecision ("legacy-scope-" +:+ scope_type_name t +:+ "-" +:+ v +:+ "-" +:+ created) disposition reason
          (TargetScope t v) "pre-governance scope sentinel under low_risk_deferred" created)
    | None, _ => None
    end.

Definition extractOverrideDecisions (comments : list OverrideComment) : list OverrideDecision := omap decisionOfComment comments.

(** The sentinel reader that does not ask for validity. *)
Definition extractOverrides (comments : list OverrideComment) : gmap string string :=
  foldl (fun m c => match oc_sentinel c with
                    | Some (KeySentinel k text) => if decide (oc_heading c = FindingOverrideHeading) then <[k := js_trim text]> m else m
                    | _ => m
                    end) ∅ comments.
End Governance.

(** ** The overrides of a verdict *)

Section Projection.
Context (Date_parse : string → option Z) (isoOfMs : Z → option string).
Context (sha1hex : string → string) (showNum : rnum → string).

Definition addLive (live : gmap string LiveContext) (f : ReviewFinding) : gmap string LiveContext :=
  <["key:" +:+ findingKey sha1hex showNum f :=
    mkLive (Some (findingPayloadFingerprint sha1hex showNum f)) (Some (codeRegionFromFinding sha1hex showNum f)) None]> live.

Definition liveOfFindings (findings : list ReviewFinding) : gmap string LiveContext := foldl addLive ∅ findings.

Definition projectOverridesForPartition (comments : list OverrideComment) (g : OverrideGovernance) (pin : option EvidenceSubject)
    (now : Z) (findings : list ReviewFinding) : gmap string string * list ScopedOverride :=
  let decisions := extractOverrideDecisions Date_parse isoOfMs comments in
  activeProjectionToPartitionInputs (activeByTarget Date_parse decisions g pin now (liveOfFindings findings)).
End Projection.

(** ** Authorization *)

Lemma firstRule_Some accepts rules i : is_Some (firstRule accepts i rules) ↔ ∃ r, r ∈ rules ∧ is_Some (accepts r).
Proof.
  revert i. induction rules as [|r rules IH]; intros i; simpl.
  { split; [intros [? ?]; done|]. intros (r & Hr & _). inversion Hr. }
  setoid_rewrite elem_of_cons. destruct (accepts r) eqn:E.
  - split; [intros _; exists r; split; [by left|by rewrite E]|by eexists].
  - rewrite IH. split; [naive_solver|]. intros (x & [->|Hx] & Ha); [rewrite E in Ha; by destruct Ha|eauto].
Qed.

(** The party of the finding a role stands for. *)
Definition partyOf (i : AuthorizeInput) (r : SodRole) : option string :=
  match r with RoleImplementer => ai_implementer i | RoleFindingAuthor => ai_finding_author i end.

Lemma sod_nil enabled roles actor i :
  checkOverrideSeparationOfDuties enabled roles actor (ai_implementer i) (ai_finding_author i) = [] ↔
  (enabled = true → ∀ r, r ∈ roles → playsRole actor (partyOf i r) = false).
Proof.
  unfold checkOverrideSeparationOfDuties. destruct enabled; simpl; [|split; [intros _ ?; done|done]]. rewrite app_nil. split.
  - intros [H1 H2] _ r Hr. destruct (playsRole actor (partyOf i r)) eqn:E; [|done].
    apply includes_true in Hr. destruct r; simpl in E; rewrite Hr, E in *; done.
  - intros H. specialize (H eq_refl). split.
    + destruct (includes RoleImplementer roles) eqn:E; [|done]. apply includes_true, H in E. simpl in E. by rewrite E.
    + destruct (includes RoleFindingAuthor roles) eqn:E; [|done]. apply includes_true, H in E. simpl in E. by rewrite E.
Qed.

(** Who may record an override of a class. *)
Definition MayOverride (i : AuthorizeInput) (policy : OverrideClassPolicy) : Prop :=
  ∃ raw, ai_actor i = Some raw ∧ blank raw = false ∧
    (cp_sod_enabled policy = true → ∀ r, r ∈ cp_sod_roles policy → playsRole (js_trim raw) (partyOf i r) = false) ∧
    ((cp_approvers policy = [] ∧ ai_implicit i = true) ∨
     ∃ rule, rule ∈ cp_approvers policy ∧
       is_Some (ruleAccepts (ai_implicit i) (ai_allowlist i) (ai_adapter i) (js_trim raw) rule)).

Lemma authorize_exact i policy : (∃ a, authorizeOverrideActor i policy = Ok a) ↔ MayOverride i policy.
Proof.
  unfold authorizeOverrideActor, MayOverride. destruct (ai_actor i) as [raw|]; [|split; [intros [? ?]; done|naive_solver]].
  destruct (blank raw) eqn:Eb; [split; [intros [? ?]; done|intros (? & [= <-] & ? & _); congruence]|].
  destruct (checkOverrideSeparationOfDuties _ _ _ _ _) as [|r l] eqn:Es.
  - rewrite sod_nil in Es. destruct (decide (cp_approvers policy = [])) as [Er|Er].
    + destruct (ai_implicit i) eqn:Ei; [split; [intros _; exists raw; split_and!; [done..|by left]|by eexists]|].
      split; [intros [? ?]; done|]. intros (? & _ & _ & _ & [[_ ?]|(? & Hin & _)]); [done|]. rewrite Er in Hin. inversion Hin.
    + pose proof (firstRule_Some (ruleAccepts (ai_implicit i) (ai_allowlist i) (ai_adapter i) (js_trim raw)) (cp_approvers policy) 0) as Hf.
      destruct (firstRule _ 0 _) as [[rid ev]|].
      * split; [|by eexists]. intros _. exists raw. split_and!; try done. right. apply Hf. by eexists.
      * split; [intros [? ?]; done|]. intros (? & [= <-] & _ & _ & [[? _]|Hx]); [done|]. apply Hf in Hx as [? ?]. done.
  - split; [intros [? ?]; done|]. intros (? & [= <-] & _ & Hs & _). rewrite <-sod_nil in Hs. congruence.
Qed.

Lemma authorize_Ok i policy a :
  authorizeOverrideActor i policy = Ok a → az_authorized a = true ∧ az_identity_source a = ai_identity_source i.
Proof. unfold authorizeOverrideActor. intros H. repeat case_match_in H; simplify_eq; done. Qed.

(** The evidence of a kind, from the reason's tokens, the given refs or the
    remediation refs. *)
Definition evidenceFor (i : ValidateInput) (kind : string) : string :=
  let refs := recordEvidenceRefs i in
  default "" (match oget refs.1 kind with Some v => Some v | None => oget refs.2 kind end).

Lemma missing_nil policy i :
  missingRequiredEvidence policy (recordEvidenceRefs i).1 (recordEvidenceRefs i).2 = [] ↔
  ∀ kind, kind ∈ cp_required_evidence policy → blank (evidenceFor i kind) = false.
Proof.
  unfold missingRequiredEvidence, evidenceFor. split.
  - intros H kind Hk. destruct (blank _) eqn:E; [|done]. exfalso.
    assert (kind ∈ ([] : list string)) as Hx; [|inversion Hx]. rewrite <-H. apply list_elem_of_filter. done.
  - intros H. destruct (filter _ _) as [|k l] eqn:E; [done|].
    assert (k ∈ k :: l) as Hk by left. rewrite <-E in Hk. apply list_elem_of_filter in Hk as [Hb Hk].
    by rewrite (H k Hk) in Hb.
Qed.

Lemma resolve_known g c k : resolveClassId g c = Ok k → is_Some (getClassPolicy g k).
Proof.
  unfold resolveClassId. set (named := default "" c). case_bool_decide as Hn.
  - destruct (knownClass g c) eqn:E; [|done]. intros [= <-]. subst named. destruct c as [c|]; [|done].
    apply andb_prop in E as [_ E]. by apply bool_decide_eq_true in E.
  - destruct (knownClass g (gv_default_class g)) eqn:E.
    + intros [= <-]. destruct (gv_default_class g) as [c'|]; [|done]. apply andb_prop in E as [_ E].
      by apply bool_decide_eq_true in E.
    + destruct (gv_implicit g && _) eqn:Ei; [|done]. intros [= <-]. apply andb_prop in Ei as [_ Ei].
      apply andb_prop in Ei as [_ Ei]. by apply bool_decide_eq_true in Ei.
Qed.

(** A resolved configuration can be recorded against: it has a class, its class
    ids are in snake case when they come from a file, and the default class, if
    one is named, resolves. *)
Theorem resolved_governance block g :
  resolveOverrideGovernanceConfig block = Ok g →
  gv_classes g ≠ [] ∧ (∀ c, c ∈ okeys (gv_classes g) → isClassId c = true) ∧
  (truthyText (gv_default_class g) = true → resolveClassId g None = Ok (default "" (gv_default_class g))).
Proof.
  destruct block as [b|]; simpl; [|intros [= <-]; split_and!; [done| |done]; by intros c ->%list_elem_of_singleton].
  destruct (decide (gb_classes b = [])) as [|Hne]; [done|]. destruct (_ && _) eqn:Ed; [done|]. intros H. inv_bind H.
  injection H as <-. simpl.
  destruct (rfold_each addClass (fun o => ∀ c, c ∈ okeys o → isClassId c = true) (fun p o => is_Some (oget o p.1))
    (gb_classes b) [] x) as [Hid Hall]; [..|exact E|].
  - intros c Hc. inversion Hc.
  - intros o p o' _ Ho. unfold addClass. destruct (isClassId p.1) eqn:Ei; [|done]. intros [= <-]. split.
    + intros c [->|Hc]%elem_okeys_oset; [done|by apply Ho].
    + by rewrite oget_oset_eq.
  - intros o q p o' _ _ Ho. unfold addClass. destruct (isClassId q.1); [|done]. intros [= <-].
    destruct (decide (q.1 = p.1)) as [->|Hq]; [by rewrite oget_oset_eq|by rewrite oget_oset_ne].
  - split; [|split; [done|]].
    + destruct (gb_classes b) as [|p l]; [done|]. destruct (Hall p) as [y Hy]; [left|]. intros ->. done.
    + intros Ht. unfold resolveClassId. cbn [default bool_decide]. rewrite bool_decide_false by (intros Hx; by apply Hx). simpl.
      destruct (gb_default_class b) as [c|]; [|done]. simpl in *. rewrite Ht in Ed. simpl in Ed.
      apply bool_decide_eq_false in Ed. destruct (oget (gb_classes b) c) as [raw|] eqn:Ec; [|done].
      apply oget_Some_elem, Hall in Ec. unfold getClassPolicy. simpl in *. by rewrite Ht, bool_decide_true.
Qed.

(** An override is recorded exactly when its class resolves to a policy,
    the reason is not blank, every required kind of evidence is given, and the
    actor may override: authenticated, playing no forbidden role, and accepted by
    a rule of the class. *)
Theorem override_record_exact g i :
  (∃ v, validateOverrideRecord g i = Ok v) ↔
  ∃ classId policy, resolveClassId g (vi_class i) = Ok classId ∧ getClassPolicy g classId = Some policy ∧
    blank (vi_explanation i) = false ∧
    (∀ kind, kind ∈ cp_required_evidence policy → blank (evidenceFor i kind) = false) ∧
    MayOverride (vi_authorize i) policy.
Proof.
  unfold validateOverrideRecord. destruct (resolveClassId g (vi_class i)) as [c|e] eqn:Ec; [|split; [intros [? ?]; done|naive_solver]].
  destruct (resolve_known _ _ _ Ec) as [policy Hp]. rewrite Hp.
  destruct (blank (vi_explanation i)); [split; [intros [? ?]; done|by intros (? & ? & _ & _ & ? & _)]|].
  destruct (recordEvidenceRefs i) as [refs rem] eqn:Er.
  assert (missingRequiredEvidence policy refs rem = [] ↔ ∀ kind, kind ∈ cp_required_evidence policy → blank (evidenceFor i kind) = false)
    as Hm by (rewrite <-missing_nil; by rewrite Er).
  destruct (missingRequiredEvidence policy refs rem) as [|m ms].
  - destruct Hm as [Hm _]. specialize (Hm eq_refl). pose proof (authorize_exact (vi_authorize i) policy) as Ha.
    destruct (authorizeOverrideActor (vi_authorize i) policy) as [a|e].
    + split; [|by eexists]. intros _. exists c, policy. split_and!; try done. apply Ha. by eexists.
    + split; [intros [? ?]; done|]. intros (c' & p' & [= <-] & Hp' & _ & _ & Hmay). rewrite Hp in Hp'. injection Hp' as <-.
      apply Ha in Hmay as [? ?]. done.
  - split; [intros [? ?]; done|]. intros (c' & p' & [= <-] & Hp' & _ & Hall & _). rewrite Hp in Hp'. injection Hp' as <-.
    apply Hm in Hall. done.
Qed.

(** ** Validity *)

Section Validity.
Context (Date_parse : string → option Z).
Notation evaluateOverrideValidity := (evaluateOverrideValidity Date_parse).
Implicit Types (d : OverrideDecision).

(** The conditions of an active decision, its successors aside. *)
Record CurrentlyValid d (pin : option EvidenceSubject) (live : LiveContext) (policy : option OverrideClassPolicy) (now : Z) : Prop := {
  cv_lifecycle : d_lifecycle d ∉ [StoredRejected; StoredSuperseded; StoredRenewed];
  cv_scope : (∃ t v, d_target d = TargetScope t v) → lv_scope_matches live ≠ Some false;
  cv_expiry : ∀ ms, Date_parse (d_expires_at d) = Some ms → (now < ms)%Z;
  cv_authorized : az_authorized (d_authorization d) = true ∨ d_legacy_compat d = true;
  cv_subject : subjectStale (d_subject d) pin = false;
  cv_drift : (∃ k, d_target d = TargetKey k) →
    drifted (d_fingerprint d) (lv_fingerprint live) = false ∧ drifted (d_code_region d) (lv_code_region live) = false;
  cv_class : is_Some policy ∨ d_legacy_compat d = true
}.

Lemma evaluate_active d pin live policy now sup ren :
  evaluateOverrideValidity d pin live policy now sup ren = VActive ↔
  CurrentlyValid d pin live policy now ∧ truthyText sup = false ∧ truthyText ren = false.
Proof.
  unfold evaluateOverrideValidity. split.
  - intros H.
    destruct (decide (d_lifecycle d = StoredRejected)) as [|H1]; [done|].
    destruct (truthyText sup) eqn:H2; [done|]. case_bool_decide as H3; [done|].
    destruct (truthyText ren) eqn:H4; [done|]. case_bool_decide as H5; [done|]. cbn [orb] in H.
    split; [|done].
    destruct (match d_target d with TargetScope _ _ => bool_decide (lv_scope_matches live = Some false) | _ => false end) eqn:H6; [done|].
    destruct (match Date_parse (d_expires_at d) with Some ms => bool_decide (ms ≤ now)%Z | None => false end) eqn:H7; [done|].
    destruct (negb (az_authorized (d_authorization d)) && negb (d_legacy_compat d)) eqn:H8; [done|].
    destruct (subjectStale (d_subject d) pin) eqn:H9; [done|].
    destruct (match d_target d with TargetKey _ => _ | TargetScope _ _ => false end) eqn:H10; [done|]. split.
    + rewrite !elem_of_cons, elem_of_nil. naive_solver.
    + intros (t & v & Ht). rewrite Ht in H6. by apply bool_decide_eq_false in H6.
    + intros ms Hms. rewrite Hms in H7. apply bool_decide_eq_false in H7. lia.
    + destruct (az_authorized _); [by left|]. destruct (d_legacy_compat d); [by right|done].
    + done.
    + intros [k Hk]. rewrite Hk in H10. by apply orb_false_iff in H10.
    + destruct policy; [left; by eexists|]. destruct (d_legacy_compat d); [by right|done].
  - intros ([H1 H2 H3 H4 H5 H6 H7] & -> & ->). rewrite !elem_of_cons, elem_of_nil in H1.
    rewrite decide_False by tauto. rewrite !bool_decide_false by tauto. cbn [orb].
    destruct (match d_target d with TargetScope _ _ => bool_decide (lv_scope_matches live = Some false) | _ => false end) eqn:E.
    { destruct (d_target d); [done|]. apply bool_decide_eq_true in E. destruct H2; eauto. }
    destruct (match Date_parse (d_expires_at d) with Some ms => bool_decide (ms ≤ now)%Z | None => false end) eqn:E2.
    { destruct (Date_parse (d_expires_at d)) as [ms|]; [|done]. apply bool_decide_eq_true in E2. specialize (H3 ms eq_refl). lia. }
    assert (negb (az_authorized (d_authorization d)) && negb (d_legacy_compat d) = false) as -> by (destruct H4 as [-> | ->]; simpl; [done|apply andb_false_r]).
    rewrite H5. destruct (match d_target d with TargetKey _ => _ | TargetScope _ _ => false end) eqn:E3.
    { destruct (d_target d); [|done]. destruct H6 as [Ha Hb]; [by eexists|]. by rewrite Ha, Hb in E3. }
    destruct policy; [done|]. destruct H7 as [[? ?]| ->]; done.
Qed.

End Validity.

(** ** Successors *)

Implicit Types (d e : OverrideDecision) (m : gmap string Successor).

Definition marked m (id : string) : Prop :=
  truthyText (sc_supersedes (successorAt m id)) = true ∨ truthyText (sc_renews (successorAt m id)) = true.

(** [d], recorded after [earlier] on the same target, replaces the decision
    [id]. *)
Definition replaces (earlier : option OverrideDecision) d (id : string) : Prop :=
  (truthyText (d_supersedes d) = true ∧ d_supersedes d = Some id) ∨
  (truthyText (d_renewed_from d) = true ∧ d_renewed_from d = Some id) ∨
  (truthyText (d_supersedes d) = false ∧ truthyText (d_renewed_from d) = false ∧ d_id <$> earlier = Some id).

Lemma marked_superseded m b id x : b ≠ "" → marked (markSuperseded b id m) x ↔ x = id ∨ marked m x.
Proof.
  intros Hb. unfold marked, markSuperseded, successorAt. destruct (decide (x = id)) as [->|Hne].
  - rewrite lookup_insert_eq. simpl. rewrite bool_decide_true by done. naive_solver.
  - rewrite lookup_insert_ne by done. naive_solver.
Qed.

Lemma marked_renewed m b id x : b ≠ "" → marked (markRenewed b id m) x ↔ x = id ∨ marked m x.
Proof.
  intros Hb. unfold marked, markRenewed, successorAt. destruct (decide (x = id)) as [->|Hne].
  - rewrite lookup_insert_eq. simpl. rewrite bool_decide_true by done. naive_solver.
  - rewrite lookup_insert_ne by done. naive_solver.
Qed.

Lemma truthyText_default o : truthyText o = true → o = Some (default "" o).
Proof. destruct o; done. Qed.

Lemma linkDecision_marked earlier d m x :
  d_id d ≠ "" → marked (linkDecision earlier d m) x ↔ marked m x ∨ replaces earlier d x.
Proof.
  intros Hid. unfold linkDecision.
  set (m1 := if truthyText (d_supersedes d) then _ else m). set (m2 := if truthyText (d_renewed_from d) then _ else m1).
  assert (∀ y, marked m1 y ↔ marked m y ∨ truthyText (d_supersedes d) = true ∧ d_supersedes d = Some y) as H1.
  { intros y. subst m1. destruct (truthyText (d_supersedes d)) eqn:E; [|naive_solver]. rewrite marked_superseded by done.
    rewrite (truthyText_default _ E) at 2. naive_solver. }
  assert (∀ y, marked m2 y ↔ marked m1 y ∨ truthyText (d_renewed_from d) = true ∧ d_renewed_from d = Some y) as H2.
  { intros y. subst m2. destruct (truthyText (d_renewed_from d)) eqn:E; [|naive_solver]. rewrite marked_renewed by done.
    rewrite (truthyText_default _ E) at 2. naive_solver. }
  assert (marked m2 x ↔ marked m x ∨ (truthyText (d_supersedes d) = true ∧ d_supersedes d = Some x) ∨
    (truthyText (d_renewed_from d) = true ∧ d_renewed_from d = Some x)) as H3 by (rewrite H2, H1; tauto).
  unfold replaces. destruct earlier as [e|]; simpl; [|rewrite H3; naive_solver].
  destruct (negb _ && _ && _ && _) eqn:E.
  - apply andb_prop in E as [[[Ea Eb]%andb_prop Ec]%andb_prop Ed]. apply negb_true_iff in Ea, Eb.
    rewrite marked_superseded by done. rewrite H3. rewrite Ea, Eb. naive_solver.
  - rewrite H3. split; [tauto|]. intros [?|[?|[?|(Ha & Hb & [= <-])]]]; [tauto..|]. apply H3.
    rewrite Ha, Hb in E. simpl in E. unfold marked.
    destruct (truthyText (sc_supersedes (successorAt m2 (d_id e)))); [by left|].
    destruct (truthyText (sc_renews (successorAt m2 (d_id e)))); [by right|done].
Qed.

(** Consecutive decisions of a list, the first one preceded by [p]. *)
Inductive follows : option OverrideDecision → list OverrideDecision → option OverrideDecision → OverrideDecision → Prop :=
| follows_here p d l : follows p (d :: l) p d
| follows_later p x l (e : option OverrideDecision) d : follows (Some x) l e d → follows p (x :: l) e d.

Lemma linkTarget_marked p l m x :
  (∀ d, d ∈ l → d_id d ≠ "") → marked (linkTarget p l m) x ↔ marked m x ∨ ∃ (e : option OverrideDecision) d, follows p l e d ∧ replaces e d x.
Proof.
  revert p m. induction l as [|d l IH]; intros p m Hid; simpl.
  { split; [by left|]. intros [?|(e & d & Hf & _)]; [done|inversion Hf]. }
  rewrite IH by (intros; apply Hid; by right). rewrite linkDecision_marked by (apply Hid; left). split.
  - intros [[?|?]|(e & y & ? & ?)]; [by left|right; exists p, d; split; [constructor|done]|right; exists e, y; split; [by constructor|done]].
  - intros [?|(e & y & Hf & Hr)]; [by left; left|]. inversion Hf; subst; [by left; right|right; eauto].
Qed.

(** The decisions on one target, in order. *)
Definition onTarget (tk : string) (l : list OverrideDecision) : list OverrideDecision := filter (fun d => targetKey (d_target d) = tk) l.

Lemma group_spec l tk : oget (groupByTarget l) tk = match onTarget tk l with [] => None | g => Some g end.
Proof.
  unfold groupByTarget. induction l as [|d l IH] using rev_ind; [done|].
  rewrite foldl_app. cbn [foldl]. set (o := foldl _ [] l) in *. unfold onTarget in *. rewrite filter_app. simpl. rewrite filter_cons, filter_nil.
  destruct (decide (targetKey (d_target d) = tk)) as [Heq|Hne].
  - rewrite Heq, oget_oset_eq. rewrite IH. by destruct (filter _ l).
  - rewrite oget_oset_ne by done. by rewrite app_nil_r.
Qed.

Lemma group_keys_NoDup l : NoDup (okeys (groupByTarget l)).
Proof.
  unfold groupByTarget. induction l as [|d l IH] using rev_ind; [constructor|]. rewrite foldl_app. cbn [foldl].
  by apply NoDup_okeys_oset.
Qed.

Lemma group_values l g : g ∈ ovalues (groupByTarget l) ↔ ∃ tk, g = onTarget tk l ∧ g ≠ [].
Proof.
  rewrite elem_ovalues. split.
  - intros [k Hk]. apply elem_oget in Hk; [|apply group_keys_NoDup]. exists k. rewrite group_spec in Hk.
    destruct (onTarget k l); naive_solver.
  - intros (tk & -> & Hne). exists tk. apply oget_Some_elem. rewrite group_spec. by destruct (onTarget tk l).
Qed.

(** A decision is marked exactly when one recorded on some target replaces it. *)
Lemma successor_marked l x :
  (∀ d, d ∈ l → d_id d ≠ "") →
  marked (successorOf l) x ↔ ∃ tk (e : option OverrideDecision) d, follows None (onTarget tk l) e d ∧ replaces e d x.
Proof.
  intros Hid. unfold successorOf.
  assert (∀ gs m, (∀ g, g ∈ gs → ∀ d, d ∈ g → d_id d ≠ "") →
    marked (foldl (fun m group => linkTarget None group m) m gs) x ↔
    marked m x ∨ ∃ g (e : option OverrideDecision) d, g ∈ gs ∧ follows None g e d ∧ replaces e d x) as Hfold.
  { induction gs as [|g gs IH]; intros m Hg; simpl.
    { split; [by left|]. intros [?|(g & ? & ? & Hin & _)]; [done|inversion Hin]. }
    rewrite IH by (intros; eapply Hg; [by right|done]). rewrite linkTarget_marked by (apply Hg; left).
    setoid_rewrite elem_of_cons. split; [|intros [?|(g' & e & d & [->|?] & ?)]; eauto 10].
    intros [[?|(e & d & ? & ?)]|(g' & e & d & ? & ?)]; eauto 10. }
  rewrite Hfold.
  - split.
    + intros [[H|H]|(g & e & d & (tk & -> & _)%group_values & H)]; [discriminate H..|]. eauto.
    + intros (tk & e & d & Hf & Hr). right. exists (onTarget tk l), e, d. split; [|done]. apply group_values. exists tk.
      split; [done|]. intros Hn. rewrite Hn in Hf. inversion Hf.
  - intros g (tk & -> & _)%group_values d Hd. apply list_elem_of_filter in Hd as [_ Hd]. by apply Hid.
Qed.

Lemma validity_active Date_parse l g pin now live d :
  validityIn Date_parse l g pin now live d = VActive ↔
  CurrentlyValid Date_parse d pin (default noLive (live !! targetKey (d_target d))) (getClassPolicy g (d_class d)) now ∧
  ¬ marked (successorOf l) (d_id d).
Proof.
  unfold validityIn. rewrite evaluate_active. unfold marked. rewrite <-!not_true_iff_false. tauto.
Qed.

(** ** The projection *)

Lemma targetKey_key t k : targetKey t = targetKey (TargetKey k) → t = TargetKey k.
Proof.
  destruct t as [k'|ty v]; simpl.
  - intros [= Hk]. change (k' = k) in Hk. by rewrite Hk.
  - intros H. discriminate H.
Qed.

Section ActiveView.
Context (v : OverrideDecision → ValidityStatus).

Definition activeFold (l : list OverrideDecision) : obj OverrideDecision :=
  foldl (fun o d => match v d with VActive => oset (targetKey (d_target d)) d o | _ => o end) [] l.

Lemma activeFold_snoc l d :
  activeFold (l ++ [d]) = if decide (v d = VActive) then oset (targetKey (d_target d)) d (activeFold l) else activeFold l.
Proof. unfold activeFold. rewrite foldl_app. simpl. by destruct (v d). Qed.

Lemma activeFold_last l tk :
  oget (activeFold l) tk = last (filter (fun d => targetKey (d_target d) = tk ∧ v d = VActive) l).
Proof.
  induction l as [|d l IH] using rev_ind; [done|]. rewrite activeFold_snoc, filter_app, filter_cons, filter_nil.
  destruct (decide (v d = VActive)) as [Ha|Ha].
  - destruct (decide (targetKey (d_target d) = tk)) as [<-|Hne].
    + rewrite oget_oset_eq, decide_True by done. by rewrite last_snoc.
    + rewrite oget_oset_ne, decide_False by naive_solver. by rewrite app_nil_r.
  - rewrite decide_False by naive_solver. by rewrite app_nil_r.
Qed.

Lemma activeFold_wf l : NoDup (okeys (activeFold l)) ∧ ∀ tk d, oget (activeFold l) tk = Some d → targetKey (d_target d) = tk ∧ d ∈ l ∧ v d = VActive.
Proof.
  split.
  - induction l as [|d l IH] using rev_ind; [constructor|]. rewrite activeFold_snoc. case_decide; [by apply NoDup_okeys_oset|done].
  - intros tk d H. rewrite activeFold_last in H. apply last_Some_elem_of, list_elem_of_filter in H. tauto.
Qed.
End ActiveView.

Lemma inputs_fold ds acc :
  let r := foldl addInput acc ds in
  (∀ k x, r.1 !! k = Some x → acc.1 !! k = Some x ∨ ∃ d, d ∈ ds ∧ d_target d = TargetKey k ∧ d_disposition d = x) ∧
  (∀ k, is_Some (acc.1 !! k) ∨ (∃ d, d ∈ ds ∧ d_target d = TargetKey k) → is_Some (r.1 !! k)) ∧
  (∀ s, s ∈ r.2 ↔ s ∈ acc.2 ∨ ∃ d, d ∈ ds ∧ d_target d = TargetScope (sc_type s) (sc_value s) ∧
     sc_disposition s = d_disposition d ∧ sc_reason s = d_explanation d).
Proof.
  revert acc. induction ds as [|d ds IH]; intros acc; simpl.
  { split; [by left|]. split; [intros k [?|(d & Hd & _)]; [done|inversion Hd]|].
    intros s. split; [by left|]. intros [?|(d & Hd & _)]; [done|inversion Hd]. }
  destruct (IH (addInput acc d)) as (H1 & H2 & H3). split; [|split].
  - intros k x Hx. destruct (H1 k x Hx) as [Ha|(e & He & ?)]; [|right; exists e; split; [by right|done]].
    unfold addInput in Ha. destruct (d_target d) as [k'|t v] eqn:Et; [|by left]. simpl in Ha.
    destruct (decide (k' = k)) as [->|Hne]; [|rewrite lookup_insert_ne in Ha by done; by left].
    rewrite lookup_insert_eq in Ha. injection Ha as <-. right. exists d. split; [left|done].
  - intros k Hk. apply H2. unfold addInput. destruct Hk as [Hk|(e & [->|He]%elem_of_cons & Hte)]; [left|left|right; eauto].
    + destruct (d_target d) as [k'|t v]; [|done]. simpl. rewrite lookup_insert_is_Some. destruct (decide (k' = k)); auto.
    + rewrite Hte. simpl. by rewrite lookup_insert_eq.
  - intros s. rewrite H3. unfold addInput. split.
    + intros [Ha|(e & He & ?)]; [|right; exists e; split; [by right|done]].
      destruct (d_target d) as [k'|t v] eqn:Et; simpl in Ha; [by left|].
      apply elem_of_app in Ha as [?|Ha%list_elem_of_singleton]; [by left|]. right. exists d. split; [left|]. by subst s.
    + intros [Ha|(e & [->|He]%elem_of_cons & Hte & Hd & Hr)]; [left|left|right; eauto].
      * destruct (d_target d); simpl; [done|]. apply elem_of_app. by left.
      * rewrite Hte. simpl. apply elem_of_app. right. apply list_elem_of_singleton. destruct s; simpl in *; by subst.
Qed.

(** The overrides handed to the partition are the active decisions. *)
Lemma inputs_spec active :
  NoDup (okeys active) → (∀ tk d, oget active tk = Some d → targetKey (d_target d) = tk) →
  (∀ k x, (activeProjectionToPartitionInputs active).1 !! k = Some x ↔
     ∃ d, oget active (targetKey (TargetKey k)) = Some d ∧ d_disposition d = x) ∧
  (∀ s, s ∈ (activeProjectionToPartitionInputs active).2 ↔
     ∃ d, oget active (targetKey (TargetScope (sc_type s) (sc_value s))) = Some d ∧
       d_target d = TargetScope (sc_type s) (sc_value s) ∧ sc_disposition s = d_disposition d ∧ sc_reason s = d_explanation d).
Proof.
  intros Hnd Hk. unfold activeProjectionToPartitionInputs. destruct (inputs_fold (ovalues active) (∅, [])) as (H1 & H2 & H3).
  assert (∀ d, d ∈ ovalues active ↔ oget active (targetKey (d_target d)) = Some d) as Hv.
  { intros d. rewrite elem_ovalues. split; [|intros ?; eexists; by eapply oget_Some_elem].
    intros [tk Hin]. apply elem_oget in Hin; [|done]. pose proof (Hk _ _ Hin) as ->. done. }
  split.
  - intros k x. split.
    + intros Hx. apply H1 in Hx as [Hx|(d & Hd & Ht & <-)]; [by simpl in Hx; rewrite lookup_empty in Hx|]. exists d. split; [|done].
      rewrite <-Ht. by apply Hv.
    + intros (d & Hd & <-). pose proof (targetKey_key _ _ (Hk _ _ Hd)) as Ht.
      destruct (H2 k) as [x Hx]; [right; exists d; split; [|done]; apply Hv; by rewrite Ht|].
      rewrite Hx. apply H1 in Hx as [Hx|(e & He & Hte & <-)]; [by simpl in Hx; rewrite lookup_empty in Hx|].
      apply Hv in He. rewrite Hte, Hd in He. by injection He as ->.
  - intros s. rewrite H3. split.
    + intros [Hs|(d & Hd & Ht & ?)]; [inversion Hs|]. exists d. rewrite <-Ht. split; [by apply Hv|]. done.
    + intros (d & Hd & Ht & ?). right. exists d. split; [|done]. apply Hv. by rewrite Ht.
Qed.

Lemma decision_target_heading Date_parse isoOfMs c d :
  decisionOfComment Date_parse isoOfMs c = Some d → includes (oc_heading c) [FindingOverrideHeading; ScopeOverrideHeading] = true.
Proof. unfold decisionOfComment. by destruct (includes _ _). Qed.

Lemma active_projection Date_parse l g pin now live :
  NoDup (okeys (activeByTarget Date_parse l g pin now live)) ∧
  (∀ tk d, oget (activeByTarget Date_parse l g pin now live) tk = Some d →
     targetKey (d_target d) = tk ∧ d ∈ l ∧ validityIn Date_parse l g pin now live d = VActive).
Proof. apply (activeFold_wf (validityIn Date_parse l g pin now live)). Qed.

Section Trust.
Context (Date_parse : string → option Z) (isoOfMs : Z → option string).
Context (sha1hex : string → string) (showNum : rnum → string).
Notation project := (projectOverridesForPartition Date_parse isoOfMs sha1hex showNum).
Notation liveOf := (liveOfFindings sha1hex showNum).
Notation decisionOf := (decisionOfComment Date_parse isoOfMs).
Notation decisionsOf := (extractOverrideDecisions Date_parse isoOfMs).

(** A decision that governs its target: written by a trusted author under an
    override heading, valid now, and not replaced by a recorded one. *)
Definition Governs (comments : list OverrideComment) (actor : option string) (allowlist : list string) (g : OverrideGovernance)
    (pin : option EvidenceSubject) (now : Z) (findings : list ReviewFinding) (d : OverrideDecision) : Prop :=
  (∃ a c, actor = Some a ∧ c ∈ comments ∧ trustedAuthor a allowlist c = true ∧ decisionOf c = Some d) ∧
  CurrentlyValid Date_parse d pin (default noLive (liveOf findings !! targetKey (d_target d))) (getClassPolicy g (d_class d)) now ∧
  let decisions := decisionsOf (buildTrustedOverrideComments comments actor allowlist) in
  ((∀ e, e ∈ decisions → d_id e ≠ "") →
   ∀ tk prev d', follows None (onTarget tk decisions) prev d' → ¬ replaces prev d' (d_id d)).

Lemma trusted_elem comments actor allowlist c :
  c ∈ buildTrustedOverrideComments comments actor allowlist ↔
  ∃ a, actor = Some a ∧ c ∈ comments ∧ trustedAuthor a allowlist c = true.
Proof.
  unfold buildTrustedOverrideComments. destruct actor as [a|].
  - rewrite list_elem_of_filter. naive_solver.
  - split; [intros H; inversion H|naive_solver].
Qed.

Lemma active_governs comments actor allowlist g pin now findings tk d :
  let decisions := decisionsOf (buildTrustedOverrideComments comments actor allowlist) in
  oget (activeByTarget Date_parse decisions g pin now (liveOf findings)) tk = Some d →
  targetKey (d_target d) = tk ∧ Governs comments actor allowlist g pin now findings d.
Proof.
  intros decisions H. apply active_projection in H as (Ht & Hin & Hv). split; [done|].
  apply validity_active in Hv as [Hv Hm]. split; [|split; [done|]].
  - apply list_elem_of_omap in Hin as (c & Hc & Hd). apply trusted_elem in Hc as (a & ? & ? & ?). eauto 10.
  - intros decs Hid tk' e d' Hf Hr. apply Hm. apply successor_marked; [done|]. eauto.
Qed.

Lemma projected_key comments actor allowlist g pin now findings k x :
  (project (buildTrustedOverrideComments comments actor allowlist) g pin now findings).1 !! k = Some x →
  ∃ d, d_target d = TargetKey k ∧ d_disposition d = x ∧ Governs comments actor allowlist g pin now findings d.
Proof.
  unfold project. set (decisions := decisionsOf _).
  destruct (active_projection Date_parse decisions g pin now (liveOf findings)) as [Hnd Hwf].
  destruct (inputs_spec _ Hnd (fun tk d H => proj1 (Hwf tk d H))) as [Hk _].
  intros (d & Hd & <-)%Hk. apply active_governs in Hd as [Ht Hg]. exists d. split; [|done]. by apply targetKey_key.
Qed.

Lemma projected_scope comments actor allowlist g pin now findings s :
  s ∈ (project (buildTrustedOverrideComments comments actor allowlist) g pin now findings).2 →
  ∃ d, d_target d = TargetScope (sc_type s) (sc_value s) ∧ d_disposition d = sc_disposition s ∧ d_explanation d = sc_reason s ∧
    Governs comments actor allowlist g pin now findings d.
Proof.
  unfold project. set (decisions := decisionsOf _).
  destruct (active_projection Date_parse decisions g pin now (liveOf findings)) as [Hnd Hwf].
  destruct (inputs_spec _ Hnd (fun tk d H => proj1 (Hwf tk d H))) as [_ Hs].
  intros (d & Hd & Ht & Hx & Hr)%Hs. apply active_governs in Hd as [_ Hg]. eauto 10.
Qed.

(** C24. Only valid decisions of trusted authors reach the partition: every key
    override and every scope handed over is the disposition of a decision that
    governs its target, that is, written by the actor or an allowed identity,
    not rejected, unexpired, authorized or legacy, current for the subject under
    evaluation, without drift, of a known class or legacy, and not superseded or
    renewed by a recorded decision.  Without an actor nothing is handed over. *)
Theorem projected_overrides_govern comments actor allowlist g pin now findings :
  let p := project (buildTrustedOverrideComments comments actor allowlist) g pin now findings in
  (∀ k x, p.1 !! k = Some x →
     ∃ d, d_target d = TargetKey k ∧ d_disposition d = x ∧ Governs comments actor allowlist g pin now findings d) ∧
  (∀ s, s ∈ p.2 →
     ∃ d, d_target d = TargetScope (sc_type s) (sc_value s) ∧ d_disposition d = sc_disposition s ∧ d_explanation d = sc_reason s ∧
       Governs comments actor allowlist g pin now findings d) ∧
  (actor = None → p = (∅, [])).
Proof.
  split; [apply projected_key|]. split; [apply projected_scope|]. by intros ->.
Qed.
End Trust.

(** ** Duration *)

Section Duration.
Context (Date_parse : string → option Z) (isoOfMs : Z → option string) (showJs : jsnum → string).
(** A printed time reads back as its second. *)
Hypothesis iso_second : ∀ ms s, isoOfMs ms = Some s → Date_parse s = Some (ms / 1000 * 1000)%Z.

Lemma expires_Ok createdAt h s :
  computeExpiresAt Date_parse isoOfMs showJs createdAt (num h) = Ok s →
  ∃ created, Date_parse createdAt = Some created ∧ (1 ≤ h)%Z ∧ Date_parse s = Some ((created + h * 3600000) / 1000 * 1000)%Z.
Proof.
  unfold computeExpiresAt. destruct (Date_parse createdAt) as [created|]; [|done]. unfold num.
  assert (Qfloor (Q2Qc (inject_Z h)) = h) as Hq.
  { rewrite (Qfloor_comp _ (inject_Z h)); [apply Qfloor_Z|]. apply Qred_correct. }
  destruct (isInteger _ && num_geb _ 1) eqn:E; [|done]. apply andb_prop in E as [_ E]. simpl in E.
  rewrite Hq. destruct (isoOfMs (created + h * 3600000)) as [iso|] eqn:Ei; [|done]. intros [= <-].
  exists created. split; [done|]. split; [|by apply iso_second].
  apply Qle_bool_iff in E. assert (Qle (inject_Z 1) (inject_Z h)) as E'.
  { eapply Qle_trans; [apply E|]. apply Qle_lteq. right. apply Qred_correct. }
  by rewrite <-Zle_Qle in E'.
Qed.

(** No override outlives its class: a decision built at a time for a class
    of [h] hours is active at no later moment than [h] hours after it, whatever
    happens to it afterwards, and it expires exactly at the whole second of that
    moment when nothing else ends it. *)
Theorem override_duration_bounded i h d pin live policy now sup ren :
  buildOverrideDecision Date_parse isoOfMs showJs i = Ok d → di_max_duration_hours i = num h →
  ∃ created, Date_parse (di_created_at i) = Some created ∧ (1 ≤ h)%Z ∧
    (evaluateOverrideValidity Date_parse d pin live policy now sup ren = VActive → (now < created + h * 3600000)%Z) ∧
    ((now < (created + h * 3600000) / 1000 * 1000)%Z ↔
     evaluateOverrideValidity Date_parse d None noLive policy now None None ≠ VExpired).
Proof.
  unfold buildOverrideDecision. intros H Hh. rewrite Hh in H. inv_bind H. injection H as <-.
  apply expires_Ok in E as (created & Hc & H1 & He). exists created. split; [done|]. split; [done|]. split.
  - intros [Hv _]%evaluate_active. pose proof (cv_expiry _ _ _ _ _ _ Hv) as Hx. simpl in Hx. specialize (Hx _ He).
    pose proof (Z.mul_div_le (created + h * 3600000) 1000). lia.
  - unfold evaluateOverrideValidity. simpl. rewrite He.
    destruct (di_target i); simpl; (case_bool_decide; [split; [lia|done]|split; [intros _|lia]]; repeat case_match; done).
Qed.
End Duration.

(** ** Recording and renewal *)

Lemma follows_elem p l prev d : follows p l prev d → d ∈ l.
Proof. induction 1; [left|by right]. Qed.

Lemma follows_split p l prev d :
  follows p l prev d → (prev = p ∧ ∃ l2, l = d :: l2) ∨ ∃ e l1 l2, prev = Some e ∧ l = l1 ++ e :: d :: l2.
Proof.
  induction 1 as [p d l|p x l prev d Hf IH]; [left; eauto|]. right.
  destruct IH as [(-> & l2 & ->)|(e & l1 & l2 & -> & ->)]; [by exists x, [], l2|by exists e, (x :: l1), l2].
Qed.

Lemma follows_prev_elem l e d : follows None l (Some e) d → e ∈ l.
Proof.
  intros Hf. apply follows_split in Hf as [[? _]|(x & l1 & l2 & [= <-] & ->)]; [done|]. apply elem_of_app. right. left.
Qed.

Lemma last_not_followed l tk d d' : d ∉ l → ¬ follows None (onTarget tk (l ++ [d])) (Some d) d'.
Proof.
  intros Hd Hf. apply follows_split in Hf as [[? _]|(x & l1 & l2 & [= <-] & Heq)]; [done|].
  unfold onTarget in Heq. rewrite filter_app in Heq. set (F := filter _ l) in *. set (G := filter _ [d]) in *.
  assert (length G ≤ 1) as HG by (subst G; rewrite filter_cons, filter_nil; case_decide; simpl; lia).
  pose proof (f_equal length Heq) as Hlen. rewrite !length_app in Hlen. simpl in Hlen.
  assert (d ∈ F) as [_ ?]%list_elem_of_filter; [|done]. apply list_elem_of_lookup. exists (length l1).
  rewrite <-(lookup_app_l _ G) by lia. by rewrite Heq, list_lookup_middle.
Qed.

(** The last decision of a list is replaced by no other when its id is its own
    and nobody links to it. *)
Lemma last_unreplaced l d :
  d_id d ≠ "" → truthyText (d_supersedes d) = false → truthyText (d_renewed_from d) = false →
  (∀ e, e ∈ l → d_id e ≠ "" ∧ d_id e ≠ d_id d ∧ d_supersedes e ≠ Some (d_id d) ∧ d_renewed_from e ≠ Some (d_id d)) →
  ¬ marked (successorOf (l ++ [d])) (d_id d).
Proof.
  intros Hid Hs Hr Hl. rewrite successor_marked.
  2:{ intros e [He|He%list_elem_of_singleton]%elem_of_app; [by apply Hl|by subst]. }
  intros (tk & prev & d' & Hf & Hrep).
  assert (∀ e, e ∈ onTarget tk (l ++ [d]) → e ∈ l ∨ e = d) as Hin.
  { intros e [_ He]%list_elem_of_filter. apply elem_of_app in He as [?|?%list_elem_of_singleton]; auto. }
  assert (∀ e, e ∈ l → d_id e ≠ d_id d) as Hne by (intros e He; by apply Hl in He as (_ & ? & _)).
  destruct Hrep as [[Ht Hx]|[[Ht Hx]|(_ & _ & Hx)]].
  - destruct (Hin d' (follows_elem _ _ _ _ Hf)) as [Hd| ->]; [by apply Hl in Hd as (_ & _ & ? & _)|congruence].
  - destruct (Hin d' (follows_elem _ _ _ _ Hf)) as [Hd| ->]; [by apply Hl in Hd as (_ & _ & _ & ?)|congruence].
  - destruct prev as [e|]; [|done]. injection Hx as Hx.
    destruct (Hin e (follows_prev_elem _ _ _ Hf)) as [He| ->]; [by apply Hne in He|].
    by apply last_not_followed in Hf; [|intros Hd; apply Hne in Hd].
Qed.

Lemma validate_Ok g i v :
  validateOverrideRecord g i = Ok v →
  getClassPolicy g (vr_class v) = Some (vr_policy v) ∧ authorizeOverrideActor (vi_authorize i) (vr_policy v) = Ok (vr_authorization v).
Proof.
  unfold validateOverrideRecord. destruct (resolveClassId g _) as [c|]; [|done].
  destruct (getClassPolicy g c) as [policy|] eqn:Ep; [|done]. destruct (blank _); [done|].
  destruct (recordEvidenceRefs i) as [refs rem]. destruct (missingRequiredEvidence _ _ _); [|done].
  destruct (authorizeOverrideActor _ _) as [auth|] eqn:Ea; [|done]. by intros [= <-].
Qed.

Section Recording.
Context (Date_parse : string → option Z) (isoOfMs : Z → option string) (showJs : jsnum → string).
Context (sha1hex : string → string) (showNum : rnum → string).
Notation recordCommand := (recordCommand Date_parse isoOfMs showJs).
Notation decisionsOf := (extractOverrideDecisions Date_parse isoOfMs).
Notation liveOf := (liveOfFindings sha1hex showNum).
Notation project := (projectOverridesForPartition Date_parse isoOfMs sha1hex showNum).

(** The comment the command posts for a decision. *)
Definition overrideComment (author created : option string) (d : OverrideDecision) : OverrideComment :=
  match d_target d with
  | TargetKey k => mkComment author created FindingOverrideHeading (Some (govPayloadFromDecision d)) (Some (KeySentinel k (d_disposition d)))
  | TargetScope t v =>
      mkComment author created ScopeOverrideHeading (Some (govPayloadFromDecision d))
        (Some (ScopeSentinel t v (d_disposition d +:+ " | " +:+ d_explanation d)))
  end.

Lemma live_scope findings t v : liveOf findings !! targetKey (TargetScope t v) = None.
Proof.
  unfold liveOf.
  assert (∀ (l : list ReviewFinding) (m : gmap string LiveContext), m !! targetKey (TargetScope t v) = None →
    foldl (addLive sha1hex showNum) m l
    !! targetKey (TargetScope t v) = None) as H; [|apply H, lookup_empty].
  induction l as [|f l IH]; intros m Hm; [done|]. cbn [foldl]. apply IH. unfold addLive.
  rewrite lookup_insert_ne; [done|]. intros [=].
Qed.

Lemma record_Ok g actor allowlist id cls target disp reason created d :
  recordCommand g actor allowlist id cls target disp reason created = Ok (Ok d) →
  d_id d = id ∧ d_target d = target ∧ d_disposition d = disp ∧ d_lifecycle d = StoredActive ∧ d_subject d = None ∧
  d_fingerprint d = None ∧ d_code_region d = None ∧ d_supersedes d = None ∧ d_renewed_from d = None ∧
  az_authorized (d_authorization d) = true ∧ is_Some (getClassPolicy g (d_class d)) ∧
  decisionOfComment Date_parse isoOfMs (overrideComment actor (Some created) d) = Some d.
Proof.
  unfold recordCommand, buildOverrideDecision. intros H. inv_bind H. injection H as H. inv_bind H. injection H as <-.
  apply validate_Ok in E as [Hc Ha]. apply authorize_Ok in Ha as [Ha Hs]. simpl in Hs.
  destruct x as [cl pol [ok rule ev src] refs expl]. simpl in *. subst. split_and!; try done.
  by destruct target.
Qed.

(** A recorded override takes effect and lasts: what the command accepts is
    read back unchanged from the comment it posts, and until it expires it is
    the active decision of its target, so that the partition is handed its
    disposition, as long as its id is fresh and no comment follows. *)
Theorem recorded_override_effective g actor allowlist id cls target disp reason created d comments pin now findings :
  recordCommand g actor allowlist id cls target disp reason created = Ok (Ok d) → id ≠ "" →
  (∀ e, e ∈ decisionsOf comments → d_id e ≠ "" ∧ d_id e ≠ id ∧ d_supersedes e ≠ Some id ∧ d_renewed_from e ≠ Some id) →
  (∀ ms, Date_parse (d_expires_at d) = Some ms → (now < ms)%Z) →
  decisionOfComment Date_parse isoOfMs (overrideComment actor (Some created) d) = Some d ∧
  let p := project (comments ++ [overrideComment actor (Some created) d]) g pin now findings in
  match target with
  | TargetKey k => p.1 !! k = Some disp
  | TargetScope t v => mkScope t v disp (d_explanation d) ∈ p.2
  end.
Proof.
  intros Hrec Hid Hfresh Hexp. destruct (record_Ok _ _ _ _ _ _ _ _ _ _ Hrec) as (<- & <- & <- & Hl & Hs & Hf & Hr & Hsup & Hren & Ha & Hc & Hback).
  split; [done|]. intros p. subst p. unfold project.
  assert (decisionsOf (comments ++ [overrideComment actor (Some created) d]) = decisionsOf comments ++ [d]) as Hdecs.
  { unfold extractOverrideDecisions. rewrite omap_app. simpl. by rewrite Hback. }
  rewrite Hdecs. set (decs := decisionsOf comments ++ [d]). set (active := activeByTarget _ _ _ _ _ _).
  assert (oget active (targetKey (d_target d)) = Some d) as Hact.
  { change active with (activeFold (validityIn Date_parse decs g pin now (liveOf findings)) decs). rewrite activeFold_last.
    subst decs. rewrite filter_app, filter_cons, filter_nil, decide_True; [by rewrite last_snoc|]. split; [done|].
    apply validity_active. split.
    - split; rewrite ?Hl, ?Hs, ?Hf, ?Hr; try done; [| |by left|by destruct pin|by left].
      + rewrite !elem_of_cons, elem_of_nil. naive_solver.
      + intros (t & v & Ht). by rewrite Ht, live_scope.
    - apply last_unreplaced; rewrite ?Hsup, ?Hren; done. }
  destruct (active_projection Date_parse decs g pin now (liveOf findings)) as [Hnd Hwf].
  destruct (inputs_spec _ Hnd (fun tk d H => proj1 (Hwf tk d H))) as [Hk Hsc].
  destruct (d_target d) as [k|t v] eqn:Et; [apply Hk; eauto|]. apply Hsc. exists d. by rewrite Et.
Qed.
End Recording.
