(* ===== verification/ReviewHistory.v ===== *)
(** * Cross-round review memory

    [core/scripts/review-history.ts]: the digest of what earlier rounds decided,
    derived from the trusted comments of an issue, the settled findings and
    prior advisories read off it, the count of delta rounds and the churn
    detector.  A comment is modelled by what its markers read as. *)

From Stdlib Require Import QArith Qcanon Ascii.
From stdpp Require Import base numbers gmap strings list sorting.
From S2P Require Import Prelude ReviewFindings ReviewPolicy EvidenceSubject OverrideGovernance.

(** ** Comments *)

Record FindingRecord := mkFindingRecord {
  fr_key : string;
  fr_surface : option string;
  fr_severity : string;
  fr_title : string;
  fr_confidence : option rnum;
  fr_rejected : list string
}.

Record ReviewArtifact := mkReviewArtifact {
  ar_reviewed_sha : string;
  ar_blocking_keys : list string;
  ar_blocking : option (list FindingRecord);
  ar_advisory : option (list FindingRecord)
}.

(** The markers of a review comment: the artifact, the blocking keys and
    surfaces markers, the legacy commit marker, and the same marker read with
    the looser expression of [deltaReviewCandidateSha]. *)
Record ReviewMarkers := mkMarkers {
  rm_artifact : option ReviewArtifact;
  rm_keys : option (list string);
  rm_surfaces : obj string;
  rm_legacy_sha : option string;
  rm_loose_sha : option string
}.

Inductive HistoryBody :=
| ReviewBody (m : ReviewMarkers)
| DeltaBody (m : ReviewMarkers)
| KeyOverrideBody (first : option (string * string))
| ScopeOverrideBody (all : list (ScopeType * string * string))
| OtherBody.

Record HistoryComment := mkHistoryComment { hc_author : option string; hc_body : HistoryBody }.

(** ** The digest *)

Inductive Resolution := ResolvedByFix | ByOverride | StillOpen.

#[export] Instance Resolution_eq_dec : EqDecision Resolution.
Proof. solve_decision. Defined.

Record DigestEntry := mkEntry {
  de_key : string;
  de_surface : option string;
  de_severity : string;
  de_title : string;
  de_resolution : Resolution;
  de_override : option (string * nat);
  de_confidence : option rnum;
  de_rejected : list string
}.

Record DigestRound := mkRound {
  dr_round : nat;
  dr_sha : option string;
  dr_entries : list DigestEntry;
  dr_advisory : list FindingRecord
}.

Definition entryOfRecord (r : FindingRecord) : DigestEntry :=
  mkEntry (fr_key r) (fr_surface r) (fr_severity r) (fr_title r) StillOpen None (fr_confidence r) (fr_rejected r).

Definition entryOfKey (surfaces : obj string) (key : string) : DigestEntry :=
  mkEntry key (oget surfaces key) "unknown" TITLE_UNAVAILABLE StillOpen None None [].

(** The fallback ladder of a comment's markers. *)
Definition extractRoundEntries (m : ReviewMarkers) : list DigestEntry :=
  match rm_artifact m with
  | Some (mkReviewArtifact _ _ (Some records) _) => entryOfRecord <$> records
  | artifact =>
      let keys := match rm_keys m, artifact with
                  | Some ks, _ => Some ks
                  | None, Some a => Some (ar_blocking_keys a)
                  | None, None => if decide (rm_surfaces m = []) then None else Some (okeys (rm_surfaces m))
                  end in
      match keys with
      | None => []
      | Some ks => entryOfKey (rm_surfaces m) <$> js_sort (remove_dups ks)
      end
  end.

Definition extractAdvisoryEntries (m : ReviewMarkers) : list FindingRecord :=
  match rm_artifact m with Some a => default [] (ar_advisory a) | None => [] end.

Definition identityOf (e : DigestEntry) : string := default ("key:" +:+ de_key e) (de_surface e).

Record ScopeRecord := mkScopeRecord { sr_type : ScopeType; sr_value : string; sr_reason : string; sr_round : nat }.

(** The first pass: rounds and override records, in order of appearance. *)
Record DigestState := mkDigestState {
  ds_rounds : list DigestRound;
  ds_keys : gmap string (string * nat);
  ds_scopes : obj ScopeRecord
}.

Definition addScope (round : nat) (o : obj ScopeRecord) (p : ScopeType * string * string) : obj ScopeRecord :=
  let '(t, v, captured) := p in
  oset (scope_type_name t +:+ ":" +:+ v) (mkScopeRecord t v (splitCaptured captured).2 round) o.

Definition readMarkers (s : DigestState) (m : ReviewMarkers) : DigestState :=
  let sha := match rm_artifact m with Some a => Some (ar_reviewed_sha a) | None => rm_legacy_sha m end in
  mkDigestState (ds_rounds s ++ [mkRound (S (length (ds_rounds s))) sha (extractRoundEntries m) (extractAdvisoryEntries m)])
    (ds_keys s) (ds_scopes s).

Definition readComment (actor : string) (trusted : list string) (s : DigestState) (c : HistoryComment) : DigestState :=
  let roundCounter := length (ds_rounds s) in
  let byTrusted := match hc_author c with Some a => includes a (actor :: trusted) | None => false end in
  match hc_body c with
  | ReviewBody m | DeltaBody m => if decide (hc_author c = Some actor) then readMarkers s m else s
  | KeyOverrideBody (Some (key, text)) =>
      if byTrusted then mkDigestState (ds_rounds s) (<[key := (js_trim text, roundCounter)]> (ds_keys s)) (ds_scopes s) else s
  | ScopeOverrideBody all =>
      if byTrusted then mkDigestState (ds_rounds s) (ds_keys s) (foldl (addScope roundCounter) (ds_scopes s) all) else s
  | _ => s
  end.

(** The file and the category of a surface. *)
Definition splitSurface (surface : string) : option string * option string :=
  let l := chars surface in
  match indexOf "|"%char l with
  | Some n => (Some (unchars (take n l)), let cat := unchars (drop (S n) l) in if decide (cat = "") then None else Some cat)
  | None => (Some surface, None)
  end.

Definition scopeCovers (surface : string) (r : ScopeRecord) : bool :=
  let (file, category) := splitSurface surface in
  matchFindingScope category file (mkScope (sr_type r) (sr_value r) "" (sr_reason r)).

(** The override that settles an entry, by key first. *)
Definition overrideOf (s : DigestState) (e : DigestEntry) : option (string * nat) :=
  match ds_keys s !! de_key e with
  | Some o => Some o
  | None =>
      match de_surface e with
      | Some surface => (fun r => (sr_reason r, sr_round r)) <$> find (scopeCovers surface) (ovalues (ds_scopes s))
      | None => None
      end
  end.

Definition appearsIn (id : string) (r : DigestRound) : bool := existsb (fun e => bool_decide (identityOf e = id)) (dr_entries r).

(** The second pass, on one entry: the rounds after its own are [later]. *)
Definition resolveEntry (s : DigestState) (later : list DigestRound) (e : DigestEntry) : DigestEntry :=
  let set r o := mkEntry (de_key e) (de_surface e) (de_severity e) (de_title e) r o (de_confidence e) (de_rejected e) in
  match overrideOf s e with
  | Some o => set ByOverride (Some o)
  | None => set (if existsb (appearsIn (identityOf e)) later then StillOpen else ResolvedByFix) None
  end.

Fixpoint resolveRounds (s : DigestState) (rounds : list DigestRound) : list DigestRound :=
  match rounds with
  | [] => []
  | r :: later => mkRound (dr_round r) (dr_sha r) (resolveEntry s later <$> dr_entries r) (dr_advisory r) :: resolveRounds s later
  end.

Definition firstPass (actor : string) (trusted : list string) (comments : list HistoryComment) : DigestState :=
  foldl (readComment actor trusted) (mkDigestState [] ∅ []) comments.

Definition buildPriorRoundDigest (comments : list HistoryComment) (actor : option string) (trusted : list string) : list DigestRound :=
  match actor with
  | None => []
  | Some a => let s := firstPass a trusted comments in resolveRounds s (ds_rounds s)
  end.

(** ** What later rounds read off the digest *)

Definition isSettled (e : DigestEntry) : bool := match de_resolution e with StillOpen => false | _ => true end.

Definition settledOf (r : DigestRound) (e : DigestEntry) : SettledFinding :=
  mkSettled (de_key e) (de_surface e) (de_title e) (dr_round r) (de_rejected e).

Definition settledFindings (digest : list DigestRound) : list SettledFinding :=
  r ← digest; settledOf r <$> filter (fun e => isSettled e = true) (dr_entries r).

(** All entries with their rounds, in order. *)
Definition allEntries (digest : list DigestRound) : list (DigestRound * DigestEntry) := r ← digest; (r,.) <$> dr_entries r.

(** [Map.set] for every element in turn. *)
Definition latestBy {A} (key : A → string) (l : list A) : obj A := foldl (fun o x => oset (key x) x o) [] l.

Section History.
(** [a.localeCompare(b) <= 0]. *)
Context (localeLe : string → string → bool).

Definition byKeyLe {A} (key : A → string) (x y : A) : Prop := localeLe (key x) (key y) = true.

#[local] Instance byKeyLe_dec {A} (key : A → string) : RelDecision (byKeyLe key).
Proof. intros x y. unfold byKeyLe. apply _. Defined.

Definition verificationOf (p : DigestRound * DigestEntry) : SettledFindingVerification :=
  mkVerification (de_key p.2) (de_surface p.2) (de_title p.2) (dr_round p.1) (bool_decide (de_resolution p.2 = ByOverride)).

Definition settledFindingsVerification (digest : list DigestRound) : list SettledFindingVerification :=
  merge_sort (byKeyLe sv_key)
    (verificationOf <$> filter (fun p => isSettled p.2 = true) (ovalues (latestBy (fun p => de_key p.2) (allEntries digest)))).

Definition advisoryOf (r : DigestRound) (f : FindingRecord) : PriorAdvisoryFinding :=
  mkPrior (fr_key f) (fr_surface f) (fr_title f) (dr_round r).

(** The advisories of the rounds that blocked nothing. *)
Definition eligibleAdvisories (digest : list DigestRound) : list PriorAdvisoryFinding :=
  r ← digest; if decide (dr_entries r = []) then advisoryOf r <$> dr_advisory r else [].

Definition priorAdvisoryFindings (digest : list DigestRound) : list PriorAdvisoryFinding :=
  merge_sort (byKeyLe pa_key) (ovalues (latestBy pa_key (eligibleAdvisories digest))).
End History.

Definition surfaceFiles (surfaces : list (option string)) : list string :=
  js_sort (remove_dups (filter (.≠ "") (omap (fun o => match o with Some s => (splitSurface s).1 | None => None end) surfaces))).

Definition settledFindingsSurfaceFiles (entries : list SettledFindingVerification) : list string := surfaceFiles (sv_surface <$> entries).
Definition priorAdvisorySurfaceFiles (entries : list PriorAdvisoryFinding) : list string := surfaceFiles (pa_surface <$> entries).

(** ** Delta rounds *)

Definition trustedDelta (actor : string) (trusted : list string) (c : HistoryComment) : option ReviewMarkers :=
  match hc_author c, hc_body c with
  | Some a, DeltaBody m => if includes a (actor :: trusted) then Some m else None
  | _, _ => None
  end.

Definition countDeltaRounds (comments : list HistoryComment) (actor : option string) (trusted : list string) : nat :=
  match actor with None => 0 | Some a => length (omap (trustedDelta a trusted) comments) end.

Definition deltaReviewCandidateSha (m : ReviewMarkers) : option string :=
  match rm_artifact m with
  | Some a => if isFullSha (ar_reviewed_sha a) then Some (ar_reviewed_sha a) else None
  | None => rm_loose_sha m
  end.

(** The commit of the latest delta review; [Some None] is the unknown one. *)
Definition latestDeltaReviewCandidate (comments : list HistoryComment) (actor : option string) (trusted : list string)
    : option (option string) :=
  match actor with
  | None => None
  | Some a => deltaReviewCandidateSha <$> last (omap (trustedDelta a trusted) comments)
  end.

(** ** The churn detector *)

Record ChurnAxis := mkAxis { ax_surface : string; ax_prior_max : Qc; ax_new : Qc }.

Definition finiteConfidence (o : option rnum) : option Qc := match o with Some (Num q) => Some q | _ => None end.

Definition qmax (a b : Qc) : Qc := if decide (a < b)%Qc then b else a.

(** One turn of the loop: the axis of a finding, when nothing speaks against. *)
Definition churnAxis (digest : list DigestRound) (f : ReviewFinding) : option ChurnAxis :=
  match surfaceKey f, finiteConfidence (f_confidence f) with
  | Some axis, Some c =>
      let onAxis := filter (fun e => de_surface e = Some axis) (snd <$> allEntries digest) in
      match onAxis with
      | [] => None
      | e :: rest =>
          if forallb isSettled onAxis then
            match mapM (fun e => finiteConfidence (de_confidence e)) onAxis with
            | Some (q :: qs) =>
                let priorMax := foldl qmax q qs in
                if decide (c < priorMax)%Qc then Some (mkAxis axis priorMax c) else None
            | _ => None
            end
          else None
      end
  | _, _ => None
  end.

(** The axes when churn is suspected. *)
Definition detectSuspectedChurn (blocking : list ReviewFinding) (digest : list DigestRound) : option (list ChurnAxis) :=
  match blocking with
  | [] => None
  | _ => mapM (churnAxis digest) blocking
  end.

(** ** The digest is exact and trusts only trusted comments *)

Definition trustedHistory (actor : string) (trusted : list string) (c : HistoryComment) : bool :=
  match hc_author c with Some a => includes a (actor :: trusted) | None => false end.

Lemma readComment_untrusted actor trusted s c : trustedHistory actor trusted c = false → readComment actor trusted s c = s.
Proof.
  unfold trustedHistory, readComment. intros H.
  assert (hc_author c ≠ Some actor) as Hne.
  { intros Ha. rewrite Ha in H. apply includes_false in H. apply H. left. }
  destruct (hc_body c) as [m|m|[[k t]|]|all|]; try done; [by rewrite decide_False|by rewrite decide_False|by rewrite H|by rewrite H].
Qed.

Lemma firstPass_trusted actor trusted comments :
  firstPass actor trusted (filter (fun c => trustedHistory actor trusted c = true) comments) = firstPass actor trusted comments.
Proof.
  unfold firstPass. generalize (mkDigestState [] ∅ []). induction comments as [|c cs IH]; intros s; [done|].
  rewrite filter_cons. case_decide as Hc; [apply IH|]. simpl. rewrite readComment_untrusted; [apply IH|].
  by apply not_true_is_false.
Qed.

Lemma firstPass_numbered actor trusted comments i r :
  ds_rounds (firstPass actor trusted comments) !! i = Some r → dr_round r = S i.
Proof.
  unfold firstPass.
  assert (∀ s, (∀ i r, ds_rounds s !! i = Some r → dr_round r = S i) →
    ∀ i r, ds_rounds (foldl (readComment actor trusted) s comments) !! i = Some r → dr_round r = S i) as H; [|by apply H].
  induction comments as [|c cs IH]; intros s Hs; simpl; [done|]. apply IH. clear i r. intros i r.
  assert (∀ m, ds_rounds (readMarkers s m) !! i = Some r → dr_round r = S i) as Hm.
  { intros m. unfold readMarkers. cbn [ds_rounds]. intros [Hl|[? Hl]]%lookup_app_Some; [by apply Hs|].
    apply list_lookup_singleton_Some in Hl as [? <-]. simpl. lia. }
  unfold readComment. destruct (hc_body c) as [m|m|[[k t]|]|all|]; repeat case_match; cbn [ds_rounds]; try apply Hm; apply Hs.
Qed.

Lemma resolve_lookup s rounds i :
  resolveRounds s rounds !! i =
  (fun r => mkRound (dr_round r) (dr_sha r) (resolveEntry s (drop (S i) rounds) <$> dr_entries r) (dr_advisory r)) <$> rounds !! i.
Proof. revert i. induction rounds as [|r rounds IH]; intros [|i]; simpl; [done..|]. apply IH. Qed.

Lemma resolve_identity s later e : identityOf (resolveEntry s later e) = identityOf e.
Proof. unfold resolveEntry. by destruct (overrideOf s e). Qed.

Lemma resolve_override s later e : overrideOf s (resolveEntry s later e) = overrideOf s e.
Proof. unfold resolveEntry. destruct (overrideOf s e) eqn:E; unfold overrideOf in *; simpl; done. Qed.

Lemma appears_later id later : existsb (appearsIn id) later = true ↔ ∃ r e, r ∈ later ∧ e ∈ dr_entries r ∧ identityOf e = id.
Proof.
  rewrite existsb_elem. unfold appearsIn. setoid_rewrite existsb_elem. setoid_rewrite bool_decide_eq_true. naive_solver.
Qed.

(** The digest is derived exactly and from trusted comments only: comments
    of other authors change nothing and without an actor there is no digest;
    rounds are numbered in order; an entry is overridden exactly when an override
    of its key or of its surface is recorded, and otherwise still open exactly
    when the same finding blocks in a later round. *)
Theorem digest_exact comments actor trusted :
  buildPriorRoundDigest comments None trusted = [] ∧
  buildPriorRoundDigest (filter (fun c => trustedHistory actor trusted c = true) comments) (Some actor) trusted =
    buildPriorRoundDigest comments (Some actor) trusted ∧
  let digest := buildPriorRoundDigest comments (Some actor) trusted in
  ∀ i r e, digest !! i = Some r → e ∈ dr_entries r →
    dr_round r = S i ∧
    (de_resolution e = ByOverride ↔ is_Some (overrideOf (firstPass actor trusted comments) e)) ∧
    (de_resolution e = StillOpen ↔
      overrideOf (firstPass actor trusted comments) e = None ∧
      ∃ j r' e', i < j ∧ digest !! j = Some r' ∧ e' ∈ dr_entries r' ∧ identityOf e' = identityOf e).
Proof.
  split; [done|]. split; [unfold buildPriorRoundDigest; by rewrite firstPass_trusted|].
  intros digest i r e Hr He. subst digest. unfold buildPriorRoundDigest in *. set (s := firstPass actor trusted comments) in *.
  rewrite resolve_lookup in Hr. apply fmap_Some in Hr as (r0 & Hr0 & ->). simpl in He.
  apply list_elem_of_fmap in He as (e0 & -> & He0). rewrite resolve_override, resolve_identity.
  split; [exact (firstPass_numbered actor trusted comments i r0 Hr0)|].
  assert ((∃ j r' e', i < j ∧ resolveRounds s (ds_rounds s) !! j = Some r' ∧ e' ∈ dr_entries r' ∧ identityOf e' = identityOf e0) ↔
    existsb (appearsIn (identityOf e0)) (drop (S i) (ds_rounds s)) = true) as ->.
  { rewrite appears_later. split.
    - intros (j & r' & e' & Hij & Hj & He' & Hid). rewrite resolve_lookup in Hj. apply fmap_Some in Hj as (rj & Hj & ->).
      simpl in He'. apply list_elem_of_fmap in He' as (ej & -> & Hej). rewrite resolve_identity in Hid. exists rj, ej.
      split; [|done]. apply list_elem_of_lookup. exists (j - S i). rewrite lookup_drop. by replace (S i + (j - S i)) with j by lia.
    - intros (rj & ej & Hrj & Hej & Hid). apply list_elem_of_lookup in Hrj as [k Hk]. rewrite lookup_drop in Hk.
      eexists (S i + k), _, (resolveEntry s (drop (S (S i + k)) (ds_rounds s)) ej). rewrite resolve_lookup, Hk.
      split; [lia|]. split; [done|]. split; [cbn [dr_entries]; apply list_elem_of_fmap; by exists ej|]. by rewrite resolve_identity. }
  unfold resolveEntry. destruct (overrideOf s e0); simpl; [split; [naive_solver|naive_solver]|].
  destruct (existsb _ _); simpl; unfold is_Some; naive_solver.
Qed.

(** ** The latest record of a key wins *)

Lemma latestBy_last {A} (key : A → string) (l : list A) k : oget (latestBy key l) k = last (filter (fun x => key x = k) l).
Proof.
  unfold latestBy. induction l as [|x l IH] using rev_ind; [done|].
  rewrite foldl_app. cbn [foldl]. rewrite filter_app, filter_cons, filter_nil.
  destruct (decide (key x = k)) as [<-|Hne]; [by rewrite oget_oset_eq, last_snoc|].
  rewrite oget_oset_ne by done. by rewrite app_nil_r.
Qed.

Lemma latestBy_keys {A} (key : A → string) (l : list A) : NoDup (okeys (latestBy key l)).
Proof.
  unfold latestBy. induction l as [|x l IH] using rev_ind; [constructor|]. rewrite foldl_app. by apply NoDup_okeys_oset.
Qed.

Lemma latestBy_elem {A} (key : A → string) (l : list A) x :
  x ∈ ovalues (latestBy key l) ↔ last (filter (fun y => key y = key x) l) = Some x.
Proof.
  rewrite elem_ovalues. split.
  - intros [k Hk]. apply elem_oget in Hk; [|apply latestBy_keys]. rewrite latestBy_last in Hk.
    pose proof (last_Some_elem_of _ _ Hk) as [<- _]%list_elem_of_filter. done.
  - intros Hl. exists (key x). apply oget_Some_elem. by rewrite latestBy_last.
Qed.

(** Only the latest word on a finding counts: an entry is offered for
    verification exactly when the last entry of its key over all rounds is
    settled, so a finding that blocked again after it was settled is not
    presumed resolved; and an advisory is carried forward exactly when it is the
    last one of its key among the rounds that blocked nothing. *)
Theorem latest_record_wins localeLe digest :
  (∀ v, v ∈ settledFindingsVerification localeLe digest ↔
     ∃ r e, last (filter (fun p => de_key p.2 = de_key e) (allEntries digest)) = Some (r, e) ∧
       de_resolution e ≠ StillOpen ∧ v = verificationOf (r, e)) ∧
  (∀ p, p ∈ priorAdvisoryFindings localeLe digest ↔
     last (filter (fun q => pa_key q = pa_key p) (eligibleAdvisories digest)) = Some p).
Proof.
  split.
  - intros v. unfold settledFindingsVerification. rewrite merge_sort_Permutation, list_elem_of_fmap.
    setoid_rewrite list_elem_of_filter. setoid_rewrite (latestBy_elem (fun p => de_key p.2)). split.
    + intros ([r e] & -> & Hs & Hl). exists r, e. split; [done|]. split; [|done]. unfold isSettled in Hs. simpl in Hs. by destruct (de_resolution e).
    + intros (r & e & Hl & Hs & ->). exists (r, e). split; [done|]. split; [|done]. unfold isSettled. simpl. by destruct (de_resolution e).
  - intros p. unfold priorAdvisoryFindings. rewrite merge_sort_Permutation. apply latestBy_elem.
Qed.

(** ** Churn *)

Lemma qmax_fold q qs c : (c < foldl qmax q qs)%Qc ↔ (c < q)%Qc ∨ ∃ x, x ∈ qs ∧ (c < x)%Qc.
Proof.
  revert q. induction qs as [|x qs IH]; intros q; simpl; [split; [by left|intros [?|(x & Hx & _)]; [done|inversion Hx]]|].
  rewrite IH. setoid_rewrite elem_of_cons. unfold qmax. case_decide as Hlt.
  - split; [intros [?|(y & ? & ?)]; eauto|]. intros [?|(y & [->|?] & ?)]; [left; by eapply Qclt_trans|by left|eauto].
  - apply Qcnot_lt_le in Hlt. split; [intros [?|(y & ? & ?)]; eauto|].
    intros [?|(y & [->|?] & ?)]; [by left|left; by eapply Qclt_le_trans|eauto].
Qed.

Lemma mapM_elem {A B} (g : A → option B) l k : mapM g l = Some k → ∀ y, y ∈ k ↔ ∃ x, x ∈ l ∧ g x = Some y.
Proof.
  revert k. induction l as [|x l IH]; intros k; simpl.
  { intros [= <-] y. split; [intros H; inversion H|intros (x & H & _); inversion H]. }
  destruct (g x) as [b|] eqn:E; simpl; [|done]. destruct (mapM g l) as [k'|]; simpl; [|done]. intros [= <-] y.
  rewrite elem_of_cons, (IH k' eq_refl), (elem_cons_ex (fun z => g z = Some y)), E. naive_solver.
Qed.

Lemma mapM_all {A B} (g : A → option B) l k : mapM g l = Some k → ∀ x, x ∈ l → is_Some (g x).
Proof. intros H. apply Forall_forall, mapM_is_Some. by eexists. Qed.

(** The conditions of the detector for one finding. *)
Definition Churns (digest : list DigestRound) (f : ReviewFinding) : Prop :=
  ∃ axis c, surfaceKey f = Some axis ∧ f_confidence f = Some (Num c) ∧
    (∀ r e, (r, e) ∈ allEntries digest → de_surface e = Some axis →
       de_resolution e ≠ StillOpen ∧ ∃ q, de_confidence e = Some (Num q)) ∧
    (∃ r e q, (r, e) ∈ allEntries digest ∧ de_surface e = Some axis ∧ de_confidence e = Some (Num q) ∧ (c < q)%Qc).

Lemma finite_Some o q : finiteConfidence o = Some q ↔ o = Some (Num q).
Proof. destruct o as [[]|]; naive_solver. Qed.

Lemma churnAxis_spec digest f : is_Some (churnAxis digest f) ↔ Churns digest f.
Proof.
  unfold churnAxis, Churns. destruct (surfaceKey f) as [axis|]; [|split; [intros [? ?]; done|naive_solver]].
  destruct (finiteConfidence (f_confidence f)) as [c|] eqn:Ec.
  2:{ split; [intros [? ?]; done|]. intros (? & c & _ & Hc & _). apply finite_Some in Hc. congruence. }
  apply finite_Some in Ec. set (on := filter _ _).
  assert (∀ e, e ∈ on ↔ ∃ r, (r, e) ∈ allEntries digest ∧ de_surface e = Some axis) as Hon.
  { intros e. subst on. rewrite list_elem_of_filter, list_elem_of_fmap. split.
    - intros (Hs & [r e'] & -> & Hin). eauto.
    - intros (r & Hin & Hs). split; [done|]. by exists (r, e). }
  assert (forallb isSettled on = true ↔ ∀ r e, (r, e) ∈ allEntries digest → de_surface e = Some axis → de_resolution e ≠ StillOpen) as Hset.
  { rewrite forallb_elem. split.
    - intros H r e Hin Hs He. assert (isSettled e = true) as Hx by (apply H, Hon; eauto). unfold isSettled in Hx. by rewrite He in Hx.
    - intros H e (r & Hin & Hs)%Hon. unfold isSettled. specialize (H r e Hin Hs). by destruct (de_resolution e). }
  destruct on as [|e0 rest] eqn:Eon.
  { split; [intros [? ?]; done|]. intros (axis' & c' & [= <-] & _ & _ & r & e & q & Hin & Hs & _).
    assert (e ∈ []) as Hx by (apply Hon; eauto). inversion Hx. }
  assert (on ≠ []) as Hne by (by rewrite Eon). rewrite <-Eon in *. clear Eon e0 rest.
  destruct (forallb isSettled on) eqn:Ef.
  2:{ split; [intros [? ?]; done|]. intros (axis' & c' & [= <-] & _ & Hall & _). exfalso.
      assert (false = true) as Hx; [|done]. apply Hset. intros r e Hin Hs. by apply (Hall r e). }
  destruct Hset as [Hset _]. specialize (Hset eq_refl).
  destruct (mapM (fun e => finiteConfidence (de_confidence e)) on) as [qs|] eqn:Em.
  - pose proof (mapM_elem _ _ _ Em) as Hq. setoid_rewrite finite_Some in Hq.
    assert (∃ q qs', qs = q :: qs') as (q & qs' & ->).
    { destruct qs as [|q qs']; [|eauto]. apply length_mapM in Em. by destruct on. }
    assert (is_Some (if decide (c < foldl qmax q qs')%Qc then Some (mkAxis axis (foldl qmax q qs') c) else None) ↔
      (c < foldl qmax q qs')%Qc) as ->.
    { case_decide; split; done. }
    rewrite qmax_fold. split.
    + intros Hlt. exists axis, c. split; [done|]. split; [done|]. split.
      * intros r e Hin Hs. split; [by eapply Hset|]. destruct (mapM_all _ _ _ Em e) as [x Hx]; [apply Hon; eauto|].
        apply finite_Some in Hx. eauto.
      * assert (∃ x, x ∈ q :: qs' ∧ (c < x)%Qc) as (x & Hx & Hlt'); [|apply Hq in Hx as (e & (r & ? & ?)%Hon & ?); eauto 10].
        destruct Hlt as [?|(x & ? & ?)]; [exists q|exists x]; (split; [|done]); [left|by right].
    + intros (axis' & c' & [= <-] & Hc & _ & r & e & x & Hin & Hs & Hx & Hlt). rewrite Ec in Hc. injection Hc as <-.
      assert (x ∈ q :: qs') as [->|?]%elem_of_cons by (apply Hq; exists e; split; [apply Hon; eauto|done]); [by left|eauto].
  - split; [intros [? ?]; done|]. intros (axis' & c' & [= <-] & _ & Hall & _). exfalso.
    apply mapM_None_1 in Em as Hex. apply Exists_exists in Hex as (e & He & Hn). apply Hon in He as (r & Hin & Hs).
    destruct (Hall r e Hin Hs) as (_ & x & Hx). by rewrite Hx in Hn.
Qed.

(** Churn is reported exactly when some finding blocks and every blocking
    finding lies on a surface whose earlier findings are all settled and carry
    confidences, one of which exceeds the new one. *)
Theorem churn_exact blocking digest :
  is_Some (detectSuspectedChurn blocking digest) ↔ blocking ≠ [] ∧ ∀ f, f ∈ blocking → Churns digest f.
Proof.
  unfold detectSuspectedChurn. destruct blocking as [|f l]; [split; [intros [? ?]; done|naive_solver]|].
  rewrite mapM_is_Some, Forall_forall. setoid_rewrite churnAxis_spec. naive_solver.
Qed.
