(* ===== verification/ReviewGate.v ===== *)
(** * The pre-merge delta review gate

    [core/scripts/stages/pre-merge-sha-gate.ts]: the route an entry of the gate
    takes, the findings outstanding at the round ceiling, and the composition of
    the review components over one delta verdict: governed overrides, the
    severity partition, the evidence rule for settled findings, the carry-forward
    of prior advisories and the churn label. *)

From Stdlib Require Import QArith Qcanon Ascii.
From stdpp Require Import base numbers gmap strings list.
From S2P Require Import Prelude Ownership ReviewFindings ReviewPolicy EvidenceSubject OverrideGovernance ReviewHistory.

(** ** The route *)

Inductive DeltaRoute := RouteFullReview | RouteCeiling | RouteDelta.

#[export] Instance DeltaRoute_eq_dec : EqDecision DeltaRoute.
Proof. solve_decision. Defined.

(** [count] delta rounds were spent of a cap where 0 means none; [superseded]
    says that the latest one reviewed another commit than the head. *)
Definition deltaRoute (count cap : nat) (superseded : bool) : DeltaRoute :=
  let staleCeilingReset := (count =? cap)%nat && superseded in
  let spentResetWasSuperseded := (cap <? count)%nat && superseded in
  if ((0 <? cap) && (cap <=? count))%nat && spentResetWasSuperseded then RouteFullReview
  else if ((0 <? cap) && (cap <=? count))%nat && negb staleCeilingReset then RouteCeiling
  else RouteDelta.

Definition latestDeltaWasSuperseded (candidate : option (option string)) (head : string) : bool :=
  match candidate with Some (Some sha) => bool_decide (lowerString sha ≠ lowerString head) | _ => false end.

Definition gateRoute (comments : list HistoryComment) (actor : option string) (trusted : list string) (cap : nat) (head : string)
    : DeltaRoute :=
  deltaRoute (countDeltaRounds comments actor trusted) cap
    (latestDeltaWasSuperseded (latestDeltaReviewCandidate comments actor trusted) head).

(** ** The ceiling *)

Inductive CeilingOutcome := CeilingProceeds | CeilingBlocks | CeilingDemotes (deferred : list FindingRecord).

Definition ceilingOutstanding (raw : list FindingRecord) (trusted : list OverrideComment) : list FindingRecord :=
  filter (fun f => extractOverrides trusted !! fr_key f = None) raw.

Definition isHigh (severity : string) : bool := (severityRank (Some "high") <=? severityRank (Some severity))%nat.

Definition ceilingOutcome (raw : list FindingRecord) (trusted : list OverrideComment) (demoteAndAdvance autoFileAllowed : bool)
    : CeilingOutcome :=
  let outstanding := ceilingOutstanding raw trusted in
  match outstanding with
  | [] => CeilingProceeds
  | _ =>
      let belowHigh := filter (fun f => isHigh (fr_severity f) = false) outstanding in
      let shouldDemote := demoteAndAdvance && negb (existsb (fun f => isHigh (fr_severity f)) outstanding) && bool_decide (belowHigh ≠ []) in
      if negb shouldDemote || negb autoFileAllowed then CeilingBlocks else CeilingDemotes belowHigh
  end.

(** ** One delta verdict *)

Section Gate.
Context (Date_parse : string → option Z) (isoOfMs : Z → option string).
Context (sha1hex : string → string) (showNum : rnum → string) (localeLe : string → string → bool).

Record GateInput := mkGate {
  gt_actor : option string;
  gt_allowlist : list string;
  gt_governance : OverrideGovernance;
  gt_policy : ReviewPolicy;
  gt_now : Z;
  gt_overrides : list OverrideComment;
  gt_history : list HistoryComment;
  gt_head_files : list HeadFileState;
  gt_findings : list ReviewFinding
}.

Definition gateDigest (i : GateInput) : list DigestRound := buildPriorRoundDigest (gt_history i) (gt_actor i) (gt_allowlist i).

Definition gateProjection (i : GateInput) : gmap string string * list ScopedOverride :=
  projectOverridesForPartition Date_parse isoOfMs sha1hex showNum
    (buildTrustedOverrideComments (gt_overrides i) (gt_actor i) (gt_allowlist i)) (gt_governance i) None (gt_now i) (gt_findings i).

Definition gatePartition (i : GateInput) : PartitionResult :=
  partitionFindings sha1hex showNum (gt_findings i) (gt_policy i) (gateProjection i).1 (gateProjection i).2 ∅ None
    (settledFindings (gateDigest i)).

Definition deltaGate (i : GateInput) : PartitionResult * option (list ChurnAxis) :=
  let digest := gateDigest i in
  let partition := gatePartition i in
  let evidence := applySettledSurfaceEvidenceRule sha1hex showNum (p_blocking partition)
                    (settledFindingsVerification localeLe digest) (gt_head_files i) in
  let carried := applyAdvisoryCarryForwardRule sha1hex showNum evidence.1 (priorAdvisoryFindings localeLe digest) (gt_head_files i) in
  (mkPartition carried.1 ((p_advisory partition ++ evidence.2) ++ carried.2) (p_overridden partition),
   detectSuspectedChurn carried.1 digest).
End Gate.

(** ** The evidence rules *)

Section Rules.
Context (sha1hex : string → string) (showNum : rnum → string) (headFiles : list HeadFileState).

Definition kept (reason : ReviewFinding → option AdvisoryReason) (f : ReviewFinding) : Prop :=
  reason f = None ∨ citesEvidence headFiles f = true.

#[local] Instance kept_dec reason f : Decision (kept reason f).
Proof. unfold kept. apply _. Defined.

Lemma demote_all reason l acc :
  let r := foldl (demoteUnverified headFiles reason) acc l in
  r.1 = acc.1 ++ filter (kept reason) l ∧ (∀ f x, (f, x) ∈ r.2 → (f, x) ∈ acc.2 ∨ (f ∈ l ∧ reason f = Some x ∧ citesEvidence headFiles f = false)) ∧
  acc.1 ++ l ++ acc.2.*1 ≡ₚ r.1 ++ r.2.*1.
Proof.
  revert acc. induction l as [|f l IH]; intros acc; simpl.
  { rewrite app_nil_r. split; [done|]. split; [by left|done]. }
  destruct (IH (demoteUnverified headFiles reason acc f)) as (H1 & H2 & H3).
  assert (kept reason f ∧ demoteUnverified headFiles reason acc f = (acc.1 ++ [f], acc.2) ∨
    ¬ kept reason f ∧ ∃ x, reason f = Some x ∧ citesEvidence headFiles f = false ∧ demoteUnverified headFiles reason acc f = (acc.1, acc.2 ++ [(f, x)])) as Hcase.
  { unfold demoteUnverified, kept. destruct (reason f) as [x|]; [|left; split; [by left|done]].
    destruct (citesEvidence headFiles f); [left; split; [by right|done]|right; split; [naive_solver|eauto]]. }
  rewrite filter_cons. destruct Hcase as [[Hk Hd]|(Hk & x & Hx & Hc & Hd)]; rewrite Hd in *; simpl in *.
  - rewrite decide_True by done. split; [by rewrite H1, <-app_assoc|]. split; [|by rewrite <-H3, <-app_assoc].
    intros g y [?|(? & ?)]%H2; [by left|right; split; [by right|done]].
  - rewrite decide_False by done. split; [done|]. split.
    + intros g y [[?|[= -> ->]%list_elem_of_singleton]%elem_of_app|(? & ?)]%H2; [by left|right; split; [left|done]|right; split; [by right|done]].
    + rewrite <-H3, fmap_app. simpl. rewrite (app_assoc l), (Permutation_app_comm (l ++ _) [f]). done.
Qed.

Lemma advisory_None f priors :
  matchPriorAdvisory sha1hex showNum f priors = None ↔ ∀ p, p ∈ priors → advisoryBasis sha1hex showNum f p = None.
Proof.
  unfold matchPriorAdvisory.
  assert (∀ b, foldl (betterAdvisory sha1hex showNum f) b priors = None ↔
    b = None ∧ ∀ p, p ∈ priors → advisoryBasis sha1hex showNum f p = None) as H; [|rewrite H; naive_solver].
  induction priors as [|p priors IH]; intros b; simpl; [split; [intros ->; split; [done|intros p Hp; inversion Hp]|by intros [-> _]]|].
  rewrite IH. setoid_rewrite elem_of_cons. unfold betterAdvisory. destruct (advisoryBasis sha1hex showNum f p) eqn:E; [|naive_solver].
  split; [|naive_solver]. destruct b as [[q y]|]; [case_decide|]; naive_solver.
Qed.

(** What the rules do to the findings that reach them. *)
Definition SettledAgain (settled : list SettledFindingVerification) (f : ReviewFinding) : Prop :=
  ∃ e, e ∈ settled ∧ is_Some (settledBasis sha1hex showNum f (asSettled e)).
Definition AdvisedBefore (priors : list PriorAdvisoryFinding) (f : ReviewFinding) : Prop :=
  ∃ p, p ∈ priors ∧ is_Some (advisoryBasis sha1hex showNum f p).

Lemma settledReason_None settled f : settledReason sha1hex showNum settled f = None ↔ ¬ SettledAgain settled f.
Proof.
  unfold settledReason, SettledAgain. rewrite fmap_None, matchSettled_None. split.
  - intros H (e & He & b & Hb). rewrite H in Hb; [done|]. apply list_elem_of_fmap. eauto.
  - intros H x (e & -> & He)%list_elem_of_fmap. destruct (settledBasis _ _ f (asSettled e)) eqn:E; [|done]. destruct H. exists e.
    split; [done|]. by rewrite E.
Qed.

Lemma carryReason_None priors f : carryReason sha1hex showNum priors f = None ↔ ¬ AdvisedBefore priors f.
Proof.
  unfold carryReason, AdvisedBefore. rewrite fmap_None, advisory_None. split.
  - intros H (p & Hp & b & Hb). by rewrite H in Hb.
  - intros H p Hp. destruct (advisoryBasis _ _ f p) eqn:E; [|done]. destruct H. exists p. split; [done|]. by rewrite E.
Qed.

Lemma settledReason_some settled f x : settledReason sha1hex showNum settled f = Some x → SettledAgain settled f.
Proof.
  unfold settledReason, SettledAgain. intros ([e b] & Hm & _)%fmap_Some. apply matchSettled_Some in Hm as [Hin Hb].
  apply list_elem_of_fmap in Hin as (v & -> & Hv). exists v. split; [done|]. by rewrite Hb.
Qed.

Lemma carryReason_some priors f x : carryReason sha1hex showNum priors f = Some x → AdvisedBefore priors f.
Proof.
  unfold carryReason, AdvisedBefore. intros ([p b] & Hm & _)%fmap_Some. revert Hm. unfold matchPriorAdvisory.
  assert (∀ best, (∀ q, best = Some q → ∃ p, p ∈ priors ∧ is_Some (advisoryBasis sha1hex showNum f p)) →
    ∀ l, l ⊆ priors → foldl (betterAdvisory sha1hex showNum f) best l = Some (p, b) →
    ∃ p, p ∈ priors ∧ is_Some (advisoryBasis sha1hex showNum f p)) as H; [|by apply H].
  intros best Hbest l. revert best Hbest. induction l as [|q l IH]; intros best Hbest Hsub; simpl; [by apply Hbest|].
  apply IH; [|set_solver]. unfold betterAdvisory. destruct (advisoryBasis sha1hex showNum f q) eqn:E; [|done].
  intros _ _. exists q. split; [set_solver|]. by rewrite E.
Qed.

(** A rule keeps, in order, the findings it has no record against or that cite
    evidence, and demotes the rest. *)
Lemma rule_spec (reason : ReviewFinding → option AdvisoryReason) (P : ReviewFinding → Prop) blocking (r : list ReviewFinding * list (ReviewFinding * AdvisoryReason)) :
  (∀ f, reason f = None ↔ ¬ P f) →
  r = foldl (demoteUnverified headFiles reason) ([], []) blocking ∨ (r = (blocking, []) ∧ ∀ f, ¬ P f) →
  (∀ f, f ∈ r.1 ↔ f ∈ blocking ∧ (¬ P f ∨ citesEvidence headFiles f = true)) ∧
  r.1 `sublist_of` blocking ∧ blocking ≡ₚ r.1 ++ r.2.*1.
Proof.
  intros HP [->|[-> Hno]].
  - destruct (demote_all reason blocking ([], [])) as (H1 & _ & H3). rewrite H1 in *. simpl in *. rewrite app_nil_r in H3.
    split; [|split; [apply sublist_filter|done]]. intros f. rewrite list_elem_of_filter. unfold kept. rewrite HP. tauto.
  - simpl. rewrite app_nil_r. split; [|done]. intros f. specialize (Hno f). tauto.
Qed.

Lemma settled_rule blocking settled :
  let r := applySettledSurfaceEvidenceRule sha1hex showNum blocking settled headFiles in
  (∀ f, f ∈ r.1 ↔ f ∈ blocking ∧ (¬ SettledAgain settled f ∨ citesEvidence headFiles f = true)) ∧
  r.1 `sublist_of` blocking ∧ blocking ≡ₚ r.1 ++ r.2.*1.
Proof.
  apply (rule_spec (settledReason sha1hex showNum settled)); [apply settledReason_None|].
  destruct settled; [right; split; [done|]; intros f (e & He & _); inversion He|by left].
Qed.

Lemma carry_rule blocking priors :
  let r := applyAdvisoryCarryForwardRule sha1hex showNum blocking priors headFiles in
  (∀ f, f ∈ r.1 ↔ f ∈ blocking ∧ (¬ AdvisedBefore priors f ∨ citesEvidence headFiles f = true)) ∧
  r.1 `sublist_of` blocking ∧ blocking ≡ₚ r.1 ++ r.2.*1.
Proof.
  apply (rule_spec (carryReason sha1hex showNum priors)); [apply carryReason_None|].
  destruct priors; [right; split; [done|]; intros f (e & He & _); inversion He|by left].
Qed.
End Rules.

(** ** The gate *)

Section GateTheorems.
Context (Date_parse : string → option Z) (isoOfMs : Z → option string).
Context (sha1hex : string → string) (showNum : rnum → string) (localeLe : string → string → bool).
Notation deltaGate := (deltaGate Date_parse isoOfMs sha1hex showNum localeLe).
Notation gateProjection := (gateProjection Date_parse isoOfMs sha1hex showNum).
Notation gatePartition := (gatePartition Date_parse isoOfMs sha1hex showNum).

(** The finding must block before the delta rules are asked. *)
Definition PolicyBlocks (i : GateInput) (f : ReviewFinding) : Prop :=
  MustBlock sha1hex showNum (gt_policy i) (gateProjection i).1 (gateProjection i).2 ∅ None (settledFindings (gateDigest i)) (gt_findings i) f.

(** The rules hold an earlier record against it, and it shows no evidence. *)
Definition UnverifiedRepeat (i : GateInput) (f : ReviewFinding) : Prop :=
  citesEvidence (gt_head_files i) f = false ∧
  (SettledAgain sha1hex showNum (settledFindingsVerification localeLe (gateDigest i)) f ∨
   AdvisedBefore sha1hex showNum (priorAdvisoryFindings localeLe (gateDigest i)) f).

Lemma gate_blocking i f :
  f ∈ p_blocking (deltaGate i).1 ↔ f ∈ gt_findings i ∧ PolicyBlocks i f ∧ ¬ UnverifiedRepeat i f.
Proof.
  unfold deltaGate. cbn [fst p_blocking].
  destruct (carry_rule sha1hex showNum (gt_head_files i)
    (applySettledSurfaceEvidenceRule sha1hex showNum (p_blocking (gatePartition i))
      (settledFindingsVerification localeLe (gateDigest i)) (gt_head_files i)).1
    (priorAdvisoryFindings localeLe (gateDigest i))) as (-> & _).
  destruct (settled_rule sha1hex showNum (gt_head_files i) (p_blocking (gatePartition i))
    (settledFindingsVerification localeLe (gateDigest i))) as (-> & _).
  unfold gatePartition, UnverifiedRepeat. rewrite partition_blocking. fold (PolicyBlocks i f).
  destruct (citesEvidence (gt_head_files i) f); intuition congruence.
Qed.

(** A finding settled before has its surface. *)
Definition OnSettledSurface (i : GateInput) (f : ReviewFinding) : Prop :=
  ∃ e, e ∈ settledFindingsVerification localeLe (gateDigest i) ∧ is_Some (surfaceKey f) ∧ surfaceKey f = st_surface (asSettled e).

(** C22. The delta gate lets through what it must and loses nothing: a finding
    that still blocks is one of the verdict that the policy, the governed
    overrides and the guards against silent reversals let block, and it cites
    evidence from the head or repeats neither a presumed-resolved finding nor a
    prior advisory; such a finding of the verdict does block when it cites that
    evidence, or when no settled finding has its surface; the blocking findings
    keep their order and every finding of the verdict stays on record once. *)
Theorem delta_gate_exact i :
  let r := (deltaGate i).1 in
  (∀ f, f ∈ p_blocking r → f ∈ gt_findings i ∧ PolicyBlocks i f ∧ ¬ UnverifiedRepeat i f) ∧
  (∀ f, f ∈ gt_findings i → PolicyBlocks i f →
        citesEvidence (gt_head_files i) f = true ∨ (¬ UnverifiedRepeat i f ∧ ¬ OnSettledSurface i f) → f ∈ p_blocking r) ∧
  p_blocking r `sublist_of` gt_findings i ∧
  gt_findings i ≡ₚ p_blocking r ++ (p_advisory r).*1 ++ (p_overridden r).*1.
Proof.
  intros r. split; [intros f; apply gate_blocking|]. split.
  { intros f Hf Hp Hc. apply gate_blocking. do 2 (split; [done|]). intros Hu. destruct Hc as [Hc|[Hn _]]; [|done]. destruct Hu as [Hu _]. congruence. }
  subst r. unfold deltaGate. cbn [fst p_blocking p_advisory p_overridden].
  destruct (partition_lossless sha1hex showNum (gt_policy i) (gateProjection i).1 (gateProjection i).2 ∅ None
    (settledFindings (gateDigest i)) (gt_findings i)) as [Hs Hp]. fold (gatePartition i) in Hs, Hp.
  pose proof (settled_rule sha1hex showNum (gt_head_files i) (p_blocking (gatePartition i))
    (settledFindingsVerification localeLe (gateDigest i))) as (_ & Hs1 & Hp1).
  set (ev := applySettledSurfaceEvidenceRule _ _ _ _ _) in *.
  pose proof (carry_rule sha1hex showNum (gt_head_files i) ev.1 (priorAdvisoryFindings localeLe (gateDigest i))) as (_ & Hs2 & Hp2).
  set (ca := applyAdvisoryCarryForwardRule _ _ _ _ _) in *. split; [by repeat (etrans; [eassumption|])|].
  rewrite !fmap_app. rewrite Hp at 1. rewrite Hp1, Hp2. clear. rewrite <-!app_assoc. apply Permutation_app_head.
  solve_Permutation.
Qed.

(** A decision of the gate's comments that governs. *)
Definition GateGoverns (i : GateInput) (d : OverrideDecision) : Prop :=
  Governs Date_parse isoOfMs sha1hex showNum (gt_overrides i) (gt_actor i) (gt_allowlist i) (gt_governance i) None (gt_now i)
    (gt_findings i) d.

(** The earlier records the delta rules look for, as a decision. *)
Lemma repeat_dec i f :
  Decision (SettledAgain sha1hex showNum (settledFindingsVerification localeLe (gateDigest i)) f ∨
            AdvisedBefore sha1hex showNum (priorAdvisoryFindings localeLe (gateDigest i)) f).
Proof.
  destruct (settledReason sha1hex showNum (settledFindingsVerification localeLe (gateDigest i)) f) eqn:Es.
  { left. left. destruct (settledReason_some _ _ _ _ _ Es) as (e & ? & ?). by exists e. }
  destruct (carryReason sha1hex showNum (priorAdvisoryFindings localeLe (gateDigest i)) f) eqn:Ec.
  { left. right. destruct (carryReason_some _ _ _ _ _ Ec) as (e & ? & ?). by exists e. }
  right. apply settledReason_None in Es. apply carryReason_None in Ec. tauto.
Qed.

(** Where the first partition puts a finding at or above the policy. *)
Lemma gatePlacement_cases i f :
  f ∈ gt_findings i → f_blocking f ≠ Some false → isAboveSeverity (gt_policy i) f = true → belowConfidence (gt_policy i) f = false →
  (∃ s, s ∈ (gateProjection i).2 ∧ matchFindingScope (f_category f) (f_file f) s = true) ∨
  (∃ x, (gateProjection i).1 !! findingKey sha1hex showNum f = Some x ∧ Unambiguous sha1hex showNum (gt_policy i) (gt_findings i) f) ∨
  (hasAcknowledgment f = false ∧ Reraises sha1hex showNum (settledFindings (gateDigest i)) f) ∨
  PolicyBlocks i f.
Proof.
  intros Hin Hb Ha Hc.
  set (byKey := blockingFingerprintsByKey sha1hex showNum (gt_policy i) (gt_findings i)).
  pose proof (place_Blocks sha1hex showNum (gt_policy i) (gateProjection i).1 (gateProjection i).2 ∅ None
    (settledFindings (gateDigest i)) (gt_findings i) f Hin) as Hpb.
  pose proof (place_Overridden sha1hex showNum (gt_policy i) (gateProjection i).1 (gateProjection i).2 ∅ None
    (settledFindings (gateDigest i)) (gt_findings i) f) as Hov. fold byKey in Hpb, Hov.
  destruct (placeFinding _ _ _ _ _ _ _ _ byKey f) as [|a|o] eqn:Ep.
  - right. right. right. by apply Hpb.
  - right. right. left. by apply (place_Advises _ _ _ _ _ _ _ _ _ _ _ Hb Ha Hc Ep).
  - specialize (Hov o Hin eq_refl). destruct o as [k d|t v d x].
    + right. left. destruct Hov as (-> & _ & Hu & [Hx|Hx]); [eauto|done].
    + left. destruct Hov. eauto.
Qed.

(** C23. A delta review passes only for a reason: when nothing blocks, every
    finding at or above the policy that the reviewer did not mark as
    non-blocking is covered by the scope of a governing decision, or is the only
    blocking payload of a key with a governing decision, or repeats without
    acknowledgment what an earlier round settled, or repeats an earlier record
    without evidence from the head. *)
Theorem delta_pass_justified i f :
  p_blocking (deltaGate i).1 = [] → f ∈ gt_findings i →
  f_blocking f ≠ Some false → isAboveSeverity (gt_policy i) f = true → belowConfidence (gt_policy i) f = false →
  (∃ d t v, GateGoverns i d ∧ d_target d = TargetScope t v ∧
     matchFindingScope (f_category f) (f_file f) (mkScope t v (d_disposition d) (d_explanation d)) = true) ∨
  (∃ d, GateGoverns i d ∧ d_target d = TargetKey (findingKey sha1hex showNum f) ∧
     Unambiguous sha1hex showNum (gt_policy i) (gt_findings i) f) ∨
  (hasAcknowledgment f = false ∧ Reraises sha1hex showNum (settledFindings (gateDigest i)) f) ∨
  UnverifiedRepeat i f.
Proof.
  intros Hpass Hin Hb Ha Hc.
  assert (¬ (PolicyBlocks i f ∧ ¬ UnverifiedRepeat i f)) as Hno.
  { intros Hx. assert (f ∈ p_blocking (deltaGate i).1) as Hf by (apply gate_blocking; tauto). rewrite Hpass in Hf. inversion Hf. }
  destruct (gatePlacement_cases i f Hin Hb Ha Hc) as [(s & Hs & Hm)|[(x & Hx & Hu)|[[Hk Hr]|Hpb]]].
  - left. unfold gateProjection in Hs. apply projected_scope in Hs as (d & Ht & Hd & Hr & Hg). exists d, (sc_type s), (sc_value s). split; [done|].
    split; [done|]. rewrite Hd, Hr. by destruct s.
  - right. left. unfold gateProjection in Hx. apply projected_key in Hx as (d & Ht & _ & Hg). eauto.
  - right. right. left. done.
  - right. right. right. unfold UnverifiedRepeat in *. destruct (citesEvidence (gt_head_files i) f).
    + exfalso. apply Hno. split; [done|]. by intros [? _].
    + split; [done|]. destruct (repeat_dec i f) as [|Hn]; [done|]. exfalso. apply Hno. split; [done|]. by intros [_ ?].
Qed.

(** *** Overrides and payloads *)

Lemma live_last findings f :
  f ∈ findings →
  ∃ g, g ∈ findings ∧ findingKey sha1hex showNum g = findingKey sha1hex showNum f ∧
    liveOfFindings sha1hex showNum findings !! targetKey (TargetKey (findingKey sha1hex showNum f)) =
      Some (mkLive (Some (findingPayloadFingerprint sha1hex showNum g)) (Some (codeRegionFromFinding sha1hex showNum g)) None).
Proof.
  intros Hin. unfold liveOfFindings. induction findings as [|x l IH] using rev_ind; [inversion Hin|].
  rewrite foldl_app. cbn [foldl]. unfold addLive at 1. cbn [targetKey].
  destruct (decide (findingKey sha1hex showNum x = findingKey sha1hex showNum f)) as [He|Hne].
  - exists x. split; [apply elem_of_app; right; left|]. split; [done|]. by rewrite He, lookup_insert_eq.
  - apply elem_of_app in Hin as [Hin| ->%list_elem_of_singleton]; [|done]. destruct (IH Hin) as (g & Hg & Hk & Hl).
    exists g. split; [apply elem_of_app; by left|]. split; [done|]. rewrite lookup_insert_ne; [done|]. intros [= Hx]. by apply Hne.
Qed.

(** A key override clears the payload it was recorded for: when the findings of
    the verdict with the key have one payload, a governing decision that names a
    fingerprint names that of the finding it clears. *)
Theorem key_override_bound_to_payload i f x :
  (∀ g, g ∈ gt_findings i → findingKey sha1hex showNum g = findingKey sha1hex showNum f →
     findingPayloadFingerprint sha1hex showNum g = findingPayloadFingerprint sha1hex showNum f) →
  findingPayloadFingerprint sha1hex showNum f ≠ "" → f ∈ gt_findings i →
  (f, OverriddenKey (findingKey sha1hex showNum f) x) ∈ p_overridden (deltaGate i).1 →
  ∃ d, GateGoverns i d ∧ d_target d = TargetKey (findingKey sha1hex showNum f) ∧ d_disposition d = x ∧
    (truthyText (d_fingerprint d) = true → d_fingerprint d = Some (findingPayloadFingerprint sha1hex showNum f)).
Proof.
  intros Hsame Hfp Hin Hov. unfold deltaGate in Hov. cbn [fst p_overridden] in Hov.
  apply partition_overridden in Hov as (_ & _ & _ & [Hx|Hx]); [|discriminate Hx].
  unfold gateProjection in Hx. apply projected_key in Hx as (d & Ht & Hd & Hg). exists d. split_and!; try done.
  intros Htr. destruct Hg as (_ & Hv & _). destruct (live_last (gt_findings i) f Hin) as (g & Hgin & Hk & Hl).
  rewrite Ht, Hl in Hv. destruct (cv_drift _ _ _ _ _ _ Hv) as [Hdr _]; [by eexists|]. simpl in Hdr.
  unfold drifted in Hdr. rewrite Htr, (Hsame g Hgin Hk) in Hdr. simpl in Hdr. rewrite bool_decide_true in Hdr by done.
  simpl in Hdr. by apply bool_decide_eq_false, dec_stable in Hdr.
Qed.
End GateTheorems.

(** ** The number of delta reviews *)

(** The life of an issue's thread: comments of anybody, and delta reviews when
    the gate takes that route, each posting its comment. *)
Inductive delta_run (actor : string) (trusted : list string) (cap : nat) : list HistoryComment → nat → Prop :=
| run_start comments : delta_run actor trusted cap comments 0
| run_comment comments n c : delta_run actor trusted cap comments n → delta_run actor trusted cap (comments ++ [c]) n
| run_review comments n head m :
    delta_run actor trusted cap comments n → gateRoute comments (Some actor) trusted cap head = RouteDelta →
    delta_run actor trusted cap (comments ++ [mkHistoryComment (Some actor) (DeltaBody m)]) (S n).

Lemma count_snoc comments actor trusted c :
  countDeltaRounds (comments ++ [c]) (Some actor) trusted =
  countDeltaRounds comments (Some actor) trusted + match trustedDelta actor trusted c with Some _ => 1 | None => 0 end.
Proof.
  unfold countDeltaRounds. rewrite omap_app, length_app. simpl. by destruct (trustedDelta actor trusted c).
Qed.

Lemma route_delta count cap superseded :
  0 < cap → deltaRoute count cap superseded = RouteDelta ↔ count < cap ∨ (count = cap ∧ superseded = true).
Proof.
  intros Hc. unfold deltaRoute. rewrite (proj2 (Nat.ltb_lt 0 cap)) by done.
  destruct (lt_eq_lt_dec count cap) as [[Hlt| ->]|Hgt].
  - rewrite (proj2 (Nat.leb_gt cap count)) by done. simpl. split; [by left|done].
  - rewrite Nat.leb_refl, Nat.eqb_refl, Nat.ltb_irrefl. destruct superseded; simpl; split; try done; [by right|].
    intros [?|[_ ?]]; [lia|done].
  - rewrite (proj2 (Nat.leb_le cap count)), (proj2 (Nat.eqb_neq count cap)), (proj2 (Nat.ltb_lt cap count)) by lia.
    destruct superseded; simpl; split; try done; lia.
Qed.

Lemma run_counted actor trusted cap comments n :
  delta_run actor trusted cap comments n → n ≤ countDeltaRounds comments (Some actor) trusted.
Proof.
  induction 1 as [comments|comments n c _ IH|comments n head m _ IH _]; [lia|rewrite count_snoc; lia|].
  assert (trustedDelta actor trusted (mkHistoryComment (Some actor) (DeltaBody m)) = Some m) as Ht.
  { unfold trustedDelta. cbn [hc_author hc_body]. rewrite (proj2 (includes_true _ _)); [done|left]. }
  rewrite count_snoc, Ht. lia.
Qed.

(** Delta reviews are bounded: with a positive cap, however the thread of an
    issue grows and however often the head moves, at most one delta review more
    than the cap is run; the extra one only against a head the last one did not
    see. *)
Theorem delta_reviews_bounded actor trusted cap comments n :
  0 < cap → delta_run actor trusted cap comments n →
  n ≤ cap + 1 ∧
  ∀ head, gateRoute comments (Some actor) trusted cap head = RouteDelta →
    n < cap ∨ (n ≤ cap ∧ ∃ sha, latestDeltaReviewCandidate comments (Some actor) trusted = Some (Some sha) ∧ lowerString sha ≠ lowerString head).
Proof.
  intros Hc Hr. assert (∀ cs head, gateRoute cs (Some actor) trusted cap head = RouteDelta →
    countDeltaRounds cs (Some actor) trusted < cap ∨
    (countDeltaRounds cs (Some actor) trusted = cap ∧
     ∃ sha, latestDeltaReviewCandidate cs (Some actor) trusted = Some (Some sha) ∧ lowerString sha ≠ lowerString head)) as Hroute.
  { intros cs head Hd. unfold gateRoute in Hd. apply route_delta in Hd as [?|[? Hs]]; [by left| |done]. right. split; [done|].
    destruct (latestDeltaReviewCandidate cs (Some actor) trusted) as [[sha|]|]; [|done..]. exists sha. split; [done|].
    by apply bool_decide_eq_true in Hs. }
  split.
  - induction Hr as [|comments n c Hr IH|comments n head m Hr IH Hd]; [lia|done|].
    apply run_counted in Hr. apply Hroute in Hd as [?|[? _]]; lia.
  - intros head Hd. apply run_counted in Hr. apply Hroute in Hd as [?|[? ?]]; [left; lia|right; split; [lia|done]].
Qed.
