(* ===== verification/ReviewSamples.v ===== *)
(** * The review gate on concrete inputs

    A small review history with its comments, overrides and verdicts: the
    instances that meet the premises of the theorems on the review components,
    and the consequences of governance rules that the code does not enforce. *)

From Stdlib Require Import QArith Qcanon Qround Ascii.
From stdpp Require Import base numbers gmap strings list pretty.
From S2P Require Import Prelude Ownership ReviewFindings ReviewPolicy EvidenceSubject OverrideGovernance ReviewHistory ReviewGate.

Module ReviewSample.

(** A toy digest, a toy printer, and a clock of three printable moments. *)
Definition digestOf (s : string) : string := unchars (reverse (chars s)).
Definition printNum (n : rnum) : string := match n with Num q => pretty (Qfloor q) | PosInf => "Infinity" | NegInf => "-Infinity" | NaN => "NaN" end.
Definition printJs (n : jsnum) : string := match n with Fin q => pretty (Qfloor q) | NonFinite => "NaN" end.
Definition alphabetical (a b : string) : bool := bool_decide (String.le a b).

Definition HOUR : Z := 3600000.
Definition noon : string := "2026-01-01T12:00:00Z".
Definition nextMonth : string := "2026-01-31T12:00:00Z".
Definition noonMs : Z := 1767268800000.

Definition parseDate (s : string) : option Z :=
  if decide (s = noon) then Some noonMs
  else if decide (s = nextMonth) then Some (noonMs + 720 * HOUR)%Z
  else if decide (s = FAR_FUTURE) then Some 253402300799000%Z
  else None.

Definition printDate (ms : Z) : option string :=
  if decide (ms / 1000 * 1000 = noonMs)%Z then Some noon
  else if decide (ms / 1000 * 1000 = noonMs + 720 * HOUR)%Z then Some nextMonth
  else None.

Lemma printed_second ms s : printDate ms = Some s → parseDate s = Some (ms / 1000 * 1000)%Z.
Proof.
  unfold printDate, parseDate. repeat case_decide; intros [= <-]; try done; congruence.
Qed.

(** ** Findings *)

Definition mkF (severity title body : string) (line : Z) : ReviewFinding :=
  mkFinding (Some severity) (Some title) (Some body) (Some "src/auth.ts") (Some (rz line)) None (Some (Num (Q2Qc (9 # 10))))
    (Some "Validate the token") (Some "security") None None.

Definition leak : ReviewFinding := mkF "high" "Token is logged in clear text" "The handler prints the token." 12.
Definition race : ReviewFinding := mkF "high" "Refresh races with logout" "Two requests may interleave." 40.
Definition nit : ReviewFinding := mkF "low" "Rename the helper" "Unclear name." 80.

Definition policy : ReviewPolicy := mkPolicy "medium" (Num (Q2Qc (1 # 2))).

Notation key f := (findingKey digestOf printNum f).

(** ** Recording *)

Definition recorded : result (Refusal * string) (result string OverrideDecision) :=
  recordCommand parseDate printDate printJs implicitOverrideGovernance (Some "alice") [] "ovr-1" None (TargetKey (key leak))
    "deferred" "tracked elsewhere" noon.

Definition decision : OverrideDecision :=
  mkDecision "ovr-1" IMPLICIT_LOW_RISK_CLASS "deferred" (TargetKey (key leak)) "tracked elsewhere" "alice" "gh_actor"
    (mkAuthorization true (Some "trusted_override_actors_allowlist#0") "trusted_override_actors_allowlist (implicit) accepts alice" "gh_actor")
    [] [] None None None noon nextMonth StoredActive None None None false.

Example record_accepts : recorded = Ok (Ok decision).
Proof. vm_compute. reflexivity. Qed.

(** *** The premises of the recording theorems *)

Definition buildInput : DecisionInput :=
  mkDecisionInput "ovr-1" IMPLICIT_LOW_RISK_CLASS "deferred" (TargetKey (key leak)) "tracked elsewhere" "alice" "gh_actor"
    (d_authorization decision) [] [] None None None noon (num 720) None None None.

Lemma override_duration_bounded_witness :
  buildOverrideDecision parseDate printDate printJs buildInput = Ok decision ∧
  ∃ created, parseDate noon = Some created ∧ (1 ≤ 720)%Z ∧
    (evaluateOverrideValidity parseDate decision None noLive (getClassPolicy implicitOverrideGovernance IMPLICIT_LOW_RISK_CLASS)
       noonMs None None = VActive → (noonMs < created + 720 * 3600000)%Z) ∧
    ((noonMs < (created + 720 * 3600000) / 1000 * 1000)%Z ↔
     evaluateOverrideValidity parseDate decision None noLive (getClassPolicy implicitOverrideGovernance IMPLICIT_LOW_RISK_CLASS)
       noonMs None None ≠ VExpired).
Proof.
  split; [vm_compute; reflexivity|].
  apply (override_duration_bounded parseDate printDate printJs printed_second buildInput 720 decision None noLive); vm_compute; reflexivity.
Defined.

Example expired_later :
  evaluateOverrideValidity parseDate decision None noLive (getClassPolicy implicitOverrideGovernance IMPLICIT_LOW_RISK_CLASS)
    (noonMs + 720 * HOUR)%Z None None = VExpired.
Proof. vm_compute. reflexivity. Qed.

(** An earlier decision on another finding. *)
Definition older : OverrideComment := mkComment (Some "bob") (Some noon) FindingOverrideHeading None (Some (KeySentinel (key race) "wontfix")).

Lemma recorded_override_effective_witness :
  recorded = Ok (Ok decision) ∧
  (projectOverridesForPartition parseDate printDate digestOf printNum
     ([older] ++ [overrideComment (Some "alice") (Some noon) decision]) implicitOverrideGovernance None noonMs [leak; race]).1
    !! key leak = Some "deferred".
Proof.
  split; [vm_compute; reflexivity|].
  apply (recorded_override_effective parseDate printDate printJs digestOf printNum implicitOverrideGovernance (Some "alice") [] "ovr-1" None
    (TargetKey (key leak)) "deferred" "tracked elsewhere" noon decision [older] None noonMs [leak; race]).
  - vm_compute. reflexivity.
  - done.
  - intros e He. vm_compute in He. apply list_elem_of_singleton in He as ->. done.
  - intros ms Hms. vm_compute in Hms. injection Hms as <-. done.
Defined.

(** ** The gate *)

(** One earlier review round blocked on the race, the next did not. *)
Definition sha (c : string) : string := c +:+ c +:+ c +:+ c.
Definition raceRecord : FindingRecord :=
  mkFindingRecord (key race) (surfaceKey race) "high" "Refresh races with logout" (Some (Num (Q2Qc (9 # 10)))) [].
Definition firstRound : HistoryComment :=
  mkHistoryComment (Some "alice") (ReviewBody (mkMarkers (Some (mkReviewArtifact (sha "aaaaaaaaaa") [key race] (Some [raceRecord]) None))
    None [] None None)).
Definition deltaMarkers (s : string) : ReviewMarkers := mkMarkers (Some (mkReviewArtifact s [] (Some []) (Some []))) None [] None None.
Definition deltaRound (s : string) : HistoryComment := mkHistoryComment (Some "alice") (DeltaBody (deltaMarkers s)).

Definition gate (now : Z) (findings : list ReviewFinding) : GateInput :=
  mkGate (Some "alice") [] implicitOverrideGovernance policy now [overrideComment (Some "alice") (Some noon) decision]
    [firstRound; deltaRound (sha "bbbbbbbbbb")] [mkHeadFile "src/auth.ts" "export function refresh() {" false true None] findings.

Notation runGate i := (deltaGate parseDate printDate digestOf printNum alphabetical i).

(** The leak is overridden, the race repeats what was fixed, the nit is below
    the policy. *)
Example gate_passes :
  let r := (runGate (gate noonMs [leak; race; nit])).1 in
  p_blocking r = [] ∧ length (p_advisory r) = 2 ∧ p_overridden r = [(leak, OverriddenKey (key leak) "deferred")].
Proof. vm_compute. split_and!; reflexivity. Qed.

(** After its month the override no longer clears. *)
Example gate_blocks_after_expiry : p_blocking (runGate (gate (noonMs + 720 * HOUR) [leak; race; nit])).1 = [leak].
Proof. vm_compute. reflexivity. Qed.

Lemma delta_pass_justified_witness :
  let i := gate noonMs [leak; race; nit] in
  p_blocking (runGate i).1 = [] ∧
  ((∃ d t v, GateGoverns parseDate printDate digestOf printNum i d ∧ d_target d = TargetScope t v ∧
      matchFindingScope (f_category leak) (f_file leak) (mkScope t v (d_disposition d) (d_explanation d)) = true) ∨
   (∃ d, GateGoverns parseDate printDate digestOf printNum i d ∧ d_target d = TargetKey (key leak) ∧
      Unambiguous digestOf printNum (gt_policy i) (gt_findings i) leak) ∨
   (hasAcknowledgment leak = false ∧ Reraises digestOf printNum (settledFindings (gateDigest i)) leak) ∨
   UnverifiedRepeat digestOf printNum alphabetical i leak).
Proof.
  split; [vm_compute; reflexivity|].
  apply (delta_pass_justified parseDate printDate digestOf printNum alphabetical (gate noonMs [leak; race; nit]) leak).
  - vm_compute. reflexivity.
  - left.
  - done.
  - vm_compute. reflexivity.
  - vm_compute. reflexivity.
Defined.

(** *** The number of delta reviews *)

Definition deltaThread : list HistoryComment := [firstRound; deltaRound (sha "bbbbbbbbbb"); deltaRound (sha "cccccccccc")].

Lemma deltaThread_run : delta_run "alice" [] 1 deltaThread 2.
Proof.
  apply (run_review "alice" [] 1 [firstRound; deltaRound (sha "bbbbbbbbbb")] 1 (sha "cccccccccc")); [|vm_compute; reflexivity].
  apply (run_review "alice" [] 1 [firstRound] 0 (sha "bbbbbbbbbb")); [apply run_start|vm_compute; reflexivity].
Qed.

Lemma delta_reviews_bounded_witness :
  2 ≤ 1 + 1 ∧
  ∀ head, gateRoute deltaThread (Some "alice") [] 1 head = RouteDelta →
    2 < 1 ∨ (2 ≤ 1 ∧ ∃ s, latestDeltaReviewCandidate deltaThread (Some "alice") [] = Some (Some s) ∧ lowerString s ≠ lowerString head).
Proof. apply (delta_reviews_bounded "alice" [] 1 deltaThread 2); [lia|apply deltaThread_run]. Defined.

(** The third head goes back to a full review. *)
Example spent_reset : gateRoute deltaThread (Some "alice") [] 1 (sha "dddddddddd") = RouteFullReview.
Proof. vm_compute. reflexivity. Qed.

(** ** What the code does not enforce *)

(** Neither recording path names the parties of a finding, so the separation of
    duties of a class never refuses anybody. *)
Theorem sod_never_refuses Date_parse isoOfMs showJs g actor allowlist id cls target disp reason created msg :
  recordCommand Date_parse isoOfMs showJs g actor allowlist id cls target disp reason created ≠ Err (SodViolation, msg).
Proof.
  unfold recordCommand, validateOverrideRecord. cbn [vi_class vi_explanation vi_authorize].
  destruct (resolveClassId g _); [|done]. destruct (getClassPolicy g _) as [p|]; [|done]. destruct (blank _); [done|].
  destruct (recordEvidenceRefs _). destruct (missingRequiredEvidence _ _ _); [|done].
  destruct (authorizeOverrideActor _ p) as [|e] eqn:E; [done|]. intros [= Hc _]. revert E Hc.
  unfold authorizeOverrideActor, commandAuthorization, checkOverrideSeparationOfDuties. simpl. rewrite !andb_false_r.
  destruct actor; [|naive_solver]. destruct (blank _); [naive_solver|]. destruct (cp_sod_enabled p); simpl;
    repeat case_match; naive_solver.
Qed.

(** A decision whose expiry does not parse is active at every time. *)
Definition undated : OverrideDecision :=
  mkDecision "ovr-2" IMPLICIT_LOW_RISK_CLASS "deferred" (TargetKey (key leak)) "tracked elsewhere" "alice" "gh_actor"
    (d_authorization decision) [] [] None None None noon "soon" StoredActive None None None false.

Theorem undated_never_expires now :
  evaluateOverrideValidity parseDate undated None noLive (getClassPolicy implicitOverrideGovernance IMPLICIT_LOW_RISK_CLASS) now None None
  = VActive.
Proof. reflexivity. Qed.

(** At the round ceiling an expired override still clears the finding that the
    partition would block on. *)
Theorem ceiling_ignores_expiry :
  let now := (noonMs + 720 * HOUR)%Z in
  let comments := [overrideComment (Some "alice") (Some noon) decision] in
  let record := mkFindingRecord (key leak) (surfaceKey leak) "high" "Token is logged in clear text" None [] in
  (projectOverridesForPartition parseDate printDate digestOf printNum comments implicitOverrideGovernance None now [leak]).1 !! key leak = None ∧
  ceilingOutcome [record] comments false false = CeilingProceeds.
Proof. vm_compute. split; reflexivity. Qed.

(** A new finding on a settled surface, with another title, keeps blocking
    although it cites nothing from the head. *)
Theorem surface_alone_not_demoted :
  let fresh := mkF "high" "Password hash uses a fixed salt" "Every account shares the salt." 60 in
  surfaceKey fresh = surfaceKey race ∧ citesEvidence (gt_head_files (gate noonMs [])) fresh = false ∧
  p_blocking (runGate (gate noonMs [fresh])).1 = [fresh].
Proof. vm_compute. split_and!; reflexivity. Qed.
End ReviewSample.
